(* ===== verification/_CoqProject ===== *)
-Q . S2P
Prelude.v
Endian.v
OS.v
Proto.v
Wire.v
Tls.v
StreamLayer.v
Config.v
Store.v
Index.v
Names.v
Segment.v
Log.v
LogInv.v
LogReopen.v
LogSpec.v
LogTruncate.v
Scenario.v
StorageProps.v
LogProps.v
LogTyped.v
LogFrame.v
PowerLoss.v
Locks.v
Goroutines.v
LogCrash.v
Raft.v
LogStore.v
LogStoreProps.v
Fsm.v
FsmProps.v
Snapshot.v
Faults.v
Closed.v
RaftPebble.v
RaftPebbleProps.v
NetAddr.v
Port.v
Http.v
Server.v
ServerProps.v
Cluster.v
ClusterProps.v
ClusterLive.v
Distributed.v
DistributedProps.v
Auth.v
Service.v
HttpClient.v
Replicator.v
ReplicatorProps.v
Discovery.v
DiscoveryProps.v
Otel.v
Agent.v
ClusterClient.v
ServiceProps.v
AgentProps.v
Restart.v
Main.v
MainProps.v
