(* ===== verification/Prelude.v ===== *)
(** * A verified model of a distributed commit log

    The program is a service that keeps an append-only log of records on disk
    and replicates it with raft.  Its parts, from the disk upwards:

    - the commit log ([internal/log]): a [store] file of length-prefixed records
      and a memory-mapped [index] file per [segment], and a [Log] of segments;
    - raft's two stores: the log store is the commit log itself
      ([internal/log/distributed/store.go]), the stable store lies on Pebble
      ([internal/raftpebble]);
    - the replicated log ([internal/log/distributed]): a finite state machine
      that applies committed entries to a commit log, its snapshots, the
      transport, and the [Log] that appends through raft;
    - the service ([internal/server]) with its interceptors, authentication and
      authorisation ([internal/http], [internal/auth]), behind the stubs of
      [gen/log/v1/logv1connect];
    - discovery ([internal/discovery]), which turns membership events into calls
      of a handler, and the older pull-based replicator
      ([internal/log/replicator]), which is such a handler too;
    - the agent ([internal/agent]), which wires the parts together, listens and
      shuts them down in order; the command line ([cmd/server]) with telemetry
      ([internal/otel]), and the port helper of the tests ([internal/net]).

    ** How code is modelled

    Go functions are functions of a state and failure monad [M S A] (this file):
    a call returns a value, a non-nil [error], or panics, and changes the state
    [S] it acts on.  Composition follows the source: an operation on a field of a
    structure is the operation on the field's state, lifted by [zoom].  64-bit
    arithmetic that can wrap is written with its conversion ([u64], [+64], ...).
    The disk is a value ([OS.world]) with an oracle that can make any system call
    fail and any write be short; theorems that do not mention the oracle hold
    under every pattern of failures, and [healthy] says that the disk works.
    The calls of a log by several goroutines, under its [sync.RWMutex], are programs
    that run in steps ([Locks], [Goroutines]); they are proved to behave as a sequence
    of whole operations, which is what the other files work with.  Where the program
    has goroutines of its own (streams, the replicator, the event loop, the agent's
    servers) they are step functions whose interleavings are sequences of steps.
    Libraries that the repository does not contain are type classes, with what the code relies on as a class of laws;
    each class of laws has an instance, so that no theorem is vacuous.

    ** Files

    - [Prelude]: integers, errors, the monad, simulation of sequences of
      operations, list lemmas, tactics.  [Endian]: [binary.BigEndian].  [OS]: the
      file system, [os.File] with its offset, [bufio.Writer].  [Proto]: messages
      and the interface of their codec; [Wire]: an instance with the protobuf
      wire format.
    - [Config], [Store], [Index], [Names], [Segment], [Log]: one file of
      [internal/log] each ([Names] is the use of [fmt], [path] and [strconv] on file
      names), with the representation of its contents and the specification of
      every operation.
    - [LogInv]: the representation [log_inv] of a list of records by a log, and
      [Append] and [Read]; [LogReopen]: [Close] and [setup]; [LogTruncate]:
      [Truncate]; [LogSpec]: the abstract log and the simulation; [Scenario]:
      concrete logs for the witnesses.
    - [StorageProps], [LogProps]: the properties of the store, index and log.
    - [Raft]: the interfaces of raft; [LogStore], [LogStoreProps]: the commit log
      as raft's log store.  [RaftPebble], [RaftPebbleProps]: the Pebble stores.
    - [LogTyped]: all operations of a log and the ranges of its integers; [LogFrame]: a log
      and its directory; [LogCrash]: a log that was not closed; [PowerLoss]: a disk
      that loses what was not synced; [Faults]: records that are only in the write
      buffer, and a store that has seen a failed write; [Closed]: a log that is read
      after [Close]; [Snapshot] (behind [FsmProps]): what a snapshot of a running log
      misses.
    - [Locks]: the methods of [Log] as programs of holders of the lock, and what a
      shared holder sees; [Goroutines]: the lock and its goroutines as a step relation,
      with an executable scheduler.
    - [Fsm], [FsmProps]: the state machine and snapshots.  [Distributed],
      [DistributedProps]: the replicated log.  [StreamLayer]: the transport;
      [Tls]: its configurations and those of the HTTP servers.
    - [Http]: requests, handlers and [ServeMux]; [Server], [ServerProps]: the
      handlers of the service and its interceptors; [Auth]: authentication and
      authorisation; [Service]: the stubs, with the interface of connect;
      [HttpClient]: the HTTP clients.
    - [Cluster]: the nodes of a cluster, each a state machine with its log and its
      streams, over raft's one sequence of committed entries, and their interleaved
      steps; [ClusterProps]: its invariant and what clients of different nodes see;
      [ClusterLive]: progress; [ClusterClient]: a client's call on one of the nodes.
    - [Replicator], [ReplicatorProps]; [Discovery], [DiscoveryProps].
    - [NetAddr]: host and port of an address; [Port]: the port helper; [Otel]:
      telemetry.
    - [Agent]: the agent; [ServiceProps]: the service behind its routes, with a
      reference instance of connect; [AgentProps]: start and shutdown;
      [Restart]: a shutdown and what opens after it.  [Main], [MainProps]: the
      command line.

    ** What the theorems show

    - Log: every sequence of appends, reads, offset queries and restarts on a
      working disk behaves as a list of records ([log_refinement]), for records that
      the limits of the segments suit (see the bounds below); under any
      failures an acknowledged record is where [Append] said, and a read gives the
      record or an error ([log_append_safe], [log_read_safe]); closing and opening
      again loses nothing; [Truncate] removes a prefix of segments; nothing outside
      the log's directory is touched ([log_confined]).  Calls of many goroutines are
      linearizable ([calls_linearize]).
      Below it, the store returns what it was given and the index refines a bounded
      list.
    - Raft's side: the log store and the Pebble store implement [raft.LogStore]
      (and [raft.StableStore]), a batch of writes being the writes in turn
      ([store_logs_batch]); the state machine is deterministic over replicas
      with different configurations ([replicas_agree]); a replicated append is
      read back ([dist_append_read]); a raft connection crosses the transport.
    - Cluster: raft's documented guarantee, one sequence of committed entries that
      every state machine is given in order, is the assumption; then in every
      interleaving of all nodes each node answers from the one abstract log
      ([cluster_agreement]), a record that a client produced on one node is read at its
      offset on every node that has applied it ([produced_everywhere], against the
      interface [RaftCluster] of raft's [Apply]), the streams of all nodes
      send beginnings of the same log ([streams_agree]) and can always be served to
      its end ([stream_delivers]).
    - Service: streams deliver the log in order without gaps under interleaved
      appends ([consume_stream_exact]) and acknowledge what they take
      ([produce_stream_offsets]); behind the agent's routes unary calls run for
      authenticated and authorised users only ([service_guarded]), and a client that
      may do both reads back what it wrote ([client_reads_writes]).
    - Membership: the handler follows the events of serf, for any handler that
      keeps the interface's promise, discharged by the replicated log and by the
      replicator; no interleaving of the replicator's goroutines closes a channel
      twice, loses or reorders records, and all of them can stop when asked to
      ([replicator_stops]).
    - Agent: it is shut down at most once whoever asks for it ([shutdown_once]), a
      shutdown that succeeds leaves a directory that opens again with all records
      ([shutdown_keeps_log]), and an agent that started is added to the cluster of
      those that see it ([agent_joins_cluster]).  Telemetry is shut down completely.
    - Errors: the theorems whose statements describe a failure ([reset_never_succeeds],
      [restore_only_empty], [snapshot_misses_records], [truncate_all_panics],
      [append_stuck], [apply_nil_record], [deleterange_suffix_wipes],
      [kv_delete_all_wraps], [consume_out_of_range_unknown],
      [replicator_no_retry], [streams_skip_policy], [unclosed_log_lost],
      [restart_refuses_entries], [replay_duplicates], [store_logs_not_durable],
      [write_error_sticky], [power_loss_forgets], [restore_kills_readers],
      [shutdown_failure_final], [early_http_failure_panics], [main_calls_panic],
      [start_needs_certificate]) pin down what the code does where it does not do what
      it means to.

    ** Bounds and fuel

    Offsets are assumed to stay below 2^64, a store below 2^48 bytes (the largest
    allocation), an index within the 2^32 entries its fields can number, and
    [MaxStoreBytes] within 2^47.  A segment rolls over when its store or its index
    is full, but a full index is only noticed when [MaxIndexBytes] is a multiple of the
    12 bytes of an entry, which the default 1024 is not; otherwise the next append
    fails ([append_stuck]).  Theorems that promise that appends succeed therefore ask
    for records of [min_frame] bytes at least in the store, length included: 0 for a
    multiple of 12, and otherwise [MaxStoreBytes] divided by the number of entries the
    index holds, rounded up, so that the store fills first.  With the defaults (1024
    bytes each, which is what the agent uses) [min_frame] is 13: every record of five
    bytes or more on the wire.  [log_fit] is the invariant.

    [restore_loop] has one unit of fuel more than the snapshot has bytes, which is
    enough for it to end with a value and not out of fuel ([restore_terminates]); the
    loop of [bufio.Writer.Write] turns at most twice and has fuel for three turns
    ([bufio_Write_spec] excludes running out); the copy loop of [WriteTo] has one
    unit more than the file has bytes ([copy_loop_spec]).  The timers of the agent
    and the [select]s of streams and of the command line take what they receive as
    an argument, so their loops are recursions on it.

    ** Not modelled

    Of the generated messages the descriptors and reflection, and [tools/tools.go],
    which only imports generators.  The lines of the global logger.  Of a loss
    of power only the worst outcome ([power_loss]) and not those in between, where some
    of what was not synced survives; Pebble's write options have no effect in its laws.
    Directories have no subdirectories (no directory of a log has one), and the map of
    an index ends with its file and not with the file's last page.
    [Remove] and [Reset] are operations but no programs of [Goroutines]: they hold the
    lock for a part of their work only.  The reads of a snapshot, which take the locks
    of the stores and not that of the log, are interleaved with appends as whole
    operations.  Two processes on one directory.  Inside the libraries: raft's protocol
    (elections and membership changes included), Pebble, serf, connect, TLS and the
    policy engine are interfaces. *)

From Stdlib Require Export ZArith Lia.
From Stdlib Require Import Strings.Byte.
From stdpp Require Export gmap strings list numbers.

#[global] Open Scope Z_scope.
#[global] Set Default Goal Selector "!".

Abbreviation bytes := (list byte).

(** * Machine integers

    Go's [uint64], [uint32] and [int64] are integers kept in range by the
    conversions below; every arithmetic operation of the source that can wrap
    is written with its conversion. *)

Definition u64 (z : Z) : Z := z mod 2 ^ 64.
Definition u32 (z : Z) : Z := z mod 2 ^ 32.
Definition u8 (z : Z) : Z := z mod 2 ^ 8.

(** Conversion of an unsigned 64-bit value to Go's [int64] (two's complement). *)
Definition i64 (z : Z) : Z :=
  let m := u64 z in if m <? 2 ^ 63 then m else m - 2 ^ 64.

Declare Scope go_scope.
Delimit Scope go_scope with go.
Notation "x +64 y" := (u64 (x + y)) (at level 50, left associativity) : go_scope.
Notation "x -64 y" := (u64 (x - y)) (at level 50, left associativity) : go_scope.
Notation "x *64 y" := (u64 (x * y)) (at level 40, left associativity) : go_scope.
#[global] Open Scope go_scope.

Definition is_u64 (z : Z) : Prop := 0 <= z < 2 ^ 64.
Definition is_u32 (z : Z) : Prop := 0 <= z < 2 ^ 32.
Definition is_u8 (z : Z) : Prop := 0 <= z < 2 ^ 8.

Lemma u64_small z : is_u64 z -> u64 z = z.
Proof. unfold is_u64, u64. intros. apply Z.mod_small; lia. Qed.
Lemma u32_small z : is_u32 z -> u32 z = z.
Proof. unfold is_u32, u32. intros. apply Z.mod_small; lia. Qed.
Lemma u8_small z : is_u8 z -> u8 z = z.
Proof. unfold is_u8, u8. intros. apply Z.mod_small; lia. Qed.
Lemma u64_range z : is_u64 (u64 z).
Proof. unfold is_u64, u64. apply Z.mod_pos_bound; lia. Qed.
Lemma u32_range z : is_u32 (u32 z).
Proof. unfold is_u32, u32. apply Z.mod_pos_bound; lia. Qed.
Lemma i64_small z : 0 <= z < 2 ^ 63 -> i64 z = z.
Proof.
  intros. unfold i64. rewrite u64_small by (unfold is_u64; lia).
  destruct (Z.ltb_spec z (2 ^ 63)); lia.
Qed.

(** [u64_norm] removes the conversions whose argument is in range. *)
Ltac in_range := unfold is_u64, is_u32 in *; lia.
Ltac u64_norm :=
  repeat match goal with
    | |- context [u64 ?x] => rewrite (u64_small x) by in_range
    | |- context [u32 ?x] => rewrite (u32_small x) by in_range
    | |- context [i64 ?x] => rewrite (i64_small x) by in_range
    end.
Tactic Notation "u64_norm" "in" hyp(H) :=
  repeat match type of H with
    | context [u64 ?x] => rewrite (u64_small x) in H by in_range
    | context [u32 ?x] => rewrite (u32_small x) in H by in_range
    | context [i64 ?x] => rewrite (i64_small x) in H by in_range
    end.

#[global] Instance byte_eq_dec : EqDecision byte.
Proof. intros a b. exact (Byte.byte_eq_dec a b). Defined.

#[global] Program Instance byte_countable : Countable byte :=
  inj_countable Byte.to_N Byte.of_N _.
Next Obligation. apply Byte.of_to_N. Qed.

(** * Errors

    The values of Go's [error] interface the program creates, inspects or
    passes on.  [fmt.Errorf("msg: %w", err)] is [fmt_wrap]; [errors.Join] is
    [errors_Join]; the details of a [connect.Error] are localized messages, with
    their locale.  [*os.PathError] wrappers are elided: they carry the same
    [syscall.Errno]. *)
Inductive code :=
| CodeUnknown | CodeInvalidArgument | CodeInternal | CodeNotFound | CodePermissionDenied | CodeUnimplemented.

Inductive error :=
| io_EOF
| io_ErrUnexpectedEOF
| io_ErrShortWrite
| os_ErrClosed
| Errno (n : Z)
| ErrNegativeOffset
| ErrProto
| ErrOffsetOutOfRange (off : Z)
| PtrErrOffsetOutOfRange (off : Z)
| errors_New (msg : string)
| fmt_wrap (msg : string) (e : error)
| errors_Join (es : list error)
| connect_Error (c : code) (e : error) (details : list (string * string)).

Definition ENOENT : Z := 2.
Definition ENOMEM : Z := 12.
Definition EINVAL : Z := 22.

(** * Outcomes and the state monad

    A call returns a value, returns a non-nil [error], or panics (which also
    stands for a fatal fault such as a read of unmapped memory).  The state is
    threaded on every outcome: a Go call that fails half-way keeps the effects
    it already had. *)
Inductive outcome (A : Type) :=
| Ok (a : A)
| Err (e : error)
| Panic (msg : string).
Arguments Ok {A} _.
Arguments Err {A} _.
Arguments Panic {A} _.

Definition M (S A : Type) : Type := S -> outcome A * S.

#[global] Instance M_ret S : MRet (M S) := fun A a s => (Ok a, s).
#[global] Instance M_bind S : MBind (M S) := fun A B f m s =>
  match m s with
  | (Ok a, s') => f a s'
  | (Err e, s') => (Err e, s')
  | (Panic p, s') => (Panic p, s')
  end.

Section monad.
Context {S : Type}.

Definition throw {A} (e : error) : M S A := fun s => (Err e, s).
Definition panic {A} (p : string) : M S A := fun s => (Panic p, s).
Definition get : M S S := fun s => (Ok s, s).
Definition modify (f : S -> S) : M S unit := fun s => (Ok tt, f s).
Definition lift {A} (o : outcome A) : M S A := fun s => (o, s).

(** [try m] makes the error of [m] a value, as [x, err := m()] does; a panic
    still propagates. *)
Definition try {A} (m : M S A) : M S (A + error) := fun s =>
  match m s with
  | (Ok a, s') => (Ok (inl a), s')
  | (Err e, s') => (Ok (inr e), s')
  | (Panic p, s') => (Panic p, s')
  end.

(** [wrap_err msg m] is [if err != nil { return fmt.Errorf("msg: %w", err) }]. *)
Definition wrap_err {A} (msg : string) (m : M S A) : M S A := fun s =>
  match m s with
  | (Err e, s') => (Err (fmt_wrap msg e), s')
  | r => r
  end.
End monad.

(** [zoom] runs a computation on a component of the state. *)
Definition zoom {S T A} (view : S -> T) (upd : T -> S -> S) (m : M T A) : M S A := fun s =>
  let (o, t) := m (view s) in (o, upd t s).

(** The results of a sequence of operations; an error does not end it. *)
Fixpoint run_ops {Op S A} (exec : Op -> M S A) (ops : list Op) (s : S) : list (outcome A) * S :=
  match ops with
  | [] => ([], s)
  | op :: ops =>
      let (o, s1) := exec op s in
      let (os, s2) := run_ops exec ops s1 in (o :: os, s2)
  end.

(** Forward simulation of sequences: when every operation gives the same result
    on related states and relates them again, so does every sequence.  The
    relation may depend on the number of operations still to come. *)
Lemma run_ops_refine {Op S T A} (P : Op -> Prop) (R : nat -> S -> T -> Prop)
    (exec : Op -> M S A) (spec : Op -> M T A) ops s t :
  (forall n op s t, P op -> R (Datatypes.S n) s t ->
     (exec op s).1 = (spec op t).1 /\ R n (exec op s).2 (spec op t).2) ->
  Forall P ops -> R (length ops) s t -> (run_ops exec ops s).1 = (run_ops spec ops t).1.
Proof.
  intros Hstep Hops. revert s t. induction Hops as [|op ops Hop Hops IH]; intros s t HR; [done|].
  cbn [run_ops length] in *. destruct (Hstep _ op s t Hop HR) as [Ho HR'].
  destruct (exec op s) as [o s1], (spec op t) as [o' t1]. cbn [fst snd] in *. subst o'.
  specialize (IH s1 t1 HR').
  destruct (run_ops exec ops s1), (run_ops spec ops t1). cbn [fst] in *. by rewrite IH.
Qed.

Section monad_lemmas.
Context {S A B : Type}.
Implicit Types (m : M S A) (f : A -> M S B) (s : S).

Lemma bind_Ok m f s a s' : m s = (Ok a, s') -> (m ≫= f) s = f a s'.
Proof. intros H. unfold mbind, M_bind. by rewrite H. Qed.
Lemma bind_Err m f s e s' : m s = (Err e, s') -> (m ≫= f) s = (Err e, s').
Proof. intros H. unfold mbind, M_bind. by rewrite H. Qed.
Lemma bind_Panic m f s p s' : m s = (Panic p, s') -> (m ≫= f) s = (Panic p, s').
Proof. intros H. unfold mbind, M_bind. by rewrite H. Qed.

(** Inversion of a successful sequence: both halves succeeded. *)
Lemma bind_Ok_inv m f s b s'' :
  (m ≫= f) s = (Ok b, s'') -> exists a s', m s = (Ok a, s') /\ f a s' = (Ok b, s'').
Proof.
  unfold mbind, M_bind. destruct (m s) as [[a|e|p] s'] eqn:E; intros H; simplify_eq; eauto.
Qed.

Lemma ret_run (a : A) s : (mret a : M S A) s = (Ok a, s).
Proof. reflexivity. Qed.
End monad_lemmas.

Lemma wrap_err_Ok {S A} msg (m : M S A) s a s' :
  m s = (Ok a, s') -> wrap_err msg m s = (Ok a, s').
Proof. intros H. unfold wrap_err. by rewrite H. Qed.

Lemma wrap_err_Ok_inv {S A} msg (m : M S A) s a s' :
  wrap_err msg m s = (Ok a, s') -> m s = (Ok a, s').
Proof. unfold wrap_err. destruct (m s) as [[]]; intros H; by simplify_eq. Qed.

(** * Invariants of computations

    [keeps P Q m]: whatever happens in [m], it leads from states with [P] to states
    with [P], and a value it returns has [Q]. *)
Definition keeps {S A} (P : S -> Prop) (Q : A -> Prop) (m : M S A) : Prop :=
  forall s, P s -> P (m s).2 /\ match (m s).1 with Ok a => Q a | _ => True end.

Section keeps.
Context {S : Type} (P : S -> Prop).

Lemma keeps_ret {A} (Q : A -> Prop) a : Q a -> keeps P Q (mret a : M S A).
Proof. by split. Qed.
Lemma keeps_bind {A B} (R : A -> Prop) (Q : B -> Prop) (m : M S A) (f : A -> M S B) :
  keeps P R m -> (forall a, R a -> keeps P Q (f a)) -> keeps P Q (m ≫= f).
Proof.
  intros Hm Hf s Hs. destruct (Hm s Hs) as [H1 H2]. unfold mbind, M_bind.
  destruct (m s) as [[a|e|p] s1]; cbn in *; [|done..]. by apply Hf.
Qed.
Lemma keeps_get : keeps P P get.
Proof. by split. Qed.
Lemma keeps_throw {A} (Q : A -> Prop) e : keeps P Q (throw e).
Proof. by split. Qed.
Lemma keeps_panic {A} (Q : A -> Prop) p : keeps P Q (panic p).
Proof. by split. Qed.
Lemma keeps_modify f : (forall s, P s -> P (f s)) -> keeps P (fun _ => True) (modify f).
Proof. intros H s Hs. split; [by apply H|done]. Qed.
Lemma keeps_lift {A} (Q : A -> Prop) o : (forall a, o = Ok a -> Q a) -> keeps P Q (lift o).
Proof. intros H s Hs. split; [done|]. cbn. destruct o; auto. Qed.
Lemma keeps_try {A} (Q : A -> Prop) (m : M S A) :
  keeps P Q m -> keeps P (fun r => match r with inl a => Q a | inr _ => True end) (try m).
Proof.
  intros Hm s Hs. destruct (Hm s Hs) as [H1 H2]. unfold try. by destruct (m s) as [[a|e|p] s1].
Qed.
Lemma keeps_wrap_err {A} (Q : A -> Prop) msg (m : M S A) : keeps P Q m -> keeps P Q (wrap_err msg m).
Proof.
  intros Hm s Hs. destruct (Hm s Hs) as [H1 H2]. unfold wrap_err. by destruct (m s) as [[a|e|p] s1].
Qed.
Lemma keeps_mono {A} (Q Q' : A -> Prop) (m : M S A) : (forall a, Q a -> Q' a) -> keeps P Q m -> keeps P Q' m.
Proof. intros HQ Hm s Hs. destruct (Hm s Hs) as [H1 H2]. split; [done|]. destruct (m s).1; auto. Qed.
End keeps.

Lemma keeps_zoom {S T A} (P : S -> Prop) (PT : T -> Prop) (Q : A -> Prop) view upd (m : M T A) :
  (forall s, P s -> PT (view s)) -> (forall t s, PT t -> P s -> P (upd t s)) ->
  keeps PT Q m -> keeps P Q (zoom view upd m).
Proof.
  intros Hv Hu Hm s Hs. destruct (Hm (view s) (Hv s Hs)) as [H1 H2]. unfold zoom.
  destruct (m (view s)) as [o t]. split; [by apply Hu|done].
Qed.

(** Nothing is claimed of the part of the state the computation acts on. *)
Lemma keeps_any {S A} (m : M S A) : keeps (fun _ => True) (fun _ => True) m.
Proof. intros s _. split; [done|]. by destruct (m s).1. Qed.

(** A sequence of operations keeps what each of them keeps. *)
Lemma keeps_run_ops {Op S A} (P : S -> Prop) (Q : A -> Prop) (exec : Op -> M S A) ops s :
  (forall op, keeps P Q (exec op)) -> P s ->
  P (run_ops exec ops s).2 /\ Forall (fun o => match o with Ok a => Q a | _ => True end) (run_ops exec ops s).1.
Proof.
  intros He. revert s. induction ops as [|op ops IH]; intros s Hs; cbn [run_ops]; [by split|].
  destruct (He op s Hs) as [H1 H2]. destruct (exec op s) as [o s1]. cbn [fst snd] in *.
  specialize (IH s1 H1). destruct (run_ops exec ops s1) as [os s2]. cbn [fst snd] in *. split; [apply IH|].
  constructor; [done|apply IH].
Qed.

Create HintDb keeps.
#[export] Hint Extern 1 (keeps _ _ (mret _)) => eapply keeps_ret : keeps.
#[export] Hint Extern 1 (keeps _ _ get) => eapply keeps_get : keeps.
#[export] Hint Extern 1 (keeps _ _ (throw _)) => eapply keeps_throw : keeps.
#[export] Hint Extern 1 (keeps _ _ (panic _)) => eapply keeps_panic : keeps.
#[export] Hint Extern 1 (keeps _ _ (try _)) => eapply keeps_try : keeps.
#[export] Hint Extern 1 (keeps _ _ (wrap_err _ _)) => eapply keeps_wrap_err : keeps.

(** [keeps_step]: split a sequence, with the result of its head introduced. *)
Ltac keeps_step :=
  match goal with
  | |- keeps _ _ (mbind _ _) =>
      let x := fresh "x" in let Hx := fresh "Hx" in
      eapply keeps_bind; [solve [eauto with keeps]|intros x Hx; cbn beta in *]
  end.

(** [is_ok o]: the call returned a value. *)
Definition is_ok {A} (o : outcome A) : bool :=
  match o with Ok _ => true | _ => false end.

(** * Lists and slices *)

(** Go's [b[lo:hi]] on a slice whose capacity is its length. *)
Definition slice (b : bytes) (lo hi : Z) : outcome bytes :=
  if (0 <=? lo) && (lo <=? hi) && (hi <=? Z.of_nat (length b))
  then Ok (take (Z.to_nat (hi - lo)) (drop (Z.to_nat lo) b))
  else Panic "slice bounds out of range".

(** [splice l n p]: [copy(l[n:], p)] for a [p] that fits. *)
Definition splice {A} (l : list A) (n : nat) (p : list A) : list A :=
  take n l ++ p ++ drop (n + length p) l.

(** The bytes [p] occur in [l] at position [n]. *)
Definition at_pos {A} (l : list A) (n : nat) (p : list A) : Prop :=
  take (length p) (drop n l) = p /\ (n + length p <= length l)%nat.

Section list_lemmas.
Context {A : Type}.
Implicit Types (l p q : list A).

Lemma length_splice l n p :
  (n + length p <= length l)%nat -> length (splice l n p) = length l.
Proof. intros. unfold splice. rewrite !length_app, length_take, length_drop. lia. Qed.

Lemma take_drop_length l n : take n l ++ drop (length (take n l)) l = l.
Proof.
  rewrite length_take. destruct (Nat.le_ge_cases n (length l)).
  - rewrite Nat.min_l by done. apply take_drop.
  - rewrite Nat.min_r, take_ge, drop_ge by done. apply app_nil_r.
Qed.

Lemma bind_ext_elem {B} (f g : A -> list B) l :
  (forall x, x ∈ l -> f x = g x) -> l ≫= f = l ≫= g.
Proof.
  induction l as [|x l IH]; intros H; [done|]. rewrite !bind_cons, (H x), IH; [done| |set_solver].
  intros. apply H. set_solver.
Qed.

Lemma at_pos_app_l l n p q : at_pos l n p -> at_pos (l ++ q) n p.
Proof.
  intros [H Hl]. split; [|rewrite length_app; lia].
  rewrite drop_app_le by lia. rewrite take_app_le; [done|].
  rewrite length_drop. lia.
Qed.

Lemma at_pos_end l p q : at_pos (l ++ p ++ q) (length l) p.
Proof.
  split; [|rewrite !length_app; lia].
  rewrite drop_app_length. by rewrite take_app_length.
Qed.

Lemma at_pos_last l p : at_pos (l ++ p) (length l) p.
Proof. pose proof (at_pos_end l p []) as H. by rewrite app_nil_r in H. Qed.

Lemma at_pos_splice_same l n p :
  (n + length p <= length l)%nat -> at_pos (splice l n p) n p.
Proof.
  intros H. unfold splice.
  replace n with (length (take n l)) at 3 by (rewrite length_take; lia).
  apply at_pos_end.
Qed.

(** An in-place write leaves the bytes before it alone. *)
Lemma at_pos_splice_before l n p k q :
  (n + length p <= length l)%nat -> (k + length q <= n)%nat ->
  at_pos l k q -> at_pos (splice l n p) k q.
Proof.
  intros Hl Hk [H Hlen]. unfold splice. apply at_pos_app_l.
  split; [|rewrite length_take; lia].
  rewrite <- H at 2. rewrite skipn_firstn_comm, take_take. f_equal. lia.
Qed.

Lemma at_pos_app_inv l n p q :
  at_pos l n (p ++ q) -> at_pos l n p /\ at_pos l (n + length p) q.
Proof.
  unfold at_pos. rewrite length_app. intros [H Hlen]. split; split; try lia.
  - rewrite <- (take_app_length p q) at 2. rewrite <- H, take_take. f_equal. lia.
  - rewrite <- (drop_app_length p q) at 2. rewrite <- H.
    rewrite skipn_firstn_comm, drop_drop. f_equal. lia.
Qed.

Lemma at_pos_take l n p m :
  (n + length p <= m)%nat -> at_pos l n p -> at_pos (take m l) n p.
Proof.
  intros Hm [H Hl]. split; [|rewrite length_take; lia].
  rewrite <- H at 2. rewrite skipn_firstn_comm, take_take. f_equal. lia.
Qed.

Lemma at_pos_take_inv l n p m : at_pos (take m l) n p -> at_pos l n p.
Proof.
  intros H. rewrite <- (take_drop m l). by apply at_pos_app_l.
Qed.
End list_lemmas.

(** A slice that lies inside the buffer is the bytes found there. *)
Lemma slice_at_pos (l p : bytes) lo hi :
  0 <= lo -> hi = lo + Z.of_nat (length p) ->
  at_pos l (Z.to_nat lo) p -> slice l lo hi = Ok p.
Proof.
  intros Hlo -> [H Hlen]. unfold slice.
  replace (Z.to_nat (lo + Z.of_nat (length p) - lo)) with (length p) by lia.
  replace ((0 <=? lo) && _ && _) with true; [by rewrite H|].
  symmetry. rewrite !andb_true_iff, !Z.leb_le. lia.
Qed.

(** * Automation *)

Create HintDb golog.
Create Rewrite HintDb len.
#[export] Hint Resolve at_pos_app_l at_pos_end u64_range u32_range : golog.
#[export] Hint Rewrite @length_app @length_take @length_drop @length_fmap
  @length_replicate @length_reverse @length_imap : len.

(** [len] normalises list lengths and closes the arithmetic goal. *)
Ltac len := autorewrite with len in *; simpl length in *; try lia.

(** [crush]: split a conjunction and close the easy parts. *)
Ltac crush := split_and!; try done; auto with golog; try naive_solver.

(** [inv_ok H] turns a successful run [H] of a sequence into the runs of its
    parts. *)
Ltac inv_ok H :=
  let a := fresh "a" in let s := fresh "s" in let H1 := fresh "Hrun" in
  apply bind_Ok_inv in H as (a & s & H1 & H).

(** [mrun]: unfold the monad and the basic operations and simplify. *)
Ltac mrun :=
  unfold mbind, M_bind, mret, M_ret, throw, panic, get, modify, lift, try, wrap_err, zoom in *;
  cbn -[Z.add Z.sub Z.mul Z.div Z.modulo Z.pow Z.to_nat Z.of_nat length take drop u64 u32 i64
       Nat.ltb Nat.leb Nat.eqb Nat.min Nat.add Nat.sub Z.ltb Z.leb Z.eqb] in *.
