(* ===== verification/Endian.v ===== *)
(** Big-endian integers: [encoding/binary]'s [BigEndian], which
    [internal/log/store.go] names [Encoding] and [internal/raftpebble/util.go]
    uses for its keys.

    The operations are the shifts and ors of the library; their inverse laws
    come from their equality with the list-recursive [le_split] and
    [le_combine].  The last section shows that the byte order of two encoded
    keys is the order of the integers, which the iterators of the key-value
    store rely on. *)

From coqutil Require Import Byte Word.LittleEndianList.
From S2P Require Import Prelude.

(** Go's [byte(v)]. *)
Abbreviation byte_of := byte.of_Z.
Abbreviation byte_val := byte.unsigned.

(** [BigEndian.PutUint32] and [PutUint64]: the bytes they store. *)
Definition PutUint32 (v : Z) : bytes :=
  [byte_of (Z.shiftr v 24); byte_of (Z.shiftr v 16); byte_of (Z.shiftr v 8); byte_of v].

Definition PutUint64 (v : Z) : bytes :=
  [byte_of (Z.shiftr v 56); byte_of (Z.shiftr v 48); byte_of (Z.shiftr v 40);
   byte_of (Z.shiftr v 32); byte_of (Z.shiftr v 24); byte_of (Z.shiftr v 16);
   byte_of (Z.shiftr v 8); byte_of v].

(** [BigEndian.Uint32] and [Uint64]: they read the first 4 (8) bytes and panic
    on a shorter slice. *)
Definition Uint32 (b : bytes) : outcome Z :=
  match b with
  | b0 :: b1 :: b2 :: b3 :: _ =>
      Ok (Z.lor (byte_val b3) (Z.lor (Z.shiftl (byte_val b2) 8)
         (Z.lor (Z.shiftl (byte_val b1) 16) (Z.shiftl (byte_val b0) 24))))
  | _ => Panic "index out of range"
  end.

Definition Uint64 (b : bytes) : outcome Z :=
  match b with
  | b0 :: b1 :: b2 :: b3 :: b4 :: b5 :: b6 :: b7 :: _ =>
      Ok (Z.lor (byte_val b7) (Z.lor (Z.shiftl (byte_val b6) 8)
         (Z.lor (Z.shiftl (byte_val b5) 16) (Z.lor (Z.shiftl (byte_val b4) 24)
         (Z.lor (Z.shiftl (byte_val b3) 32) (Z.lor (Z.shiftl (byte_val b2) 40)
         (Z.lor (Z.shiftl (byte_val b1) 48) (Z.shiftl (byte_val b0) 56))))))))
  | _ => Panic "index out of range"
  end.

(** ** Agreement with the recursive definitions *)

Lemma PutUint32_split v : PutUint32 v = reverse (le_split 4 v).
Proof. unfold PutUint32. cbv [le_split]. rewrite !Z.shiftr_shiftr by lia. reflexivity. Qed.

Lemma PutUint64_split v : PutUint64 v = reverse (le_split 8 v).
Proof. unfold PutUint64. cbv [le_split]. rewrite !Z.shiftr_shiftr by lia. reflexivity. Qed.

Lemma Uint32_combine b0 b1 b2 b3 t :
  Uint32 (b0 :: b1 :: b2 :: b3 :: t) = Ok (le_combine [b3; b2; b1; b0]).
Proof.
  unfold Uint32. cbv [le_combine]. f_equal.
  rewrite Z.shiftl_0_l, !Z.lor_0_r.
  rewrite !Z.shiftl_lor, !Z.shiftl_shiftl by lia. reflexivity.
Qed.

Lemma Uint64_combine b0 b1 b2 b3 b4 b5 b6 b7 t :
  Uint64 (b0 :: b1 :: b2 :: b3 :: b4 :: b5 :: b6 :: b7 :: t)
  = Ok (le_combine [b7; b6; b5; b4; b3; b2; b1; b0]).
Proof.
  unfold Uint64. cbv [le_combine]. f_equal.
  rewrite Z.shiftl_0_l, !Z.lor_0_r.
  rewrite !Z.shiftl_lor, !Z.shiftl_shiftl by lia. reflexivity.
Qed.

Lemma length_PutUint32 v : length (PutUint32 v) = 4%nat.
Proof. reflexivity. Qed.
Lemma length_PutUint64 v : length (PutUint64 v) = 8%nat.
Proof. reflexivity. Qed.
#[export] Hint Rewrite length_PutUint32 length_PutUint64 : len.

(** ** Round trips *)

Lemma Uint32_PutUint32 v t : is_u32 v -> Uint32 (PutUint32 v ++ t) = Ok v.
Proof.
  intros Hv. unfold PutUint32 at 1. cbn [app]. rewrite Uint32_combine. f_equal.
  transitivity (le_combine (le_split 4 v)).
  - cbv [le_split]. by rewrite !Z.shiftr_shiftr by lia.
  - rewrite le_combine_split. apply Z.mod_small, Hv.
Qed.

Lemma Uint64_PutUint64 v t : is_u64 v -> Uint64 (PutUint64 v ++ t) = Ok v.
Proof.
  intros Hv. unfold PutUint64 at 1. cbn [app]. rewrite Uint64_combine. f_equal.
  transitivity (le_combine (le_split 8 v)).
  - cbv [le_split]. by rewrite !Z.shiftr_shiftr by lia.
  - rewrite le_combine_split. apply Z.mod_small, Hv.
Qed.

Lemma Uint64_PutUint64_nil v : is_u64 v -> Uint64 (PutUint64 v) = Ok v.
Proof. intros. rewrite <- (app_nil_r (PutUint64 v)). by apply Uint64_PutUint64. Qed.
Lemma Uint32_PutUint32_nil v : is_u32 v -> Uint32 (PutUint32 v) = Ok v.
Proof. intros. rewrite <- (app_nil_r (PutUint32 v)). by apply Uint32_PutUint32. Qed.

Lemma Uint64_range b v : Uint64 b = Ok v -> is_u64 v.
Proof.
  intros H. do 8 (destruct b as [|? b]; [done|]).
  rewrite Uint64_combine in H. simplify_eq. unfold is_u64.
  apply (le_combine_bound [_; _; _; _; _; _; _; _]).
Qed.

Lemma Uint32_range b v : Uint32 b = Ok v -> is_u32 v.
Proof.
  intros H. do 4 (destruct b as [|? b]; [done|]).
  rewrite Uint32_combine in H. simplify_eq. unfold is_u32.
  apply (le_combine_bound [_; _; _; _]).
Qed.

(** Reading never fails on a long enough slice. *)
Lemma Uint64_total b : (8 <= length b)%nat -> exists v, Uint64 b = Ok v.
Proof.
  intros H. do 8 (destruct b as [|? b]; [cbn in H; lia|]).
  rewrite Uint64_combine. eauto.
Qed.

#[export] Hint Resolve Uint64_range Uint32_range : golog.

(** ** The order of keys *)

(** The value of a big-endian byte string. *)
Fixpoint be_val (b : bytes) : Z :=
  match b with
  | [] => 0
  | x :: b => byte_val x * 2 ^ (8 * Z.of_nat (length b)) + be_val b
  end.

(** [bytes.Compare(a, b) < 0], the order of the key-value store's keys. *)
Fixpoint bytes_ltb (a b : bytes) : bool :=
  match a, b with
  | [], [] => false
  | [], _ :: _ => true
  | _ :: _, [] => false
  | x :: a, y :: b =>
      (byte_val x <? byte_val y) || ((byte_val x =? byte_val y) && bytes_ltb a b)
  end.

Lemma lor_shiftl_add a b n : 0 <= n -> 0 <= a < 2 ^ n -> Z.lor a (Z.shiftl b n) = a + b * 2 ^ n.
Proof.
  intros Hn Ha. rewrite <- Z.shiftl_mul_pow2 by lia. symmetry. apply Z.add_nocarry_lor.
  apply Z.bits_inj'. intros i Hi. rewrite Z.land_spec, Z.bits_0, Z.shiftl_spec by lia.
  destruct (Z.lt_ge_cases i n).
  - rewrite (Z.testbit_neg_r b (i - n)) by lia. apply andb_false_r.
  - rewrite <- (Z.mod_small a (2 ^ n)) by lia. rewrite Z.mod_pow2_bits_high by lia. done.
Qed.

Lemma le_combine_reverse b : le_combine (reverse b) = be_val b.
Proof.
  induction b as [|x b IH]; [done|]. rewrite reverse_cons, le_combine_app.
  rewrite le_combine_1. change (@List.length ?A) with (@length A). rewrite length_reverse.
  pose proof (le_combine_bound (reverse b)) as Hb. change (@List.length ?A) with (@length A) in Hb.
  rewrite length_reverse in Hb. rewrite lor_shiftl_add; [|lia|].
  - rewrite IH. cbn [be_val]. rewrite (Z.mul_comm (Z.of_nat _) 8). lia.
  - by rewrite (Z.mul_comm (Z.of_nat _) 8).
Qed.

Lemma be_val_PutUint64 v : is_u64 v -> be_val (PutUint64 v) = v.
Proof.
  intros Hv. rewrite <- le_combine_reverse, PutUint64_split, reverse_involutive, le_combine_split.
  apply Z.mod_small, Hv.
Qed.

Lemma be_val_bound b : 0 <= be_val b < 2 ^ (8 * Z.of_nat (length b)).
Proof.
  rewrite <- le_combine_reverse. pose proof (le_combine_bound (reverse b)) as H.
  change (@List.length ?A) with (@length A) in H. by rewrite length_reverse in H.
Qed.

(** Byte strings of one length are ordered as their values. *)
Lemma bytes_ltb_be_val a b : length a = length b -> bytes_ltb a b = (be_val a <? be_val b).
Proof.
  revert b. induction a as [|x a IH]; intros [|y b] Hl; try done. cbn in Hl. injection Hl as Hl.
  cbn [bytes_ltb be_val]. rewrite (IH _ Hl), Hl.
  pose proof (be_val_bound a) as Ha. pose proof (be_val_bound b) as Hb. rewrite Hl in Ha.
  set (m := 2 ^ (8 * Z.of_nat (length b))) in *.
  destruct (Z.ltb_spec (byte_val x) (byte_val y)), (Z.eqb_spec (byte_val x) (byte_val y)),
    (Z.ltb_spec (be_val a) (be_val b)), (Z.ltb_spec (byte_val x * m + be_val a) (byte_val y * m + be_val b));
    cbn; try done; exfalso; nia.
Qed.

Lemma bytes_ltb_PutUint64 x y : is_u64 x -> is_u64 y -> bytes_ltb (PutUint64 x) (PutUint64 y) = (x <? y).
Proof. intros Hx Hy. rewrite bytes_ltb_be_val by done. by rewrite !be_val_PutUint64. Qed.
