(* ===== verification/OS.v ===== *)
(** The operating system and the standard-library I/O the log stands on: the
    directory tree, [os.File], [syscall.Mmap]'s file view and [bufio.Writer].

    A path is a directory and a file name.  The file system maps paths to
    contents; a directory is a name in [w_dirs].  A handle denotes its path:
    the log closes both handles of a segment before it unlinks their files, so
    no open handle outlives its name.  [w_pos] is the offset of the one handle a
    path has: [Read] moves it, and an [O_APPEND] write leaves it at the end;
    [ReadAt] ignores it.

    Failures are an explicit part of the world: each system call takes the next
    entry of [w_oracle], and an entry [Some f] makes it fail with [f_err f]
    (a write then stores only the first [f_n f] bytes).  The exhausted oracle
    never fails, so [w_oracle w = \[\]] says that the disk works, and a theorem
    that does not mention the oracle holds under every pattern of failures.

    [w_synced] is the contents that a file had when it was last synced: what is
    certain to survive a loss of power. *)

From S2P Require Import Prelude.

Abbreviation path := (string * string)%type.

Record fault := Fault { f_err : error; f_n : nat }.

Record world := World {
  w_dirs : gset string;
  w_fs : gmap path bytes;
  w_pos : gmap path nat;
  w_oracle : list (option fault);
  w_synced : gmap path bytes
}.

Definition set_fs (fs : gmap path bytes) (w : world) : world :=
  World (w_dirs w) fs (w_pos w) (w_oracle w) (w_synced w).
Definition set_dirs (d : gset string) (w : world) : world :=
  World d (w_fs w) (w_pos w) (w_oracle w) (w_synced w).
Definition set_oracle (o : list (option fault)) (w : world) : world :=
  World (w_dirs w) (w_fs w) (w_pos w) o (w_synced w).

(** The file offset of the open handle, which [Read] and [Write] move. *)
Definition seek (p : path) (n : nat) (w : world) : world :=
  World (w_dirs w) (w_fs w) (<[p := n]> (w_pos w)) (w_oracle w) (w_synced w).
Definition fpos (w : world) (p : path) : nat := default 0%nat (w_pos w !! p).

(** The contents of the file at a path. *)
Definition fcontent (w : world) (p : path) : bytes := default [] (w_fs w !! p).
Definition fput (p : path) (b : bytes) (w : world) : world := set_fs (<[p := b]> (w_fs w)) w.

(** [fsync(2)]: the contents of the file survive a loss of power from now on. *)
Definition fsync (p : path) (w : world) : world :=
  World (w_dirs w) (w_fs w) (w_pos w) (w_oracle w) (<[p := fcontent w p]> (w_synced w)).

Definition next_fault : M world (option fault) := fun w =>
  match w_oracle w with
  | [] => (Ok None, w)
  | o :: os => (Ok o, set_oracle os w)
  end.

Definition syscall {A} (k : M world A) : M world A :=
  f ← next_fault;
  match f with
  | Some f => throw (f_err f)
  | None => k
  end.

(** ** [os.File] *)

Record file := File { file_path : path; file_closed : bool }.

(** [os.OpenFile(path, O_CREATE|O_RDWR|..., 0644)] *)
Definition os_OpenFile (p : path) : M world file :=
  syscall (fun w =>
    if decide (p.1 ∈ w_dirs w) then
      match w_fs w !! p with
      | Some _ => (Ok (File p false), seek p 0 w)
      | None => (Ok (File p false), seek p 0 (fput p [] w))
      end
    else (Err (Errno ENOENT), w)).

Definition check_open {A} (f : file) (k : M world A) : M world A :=
  if file_closed f then throw os_ErrClosed else syscall k.

(** [f.Stat()], of which the program uses [Size()]. *)
Definition file_Stat (f : file) : M world Z :=
  check_open f (fun w => (Ok (Z.of_nat (length (fcontent w (file_path f)))), w)).

(** [f.Truncate(size)]: shortens, or extends with zero bytes. *)
Definition file_Truncate (f : file) (size : Z) : M world unit :=
  check_open f (fun w =>
    if size <? 0 then (Err (Errno EINVAL), w)
    else (Ok tt, fput (file_path f)
                   (resize (Z.to_nat size) Byte.x00 (fcontent w (file_path f))) w)).

Definition file_Sync (f : file) : M world unit := check_open f (fun w => (Ok tt, fsync (file_path f) w)).

(** [f.Close()]: the handle is closed even when [close(2)] reports an error. *)
Definition file_Close : M (file * world) unit := fun '(f, w) =>
  if file_closed f then (Err os_ErrClosed, (f, w))
  else let (o, w') := syscall (fun w => (Ok tt, w)) w in (o, (File (file_path f) true, w')).

(** [write(2)] on a file opened with [O_APPEND] leaves the offset at its end. *)
Definition fappend (p : path) (b : bytes) (w : world) : world :=
  let c := fcontent w p ++ b in seek p (length c) (fput p c w).

(** [f.Write(p)] on a file opened with [O_APPEND]: the number of bytes written
    and the error. *)
Definition file_Write (f : file) (p : bytes) : M world (nat * option error) := fun w =>
  if file_closed f then (Ok (0%nat, Some os_ErrClosed), w) else
  match next_fault w with
  | (Ok (Some ft), w') =>
      let n := Nat.min (f_n ft) (length p) in
      (Ok (n, Some (f_err ft)), fappend (file_path f) (take n p) w')
  | (_, w') => (Ok (length p, None), fappend (file_path f) p w')
  end.

(** [f.ReadAt(b, off)] for a [b] of [n] bytes: what was read, and [io.EOF] when
    it is less than [n] bytes. *)
Definition file_ReadAt (f : file) (n : nat) (off : Z) : M world (bytes * option error) := fun w =>
  if off <? 0 then (Ok ([], Some ErrNegativeOffset), w) else
  if (n =? 0)%nat then (Ok ([], None), w) else
  if file_closed f then (Ok ([], Some os_ErrClosed), w) else
  match next_fault w with
  | (Ok (Some ft), w') => (Ok ([], Some (f_err ft)), w')
  | (_, w') =>
      let d := take n (drop (Z.to_nat off) (fcontent w' (file_path f))) in
      (Ok (d, if (length d <? n)%nat then Some io_EOF else None), w')
  end.

(** [f.Read(b)] for a [b] of [n] bytes: it reads from the file offset and moves
    it. *)
Definition file_Read (f : file) (n : nat) : M world (bytes * option error) := fun w =>
  if file_closed f then (Ok ([], Some os_ErrClosed), w) else
  if (n =? 0)%nat then (Ok ([], None), w) else
  match next_fault w with
  | (Ok (Some ft), w') => (Ok ([], Some (f_err ft)), w')
  | (_, w') =>
      let p := file_path f in
      let d := take n (drop (fpos w' p) (fcontent w' p)) in
      (Ok (d, if (length d =? 0)%nat then Some io_EOF else None), seek p (fpos w' p + length d) w')
  end.

(** ** Directories *)

Definition os_Remove (p : path) : M world unit :=
  syscall (fun w =>
    match w_fs w !! p with
    | Some _ => (Ok tt, set_fs (delete p (w_fs w)) w)
    | None => (Err (Errno ENOENT), w)
    end).

Definition dir_files (dir : string) (w : world) : list string :=
  (fun kv : path * bytes => kv.1.2) <$> map_to_list (filter (fun kv => kv.1.1 = dir) (w_fs w)).

(** [os.RemoveAll(dir)] on a directory without subdirectories, as that of a log is. *)
Definition os_RemoveAll (dir : string) : M world unit :=
  syscall (fun w =>
    (Ok tt, set_dirs (w_dirs w ∖ {[dir]})
              (set_fs (filter (fun kv => kv.1.1 ≠ dir) (w_fs w)) w))).

(** [os.ReadDir(dir)]: the names in the directory. *)
Definition os_ReadDir (dir : string) : M world (list string) :=
  syscall (fun w =>
    if decide (dir ∈ w_dirs w) then (Ok (dir_files dir w), w)
    else (Err (Errno ENOENT), w)).

Definition os_MkdirAll (dir : string) : M world unit :=
  syscall (fun w => (Ok tt, set_dirs ({[dir]} ∪ w_dirs w) w)).

(** ** [bufio.Writer] over an [os.File], with its default 4096-byte buffer *)

Record bufio_Writer := BufioWriter { bw_buf : bytes; bw_err : option error }.

Definition bufio_NewWriter : bufio_Writer := BufioWriter [] None.
Definition bufio_size : Z := 4096.
Definition bw_Available (b : bufio_Writer) : Z := bufio_size - Z.of_nat (length (bw_buf b)).

Abbreviation bwst := (bufio_Writer * world)%type.

Definition bw_file_Write (f : file) (p : bytes) : M bwst (nat * option error) :=
  zoom snd (fun w s => (s.1, w)) (file_Write f p).

(** [b.Flush()] *)
Definition bufio_Flush (f : file) : M bwst unit :=
  s ← get;
  match bw_err s.1 with
  | Some e => throw e
  | None =>
      if (length (bw_buf s.1) =? 0)%nat then mret tt else
      r ← bw_file_Write f (bw_buf s.1);
      let '(n, err) := r in
      let err := match err with
                 | None => if (n <? length (bw_buf s.1))%nat then Some io_ErrShortWrite else None
                 | Some e => Some e
                 end in
      match err with
      | Some e =>
          modify (fun s' => (BufioWriter (drop n (bw_buf s.1)) (Some e), s'.2));;
          throw e
      | None => modify (fun s' => (BufioWriter [] None, s'.2))
      end
  end.

(** The loop of [b.Write(p)]: it returns the bytes that are left to buffer and
    the number written so far.  Each turn empties the buffer, so the loop makes
    at most two turns; the third unit of fuel is its last test. *)
Fixpoint bufio_Write_loop (fuel : nat) (f : file) (p : bytes) (nn : nat)
    : M bwst (bytes * nat) :=
  match fuel with
  | O => panic "out of fuel"
  | S fuel =>
      s ← get;
      if (bw_Available s.1 <? Z.of_nat (length p)) && bool_decide (bw_err s.1 = None) then
        if (length (bw_buf s.1) =? 0)%nat then
          r ← bw_file_Write f p;
          let '(n, err) := r in
          modify (fun s' => (BufioWriter (bw_buf s'.1) err, s'.2));;
          bufio_Write_loop fuel f (drop n p) (nn + n)
        else
          let n := Z.to_nat (bw_Available s.1) in
          modify (fun s' => (BufioWriter (bw_buf s'.1 ++ take n p) (bw_err s'.1), s'.2));;
          try (bufio_Flush f);;
          bufio_Write_loop fuel f (drop n p) (nn + n)
      else mret (p, nn)
  end.

Definition bufio_Write (f : file) (p : bytes) : M bwst nat :=
  r ← bufio_Write_loop 3 f p 0;
  let '(p', nn) := r in
  s ← get;
  match bw_err s.1 with
  | Some e => throw e
  | None =>
      modify (fun s' => (BufioWriter (bw_buf s'.1 ++ p') (bw_err s'.1), s'.2));;
      mret (nn + length p')%nat
  end.

(** ** Frames and health *)

(** [fs_frame ps w w']: between [w] and [w'] only the contents of the files at
    [ps] changed, and no file disappeared. *)
Record fs_frame (ps : list path) (w w' : world) : Prop := {
  fs_frame_dirs : w_dirs w' = w_dirs w;
  fs_frame_lookup p : p ∉ ps -> w_fs w' !! p = w_fs w !! p;
  fs_frame_some p : is_Some (w_fs w !! p) -> is_Some (w_fs w' !! p)
}.

Definition healthy (w : world) : Prop := w_oracle w = [].

#[global] Instance healthy_dec w : Decision (healthy w).
Proof. unfold healthy. apply _. Defined.

Lemma fs_frame_refl ps w : fs_frame ps w w.
Proof. by split. Qed.

Lemma fs_frame_trans ps w1 w2 w3 : fs_frame ps w1 w2 -> fs_frame ps w2 w3 -> fs_frame ps w1 w3.
Proof.
  intros [D1 F1 S1] [D2 F2 S2]. split; [congruence| |auto]. intros p Hp. by rewrite F2, F1.
Qed.

Lemma fs_frame_mono ps qs w w' : ps ⊆ qs -> fs_frame ps w w' -> fs_frame qs w w'.
Proof. intros Hs [D F S]. split; [done| |done]. intros p Hp. apply F. set_solver. Qed.

Lemma fs_frame_content ps w w' p : fs_frame ps w w' -> p ∉ ps -> fcontent w' p = fcontent w p.
Proof. intros [_ F _] Hp. unfold fcontent. by rewrite F. Qed.

(** Only the file system matters. *)
Lemma fs_frame_same ps w w1 w2 :
  w_fs w2 = w_fs w1 -> w_dirs w2 = w_dirs w1 -> fs_frame ps w w1 -> fs_frame ps w w2.
Proof. intros Hf Hd [D F S]. split; [congruence|..]; intros p; rewrite Hf; auto. Qed.

Lemma fs_frame_fput p b w : fs_frame [p] w (fput p b w).
Proof.
  split; [done|..]; cbn; intros q Hq.
  - apply lookup_insert_ne. set_solver.
  - rewrite lookup_insert_is_Some'. by right.
Qed.

Lemma fs_frame_fappend p b w : fs_frame [p] w (fappend p b w).
Proof. eapply fs_frame_same; [| |apply fs_frame_fput]; done. Qed.

Lemma fcontent_fappend p b w : fcontent (fappend p b w) p = fcontent w p ++ b.
Proof. unfold fcontent, fappend, fput. cbn. by rewrite lookup_insert_eq. Qed.

Lemma fs_frame_oracle ps o w : fs_frame ps w (set_oracle o w).
Proof. by split. Qed.

#[export] Hint Resolve fs_frame_refl fs_frame_fput fs_frame_oracle : golog.

Lemma fcontent_fput p b w : fcontent (fput p b w) p = b.
Proof. unfold fcontent, fput, set_fs. cbn. by rewrite lookup_insert_eq. Qed.

Lemma fcontent_fput_ne p q b w : p <> q -> fcontent (fput p b w) q = fcontent w q.
Proof. intros. unfold fcontent, fput, set_fs. cbn. by rewrite lookup_insert_ne. Qed.

Lemma next_fault_healthy w : healthy w -> next_fault w = (Ok None, w).
Proof. unfold healthy, next_fault. by intros ->. Qed.

Lemma syscall_healthy {A} (k : M world A) w : healthy w -> syscall k w = k w.
Proof. intros H. unfold syscall. erewrite bind_Ok by (by apply next_fault_healthy). done. Qed.

Lemma check_open_healthy {A} f (k : M world A) w :
  healthy w -> file_closed f = false -> check_open f k w = k w.
Proof. intros H Hf. unfold check_open. rewrite Hf. by apply syscall_healthy. Qed.

Lemma next_fault_cases w :
  exists o w', next_fault w = (Ok o, w') /\ (forall ps, fs_frame ps w w') /\
    w_fs w' = w_fs w /\ w_dirs w' = w_dirs w /\ (healthy w -> o = None /\ healthy w').
Proof.
  unfold next_fault, healthy. destruct (w_oracle w) as [|o os] eqn:E.
  - exists None, w. split_and!; auto with golog.
  - exists o, (set_oracle os w). split_and!; auto with golog. discriminate.
Qed.

(** A system call either fails without touching the files, or runs its body in
    a world that differs from the initial one in the oracle only. *)
Lemma syscall_cases {A} (k : M world A) w :
  (exists e o, syscall k w = (Err e, set_oracle o w) /\ ~ healthy w) \/
  (exists o, syscall k w = k (set_oracle o w) /\ (healthy w -> o = [])).
Proof.
  unfold syscall, next_fault, healthy, mbind, M_bind. destruct w as [d fs ps [|[f|] os]]; cbn.
  - right. by exists [].
  - left. by exists (f_err f), os.
  - right. exists os. split; [done|]. discriminate.
Qed.

Lemma file_Write_spec f p w :
  exists n err w', file_Write f p w = (Ok (n, err), w') /\ (n <= length p)%nat /\
    fcontent w' (file_path f) = fcontent w (file_path f) ++ take n p /\
    fs_frame [file_path f] w w' /\ (err = None -> n = length p) /\
    (healthy w -> healthy w') /\ (healthy w -> file_closed f = false -> err = None).
Proof.
  unfold file_Write. destruct (file_closed f) eqn:Hc.
  { exists 0%nat, (Some os_ErrClosed), w. rewrite take_0, app_nil_r.
    split_and!; try done; auto with golog. lia. }
  destruct (next_fault_cases w) as (o & w1 & -> & Hfr & Hfs & Hd & Hh).
  assert (Hcnt : fcontent w1 (file_path f) = fcontent w (file_path f))
    by (unfold fcontent; by rewrite Hfs).
  destruct o as [ft|].
  - eexists _, _, _. split; [done|]. rewrite fcontent_fappend, Hcnt.
    split_and!; try done.
    + lia.
    + eapply fs_frame_trans; [apply Hfr|apply fs_frame_fappend].
    + intros H%Hh. naive_solver.
    + intros H%Hh. naive_solver.
  - eexists _, _, _. split; [done|]. rewrite fcontent_fappend, Hcnt.
    split_and!; try done.
    + by rewrite firstn_all.
    + eapply fs_frame_trans; [apply Hfr|apply fs_frame_fappend].
    + intros H%Hh. naive_solver.
Qed.

(** ** What [bufio.Writer] keeps

    [bw_content]: the bytes that reach the file once the buffer is flushed.
    Flushing never changes them, and writing only appends to them, under any
    failure; a failure is remembered and repeated by every later call. *)
Definition bw_content (f : file) (s : bwst) : bytes :=
  fcontent s.2 (file_path f) ++ bw_buf s.1.

Lemma bufio_Flush_spec f s o s' :
  bufio_Flush f s = (o, s') ->
  bw_content f s' = bw_content f s /\ fs_frame [file_path f] s.2 s'.2 /\
  (healthy s.2 -> healthy s'.2) /\
  match o with
  | Ok _ => bw_err s.1 = None /\ bw_err s'.1 = None /\ bw_buf s'.1 = []
  | Err e => bw_err s'.1 = Some e /\
      (bw_err s.1 = None -> healthy s.2 -> file_closed f = false -> False)
  | Panic _ => False
  end.
Proof.
  destruct s as [[buf err] w]. unfold bufio_Flush, bw_content, bw_file_Write. mrun.
  destruct err as [e|]; [intros; simplify_eq/=; crush|].
  destruct (Nat.eqb_spec (length buf) 0) as [Hb|Hb].
  { apply nil_length_inv in Hb. intros. simplify_eq/=. crush. }
  cbn [fst snd].
  destruct (file_Write_spec f buf w) as (n & err & w' & -> & Hn & Hc & Hfr & Hall & Hh & Hok).
  cbn [fst snd]. destruct err as [e|]; [|rewrite Hall, Nat.ltb_irrefl by done];
    intros; simplify_eq/=.
  - rewrite Hc, <- app_assoc, take_drop. crush.
  - rewrite Hc, Hall, firstn_all, app_nil_r by done. crush.
Qed.

(** The loop ends when the rest fits or the writer has failed. *)
Lemma bufio_Write_loop_exit fuel f p nn s :
  Z.of_nat (length p) <= bw_Available s.1 \/ bw_err s.1 <> None ->
  bufio_Write_loop (S fuel) f p nn s = (Ok (p, nn), s).
Proof.
  intros H. cbn [bufio_Write_loop]. mrun. destruct (Z.ltb_spec (bw_Available s.1) (Z.of_nat (length p))); [|done].
  destruct H as [H|H]; [lia|]. by rewrite (bool_decide_eq_false_2 _ H).
Qed.

(** Both branches of a loop turn leave an empty buffer or an error. *)
Lemma bufio_Write_loop_spec fuel f p nn s o s' :
  bufio_Write_loop fuel f p nn s = (o, s') ->
  (2 <= fuel)%nat -> (bw_buf s.1 <> [] -> (3 <= fuel)%nat) ->
  exists k, (k <= length p)%nat /\ bw_content f s' = bw_content f s ++ take k p /\
    fs_frame [file_path f] s.2 s'.2 /\ (healthy s.2 -> healthy s'.2) /\
    (bw_err s.1 <> None -> bw_err s'.1 <> None) /\
    (bw_err s.1 = None -> healthy s.2 -> file_closed f = false -> bw_err s'.1 = None) /\
    exists p' nn', o = Ok (p', nn') /\
    (bw_err s'.1 = None -> p' = drop k p /\ nn' = (nn + k)%nat).
Proof.
  revert p nn s. induction fuel as [|fuel IH]; intros p nn s Hrun Hf1 Hf2; [lia|].
  destruct s as [[buf err] w]. cbn [bufio_Write_loop] in Hrun.
  unfold mbind at 1, M_bind at 1, get in Hrun. cbn [fst snd bw_buf bw_err] in *.
  destruct (_ && _) eqn:Hcond.
  2:{ exists 0%nat. rewrite take_0, app_nil_r. unfold mret, M_ret in Hrun. simplify_eq.
      rewrite drop_0, Nat.add_0_r.
      split_and!; try done; [lia|]. naive_solver. }
  apply andb_true_iff in Hcond as [Hlt Herr%bool_decide_eq_true]. apply Z.ltb_lt in Hlt.
  unfold bw_Available in Hlt. cbn in Hlt, Herr. subst err.
  destruct (Nat.eqb_spec (length buf) 0) as [Hb|Hb].
  - apply nil_length_inv in Hb as ->.
    destruct (file_Write_spec f p w) as (n & err & w1 & Hw & Hn & Hc & Hfr & Hall & Hh & Hok).
    unfold bw_file_Write in Hrun. mrun. rewrite Hw in Hrun. cbn in Hrun.
    destruct fuel as [|fuel]; [lia|]. rewrite bufio_Write_loop_exit in Hrun.
    2:{ destruct err; [by right|left]. by rewrite Hall, drop_all. }
    simplify_eq. exists n. cbn. unfold bw_content. cbn. rewrite !app_nil_r, Hc. crush.
  - destruct (bufio_Flush f (BufioWriter (buf ++ take (Z.to_nat (bw_Available (BufioWriter buf None))) p) None, w))
      as [ofl sf] eqn:Hfl.
    set (k := Z.to_nat (bw_Available (BufioWriter buf None))) in *.
    assert (Hk : (k <= length p)%nat).
    { unfold k, bw_Available, bw_buf. lia. }
    mrun. fold k in Hrun. rewrite Hfl in Hrun.
    apply bufio_Flush_spec in Hfl as (Hc & Hfr & Hh & Ho). cbn in Hfr, Hh, Ho.
    destruct ofl as [[]|e|]; [| |done]; cbn in Hrun.
    + destruct Ho as (_ & Herr & Hbuf).
      apply IH in Hrun as (k' & Hk' & Hc' & Hfr' & Hh' & He1 & He2 & p' & nn' & -> & Hp');
        [|specialize (Hf2 ltac:(by intros ->)); lia|congruence].
      exists (k + k')%nat. rewrite length_drop in Hk'.
      split_and!; [lia| |by eapply fs_frame_trans|tauto|done|tauto|].
      * rewrite Hc', Hc. unfold bw_content. cbn. rewrite <- !app_assoc. do 2 f_equal. apply take_take_drop.
      * eexists _, _. split; [done|]. intros H. destruct (Hp' H) as [-> ->].
        rewrite drop_drop. split; [done|lia].
    + destruct Ho as (Herr & Hno).
      destruct fuel as [|fuel]; [lia|]. rewrite bufio_Write_loop_exit in Hrun by (right; by rewrite Herr). simplify_eq.
      exists k. split_and!; try done.
      * rewrite Hc. unfold bw_content. cbn. by rewrite <- app_assoc.
      * tauto.
      * eexists _, _. split; [done|]. congruence.
Qed.

(** [Write] appends a prefix of [p], all of it when it reports success; it
    fails only with the error it then keeps; the three units of fuel suffice. *)
Lemma bufio_Write_spec f p s o s' :
  bufio_Write f p s = (o, s') ->
  exists k, (k <= length p)%nat /\ bw_content f s' = bw_content f s ++ take k p /\
    fs_frame [file_path f] s.2 s'.2 /\ (healthy s.2 -> healthy s'.2) /\
    match o with
    | Ok n => n = length p /\ k = length p /\ bw_err s.1 = None /\ bw_err s'.1 = None
    | Err e => bw_err s'.1 = Some e /\
        (bw_err s.1 = None -> healthy s.2 -> file_closed f = false -> False)
    | Panic _ => False
    end.
Proof.
  intros Hrun. unfold bufio_Write in Hrun.
  unfold mbind at 1, M_bind at 1 in Hrun.
  destruct (bufio_Write_loop 3 f p 0 s) as [ol sl] eqn:Hl.
  apply bufio_Write_loop_spec in Hl as
    (k & Hk & Hc & Hfr & Hh & He1 & He2 & p' & nn & -> & Hp'); [|lia..].
  mrun. destruct (bw_err sl.1) as [e|] eqn:Herr; simplify_eq/=.
  - exists k. split_and!; try done. naive_solver.
  - destruct Hp' as [-> ->]; [done|].
    exists (length p). rewrite firstn_all, length_drop.
    split_and!; try done; try lia.
    + unfold bw_content in *. cbn. rewrite app_assoc, Hc, <- app_assoc. by rewrite take_drop.
    + destruct (bw_err s.1) eqn:E; [|done]. exfalso. by apply He1.
Qed.
