(* ===== verification/Proto.v ===== *)
(** The messages of [protos/log/v1/log.proto] as [gen/log/v1/log.pb.go] declares
    them, and what the log relies on of [google.golang.org/protobuf]: the
    interface [ProtoMessage] with its laws [ProtoLaws].  The module [Wire]
    gives an instance. *)

From S2P Require Import Prelude.

(** [logv1.Record] *)
Record record := mkRecord {
  Value : bytes;
  Offset : Z;
  Term : Z;
  Type_ : Z
}.

Definition set_Offset (off : Z) (r : record) : record :=
  mkRecord (Value r) off (Term r) (Type_ r).

(** [logv1.ProduceRequest]: its [Record] is a pointer, [None] is [nil]. *)
Record ProduceRequest := mkProduceRequest { pr_Record : option record }.
Record ProduceResponse := mkProduceResponse { presp_Offset : Z }.
Record ConsumeRequest := mkConsumeRequest { cr_Offset : Z }.
Record ConsumeResponse := mkConsumeResponse { cresp_Record : option record }.

(** The messages of the streams. *)
Record ProduceStreamRequest := mkProduceStreamRequest { psr_Record : option record }.
Record ProduceStreamResponse := mkProduceStreamResponse { psresp_Offset : Z }.
Record ConsumeStreamRequest := mkConsumeStreamRequest { csr_Offset : Z }.
Record ConsumeStreamResponse := mkConsumeStreamResponse { csresp_Record : option record }.

(** [GetRecord], a method that a [nil] message has too. *)
Definition GetRecord (x : option ProduceRequest) : option record :=
  match x with Some x => pr_Record x | None => None end.

#[global] Instance record_eq_dec : EqDecision record.
Proof. solve_decision. Defined.

(** The fields are in the range of their Go types, and the value is below the
    2 GiB message limit of the encoder. *)
Definition record_wf (r : record) : Prop :=
  is_u64 (Offset r) /\ is_u64 (Term r) /\ is_u32 (Type_ r) /\
  Z.of_nat (length (Value r)) < 2 ^ 30.

Definition opt_record_wf (r : option record) : Prop :=
  match r with None => True | Some rc => record_wf rc end.

Definition ProduceRequest_wf (r : ProduceRequest) : Prop := opt_record_wf (pr_Record r).
Definition ProduceResponse_wf (r : ProduceResponse) : Prop := is_u64 (presp_Offset r).
Definition ProduceStreamResponse_wf (r : ProduceStreamResponse) : Prop := is_u64 (psresp_Offset r).
Definition ConsumeRequest_wf (r : ConsumeRequest) : Prop := is_u64 (cr_Offset r).
Definition ConsumeResponse_wf (r : ConsumeResponse) : Prop := opt_record_wf (cresp_Record r).

#[global] Instance record_wf_dec r : Decision (record_wf r).
Proof. unfold record_wf, is_u64, is_u32. apply _. Defined.

(** [proto.Marshal] and [proto.Unmarshal] at a message type. *)
Class ProtoMessage (A : Type) := {
  Marshal : A -> outcome bytes;
  Unmarshal : bytes -> outcome A
}.

(** Their documented behaviour on well-typed messages: encoding succeeds, and
    decoding what was encoded gives an equal message. *)
Class ProtoLaws (A : Type) `{ProtoMessage A} (wf : A -> Prop) := {
  Marshal_total m : wf m -> exists b, Marshal m = Ok b /\ Z.of_nat (length b) < 2 ^ 31;
  Unmarshal_Marshal m b : wf m -> Marshal m = Ok b -> Unmarshal b = Ok m
}.

Lemma record_wf_set_Offset r off : record_wf r -> is_u64 off -> record_wf (set_Offset off r).
Proof. unfold record_wf. cbn. tauto. Qed.
#[export] Hint Resolve record_wf_set_Offset : golog.
