(* ===== verification/Wire.v ===== *)
(** The part of the proto3 wire format the messages of [Proto] use, as a
    concrete instance of [ProtoMessage] with its laws.

    The encoder is a dependency of the program, not part of it: the theorems
    about the log hold for every instance, and this one shows that the laws
    can hold; the witnesses evaluate with it. *)

From coqutil Require Import Byte.
From S2P Require Import Prelude Endian Proto.

Module Wire.

(** Base-128 integers, least significant group first; ten groups hold 64 bits. *)
Fixpoint put_varint (fuel : nat) (v : Z) : bytes :=
  match fuel with
  | O => []
  | S n => if v <? 128 then [byte_of v] else byte_of (v mod 128 + 128) :: put_varint n (v / 128)
  end.

Fixpoint get_varint (fuel : nat) (b : bytes) : option (Z * bytes) :=
  match fuel, b with
  | S n, c :: t =>
      let v := byte_val c in
      if v <? 128 then Some (v, t)
      else '(hi, rest) ← get_varint n t; Some (v - 128 + 128 * hi, rest)
  | _, _ => None
  end.

(** A field: its number and its value (wire types 0 and 2). *)
Inductive wval := WVarint (z : Z) | WBytes (b : bytes).

Definition put_field (f : Z * wval) : bytes :=
  match f.2 with
  | WVarint z => put_varint 10 (8 * f.1) ++ put_varint 10 z
  | WBytes b => put_varint 10 (8 * f.1 + 2) ++ put_varint 10 (Z.of_nat (length b)) ++ b
  end.

Definition put_fields (fs : list (Z * wval)) : bytes := concat (put_field <$> fs).

Definition get_field (b : bytes) : option (Z * wval * bytes) :=
  '(tag, b) ← get_varint 10 b;
  if tag mod 8 =? 0 then '(z, b) ← get_varint 10 b; Some (tag / 8, WVarint z, b)
  else if tag mod 8 =? 2 then
    '(n, b) ← get_varint 10 b;
    if n <=? Z.of_nat (length b)
    then Some (tag / 8, WBytes (take (Z.to_nat n) b), drop (Z.to_nat n) b) else None
  else None.

Fixpoint get_fields (fuel : nat) (b : bytes) : option (list (Z * wval)) :=
  match b, fuel with
  | [], _ => Some []
  | _, O => None
  | _, S n => '(f, b) ← get_field b; fs ← get_fields n b; Some (f :: fs)
  end.

(** The messages as fields: a field with its zero value is not written. *)
Definition opt_varint (n z : Z) : list (Z * wval) := if z =? 0 then [] else [(n, WVarint z)].
Definition opt_bytes (n : Z) (b : bytes) : list (Z * wval) :=
  match b with [] => [] | _ => [(n, WBytes b)] end.

Definition record_fields (r : record) : list (Z * wval) :=
  opt_bytes 1 (Value r) ++ opt_varint 2 (Offset r) ++ opt_varint 3 (Term r) ++ opt_varint 4 (Type_ r).

Definition record_field (r : record) (f : Z * wval) : record :=
  match f with
  | (1, WBytes b) => mkRecord b (Offset r) (Term r) (Type_ r)
  | (2, WVarint z) => mkRecord (Value r) z (Term r) (Type_ r)
  | (3, WVarint z) => mkRecord (Value r) (Offset r) z (Type_ r)
  | (4, WVarint z) => mkRecord (Value r) (Offset r) (Term r) (u32 z)
  | _ => r
  end.

Definition marshal_record (r : record) : outcome bytes := Ok (put_fields (record_fields r)).
Definition unmarshal_record (b : bytes) : outcome record :=
  match get_fields (length b) b with
  | Some fs => Ok (foldl record_field (mkRecord [] 0 0 0) fs)
  | None => Err ErrProto
  end.

(** A message whose only field is a record, and one whose only field is an
    integer. *)
Definition marshal_one (r : option record) : bytes :=
  match r with
  | None => []
  | Some r => put_fields [(1, WBytes (put_fields (record_fields r)))]
  end.
Definition unmarshal_one (b : bytes) : outcome (option record) :=
  match get_fields (length b) b with
  | Some [] => Ok None
  | Some [(1, WBytes b')] => match unmarshal_record b' with Ok r => Ok (Some r) | _ => Err ErrProto end
  | _ => Err ErrProto
  end.

Definition unmarshal_int (b : bytes) : outcome Z :=
  match get_fields (length b) b with
  | Some [] => Ok 0
  | Some [(1, WVarint z)] => Ok z
  | _ => Err ErrProto
  end.

#[export] Instance proto_record : ProtoMessage record :=
  {| Marshal := marshal_record; Unmarshal := unmarshal_record |}.

(** The instance of a type that has the fields of another. *)
Definition proto_opt : ProtoMessage (option record) :=
  {| Marshal := fun r => Ok (marshal_one r); Unmarshal := unmarshal_one |}.
Definition proto_int : ProtoMessage Z :=
  {| Marshal := fun z => Ok (put_fields (opt_varint 1 z)); Unmarshal := unmarshal_int |}.

Definition proto_via {A B} (msg : ProtoMessage A) (get : B -> A) (mk : A -> B) : ProtoMessage B := {|
  Marshal := fun m => Marshal (get m);
  Unmarshal := fun b => match Unmarshal b with Ok a => Ok (mk a) | Err e => Err e | Panic p => Panic p end
|}.

#[export] Instance proto_request : ProtoMessage ProduceRequest := proto_via proto_opt pr_Record mkProduceRequest.
#[export] Instance proto_presp : ProtoMessage ProduceResponse := proto_via proto_int presp_Offset mkProduceResponse.
#[export] Instance proto_creq : ProtoMessage ConsumeRequest := proto_via proto_int cr_Offset mkConsumeRequest.
#[export] Instance proto_cresp : ProtoMessage ConsumeResponse := proto_via proto_opt cresp_Record mkConsumeResponse.
#[export] Instance proto_psreq : ProtoMessage ProduceStreamRequest :=
  proto_via proto_opt psr_Record mkProduceStreamRequest.
#[export] Instance proto_psresp : ProtoMessage ProduceStreamResponse :=
  proto_via proto_int psresp_Offset mkProduceStreamResponse.
#[export] Instance proto_csreq : ProtoMessage ConsumeStreamRequest :=
  proto_via proto_int csr_Offset mkConsumeStreamRequest.
#[export] Instance proto_csresp : ProtoMessage ConsumeStreamResponse :=
  proto_via proto_opt csresp_Record mkConsumeStreamResponse.

(** ** The laws *)

Lemma byte_val_of v : 0 <= v < 256 -> byte_val (byte_of v) = v.
Proof. intros. rewrite byte.unsigned_of_Z. unfold byte.wrap. apply Z.mod_small. lia. Qed.

Lemma put_varint_S n v :
  put_varint (S n) v = if v <? 128 then [byte_of v] else byte_of (v mod 128 + 128) :: put_varint n (v / 128).
Proof. reflexivity. Qed.

Lemma get_varint_S n c t :
  get_varint (S n) (c :: t) = if byte_val c <? 128 then Some (byte_val c, t)
    else '(hi, rest) ← get_varint n t; Some (byte_val c - 128 + 128 * hi, rest).
Proof. reflexivity. Qed.

Lemma get_put_varint n v rest :
  0 <= v < 128 ^ (Z.of_nat n + 1) ->
  get_varint (S n) (put_varint (S n) v ++ rest) = Some (v, rest).
Proof.
  revert v. induction n as [|n IH]; intros v Hv; rewrite put_varint_S; destruct (Z.ltb_spec v 128) as [Hlt|Hge].
  1,3: cbn; rewrite byte_val_of by lia; by destruct (Z.ltb_spec v 128); [|lia].
  { change (128 ^ (Z.of_nat 0 + 1)) with 128 in Hv. lia. }
  rewrite Nat2Z.inj_succ, <- Z.add_1_r, (Z.pow_add_r _ (_ + 1)) in Hv by lia.
  assert (0 <= v mod 128 < 128) by (apply Z.mod_pos_bound; lia).
  rewrite <- app_comm_cons, get_varint_S, byte_val_of by lia.
  destruct (Z.ltb_spec (v mod 128 + 128) 128); [lia|].
  rewrite IH.
  - cbn. do 2 f_equal. pose proof (Z.div_mod v 128). lia.
  - split; [apply Z.div_pos; lia|]. apply Z.div_lt_upper_bound; lia.
Qed.

Lemma length_put_varint fuel v : (length (put_varint fuel v) <= fuel)%nat.
Proof.
  revert v. induction fuel as [|n IH]; intros v; cbn; [lia|].
  destruct (v <? 128); cbn; [lia|]. specialize (IH (v / 128)). lia.
Qed.

Lemma put_varint_nonempty n v : put_varint (S n) v <> [].
Proof. cbn. by destruct (v <? 128). Qed.

Definition field_ok (f : Z * wval) : Prop :=
  1 <= f.1 < 2 ^ 16 /\
  match f.2 with WVarint z => is_u64 z | WBytes b => Z.of_nat (length b) < 2 ^ 32 end.

Lemma get_put_field f rest : field_ok f -> get_field (put_field f ++ rest) = Some (f, rest).
Proof.
  destruct f as [n [z|b]]; unfold field_ok, put_field, get_field, is_u64; cbn [fst snd]; intros [Hn Hv];
    rewrite <- !(assoc (++)), get_put_varint by lia; cbn [mbind option_bind].
  - replace (8 * n) with (n * 8) by lia. rewrite Z.mod_mul, Z.div_mul by lia. cbn [Z.eqb].
    rewrite get_put_varint by lia. done.
  - replace (8 * n + 2) with (2 + n * 8) by lia. rewrite Z.mod_add, Z.div_add by lia.
    cbn [Z.modulo Z.div Z.div_eucl Z.eqb]. cbv [Z.modulo Z.div Z.div_eucl]. cbn [Z.eqb Pos.eqb].
    rewrite get_put_varint by lia. cbn [mbind option_bind].
    rewrite length_app. destruct (Z.leb_spec (Z.of_nat (length b)) (Z.of_nat (length b + length rest))); [|lia].
    rewrite Nat2Z.id, take_app_length, drop_app_length. done.
Qed.

Lemma put_field_nonempty f : put_field f <> [].
Proof.
  destruct f as [n [z|b]]; unfold put_field; cbn [fst snd]; intros H;
    apply app_nil in H as [H _]; by apply put_varint_nonempty in H.
Qed.

Lemma get_put_fields fs fuel :
  Forall field_ok fs -> (length (put_fields fs) <= fuel)%nat -> get_fields fuel (put_fields fs) = Some fs.
Proof.
  intros Hok. revert fuel. induction Hok as [|f fs Hf Hfs IH]; intros fuel Hl; [by destruct fuel|].
  change (put_fields (f :: fs)) with (put_field f ++ put_fields fs) in *.
  pose proof (put_field_nonempty f) as Hne. rewrite length_app in Hl.
  destruct (put_field f ++ put_fields fs) as [|c t] eqn:E.
  { by apply app_nil in E as [E _]. }
  destruct fuel as [|n].
  { destruct (put_field f); cbn in Hl; [done|lia]. }
  cbn [get_fields]. rewrite <- E, get_put_field by done. cbn [mbind option_bind].
  rewrite IH; [done|]. destruct (put_field f); [done|]. cbn in Hl. lia.
Qed.

Lemma record_fields_ok r : record_wf r -> Forall field_ok (record_fields r).
Proof.
  intros (H1 & H2 & H3 & H4). unfold record_fields, opt_varint.
  assert (Hv : forall n z, 1 <= n < 2 ^ 16 -> is_u64 z ->
            Forall field_ok (if z =? 0 then [] else [(n, WVarint z)])).
  { intros n z Hn Hz. destruct (z =? 0); repeat constructor; cbn; (lia || apply Hz). }
  repeat apply Forall_app_2; [|apply Hv; (lia || unfold is_u64, is_u32 in *; lia)..].
  unfold opt_bytes. destruct (Value r) as [|c t] eqn:E; [constructor|]. rewrite <- E in *.
  repeat constructor; cbn [fst snd]; lia.
Qed.

Lemma record_fields_fold r :
  record_wf r -> foldl record_field (mkRecord [] 0 0 0) (record_fields r) = r.
Proof.
  intros (_ & _ & H3 & _). destruct r as [v o t y]. cbn in H3.
  unfold record_fields, opt_bytes, opt_varint. cbn.
  rewrite !foldl_app. destruct v as [|c v]; cbn;
  repeat match goal with |- context [?x =? 0] => destruct (Z.eqb_spec x 0); subst; cbn end;
    rewrite ?u32_small by done; done.
Qed.

Lemma length_put_fields_record r :
  record_wf r -> Z.of_nat (length (put_fields (record_fields r))) < 2 ^ 30 + 100.
Proof.
  intros (_ & _ & _ & H4). unfold record_fields, opt_bytes, opt_varint, put_fields.
  rewrite !fmap_app, !concat_app, !length_app.
  assert (Hv : forall n z, (length (concat (put_field <$> (if (z =? 0)%Z then [] else [(n, WVarint z)]))) <= 20)%nat).
  { intros n z. destruct (z =? 0); cbn -[put_varint]; [lia|]. unfold put_field. cbn [fst snd].
    rewrite !length_app. pose proof (length_put_varint 10 (8 * n)).
    pose proof (length_put_varint 10 z). cbn [length]. lia. }
  pose proof (Hv 2 (Offset r)). pose proof (Hv 3 (Term r)). pose proof (Hv 4 (Type_ r)).
  assert (Z.of_nat (length (concat (put_field <$> (match Value r with [] => [] | _ => [(1, WBytes (Value r))] end)))) < 2 ^ 30 + 20).
  { destruct (Value r) as [|c t] eqn:E; [cbn; lia|]. rewrite <- E in *.
    rewrite list_fmap_singleton; cbn [concat]. rewrite app_nil_r. unfold put_field. cbn [fst snd].
    rewrite !length_app. pose proof (length_put_varint 10 (8 * 1 + 2)).
    pose proof (length_put_varint 10 (Z.of_nat (length (Value r)))). lia. }
  lia.
Qed.

#[export] Instance proto_record_laws : ProtoLaws record record_wf.
Proof.
  split.
  - intros r Hr. eexists. split; [reflexivity|]. pose proof (length_put_fields_record r Hr). lia.
  - intros r b Hr E. cbn in E. injection E as <-. cbn [Unmarshal proto_record]. unfold unmarshal_record.
    rewrite get_put_fields by (auto using record_fields_ok). by rewrite record_fields_fold.
Qed.

Lemma proto_opt_laws : @ProtoLaws (option record) proto_opt opt_record_wf.
Proof.
  assert (Hok : forall r, record_wf r -> Forall field_ok [(1, WBytes (put_fields (record_fields r)))]).
  { intros r Hr. repeat constructor; cbn [fst snd]; try lia.
    pose proof (length_put_fields_record r Hr). lia. }
  split.
  - intros [r|] Hr; cbn in Hr; (eexists; split; [reflexivity|]); cbn [marshal_one length]; [|lia].
    unfold put_fields at 1. rewrite list_fmap_singleton; cbn [concat]. rewrite app_nil_r. unfold put_field. cbn [fst snd].
    rewrite !length_app. pose proof (length_put_varint 10 (8 * 1 + 2)).
    pose proof (length_put_varint 10 (Z.of_nat (length (put_fields (record_fields r))))).
    pose proof (length_put_fields_record r Hr). lia.
  - intros [r|] b Hr E; cbn in Hr; cbn [Marshal proto_opt marshal_one] in E; injection E as <-; [|reflexivity].
    cbn [Unmarshal proto_opt]. unfold unmarshal_one.
    rewrite get_put_fields by auto. unfold unmarshal_record.
    rewrite get_put_fields by (auto using record_fields_ok). by rewrite record_fields_fold.
Qed.

Lemma proto_int_laws : @ProtoLaws Z proto_int is_u64.
Proof.
  assert (Hok : forall z, is_u64 z -> Forall field_ok (opt_varint 1 z)).
  { intros z Hz. unfold opt_varint. destruct (z =? 0); repeat constructor; cbn; (lia || apply Hz). }
  split.
  - intros z Hz. eexists. split; [reflexivity|]. unfold opt_varint. destruct (z =? 0); [cbn; lia|].
    unfold put_fields. rewrite list_fmap_singleton; cbn [concat]. rewrite app_nil_r. unfold put_field. cbn [fst snd].
    rewrite length_app. pose proof (length_put_varint 10 (8 * 1)). pose proof (length_put_varint 10 z). lia.
  - intros z b Hz E. cbn [Marshal proto_int] in E. injection E as <-. cbn [Unmarshal proto_int]. unfold unmarshal_int.
    rewrite get_put_fields by auto. unfold opt_varint. by destruct (Z.eqb_spec z 0) as [->|].
Qed.

Lemma proto_via_laws {A B} (msg : ProtoMessage A) (get : B -> A) (mk : A -> B) wf :
  (forall m, mk (get m) = m) -> @ProtoLaws A msg wf ->
  @ProtoLaws B (proto_via msg get mk) (fun m => wf (get m)).
Proof.
  intros Hmk [Ht Hu]. split.
  - intros m. apply Ht.
  - intros m b Hm E. cbn. by rewrite (Hu (get m)), Hmk.
Qed.

#[export] Instance proto_request_laws : ProtoLaws ProduceRequest ProduceRequest_wf.
Proof. apply (proto_via_laws _ pr_Record mkProduceRequest opt_record_wf); [by intros []|apply proto_opt_laws]. Qed.
#[export] Instance proto_presp_laws : ProtoLaws ProduceResponse ProduceResponse_wf.
Proof. apply (proto_via_laws _ presp_Offset mkProduceResponse is_u64); [by intros []|apply proto_int_laws]. Qed.
#[export] Instance proto_psresp_laws : ProtoLaws ProduceStreamResponse ProduceStreamResponse_wf.
Proof. apply (proto_via_laws _ psresp_Offset mkProduceStreamResponse is_u64); [by intros []|apply proto_int_laws]. Qed.
#[export] Instance proto_creq_laws : ProtoLaws ConsumeRequest ConsumeRequest_wf.
Proof. apply (proto_via_laws _ cr_Offset mkConsumeRequest is_u64); [by intros []|apply proto_int_laws]. Qed.
#[export] Instance proto_cresp_laws : ProtoLaws ConsumeResponse ConsumeResponse_wf.
Proof. apply (proto_via_laws _ cresp_Record mkConsumeResponse opt_record_wf); [by intros []|apply proto_opt_laws]. Qed.
End Wire.
