(* ===== verification/Tls.v ===== *)
(** The TLS configurations of [internal/http/client.go].

    Certificates and files are dependencies: a certificate is a name, and the
    functions that read them are parameters. *)

From S2P Require Import Prelude.

Inductive ClientAuthType := NoClientCert | RequireAndVerifyClientCert.

Record tls_Config := mkTLS {
  tls_Certificates : list string;
  tls_RootCAs : option (list string);
  tls_ClientCAs : option (list string);
  tls_ClientAuth : ClientAuthType;
  tls_ServerName : string
}.
Definition tls_zero : tls_Config := mkTLS [] None None NoClientCert "".

Section tls.
(** [tls.LoadX509KeyPair], and [os.ReadFile] with the certificates
    [AppendCertsFromPEM] finds in the file. *)
Variable LoadX509KeyPair : string -> string -> outcome string.
Variable read_certs : string -> outcome (list string).

Definition outcome_bind {A B} (o : outcome A) (f : A -> outcome B) : outcome B :=
  match o with Ok a => f a | Err e => Err e | Panic p => Panic p end.

Definition add_certificate (crt key : string) (cfg : tls_Config) : outcome tls_Config :=
  if bool_decide (crt <> ""%string) && bool_decide (key <> ""%string) then
    outcome_bind (LoadX509KeyPair crt key) (fun c =>
      Ok (mkTLS (tls_Certificates cfg ++ [c]) (tls_RootCAs cfg) (tls_ClientCAs cfg) (tls_ClientAuth cfg)
            (tls_ServerName cfg)))
  else Ok cfg.

Definition SetupClientTLSConfig (crt key ca serverName : string) : outcome tls_Config :=
  outcome_bind (add_certificate crt key tls_zero) (fun cfg =>
  if bool_decide (ca <> ""%string) then
    outcome_bind (read_certs ca) (fun cert =>
      Ok (mkTLS (tls_Certificates cfg) (Some (default [] (tls_RootCAs cfg) ++ cert)) (tls_ClientCAs cfg)
            (tls_ClientAuth cfg) serverName))
  else Ok cfg).

(** The configuration is changed in place: the result is its new value. *)
Definition SetupServerTLSConfig (crt key ca serverName : string) (cfg : option tls_Config)
    : outcome (option tls_Config) :=
  match cfg with
  | None => Ok None
  | Some cfg =>
      outcome_bind (add_certificate crt key cfg) (fun cfg =>
      if bool_decide (ca <> ""%string) then
        outcome_bind (read_certs ca) (fun cert =>
          Ok (Some (mkTLS (tls_Certificates cfg) (tls_RootCAs cfg)
                (Some (default [] (tls_ClientCAs cfg) ++ cert)) RequireAndVerifyClientCert serverName)))
      else Ok (Some cfg))
  end.

End tls.

(** A server that is given a CA requires and verifies client certificates
    against it, besides the CAs it already had. *)
Theorem server_tls_requires_clients load read crt key ca name cfg cfg' :
  ca <> ""%string -> SetupServerTLSConfig load read crt key ca name (Some cfg) = Ok (Some cfg') ->
  tls_ClientAuth cfg' = RequireAndVerifyClientCert /\ tls_ServerName cfg' = name /\
  exists certs, read ca = Ok certs /\ tls_ClientCAs cfg' = Some (default [] (tls_ClientCAs cfg) ++ certs).
Proof.
  intros Hca H. unfold SetupServerTLSConfig in H.
  destruct (add_certificate load crt key cfg) as [cfg1|e|p] eqn:E; cbn in H; [|done..].
  rewrite bool_decide_eq_true_2 in H by done.
  destruct (read ca) as [certs|e|p]; cbn in H; simplify_eq. cbn. split_and!; [done|done|].
  exists certs. split; [done|]. unfold add_certificate in E.
  destruct (_ && _); [|by simplify_eq]. destruct (load crt key); cbn in E; by simplify_eq.
Qed.

Lemma server_tls_requires_clients_witness :
  exists cfg', SetupServerTLSConfig (fun _ _ => Ok "cert"%string) (fun _ => Ok ["ca"%string]) "c" "k" "ca" "127.0.0.1"
      (Some tls_zero) = Ok (Some cfg') /\ tls_ClientAuth cfg' = RequireAndVerifyClientCert.
Proof.
  eexists. split; [reflexivity|].
  eapply (server_tls_requires_clients (fun _ _ => Ok "cert"%string) (fun _ => Ok ["ca"%string]) "c" "k" "ca" "127.0.0.1" tls_zero).
  - done.
  - reflexivity.
Defined.
