(* ===== verification/StreamLayer.v ===== *)
(** [internal/log/distributed/stream_layer.go]: the transport of raft, and the
    matcher of [internal/agent/agent.go] that sends its connections to it.

    Sockets are a dependency: [Net] is listening, the calls on a listener, the dialer and a
    connection (listeners and connections are handles); [NetLaws] says that a connection is a stream
    of bytes. *)

From S2P Require Import Prelude Tls.

Class Net (N : Type) := {
  net_Listen : string -> M N nat;
  ln_Accept : nat -> M N nat;
  ln_Addr : nat -> M N string;
  ln_Close : nat -> M N unit;
  conn_Read : nat -> nat -> M N bytes;
  conn_Write : nat -> bytes -> M N unit;
  dialer_Dial : string -> Z -> M N nat
}.

(** A [net.Conn]: the socket, under [tls.Server] or [tls.Client] when there is a
    configuration. *)
Inductive wrapping := Plain | TlsServer (cfg : tls_Config) | TlsClient (cfg : tls_Config).
Record Conn := mkConn { cn_socket : nat; cn_wrapping : wrapping }.

Record StreamLayer := mkStreamLayer {
  sl_ln : nat;
  sl_serverTLSConfig : option tls_Config;
  sl_peerTLSConfig : option tls_Config
}.

Definition NewStreamLayer (ln : nat) (serverTLSConfig peerTLSConfig : option tls_Config) : StreamLayer :=
  mkStreamLayer ln serverTLSConfig peerTLSConfig.

Definition RaftRPC : Byte.byte := Byte.x01.

(** [b := make([]byte, 1); conn.Read(b)]: a read that fills nothing leaves a zero. *)
Definition one_byte (got : bytes) : bytes := resize 1 Byte.x00 got.

Section layer.
Context {N : Type} `{Net N}.

Definition sl_Accept (s : StreamLayer) : M N Conn :=
  conn ← ln_Accept (sl_ln s);
  got ← conn_Read conn 1;
  if negb (bool_decide ([RaftRPC] = one_byte got)) then throw (errors_New "not a raft rpc") else
  match sl_serverTLSConfig s with
  | Some cfg => mret (mkConn conn (TlsServer cfg))
  | None => mret (mkConn conn Plain)
  end.

Definition sl_Addr (s : StreamLayer) : M N string := ln_Addr (sl_ln s).
Definition sl_Close (s : StreamLayer) : M N unit := ln_Close (sl_ln s).

Definition sl_Dial (s : StreamLayer) (address : string) (timeout : Z) : M N Conn :=
  conn ← dialer_Dial address timeout;
  conn_Write conn [RaftRPC];;
  match sl_peerTLSConfig s with
  | Some cfg => mret (mkConn conn (TlsClient cfg))
  | None => mret (mkConn conn Plain)
  end.
End layer.

(** The matcher that [setupLog] of the agent gives to the multiplexer, on what the
    first read of a connection returns. *)
Definition raft_matcher (read : outcome bytes) : bool :=
  match read with
  | Ok got => bool_decide (one_byte got = [RaftRPC])
  | _ => false
  end.

(** ** Properties *)

(** Connections as byte streams: what was written and not yet read, in the order
    of the writes.  A read takes at most as many bytes as it asks for, and at
    least one unless it reports an error. *)
Class NetLaws (N : Type) `{Net N} := {
  unread_bytes : N -> nat -> bytes;
  law_Accept l s c s' : ln_Accept l s = (Ok c, s') -> forall d, unread_bytes s' d = unread_bytes s d;
  law_Dial addr t s c s' : dialer_Dial addr t s = (Ok c, s') -> unread_bytes s' c = [];
  law_Write c b s s' : conn_Write c b s = (Ok tt, s') -> unread_bytes s' c = unread_bytes s c ++ b;
  law_Read c n got s s' : conn_Read c n s = (Ok got, s') ->
    got ++ unread_bytes s' c = unread_bytes s c /\ (0 < n -> 1 <= length got <= n)%nat
}.

Section props.
Context {N : Type} `{Hnet : Net N} {Hlaws : NetLaws N}.

(** A successful read of one byte takes the first one. *)
Lemma read_one c s got s' :
  conn_Read c 1 s = (Ok got, s') -> exists x, got = [x] /\ unread_bytes s c = x :: unread_bytes s' c.
Proof.
  intros Hr. apply law_Read in Hr as [E Hl]. specialize (Hl ltac:(lia)).
  destruct got as [|x [|y got]]; cbn in Hl; try lia. exists x. by rewrite <- E.
Qed.

Lemma sl_Accept_spec sl s c s' :
  sl_Accept sl s = (Ok c, s') ->
  unread_bytes s (cn_socket c) = RaftRPC :: unread_bytes s' (cn_socket c) /\
  cn_wrapping c = match sl_serverTLSConfig sl with Some cfg => TlsServer cfg | None => Plain end.
Proof.
  unfold sl_Accept. intros Hrun. inv_ok Hrun. inv_ok Hrun.
  apply read_one in Hrun1 as (x & -> & E). rewrite (law_Accept _ _ _ _ Hrun0) in E.
  case_bool_decide as Hb; cbn [negb] in Hrun; [|done]. cbn in Hb. injection Hb as <-.
  destruct (sl_serverTLSConfig sl); unfold mret, M_ret in Hrun; by simplify_eq.
Qed.

Lemma sl_Dial_spec sl addr t s c s' :
  sl_Dial sl addr t s = (Ok c, s') ->
  unread_bytes s' (cn_socket c) = [RaftRPC] /\
  cn_wrapping c = match sl_peerTLSConfig sl with Some cfg => TlsClient cfg | None => Plain end.
Proof.
  unfold sl_Dial. intros Hrun. inv_ok Hrun. inv_ok Hrun. destruct a0.
  apply law_Dial in Hrun0. apply law_Write in Hrun1. rewrite Hrun0 in Hrun1.
  destruct (sl_peerTLSConfig sl); unfold mret, M_ret in Hrun; by simplify_eq.
Qed.

(** A raft connection crosses the transport intact: the multiplexer sends it to
    raft and [Accept] takes exactly the byte that [Dial] wrote, so that raft at
    the other end reads what its peer wrote, each side under its own TLS
    configuration; a connection that starts with another byte is neither matched nor accepted. *)
Theorem raft_connection sl addr t s c s1 data s2 :
  sl_Dial sl addr t s = (Ok c, s1) -> conn_Write (cn_socket c) data s1 = (Ok tt, s2) ->
  (forall got s3, conn_Read (cn_socket c) 1 s2 = (Ok got, s3) -> raft_matcher (Ok got) = true) /\
  (forall sl' c' s3, sl_Accept sl' s2 = (Ok c', s3) -> cn_socket c' = cn_socket c ->
     unread_bytes s3 (cn_socket c) = data /\
     cn_wrapping c' = from_option TlsServer Plain (sl_serverTLSConfig sl') /\
     cn_wrapping c = from_option TlsClient Plain (sl_peerTLSConfig sl)) /\
  (forall sl' c' s3 x rest, unread_bytes s2 (cn_socket c') = x :: rest -> x <> RaftRPC ->
     sl_Accept sl' s2 <> (Ok c', s3) /\
     forall got s4, conn_Read (cn_socket c') 1 s2 = (Ok got, s4) -> raft_matcher (Ok got) = false).
Proof.
  intros Hd Hw. apply sl_Dial_spec in Hd as [Hu Hc]. apply law_Write in Hw. rewrite Hu in Hw. split_and!.
  - intros got s3 Hr. apply read_one in Hr as (x & -> & E). rewrite Hw in E. by injection E as <-.
  - intros sl' c' s3 Ha E. apply sl_Accept_spec in Ha as [Ha Hc']. rewrite E, Hw in Ha. injection Ha as Ha.
    split_and!; [done| |done]. by rewrite Hc'.
  - intros sl' c' s3 x rest E Hx. split.
    + intros Ha. apply sl_Accept_spec in Ha as [Ha _]. congruence.
    + intros got s4 Hr. apply read_one in Hr as (y & -> & Ey). rewrite E in Ey. injection Ey as -> _.
      unfold raft_matcher. apply bool_decide_eq_false. cbn. by intros [= ->].
Qed.
End props.

(** ** Witness: a network of unbounded pipes. *)
Module StreamWitness.

Record pipes := mkPipes { pp_queue : list nat; pp_data : list bytes }.

#[export] Instance pipe_net : Net pipes := {|
  net_Listen := fun _ => mret 0%nat;
  ln_Accept := fun _ n =>
    match pp_queue n with c :: q => (Ok c, mkPipes q (pp_data n)) | [] => (Err os_ErrClosed, n) end;
  ln_Addr := fun _ => mret "pipe"%string;
  ln_Close := fun _ => mret tt;
  conn_Read := fun c k n =>
    match pp_data n !! c with
    | Some (x :: b) =>
        if decide (k = 0)%nat then (Ok [], n)
        else (Ok (take k (x :: b)), mkPipes (pp_queue n) (<[c := drop k (x :: b)]> (pp_data n)))
    | _ => (Err io_EOF, n)
    end;
  conn_Write := fun c b n =>
    match pp_data n !! c with
    | Some b0 => (Ok tt, mkPipes (pp_queue n) (<[c := b0 ++ b]> (pp_data n)))
    | None => (Err os_ErrClosed, n)
    end;
  dialer_Dial := fun _ _ n =>
    (Ok (length (pp_data n)), mkPipes (pp_queue n ++ [length (pp_data n)]) (pp_data n ++ [[]]))
|}.

#[export, refine] Instance pipe_laws : NetLaws pipes := {|
  unread_bytes := fun n c => default [] (pp_data n !! c)
|}.
Proof.
  - intros l n c n' H d. cbn in H. case_match; by simplify_eq.
  - intros addr t n c n' H. cbn in H. simplify_eq. cbn. by rewrite list_lookup_middle.
  - intros c b n n' H. cbn in H. destruct (pp_data n !! c) as [b0|] eqn:E; simplify_eq. cbn.
    by rewrite list_lookup_insert_eq by (by eapply lookup_lt_Some).
  - intros c k got n n' H. cbn in H. destruct (pp_data n !! c) as [[|x b]|] eqn:E; try done.
    destruct (decide (k = 0)%nat); simplify_eq; cbn; [rewrite E; split; [done|lia]|].
    rewrite list_lookup_insert_eq by (by eapply lookup_lt_Some). cbn.
    change (x :: b) with ([x] ++ b) at 3. rewrite take_drop. split; [done|]. rewrite length_take. cbn. lia.
Defined.

Definition net0 : pipes := mkPipes [] [].
Definition server_tls : tls_Config := mkTLS ["server"%string] None (Some ["ca"%string]) RequireAndVerifyClientCert "".
Definition peer_tls : tls_Config := mkTLS ["peer"%string] (Some ["ca"%string]) None NoClientCert "127.0.0.1".
Definition layer : StreamLayer := NewStreamLayer 0 (Some server_tls) (Some peer_tls).
Definition dialed : pipes := (sl_Dial layer "10.0.0.1:8400" 0 net0).2.
Definition sent : pipes := (conn_Write 0 [Byte.x05; Byte.x06] dialed).2.

Lemma raft_connection_witness :
  exists n, sl_Accept layer sent = (Ok (mkConn 0 (TlsServer server_tls)), n) /\
    unread_bytes n 0%nat = [Byte.x05; Byte.x06].
Proof.
  destruct (raft_connection layer "10.0.0.1:8400" 0 net0 (mkConn 0 (TlsClient peer_tls)) dialed
    [Byte.x05; Byte.x06] sent) as (_ & H & _).
  - vm_compute. reflexivity.
  - vm_compute. reflexivity.
  - eexists. split; [vm_compute; reflexivity|].
    eapply (H layer (mkConn 0 (TlsServer server_tls))); [vm_compute; reflexivity|reflexivity].
Defined.
End StreamWitness.
