(* ===== verification/Config.v ===== *)
(** [internal/log/config.go]: the configuration of the log.  Durations are
    nanoseconds.  The [StreamLayer], an interface value, is the stream layer of
    this program or [nil]. *)

From S2P Require Import Prelude Tls StreamLayer.

Record SegmentConfig := mkSegmentConfig {
  MaxStoreBytes : Z;
  MaxIndexBytes : Z;
  InitialOffset : Z
}.

Record RaftConfig := mkRaftConfig {
  LocalID : string;
  HeartbeatTimeout : Z;
  ElectionTimeout : Z;
  LeaderLeaseTimeout : Z;
  CommitTimeout : Z;
  rc_StreamLayer : option StreamLayer;
  Bootstrap : bool
}.

Record Config := mkConfig { Raft : RaftConfig; Segment : SegmentConfig }.

Definition set_Segment (s : SegmentConfig) (c : Config) : Config := mkConfig (Raft c) s.
Definition set_InitialOffset (off : Z) (c : Config) : Config :=
  set_Segment (mkSegmentConfig (MaxStoreBytes (Segment c)) (MaxIndexBytes (Segment c)) off) c.

Definition zero_RaftConfig : RaftConfig := mkRaftConfig "" 0 0 0 0 None false.
