(* ===== verification/Store.v ===== *)
(** [internal/log/store.go]: the append-only file of length-prefixed records.

    [store] is the struct, with the [bufio.Writer] in front of the file; each
    method runs under the struct's mutex and is one atomic operation here. *)

From S2P Require Import Prelude Endian OS.

Definition LenWidth : Z := 8.

(** The largest slice the allocator accepts; a longer [make] panics. *)
Definition maxAlloc : Z := 2 ^ 48.

Record store := Store { s_File : file; s_buf : bufio_Writer; s_size : Z }.

Abbreviation sst := (store * world)%type.

Definition on_buf {A} (m : M bwst A) : M sst A :=
  zoom (fun s => (s_buf s.1, s.2))
       (fun t s => (Store (s_File s.1) t.1 (s_size s.1), t.2)) m.

Definition on_disk {A} (m : M world A) : M sst A :=
  zoom snd (fun w s => (s.1, w)) m.

Definition newStore (f : file) : M world store :=
  fi ← wrap_err "stat" (file_Stat f);
  mret (Store f bufio_NewWriter (u64 fi)).

(** The bytes [Append] writes for a record. *)
Definition frame (p : bytes) : bytes := PutUint64 (u64 (Z.of_nat (length p))) ++ p.

Definition store_Append (p : bytes) : M sst (Z * Z) :=
  s ← get;
  let pos := s_size s.1 in
  on_buf (bufio_Write (s_File s.1) (PutUint64 (u64 (Z.of_nat (length p)))));;
  w ← on_buf (bufio_Write (s_File s.1) p);
  let w := Z.of_nat w + LenWidth in
  modify (fun s' => (Store (s_File s'.1) (s_buf s'.1) (s_size s'.1 +64 u64 w), s'.2));;
  mret (u64 w, pos).

(** [if _, err := s.File.ReadAt(b, off); err != nil { return err }] for a [b] of
    [n] bytes. *)
Definition read_full (n off : Z) : M sst bytes :=
  s ← get;
  r ← on_disk (file_ReadAt (s_File s.1) (Z.to_nat n) off);
  match r with
  | (_, Some e) => throw e
  | (b, None) => mret b
  end.

Definition store_Read (pos : Z) : M sst bytes :=
  s ← get;
  on_buf (bufio_Flush (s_File s.1));;
  size ← read_full LenWidth (i64 pos);
  n ← lift (Uint64 size);
  if maxAlloc <? n then panic "makeslice: len out of range" else
  read_full n (i64 (pos +64 LenWidth)).

(** [ReadAt(p, off)] for a [p] of [n] bytes: the bytes read and the error. *)
Definition store_ReadAt (n : nat) (off : Z) : M sst (bytes * option error) :=
  s ← get;
  r ← try (on_buf (bufio_Flush (s_File s.1)));
  match r with
  | inr e => mret ([], Some e)
  | inl _ => on_disk (file_ReadAt (s_File s.1) n off)
  end.

Definition store_Close : M sst unit :=
  s ← get;
  on_buf (bufio_Flush (s_File s.1));;
  zoom (fun s => (s_File s.1, s.2))
       (fun t s => (Store t.1 (s_buf s.1) (s_size s.1), t.2)) file_Close.

(** [s.Name()], promoted from the embedded file. *)
Definition store_Name (s : store) : path := file_path (s_File s).

(** ** Contents *)

(** All bytes appended so far, flushed or not. *)
Definition store_content (s : store) (w : world) : bytes :=
  bw_content (s_File s) (s_buf s, w).

(** The size field counts the contents, until a write has failed. *)
Definition store_ok (s : store) (w : world) : Prop :=
  bw_err (s_buf s) = None -> s_size s = u64 (Z.of_nat (length (store_content s w))).

Lemma length_frame p : length (frame p) = (8 + length p)%nat.
Proof. reflexivity. Qed.
#[export] Hint Rewrite length_frame : len.

Lemma store_content_frame ps s w w' :
  fs_frame ps w w' -> store_Name s ∉ ps -> store_content s w' = store_content s w.
Proof.
  intros Hf Hn. unfold store_content, bw_content. cbn. by erewrite fs_frame_content.
Qed.

(** The three facts every store operation shares: same file, only that file
    touched, and a healthy disk stays healthy. *)
Definition store_step (s : store) (w : world) (s' : store) (w' : world) : Prop :=
  file_path (s_File s') = file_path (s_File s) /\ fs_frame [store_Name s] w w' /\
  (healthy w -> healthy w').

Lemma on_buf_run {A} (m : M bwst A) s w o b' w' :
  m (s_buf s, w) = (o, (b', w')) ->
  on_buf m (s, w) = (o, (Store (s_File s) b' (s_size s), w')).
Proof. intros H. unfold on_buf, zoom. cbn. by rewrite H. Qed.

(** [Append], under any failures: the contents grow by a prefix of the record's
    frame; success means all of it was taken at the old size. *)
Lemma store_Append_spec p s w o s' w' :
  store_Append p (s, w) = (o, (s', w')) ->
  store_step s w s' w' /\ s_File s' = s_File s /\
  exists q, store_content s' w' = store_content s w ++ q /\
  match o with
  | Ok (n, pos) => q = frame p /\ pos = s_size s /\ n = u64 (8 + Z.of_nat (length p)) /\
      s_size s' = u64 (s_size s + n) /\ bw_err (s_buf s) = None /\ bw_err (s_buf s') = None
  | Err e => s_size s' = s_size s /\ bw_err (s_buf s') = Some e /\
      (bw_err (s_buf s) = None -> healthy w -> file_closed (s_File s) = false -> False)
  | Panic _ => False
  end.
Proof.
  unfold store_Append. intros Hrun.
  unfold mbind at 1, M_bind at 1, get in Hrun. cbn [fst snd] in Hrun.
  set (hdr := PutUint64 _) in Hrun.
  destruct (bufio_Write (s_File s) hdr (s_buf s, w)) as [o1 [b1 w1]] eqn:H1.
  unfold mbind at 1, M_bind at 1 in Hrun. erewrite on_buf_run in Hrun by exact H1.
  apply bufio_Write_spec in H1 as (k1 & Hk1 & Hc1 & Hf1 & Hh1 & Ho1). cbn [fst snd] in Hc1, Hf1, Hh1, Ho1.
  destruct o1 as [n1|e|]; [|simplify_eq/=|done].
  2:{ split_and!; try done. exists (take k1 hdr). split_and!; try done; tauto. }
  destruct Ho1 as (-> & -> & He0 & He1).
  set (s1 := Store (s_File s) b1 (s_size s)) in Hrun.
  destruct (bufio_Write (s_File s) p (b1, w1)) as [o2 [b2 w2]] eqn:H2.
  unfold mbind at 1, M_bind at 1 in Hrun.
  erewrite (on_buf_run _ s1) in Hrun by exact H2.
  apply bufio_Write_spec in H2 as (k2 & Hk2 & Hc2 & Hf2 & Hh2 & Ho2). cbn [fst snd] in Hc2, Hf2, Hh2, Ho2.
  rewrite firstn_all in Hc1.
  assert (Hcc : store_content (Store (s_File s) b2 (s_size s)) w2
                = store_content s w ++ hdr ++ take k2 p).
  { unfold store_content. cbn [s_File s_buf]. by rewrite Hc2, Hc1, <- app_assoc. }
  assert (Hfr : fs_frame [file_path (s_File s)] w w2) by (by eapply fs_frame_trans).
  mrun. destruct o2 as [n2|e|]; [|simplify_eq/=|done].
  - destruct Ho2 as (-> & -> & _ & He2). simplify_eq/=. rewrite firstn_all in Hcc.
    split_and!; try done; [unfold store_step; cbn; tauto|].
    exists (frame p). split_and!; try done. by rewrite Z.add_comm.
  - split_and!; try done; [unfold store_step; cbn; tauto|].
    eexists. split; [exact Hcc|]. split_and!; try done; tauto.
Qed.

Lemma file_ReadAt_spec f q off w :
  0 <= off -> at_pos (fcontent w (file_path f)) (Z.to_nat off) q ->
  exists r w', file_ReadAt f (length q) off w = (Ok r, w') /\
    w_fs w' = w_fs w /\ w_dirs w' = w_dirs w /\ (healthy w -> healthy w') /\
    (r.2 = None -> r.1 = q) /\ (healthy w -> file_closed f = false -> r.2 = None).
Proof.
  intros Hoff [Hq Hl]. unfold file_ReadAt.
  destruct (Z.ltb_spec off 0); [lia|].
  destruct (Nat.eqb_spec (length q) 0) as [H0|H0].
  { apply nil_length_inv in H0 as ->. eexists _, _. crush. }
  destruct (file_closed f) eqn:Hc; [eexists _, _; crush|].
  destruct (next_fault_cases w) as (o & w1 & -> & Hfr & Hfs & Hd & Hh).
  destruct o as [ft|]; eexists _, _; (split; [done|]); cbn [fst snd].
  - split_and!; try done; intros Hw%Hh; naive_solver.
  - replace (fcontent w1 (file_path f)) with (fcontent w (file_path f))
      by (unfold fcontent; by rewrite Hfs).
    rewrite Hq, Nat.ltb_irrefl. split_and!; try done. intros Hw%Hh. naive_solver.
Qed.

(** [read_full] returns the bytes found at the offset, or an error. *)
Lemma read_full_spec n q off s w :
  0 <= off -> n = Z.of_nat (length q) -> at_pos (fcontent w (store_Name s)) (Z.to_nat off) q ->
  exists o w', read_full n off (s, w) = (o, (s, w')) /\
    w_fs w' = w_fs w /\ w_dirs w' = w_dirs w /\ (healthy w -> healthy w') /\
    (healthy w -> file_closed (s_File s) = false -> o = Ok q) /\
    (o = Ok q \/ exists e, o = Err e).
Proof.
  intros Hoff -> Hat. unfold read_full, on_disk. mrun. rewrite Nat2Z.id.
  destruct (file_ReadAt_spec (s_File s) q off w Hoff Hat)
    as ([b err] & w' & -> & Hfs & Hd & Hh & Hb & Hok). cbn in Hb, Hok |- *.
  destruct err as [e|]; eexists _, _; (split; [done|]); split_and!; try done.
  - intros H1 H2. specialize (Hok H1 H2). done.
  - eauto.
  - by rewrite Hb.
  - rewrite Hb by done. auto.
Qed.

(** ** Operations that only read *)

(** [store_same s w s' w']: the same file and bytes, a buffer perhaps flushed. *)
Definition store_same (s : store) (w : world) (s' : store) (w' : world) : Prop :=
  store_step s w s' w' /\ s_File s' = s_File s /\ s_size s' = s_size s /\
  store_content s' w' = store_content s w /\
  (bw_err (s_buf s') = None -> bw_err (s_buf s) = None).

Lemma store_same_refl s w : store_same s w s w.
Proof. split_and!; auto. split_and!; auto with golog. Qed.

Lemma store_same_trans s1 w1 s2 w2 s3 w3 :
  store_same s1 w1 s2 w2 -> store_same s2 w2 s3 w3 -> store_same s1 w1 s3 w3.
Proof.
  intros ((Hp1 & Hf1 & Hh1) & HF1 & Hs1 & Hc1 & He1) ((Hp2 & Hf2 & Hh2) & HF2 & Hs2 & Hc2 & He2).
  split_and!; try congruence; auto. split_and!; try congruence; auto.
  unfold store_Name in *. rewrite Hp1 in Hf2. by eapply fs_frame_trans.
Qed.

Lemma store_same_fs s w w' :
  w_fs w' = w_fs w -> w_dirs w' = w_dirs w -> (healthy w -> healthy w') -> store_same s w s w'.
Proof.
  intros Hfs Hd Hh. split_and!; auto.
  - split_and!; auto. eapply fs_frame_same; [done..|]. apply fs_frame_refl.
  - unfold store_content, bw_content, fcontent. cbn. by rewrite Hfs.
Qed.

Lemma on_buf_Flush_same s w :
  exists o s' w', on_buf (bufio_Flush (s_File s)) (s, w) = (o, (s', w')) /\
  store_same s w s' w' /\
  match o with
  | Ok _ => bw_err (s_buf s) = None /\ bw_err (s_buf s') = None /\
      fcontent w' (store_Name s) = store_content s w /\ bw_buf (s_buf s') = []
  | Err e => bw_err (s_buf s') = Some e /\
      (bw_err (s_buf s) = None -> healthy w -> file_closed (s_File s) = false -> False)
  | Panic _ => False
  end.
Proof.
  destruct (bufio_Flush (s_File s) (s_buf s, w)) as [o [b w']] eqn:H.
  eexists o, _, w'. split; [by apply on_buf_run|].
  apply bufio_Flush_spec in H as (Hc & Hf & Hh & Ho). cbn [fst snd] in *.
  destruct o as [[]|e|]; [| |done]; cbn [s_buf].
  - destruct Ho as (He0 & He1 & Hb).
    split; [by split_and!|]. split_and!; try done.
    unfold store_content. rewrite <- Hc. unfold bw_content. cbn. by rewrite Hb, app_nil_r.
  - destruct Ho as (He0 & He1). split; [|done].
    split_and!; try done. cbn. congruence.
Qed.

(** The header and the bytes of a frame on the disk. *)
Lemma read_frame_spec p pos s w :
  0 <= pos -> pos + 8 + Z.of_nat (length p) < 2 ^ 63 -> Z.of_nat (length p) <= maxAlloc ->
  at_pos (fcontent w (store_Name s)) (Z.to_nat pos) (frame p) ->
  exists o w', (size ← read_full LenWidth (i64 pos);
                n ← lift (Uint64 size);
                if maxAlloc <? n then panic "makeslice: len out of range" else
                read_full n (i64 (pos +64 LenWidth))) (s, w) = (o, (s, w')) /\
    w_fs w' = w_fs w /\ w_dirs w' = w_dirs w /\ (healthy w -> healthy w') /\
    (healthy w -> file_closed (s_File s) = false -> o = Ok p) /\ (o = Ok p \/ exists e, o = Err e).
Proof.
  intros Hpos Hb Hal [Hat1 Hat2]%at_pos_app_inv. rewrite length_PutUint64 in Hat2. unfold maxAlloc, LenWidth in *.
  rewrite u64_small, !i64_small by in_range.
  destruct (read_full_spec 8 (PutUint64 (u64 (Z.of_nat (length p)))) pos s w)
    as (o2 & w2 & Hr2 & Hfs2 & Hd2 & Hh2 & Hok2 & Hor2); [lia|reflexivity|done|].
  destruct Hor2 as [->|[e ->]].
  2:{ exists (Err e), w2. rewrite (bind_Err _ _ _ _ _ Hr2). split_and!; eauto.
      intros H1 H2. by specialize (Hok2 H1 H2). }
  rewrite (bind_Ok _ _ _ _ _ Hr2).
  erewrite bind_Ok by (unfold lift; by rewrite Uint64_PutUint64_nil by apply u64_range).
  rewrite u64_small by in_range. destruct (Z.ltb_spec (2 ^ 48) (Z.of_nat (length p))); [lia|].
  destruct (read_full_spec (Z.of_nat (length p)) p (pos + 8) s w2)
    as (o3 & w3 & Hr3 & Hfs3 & Hd3 & Hh3 & Hok3 & Hor3); [lia|done| |].
  { replace (Z.to_nat (pos + 8)) with (Z.to_nat pos + 8)%nat by lia. unfold fcontent. by rewrite Hfs2. }
  exists o3, w3. split_and!; try congruence; auto.
Qed.

(** [Read], under any failures: the contents are unchanged, and reading where
    the frame of [p] lies gives [p] or an error, never other bytes. *)
Lemma store_Read_spec p pos s w o s' w' :
  0 <= pos -> pos + 8 + Z.of_nat (length p) < 2 ^ 63 -> Z.of_nat (length p) <= maxAlloc ->
  at_pos (store_content s w) (Z.to_nat pos) (frame p) ->
  store_Read pos (s, w) = (o, (s', w')) ->
  store_step s w s' w' /\ s_File s' = s_File s /\ s_size s' = s_size s /\
  store_content s' w' = store_content s w /\
  (bw_err (s_buf s) = None -> healthy w -> file_closed (s_File s) = false ->
     o = Ok p /\ bw_err (s_buf s') = None) /\
  (bw_err (s_buf s') = None -> bw_err (s_buf s) = None) /\
  (o = Ok p \/ exists e, o = Err e).
Proof.
  intros Hpos Hb Hal Hat Hrun. unfold store_Read in Hrun. erewrite (bind_Ok get) in Hrun by reflexivity. cbn [fst] in Hrun.
  destruct (on_buf_Flush_same s w) as (o1 & s1 & w1 & Hfl & Hsame & Ho1). destruct o1 as [[]|e|]; [| |done].
  2:{ rewrite (bind_Err _ _ _ _ _ Hfl) in Hrun. simplify_eq. destruct Ho1 as [He Hno].
      destruct Hsame as (H1 & H2 & H3 & H4 & H5). split_and!; eauto. intros. exfalso. auto. }
  rewrite (bind_Ok _ _ _ _ _ Hfl) in Hrun. destruct Ho1 as (He0 & He1 & Hcf & _).
  destruct (read_frame_spec p pos s1 w1 Hpos Hb Hal) as (o2 & w2 & Hr & Hfs & Hd & Hh & Hok & Hor).
  { pose proof Hsame as (_ & HF & _). unfold store_Name. by rewrite HF, <- Hcf in *. }
  rewrite Hr in Hrun. simplify_eq.
  destruct (store_same_trans _ _ _ _ _ _ Hsame (store_same_fs _ _ _ Hfs Hd Hh)) as (H1 & H2 & H3 & H4 & H5).
  pose proof Hsame as ((_ & _ & Hh1) & _). split_and!; auto. intros _ Hw Hc. split; [|done]. apply Hok; [auto|by rewrite H2].
Qed.

Lemma file_ReadAt_fs f n off w :
  exists r w', file_ReadAt f n off w = (Ok r, w') /\ w_fs w' = w_fs w /\
    w_dirs w' = w_dirs w /\ (healthy w -> healthy w').
Proof.
  unfold file_ReadAt.
  destruct (off <? 0); [by eexists _, _|]. destruct (n =? 0)%nat; [by eexists _, _|].
  destruct (file_closed f); [by eexists _, _|].
  destruct (next_fault_cases w) as ([ft|] & w1 & -> & _ & Hfs & Hd & Hh);
    eexists _, _; split_and!; try done; naive_solver.
Qed.

Lemma read_full_same n off s w :
  exists o w', read_full n off (s, w) = (o, (s, w')) /\ store_same s w s w'.
Proof.
  unfold read_full, on_disk. mrun.
  destruct (file_ReadAt_fs (s_File s) (Z.to_nat n) off w) as ([b [e|]] & w' & -> & Hfs & Hd & Hh);
    eexists _, _; (split; [done|]); by apply store_same_fs.
Qed.

(** Reading at any position, even one that holds no frame, changes no byte. *)
Lemma store_Read_same pos s w o s' w' :
  store_Read pos (s, w) = (o, (s', w')) -> store_same s w s' w'.
Proof.
  unfold store_Read. unfold mbind at 1, M_bind at 1, get. cbn [fst snd].
  destruct (on_buf_Flush_same s w) as (o1 & s1 & w1 & H1 & Hs1 & _).
  unfold mbind at 1, M_bind at 1. rewrite H1. destruct o1; intros Hrun; simplify_eq; [|done..].
  revert Hrun. unfold mbind at 1, M_bind at 1.
  destruct (read_full_same LenWidth (i64 pos) s1 w1) as (o2 & w2 & -> & Hs2).
  assert (Hs12 := store_same_trans _ _ _ _ _ _ Hs1 Hs2).
  destruct o2 as [sz| |]; intros Hrun; simplify_eq; [|done..].
  revert Hrun. unfold lift, mbind, M_bind, panic. destruct (Uint64 sz) as [n| |]; [|naive_solver..].
  destruct (_ <? _); [naive_solver|].
  destruct (read_full_same n (i64 (pos +64 LenWidth)) s1 w2) as (o3 & w3 & -> & Hs3).
  intros. simplify_eq. by eapply store_same_trans.
Qed.

(** [ReadAt] returns what the contents hold at the offset, with [io.EOF] when
    they end before [n] bytes. *)
Lemma store_ReadAt_spec n off s w :
  exists r s' w', store_ReadAt n off (s, w) = (Ok r, (s', w')) /\ store_same s w s' w' /\
  (healthy w -> bw_err (s_buf s) = None -> file_closed (s_File s) = false -> 0 <= off ->
   let d := take n (drop (Z.to_nat off) (store_content s w)) in
   r = (d, if (length d <? n)%nat then Some io_EOF else None) /\ bw_err (s_buf s') = None).
Proof.
  unfold store_ReadAt. unfold mbind at 1, M_bind at 1, get. cbn [fst snd].
  destruct (on_buf_Flush_same s w) as (o1 & s1 & w1 & H1 & Hs1 & Ho1).
  unfold mbind at 1, M_bind at 1, try. rewrite H1. destruct o1 as [[]|e|]; [| |done].
  2:{ eexists _, _, _. split; [done|]. split; [done|]. naive_solver. }
  destruct Ho1 as (He0 & He1 & Hc & Hb). pose proof Hs1 as (Hst & HF & _).
  unfold on_disk, zoom. cbn [fst snd].
  destruct (file_ReadAt_fs (s_File s) n off w1) as (r & w2 & Hr & Hfs & Hd & Hh).
  rewrite Hr. eexists _, _, _. split; [done|]. split.
  { eapply store_same_trans; [exact Hs1|]. by apply store_same_fs. }
  intros Hw _ Hcl Hoff. split; [|done]. set (d := take _ _).
  unfold file_ReadAt in Hr. destruct (Z.ltb_spec off 0); [lia|].
  destruct (Nat.eqb_spec n 0) as [->|Hn]; [injection Hr as <- <-; by subst d; rewrite take_0|].
  rewrite Hcl, next_fault_healthy in Hr by (by apply Hst). unfold store_Name in Hc.
  rewrite Hc in Hr. by simplify_eq.
Qed.

(** [Close] writes everything to the file before the handle goes away. *)
Lemma store_Close_spec s w o s' w' :
  store_Close (s, w) = (o, (s', w')) ->
  store_step s w s' w' /\ s_size s' = s_size s /\ store_content s' w' = store_content s w /\
  (is_ok o = true -> file_closed (s_File s') = true /\ fcontent w' (store_Name s) = store_content s w) /\
  (healthy w -> bw_err (s_buf s) = None -> file_closed (s_File s) = false -> o = Ok tt).
Proof.
  unfold store_Close. unfold mbind at 1, M_bind at 1, get. cbn [fst snd].
  destruct (on_buf_Flush_same s w) as (o1 & s1 & w1 & H1 & Hs1 & Ho1).
  unfold mbind at 1, M_bind at 1. rewrite H1.
  destruct o1 as [[]|e|]; [| |done]; intros Hrun; simplify_eq.
  2:{ destruct Hs1 as (Hst & HF & Hs & Hc & He). split_and!; try done.
      intros. exfalso. by apply Ho1. }
  destruct Ho1 as (He0 & He1 & Hc1 & Hb1), Hs1 as ((Hp & Hfr & Hh) & HF & Hs & Hc & He).
  revert Hrun. unfold zoom, file_Close. cbn [fst snd].
  rewrite HF. destruct (file_closed (s_File s)) eqn:Hcl.
  { intros; simplify_eq; cbn. rewrite HF in *. split_and!; try done.
    - unfold store_content in *. by rewrite HF in Hc. }
  destruct (syscall_cases (fun w => (Ok tt, w)) w1) as [(e & o2 & -> & Hnh)|(o2 & -> & Ho2)];
    intros; simplify_eq; cbn [s_size s_File file_closed is_ok].
  all: assert (store_content (Store (File (file_path (s_File s)) true) (s_buf s1) (s_size s1))
         (set_oracle o2 w1) = store_content s w)
       by (rewrite <- Hc; unfold store_content, bw_content; cbn; by rewrite HF).
  all: split_and!; try done.
  all: try (split_and!; try done; try (by eapply fs_frame_same; [..|exact Hfr])).
  - intros Hw. exfalso. apply Hnh, Hh, Hw.
  - intros. exfalso. apply Hnh, Hh. done.
  - intros Hw. unfold healthy. cbn. auto.
Qed.

(** An error of the write buffer survives [Close]. *)
Lemma store_Close_buf s w o s' w' :
  store_Close (s, w) = (o, (s', w')) -> bw_err (s_buf s') = None -> bw_err (s_buf s) = None.
Proof.
  unfold store_Close. unfold mbind at 1, M_bind at 1, get. cbn [fst snd].
  destruct (on_buf_Flush_same s w) as (o1 & s1 & w1 & H1 & (_ & _ & _ & _ & He) & _).
  unfold mbind at 1, M_bind at 1. rewrite H1. unfold zoom. cbn [fst snd].
  destruct o1; intros Hrun; [|simplify_eq; done..]. case_match. simplify_eq. done.
Qed.

(** No byte is read through a closed file. *)
Lemma store_Read_closed pos s w :
  file_closed (s_File s) = true -> exists e, (store_Read pos (s, w)).1 = Err e.
Proof.
  intros Hcl. unfold store_Read. unfold mbind at 1, M_bind at 1, get. cbn [fst snd].
  destruct (on_buf_Flush_same s w) as (o1 & s1 & w1 & H1 & (_ & HF & _) & Ho1).
  unfold mbind at 1, M_bind at 1. rewrite H1. destruct o1 as [[]|e|]; [|by exists e|done].
  unfold mbind at 1, M_bind at 1.
  assert (exists e, read_full LenWidth (i64 pos) (s1, w1) = (Err e, (s1, w1))) as [e ->]; [|by exists e].
  unfold read_full, on_disk, zoom, mbind, M_bind, get, file_ReadAt. cbn [fst snd]. rewrite HF, Hcl.
  destruct (i64 pos <? 0); by eexists.
Qed.

Lemma newStore_spec f w :
  exists o w', newStore f w = (o, w') /\ w_fs w' = w_fs w /\ w_dirs w' = w_dirs w /\
  (healthy w -> healthy w') /\
  match o with
  | Ok s => s_File s = f /\ bw_err (s_buf s) = None /\
      store_content s w' = fcontent w (file_path f) /\ store_ok s w'
  | Err _ => healthy w -> file_closed f = false -> False
  | Panic _ => False
  end.
Proof.
  unfold newStore, file_Stat, check_open. mrun. destruct (file_closed f) eqn:Hc.
  { eexists _, w. cbn. crush. }
  match goal with |- context [syscall ?k w] => destruct (syscall_cases k w)
    as [(e & o2 & -> & Hnh)|(o2 & -> & Ho2)] end; cbn.
  - eexists _, _. split; [done|]. cbn. crush.
  - eexists _, _. split; [done|]. unfold store_ok.
    match goal with |- context [store_content ?s ?w'] =>
      assert (Hcont : store_content s w' = fcontent w (file_path f))
        by (unfold store_content, bw_content; cbn; by rewrite app_nil_r) end.
    rewrite Hcont. by split_and!.
Qed.

(** ** Properties of the store *)

(** One operation on the store by any caller, with any outcome, under any disk
    failures. *)
Inductive store_op : sst -> sst -> Prop :=
| op_Append p o s s' : store_Append p s = (o, s') -> store_op s s'
| op_Read pos o s s' : store_Read pos s = (o, s') -> store_op s s'
| op_ReadAt n off o s s' : store_ReadAt n off s = (o, s') -> store_op s s'
| op_Close o s s' : store_Close s = (o, s') -> store_op s s'.

(** Every operation keeps the file's path and appends to the contents; the size
    field stays right. *)
Lemma store_op_grows s s' :
  store_op s s' ->
  store_Name s'.1 = store_Name s.1 /\
  (exists q, store_content s'.1 s'.2 = store_content s.1 s.2 ++ q) /\
  (store_ok s.1 s.2 -> store_ok s'.1 s'.2).
Proof.
  assert (Hsame : forall s w s' w', store_same s w s' w' -> store_Name s' = store_Name s /\
    (exists q, store_content s' w' = store_content s w ++ q) /\ (store_ok s w -> store_ok s' w')).
  { clear. intros s w s' w' (_ & HF & Hs & Hc & He). unfold store_Name. split_and!; try congruence.
    - exists []. by rewrite app_nil_r.
    - unfold store_ok. intros H H'. rewrite Hs, Hc. auto. }
  destruct 1 as [p o [s w] [s' w'] H|pos o [s w] [s' w'] H|n off o [s w] [s' w'] H
    |o [s w] [s' w'] H]; cbn.
  - apply store_Append_spec in H as (Hst & HF & q & Hc & Ho). unfold store_Name.
    split_and!; try congruence; [by exists q|].
    intros Hok He. destruct o as [[n pos]|e|]; [|naive_solver..].
    destruct Ho as (-> & -> & -> & -> & He0 & _). rewrite (Hok He0), Hc. len.
    unfold u64. rewrite <- Zplus_mod. f_equal. lia.
  - by apply Hsame, (store_Read_same pos _ _ o).
  - destruct (store_ReadAt_spec n off s w) as (r & s1 & w1 & H1 & Hs & _).
    rewrite H1 in H. simplify_eq. by apply Hsame.
  - pose proof (store_Close_buf _ _ _ _ _ H) as Hbuf.
    apply store_Close_spec in H as ((Hp & _) & Hs & Hc & _). split_and!; [done| |].
    + exists []. by rewrite app_nil_r.
    + unfold store_ok. intros Hok He. rewrite Hs, Hc. auto.
Qed.

Lemma store_ops_grow s s' :
  rtc store_op s s' ->
  store_Name s'.1 = store_Name s.1 /\
  (exists q, store_content s'.1 s'.2 = store_content s.1 s.2 ++ q) /\
  (store_ok s.1 s.2 -> store_ok s'.1 s'.2).
Proof.
  induction 1 as [s|s s1 s' Hop _ (IHF & [q IHq] & IHok)].
  - split_and!; try done. exists []. by rewrite app_nil_r.
  - apply store_op_grows in Hop as (HF & [q' Hq'] & Hok). split_and!; try congruence; auto.
    exists (q' ++ q). by rewrite IHq, Hq', app_assoc.
Qed.
