(* ===== verification/Index.v ===== *)
(** [internal/log/index.go]: the memory-mapped index of a segment.

    The map is [MAP_SHARED], so the bytes of [mmap] are the bytes of the file:
    [mmap_read] and [mmap_write] go to the file's contents, and what is written
    survives the process.  An access outside the slice panics; an access to
    memory that is no longer mapped, or lies behind the end of the file, kills
    the process and is a panic here too.  (On a real system the rest of the file's
    last page is still readable.  The code never gets there: [newIndex] grows the
    file before it maps it, and [Close] unmaps it before it truncates it.) *)

From S2P Require Import Prelude Endian OS Config.

Definition offWidth : Z := 4.
Definition posWidth : Z := 8.
Definition entryWidth : Z := offWidth + posWidth.

Record index := Index {
  ix_file : file;
  ix_mmap_len : Z;
  ix_mapped : bool;
  ix_size : Z
}.

Abbreviation ist := (index * world)%type.

(** [syscall.Mmap(fd, 0, length, ...)]: a length that is not positive is refused. *)
Definition syscall_Mmap (length : Z) : M world unit :=
  if length <=? 0 then throw (Errno EINVAL) else syscall (fun w => (Ok tt, w)).

Definition newIndex (f : file) (c : Config) : M world index :=
  fi ← wrap_err "stat" (file_Stat f);
  file_Truncate f (i64 (MaxIndexBytes (Segment c)));;
  wrap_err "mmap" (syscall_Mmap (i64 (MaxIndexBytes (Segment c))));;
  mret (Index f (MaxIndexBytes (Segment c)) true (u64 fi)).

Definition ix_disk {A} (m : M world A) : M ist A := zoom snd (fun w s => (s.1, w)) m.

(** [msync(2)] over the first [size] bytes: an unmapped page is [ENOMEM]. *)
Definition msync : M ist unit :=
  s ← get;
  if ix_mapped s.1 || (ix_size s.1 =? 0) then ix_disk (syscall (fun w => (Ok tt, w)))
  else throw (Errno ENOMEM).

(** [syscall.Munmap]: a slice that is not an active mapping is [EINVAL]. *)
Definition munmap : M ist unit :=
  s ← get;
  if ix_mapped s.1 then
    ix_disk (syscall (fun w => (Ok tt, w)));;
    modify (fun s' => (Index (ix_file s'.1) (ix_mmap_len s'.1) false (ix_size s'.1), s'.2))
  else throw (Errno EINVAL).

Definition index_Close : M ist unit :=
  s ← get;
  wrap_err "msync" msync;;
  wrap_err "unmap" munmap;;
  wrap_err "sync" (ix_disk (file_Sync (ix_file s.1)));;
  wrap_err "truncate" (ix_disk (file_Truncate (ix_file s.1) (i64 (ix_size s.1))));;
  zoom (fun s => (ix_file s.1, s.2))
       (fun t s => (Index t.1 (ix_mmap_len s.1) (ix_mapped s.1) (ix_size s.1), t.2)) file_Close.

(** The bytes of [i.mmap[lo:hi]]. *)
Definition mmap_read (lo hi : Z) : M ist bytes :=
  s ← get;
  let c := fcontent s.2 (file_path (ix_file s.1)) in
  if negb ((lo <=? hi) && (hi <=? ix_mmap_len s.1)) then panic "slice bounds out of range"
  else if negb (ix_mapped s.1) then panic "unexpected fault address"
  else if Z.of_nat (length c) <? hi then panic "SIGBUS"
  else mret (take (Z.to_nat (hi - lo)) (drop (Z.to_nat lo) c)).

(** A store of the bytes [b] into [i.mmap[lo:hi]]. *)
Definition mmap_write (lo hi : Z) (b : bytes) : M ist unit :=
  s ← get;
  let p := file_path (ix_file s.1) in
  let c := fcontent s.2 p in
  if negb ((lo <=? hi) && (hi <=? ix_mmap_len s.1)) then panic "slice bounds out of range"
  else if negb (ix_mapped s.1) then panic "unexpected fault address"
  else if Z.of_nat (length c) <? hi then panic "SIGBUS"
  else modify (fun s' => (s'.1, fput p (splice c (Z.to_nat lo) b) s'.2)).

Definition index_Read (inn : Z) : M ist (Z * Z) :=
  s ← get;
  let size := ix_size s.1 in
  if size =? 0 then throw io_EOF else
  let out := if inn =? -1 then u32 (size / entryWidth -64 1) else u32 inn in
  let pos := out *64 entryWidth in
  if size <? pos +64 entryWidth then throw io_EOF else
  b ← mmap_read pos (pos +64 offWidth);
  out' ← lift (Uint32 b);
  b' ← mmap_read (pos +64 offWidth) (pos +64 entryWidth);
  pos' ← lift (Uint64 b');
  mret (out', pos').

Definition index_Write (off pos : Z) : M ist unit :=
  s ← get;
  let size := ix_size s.1 in
  if ix_mmap_len s.1 <? size +64 entryWidth then throw io_EOF else
  mmap_write size (size +64 offWidth) (PutUint32 off);;
  mmap_write (size +64 offWidth) (size +64 entryWidth) (PutUint64 pos);;
  modify (fun s' => (Index (ix_file s'.1) (ix_mmap_len s'.1) (ix_mapped s'.1)
                       (ix_size s'.1 +64 entryWidth), s'.2)).

Definition index_Name (i : index) : path := file_path (ix_file i).

(** ** The entries an index holds *)

Definition entry_bytes (e : Z * Z) : bytes := PutUint32 e.1 ++ PutUint64 e.2.
Definition entries_bytes (es : list (Z * Z)) : bytes := es ≫= entry_bytes.
Definition entry_ok (e : Z * Z) : Prop := is_u32 e.1 /\ is_u64 e.2.

(** [index_rep i w es]: the open index [i] holds the entries [es], in order,
    at the start of its file, which is as long as the map. *)
Record index_rep (i : index) (w : world) (es : list (Z * Z)) : Prop := {
  ir_open : file_closed (ix_file i) = false;
  ir_mapped : ix_mapped i = true;
  ir_len : Z.of_nat (length (fcontent w (index_Name i))) = ix_mmap_len i;
  ir_max : ix_mmap_len i <= 12 * 2 ^ 32;
  ir_size : ix_size i = 12 * Z.of_nat (length es);
  ir_data : at_pos (fcontent w (index_Name i)) 0 (entries_bytes es);
  ir_ok : Forall entry_ok es
}.

Lemma length_entry_bytes e : length (entry_bytes e) = 12%nat.
Proof. reflexivity. Qed.

Lemma length_entries_bytes es : length (entries_bytes es) = (12 * length es)%nat.
Proof. unfold entries_bytes. induction es as [|e es IH]; [done|]. cbn in *. rewrite IH. lia. Qed.
#[export] Hint Rewrite length_entry_bytes length_entries_bytes : len.

Lemma entries_bytes_app es es' :
  entries_bytes (es ++ es') = entries_bytes es ++ entries_bytes es'.
Proof. apply bind_app. Qed.

Lemma entries_bytes_split es k e :
  es !! k = Some e ->
  entries_bytes es =
  entries_bytes (take k es) ++ entry_bytes e ++ entries_bytes (drop (S k) es).
Proof.
  intros H. rewrite <- (take_drop_middle es k e H) at 1. by rewrite entries_bytes_app.
Qed.

Lemma entry_at_pos c es k e :
  es !! k = Some e -> at_pos c 0 (entries_bytes es) ->
  at_pos c (12 * k) (PutUint32 e.1) /\ at_pos c (12 * k + 4) (PutUint64 e.2).
Proof.
  intros H Hat. rewrite (entries_bytes_split _ _ _ H) in Hat.
  apply at_pos_app_inv in Hat as [_ Hat]. apply at_pos_app_inv in Hat as [Hat _].
  assert (length (entries_bytes (take k es)) = (12 * k)%nat) as Hl.
  { apply lookup_lt_Some in H. len. }
  rewrite Hl in Hat. unfold entry_bytes in Hat. apply at_pos_app_inv in Hat as [H1 H2].
  rewrite length_PutUint32 in H2. split; [exact H1|]. exact H2.
Qed.

Lemma index_rep_frame ps i w w' es :
  fs_frame ps w w' -> index_Name i ∉ ps -> index_rep i w es -> index_rep i w' es.
Proof.
  intros Hf Hn [H1 H2 H3 H4 H5 H6 H7].
  split; auto; by rewrite (fs_frame_content _ _ _ _ Hf Hn).
Qed.

Lemma index_rep_bound i w es : index_rep i w es -> 12 * Z.of_nat (length es) <= ix_mmap_len i.
Proof.
  intros [H1 H2 H3 H4 H5 [_ H6] H7]. len.
Qed.

(** ** Reads and writes on a well-formed index *)

Lemma mmap_read_run i w lo b :
  file_closed (ix_file i) = false -> ix_mapped i = true ->
  Z.of_nat (length (fcontent w (index_Name i))) = ix_mmap_len i ->
  0 <= lo -> at_pos (fcontent w (index_Name i)) (Z.to_nat lo) b ->
  mmap_read lo (lo + Z.of_nat (length b)) (i, w) = (Ok b, (i, w)).
Proof.
  intros Ho Hm Hl Hlo [Hb Hbl]. unfold mmap_read. mrun. fold (index_Name i). rewrite Hm.
  destruct (Z.leb_spec lo (lo + Z.of_nat (length b))); [|lia].
  destruct (Z.leb_spec (lo + Z.of_nat (length b)) (ix_mmap_len i)); [|lia].
  cbn [negb andb].
  destruct (Z.ltb_spec (Z.of_nat (length (fcontent w (index_Name i)))) (lo + Z.of_nat (length b)));
    [lia|]. cbn.
  replace (Z.to_nat (lo + Z.of_nat (length b) - lo)) with (length b) by lia. by rewrite Hb.
Qed.

(** The slot [Read] inspects: the last one for [-1]. *)
Definition read_slot (inn : Z) (n : nat) : nat :=
  if inn =? -1 then (n - 1)%nat else Z.to_nat (u32 inn).

(** [Read] is total on a well-formed index: the entry, or [io.EOF]. *)
Lemma index_Read_spec inn i w es :
  index_rep i w es ->
  index_Read inn (i, w) =
  (match es !! read_slot inn (length es) with Some e => Ok e | None => Err io_EOF end, (i, w)).
Proof.
  intros Hrep. pose proof (index_rep_bound _ _ _ Hrep) as Hb.
  destruct Hrep as [Ho Hm Hl Hmax Hs Hd Hok].
  unfold index_Read. unfold mbind at 1, M_bind at 1, get. cbn [fst snd].
  destruct (Z.eqb_spec (ix_size i) 0) as [H0|H0].
  { assert (es = []) as -> by (destruct es; [done|cbn in *; lia]). done. }
  set (out := if inn =? -1 then _ else _).
  assert (out = Z.of_nat (read_slot inn (length es)) /\ is_u32 out) as [Hout Hr].
  { unfold out, read_slot, entryWidth, offWidth, posWidth. destruct (inn =? -1).
    - rewrite Hs. replace (12 * Z.of_nat (length es) / (4 + 8)) with (Z.of_nat (length es))
        by (rewrite Z.mul_comm; symmetry; apply Z.div_mul; lia).
      u64_norm. unfold is_u32. lia.
    - pose proof (u32_range inn). unfold is_u32 in *. lia. }
  rewrite Hout. set (k := read_slot inn (length es)) in *. rewrite Hout in Hr.
  unfold entryWidth, offWidth, posWidth. unfold is_u32 in Hr. u64_norm. rewrite Hs.
  destruct (Z.ltb_spec (12 * Z.of_nat (length es)) (Z.of_nat k * (4 + 8) + (4 + 8))) as [Hlt|Hge].
  { rewrite lookup_ge_None_2 by lia. done. }
  destruct (lookup_lt_is_Some_2 es k) as [e He]; [lia|]. rewrite He.
  destruct (entry_at_pos _ _ _ _ He Hd) as [H1 H2].
  assert (entry_ok e) as [Hok1 Hok2] by (by eapply Forall_lookup_1).
  assert (Z.of_nat k * (4 + 8) + (4 + 8) <= ix_mmap_len i) by lia.
  erewrite bind_Ok; cycle 1.
  { apply (mmap_read_run i w _ (PutUint32 e.1)); auto; [lia|].
    replace (Z.to_nat _) with (12 * k)%nat by lia. done. }
  erewrite bind_Ok by (unfold lift; by rewrite Uint32_PutUint32_nil).
  erewrite bind_Ok; cycle 1.
  { replace (Z.of_nat k * (4 + 8) + (4 + 8)) with
      (Z.of_nat k * (4 + 8) + 4 + Z.of_nat (length (PutUint64 e.2))) by (len).
    apply (mmap_read_run i w _ (PutUint64 e.2)); auto; [lia|].
    replace (Z.to_nat _) with (12 * k + 4)%nat by lia. done. }
  erewrite bind_Ok by (unfold lift; by rewrite Uint64_PutUint64_nil).
  by destruct e.
Qed.

Lemma mmap_write_run i w lo b :
  ix_mapped i = true -> Z.of_nat (length (fcontent w (index_Name i))) = ix_mmap_len i ->
  0 <= lo -> lo + Z.of_nat (length b) <= ix_mmap_len i ->
  mmap_write lo (lo + Z.of_nat (length b)) b (i, w) =
  (Ok tt, (i, fput (index_Name i) (splice (fcontent w (index_Name i)) (Z.to_nat lo) b) w)).
Proof.
  intros Hm Hl Hlo Hhi. unfold mmap_write. mrun. fold (index_Name i). rewrite Hm.
  destruct (Z.leb_spec lo (lo + Z.of_nat (length b))); [|lia].
  destruct (Z.leb_spec (lo + Z.of_nat (length b)) (ix_mmap_len i)); [|lia].
  cbn [negb andb].
  destruct (Z.ltb_spec (Z.of_nat (length (fcontent w (index_Name i)))) (lo + Z.of_nat (length b)));
    [lia|done].
Qed.

Lemma splice_splice_adj (c a b : bytes) n :
  (n + length a + length b <= length c)%nat ->
  splice (splice c n a) (n + length a) b = splice c n (a ++ b).
Proof.
  intros H. unfold splice.
  assert (Htk : length (take n c) = n) by len.
  assert (Hl : length (take n c ++ a) = (n + length a)%nat) by len.
  rewrite (app_assoc (take n c) a), take_app_le, take_ge by len.
  rewrite <- (drop_drop _ (length b) (n + length a)) at 1.
  rewrite drop_app_length' by done. rewrite drop_drop, <- !app_assoc.
  do 3 f_equal. f_equal. len.
Qed.

(** [Write] stores the entry behind the others, or reports [io.EOF] and leaves
    everything alone when the map has no room for it. *)
Lemma index_Write_spec off pos i w es :
  index_rep i w es -> is_u32 off -> is_u64 pos ->
  if ix_mmap_len i <? ix_size i + 12 then index_Write off pos (i, w) = (Err io_EOF, (i, w))
  else exists i' w', index_Write off pos (i, w) = (Ok tt, (i', w')) /\
    index_rep i' w' (es ++ [(off, pos)]) /\ ix_file i' = ix_file i /\
    ix_mmap_len i' = ix_mmap_len i /\ fs_frame [index_Name i] w w' /\ w_oracle w' = w_oracle w.
Proof.
  intros Hrep Hoff Hpos. pose proof (index_rep_bound _ _ _ Hrep) as Hb.
  destruct Hrep as [Ho Hm Hl Hmax Hs Hd Hok].
  unfold index_Write. unfold mbind at 1, M_bind at 1, get. cbn [fst snd].
  unfold mbind at 3, M_bind at 3, get. cbn [fst snd].
  unfold entryWidth, offWidth, posWidth. u64_norm.
  destruct (Z.ltb_spec (ix_mmap_len i) (ix_size i + 12)) as [Hlt|Hge].
  { destruct (Z.ltb_spec (ix_mmap_len i) (ix_size i + (4 + 8))); [done|lia]. }
  destruct (Z.ltb_spec (ix_mmap_len i) (ix_size i + (4 + 8))); [lia|].
  set (c := fcontent w (index_Name i)) in *.
  set (n := (12 * length es)%nat).
  assert (Hn : Z.to_nat (ix_size i) = n) by lia.
  erewrite bind_Ok; cycle 1.
  { apply (mmap_write_run i w (ix_size i) (PutUint32 off)); auto; try lia. cbn. lia. }
  set (w1 := fput _ _ w).
  assert (Hc1 : fcontent w1 (index_Name i) = splice c n (PutUint32 off)).
  { unfold w1. rewrite fcontent_fput. by rewrite Hn. }
  erewrite bind_Ok; cycle 1.
  { replace (ix_size i + (4 + 8)) with (ix_size i + 4 + Z.of_nat (length (PutUint64 pos))) by len.
    apply (mmap_write_run i w1 (ix_size i + 4) (PutUint64 pos)); auto; try lia.
    - rewrite Hc1, length_splice; [done|]. len.
    - len. }
  rewrite Hc1. replace (Z.to_nat (ix_size i + 4)) with (n + length (PutUint32 off))%nat by len.
  rewrite splice_splice_adj by len.
  set (w2 := fput _ _ w1). cbn [modify fst snd]. unfold modify. cbn [fst snd].
  eexists _, _. split; [done|].
  assert (Hc2 : fcontent w2 (index_Name i) = splice c n (entry_bytes (off, pos)))
    by (unfold w2; by rewrite fcontent_fput).
  assert (Hfit : (n + length (entry_bytes (off, pos)) <= length c)%nat) by len.
  split_and!; try done.
  - split; cbn; auto.
    + unfold index_Name in *. cbn. rewrite Hc2. by rewrite length_splice.
    + rewrite Hs. len. u64_norm. lia.
    + unfold index_Name in *. cbn. rewrite Hc2, entries_bytes_app. unfold entries_bytes at 2.
      cbn [mbind list_bind]. rewrite app_nil_r.
      assert (Hlen : length (entries_bytes es) = n) by len.
      destruct Hd as [Hd Hdl]. rewrite drop_0, Hlen in Hd. unfold splice. rewrite Hd.
      rewrite app_assoc. split; [|len]. rewrite drop_0. by rewrite take_app_length.
    + apply Forall_app. split; [done|]. by constructor.
  - eapply fs_frame_trans; apply fs_frame_fput.
Qed.

(** ** Opening and closing *)

(** The bytes a resized file keeps. *)
Lemma at_pos_resize (c : bytes) n b :
  (length b <= n)%nat -> at_pos c 0 b -> at_pos (resize n Byte.x00 c) 0 b.
Proof.
  intros Hn [H Hl]. rewrite drop_0 in H. split; [|rewrite length_resize; lia].
  rewrite drop_0. destruct (decide (n <= length c)%nat) as [Hle|Hgt].
  - rewrite resize_le by done. rewrite take_take. by rewrite Nat.min_l.
  - rewrite resize_ge by lia. rewrite take_app_le by lia. done.
Qed.

(** [newIndex] on a file that holds exactly the entries [es]. *)
Lemma newIndex_spec f c w es :
  let m := MaxIndexBytes (Segment c) in
  0 < m <= 12 * 2 ^ 32 -> fcontent w (file_path f) = entries_bytes es ->
  Forall entry_ok es -> 12 * Z.of_nat (length es) <= m ->
  exists o w', newIndex f c w = (o, w') /\ fs_frame [file_path f] w w' /\
    (healthy w -> healthy w') /\
    match o with
    | Ok i => ix_file i = f /\ ix_mmap_len i = m /\ index_rep i w' es
    | Err _ => healthy w -> file_closed f = false -> False
    | Panic _ => False
    end.
Proof.
  intros m Hm Hc Hok Hfit. unfold newIndex, file_Stat, file_Truncate, check_open, syscall_Mmap.
  fold m. rewrite i64_small by lia.
  destruct (file_closed f) eqn:Hcl. { eexists _, w. mrun. crush. }
  destruct (Z.leb_spec m 0); [lia|].
  unfold mbind at 1, M_bind at 1, wrap_err at 1.
  match goal with |- context [syscall ?k w] => destruct (syscall_cases k w)
    as [(e & o1 & -> & Hnh)|(o1 & -> & Ho1)] end; [eexists _, _; crush|].
  unfold mbind at 1, M_bind at 1.
  match goal with |- context [syscall ?k ?w1] => destruct (syscall_cases k w1)
    as [(e & o2 & -> & Hnh)|(o2 & -> & Ho2)] end.
  { eexists _, _. split; [done|]. split_and!; try done.
    - intros Hw. exfalso. apply Hnh. unfold healthy. cbn. auto.
    - intros Hw. exfalso. apply Hnh. unfold healthy. cbn. auto. }
  destruct (Z.ltb_spec m 0); [lia|].
  set (w2 := fput _ _ _). unfold mbind at 1, M_bind at 1, wrap_err at 1.
  assert (Hfr : fs_frame [file_path f] w w2).
  { unfold w2. eapply fs_frame_trans; [|apply fs_frame_fput]. by split. }
  match goal with |- context [syscall ?k ?w1] => destruct (syscall_cases k w1)
    as [(e & o3 & -> & Hnh)|(o3 & -> & Ho3)] end.
  { eexists _, _. split; [done|]. split_and!; try done;
      (by eapply fs_frame_same; [..|exact Hfr]) || (intros Hw; exfalso; apply Hnh;
    unfold healthy; cbn; apply Ho2; unfold healthy; cbn; auto). }
  eexists _, _. split; [done|]. split; [by eapply fs_frame_same; [..|exact Hfr]|]. split.
  { intros Hw. unfold healthy. cbn. apply Ho3. unfold healthy, w2. cbn. apply Ho2.
    unfold healthy. cbn. auto. }
  split_and!; try done.
  assert (Hc2 : forall o, fcontent (set_oracle o w2) (file_path f)
            = resize (Z.to_nat m) Byte.x00 (entries_bytes es)).
  { intros o. unfold w2. rewrite <- Hc. unfold fcontent, fput. cbn. by rewrite lookup_insert_eq. }
  split; cbn; auto; unfold index_Name; cbn; rewrite ?Hc2; try lia.
  - rewrite length_resize. lia.
  - change (fcontent (set_oracle o1 w) (file_path f)) with (fcontent w (file_path f)).
    rewrite Hc. len. u64_norm. lia.
  - apply at_pos_resize; [len|]. split; [|len]. by rewrite drop_0, firstn_all.
Qed.

(** [Close] on a working disk leaves exactly the entries in the file. *)
Lemma index_Close_spec i w es :
  index_rep i w es -> healthy w ->
  exists i' w', index_Close (i, w) = (Ok tt, (i', w')) /\ healthy w' /\
    fs_frame [index_Name i] w w' /\ fcontent w' (index_Name i) = entries_bytes es /\
    ix_file i' = File (file_path (ix_file i)) true /\ ix_mapped i' = false /\
    ix_size i' = ix_size i /\ ix_mmap_len i' = ix_mmap_len i.
Proof.
  intros Hrep Hw. pose proof (index_rep_bound _ _ _ Hrep) as Hb.
  destruct Hrep as [Ho Hm Hl Hmax Hs Hd Hok].
  assert (Hi : i64 (ix_size i) = ix_size i) by (apply i64_small; lia).
  set (i0 := Index (ix_file i) (ix_mmap_len i) false (ix_size i)).
  set (w2 := fput (index_Name i)
               (resize (Z.to_nat (ix_size i)) Byte.x00 (fcontent w (index_Name i))) (fsync (index_Name i) w)).
  assert (H1 : msync (i, w) = (Ok tt, (i, w))).
  { unfold msync, ix_disk. mrun. rewrite Hm. cbn [orb]. by rewrite syscall_healthy. }
  assert (H2 : munmap (i, w) = (Ok tt, (i0, w))).
  { unfold munmap, ix_disk. mrun. rewrite Hm. by rewrite syscall_healthy. }
  assert (H3 : ix_disk (file_Sync (ix_file i)) (i0, w) = (Ok tt, (i0, fsync (index_Name i) w))).
  { unfold ix_disk, zoom, file_Sync. cbn [fst snd]. by rewrite check_open_healthy. }
  assert (H4 : ix_disk (file_Truncate (ix_file i) (i64 (ix_size i))) (i0, fsync (index_Name i) w) = (Ok tt, (i0, w2))).
  { unfold ix_disk, zoom, file_Truncate. cbn [fst snd]. rewrite check_open_healthy by done.
    rewrite Hi. destruct (Z.ltb_spec (ix_size i) 0); [lia|done]. }
  unfold index_Close. erewrite bind_Ok by reflexivity.
  erewrite bind_Ok by (by apply wrap_err_Ok, H1).
  erewrite bind_Ok by (by apply wrap_err_Ok, H2).
  erewrite bind_Ok by (by apply wrap_err_Ok, H3).
  erewrite bind_Ok by (by apply wrap_err_Ok, H4).
  unfold zoom, file_Close. cbn [fst snd ix_file i0]. rewrite Ho.
  rewrite syscall_healthy by done. cbn [fst snd].
  eexists _, _. split; [done|]. split_and!; try done.
  - eapply fs_frame_trans; [|apply fs_frame_fput]. by split.
  - unfold w2. rewrite fcontent_fput.
    destruct Hd as [Hd Hdl]. rewrite drop_0 in Hd. rewrite resize_le by (len).
    replace (Z.to_nat (ix_size i)) with (length (entries_bytes es)) by len. done.
Qed.
