(* ===== verification/Names.v ===== *)
(** The file names of a segment: [fmt.Sprintf("%d.store", baseOffset)] and its
    inverse in [Log.setup] ([path.Ext], [strings.TrimSuffix],
    [strconv.ParseUint]), from the definitions of the standard library. *)

From Stdlib Require Import DecimalString DecimalN DecimalFacts Ascii.
From S2P Require Import Prelude.

(** [%d] of an unsigned integer. *)
Definition FormatUint (n : Z) : string := NilEmpty.string_of_uint (N.to_uint (Z.to_N n)).

Fixpoint has_slash (s : string) : bool :=
  match s with
  | EmptyString => false
  | String c r => Ascii.eqb c "/" || has_slash r
  end.

(** [path.Ext]: the suffix that starts at the last dot of the last element. *)
Fixpoint path_Ext (s : string) : string :=
  match s with
  | EmptyString => EmptyString
  | String c r =>
      match path_Ext r with
      | EmptyString => if Ascii.eqb c "." && negb (has_slash r) then s else EmptyString
      | e => e
      end
  end.

(** [strings.TrimSuffix] *)
Fixpoint TrimSuffix (s suffix : string) : string :=
  if String.eqb s suffix then EmptyString
  else match s with
       | EmptyString => EmptyString
       | String c r => String c (TrimSuffix r suffix)
       end.

Definition maxUint64 : Z := 2 ^ 64 - 1.

(** [strconv.ParseUint(s, 10, 64)]: its value, and whether it reports an error
    (then the value is 0 for a syntax error and the maximum for an overflow). *)
Fixpoint ParseUint_loop (s : string) (n : Z) : Z * bool :=
  match s with
  | EmptyString => (n, false)
  | String c r =>
      let d := Z.of_nat (nat_of_ascii c) - 48 in
      if (d <? 0) || (9 <? d) then (0, true)
      else if maxUint64 / 10 + 1 <=? n then (maxUint64, true)
      else let n := n * 10 in
           if maxUint64 <? n + d then (maxUint64, true) else ParseUint_loop r (n + d)
  end.

Definition ParseUint (s : string) : Z * bool :=
  match s with
  | EmptyString => (0, true)
  | _ => ParseUint_loop s 0
  end.

Definition store_name (base : Z) : string := FormatUint base +:+ ".store".
Definition index_name (base : Z) : string := FormatUint base +:+ ".index".

(** The offset [setup] computes from a file name, the error ignored. *)
Definition name_offset (name : string) : Z := (ParseUint (TrimSuffix name (path_Ext name))).1.

(** ** The names are read back *)

Lemma string_app_cons c a e : String c a +:+ e = String c (a +:+ e).
Proof. reflexivity. Qed.

Lemma path_Ext_app a e : path_Ext e = e -> e <> "" -> path_Ext (a +:+ e) = e.
Proof.
  intros He Hne. induction a as [|c a IH]; [done|].
  rewrite string_app_cons. cbn [path_Ext]. rewrite IH. by destruct e.
Qed.

Lemma string_app_nonempty_neq a e : a <> "" -> a +:+ e <> e.
Proof.
  intros Ha H. apply (f_equal String.length) in H.
  assert (String.length (a +:+ e) = String.length a + String.length e)%nat as Hl.
  { clear. induction a as [|c a IH]; [done|]. rewrite string_app_cons. cbn. by rewrite IH. }
  destruct a; [done|]. cbn in Hl, H. lia.
Qed.

Lemma TrimSuffix_app a e : TrimSuffix (a +:+ e) e = a.
Proof.
  induction a as [|c a IH].
  - change ("" +:+ e) with e. destruct e; cbn; [done|].
    by rewrite Ascii.eqb_refl, String.eqb_refl.
  - assert (H := string_app_nonempty_neq (String c a) e ltac:(done)).
    rewrite string_app_cons in *. cbn [TrimSuffix].
    destruct (String.eqb_spec (String c (a +:+ e)) e); [done|]. by rewrite IH.
Qed.

Lemma of_uint_acc_ge d acc : (acc <= Pos.of_uint_acc d acc)%positive.
Proof.
  revert acc. induction d as [|d IHd|d IHd|d IHd|d IHd|d IHd|d IHd|d IHd|d IHd|d IHd|d IHd];
    intros acc; cbn [Pos.of_uint_acc]; [lia|..].
  all: match goal with IH : forall acc, _ |- (_ <= Pos.of_uint_acc _ ?x)%positive =>
         specialize (IH x); lia end.
Qed.

(** Go's digit loop computes the accumulated value of the digits, as long as it
    fits. *)
Lemma ParseUint_loop_acc d acc :
  Z.pos (Pos.of_uint_acc d acc) <= maxUint64 ->
  ParseUint_loop (NilEmpty.string_of_uint d) (Z.pos acc) = (Z.pos (Pos.of_uint_acc d acc), false).
Proof.
  revert acc. induction d as [|d IHd|d IHd|d IHd|d IHd|d IHd|d IHd|d IHd|d IHd|d IHd|d IHd];
    intros acc H; cbn [Pos.of_uint_acc] in H; [done|..].
  all: cbn [NilEmpty.string_of_uint ParseUint_loop Pos.of_uint_acc].
  all: match goal with |- context [nat_of_ascii ?c] =>
         let v := eval vm_compute in (Z.of_nat (nat_of_ascii c)) in
         change (Z.of_nat (nat_of_ascii c)) with v end.
  all: match goal with IH : forall acc, _ -> _, H : Z.pos (Pos.of_uint_acc ?d ?x) <= _ |- _ =>
         pose proof (of_uint_acc_ge d x); rewrite <- (IH x H) end.
  all: cbn [orb Z.ltb Z.compare Z.sub Z.add Z.opp Pos.compare Pos.compare_cont Z.pos_sub].
  all: change (maxUint64 / 10 + 1) with 1844674407370955162 in *;
       change maxUint64 with 18446744073709551615 in *.
  all: match goal with |- context [(?a <? 0) || (9 <? ?a)] =>
         replace ((a <? 0) || (9 <? a)) with false by reflexivity end.
  all: destruct (Z.leb_spec 1844674407370955162 (Z.pos acc)); [lia|].
  all: match goal with |- context [18446744073709551615 <? ?a] =>
         destruct (Z.ltb_spec 18446744073709551615 a); [lia|] end.
  all: f_equal; lia.
Qed.

Lemma ParseUint_loop_0 d :
  Z.of_N (Pos.of_uint d) <= maxUint64 ->
  ParseUint_loop (NilEmpty.string_of_uint d) 0 = (Z.of_N (Pos.of_uint d), false).
Proof.
  induction d as [|d IHd|d IHd|d IHd|d IHd|d IHd|d IHd|d IHd|d IHd|d IHd|d IHd];
    intros H; cbn [Pos.of_uint] in H; [done| |..].
  1: cbn [NilEmpty.string_of_uint ParseUint_loop Pos.of_uint]; rewrite <- IHd by done; reflexivity.
  all: cbn [NilEmpty.string_of_uint ParseUint_loop Pos.of_uint Z.of_N] in *.
  all: rewrite <- ParseUint_loop_acc by done; reflexivity.
Qed.

Lemma ParseUint_FormatUint n : is_u64 n -> ParseUint (FormatUint n) = (n, false).
Proof.
  intros [H0 H1]. unfold FormatUint.
  assert (Hn : Z.of_N (N.of_uint (N.to_uint (Z.to_N n))) = n)
    by (rewrite DecimalN.Unsigned.of_to; lia).
  assert (Hne : N.to_uint (Z.to_N n) <> Decimal.Nil).
  { destruct (Z.to_N n); cbn; [done|]. apply DecimalPos.Unsigned.to_uint_nonnil. }
  rewrite <- Hn at 2. unfold N.of_uint in *.
  rewrite <- ParseUint_loop_0 by (rewrite Hn; unfold maxUint64; lia).
  destruct (N.to_uint (Z.to_N n)); [done|..]; reflexivity.
Qed.

(** The segment's file names are parsed back to its base offset. *)
Lemma name_offset_store n : is_u64 n -> name_offset (store_name n) = n.
Proof.
  intros H. unfold name_offset, store_name.
  rewrite path_Ext_app by done. rewrite TrimSuffix_app. by rewrite ParseUint_FormatUint.
Qed.

Lemma name_offset_index n : is_u64 n -> name_offset (index_name n) = n.
Proof.
  intros H. unfold name_offset, index_name.
  rewrite path_Ext_app by done. rewrite TrimSuffix_app. by rewrite ParseUint_FormatUint.
Qed.

Lemma store_name_inj m n : is_u64 m -> is_u64 n -> store_name m = store_name n -> m = n.
Proof. intros Hm Hn H. rewrite <- (name_offset_store m), <- (name_offset_store n) by done. by rewrite H. Qed.

Lemma index_name_inj m n : is_u64 m -> is_u64 n -> index_name m = index_name n -> m = n.
Proof. intros Hm Hn H. rewrite <- (name_offset_index m), <- (name_offset_index n) by done. by rewrite H. Qed.

Lemma path_Ext_store n : path_Ext (store_name n) = ".store"%string.
Proof. unfold store_name. by rewrite path_Ext_app. Qed.

Lemma path_Ext_index n : path_Ext (index_name n) = ".index"%string.
Proof. unfold index_name. by rewrite path_Ext_app. Qed.

Lemma store_index_name_ne m n : store_name m <> index_name n.
Proof. intros H%(f_equal path_Ext). by rewrite path_Ext_store, path_Ext_index in H. Qed.
