(* ===== verification/Segment.v ===== *)
(** [internal/log/segment.go]: a store and its index under a base offset. *)

From S2P Require Import Prelude Endian OS Proto Config Store Index Names.

Record segment := Seg {
  sg_store : store;
  sg_index : index;
  baseOffset : Z;
  nextOffset : Z;
  sg_config : Config
}.

Abbreviation gst := (segment * world)%type.

Definition set_store (st : store) (s : segment) : segment :=
  Seg st (sg_index s) (baseOffset s) (nextOffset s) (sg_config s).
Definition set_index (ix : index) (s : segment) : segment :=
  Seg (sg_store s) ix (baseOffset s) (nextOffset s) (sg_config s).
Definition set_nextOffset (n : Z) (s : segment) : segment :=
  Seg (sg_store s) (sg_index s) (baseOffset s) n (sg_config s).

Lemma set_index_eta s : set_index (sg_index s) s = s.
Proof. by destruct s. Qed.

Definition on_store {A} (m : M sst A) : M gst A :=
  zoom (fun s => (sg_store s.1, s.2)) (fun t s => (set_store t.1 s.1, t.2)) m.
Definition on_index {A} (m : M ist A) : M gst A :=
  zoom (fun s => (sg_index s.1, s.2)) (fun t s => (set_index t.1 s.1, t.2)) m.
Definition sg_disk {A} (m : M world A) : M gst A :=
  zoom snd (fun w s => (s.1, w)) m.

(** Run an index operation on a local index, as [newSegment] does. *)
Definition with_index {A} (ix : index) (m : M ist A) : M world A := fun w =>
  let (o, s) := m (ix, w) in (o, s.2).

Definition newSegment (dir : string) (base : Z) (c : Config) : M world segment :=
  storeFile ← wrap_err "open store" (os_OpenFile (dir, store_name base));
  st ← wrap_err "new store" (newStore storeFile);
  indexFile ← wrap_err "open index" (os_OpenFile (dir, index_name base));
  ix ← wrap_err "new index" (newIndex indexFile c);
  r ← try (with_index ix (index_Read (-1)));
  let next := match r with
              | inr _ => base
              | inl (off, _) => base +64 off +64 1
              end in
  mret (Seg st ix base next c).

(** [IsMaxed] *)
Definition IsMaxed (s : segment) : bool :=
  (MaxStoreBytes (Segment (sg_config s)) <=? s_size (sg_store s)) ||
  (MaxIndexBytes (Segment (sg_config s)) <=? ix_size (sg_index s)).

Definition segment_Close : M gst unit :=
  on_index index_Close;;
  on_store store_Close.

Definition segment_Remove : M gst unit :=
  segment_Close;;
  s ← get;
  sg_disk (os_Remove (index_Name (sg_index s.1)));;
  sg_disk (os_Remove (store_Name (sg_store s.1))).

Definition nearestMultiple (j k : Z) : outcome Z :=
  if k =? 0 then Panic "integer divide by zero"
  else Ok ((j -64 k +64 1) / k *64 k).

Section segment.
Context `{ProtoMessage record}.

(** [Append]: the record argument is a pointer; the assignment to its [Offset]
    dereferences it.  (The caller's message is updated too; no caller reads it
    afterwards.) *)
Definition segment_Append (rc : option record) : M gst Z :=
  s ← get;
  let cur := nextOffset s.1 in
  match rc with
  | None => panic "nil pointer dereference"
  | Some r =>
      p ← lift (Marshal (set_Offset cur r));
      r ← on_store (store_Append p);
      let '(_, pos) := r in
      on_index (index_Write (u32 (nextOffset s.1 -64 baseOffset s.1)) pos);;
      modify (fun s' => (set_nextOffset (nextOffset s'.1 +64 1) s'.1, s'.2));;
      mret cur
  end.

Definition segment_Read (off : Z) : M gst record :=
  s ← get;
  r ← on_index (index_Read (i64 (off -64 baseOffset s.1)));
  let '(_, pos) := r in
  p ← on_store (store_Read pos);
  lift (Unmarshal p).

(** ** The representation of a list of records *)

(** The store contents [c] hold the encoding of [r] at position [pos]. *)
Definition rec_at (c : bytes) (pos : Z) (r : record) : Prop :=
  0 <= pos /\ exists p, Unmarshal p = Ok r /\ pos + 8 + Z.of_nat (length p) < 2 ^ 48 /\
    at_pos c (Z.to_nat pos) (frame p).

(** The index entries for the positions [poss]. *)
Definition seg_entries (poss : list Z) : list (Z * Z) :=
  imap (fun i pos => (Z.of_nat i, pos)) poss.

(** The records have the offsets of their places. *)
Definition offsets_ok (base : Z) (recs : list record) : Prop :=
  forall i r, recs !! i = Some r -> Offset r = base + Z.of_nat i.

(** The open segment [s] holds [recs].  Only the positions in the index matter:
    bytes of the store no entry points at may lie between the frames. *)
Record seg_inv (s : segment) (w : world) (recs : list record) : Prop := {
  si_names : store_Name (sg_store s) <> index_Name (sg_index s);
  si_open : file_closed (s_File (sg_store s)) = false;
  si_store : store_ok (sg_store s) w;
  si_next : nextOffset s = baseOffset s + Z.of_nat (length recs);
  si_base : 0 <= baseOffset s;
  si_bound : baseOffset s + Z.of_nat (length recs) < 2 ^ 64;
  si_offsets : offsets_ok (baseOffset s) recs;
  si_mmap : ix_mmap_len (sg_index s) = MaxIndexBytes (Segment (sg_config s));
  si_poss : exists poss, index_rep (sg_index s) w (seg_entries poss) /\
              Forall2 (rec_at (store_content (sg_store s) w)) poss recs
}.

(** No write on the segment's store has failed and the disk works. *)
Definition seg_good (s : segment) (w : world) : Prop :=
  healthy w /\ bw_err (s_buf (sg_store s)) = None.

Definition seg_paths (s : segment) : list path :=
  [store_Name (sg_store s); index_Name (sg_index s)].

(** ** Lemmas on positions and entries *)

Lemma rec_at_grow c q pos r : rec_at c pos r -> rec_at (c ++ q) pos r.
Proof. intros (Hp & p & Hu & Hb & Ha). split; [done|]. exists p. eauto with golog. Qed.

Lemma recs_at_grow c q poss recs :
  Forall2 (rec_at c) poss recs -> Forall2 (rec_at (c ++ q)) poss recs.
Proof. apply Forall2_impl. eauto using rec_at_grow. Qed.

Lemma length_seg_entries poss : length (seg_entries poss) = length poss.
Proof. apply length_imap. Qed.

Lemma seg_entries_lookup poss k :
  seg_entries poss !! k = (fun pos => (Z.of_nat k, pos)) <$> poss !! k.
Proof. unfold seg_entries. by rewrite list_lookup_imap. Qed.

Lemma seg_entries_snoc poss pos :
  seg_entries (poss ++ [pos]) = seg_entries poss ++ [(Z.of_nat (length poss), pos)].
Proof. unfold seg_entries. rewrite imap_app. cbn. by rewrite Nat.add_0_r. Qed.

Lemma rec_at_u64 c poss recs : Forall2 (rec_at c) poss recs -> Forall is_u64 poss.
Proof.
  induction 1 as [|pos r poss recs (Hp & p & _ & Hb & _) _ IH]; constructor; [|done].
  unfold is_u64. lia.
Qed.

Lemma seg_entries_ok poss :
  Forall is_u64 poss -> Z.of_nat (length poss) <= 2 ^ 32 -> Forall entry_ok (seg_entries poss).
Proof.
  intros Hp Hl. apply Forall_lookup. intros i e He. rewrite seg_entries_lookup in He.
  destruct (poss !! i) as [pos|] eqn:E; [|done]. cbn in He. simplify_eq. split; cbn.
  - apply lookup_lt_Some in E. unfold is_u32. lia.
  - by eapply Forall_lookup_1 in Hp.
Qed.

Lemma offsets_ok_snoc base recs r :
  offsets_ok base recs -> Offset r = base + Z.of_nat (length recs) -> offsets_ok base (recs ++ [r]).
Proof.
  intros Ho Hr i r' Hi. apply lookup_app_Some in Hi as [Hi|[Hge Hi]]; [by apply Ho|].
  apply list_lookup_singleton_Some in Hi as [Hi <-]. rewrite Hr. lia.
Qed.

(** The invariant depends on the contents of the segment's own files only. *)
Lemma seg_inv_agree s w w' recs :
  (forall p, p ∈ seg_paths s -> fcontent w' p = fcontent w p) -> seg_inv s w recs -> seg_inv s w' recs.
Proof.
  intros Hag [H1 H2 H3 H4 H5 H6 H7 H8 (poss & [I1 I2 I3 I4 I5 I6 I7] & Hat)].
  assert (Hs : fcontent w' (store_Name (sg_store s)) = fcontent w (store_Name (sg_store s)))
    by (apply Hag; set_solver).
  assert (Hx : fcontent w' (index_Name (sg_index s)) = fcontent w (index_Name (sg_index s)))
    by (apply Hag; set_solver).
  assert (Hc : store_content (sg_store s) w' = store_content (sg_store s) w).
  { unfold store_content, bw_content. cbn. unfold store_Name in Hs. by rewrite Hs. }
  split; auto.
  - unfold store_ok. by rewrite Hc.
  - exists poss. rewrite Hc. split; [|done]. by split; rewrite ?Hx.
Qed.

Lemma seg_inv_frame ps s w w' recs :
  fs_frame ps w w' -> (forall p, p ∈ seg_paths s -> p ∉ ps) -> seg_inv s w recs -> seg_inv s w' recs.
Proof.
  intros Hf Hn. apply seg_inv_agree. intros p Hp. eapply fs_frame_content; [exact Hf|]. by apply Hn.
Qed.

Lemma seg_inv_length s w recs :
  seg_inv s w recs -> 12 * Z.of_nat (length recs) <= ix_mmap_len (sg_index s) <= 12 * 2 ^ 32 /\
    ix_size (sg_index s) = 12 * Z.of_nat (length recs).
Proof.
  intros [_ _ _ _ _ _ _ _ (poss & Hir & Hat)].
  pose proof (index_rep_bound _ _ _ Hir) as Hb. rewrite length_seg_entries in Hb.
  pose proof (ir_size _ _ _ Hir) as Hs. rewrite length_seg_entries in Hs.
  pose proof (Forall2_length Hat) as Hl. pose proof (ir_max _ _ _ Hir). lia.
Qed.
End segment.
#[export] Hint Resolve recs_at_grow rec_at_grow : golog.

(** ** The operations on a represented segment *)

Section segment_ops.
Context `{Hmsg : ProtoMessage record} {Hlaws : ProtoLaws record record_wf}.

(** What an operation on a segment leaves alone. *)
Definition seg_step (s : segment) (w : world) (s' : segment) (w' : world) : Prop :=
  seg_paths s' = seg_paths s /\ baseOffset s' = baseOffset s /\ sg_config s' = sg_config s /\
  fs_frame (seg_paths s) w w' /\ (healthy w -> healthy w').

Lemma on_store_run {A} (m : M sst A) s w o st' w' :
  m (sg_store s, w) = (o, (st', w')) -> on_store m (s, w) = (o, (set_store st' s, w')).
Proof. intros E. unfold on_store, zoom. cbn. by rewrite E. Qed.

Lemma on_index_run {A} (m : M ist A) s w o ix' w' :
  m (sg_index s, w) = (o, (ix', w')) -> on_index m (s, w) = (o, (set_index ix' s, w')).
Proof. intros E. unfold on_index, zoom. cbn. by rewrite E. Qed.

(** After a store operation that appends bytes the segment still holds its
    records. *)
Lemma seg_inv_store s w recs st' w' q :
  seg_inv s w recs -> store_step (sg_store s) w st' w' -> s_File st' = s_File (sg_store s) ->
  store_content st' w' = store_content (sg_store s) w ++ q -> store_ok st' w' ->
  seg_inv (set_store st' s) w' recs /\ seg_step s w (set_store st' s) w'.
Proof.
  intros Hi (Hp & Hf & Hh) HF Hc Hok.
  destruct Hi as [H1 H2 H3 H4 H5 H6 H7 H8 (poss & Hir & Hat)].
  assert (Hnm : store_Name st' = store_Name (sg_store s)) by exact Hp.
  split.
  - split; cbn; auto; try congruence.
    exists poss. rewrite Hc. split; [|by apply recs_at_grow].
    eapply index_rep_frame; [done| |done]. set_solver.
  - unfold seg_step, seg_paths. cbn. rewrite Hnm. split_and!; auto.
    eapply fs_frame_mono; [|done]. set_solver.
Qed.

(** A record whose frame is at the end of the store and whose entry is at the end
    of the index is the last record of the segment. *)
Lemma seg_inv_snoc s w recs poss r p st' ix' w' :
  seg_inv s w recs -> Forall2 (rec_at (store_content (sg_store s) w)) poss recs ->
  record_wf r -> Offset r = nextOffset s -> nextOffset s + 1 < 2 ^ 64 ->
  12 * Z.of_nat (length recs) + 12 <= ix_mmap_len (sg_index s) ->
  Marshal r = Ok p -> 8 + Z.of_nat (length p) <= 2 ^ 32 ->
  Z.of_nat (length (store_content (sg_store s) w)) + 2 ^ 32 < 2 ^ 48 ->
  s_size (sg_store s) = Z.of_nat (length (store_content (sg_store s) w)) ->
  s_File st' = s_File (sg_store s) -> s_size st' = u64 (s_size (sg_store s) + u64 (8 + Z.of_nat (length p))) ->
  store_content st' w' = store_content (sg_store s) w ++ frame p ->
  ix_file ix' = ix_file (sg_index s) -> ix_mmap_len ix' = ix_mmap_len (sg_index s) ->
  index_rep ix' w' (seg_entries poss ++ [(u32 (Z.of_nat (length recs)), s_size (sg_store s))]) ->
  seg_inv (Seg st' ix' (baseOffset s) (nextOffset s + 1) (sg_config s)) w' (recs ++ [r]).
Proof.
  intros Hi Hat Hwf Ho Hnext Hroom Hp Hpl Hb Hpos HF Hsize Hc Hxf Hml Hix.
  pose proof (seg_inv_length _ _ _ Hi) as (Hlen & Hsz).
  destruct Hi as [H1 H2 H3 H4 H5 H6 H7 H8 _].
  assert (Hnpl := Forall2_length Hat).
  split; unfold store_Name, index_Name in *; cbn;
    rewrite ?length_app, ?HF, ?Hxf; cbn; auto; try congruence; try lia.
  - intros _. rewrite Hc, Hsize, Hpos, length_app, length_frame.
    unfold u64. rewrite Zplus_mod_idemp_r. f_equal. lia.
  - apply offsets_ok_snoc; [done|]. lia.
  - exists (poss ++ [s_size (sg_store s)]). rewrite Hc. split.
    + rewrite seg_entries_snoc, Hnpl.
      rewrite u32_small in Hix by (unfold is_u32; lia). exact Hix.
    + apply Forall2_app; [by apply recs_at_grow|]. constructor; [|done].
      split; [lia|]. exists p. split_and!; [by apply Unmarshal_Marshal|lia|].
      rewrite Hpos, Nat2Z.id. apply at_pos_last.
Qed.

(** A store that grew and an index that was written, as one step of the segment. *)
Lemma seg_step_append s w st w1 ix w2 n :
  store_Name (sg_store s) <> index_Name (sg_index s) -> store_step (sg_store s) w st w1 ->
  ix_file ix = ix_file (sg_index s) -> fs_frame [index_Name (sg_index s)] w1 w2 -> w_oracle w2 = w_oracle w1 ->
  seg_step s w (set_nextOffset n (set_index ix (set_store st s))) w2 /\ store_content st w2 = store_content st w1.
Proof.
  intros Hne (Hn & Hf & Hh) Hixf Hfr Hor. split.
  - unfold seg_step, seg_paths, index_Name, store_Name in *. cbn. rewrite Hixf, Hn. split_and!; auto.
    + eapply fs_frame_trans; eapply fs_frame_mono; [|done| |done]; set_solver.
    + intros Hw. unfold healthy. rewrite Hor. by apply Hh.
  - eapply store_content_frame; [exact Hfr|]. unfold store_Name in *. rewrite Hn. set_solver.
Qed.

(** [Append], under any failures: success appends the record at the next
    offset, failure keeps the records there were.  On a working disk it fails
    only when the index is full, with [io.EOF]. *)
Lemma segment_Append_spec r s w recs o s' w' :
  seg_inv s w recs -> record_wf r -> nextOffset s + 1 < 2 ^ 64 ->
  (bw_err (s_buf (sg_store s)) = None ->
   Z.of_nat (length (store_content (sg_store s) w)) + 2 ^ 32 < 2 ^ 48) ->
  segment_Append (Some r) (s, w) = (o, (s', w')) ->
  seg_step s w s' w' /\
  match o with
  | Ok off => off = nextOffset s /\ seg_inv s' w' (recs ++ [set_Offset off r]) /\
      bw_err (s_buf (sg_store s)) = None /\ bw_err (s_buf (sg_store s')) = None /\
      ix_mmap_len (sg_index s) >= 12 * Z.of_nat (length recs) + 12 /\
      exists p, Marshal (set_Offset off r) = Ok p /\ 8 + Z.of_nat (length p) <= 2 ^ 32 /\
        store_content (sg_store s') w' = store_content (sg_store s) w ++ frame p
  | Err e => seg_inv s' w' recs /\
      (seg_good s w -> e = io_EOF /\ ix_mmap_len (sg_index s) < 12 * Z.of_nat (length recs) + 12 /\
         seg_good s' w' /\ Z.of_nat (length (store_content (sg_store s') w')) <=
           Z.of_nat (length (store_content (sg_store s) w)) + 2 ^ 32)
  | Panic _ => False
  end.
Proof.
  intros Hi Hwf Hnext Hbound Hrun. pose proof (seg_inv_length _ _ _ Hi) as (Hlen & Hsz).
  pose proof Hi as [H1 H2 H3 H4 H5 H6 H7 H8 (poss & Hir & Hat)].
  unfold segment_Append in Hrun. erewrite bind_Ok in Hrun by reflexivity. cbn [fst snd] in Hrun.
  set (r' := set_Offset (nextOffset s) r) in *.
  assert (Hwf' : record_wf r').
  { apply record_wf_set_Offset; [done|]. unfold is_u64. lia. }
  destruct (Marshal_total r' Hwf') as (p & Hp & Hpl).
  erewrite bind_Ok in Hrun by (unfold lift; by rewrite Hp).
  destruct (store_Append p (sg_store s, w)) as [o1 [st1 w1]] eqn:Ha.
  pose proof (store_op_grows _ _ (op_Append p _ _ _ Ha)) as (_ & _ & Hok1). cbn in Hok1.
  apply store_Append_spec in Ha as Hsp. destruct Hsp as (Hst & HF & q & Hq & Ho1).
  destruct (seg_inv_store s w recs st1 w1 q Hi Hst HF Hq (Hok1 H3)) as [Hi1 Hs1].
  unfold mbind at 1, M_bind at 1 in Hrun. erewrite on_store_run in Hrun by exact Ha.
  destruct o1 as [[n pos]|e|]; [| |done].
  2:{ simplify_eq. split; [done|]. split; [done|]. intros [Hw He]. exfalso.
      destruct Ho1 as (_ & _ & Hno). by apply Hno. }
  destruct Ho1 as (-> & -> & -> & Hsize & He0 & He1). specialize (Hbound He0).
  assert (Hpos : s_size (sg_store s) = Z.of_nat (length (store_content (sg_store s) w))).
  { rewrite (H3 He0). apply u64_small. unfold is_u64. lia. }
  replace (nextOffset s - baseOffset s) with (Z.of_nat (length recs)) in Hrun by lia.
  u64_norm in Hrun.
  assert (Hnpl := Forall2_length Hat).
  set (s1 := set_store st1 s) in *.
  assert (Hir1 : index_rep (sg_index s1) w1 (seg_entries poss)).
  { destruct Hst as (_ & Hf & _). eapply index_rep_frame; [done| |done]. set_solver. }
  assert (Hir1' := Hir1).
  eapply index_Write_spec in Hir1' ; [|apply (u32_range (Z.of_nat (length recs)))|].
  2:{ instantiate (1 := s_size (sg_store s)). unfold is_u64. lia. }
  change (sg_index s1) with (sg_index s) in Hir1'.
  destruct (Z.ltb_spec (ix_mmap_len (sg_index s)) (ix_size (sg_index s) + 12)) as [Hfull|Hroom].
  { rewrite (bind_Err _ _ _ io_EOF (s1, w1)) in Hrun.
    2:{ erewrite on_index_run by exact Hir1'. by destruct s. }
    simplify_eq. split; [done|]. split; [done|]. intros [Hw _]. split; [done|]. split; [lia|].
    split; [split; [by apply Hst|done]|]. cbn [set_store sg_store].
    rewrite Hq, length_app, length_frame. lia. }
  destruct Hir1' as (ix' & w2 & Hwr & Hrep & Hixf & Hml & Hfr & Hor).
  erewrite bind_Ok in Hrun by (by erewrite on_index_run by exact Hwr).
  unfold mbind, M_bind, modify, mret, M_ret in Hrun. simplify_eq.
  cbn [fst snd set_nextOffset set_index set_store nextOffset s1].
  destruct (seg_step_append s w st1 w1 ix' w2 (u64 (nextOffset s + 1)) H1 Hst Hixf Hfr Hor) as [Hstep Hc2].
  rewrite Hq in Hc2. split; [done|].
  split_and!; auto; [|lia|exists p; split_and!; auto; lia]. u64_norm.
    apply (seg_inv_snoc s w recs poss r' p); auto; lia.
Qed.

(** [Read], under any failures: an offset the segment holds gives its record or
    an error, never another record; on a working disk it gives the record. *)
Lemma segment_Read_spec off s w recs r o s' w' :
  seg_inv s w recs -> baseOffset s <= off -> recs !! Z.to_nat (off - baseOffset s) = Some r ->
  segment_Read off (s, w) = (o, (s', w')) ->
  seg_step s w s' w' /\ seg_inv s' w' recs /\ nextOffset s' = nextOffset s /\
  store_same (sg_store s) w (sg_store s') w' /\
  (seg_good s w -> o = Ok r /\ seg_good s' w') /\ (o = Ok r \/ exists e, o = Err e).
Proof.
  intros Hi Hlo Hr Hrun. pose proof (seg_inv_length _ _ _ Hi) as (Hlen & Hsz).
  pose proof Hi as [H1 H2 H3 H4 H5 H6 H7 H8 (poss & Hir & Hat)].
  pose proof (lookup_lt_Some _ _ _ Hr) as Hk.
  unfold segment_Read in Hrun. erewrite bind_Ok in Hrun by reflexivity. cbn [fst snd] in Hrun.
  set (k := Z.to_nat (off - baseOffset s)) in *.
  replace (off - baseOffset s) with (Z.of_nat k) in Hrun by lia. u64_norm in Hrun.
  destruct (Forall2_lookup_r _ _ _ _ _ Hat Hr) as (pos & Hpos & Hrec).
  assert (Hslot : read_slot (Z.of_nat k) (length (seg_entries poss)) = k).
  { unfold read_slot. destruct (Z.eqb_spec (Z.of_nat k) (-1)); [lia|]. u64_norm. lia. }
  erewrite bind_Ok in Hrun; cycle 1.
  { erewrite on_index_run.
    2:{ rewrite (index_Read_spec _ _ _ _ Hir), Hslot, seg_entries_lookup, Hpos. reflexivity. }
    done. }
  destruct Hrec as (Hp0 & p & Hu & Hpb & Hpat).
  rewrite set_index_eta in Hrun.
  destruct (store_Read pos (sg_store s, w)) as [o1 [st1 w1]] eqn:Hread.
  pose proof (store_Read_same _ _ _ _ _ _ Hread) as Hsame.
  unfold mbind, M_bind in Hrun. erewrite on_store_run in Hrun by exact Hread.
  eapply (store_Read_spec p) in Hread as (Hst & HF & Hs & Hc & Hgood & _ & Hor);
    [|lia..|unfold maxAlloc; lia|done].
  assert (store_ok st1 w1) as Hok1.
  { destruct Hsame as (_ & _ & _ & _ & He). unfold store_ok. intros He1.
    rewrite Hs, Hc. by apply H3, He. }
  destruct (seg_inv_store s w recs st1 w1 [] Hi Hst HF) as [Hi1 Hs1]; [by rewrite app_nil_r|done|].
  assert (s' = set_store st1 s /\ w' = w1 /\ ((o1 = Ok p -> o = Ok r) /\ (o1 <> Ok p -> exists e, o = Err e)))
    as (-> & -> & Ho & Ho').
  { destruct Hor as [->|[e ->]].
    - unfold lift in Hrun. rewrite Hu in Hrun. by simplify_eq.
    - simplify_eq. split_and!; try done. eauto. }
  split_and!; try done.
  - intros [Hw He]. destruct (Hgood He Hw H2) as [-> He1]. split; [by apply Ho|].
    split; [by apply Hst|done].
  - destruct Hor as [->|[e ->]]; [by left; apply Ho|right; by apply Ho'].
Qed.

(** ** Closing and reopening *)

(** The closed segment with base offset [base] in directory [dir] holds [recs]
    on disk. *)
Definition disk_seg (w : world) (dir : string) (base : Z) (recs : list record) : Prop :=
  offsets_ok base recs /\
  exists poss, fcontent w (dir, index_name base) = entries_bytes (seg_entries poss) /\
    Forall2 (rec_at (fcontent w (dir, store_name base))) poss recs.

Lemma disk_seg_frame ps w w' dir base recs :
  fs_frame ps w w' -> (dir, store_name base) ∉ ps -> (dir, index_name base) ∉ ps ->
  disk_seg w dir base recs -> disk_seg w' dir base recs.
Proof.
  intros Hf H1 H2 (Ho & poss & Hx & Hc). split; [done|]. exists poss.
  by rewrite !(fs_frame_content _ _ _ _ Hf).
Qed.

(** The segment's files are the ones [newSegment] opens for its base offset. *)
Definition seg_files (s : segment) (dir : string) : Prop :=
  store_Name (sg_store s) = (dir, store_name (baseOffset s)) /\
  index_Name (sg_index s) = (dir, index_name (baseOffset s)).

Lemma seg_files_step s w s' w' dir :
  seg_step s w s' w' -> seg_files s dir -> seg_files s' dir.
Proof.
  intros (Hp & Hb & _) [H1 H2]. unfold seg_paths in Hp. unfold seg_files. rewrite Hb.
  injection Hp as -> ->. done.
Qed.

(** [Close] on a working disk leaves all records on disk and closes the files. *)
Lemma segment_Close_spec s w recs dir :
  seg_inv s w recs -> seg_good s w -> seg_files s dir ->
  exists s' w', segment_Close (s, w) = (Ok tt, (s', w')) /\ healthy w' /\
    seg_step s w s' w' /\ nextOffset s' = nextOffset s /\
    disk_seg w' dir (baseOffset s) recs /\
    fcontent w' (store_Name (sg_store s)) = store_content (sg_store s) w /\
    file_closed (s_File (sg_store s')) = true /\ ix_mapped (sg_index s') = false.
Proof.
  intros Hi [Hw He] [Hf1 Hf2].
  pose proof Hi as [H1 H2 H3 H4 H5 H6 H7 H8 (poss & Hir & Hat)].
  destruct (index_Close_spec _ _ _ Hir Hw) as (ix' & w1 & Hc & Hw1 & Hfr1 & Hfc1 & Hixf & Hm & Hsz & Hml).
  assert (Hc1 : store_content (sg_store s) w1 = store_content (sg_store s) w).
  { eapply store_content_frame; [done|]. set_solver. }
  destruct (store_Close (sg_store s, w1)) as [o [st' w2]] eqn:Hcl.
  pose proof (store_Close_spec _ _ _ _ _ Hcl) as (Hst & Hs & Hcc & Hok & Hgood).
  rewrite (Hgood Hw1 He H2) in *. destruct (Hok eq_refl) as (Hclosed & Hfin).
  destruct Hst as (Hp & Hfr2 & Hh2).
  exists (set_store st' (set_index ix' s)), w2. split.
  { unfold segment_Close. erewrite bind_Ok by (by apply on_index_run).
    erewrite on_store_run by (cbn; exact Hcl). done. }
  rewrite Hc1 in Hfin. split_and!; auto.
  - unfold seg_step, seg_paths. cbn. unfold store_Name, index_Name. rewrite Hp, Hixf. split_and!; auto.
    eapply fs_frame_trans; eapply fs_frame_mono; [|exact Hfr1| |exact Hfr2]; set_solver.
  - split; [done|]. exists poss. rewrite <- Hf1, <- Hf2. split.
    + rewrite <- Hfc1. eapply fs_frame_content; [done|]. set_solver.
    + by rewrite Hfin.
Qed.

Lemma os_OpenFile_spec p w :
  exists o w', os_OpenFile p w = (o, w') /\ fs_frame [p] w w' /\ (healthy w -> healthy w') /\
    (forall q, fcontent w' q = fcontent w q) /\
    match o with
    | Ok f => f = File p false /\ is_Some (w_fs w' !! p)
    | Err _ => healthy w -> p.1 ∈ w_dirs w -> False
    | Panic _ => False
    end.
Proof.
  unfold os_OpenFile.
  match goal with |- context [syscall ?k w] => destruct (syscall_cases k w)
    as [(e & o1 & -> & Hnh)|(o1 & -> & Ho1)] end; [eexists _, _; crush|].
  assert (Hh : forall w', w_oracle w' = o1 -> healthy w -> healthy w')
    by (unfold healthy; intros; subst; auto).
  cbn. destruct (decide (p.1 ∈ w_dirs w)) as [Hd|Hd]; [|eexists _, _; crush].
  destruct (w_fs w !! p) as [b|] eqn:E; eexists _, _; (split; [done|]).
  - split_and!; auto with golog; cbn; by rewrite ?E.
  - split_and!; auto.
    + eapply fs_frame_same with (w1 := fput p [] (set_oracle o1 w)); [done..|].
      eapply fs_frame_trans; [|apply fs_frame_fput]. apply fs_frame_oracle.
    + intros q. destruct (decide (p = q)) as [<-|Hne].
      * unfold fcontent, fput. cbn. by rewrite lookup_insert_eq, E.
      * unfold fcontent, fput. cbn. by rewrite lookup_insert_ne.
    + cbn. by rewrite lookup_insert_eq.
Qed.

(** The index configuration the proofs rely on: room for an entry, and entry
    numbers that fit their 32-bit field. *)
Definition config_ok (c : Config) : Prop :=
  12 <= MaxIndexBytes (Segment c) <= 12 * 2 ^ 32.

(** The next offset that [newSegment] computes from the last entry. *)
Lemma next_of_entries base poss :
  is_u64 base -> base + Z.of_nat (length poss) < 2 ^ 64 -> Z.of_nat (length poss) <= 2 ^ 32 ->
  match seg_entries poss !! read_slot (-1) (length (seg_entries poss)) with
  | Some (off, _) => base +64 off +64 1
  | None => base
  end = base + Z.of_nat (length poss).
Proof.
  intros Hbase Hmax Hfit.
  rewrite length_seg_entries, seg_entries_lookup. unfold read_slot. cbn [Z.eqb Pos.eqb].
  destruct poss as [|pos0 poss'] eqn:Ep; [cbn in *; lia|]. rewrite <- Ep in *.
  assert (length poss > 0)%nat by (rewrite Ep; cbn; lia).
  destruct (lookup_lt_is_Some_2 poss (length poss - 1)) as [pz Hz]; [lia|].
  rewrite Hz. cbn [fmap option_fmap option_map]. unfold is_u64 in Hbase. u64_norm. lia.
Qed.

(** A mapped index of positive length has a file. *)
Lemma index_rep_file i w es : index_rep i w es -> 0 < ix_mmap_len i -> is_Some (w_fs w !! index_Name i).
Proof.
  intros Hir Hm. destruct (w_fs w !! index_Name i) as [b|] eqn:E; [done|].
  pose proof (ir_len _ _ _ Hir) as Hl. unfold fcontent in Hl. rewrite E in Hl. cbn in Hl. lia.
Qed.

(** A store and an index of a closed segment, opened again, are the segment. *)
Lemma seg_inv_open dir base c w recs poss st ix :
  is_u64 base -> base + Z.of_nat (length recs) < 2 ^ 64 -> offsets_ok base recs ->
  s_File st = File (dir, store_name base) false -> bw_err (s_buf st) = None ->
  store_ok st w -> Forall2 (rec_at (store_content st w)) poss recs ->
  ix_file ix = File (dir, index_name base) false -> ix_mmap_len ix = MaxIndexBytes (Segment c) ->
  index_rep ix w (seg_entries poss) ->
  seg_inv (Seg st ix base (base + Z.of_nat (length recs)) c) w recs.
Proof.
  intros Hb Hmax Hoffs HF Hbe Hsok Hat Hxf Hml Hir.
  split; unfold store_Name, index_Name; cbn; rewrite ?HF, ?Hxf; cbn; auto.
  - intros E. simplify_eq. by eapply store_index_name_ne.
  - apply Hb.
  - by exists poss.
Qed.

(** The first half of [newSegment], before what it does with the store. *)
Lemma open_store_spec {A} p w (k : store -> M world A) :
  exists o w', (f ← wrap_err "open store" (os_OpenFile p); st ← wrap_err "new store" (newStore f); k st) w =
      match o with Ok st => k st w' | Err e => (Err e, w') | Panic m => (Panic m, w') end /\
    fs_frame [p] w w' /\ (healthy w -> healthy w') /\ (forall q, fcontent w' q = fcontent w q) /\
    match o with
    | Ok st => s_File st = File p false /\ bw_err (s_buf st) = None /\ store_content st w' = fcontent w p /\
        s_size st = u64 (Z.of_nat (length (fcontent w p))) /\ is_Some (w_fs w' !! p)
    | Err _ => healthy w -> p.1 ∈ w_dirs w -> False
    | Panic _ => False
    end.
Proof.
  destruct (os_OpenFile_spec p w) as (o1 & w1 & H1 & Hf1 & Hh1 & Hc1 & Ho1).
  unfold mbind at 1, M_bind at 1, wrap_err at 1. rewrite H1.
  destruct o1 as [f1|e|]; [|eexists (Err _), w1; crush|done]. destruct Ho1 as [-> Hs1].
  destruct (newStore_spec (File p false) w1) as (o2 & w2 & H2 & Hfs2 & Hd2 & Hh2 & Ho2).
  unfold mbind at 1, M_bind at 1, wrap_err at 1. rewrite H2.
  assert (Hcc2 : forall q, fcontent w2 q = fcontent w q).
  { intros q. rewrite <- Hc1. unfold fcontent. by rewrite Hfs2. }
  assert (Hfr : fs_frame [p] w w2) by (by eapply fs_frame_same).
  destruct o2 as [st|e|]; [|eexists (Err _), w2; split_and!; auto; cbn; auto|done].
  destruct Ho2 as (HF & Hbe & Hsc & Hsok). cbn in Hsc. exists (Ok st), w2.
  assert (Hsc2 : store_content st w2 = fcontent w p) by (by rewrite Hsc, Hc1).
  split_and!; auto; [|by rewrite Hfs2]. rewrite <- Hsc2. by apply Hsok.
Qed.

(** [newSegment] on the files of a closed segment (or on no files, which is the
    segment without records): success restores exactly the records. *)
Lemma newSegment_spec dir base c w recs :
  config_ok c -> is_u64 base -> base + Z.of_nat (length recs) < 2 ^ 64 ->
  12 * Z.of_nat (length recs) <= MaxIndexBytes (Segment c) ->
  disk_seg w dir base recs ->
  exists o w', newSegment dir base c w = (o, w') /\
    fs_frame [(dir, store_name base); (dir, index_name base)] w w' /\ (healthy w -> healthy w') /\
    match o with
    | Ok s => seg_inv s w' recs /\ seg_files s dir /\ baseOffset s = base /\ sg_config s = c /\
        bw_err (s_buf (sg_store s)) = None /\
        store_content (sg_store s) w' = fcontent w (dir, store_name base) /\
        is_Some (w_fs w' !! (dir, store_name base)) /\ is_Some (w_fs w' !! (dir, index_name base))
    | Err _ => healthy w -> dir ∈ w_dirs w -> False
    | Panic _ => False
    end.
Proof.
  intros Hcfg Hbase Hmax Hfit (Hoffs & poss & Hx & Hat).
  unfold newSegment. set (ps := (dir, store_name base)) in *. set (px := (dir, index_name base)) in *.
  assert (Hnpl := Forall2_length Hat).
  edestruct (open_store_spec (A := segment) ps w) as (o2 & w2 & -> & Hf2 & Hh2 & Hc2 & Ho2).
  assert (Hfr2 : fs_frame [ps; px] w w2) by (eapply fs_frame_mono; [|done]; set_solver).
  destruct o2 as [st|e|]; [|eexists _, _; by split_and!|done]. destruct Ho2 as (HF & Hbe & Hsc & Hsz & Hs2).
  destruct (os_OpenFile_spec px w2) as (o3 & w3 & H3 & Hf3 & Hh3 & Hc3 & Ho3).
  unfold mbind at 1, M_bind at 1, wrap_err at 1. rewrite H3.
  assert (Hfr3 : fs_frame [ps; px] w w3).
  { eapply fs_frame_trans; [done|]. eapply fs_frame_mono; [|done]. set_solver. }
  destruct o3 as [f3|e|]; [| |done].
  2:{ eexists _, _. split_and!; auto; cbn. rewrite <- (fs_frame_dirs _ _ _ Hfr2). auto. }
  destruct Ho3 as [-> Hs3].
  assert (Hu := rec_at_u64 _ _ _ Hat). unfold config_ok in Hcfg.
  destruct (newIndex_spec (File px false) c w3 (seg_entries poss)) as (o4 & w4 & H4 & Hf4 & Hh4 & Ho4);
    [lia|cbn; by rewrite Hc3, Hc2|apply seg_entries_ok; [done|lia]|rewrite length_seg_entries; lia|].
  unfold mbind at 1, M_bind at 1, wrap_err at 1. rewrite H4.
  assert (Hfr4 : fs_frame [ps; px] w w4).
  { eapply fs_frame_trans; [done|]. eapply fs_frame_mono; [|done]. cbn. set_solver. }
  destruct o4 as [ix|e|]; [|eexists _, _; split_and!; auto 6; cbn; auto 6|done].
  destruct Ho4 as (Hixf & Hml & Hir).
  unfold mbind at 1, M_bind at 1, try, with_index. rewrite (index_Read_spec _ _ _ _ Hir).
  assert (Hnxt := next_of_entries base poss Hbase ltac:(lia) ltac:(lia)). rewrite Hnpl in Hnxt.
  assert (Hcs : store_content st w4 = fcontent w ps).
  { rewrite <- Hsc. assert (store_Name st ∉ [px]).
    { unfold store_Name. rewrite HF. intros E%list_elem_of_singleton. cbn in E. unfold ps, px in E. simplify_eq.
      by eapply store_index_name_ne. }
    transitivity (store_content st w3); by eapply store_content_frame. }
  assert (Hseg : seg_inv (Seg st ix base (base + Z.of_nat (length recs)) c) w4 recs).
  { eapply (seg_inv_open dir); eauto; [|by rewrite Hcs]. intros _. by rewrite Hcs. }
  exists (Ok (Seg st ix base (base + Z.of_nat (length recs)) c)), w4. split.
  { by destruct (seg_entries poss !! _) as [[eoff epos]|]; cbn [fst snd]; rewrite <- Hnxt. }
  split; [done|]. split; [by auto 6|]. split_and!; try done.
  - unfold seg_files, store_Name, index_Name. cbn. by rewrite HF, Hixf.
  - by apply (fs_frame_some _ _ _ Hf4), (fs_frame_some _ _ _ Hf3).
  - replace px with (index_Name ix) by (unfold index_Name; by rewrite Hixf). eapply index_rep_file; [done|lia].
Qed.
End segment_ops.
