(* ===== verification/Log.v ===== *)
(** [internal/log/log.go]: the log, a list of segments of which the last
    receives the appends.

    Segments are shared by pointer: [l.segments] and [l.activeSegment] may or
    may not name the same object, so they hold pointers into the heap
    [l_heap].  Every method is one operation here; [Locks] has the methods
    as programs under the log's read-write lock. *)

From stdpp Require Import sorting.
From S2P Require Import Prelude Endian OS Proto Config Store Index Names Segment.

Record Log := mkLog {
  l_Dir : string;
  l_Config : Config;
  l_heap : gmap nat segment;
  l_next : nat;
  l_active : option nat;
  l_segments : list nat
}.

Abbreviation lst := (Log * world)%type.

Definition set_heap (h : gmap nat segment) (l : Log) : Log :=
  mkLog (l_Dir l) (l_Config l) h (l_next l) (l_active l) (l_segments l).
Definition set_segments (ids : list nat) (l : Log) : Log :=
  mkLog (l_Dir l) (l_Config l) (l_heap l) (l_next l) (l_active l) ids.
Definition set_Config (c : Config) (l : Log) : Log :=
  mkLog (l_Dir l) c (l_heap l) (l_next l) (l_active l) (l_segments l).

(** [l.segments = append(l.segments, s); l.activeSegment = s] for a new [s]. *)
Definition push_segment (s : segment) (l : Log) : Log :=
  mkLog (l_Dir l) (l_Config l) (<[l_next l := s]> (l_heap l)) (S (l_next l))
    (Some (l_next l)) (l_segments l ++ [l_next l]).

Definition log_disk {A} (m : M world A) : M lst A := zoom snd (fun w s => (s.1, w)) m.

(** A method call on the segment a pointer refers to. *)
Definition on_segment {A} (id : nat) (m : M gst A) : M lst A := fun s =>
  match l_heap s.1 !! id with
  | None => (Panic "nil pointer dereference", s)
  | Some sg =>
      let (o, t) := m (sg, s.2) in (o, (set_heap (<[id := t.1]> (l_heap s.1)) s.1, t.2))
  end.

Definition get_segment (id : nat) : M lst segment := on_segment id (s ← get; mret s.1).

Definition Log_newSegment (off : Z) : M lst unit :=
  s ← get;
  sg ← log_disk (newSegment (l_Dir s.1) off (l_Config s.1));
  modify (fun s' => (push_segment sg s'.1, s'.2)).

(** The loop of [setup]: it opens a segment for every other element, since each
    base offset occurs once for the store and once for the index. *)
Fixpoint open_segments (bases : list Z) : M lst unit :=
  match bases with
  | [] => mret tt
  | b :: rest =>
      Log_newSegment b;;
      match rest with
      | [] => mret tt
      | _ :: rest' => open_segments rest'
      end
  end.

(** [slices.Sort] *)
Definition sort_offsets (l : list Z) : list Z := merge_sort Z.le l.

Definition setup : M lst unit :=
  s ← get;
  files ← wrap_err "setup" (log_disk (os_ReadDir (l_Dir s.1)));
  open_segments (sort_offsets (name_offset <$> files));;
  s' ← get;
  if decide (l_segments s'.1 = []) then
    Log_newSegment (InitialOffset (Segment (l_Config s'.1)))
  else mret tt.

(** The configuration with the defaults of [NewLog]. *)
Definition default_config (c : Config) : Config :=
  let mi := MaxIndexBytes (Segment c) in
  let ms := MaxStoreBytes (Segment c) in
  set_Segment (mkSegmentConfig (if ms =? 0 then 1024 else ms) (if mi =? 0 then 1024 else mi)
    (InitialOffset (Segment c))) c.

(** [NewLog]; the half-initialised log it also returns beside an error is used
    by no caller. *)
Definition NewLog (dir : string) (c : Config) : M world Log := fun w =>
  let (o, s) := setup (mkLog dir (default_config c) ∅ 0 None [], w) in
  (match o with Ok _ => Ok s.1 | Err e => Err e | Panic p => Panic p end, s.2).

(** The pointer of the first segment whose range contains [off]. *)
Fixpoint find_segment (h : gmap nat segment) (ids : list nat) (off : Z) : option nat :=
  match ids with
  | [] => None
  | id :: ids =>
      match h !! id with
      | Some s => if (baseOffset s <=? off) && (off <? nextOffset s) then Some id
                  else find_segment h ids off
      | None => find_segment h ids off
      end
  end.

Fixpoint close_segments (ids : list nat) : M lst unit :=
  match ids with
  | [] => mret tt
  | id :: ids => on_segment id segment_Close;; close_segments ids
  end.

Definition Log_Close : M lst unit :=
  s ← get;
  close_segments (l_segments s.1).

Definition Log_Remove : M lst unit :=
  Log_Close;;
  s ← get;
  log_disk (os_RemoveAll (l_Dir s.1)).

Definition Log_Reset : M lst unit :=
  Log_Remove;;
  setup.

Definition LowestOffset : M lst Z :=
  s ← get;
  match l_segments s.1 with
  | [] => panic "index out of range"
  | id :: _ => sg ← get_segment id; mret (baseOffset sg)
  end.

Definition HighestOffset : M lst Z :=
  s ← get;
  match list.last (l_segments s.1) with
  | None => panic "index out of range"
  | Some id =>
      sg ← get_segment id;
      if nextOffset sg =? 0 then mret 0 else mret (nextOffset sg -64 1)
  end.

(** The loop of [Truncate]: [kept] is its local slice [segments]. *)
Fixpoint truncate_loop (lowest : Z) (ids kept : list nat) : M lst (list nat) :=
  match ids with
  | [] => mret kept
  | id :: ids =>
      sg ← get_segment id;
      if nextOffset sg <=? lowest +64 1 then
        on_segment id segment_Remove;;
        truncate_loop lowest ids kept
      else truncate_loop lowest ids (kept ++ [id])
  end.

Definition Truncate (lowest : Z) : M lst unit :=
  s ← get;
  kept ← truncate_loop lowest (l_segments s.1) [];
  modify (fun s' => (set_segments kept s'.1, s'.2)).

(** [originReader]: a pointer to a segment's store and the position of the next
    read; [Read(p)] with a [p] of [n] bytes gives the bytes, the error and the
    moved reader. *)
Record originReader := mkOriginReader { or_store : nat; or_off : Z }.

Definition originReader_Read (n : nat) (o : originReader)
    : M lst (bytes * option error * originReader) :=
  r ← on_segment (or_store o) (on_store (store_ReadAt n (or_off o)));
  let '(b, err) := r in
  mret (b, err, mkOriginReader (or_store o) (or_off o + Z.of_nat (length b))).

(** [Reader]: the readers it hands to [io.MultiReader]. *)
Definition Reader : M lst (list originReader) :=
  s ← get;
  mret ((fun id => mkOriginReader id 0) <$> l_segments s.1).

Section log.
Context `{ProtoMessage record}.

Definition Log_Append (rc : option record) : M lst Z :=
  s ← get;
  match l_active s.1 with
  | None => panic "nil pointer dereference"
  | Some id =>
      off ← on_segment id (segment_Append rc);
      sg ← get_segment id;
      if IsMaxed sg then Log_newSegment (off +64 1);; mret off
      else mret off
  end.

Definition Log_Read (off : Z) : M lst record :=
  s ← get;
  match find_segment (l_heap s.1) (l_segments s.1) off with
  | None => throw (ErrOffsetOutOfRange off)
  | Some id =>
      sg ← get_segment id;
      if nextOffset sg <=? off then throw (ErrOffsetOutOfRange off)
      else on_segment id (segment_Read off)
  end.
End log.

(** What opening one segment keeps, opening all of them keeps. *)
Lemma keeps_open_segments (P : lst -> Prop) (B : Z -> Prop) bs :
  (forall b, B b -> keeps P (fun _ => True) (Log_newSegment b)) -> Forall B bs -> keeps P (fun _ => True) (open_segments bs).
Proof.
  intros Hnew. enough (Hn : forall n bs, (length bs <= n)%nat -> Forall B bs -> keeps P (fun _ => True) (open_segments bs))
    by (by apply (Hn (length bs))). clear bs.
  intros n. induction n as [|n IH]; intros [|b [|b' rest]] Hl Hb; cbn [open_segments]; try (cbn in Hl; lia);
    try auto with keeps; apply list.Forall_cons in Hb as [Hb Hbs];
    (eapply keeps_bind; [by apply Hnew|]; intros _ _); [auto with keeps|].
  apply IH; [cbn in Hl; lia|]. by apply list.Forall_cons in Hbs as [_ Hbs].
Qed.
