(* ===== verification/LogInv.v ===== *)
(** The invariant of the log and the behaviour of [Append] and [Read] on it.

    A log represents a base offset and the list of its records; [chain] says
    how the segments split that list, [log_inv] ties the chain to the pointers
    of the [Log] struct. *)

From stdpp Require Import sorting.
From S2P Require Import Prelude Endian OS Proto Config Store Index Names Segment Log.

Section chain.
Context `{Hmsg : ProtoMessage record} {Hlaws : ProtoLaws record record_wf}.

(** The segment [s] of the log in [dir] holds [rs] from offset [lo] on. *)
Definition seg_rep (w : world) (dir : string) (c : Config) (lo : Z) (s : segment)
    (rs : list record) : Prop :=
  seg_inv s w rs /\ seg_files s dir /\ baseOffset s = lo /\ sg_config s = c.

(** Consecutive segments: each starts where the one before ends, and only the
    last may be empty. *)
Inductive chain (w : world) (dir : string) (c : Config)
    : Z -> list segment -> list (list record) -> Prop :=
| chain_last lo s rs : seg_rep w dir c lo s rs -> chain w dir c lo [s] [rs]
| chain_cons lo s rs ss rss :
    seg_rep w dir c lo s rs -> rs <> [] ->
    chain w dir c (lo + Z.of_nat (length rs)) ss rss -> chain w dir c lo (s :: ss) (rs :: rss).

(** The lookup of an offset in the abstract log. *)
Definition spec_read (lo : Z) (recs : list record) (off : Z) : option record :=
  if lo <=? off then recs !! Z.to_nat (off - lo) else None.

Lemma spec_read_prefix lo recs recs' off r :
  recs `prefix_of` recs' -> spec_read lo recs off = Some r -> spec_read lo recs' off = Some r.
Proof. intros [k ->] H. unfold spec_read in *. destruct (lo <=? off); [|done]. by apply lookup_app_l_Some. Qed.

Lemma seg_rep_u64 w dir c lo s rs : seg_rep w dir c lo s rs -> is_u64 (baseOffset s).
Proof. intros (Hi & _). destruct Hi. unfold is_u64. lia. Qed.

Lemma seg_rep_frame ps w w' dir c lo s rs :
  fs_frame ps w w' -> (forall p, p ∈ seg_paths s -> p ∉ ps) ->
  seg_rep w dir c lo s rs -> seg_rep w' dir c lo s rs.
Proof. intros Hf Hn (Hi & Hr). split; [|done]. by eapply seg_inv_frame. Qed.

Lemma chain_bases w dir c lo ss rss s :
  chain w dir c lo ss rss -> s ∈ ss -> lo <= baseOffset s /\ is_u64 (baseOffset s) /\ seg_files s dir.
Proof.
  induction 1 as [lo s' rs Hs|lo s' rs ss rss Hs Hne Hch IH]; intros Hin.
  - apply list_elem_of_singleton in Hin as ->. pose proof (seg_rep_u64 _ _ _ _ _ _ Hs).
    destruct Hs as (_ & ? & Hb & _). split; [lia|done].
  - apply elem_of_cons in Hin as [->|Hin].
    + pose proof (seg_rep_u64 _ _ _ _ _ _ Hs). destruct Hs as (_ & ? & Hb & _). split; [lia|done].
    + apply IH in Hin as (? & ? & ?). split; [lia|done].
Qed.

Lemma seg_files_disjoint s1 s2 dir p :
  seg_files s1 dir -> seg_files s2 dir -> is_u64 (baseOffset s1) -> is_u64 (baseOffset s2) ->
  baseOffset s1 <> baseOffset s2 -> p ∈ seg_paths s1 -> p ∉ seg_paths s2.
Proof.
  unfold seg_paths. intros [-> ->] [-> ->] H1 H2 Hne Hp Hp2.
  set_unfold. destruct Hp as [->|[->|[]]], Hp2 as [E|[E|[]]]; injection E as E.
  - eauto using store_name_inj.
  - by eapply store_index_name_ne.
  - by eapply store_index_name_ne.
  - eauto using index_name_inj.
Qed.

Lemma chain_frame ps w w' dir c lo ss rss :
  fs_frame ps w w' -> (forall s p, s ∈ ss -> p ∈ seg_paths s -> p ∉ ps) ->
  chain w dir c lo ss rss -> chain w' dir c lo ss rss.
Proof.
  intros Hf Hn Hch. induction Hch as [lo s rs Hs|lo s rs ss rss Hs Hne Hch IH].
  - constructor. eapply seg_rep_frame; [done| |done]. intros. eapply Hn; [|done]. set_solver.
  - constructor; [|done|].
    + eapply seg_rep_frame; [done| |done]. intros. eapply Hn; [|done]. set_solver.
    + apply IH. intros. eapply Hn; [|done]. set_solver.
Qed.

Lemma chain_agree w w' dir c lo ss rss :
  (forall s p, s ∈ ss -> p ∈ seg_paths s -> fcontent w' p = fcontent w p) ->
  chain w dir c lo ss rss -> chain w' dir c lo ss rss.
Proof.
  intros Hag Hch. induction Hch as [lo s rs [Hi Hr]|lo s rs ss rss [Hi Hr] Hne Hch IH].
  - constructor. split; [|done]. eapply seg_inv_agree; [|exact Hi]. intros. eapply Hag; [|done]. set_solver.
  - constructor; [|done|].
    + split; [|done]. eapply seg_inv_agree; [|exact Hi]. intros. eapply Hag; [|done]. set_solver.
    + apply IH. intros. eapply Hag; [|done]. set_solver.
Qed.

Lemma chain_length w dir c lo ss rss : chain w dir c lo ss rss -> length ss = length rss.
Proof. induction 1; cbn; congruence. Qed.

Lemma chain_nonempty w dir c lo ss rss : chain w dir c lo ss rss -> ss <> [].
Proof. by destruct 1. Qed.

(** The first segment and the rest. *)
Lemma chain_uncons w dir c lo s ss rss :
  chain w dir c lo (s :: ss) rss ->
  exists rs rss', rss = rs :: rss' /\ seg_rep w dir c lo s rs /\
    (ss = [] /\ rss' = [] \/ rs <> [] /\ chain w dir c (lo + Z.of_nat (length rs)) ss rss').
Proof. inversion 1; subst; eauto 10. Qed.

Lemma chain_lookup w dir c lo ss rss i s rs :
  chain w dir c lo ss rss -> ss !! i = Some s -> rss !! i = Some rs ->
  seg_inv s w rs /\ seg_files s dir /\ sg_config s = c.
Proof.
  intros Hch. revert i. induction Hch as [lo s0 rs0 (? & ? & ? & ?)|lo s0 rs0 ss rss (? & ? & ? & ?) Hne Hch IH];
    intros [|i] Hs Hr; cbn in *; simplify_eq; eauto.
Qed.

(** The end of the last segment is the end of the log. *)
Lemma chain_end w dir c lo ss rss s :
  chain w dir c lo ss rss -> list.last ss = Some s ->
  nextOffset s = lo + Z.of_nat (length (concat rss)).
Proof.
  induction 1 as [lo s0 rs0 (Hi & _ & Hb & _)|lo s0 rs0 ss rss Hs Hne Hch IH]; intros Hl.
  - cbn in *. simplify_eq. rewrite app_nil_r. destruct Hi. lia.
  - destruct ss as [|s1 ss]; [by inversion Hch|]. cbn in Hl |- *. rewrite (IH Hl), length_app. lia.
Qed.

Lemma seg_rep_step w w' dir c lo s s' rs rs' :
  seg_rep w dir c lo s rs -> seg_step s w s' w' -> seg_inv s' w' rs' -> seg_rep w' dir c lo s' rs'.
Proof.
  intros (_ & Hf & Hb & Hc) Hst Hi. pose proof Hst as (Hp & Hb' & Hc' & _).
  split_and!; auto; [|congruence..]. by eapply seg_files_step.
Qed.

(** The files of a segment differ from those of the rest of its chain. *)
Lemma chain_tail_disjoint w dir c lo s rs ss rss s' p :
  seg_rep w dir c lo s rs -> rs <> [] -> chain w dir c (lo + Z.of_nat (length rs)) ss rss ->
  s' ∈ ss -> (p ∈ seg_paths s' -> p ∉ seg_paths s) /\ (p ∈ seg_paths s -> p ∉ seg_paths s').
Proof.
  intros Hs Hne Hch Hin. pose proof (seg_rep_u64 _ _ _ _ _ _ Hs) as Hu.
  destruct (chain_bases _ _ _ _ _ _ _ Hch Hin) as (Hlo & Hu' & Hf').
  destruct Hs as (_ & Hf & Hb & _).
  assert (baseOffset s <> baseOffset s') by (destruct rs; [done|]; cbn in *; lia).
  split; intros Hp.
  - by apply (seg_files_disjoint s' s dir).
  - by apply (seg_files_disjoint s s' dir).
Qed.

(** So do those of any two segments. *)
Lemma chain_disjoint w dir c lo ss rss i j s1 s2 p :
  chain w dir c lo ss rss -> ss !! i = Some s1 -> ss !! j = Some s2 -> i <> j ->
  p ∈ seg_paths s1 -> p ∉ seg_paths s2.
Proof.
  intros Hch. revert i j. induction Hch as [lo s rs Hs|lo s rs ss rss Hs Hne Hch IH]; intros i j Hi Hj Hij.
  - destruct i, j; done.
  - assert (Hd := fun s' => chain_tail_disjoint _ _ _ _ _ _ _ _ s' p Hs Hne Hch).
    destruct i as [|i], j as [|j]; cbn in Hi, Hj; [done| | |].
    + injection Hi as <-. apply Hd. by eapply list_elem_of_lookup_2.
    + injection Hj as <-. apply Hd. by eapply list_elem_of_lookup_2.
    + eapply IH; [exact Hi|exact Hj|lia].
Qed.

(** An operation on one segment that keeps its records keeps the chain. *)
Lemma chain_update w w' dir c lo ss rss i s s' rs :
  chain w dir c lo ss rss -> ss !! i = Some s -> rss !! i = Some rs ->
  seg_step s w s' w' -> seg_inv s' w' rs -> chain w' dir c lo (<[i := s']> ss) rss.
Proof.
  intros Hch. revert i. induction Hch as [lo s0 rs0 Hs|lo s0 rs0 ss rss Hs Hne Hch IH]; intros i Hi Hr Hst Hin.
  - destruct i; [|done]. cbn in *. simplify_eq. constructor. by eapply seg_rep_step.
  - destruct i as [|i]; cbn in Hi, Hr |- *.
    + simplify_eq. constructor; [by eapply seg_rep_step|done|].
      destruct Hst as (_ & _ & _ & Hf & _).
      eapply chain_frame; [done| |done]. intros s1 p H1.
      exact (proj1 (chain_tail_disjoint _ _ _ _ _ _ _ _ _ p Hs Hne Hch H1)).
    + constructor; [|done|by eapply IH].
      destruct Hst as (_ & _ & _ & Hf & _). eapply seg_rep_frame; [done| |done].
      intros p. apply list_elem_of_lookup_2 in Hi.
      exact (proj2 (chain_tail_disjoint _ _ _ _ _ _ _ _ _ p Hs Hne Hch Hi)).
Qed.

(** The last segment may grow. *)
Lemma chain_update_last w w' dir c lo ss rss s s' rs rs' :
  chain w dir c lo (ss ++ [s]) (rss ++ [rs]) ->
  seg_step s w s' w' -> seg_inv s' w' rs' -> chain w' dir c lo (ss ++ [s']) (rss ++ [rs']).
Proof.
  revert lo rss. induction ss as [|s0 ss IH]; intros lo rss Hch Hst Hin.
  - pose proof (chain_length _ _ _ _ _ _ Hch) as Hl. rewrite !length_app in Hl. cbn in Hl.
    destruct rss; [|cbn in Hl; lia]. cbn in *. inversion Hch as [? ? ? Hs|? ? ? ? ? ? ? Hc]; subst.
    + constructor. by eapply seg_rep_step.
    + inversion Hc.
  - pose proof (chain_length _ _ _ _ _ _ Hch) as Hl. rewrite !length_app in Hl. cbn in Hl.
    destruct rss as [|rs0 rss]; [cbn in Hl; lia|]. cbn in *.
    inversion Hch as [? ? ? Hs H1 H2|? ? ? ? ? Hs Hne Hc]; subst; [by destruct ss|].
    constructor; [|done|by eapply IH].
    destruct Hst as (_ & _ & _ & Hf & _). eapply seg_rep_frame; [done| |done].
    intros p. refine (proj2 (chain_tail_disjoint _ _ _ _ _ _ _ _ _ p Hs Hne Hc _)). set_solver.
Qed.

(** A new segment at the end. *)
Lemma chain_extend w dir c lo ss rss s' rs' :
  chain w dir c lo ss rss -> (forall rs, list.last rss = Some rs -> rs <> []) ->
  seg_rep w dir c (lo + Z.of_nat (length (concat rss))) s' rs' ->
  chain w dir c lo (ss ++ [s']) (rss ++ [rs']).
Proof.
  intros Hch. induction Hch as [lo s rs Hs|lo s rs ss rss Hs Hne Hch IH]; intros Hl Hs'.
  - cbn in *. rewrite app_nil_r in Hs'. constructor; [done|by apply Hl|]. by constructor.
  - cbn in *. constructor; [done..|]. apply IH.
    + intros rs1 Hrs1. apply Hl. by destruct rss.
    + rewrite length_app in Hs'. by rewrite Nat2Z.inj_add, Z.add_assoc in Hs'.
Qed.

(** The segment the loop of [Read] finds. *)
Lemma find_segment_spec w dir c lo ss rss h ids off :
  chain w dir c lo ss rss -> Forall2 (fun id s => h !! id = Some s) ids ss ->
  match spec_read lo (concat rss) off with
  | Some r => exists i id s rs, find_segment h ids off = Some id /\ ids !! i = Some id /\
      ss !! i = Some s /\ rss !! i = Some rs /\ baseOffset s <= off < nextOffset s /\
      rs !! Z.to_nat (off - baseOffset s) = Some r
  | None => find_segment h ids off = None
  end.
Proof.
  intros Hch. revert ids. unfold spec_read.
  induction Hch as [lo s rs (Hi & _ & Hb & _)|lo s rs ss rss (Hi & _ & Hb & _) Hne Hch IH];
    intros ids Hids.
  - apply Forall2_cons_inv_r in Hids as (id & ids' & Hid & Hids & ->).
    apply Forall2_nil_inv_r in Hids as ->. cbn. rewrite Hid, app_nil_r.
    destruct Hi as [_ _ _ Hn _ _ _ _ _]. rewrite Hb, Hn, Hb.
    destruct (Z.leb_spec lo off) as [Hle|]; [|done].
    destruct (Z.ltb_spec off (lo + Z.of_nat (length rs))) as [Hlt|Hge]; cbn.
    + destruct (lookup_lt_is_Some_2 rs (Z.to_nat (off - lo))) as [r Hr]; [lia|]. rewrite Hr.
      exists 0%nat, id, s, rs. rewrite Hb, Hn, Hb. split_and!; auto.
    + by rewrite lookup_ge_None_2 by lia.
  - apply Forall2_cons_inv_r in Hids as (id & ids' & Hid & Hids & ->).
    specialize (IH _ Hids). cbn. rewrite Hid.
    destruct Hi as [_ _ _ Hn _ _ _ _ _]. rewrite Hb, Hn, Hb.
    destruct (Z.leb_spec lo off) as [Hle|Hgt]; cbn.
    + destruct (Z.ltb_spec off (lo + Z.of_nat (length rs))) as [Hlt|Hge].
      * destruct (lookup_lt_is_Some_2 rs (Z.to_nat (off - lo))) as [r Hr]; [lia|].
        rewrite lookup_app_l, Hr by lia.
        exists 0%nat, id, s, rs. rewrite Hb, Hn, Hb. split_and!; auto.
      * destruct (Z.leb_spec (lo + Z.of_nat (length rs)) off); [|lia].
        rewrite lookup_app_r by lia.
        replace (Z.to_nat (off - lo) - length rs)%nat
          with (Z.to_nat (off - (lo + Z.of_nat (length rs)))) by lia.
        destruct (concat rss !! _) as [r|]; [|done].
        destruct IH as (i & id' & s' & rs' & H1 & H2 & H3 & H4 & H5 & H6).
        exists (S i), id', s', rs'. split_and!; auto; lia.
    + destruct (Z.leb_spec (lo + Z.of_nat (length rs)) off); [lia|done].
Qed.

(** ** The log *)

(** The log [l] holds [recs] from offset [lo] on. *)
Definition log_inv (l : Log) (w : world) (lo : Z) (recs : list record) : Prop :=
  exists ss rss, recs = concat rss /\ chain w (l_Dir l) (l_Config l) lo ss rss /\
    Forall2 (fun id s => l_heap l !! id = Some s) (l_segments l) ss /\
    NoDup (l_segments l) /\ l_active l = list.last (l_segments l) /\
    (forall id, is_Some (l_heap l !! id) -> (id < l_next l)%nat) /\
    config_ok (l_Config l).

(** The disk works and no segment has seen a failed write. *)
Definition log_good (l : Log) (w : world) : Prop :=
  healthy w /\ forall id s, id ∈ l_segments l -> l_heap l !! id = Some s ->
    bw_err (s_buf (sg_store s)) = None.

Lemma get_segment_run id l w s :
  l_heap l !! id = Some s -> get_segment id (l, w) = (Ok s, (l, w)).
Proof.
  intros Hs. unfold get_segment, on_segment. cbn [fst snd]. rewrite Hs.
  unfold mbind, M_bind, get, mret, M_ret. cbn [fst snd]. rewrite insert_id by done. by destruct l.
Qed.

Lemma on_segment_run {A} id (m : M gst A) l w s o s' w' :
  l_heap l !! id = Some s -> m (s, w) = (o, (s', w')) ->
  on_segment id m (l, w) = (o, (set_heap (<[id := s']> (l_heap l)) l, w')).
Proof. intros Hs Hm. unfold on_segment. cbn [fst snd]. rewrite Hs, Hm. done. Qed.


Lemma heap_tail (h : gmap nat segment) id0 s' ids ss :
  id0 ∉ ids -> Forall2 (fun id s => h !! id = Some s) ids ss ->
  Forall2 (fun id s => <[id0 := s']> h !! id = Some s) ids ss.
Proof.
  intros Hni Hf. apply Forall2_same_length_lookup. split; [by eapply Forall2_length|].
  intros i id s H1 H2. rewrite lookup_insert_ne; [exact (Forall2_lookup_lr _ _ _ _ _ _ Hf H1 H2)|].
  intros ->. apply Hni. by eapply list_elem_of_lookup_2.
Qed.

Lemma heap_update (h : gmap nat segment) ids ss i id0 s' :
  Forall2 (fun id s => h !! id = Some s) ids ss -> NoDup ids -> ids !! i = Some id0 ->
  Forall2 (fun id s => <[id0 := s']> h !! id = Some s) ids (<[i := s']> ss).
Proof.
  intros Hf Hnd Hi. apply Forall2_same_length_lookup. split.
  { rewrite length_insert. by eapply Forall2_length. }
  intros j id s Hj Hs. destruct (decide (i = j)) as [->|Hne].
  - rewrite list_lookup_insert_eq in Hs
      by (rewrite <- (Forall2_length Hf); by eapply lookup_lt_Some). simplify_eq.
    apply lookup_insert_eq.
  - rewrite list_lookup_insert_ne in Hs by done.
    rewrite lookup_insert_ne; [exact (Forall2_lookup_lr _ _ _ _ _ _ Hf Hj Hs)|].
    intros ->. apply Hne. by eapply NoDup_lookup.
Qed.

(** An operation on one segment that keeps its records keeps the log. *)
Lemma log_inv_update l w w' lo recs ss rss i id s s' rs :
  chain w (l_Dir l) (l_Config l) lo ss rss -> recs = concat rss ->
  Forall2 (fun id s => l_heap l !! id = Some s) (l_segments l) ss ->
  NoDup (l_segments l) -> l_active l = list.last (l_segments l) ->
  (forall id, is_Some (l_heap l !! id) -> (id < l_next l)%nat) -> config_ok (l_Config l) ->
  l_segments l !! i = Some id -> ss !! i = Some s -> rss !! i = Some rs ->
  seg_step s w s' w' -> seg_inv s' w' rs ->
  log_inv (set_heap (<[id := s']> (l_heap l)) l) w' lo recs.
Proof.
  intros Hch -> Hf Hnd Hact Hnx Hcfg Hi Hs Hr Hst Hin.
  exists (<[i := s']> ss), rss. cbn. split_and!; auto.
  - by eapply chain_update.
  - by eapply heap_update.
  - intros id'. rewrite lookup_insert_is_Some'. intros [<-|H]; [|by apply Hnx].
    apply Hnx. eapply Forall2_lookup_lr in Hf; [|done..]. by rewrite Hf.
Qed.

(** ** Appending *)

(** The directory holds exactly the files of the segments. *)
Record log_files (l : Log) (w : world) : Prop := {
  lc_dir : l_Dir l ∈ w_dirs w;
  lc_exact n : is_Some (w_fs w !! (l_Dir l, n)) ->
    exists id s, id ∈ l_segments l /\ l_heap l !! id = Some s /\
      (n = store_name (baseOffset s) \/ n = index_name (baseOffset s));
  lc_exist id s : id ∈ l_segments l -> l_heap l !! id = Some s ->
    forall p, p ∈ seg_paths s -> is_Some (w_fs w !! p)
}.

(** The active segment is below both limits. *)
Definition log_room (l : Log) (w : world) : Prop :=
  forall id s, l_active l = Some id -> l_heap l !! id = Some s ->
    (bw_err (s_buf (sg_store s)) = None ->
     Z.of_nat (length (store_content (sg_store s) w)) < MaxStoreBytes (Segment (l_Config l))) /\
    ix_size (sg_index s) < MaxIndexBytes (Segment (l_Config l)).

(** What [Append] and reopening need beside the records. *)
Definition log_clean (l : Log) (w : world) : Prop :=
  1 <= MaxStoreBytes (Segment (l_Config l)) <= 2 ^ 47 /\ log_files l w /\ log_room l w.

(** ** Records that fill a segment's store before its index

    [IsMaxed] compares the size of the index with [MaxIndexBytes].  When that is not
    a multiple of the entry width, as the default 1024 is not, an index that has no
    room for another entry does not count as full, and the segment is left only
    when its store is full by then.  [min_frame c] is the number of bytes in the store
    per record that makes sure of it; with a multiple of the entry width it is 0. *)
Definition min_frame (c : Config) : Z :=
  let k := MaxIndexBytes (Segment c) / 12 in
  if MaxIndexBytes (Segment c) mod 12 =? 0 then 0 else (MaxStoreBytes (Segment c) + k - 1) / k.

(** The record takes at least [m] bytes of a store, whatever its offset. *)
Definition fits (m : Z) (r : record) : Prop :=
  forall off p, is_u64 off -> Marshal (set_Offset off r) = Ok p -> m <= 8 + Z.of_nat (length p).

(** The records of the active segment have that size on average. *)
Definition log_heavy (l : Log) (w : world) : Prop :=
  forall id s, l_active l = Some id -> l_heap l !! id = Some s ->
    min_frame (l_Config l) * ix_size (sg_index s) <= 12 * Z.of_nat (length (store_content (sg_store s) w)).

Lemma min_frame_aligned c : MaxIndexBytes (Segment c) mod 12 = 0 -> min_frame c = 0.
Proof. intros H. unfold min_frame. by rewrite H. Qed.

Lemma fits_small m r : m <= 8 -> fits m r.
Proof. intros H off p _ _. lia. Qed.

Lemma fits_mono m m' r : m <= m' -> fits m' r -> fits m r.
Proof. intros H Hf off p Ho Hp. specialize (Hf off p Ho Hp). lia. Qed.

(** An index that is too full for an entry and not full goes with a full store. *)
Lemma min_frame_full c n :
  config_ok c -> 1 <= MaxStoreBytes (Segment c) ->
  12 * n < MaxIndexBytes (Segment c) -> MaxIndexBytes (Segment c) < 12 * n + 12 ->
  MaxStoreBytes (Segment c) <= min_frame c * n.
Proof.
  unfold config_ok, min_frame. set (M := MaxIndexBytes (Segment c)). set (S := MaxStoreBytes (Segment c)). intros Hc HS H1 H2.
  assert (E : M / 12 = n) by (symmetry; apply (Z.div_unique M 12 n (M - 12 * n)); lia). rewrite E.
  destruct (Z.eqb_spec (M mod 12) 0) as [H0|_]; [apply Z.mod_divide in H0 as [k Hk]; lia|].
  pose proof (Z.mul_succ_div_gt (S + n - 1) n ltac:(lia)). lia.
Qed.

Lemma IsMaxed_room s w recs :
  seg_inv s w recs -> Z.of_nat (length (store_content (sg_store s) w)) < 2 ^ 64 ->
  IsMaxed s = false ->
  (bw_err (s_buf (sg_store s)) = None ->
   Z.of_nat (length (store_content (sg_store s) w)) < MaxStoreBytes (Segment (sg_config s))) /\
  ix_size (sg_index s) < MaxIndexBytes (Segment (sg_config s)).
Proof.
  intros Hi Hb Hm. unfold IsMaxed in Hm. apply orb_false_iff in Hm as [H1 H2].
  apply Z.leb_gt in H1, H2. split; [|done]. intros He.
  rewrite (si_store _ _ _ Hi He), u64_small in H1 by (unfold is_u64; lia). done.
Qed.

(** A name for a base offset the log does not use yet is free on disk. *)
Lemma log_files_fresh l w base :
  log_files l w -> is_u64 base ->
  (forall id s, id ∈ l_segments l -> l_heap l !! id = Some s -> is_u64 (baseOffset s) /\ baseOffset s <> base) ->
  w_fs w !! (l_Dir l, store_name base) = None /\ w_fs w !! (l_Dir l, index_name base) = None.
Proof.
  intros Hcl Hu Hne. split; apply eq_None_not_Some; intros Hs;
    apply (lc_exact _ _ Hcl) in Hs as (id & s & Hid & Hh & Hn);
    destruct (Hne _ _ Hid Hh) as [Hu' Hb]; destruct Hn as [Hn|Hn].
  - by apply Hb, store_name_inj.
  - by apply store_index_name_ne in Hn.
  - symmetry in Hn. by apply store_index_name_ne in Hn.
  - by apply Hb, index_name_inj.
Qed.

Lemma disk_seg_none w dir base :
  w_fs w !! (dir, store_name base) = None -> w_fs w !! (dir, index_name base) = None ->
  disk_seg w dir base [].
Proof.
  intros H1 H2. split; [intros i r Hi; by rewrite lookup_nil in Hi|].
  exists []. unfold fcontent. by rewrite H1, H2.
Qed.

(** Every pointer of the list refers to a segment of the chain. *)
Lemma log_inv_segment l w lo recs id s :
  log_inv l w lo recs -> id ∈ l_segments l -> l_heap l !! id = Some s ->
  exists rs, seg_inv s w rs /\ seg_files s (l_Dir l) /\ sg_config s = l_Config l /\
    is_u64 (baseOffset s) /\ lo <= baseOffset s /\ nextOffset s <= lo + Z.of_nat (length recs).
Proof.
  intros (ss & rss & -> & Hch & Hf & _) Hid Hs.
  apply list_elem_of_lookup in Hid as [i Hi].
  destruct (Forall2_lookup_l _ _ _ _ _ Hf Hi) as (s' & Hs' & E). simplify_eq.
  destruct (lookup_lt_is_Some_2 rss i) as [rs Hrs].
  { rewrite <- (chain_length _ _ _ _ _ _ Hch). by eapply lookup_lt_Some. }
  destruct (chain_lookup _ _ _ _ _ _ _ _ _ Hch Hs' Hrs) as (H1 & H2 & H3).
  destruct (chain_bases _ _ _ _ _ _ _ Hch (list_elem_of_lookup_2 _ _ _ Hs')) as (H4 & H5 & _).
  exists rs. split_and!; auto; try apply H5.
  clear Hf Hi Hs H1 H2 H3 H4 H5. revert i Hs' Hrs.
  induction Hch as [lo s0 rs0 (Hi & _ & Hb & _)|lo s0 rs0 ss rss (Hi & _ & Hb & _) Hne Hch IH];
    intros [|i] Hs' Hrs; cbn in *; simplify_eq; rewrite length_app; destruct Hi; cbn; try lia.
  specialize (IH _ Hs' Hrs). lia.
Qed.

(** No segment of the log is empty. *)
Definition all_full (l : Log) : Prop :=
  forall id s, id ∈ l_segments l -> l_heap l !! id = Some s -> baseOffset s < nextOffset s.

Lemma push_old (l : Log) sN id s :
  (forall id, is_Some (l_heap l !! id) -> (id < l_next l)%nat) ->
  l_heap l !! id = Some s -> l_heap (push_segment sN l) !! id = Some s.
Proof.
  intros Hnx Hs. cbn. rewrite lookup_insert_ne; [done|]. intros <-.
  specialize (Hnx _ (mk_is_Some _ _ Hs)). lia.
Qed.

(** A segment of the extended log is the new one or was there before. *)
Lemma push_cases (l : Log) sN id s :
  (forall id, is_Some (l_heap l !! id) -> (id < l_next l)%nat) ->
  id ∈ l_segments (push_segment sN l) -> l_heap (push_segment sN l) !! id = Some s ->
  (id = l_next l /\ s = sN) \/ (id ∈ l_segments l /\ l_heap l !! id = Some s).
Proof.
  intros Hnx Hid Hs. cbn in *. destruct (decide (id = l_next l)) as [->|Hne].
  - rewrite lookup_insert_eq in Hs. left. by simplify_eq.
  - rewrite lookup_insert_ne in Hs by done. right. set_solver.
Qed.

Lemma push_heap_lt (l : Log) sN :
  (forall id, is_Some (l_heap l !! id) -> (id < l_next l)%nat) ->
  forall id, is_Some (l_heap (push_segment sN l) !! id) -> (id < l_next (push_segment sN l))%nat.
Proof.
  intros Hnx id. cbn. rewrite lookup_insert_is_Some'. intros [<-|H]; [lia|]. apply Hnx in H. lia.
Qed.

Lemma log_inv_push l w lo recs sN rs :
  log_inv l w lo recs -> all_full l ->
  seg_rep w (l_Dir l) (l_Config l) (lo + Z.of_nat (length recs)) sN rs ->
  log_inv (push_segment sN l) w lo (recs ++ rs).
Proof.
  intros (ss & rss & -> & Hch & Hf & Hnd & Hact & Hnx & Hcfg) Hfull HsN.
  exists (ss ++ [sN]), (rss ++ [rs]). cbn [push_segment l_Dir l_Config l_segments l_active].
  split_and!; auto.
  - rewrite concat_app. cbn. by rewrite app_nil_r.
  - apply chain_extend; [done| |done]. intros rs0 Hl ->. rewrite last_lookup in Hl.
    rewrite <- (chain_length _ _ _ _ _ _ Hch) in Hl.
    destruct (lookup_lt_is_Some_2 ss (pred (length ss))) as [s Hs].
    { pose proof (chain_nonempty _ _ _ _ _ _ Hch). destruct ss; cbn; [done|lia]. }
    destruct (chain_lookup _ _ _ _ _ _ _ _ _ Hch Hs Hl) as (Hi & _).
    destruct (Forall2_lookup_r _ _ _ _ _ Hf Hs) as (id & Hid & Hh).
    pose proof (Hfull id s (list_elem_of_lookup_2 _ _ _ Hid) Hh). destruct Hi. cbn in *. lia.
  - apply Forall2_app; [|constructor; [apply lookup_insert_eq|done]].
    eapply Forall2_impl; [|exact Hf]. intros id s Hs. by eapply push_old.
  - apply list.NoDup_app. split_and!; [done| |apply NoDup_singleton].
    intros id Hid Hin. apply list_elem_of_singleton in Hin as ->.
    apply list_elem_of_lookup in Hid as [i Hi].
    destruct (Forall2_lookup_l _ _ _ _ _ Hf Hi) as (s & _ & Hs).
    specialize (Hnx _ (mk_is_Some _ _ Hs)). lia.
  - by rewrite last_snoc.
  - by apply push_heap_lt.
Qed.

Lemma log_files_push l w w' sN :
  (forall id, is_Some (l_heap l !! id) -> (id < l_next l)%nat) ->
  log_files l w -> seg_files sN (l_Dir l) ->
  fs_frame [(l_Dir l, store_name (baseOffset sN)); (l_Dir l, index_name (baseOffset sN))] w w' ->
  is_Some (w_fs w' !! (l_Dir l, store_name (baseOffset sN))) ->
  is_Some (w_fs w' !! (l_Dir l, index_name (baseOffset sN))) ->
  log_files (push_segment sN l) w'.
Proof.
  intros Hnx [Hd Hex Hst] [Hf1 Hf2] Hfr Hs1 Hs2. split.
  - cbn. by rewrite (fs_frame_dirs _ _ _ Hfr).
  - cbn [push_segment l_Dir]. intros n Hn.
    destruct (decide (n = store_name (baseOffset sN) \/ n = index_name (baseOffset sN))) as [Hc|Hc].
    + exists (l_next l), sN. split_and!; [cbn; set_solver|apply lookup_insert_eq|done].
    + rewrite (fs_frame_lookup _ _ _ Hfr) in Hn by set_solver.
      apply Hex in Hn as (id & s & Hid & Hs & Hor). exists id, s.
      split_and!; [cbn; set_solver|by apply push_old|done].
  - intros id s Hid Hs p Hp. eapply push_cases in Hs as [[-> ->]|[Hid' Hs']]; [..|done|done].
    + unfold seg_paths in Hp. rewrite Hf1, Hf2 in Hp. set_solver.
    + eapply fs_frame_some; [done|]. by eapply Hst.
Qed.

Lemma new_seg_room l w sN :
  seg_inv sN w [] -> store_content (sg_store sN) w = [] ->
  1 <= MaxStoreBytes (Segment (l_Config l)) -> config_ok (l_Config l) ->
  log_room (push_segment sN l) w.
Proof.
  intros Hi Hc Hm Hcfg id s Ha Hs. cbn in Ha, Hs. simplify_eq.
  rewrite lookup_insert_eq in Hs. simplify_eq. cbn. rewrite Hc.
  pose proof (seg_inv_length _ _ _ Hi) as [_ Hz]. unfold config_ok in Hcfg. cbn in *. lia.
Qed.

Lemma new_seg_heavy l w sN : seg_inv sN w [] -> log_heavy (push_segment sN l) w.
Proof.
  intros Hi id s Ha Hs. cbn in Ha, Hs. simplify_eq. rewrite lookup_insert_eq in Hs. simplify_eq.
  pose proof (seg_inv_length _ _ _ Hi) as [_ ->]. cbn [length]. lia.
Qed.

Lemma log_good_push l w w' sN :
  (forall id, is_Some (l_heap l !! id) -> (id < l_next l)%nat) ->
  log_good l w -> healthy w' -> bw_err (s_buf (sg_store sN)) = None -> log_good (push_segment sN l) w'.
Proof.
  intros Hnx [_ Hb] Hw He. split; [done|]. intros id s Hid Hs.
  eapply push_cases in Hs as [[-> ->]|[Hid' Hs']]; [done|by eapply Hb|done|done].
Qed.

(** Opening the segment behind the end of the log, under any failures. *)
Lemma Log_newSegment_spec l w lo recs o l' w' :
  let base := lo + Z.of_nat (length recs) in
  log_inv l w lo recs -> log_files l w -> is_u64 base ->
  all_full l ->
  Log_newSegment base (l, w) = (o, (l', w')) ->
  (healthy w -> healthy w') /\
  match o with
  | Ok _ => log_inv l' w' lo recs /\ log_files l' w' /\ l_Config l' = l_Config l /\ l_Dir l' = l_Dir l /\
      (1 <= MaxStoreBytes (Segment (l_Config l)) -> log_room l' w') /\ (log_good l w -> log_good l' w') /\
      log_heavy l' w'
  | Err _ => l' = l /\ log_inv l w' lo recs /\ (healthy w -> False)
  | Panic _ => False
  end.
Proof.
  intros base Hinv Hfiles Hu Hfull Hrun.
  assert (Hseg := fun id s => log_inv_segment l w lo recs id s Hinv).
  assert (Hlt : forall id s, id ∈ l_segments l -> l_heap l !! id = Some s ->
            is_u64 (baseOffset s) /\ baseOffset s <> base /\ seg_files s (l_Dir l)).
  { intros id s H1 H2. destruct (Hseg _ _ H1 H2) as (rs & _ & ? & _ & ? & _ & ?).
    specialize (Hfull _ _ H1 H2). split_and!; auto; [apply H0..|]. unfold base. lia. }
  pose proof Hinv as (ss & rss & Hrecs & Hch & Hf & Hnd & Hact & Hnx & Hcfg).
  destruct (log_files_fresh l w base Hfiles Hu) as [Hn1 Hn2].
  { intros. edestruct Hlt as (? & ? & _); eauto. }
  destruct (newSegment_spec (l_Dir l) base (l_Config l) w []) as (o1 & w1 & H1 & Hfr & Hh & Ho1); auto.
  { cbn. unfold is_u64 in Hu. lia. }
  { cbn. unfold config_ok in Hcfg. lia. }
  { by apply disk_seg_none. }
  unfold Log_newSegment in Hrun. erewrite bind_Ok in Hrun by reflexivity. cbn [fst snd] in Hrun.
  unfold mbind, M_bind, log_disk, zoom in Hrun. cbn [fst snd] in Hrun. rewrite H1 in Hrun.
  assert (Hdisj : forall s p, s ∈ ss -> p ∈ seg_paths s ->
            p ∉ [(l_Dir l, store_name base); (l_Dir l, index_name base)]).
  { intros s p Hs Hp. apply list_elem_of_lookup in Hs as [i Hi].
    destruct (Forall2_lookup_r _ _ _ _ _ Hf Hi) as (id & Hid & Hheap).
    destruct (Hlt id s) as (Hu' & Hne & [Hp1 Hp2]); [by eapply list_elem_of_lookup_2|done|].
    unfold seg_paths in Hp. rewrite Hp1, Hp2 in Hp. set_unfold.
    intros [->|[->|[]]]; destruct Hp as [E|[E|[]]]; injection E as E.
    - by apply Hne, store_name_inj.
    - by apply store_index_name_ne in E.
    - symmetry in E. by apply store_index_name_ne in E.
    - by apply Hne, index_name_inj. }
  assert (Hch1 := chain_frame _ _ _ _ _ _ _ _ Hfr Hdisj Hch).
  unfold modify in Hrun.
  destruct o1 as [sN|e|]; [| |done]; simplify_eq; (split; [exact Hh|]).
  2:{ cbn. split; [done|]. split; [|intros Hw; eapply Ho1; [done|apply Hfiles]].
      exists ss, rss. split_and!; auto. }
  destruct Ho1 as (Hi & Hfl & Hb & Hc & Hbe & Hcont & Hex1 & Hex2). cbn [fst snd].
  assert (Hinv1 : log_inv l w1 lo (concat rss)) by (exists ss, rss; by split_and!).
  split_and!; try done.
  - rewrite <- (app_nil_r (concat rss)). apply log_inv_push; [done..|]. by split_and!.
  - eapply log_files_push; rewrite ?Hb; eauto.
  - intros Hm. apply new_seg_room; auto. rewrite Hcont. unfold fcontent. by rewrite Hn1.
  - intros Hg. eapply log_good_push; eauto. apply Hh, Hg.
  - by apply new_seg_heavy.
Qed.

(** The active segment is the last one of the chain. *)
Lemma log_inv_last l w lo recs :
  log_inv l w lo recs ->
  exists ids id ss s rss rs, l_segments l = ids ++ [id] /\ l_active l = Some id /\
    l_heap l !! id = Some s /\ recs = concat rss ++ rs /\
    chain w (l_Dir l) (l_Config l) lo (ss ++ [s]) (rss ++ [rs]) /\
    Forall2 (fun id s => l_heap l !! id = Some s) ids ss /\ id ∉ ids /\
    seg_inv s w rs /\ sg_config s = l_Config l /\ nextOffset s = lo + Z.of_nat (length recs).
Proof.
  intros (ss & rss & -> & Hch & Hf & Hnd & Hact & Hnx & Hcfg).
  pose proof (chain_length _ _ _ _ _ _ Hch) as Hlen.
  destruct (list.last ss) as [s|] eqn:Hls.
  2:{ apply last_None in Hls. by apply chain_nonempty in Hch. }
  pose proof (chain_end _ _ _ _ _ _ _ Hch Hls) as Hend.
  apply last_Some in Hls as [ss0 ->]. rewrite length_app in Hlen. cbn in Hlen.
  destruct (list.last rss) as [rs|] eqn:Hlr; [|apply last_None in Hlr; subst; cbn in Hlen; lia].
  apply last_Some in Hlr as [rss0 ->].
  apply Forall2_app_inv_r in Hf as (ids & ids' & Hf & Hf' & Hids).
  apply Forall2_cons_inv_r in Hf' as (id & ? & Hid & Hnil & ->). apply Forall2_nil_inv_r in Hnil as ->.
  destruct (chain_lookup _ _ _ _ _ _ (length ss0) s rs Hch) as (Hi & _ & Hc).
  { by rewrite list_lookup_middle. }
  { rewrite length_app in Hlen. cbn in Hlen. rewrite list_lookup_middle by lia. done. }
  exists ids, id, ss0, s, rss0, rs. rewrite Hact, Hids, last_snoc.
  split_and!; auto.
  - rewrite concat_app. cbn. by rewrite app_nil_r.
  - rewrite Hids in Hnd. apply list.NoDup_app in Hnd as (_ & Hd & _). intros Hin. by apply (Hd _ Hin); set_solver.
Qed.

(** The log after the active segment was replaced by one with more records. *)
Lemma log_inv_update_last l w w' lo ids id ss s s' rss rs rs' :
  log_inv l w lo (concat rss ++ rs) ->
  l_segments l = ids ++ [id] -> l_active l = Some id -> l_heap l !! id = Some s ->
  chain w (l_Dir l) (l_Config l) lo (ss ++ [s]) (rss ++ [rs]) ->
  Forall2 (fun id s => l_heap l !! id = Some s) ids ss -> id ∉ ids ->
  seg_step s w s' w' -> seg_inv s' w' rs' ->
  log_inv (set_heap (<[id := s']> (l_heap l)) l) w' lo (concat rss ++ rs').
Proof.
  intros (_ & _ & _ & _ & _ & Hnd & Hact & Hnx & Hcfg) Hids Ha Hs Hch Hf Hni Hst Hi.
  exists (ss ++ [s']), (rss ++ [rs']). cbn. split_and!; auto.
  - rewrite concat_app. cbn. by rewrite app_nil_r.
  - by eapply chain_update_last.
  - rewrite Hids. apply Forall2_app; [|constructor; [apply lookup_insert_eq|done]].
    apply Forall2_same_length_lookup. split; [by eapply Forall2_length|].
    intros i id' s0 H1 H2. rewrite lookup_insert_ne.
    + exact (Forall2_lookup_lr _ _ _ _ _ _ Hf H1 H2).
    + intros ->. apply Hni. by eapply list_elem_of_lookup_2.
  - intros id'. rewrite lookup_insert_is_Some'. intros [<-|H]; [|by apply Hnx].
    apply Hnx. by rewrite Hs.
Qed.

Lemma chain_full w dir c lo ss rss s :
  chain w dir c lo ss rss -> (forall rs, list.last rss = Some rs -> rs <> []) -> s ∈ ss ->
  baseOffset s < nextOffset s.
Proof.
  assert (Hr : forall lo s rs, seg_rep w dir c lo s rs -> rs <> [] -> baseOffset s < nextOffset s).
  { intros lo0 s0 rs ([_ _ _ Hn _ _ _ _ _] & _) Hne. destruct rs; [done|]. cbn in Hn. lia. }
  induction 1 as [lo s0 rs Hs|lo s0 rs ss rss Hs Hne Hch IH]; intros Hl Hin.
  - apply list_elem_of_singleton in Hin as ->. eapply Hr; [done|]. by apply Hl.
  - apply elem_of_cons in Hin as [->|Hin]; [by eapply Hr|]. apply IH; [|done].
    intros rs' Hrs'. apply Hl. by destruct rss.
Qed.

(** The files and the health of the log after an operation on one segment. *)
Lemma log_files_update l w w' lo recs id s s' :
  log_inv l w lo recs -> log_files l w -> id ∈ l_segments l -> l_heap l !! id = Some s ->
  seg_step s w s' w' -> log_files (set_heap (<[id := s']> (l_heap l)) l) w'.
Proof.
  intros Hinv [Hd Hex Hst] Hid Hs Hstep.
  destruct (log_inv_segment _ _ _ _ _ _ Hinv Hid Hs) as (rs & _ & [Hf1 Hf2] & _).
  destruct Hstep as (Hp & Hb & _ & Hfr & _).
  assert (Hup : forall id' s0, l_heap l !! id' = Some s0 -> exists s1,
            <[id := s']> (l_heap l) !! id' = Some s1 /\ baseOffset s1 = baseOffset s0 /\
            seg_paths s1 = seg_paths s0).
  { intros id' s0 H0. destruct (decide (id = id')) as [<-|Hne].
    - rewrite H0 in Hs. injection Hs as ->. exists s'. by rewrite lookup_insert_eq.
    - exists s0. by rewrite lookup_insert_ne. }
  split; cbn.
  - by rewrite (fs_frame_dirs _ _ _ Hfr).
  - intros n Hn. destruct (decide ((l_Dir l, n) ∈ seg_paths s)) as [Hin|Hout].
    + exists id, s'. rewrite lookup_insert_eq, Hb. split_and!; auto.
      unfold seg_paths in Hin. rewrite Hf1, Hf2 in Hin. set_unfold. naive_solver.
    + rewrite (fs_frame_lookup _ _ _ Hfr) in Hn by done.
      apply Hex in Hn as (id' & s0 & Hid' & Hs0 & Hor).
      destruct (Hup _ _ Hs0) as (s1 & Hs1 & Hb1 & _). exists id', s1. by rewrite Hb1.
  - intros id' s1 Hid' Hs1 p Hp1. apply (fs_frame_some _ _ _ Hfr).
    destruct (decide (id = id')) as [<-|Hne].
    + rewrite lookup_insert_eq in Hs1. injection Hs1 as <-. rewrite Hp in Hp1. by eapply Hst.
    + rewrite lookup_insert_ne in Hs1 by done. by eapply Hst.
Qed.

Lemma log_good_update l w w' id s' :
  log_good l w -> healthy w' -> bw_err (s_buf (sg_store s')) = None ->
  log_good (set_heap (<[id := s']> (l_heap l)) l) w'.
Proof.
  intros [_ Hb] Hw He. split; [done|]. cbn. intros id' s0 Hid Hs.
  destruct (decide (id = id')) as [<-|Hne].
  - rewrite lookup_insert_eq in Hs. by simplify_eq.
  - rewrite lookup_insert_ne in Hs by done. by eapply Hb.
Qed.

Lemma log_inv_disjoint l w lo recs id1 id2 s1 s2 p :
  log_inv l w lo recs -> id1 ∈ l_segments l -> id2 ∈ l_segments l ->
  l_heap l !! id1 = Some s1 -> l_heap l !! id2 = Some s2 -> id1 <> id2 ->
  p ∈ seg_paths s1 -> p ∉ seg_paths s2.
Proof.
  intros (ss & rss & _ & Hch & Hf & _) H1 H2 Hs1 Hs2 Hne.
  apply list_elem_of_lookup in H1 as [i Hi], H2 as [j Hj].
  destruct (Forall2_lookup_l _ _ _ _ _ Hf Hi) as (s1' & Hi' & E1).
  destruct (Forall2_lookup_l _ _ _ _ _ Hf Hj) as (s2' & Hj' & E2). simplify_eq.
  eapply chain_disjoint; [exact Hch|exact Hi'|exact Hj'|congruence].
Qed.

(** An operation on one segment that keeps its bytes and entries keeps the sizes of
    the active one. *)
Lemma active_update l w w' lo recs rs id s s' id0 s0 :
  log_inv l w lo recs -> id ∈ l_segments l -> l_heap l !! id = Some s ->
  seg_step s w s' w' -> store_same (sg_store s) w (sg_store s') w' ->
  seg_inv s w rs -> seg_inv s' w' rs ->
  l_active l = Some id0 -> <[id := s']> (l_heap l) !! id0 = Some s0 ->
  exists s1, l_heap l !! id0 = Some s1 /\ store_content (sg_store s0) w' = store_content (sg_store s1) w /\
    ix_size (sg_index s0) = ix_size (sg_index s1) /\
    (bw_err (s_buf (sg_store s0)) = None -> bw_err (s_buf (sg_store s1)) = None).
Proof.
  intros Hinv Hid Hs Hst Hsame Hi Hi' Ha Hs0. destruct (decide (id = id0)) as [<-|Hne].
  - rewrite lookup_insert_eq in Hs0. injection Hs0 as <-. exists s.
    destruct Hsame as (_ & _ & _ & -> & He).
    rewrite (proj2 (seg_inv_length _ _ _ Hi')), <- (proj2 (seg_inv_length _ _ _ Hi)). by split_and!; auto.
  - rewrite lookup_insert_ne in Hs0 by done. exists s0. split_and!; try done.
    assert (Hid0 : id0 ∈ l_segments l).
    { destruct Hinv as (? & ? & _ & _ & _ & _ & Hact & _). rewrite Ha in Hact. symmetry in Hact.
      by apply last_Some_elem_of in Hact. }
    destruct Hst as (_ & _ & _ & Hfr & _). eapply store_content_frame; [exact Hfr|].
    eapply log_inv_disjoint; [exact Hinv|exact Hid0|exact Hid|exact Hs0|exact Hs|done|].
    unfold seg_paths. set_solver.
Qed.

Lemma log_room_update l w w' lo recs rs id s s' :
  log_inv l w lo recs -> log_room l w -> id ∈ l_segments l -> l_heap l !! id = Some s ->
  seg_step s w s' w' -> store_same (sg_store s) w (sg_store s') w' ->
  seg_inv s w rs -> seg_inv s' w' rs -> log_room (set_heap (<[id := s']> (l_heap l)) l) w'.
Proof.
  intros Hinv Hroom Hid Hs Hst Hsame Hi Hi' id0 s0 Ha Hs0.
  destruct (active_update _ _ _ _ _ _ _ _ _ _ _ Hinv Hid Hs Hst Hsame Hi Hi' Ha Hs0) as (s1 & H1 & Hc & Hx & He).
  destruct (Hroom _ _ Ha H1) as [H2 H3]. cbn [l_Config set_heap]. rewrite Hc, Hx. by split; auto.
Qed.

Lemma log_heavy_update l w w' lo recs rs id s s' :
  log_inv l w lo recs -> log_heavy l w -> id ∈ l_segments l -> l_heap l !! id = Some s ->
  seg_step s w s' w' -> store_same (sg_store s) w (sg_store s') w' ->
  seg_inv s w rs -> seg_inv s' w' rs -> log_heavy (set_heap (<[id := s']> (l_heap l)) l) w'.
Proof.
  intros Hinv Hhv Hid Hs Hst Hsame Hi Hi' id0 s0 Ha Hs0.
  destruct (active_update _ _ _ _ _ _ _ _ _ _ _ Hinv Hid Hs Hst Hsame Hi Hi' Ha Hs0) as (s1 & H1 & Hc & Hx & _).
  cbn [l_Config set_heap]. rewrite Hc, Hx. by apply (Hhv id0).
Qed.

(** [Read], under any failures: an offset of the log gives its record or an
    error, any other offset gives [ErrOffsetOutOfRange] and changes nothing. *)
Lemma Log_Read_spec off l w lo recs o l' w' :
  log_inv l w lo recs -> Log_Read off (l, w) = (o, (l', w')) ->
  log_inv l' w' lo recs /\ l_segments l' = l_segments l /\ l_Dir l' = l_Dir l /\
  l_Config l' = l_Config l /\
  match spec_read lo recs off with
  | Some r => (o = Ok r \/ exists e, o = Err e) /\ (log_good l w -> o = Ok r /\ log_good l' w') /\
      (log_clean l w -> log_clean l' w') /\ (log_heavy l w -> log_heavy l' w')
  | None => o = Err (ErrOffsetOutOfRange off) /\ l' = l /\ w' = w
  end.
Proof.
  intros Hinv Hrun. pose proof Hinv as (ss & rss & -> & Hch & Hf & Hnd & Hact & Hnx & Hcfg).
  unfold Log_Read in Hrun. erewrite bind_Ok in Hrun by reflexivity. cbn [fst snd] in Hrun.
  pose proof (find_segment_spec _ _ _ _ _ _ _ _ off Hch Hf) as Hfind.
  destruct (spec_read lo (concat rss) off) as [r|].
  2:{ rewrite Hfind in Hrun. unfold throw in Hrun. simplify_eq. done. }
  destruct Hfind as (i & id & s & rs & Hfd & Hi & Hs & Hr & Hrange & Hrec).
  assert (Hh : l_heap l !! id = Some s) by (by eapply Forall2_lookup_lr in Hf).
  rewrite Hfd in Hrun. erewrite bind_Ok in Hrun by (by apply get_segment_run).
  destruct (Z.leb_spec (nextOffset s) off); [lia|].
  destruct (segment_Read off (s, w)) as [o1 [s1 w1]] eqn:Hrd.
  erewrite on_segment_run in Hrun by eauto. simplify_eq.
  destruct (chain_lookup _ _ _ _ _ _ _ _ _ Hch Hs Hr) as (Hsi & _).
  eapply segment_Read_spec in Hrd as (Hst & Hsi' & Hnx' & Hsame & Hgood & Hor);
    [|done|lia|done].
  split_and!; auto.
  - by eapply log_inv_update.
  - intros [Hw Hbw]. destruct Hgood as [-> [Hw' Hbw']].
    { split; [done|]. eapply Hbw; [|done]. by eapply list_elem_of_lookup_2. }
    split; [done|]. split; [done|]. cbn. intros id' s' Hid' Hs'.
    destruct (decide (id = id')) as [<-|Hne].
    + rewrite lookup_insert_eq in Hs'. by simplify_eq.
    + rewrite lookup_insert_ne in Hs' by done. by eapply Hbw.
  - intros (Hl & Hfi & Hro). pose proof (list_elem_of_lookup_2 _ _ _ Hi) as Hin.
    split; [done|]. split; [by eapply log_files_update|]. by eapply log_room_update.
  - intros Hhv. pose proof (list_elem_of_lookup_2 _ _ _ Hi) as Hin. by eapply log_heavy_update.
Qed.

(** The offsets of a log are 64-bit. *)
Lemma log_inv_range l w lo recs :
  log_inv l w lo recs -> 0 <= lo /\ lo + Z.of_nat (length recs) < 2 ^ 64.
Proof.
  intros Hinv. split.
  - destruct Hinv as (ss & rss & _ & Hch & _).
    destruct Hch as [? ? ? (Hi & _ & Hb & _)|? ? ? ? ? (Hi & _ & Hb & _)]; rewrite <- Hb; apply Hi.
  - destruct (log_inv_last _ _ _ _ Hinv) as
      (? & ? & ? & s & ? & rs & _ & _ & _ & _ & _ & _ & _ & Hi & _ & Hnext).
    rewrite <- Hnext, (si_next _ _ _ Hi). apply Hi.
Qed.

Lemma log_inv_config l w lo recs : log_inv l w lo recs -> config_ok (l_Config l).
Proof. by intros (ss & rss & _ & _ & _ & _ & _ & _ & H). Qed.

(** A log whose active segment has records has no empty segment. *)
Lemma log_inv_full l w lo recs id s :
  log_inv l w lo recs -> l_active l = Some id -> l_heap l !! id = Some s ->
  baseOffset s < nextOffset s -> all_full l.
Proof.
  intros Hinv Ha Hs Hlt id' s' Hid' Hs'.
  destruct (log_inv_last _ _ _ _ Hinv) as
    (ids & id0 & ss & s0 & rss & rs & Hids & Hact & Hs0 & -> & Hch & Hf & Hni & Hi & Hcfg & Hnext).
  simplify_eq. eapply chain_full; [exact Hch| |].
  - intros rs' Hrs'. rewrite last_snoc in Hrs'. injection Hrs' as <-. intros ->.
    pose proof (si_next _ _ _ Hi) as Hn. cbn in Hn. lia.
  - rewrite Hids in Hid'. apply elem_of_app in Hid' as [Hid'|Hid'].
    + apply list_elem_of_lookup in Hid' as [i Hi'].
      destruct (Forall2_lookup_l _ _ _ _ _ Hf Hi') as (s1 & Hs1 & E). simplify_eq.
      apply elem_of_app. left. by eapply list_elem_of_lookup_2.
    + apply list_elem_of_singleton in Hid' as ->. simplify_eq. set_solver.
Qed.

(** The rollover of [Append]: the records stay, whether or not the next segment
    could be created. *)
Lemma Log_rollover_spec {A} (a : A) l w lo recs o l' w' :
  let base := lo + Z.of_nat (length recs) in
  log_inv l w lo recs -> log_files l w -> is_u64 base -> all_full l ->
  1 <= MaxStoreBytes (Segment (l_Config l)) <= 2 ^ 47 ->
  (Log_newSegment base;; mret a) (l, w) = (o, (l', w')) ->
  l_Config l' = l_Config l /\ l_Dir l' = l_Dir l /\ log_inv l' w' lo recs /\
  match o with
  | Ok a' => a' = a /\ log_clean l' w' /\ (log_good l w -> log_good l' w') /\ log_heavy l' w'
  | Err _ => healthy w -> False
  | Panic _ => False
  end.
Proof.
  intros base Hinv Hfiles Hu Hfull Hlim Hrun.
  destruct (Log_newSegment base (l, w)) as [o2 [l2 w2]] eqn:Hnew.
  pose proof Hnew as Hnew'. eapply Log_newSegment_spec in Hnew' as [Hh2 Ho2]; [|done..].
  destruct o2 as [[]|e|]; [| |done].
  - rewrite (bind_Ok _ _ _ _ _ Hnew) in Hrun. unfold mret, M_ret in Hrun. simplify_eq.
    destruct Ho2 as (Hinv2 & Hfiles2 & Hc2 & Hd2 & Hr2 & Hg2 & Hh2'). split_and!; try done.
    unfold log_clean. rewrite Hc2. split_and!; try done; try lia. apply Hr2, Hlim.
  - rewrite (bind_Err _ _ _ _ _ Hnew) in Hrun. simplify_eq. by destruct Ho2 as (-> & Hinv2 & Hno).
Qed.

(** A segment below its limits has room for an entry when its records are heavy. *)
Lemma heavy_room s w rs c :
  seg_inv s w rs -> sg_config s = c -> config_ok c -> 1 <= MaxStoreBytes (Segment c) ->
  min_frame c * ix_size (sg_index s) <= 12 * Z.of_nat (length (store_content (sg_store s) w)) ->
  Z.of_nat (length (store_content (sg_store s) w)) < MaxStoreBytes (Segment c) ->
  ix_size (sg_index s) < MaxIndexBytes (Segment c) ->
  12 * Z.of_nat (length rs) + 12 <= ix_mmap_len (sg_index s).
Proof.
  intros Hi <- Hcfg HS Hh Hst Hlt. pose proof (seg_inv_length _ _ _ Hi) as [_ Hsz].
  rewrite (si_mmap _ _ _ Hi). rewrite Hsz in *.
  destruct (Z.le_gt_cases (12 * Z.of_nat (length rs) + 12) (MaxIndexBytes (Segment (sg_config s)))); [done|].
  pose proof (min_frame_full (sg_config s) (Z.of_nat (length rs)) Hcfg HS ltac:(lia) ltac:(lia)). lia.
Qed.

(** [Append] on the active segment. *)
Lemma active_Append_spec r l w lo recs id :
  let off := lo + Z.of_nat (length recs) in
  log_inv l w lo recs -> log_clean l w -> record_wf r -> off + 1 < 2 ^ 64 -> l_active l = Some id ->
  exists o s1 w1, on_segment id (segment_Append (Some r)) (l, w) = (o, (set_heap (<[id := s1]> (l_heap l)) l, w1)) /\
  let l1 := set_heap (<[id := s1]> (l_heap l)) l in
  match o with
  | Ok off' => off' = off /\ log_inv l1 w1 lo (recs ++ [set_Offset off r]) /\ log_files l1 w1 /\
      (log_good l w -> log_good l1 w1) /\ baseOffset s1 < nextOffset s1 /\ (IsMaxed s1 = false -> log_room l1 w1) /\
      (log_heavy l w -> fits (min_frame (l_Config l)) r -> log_heavy l1 w1)
  | Err _ => log_inv l1 w1 lo recs /\ (log_good l w -> log_heavy l w -> False)
  | Panic _ => False
  end.
Proof.
  intros off Hinv (Hlim & Hfiles & Hroom) Hwf Hoff Hact.
  destruct (log_inv_last _ _ _ _ Hinv) as
    (ids & id' & ss & s & rss & rs & Hids & Hact' & Hs & -> & Hch & Hf & Hni & Hi & Hcfg & Hnext). simplify_eq.
  assert (Hin : id ∈ l_segments l) by (rewrite Hids; set_solver).
  destruct (Hroom _ _ Hact Hs) as [Hroom1 Hroom2].
  destruct (segment_Append (Some r) (s, w)) as [o1 [s1 w1]] eqn:Ha.
  exists o1, s1, w1. split; [by apply on_segment_run with s|].
  eapply segment_Append_spec in Ha as [Hst Ho1]; [|done|done|unfold off in Hoff; lia|].
  2:{ intros He. specialize (Hroom1 He). lia. }
  destruct o1 as [off1|e|]; [| |done].
  2:{ destruct Ho1 as [Hi1 Hgood]. split; [by eapply log_inv_update_last|].
      intros [Hw Hb] Hhv. destruct Hgood as (_ & Hlt & _); [split; [done|]; by eapply Hb|].
      pose proof (heavy_room _ _ _ _ Hi Hcfg (log_inv_config _ _ _ _ Hinv) (proj1 Hlim) (Hhv _ _ Hact Hs)
        (Hroom1 (Hb _ _ Hin Hs)) Hroom2). lia. }
  destruct Ho1 as (-> & Hi1 & Hbe0 & Hbe1 & Hmm & p & Hp & Hpl & Hcont). rewrite Hnext in *. fold off in Hi1 |- *.
  pose proof (proj2 (seg_inv_length _ _ _ Hi)) as Hsz. pose proof (proj2 (seg_inv_length _ _ _ Hi1)) as Hsz1.
  split_and!; [done|rewrite <- app_assoc; by eapply log_inv_update_last|by eapply log_files_update| | | |].
  - intros Hg. eapply log_good_update; [done| |done]. apply Hst, Hg.
  - rewrite (si_next _ _ _ Hi1). len.
  - intros Hmax id0 s0 Ha0 Hs0. cbn in Ha0, Hs0 |- *. simplify_eq. rewrite lookup_insert_eq in Hs0. simplify_eq.
    destruct Hst as (_ & _ & Hc & _). rewrite <- Hcfg, <- Hc. eapply IsMaxed_room; [done| |done].
    rewrite Hcont, length_app, length_frame. specialize (Hroom1 Hbe0). lia.
  - intros Hhv Hft id0 s0 Ha0 Hs0. cbn in Ha0, Hs0 |- *. simplify_eq. rewrite lookup_insert_eq in Hs0. simplify_eq.
    specialize (Hhv _ _ Hact Hs). assert (Hu : is_u64 off) by (pose proof (log_inv_range _ _ _ _ Hinv); unfold is_u64, off in *; lia).
    specialize (Hft off p Hu Hp). rewrite Hsz1, Hcont, !length_app, length_frame. cbn [length]. nia.
Qed.

(** [Append], under any failures: success puts the record at the end of the
    log; a failure loses no record, though the new record may already be in
    place when only the next segment could not be created.  On a working disk,
    with heavy records, it succeeds. *)
Lemma Log_Append_spec r l w lo recs o l' w' :
  let off := lo + Z.of_nat (length recs) in
  log_inv l w lo recs -> log_clean l w -> record_wf r -> off + 1 < 2 ^ 64 ->
  Log_Append (Some r) (l, w) = (o, (l', w')) ->
  l_Config l' = l_Config l /\ l_Dir l' = l_Dir l /\
  match o with
  | Ok off' => off' = off /\ log_inv l' w' lo (recs ++ [set_Offset off r]) /\ log_clean l' w' /\
      (log_good l w -> log_good l' w') /\
      (log_heavy l w -> fits (min_frame (l_Config l)) r -> log_heavy l' w')
  | Err _ => (log_inv l' w' lo recs \/ log_inv l' w' lo (recs ++ [set_Offset off r])) /\
      (log_good l w -> log_heavy l w -> False)
  | Panic _ => False
  end.
Proof.
  intros off Hinv Hcl Hwf Hoff Hrun. pose proof (log_inv_range _ _ _ _ Hinv) as [Hlo _].
  destruct (log_inv_last _ _ _ _ Hinv) as (_ & id & _ & _ & _ & _ & _ & Hact & _).
  destruct (active_Append_spec r l w lo recs id Hinv Hcl Hwf Hoff Hact) as (o1 & s1 & w1 & Hon & Ho1).
  set (l1 := set_heap (<[id := s1]> (l_heap l)) l) in *.
  unfold Log_Append in Hrun. erewrite bind_Ok in Hrun by reflexivity. cbn [fst snd] in Hrun. rewrite Hact in Hrun.
  destruct o1 as [off1|e|]; [| |done].
  2:{ rewrite (bind_Err _ _ _ _ _ Hon) in Hrun. simplify_eq. destruct Ho1 as [Hi1 Hgood]. by split_and!; auto. }
  destruct Ho1 as (-> & Hinv1 & Hfiles1 & Hgood1 & Hlt & Hroom1 & Hheavy1).
  rewrite (bind_Ok _ _ _ _ _ Hon) in Hrun. fold off in Hrun, Hinv1 |- *.
  assert (Hs1 : l_heap l1 !! id = Some s1) by apply lookup_insert_eq.
  erewrite bind_Ok in Hrun by (by apply get_segment_run).
  destruct Hcl as (Hlim & _). destruct (IsMaxed s1) eqn:Hmax.
  - replace (off +64 1) with (lo + Z.of_nat (length (recs ++ [set_Offset off r]))) in Hrun
      by (unfold off in *; rewrite u64_small by in_range; len).
    assert (Hu : is_u64 (lo + Z.of_nat (length (recs ++ [set_Offset off r])))) by (unfold is_u64, off in *; len).
    pose proof (log_inv_full _ _ _ _ _ _ Hinv1 Hact Hs1 Hlt) as Hfull.
    apply (Log_rollover_spec _ _ _ _ _ _ _ _ Hinv1 Hfiles1 Hu Hfull Hlim) in Hrun as (Hc2 & Hd2 & Hinv2 & Ho2).
    split; [done|]. split; [done|]. destruct o as [off'|e|]; [|split; [by right|]|done].
    + destruct Ho2 as (-> & Hcl2 & Hg2 & Hh2). by split_and!; auto.
    + intros Hg _. by apply Ho2, Hgood1.
  - unfold mret, M_ret in Hrun. simplify_eq. do 4 (split; [done|]). split; [|done]. split; [done|]. split; [done|by apply Hroom1].
Qed.
End chain.
