(* ===== verification/LogReopen.v ===== *)
(** Closing a log and opening its directory again: [Log.Close], [Log.setup]
    and [NewLog] of [internal/log/log.go].

    [disk_chain] is the state of the files between the two; [Log_Close_spec]
    reaches it from a represented log and [NewLog_spec] leads back. *)

From stdpp Require Import sorting.
From S2P Require Import Prelude Endian OS Proto Config Store Index Names Segment Log LogInv.

(** The base offsets of consecutive segments that hold [rss]. *)
Fixpoint bases {A} (lo : Z) (rss : list (list A)) : list Z :=
  match rss with
  | [] => []
  | rs :: rss => lo :: bases (lo + Z.of_nat (length rs)) rss
  end.

Definition seg_names (dir : string) (b : Z) : list path := [(dir, store_name b); (dir, index_name b)].
Definition double (bs : list Z) : list Z := bs ≫= (fun b => [b; b]).

Section names.
Implicit Types (w : world) (bs : list Z) (dir : string).

(** The directory holds the two files of every base offset and nothing else. *)
Definition dir_exact w dir bs : Prop :=
  forall n, is_Some (w_fs w !! (dir, n)) <-> exists b, b ∈ bs /\ (n = store_name b \/ n = index_name b).

Lemma elem_of_dir_files w dir n : n ∈ dir_files dir w <-> is_Some (w_fs w !! (dir, n)).
Proof.
  unfold dir_files. rewrite list_elem_of_fmap. split.
  - intros ([[d n'] b] & -> & Hin). apply elem_of_map_to_list, map_lookup_filter_Some in Hin as [H E].
    cbn in *. subst d. by eexists.
  - intros [b Hb]. exists ((dir, n), b). split; [done|].
    by apply elem_of_map_to_list, map_lookup_filter_Some.
Qed.

Lemma NoDup_dir_files w dir : NoDup (dir_files dir w).
Proof.
  unfold dir_files. apply NoDup_fmap_2_strong; [|apply NoDup_map_to_list].
  intros [[d1 n1] b1] [[d2 n2] b2] H1 H2 E. cbn in E. subst n2.
  apply elem_of_map_to_list, map_lookup_filter_Some in H1 as [H1 E1], H2 as [H2 E2].
  cbn in *. subst d1 d2. by simplify_eq.
Qed.

(** The base offsets [setup] reads from such a directory, each twice. *)
Lemma dir_offsets w dir bs :
  dir_exact w dir bs -> Forall is_u64 bs -> NoDup bs ->
  name_offset <$> dir_files dir w ≡ₚ double bs.
Proof.
  intros Hex Hu Hnd. rewrite list.Forall_forall in Hu.
  assert (Hp : dir_files dir w ≡ₚ (bs ≫= fun b => [store_name b; index_name b])).
  { apply NoDup_Permutation; [apply NoDup_dir_files| |].
    - apply NoDup_bind; [| |done].
      + intros b1 b2 n H1 H2 Hn1 Hn2. set_unfold.
        destruct Hn1 as [->|[->|[]]], Hn2 as [E|[E|[]]].
        * apply store_name_inj; [apply Hu; done..|done].
        * by apply store_index_name_ne in E.
        * symmetry in E. by apply store_index_name_ne in E.
        * apply index_name_inj; [apply Hu; done..|done].
      + intros b _. apply list.NoDup_cons; split; [|apply NoDup_singleton].
        intros Hin%list_elem_of_singleton. by apply store_index_name_ne in Hin.
    - intros n. rewrite elem_of_dir_files, (Hex n). set_solver. }
  rewrite Hp. unfold double. clear Hex Hp Hnd. induction bs as [|b bs IH]; [done|].
  rewrite !bind_cons, fmap_app, !fmap_cons, fmap_nil.
  rewrite name_offset_store, name_offset_index by (apply Hu; set_solver).
  rewrite IH; [done|]. intros; apply Hu; set_solver.
Qed.

Lemma sort_double bs l :
  Sorted Z.lt bs -> l ≡ₚ double bs -> sort_offsets l = double bs.
Proof.
  intros Hs Hp. unfold sort_offsets. apply (Sorted_unique Z.le).
  - apply (Sorted_merge_sort _).
  - apply StronglySorted_Sorted. apply (Sorted_StronglySorted _) in Hs. unfold double. clear Hp.
    induction Hs as [|b bs Hs IH Hb]; [constructor|]. rewrite bind_cons. cbn [app].
    rewrite list.Forall_forall in Hb.
    assert (forall x, x ∈ double bs -> b <= x).
    { intros x Hx. unfold double in Hx. set_unfold. destruct Hx as (y & Hy & Hyin).
      assert (x = y) as -> by naive_solver. specialize (Hb _ Hyin). lia. }
    constructor; [constructor; [done|]|]; apply list.Forall_forall; [exact H|].
    intros x Hx. apply elem_of_cons in Hx as [->|Hx]; [lia|by apply H].
  - by rewrite merge_sort_Permutation.
Qed.
End names.

Lemma bases_ge {A} lo (rss : list (list A)) b : b ∈ bases lo rss -> lo <= b.
Proof.
  revert lo. induction rss as [|rs rss IH]; intros lo Hb; cbn in Hb; [by apply not_elem_of_nil in Hb|].
  apply elem_of_cons in Hb as [->|Hb]; [lia|]. apply IH in Hb. lia.
Qed.

Section reopen.
Context `{Hmsg : ProtoMessage record} {Hlaws : ProtoLaws record record_wf}.
Implicit Types (w : world) (c : Config) (dir : string) (rss : list (list record)).

(** The closed segment that holds [rs] from [lo] on, within the limits. *)
Definition disk_ok w dir c (lo : Z) (rs : list record) : Prop :=
  disk_seg w dir lo rs /\ is_u64 lo /\ lo + Z.of_nat (length rs) < 2 ^ 64 /\
  12 * Z.of_nat (length rs) <= MaxIndexBytes (Segment c).

(** Consecutive closed segments. *)
Inductive disk_chain w dir c : Z -> list (list record) -> Prop :=
| disk_last lo rs : disk_ok w dir c lo rs -> disk_chain w dir c lo [rs]
| disk_cons lo rs rss : disk_ok w dir c lo rs -> rs <> [] ->
    disk_chain w dir c (lo + Z.of_nat (length rs)) rss -> disk_chain w dir c lo (rs :: rss).

Lemma seg_names_disjoint dir b b' p :
  is_u64 b -> is_u64 b' -> b <> b' -> p ∈ seg_names dir b -> p ∉ seg_names dir b'.
Proof.
  unfold seg_names. intros H1 H2 Hne Hp Hp2. set_unfold.
  destruct Hp as [->|[->|[]]], Hp2 as [E|[E|[]]]; injection E as E.
  - eauto using store_name_inj.
  - by eapply store_index_name_ne.
  - by eapply store_index_name_ne.
  - eauto using index_name_inj.
Qed.

Lemma seg_files_paths s dir : seg_files s dir -> seg_paths s = seg_names dir (baseOffset s).
Proof. intros [H1 H2]. unfold seg_paths, seg_names. by rewrite H1, H2. Qed.

Lemma disk_ok_frame ps w w' dir c lo rs :
  fs_frame ps w w' -> (forall p, p ∈ seg_names dir lo -> p ∉ ps) ->
  disk_ok w dir c lo rs -> disk_ok w' dir c lo rs.
Proof.
  intros Hf Hn (Hd & Hr). split; [|done]. unfold seg_names in Hn.
  eapply disk_seg_frame; [done| | |done]; apply Hn; set_solver.
Qed.

Lemma disk_chain_bases w dir c lo rss :
  disk_chain w dir c lo rss -> Forall is_u64 (bases lo rss) /\ Sorted Z.lt (bases lo rss) /\ rss <> [].
Proof.
  induction 1 as [lo rs (_ & Hu & _)|lo rs rss (_ & Hu & _) Hne Hch (IH1 & IH2 & _)]; cbn.
  - split_and!; [constructor; [done|constructor]|repeat constructor|done].
  - split_and!; [by constructor| |done]. constructor; [done|].
    destruct rss; cbn; constructor. destruct rs; [done|]. cbn. lia.
Qed.

Lemma disk_chain_tail w dir c lo (rs : list record) rss b p :
  is_u64 lo -> rs <> [] -> disk_chain w dir c (lo + Z.of_nat (length rs)) rss ->
  b ∈ bases (lo + Z.of_nat (length rs)) rss ->
  (p ∈ seg_names dir lo -> p ∉ seg_names dir b) /\ (p ∈ seg_names dir b -> p ∉ seg_names dir lo).
Proof.
  intros Hu Hne Hch Hb. destruct (disk_chain_bases _ _ _ _ _ Hch) as (Hf & _ & _).
  assert (Hub : is_u64 b) by (by eapply list.Forall_forall in Hf).
  apply bases_ge in Hb. assert (lo <> b) by (destruct rs; [done|]; cbn in Hb; lia).
  split; by apply seg_names_disjoint.
Qed.

Lemma disk_chain_frame ps w w' dir c lo rss :
  fs_frame ps w w' -> (forall b p, b ∈ bases lo rss -> p ∈ seg_names dir b -> p ∉ ps) ->
  disk_chain w dir c lo rss -> disk_chain w' dir c lo rss.
Proof.
  intros Hf Hn Hch. induction Hch as [lo rs Hs|lo rs rss Hs Hne Hch IH]; cbn in Hn.
  - constructor. eapply disk_ok_frame; [done| |done]. intros p. apply Hn. set_solver.
  - constructor; [|done|].
    + eapply disk_ok_frame; [done| |done]. intros p. apply Hn. set_solver.
    + apply IH. intros b p Hb. apply Hn. set_solver.
Qed.

(** The base offsets of a chain of open segments. *)
Lemma chain_bases_eq w dir c lo ss rss :
  chain w dir c lo ss rss -> baseOffset <$> ss = bases lo rss.
Proof. induction 1 as [lo s rs (_ & _ & Hb & _)|lo s rs ss rss (_ & _ & Hb & _) Hne Hch IH]; cbn; by rewrite Hb, ?IH. Qed.

Lemma chain_disk_facts w dir c lo s rs :
  seg_rep w dir c lo s rs -> is_u64 lo /\ lo + Z.of_nat (length rs) < 2 ^ 64 /\
  12 * Z.of_nat (length rs) <= MaxIndexBytes (Segment c).
Proof.
  intros (Hi & _ & <- & <-). pose proof (seg_inv_length _ _ _ Hi) as [Hl _].
  rewrite (si_mmap _ _ _ Hi) in Hl. destruct Hi. unfold is_u64. lia.
Qed.

(** ** Close *)

Lemma close_segments_spec w dir c lo ss rss l ids :
  chain w dir c lo ss rss -> Forall2 (fun id s => l_heap l !! id = Some s) ids ss -> NoDup ids ->
  healthy w -> (forall s, s ∈ ss -> bw_err (s_buf (sg_store s)) = None) ->
  exists h' w', close_segments ids (l, w) = (Ok tt, (set_heap h' l, w')) /\ healthy w' /\
    fs_frame (ss ≫= seg_paths) w w' /\ disk_chain w' dir c lo rss /\
    forall s, s ∈ ss -> fcontent w' (dir, store_name (baseOffset s)) = store_content (sg_store s) w.
Proof.
  intros Hch. revert l ids w Hch. revert lo rss. induction ss as [|s ss IH]; intros lo rss l ids w Hch Hf Hnd Hw Hb.
  { by apply chain_nonempty in Hch. }
  apply Forall2_cons_inv_r in Hf as (id & ids' & Hid & Hf & ->).
  apply list.NoDup_cons in Hnd as [Hni Hnd].
  destruct (chain_uncons _ _ _ _ _ _ _ Hch) as (rs & rss' & -> & Hs & Htl).
  pose proof (chain_disk_facts _ _ _ _ _ _ Hs) as Hfacts.
  pose proof Hs as (Hi & Hfl & Hbase & Hcfg).
  destruct (segment_Close_spec s w rs dir Hi) as (s' & w1 & Hrun & Hw1 & (Hp & _ & _ & Hfr & _) & _ & Hd & Hc & _);
    [split; [done|]; apply Hb; set_solver|done|].
  set (l1 := set_heap (<[id := s']> (l_heap l)) l).
  assert (Hon : on_segment id segment_Close (l, w) = (Ok tt, (l1, w1))) by (by eapply on_segment_run).
  rewrite Hbase in Hd. assert (Hdk : disk_ok w1 dir c lo rs) by (by split).
  assert (Hcs : fcontent w1 (dir, store_name (baseOffset s)) = store_content (sg_store s) w).
  { rewrite <- Hc. f_equal. symmetry. apply Hfl. }
  cbn [close_segments]. rewrite (bind_Ok _ _ _ _ _ Hon).
  destruct Htl as [[-> ->]|[Hne Htl]].
  { apply Forall2_nil_inv_r in Hf as ->. exists (<[id := s']> (l_heap l)), w1.
    split_and!; [done|done| |by constructor|].
    - by rewrite bind_singleton.
    - intros s0 Hs0. apply list_elem_of_singleton in Hs0 as ->. done. }
  assert (Hdis := fun s1 p => chain_tail_disjoint _ _ _ _ _ _ _ _ s1 p Hs Hne Htl).
  assert (Htl1 : chain w1 dir c (lo + Z.of_nat (length rs)) ss rss').
  { eapply chain_frame; [exact Hfr| |exact Htl]. intros s1 p H1. apply Hdis, H1. }
  assert (Hf1 : Forall2 (fun id0 s => l_heap l1 !! id0 = Some s) ids' ss).
  { by apply heap_tail. }
  destruct (IH _ _ l1 ids' w1 Htl1 Hf1 Hnd Hw1) as (h' & w' & Hrun' & Hw' & Hfr' & Hdc & Hcc).
  { intros. apply Hb. set_solver. }
  assert (Hnot : forall p, p ∈ seg_paths s -> p ∉ (ss ≫= seg_paths)).
  { intros p Hp1 Hp2. apply list_elem_of_bind in Hp2 as (s1 & Hp2 & Hs1).
    by eapply (proj2 (Hdis s1 p Hs1)). }
  exists h', w'. split; [exact Hrun'|]. split; [done|]. rewrite (seg_files_paths _ _ Hfl), Hbase in Hnot.
  split_and!.
  - rewrite bind_cons. eapply fs_frame_trans; eapply fs_frame_mono; [|exact Hfr| |exact Hfr']; set_solver.
  - constructor; [|done|done]. eapply disk_ok_frame; [exact Hfr'|exact Hnot|done].
  - intros s1 Hs1. apply elem_of_cons in Hs1 as [->|Hs1].
    + rewrite <- Hcs. eapply fs_frame_content; [exact Hfr'|]. rewrite Hbase. apply Hnot. set_solver.
    + rewrite Hcc by done. eapply store_content_frame; [exact Hfr|]. apply (Hdis s1); set_solver.
Qed.

(** ** Opening *)

(** [Log.newSegment] for all of [ss]. *)
Definition push_all (ss : list segment) (l : Log) : Log := foldl (fun l s => push_segment s l) l ss.

Lemma push_all_spec ss l :
  (forall id, is_Some (l_heap l !! id) -> (id < l_next l)%nat) ->
  let l' := push_all ss l in
  l_segments l' = l_segments l ++ seq (l_next l) (length ss) /\
  Forall2 (fun id s => l_heap l' !! id = Some s) (seq (l_next l) (length ss)) ss /\
  (forall id, (id < l_next l)%nat -> l_heap l' !! id = l_heap l !! id) /\
  (forall id, is_Some (l_heap l' !! id) -> (id < l_next l')%nat) /\
  (ss <> [] -> l_active l' = list.last (l_segments l')) /\
  l_Dir l' = l_Dir l /\ l_Config l' = l_Config l.
Proof.
  revert l. induction ss as [|s ss IH]; intros l Hnx; cbn.
  { rewrite app_nil_r. by split_and!. }
  destruct (IH (push_segment s l)) as (H1 & H2 & H3 & H4 & H5 & H6 & H7); [by apply push_heap_lt|].
  cbn in H1, H2, H3. fold (push_all ss (push_segment s l)).
  split_and!; auto.
  - by rewrite H1, <- (assoc_L (++)).
  - constructor; [|done]. rewrite H3 by lia. apply lookup_insert_eq.
  - intros id Hid. rewrite H3 by lia. apply lookup_insert_ne. lia.
  - intros _. destruct ss as [|s' ss]; [|by apply H5]. cbn. by rewrite last_snoc.
Qed.

Lemma open_one w dir c lo rs l :
  disk_ok w dir c lo rs -> healthy w -> dir ∈ w_dirs w -> l_Dir l = dir -> l_Config l = c -> config_ok c ->
  exists s w', Log_newSegment lo (l, w) = (Ok tt, (push_segment s l, w')) /\
  seg_rep w' dir c lo s rs /\ healthy w' /\ fs_frame (seg_names dir lo) w w' /\
  bw_err (s_buf (sg_store s)) = None /\
  store_content (sg_store s) w' = fcontent w (dir, store_name lo) /\
  forall p, p ∈ seg_names dir lo -> is_Some (w_fs w' !! p).
Proof.
  intros (Hd & Hu & Hb & Hfit) Hw Hdir HD HC Hcfg.
  destruct (newSegment_spec dir lo c w rs Hcfg Hu Hb Hfit Hd) as (o & w' & Hrun & Hfr & Hh & Ho).
  destruct o as [s|e|]; [|by exfalso; apply Ho|done].
  destruct Ho as (Hi & Hf & Hbase & Hc & Hbe & Hcont & He1 & He2).
  exists s, w'. split.
  { unfold Log_newSegment. erewrite bind_Ok by reflexivity. cbn [fst snd]. rewrite HD, HC.
    unfold mbind, M_bind, log_disk, zoom. cbn [fst snd]. rewrite Hrun. reflexivity. }
  split_and!; auto.
  - by split_and!.
  - unfold seg_names. intros p Hp. set_unfold. by destruct Hp as [->|[->|[]]].
Qed.

Lemma open_segments_spec w dir c lo rss l :
  disk_chain w dir c lo rss -> healthy w -> dir ∈ w_dirs w -> l_Dir l = dir -> l_Config l = c ->
  config_ok c ->
  exists ss w', open_segments (double (bases lo rss)) (l, w) = (Ok tt, (push_all ss l, w')) /\
  chain w' dir c lo ss rss /\ healthy w' /\ fs_frame (bases lo rss ≫= seg_names dir) w w' /\
  (forall s, s ∈ ss -> bw_err (s_buf (sg_store s)) = None /\
  store_content (sg_store s) w' = fcontent w (dir, store_name (baseOffset s)) /\
  forall p, p ∈ seg_paths s -> is_Some (w_fs w' !! p)).
Proof.
  intros Hch. revert l w Hch. revert lo.
  induction rss as [|rs rss IH]; intros lo l w Hch Hw Hdir HD HC Hcfg; [inversion Hch|].
  assert (Hhd : disk_ok w dir c lo rs) by (by inversion Hch).
  destruct (open_one w dir c lo rs l Hhd Hw Hdir HD HC Hcfg) as
    (s & w1 & Hrun & Hs & Hw1 & Hfr & Hbe & Hcont & Hex).
  pose proof Hs as (_ & Hfl & Hbase & _). pose proof (seg_files_paths _ _ Hfl) as Hpaths.
  rewrite Hbase in Hpaths. rewrite <- Hpaths in Hex, Hfr.
  unfold double. cbn [bases]. rewrite bind_cons. cbn [app open_segments].
  rewrite (bind_Ok _ _ _ _ _ Hrun). fold (double (bases (lo + Z.of_nat (length rs)) rss)).
  inversion Hch as [? ? Hx|? ? ? _ Hne Htl]; subst.
  { exists [s], w1. split; [done|]. split; [by constructor|]. split; [done|]. split.
    - change (bases _ []) with (@nil Z). rewrite bind_singleton, <- Hpaths. done.
    - intros s0 Hs0. apply list_elem_of_singleton in Hs0 as ->. by split_and!. }
  assert (Hu : is_u64 (baseOffset s)) by apply Hhd.
  assert (Hdis := fun b p => disk_chain_tail _ _ _ _ _ _ b p Hu Hne Htl).
  rewrite <- (seg_files_paths _ _ Hfl) in Hdis.
  destruct (IH (baseOffset s + Z.of_nat (length rs)) (push_segment s l) w1) as (ss & w' & Hrun' & Hch' & Hw' & Hfr' & Hss); auto.
  { eapply disk_chain_frame; [exact Hfr| |exact Htl]. intros b p Hb. by apply Hdis. }
  { by rewrite (fs_frame_dirs _ _ _ Hfr). }
  assert (Hnot : forall p, p ∈ seg_paths s ->
            p ∉ (bases (baseOffset s + Z.of_nat (length rs)) rss ≫= seg_names (l_Dir l))).
  { intros p Hp1 Hp2. apply list_elem_of_bind in Hp2 as (b & Hp2 & Hb). by eapply (proj1 (Hdis b p Hb)). }
  exists (s :: ss), w'. split; [exact Hrun'|]. split.
  { constructor; [|done|done]. eapply seg_rep_frame; [exact Hfr'|exact Hnot|done]. }
  split; [done|]. split.
  { rewrite bind_cons, <- Hpaths.
    eapply fs_frame_trans; eapply fs_frame_mono; [|exact Hfr| |exact Hfr']; set_solver. }
  intros s0 Hs0. apply elem_of_cons in Hs0 as [->|Hs0].
  - split_and!; [done| |].
    + rewrite <- Hcont. eapply store_content_frame; [exact Hfr'|]. apply Hnot. set_solver.
    + intros p Hp. apply (fs_frame_some _ _ _ Hfr'). by apply Hex.
  - destruct (Hss _ Hs0) as (H1 & H2 & H3). split_and!; [done| |done].
    rewrite H2. eapply fs_frame_content; [exact Hfr|].
    apply (Hdis (baseOffset s0)); [|unfold seg_names; set_solver].
    rewrite <- (chain_bases_eq _ _ _ _ _ _ Hch'). by apply list_elem_of_fmap_2.
Qed.

(** ** The whole cycle *)

(** A log that holds [recs] from [lo] on, with nothing else in its directory,
    on a working disk. *)
Definition log_ready (l : Log) w (lo : Z) (recs : list record) : Prop :=
  log_inv l w lo recs /\ log_clean l w /\ log_good l w.

(** Such a log whose records are heavy enough that it cannot get stuck. *)
Definition log_fit (l : Log) w (lo : Z) (recs : list record) : Prop := log_ready l w lo recs /\ log_heavy l w.

Lemma log_dir_exact l w lo ss rss :
  chain w (l_Dir l) (l_Config l) lo ss rss ->
  Forall2 (fun id s => l_heap l !! id = Some s) (l_segments l) ss ->
  log_files l w -> dir_exact w (l_Dir l) (bases lo rss).
Proof.
  intros Hch Hf [_ Hex Hst] n. rewrite <- (chain_bases_eq _ _ _ _ _ _ Hch). split.
  - intros Hn. apply Hex in Hn as (id & s & Hid & Hs & Hor). exists (baseOffset s). split; [|done].
    apply list_elem_of_lookup in Hid as [i Hi].
    destruct (Forall2_lookup_l _ _ _ _ _ Hf Hi) as (s' & Hs' & E). simplify_eq.
    apply list_elem_of_fmap_2. by eapply list_elem_of_lookup_2.
  - intros (b & Hb & Hor). apply list_elem_of_fmap in Hb as (s & -> & Hs).
    destruct (chain_bases _ _ _ _ _ _ _ Hch Hs) as (_ & _ & Hfl).
    apply list_elem_of_lookup in Hs as [i Hi].
    destruct (Forall2_lookup_r _ _ _ _ _ Hf Hi) as (id & Hid & Hh).
    eapply Hst; [by eapply list_elem_of_lookup_2|exact Hh|].
    rewrite (seg_files_paths _ _ Hfl). unfold seg_names. destruct Hor as [->| ->]; set_solver.
Qed.

(** The log of freshly opened segments. *)
Lemma ready_of_chain w dir c lo ss rss :
  chain w dir c lo ss rss -> dir ∈ w_dirs w -> healthy w -> config_ok c ->
  1 <= MaxStoreBytes (Segment c) <= 2 ^ 47 -> dir_exact w dir (bases lo rss) ->
  (forall s, s ∈ ss -> bw_err (s_buf (sg_store s)) = None) ->
  (forall s, list.last ss = Some s ->
     Z.of_nat (length (store_content (sg_store s) w)) < MaxStoreBytes (Segment c) /\
     ix_size (sg_index s) < MaxIndexBytes (Segment c)) ->
  log_ready (push_all ss (mkLog dir c ∅ 0 None [])) w lo (concat rss) /\
  ((forall s, list.last ss = Some s ->
      min_frame c * ix_size (sg_index s) <= 12 * Z.of_nat (length (store_content (sg_store s) w))) ->
   log_heavy (push_all ss (mkLog dir c ∅ 0 None [])) w).
Proof.
  intros Hch Hdir Hw Hcfg Hlim Hex Hbe Hroom.
  set (l0 := mkLog dir c ∅ 0 None []).
  destruct (push_all_spec ss l0) as (H1 & H2 & _ & H4 & H5 & H6 & H7).
  { intros id. cbn. rewrite lookup_empty. by intros []. }
  set (l := push_all ss l0) in *. cbn in H1, H2, H6, H7. rewrite <- H1 in H2.
  assert (Hact : l_active l = list.last (l_segments l)).
  { apply H5. by eapply chain_nonempty. }
  assert (Hinv : log_inv l w lo (concat rss)).
  { exists ss, rss. rewrite H6, H7. split_and!; auto. rewrite H1. apply NoDup_seq. }
  assert (Hget : forall id s, id ∈ l_segments l -> l_heap l !! id = Some s -> s ∈ ss).
  { intros id s Hid Hs. apply list_elem_of_lookup in Hid as [i Hi].
    destruct (Forall2_lookup_l _ _ _ _ _ H2 Hi) as (s' & Hs' & E). simplify_eq.
    by eapply list_elem_of_lookup_2. }
  assert (Hlast : forall id s, l_active l = Some id -> l_heap l !! id = Some s -> list.last ss = Some s).
  { intros id s Ha Hs. rewrite Hact, last_lookup in Ha. rewrite last_lookup.
    rewrite (Forall2_length H2) in Ha. destruct (ss !! pred (length ss)) as [s'|] eqn:E.
    - pose proof (Forall2_lookup_lr _ _ _ _ _ _ H2 Ha E) as E'. cbn in E'. congruence.
    - apply lookup_ge_None in E. apply chain_nonempty in Hch. destruct ss; cbn in *; [done|lia]. }
  split; [|intros Hhv id s Ha Hs; rewrite H7; by eapply Hhv, Hlast].
  split; [done|]. split.
  2:{ split; [done|]. intros id s Hid Hs. apply Hbe. by eapply Hget. }
  split; [by rewrite H7|]. split.
  - split; rewrite ?H6; [done| |].
    + intros n Hn. apply Hex in Hn as (b & Hb & Hor).
      rewrite <- (chain_bases_eq _ _ _ _ _ _ Hch) in Hb. apply list_elem_of_fmap in Hb as (s & -> & Hs).
      apply list_elem_of_lookup in Hs as [i Hi].
      destruct (Forall2_lookup_r _ _ _ _ _ H2 Hi) as (id & Hid & Hh).
      exists id, s. split_and!; auto. by eapply list_elem_of_lookup_2.
    + intros id s Hid Hs p Hp. specialize (Hget _ _ Hid Hs).
      destruct (chain_bases _ _ _ _ _ _ _ Hch Hget) as (_ & _ & Hfl).
      rewrite (seg_files_paths _ _ Hfl) in Hp. unfold seg_names in Hp.
      assert (baseOffset s ∈ bases lo rss).
      { rewrite <- (chain_bases_eq _ _ _ _ _ _ Hch). by apply list_elem_of_fmap_2. }
      set_unfold. destruct Hp as [->|[->|[]]]; apply Hex; eauto.
  - intros id s Ha Hs. rewrite H7. by destruct (Hroom s) as [Hr1 Hr2]; [by eapply Hlast|split].
Qed.

Lemma default_config_id c :
  MaxStoreBytes (Segment c) <> 0 -> MaxIndexBytes (Segment c) <> 0 -> default_config c = c.
Proof.
  intros H1 H2. unfold default_config.
  destruct (Z.eqb_spec (MaxStoreBytes (Segment c)) 0); [done|].
  destruct (Z.eqb_spec (MaxIndexBytes (Segment c)) 0); [done|].
  destruct c as [? []]. done.
Qed.

Lemma setup_run dir c w bs :
  healthy w -> dir ∈ w_dirs w -> dir_exact w dir bs -> Forall is_u64 bs -> Sorted Z.lt bs ->
  setup (mkLog dir c ∅ 0 None [], w) =
    (open_segments (double bs);;
     s' ← get;
     if decide (l_segments s'.1 = []) then Log_newSegment (InitialOffset (Segment (l_Config s'.1)))
     else mret tt) (mkLog dir c ∅ 0 None [], w).
Proof.
  intros Hw Hdir Hex Hu Hs. unfold setup.
  erewrite (bind_Ok get) by reflexivity. cbn [fst snd l_Dir].
  erewrite bind_Ok.
  2:{ apply wrap_err_Ok. unfold log_disk, zoom. cbn [fst snd]. unfold os_ReadDir.
      rewrite syscall_healthy by done. by rewrite decide_True by done. }
  cbn [fst snd]. rewrite (sort_double bs); [done|done|].
  apply dir_offsets; [done|done|]. apply (Sorted_StronglySorted _) in Hs.
  clear -Hs. induction Hs as [|b bs Hs IH Hb]; constructor; [|done].
  intros Hin. rewrite list.Forall_forall in Hb. specialize (Hb _ Hin). lia.
Qed.

Definition limits_ok c : Prop := config_ok c /\ 1 <= MaxStoreBytes (Segment c) <= 2 ^ 47.

(** Opening the directory of a closed log. *)
Lemma NewLog_spec w dir c lo rss rs :
  limits_ok c -> disk_chain w dir c lo (rss ++ [rs]) -> dir_exact w dir (bases lo (rss ++ [rs])) ->
  healthy w -> dir ∈ w_dirs w -> 12 * Z.of_nat (length rs) < MaxIndexBytes (Segment c) ->
  Z.of_nat (length (fcontent w (dir, store_name (lo + Z.of_nat (length (concat rss)))))) <
    MaxStoreBytes (Segment c) ->
  exists l' w', NewLog dir c w = (Ok l', w') /\ log_ready l' w' lo (concat rss ++ rs) /\
    l_Dir l' = dir /\ l_Config l' = c /\
    (min_frame c * Z.of_nat (length rs) <=
       Z.of_nat (length (fcontent w (dir, store_name (lo + Z.of_nat (length (concat rss)))))) -> log_heavy l' w').
Proof.
  intros [Hcfg Hlim] Hdc Hex Hw Hdir Hix Hst.
  destruct (disk_chain_bases _ _ _ _ _ Hdc) as (Hu & Hsrt & _).
  set (l0 := mkLog dir c ∅ 0 None []).
  destruct (open_segments_spec w dir c lo _ l0 Hdc Hw Hdir eq_refl eq_refl Hcfg)
    as (ss & w' & Hrun & Hch & Hw' & Hfr & Hss).
  destruct (push_all_spec ss l0) as (H1 & _ & _ & _ & _ & H6 & H7).
  { intros id. cbn. rewrite lookup_empty. by intros []. }
  exists (push_all ss l0), w'. split.
  { unfold NewLog. rewrite default_config_id; [|lia|unfold config_ok in Hcfg; lia].
    rewrite (setup_run _ _ _ _ Hw Hdir Hex Hu Hsrt).
    rewrite (bind_Ok _ _ _ _ _ Hrun). erewrite bind_Ok by reflexivity. cbn [fst snd].
    rewrite decide_False; [done|]. rewrite H1. cbn. apply chain_nonempty in Hch.
    by destruct ss. }
  replace (concat rss ++ rs) with (concat (rss ++ [rs])) by (rewrite concat_app; cbn; by rewrite app_nil_r).
  assert (Hlast : forall s, list.last ss = Some s ->
    store_content (sg_store s) w' = fcontent w (dir, store_name (lo + Z.of_nat (length (concat rss)))) /\
    ix_size (sg_index s) = 12 * Z.of_nat (length rs)).
  { intros s Hls. pose proof (last_Some_elem_of _ _ Hls) as Hin. destruct (Hss _ Hin) as (_ & Hc & _).
    rewrite Hc. pose proof (chain_end _ _ _ _ _ _ _ Hch Hls) as Hend.
    rewrite concat_app, length_app in Hend. cbn in Hend. rewrite app_nil_r in Hend.
    destruct (chain_lookup _ _ _ _ _ _ (pred (length ss)) s rs Hch) as (Hi & _ & _).
    { by rewrite last_lookup in Hls. }
    { rewrite (chain_length _ _ _ _ _ _ Hch), <- last_lookup. by rewrite last_snoc. }
    pose proof (si_next _ _ _ Hi) as Hn. pose proof (seg_inv_length _ _ _ Hi) as [_ Hsz].
    split; [do 3 f_equal; lia|done]. }
  destruct (ready_of_chain w' dir c lo ss (rss ++ [rs])) as [Hready Hheavy]; auto.
  - by rewrite (fs_frame_dirs _ _ _ Hfr).
  - intros n. rewrite <- (Hex n). split; [|apply Hfr].
    intros Hn. destruct (decide ((dir, n) ∈ bases lo (rss ++ [rs]) ≫= seg_names dir)) as [Hin|Hout].
    + apply Hex. apply list_elem_of_bind in Hin as (b & Hin & Hb). exists b. split; [done|].
      unfold seg_names in Hin. set_unfold. naive_solver.
    + by rewrite <- (fs_frame_lookup _ _ _ Hfr).
  - intros s Hs. by apply Hss.
  - intros s Hls. destruct (Hlast s Hls) as [-> ->]. split; lia.
  - split_and!; [exact Hready|done|done|]. intros Hh. apply Hheavy. intros s Hls.
    destruct (Hlast s Hls) as [-> ->]. lia.
Qed.
End reopen.
