(* ===== verification/LogSpec.v ===== *)
(** The promise of the log and its refinement: from the creation in an empty
    directory on, [Append], [Read], [LowestOffset], [HighestOffset] and a
    restart ([Close], then [NewLog]) behave like the operations of a list of
    records with a base offset. *)

From S2P Require Import Prelude Endian OS Proto Config Store Index Names Segment Log LogInv LogReopen.

Section spec.
Context `{Hmsg : ProtoMessage record} {Hlaws : ProtoLaws record record_wf}.
Implicit Types (w : world) (c : Config) (dir : string) (lo : Z) (recs : list record).

(** ** Bounds *)

Lemma LowestOffset_spec l w lo recs :
  log_inv l w lo recs -> LowestOffset (l, w) = (Ok lo, (l, w)).
Proof.
  intros (ss & rss & -> & Hch & Hf & _). unfold LowestOffset.
  erewrite bind_Ok by reflexivity. cbn [fst snd].
  assert (exists s ss', ss = s :: ss' /\ baseOffset s = lo) as (s & ss' & -> & Hb).
  { destruct Hch as [? ? ? (_ & _ & ? & _)|? ? ? ? ? (_ & _ & ? & _)]; eauto. }
  apply Forall2_cons_inv_r in Hf as (id & ids & Hid & _ & ->).
  erewrite bind_Ok by (by apply get_segment_run). by rewrite Hb.
Qed.

(** The offset of the last record; for a log without records the one before its
    base, or 0 when the base is 0. *)
Definition spec_highest lo recs : Z :=
  let next := lo + Z.of_nat (length recs) in if next =? 0 then 0 else next - 1.

Lemma HighestOffset_spec l w lo recs :
  log_inv l w lo recs -> HighestOffset (l, w) = (Ok (spec_highest lo recs), (l, w)).
Proof.
  intros Hinv. destruct (log_inv_last _ _ _ _ Hinv) as
    (ids & id & ss & s & rss & rs & Hids & Hact & Hs & -> & Hch & Hf & Hni & Hi & Hcfg & Hnext).
  unfold HighestOffset. erewrite bind_Ok by reflexivity. cbn [fst snd]. rewrite Hids, last_snoc.
  erewrite bind_Ok by (by apply get_segment_run). rewrite Hnext. unfold spec_highest.
  pose proof (log_inv_range _ _ _ _ Hinv).
  destruct (Z.eqb_spec (lo + Z.of_nat (length (concat rss ++ rs))) 0); [done|].
  u64_norm. done.
Qed.

(** ** Restart *)

(** The state of the disk between [Close] and [NewLog]; [heavy] says that the records of
    the last segment are. *)
Definition closed_log (heavy : Prop) w dir c lo recs : Prop :=
  exists rss rs, recs = concat rss ++ rs /\ disk_chain w dir c lo (rss ++ [rs]) /\
    dir_exact w dir (bases lo (rss ++ [rs])) /\ healthy w /\ dir ∈ w_dirs w /\
    12 * Z.of_nat (length rs) < MaxIndexBytes (Segment c) /\
    Z.of_nat (length (fcontent w (dir, store_name (lo + Z.of_nat (length (concat rss)))))) <
      MaxStoreBytes (Segment c) /\
    (heavy -> min_frame c * Z.of_nat (length rs) <=
      Z.of_nat (length (fcontent w (dir, store_name (lo + Z.of_nat (length (concat rss))))))).

Lemma closed_log_mono (P Q : Prop) w dir c lo recs :
  (Q -> P) -> closed_log P w dir c lo recs -> closed_log Q w dir c lo recs.
Proof. intros H (rss & rs & H1 & H2 & H3 & H4 & H5 & H6 & H7 & H8). exists rss, rs. by split_and!; auto. Qed.

Lemma Log_Close_spec l w lo recs :
  log_ready l w lo recs ->
  exists l' w', Log_Close (l, w) = (Ok tt, (l', w')) /\
    closed_log (log_heavy l w) w' (l_Dir l) (l_Config l) lo recs.
Proof.
  intros (Hinv & (Hlim & Hfiles & Hroom) & (Hw & Hbe)).
  destruct (log_inv_last _ _ _ _ Hinv) as
    (ids & id & ss & s & rss & rs & Hids & Hact & Hs & -> & Hch & Hf & Hni & Hi & Hcfg & Hnext).
  assert (Hf' : Forall2 (fun id s => l_heap l !! id = Some s) (l_segments l) (ss ++ [s])).
  { rewrite Hids. apply Forall2_app; [done|]. by repeat constructor. }
  assert (Hget : forall s0, s0 ∈ ss ++ [s] -> exists id, id ∈ l_segments l /\ l_heap l !! id = Some s0).
  { intros s0 H0. apply list_elem_of_lookup in H0 as [i H0].
    destruct (Forall2_lookup_r _ _ _ _ _ Hf' H0) as (id' & H1 & H2).
    exists id'. split; [by eapply list_elem_of_lookup_2|done]. }
  destruct (close_segments_spec _ _ _ _ _ _ l (l_segments l) Hch Hf') as
    (h' & w' & Hrun & Hw' & Hfr & Hdc & Hcont); [by destruct Hinv as (? & ? & _ & _ & _ & ? & _)|done| |].
  { intros s0 H0. destruct (Hget _ H0) as (id' & H1 & H2). by eapply Hbe. }
  exists (set_heap h' l), w'. split; [exact Hrun|].
  destruct (Hroom _ _ Hact Hs) as [Hr1 Hr2]. specialize (Hr1 (Hbe id s ltac:(rewrite Hids; set_solver) Hs)).
  pose proof (log_dir_exact _ _ _ _ _ Hch Hf' Hfiles) as Hex.
  assert (Hlast : fcontent w' (l_Dir l, store_name (lo + Z.of_nat (length (concat rss)))) = store_content (sg_store s) w).
  { pose proof (si_next _ _ _ Hi) as Hn. rewrite length_app in Hnext.
    replace (lo + Z.of_nat (length (concat rss))) with (baseOffset s) by lia. apply Hcont. set_solver. }
  pose proof (seg_inv_length _ _ _ Hi) as [_ Hsz].
  exists rss, rs. rewrite Hlast. split_and!; auto; [| |lia|].
  - intros n. rewrite <- (Hex n). split; [|apply Hfr]. intros Hn.
    destruct (decide ((l_Dir l, n) ∈ (ss ++ [s]) ≫= seg_paths)) as [Hin|Hout].
    + apply list_elem_of_bind in Hin as (s0 & Hp & H0). destruct (Hget _ H0) as (id' & H1 & H2).
      by eapply (lc_exist _ _ Hfiles).
    + by rewrite <- (fs_frame_lookup _ _ _ Hfr).
  - rewrite (fs_frame_dirs _ _ _ Hfr). apply Hfiles.
  - intros Hhv. specialize (Hhv _ _ Hact Hs). lia.
Qed.

Lemma NewLog_closed heavy w dir c lo recs :
  limits_ok c -> closed_log heavy w dir c lo recs ->
  exists l' w', NewLog dir c w = (Ok l', w') /\ log_ready l' w' lo recs /\ l_Dir l' = dir /\ l_Config l' = c /\
    (heavy -> log_heavy l' w').
Proof.
  intros Hlim (rss & rs & -> & H1 & H2 & H3 & H4 & H5 & H6 & H7).
  destruct (NewLog_spec w dir c lo rss rs Hlim H1 H2 H3 H4 H5 H6) as (l' & w' & K1 & K2 & K3 & K4 & K5).
  exists l', w'. by split_and!; auto.
Qed.

(** [Close], then [NewLog] on the directory. *)
Definition restart (l : Log) : M world Log := fun w =>
  match Log_Close (l, w) with
  | (Ok _, (l', w')) => NewLog (l_Dir l) (l_Config l) w'
  | (Err e, (_, w')) => (Err e, w')
  | (Panic p, (_, w')) => (Panic p, w')
  end.

Lemma log_ready_limits l w lo recs : log_ready l w lo recs -> limits_ok (l_Config l).
Proof. intros ((ss & rss & _ & _ & _ & _ & _ & _ & Hcfg) & (Hlim & _) & _). by split. Qed.

Lemma restart_spec l w lo recs :
  log_ready l w lo recs ->
  exists l' w', restart l w = (Ok l', w') /\ log_ready l' w' lo recs /\
    l_Dir l' = l_Dir l /\ l_Config l' = l_Config l /\ (log_heavy l w -> log_heavy l' w').
Proof.
  intros Hr. pose proof (log_ready_limits _ _ _ _ Hr) as Hlim.
  destruct (Log_Close_spec _ _ _ _ Hr) as (l1 & w1 & Hrun & Hcl).
  unfold restart. rewrite Hrun. by apply NewLog_closed.
Qed.

(** ** Creation *)

Lemma NewLog_empty w dir c :
  limits_ok (default_config c) -> is_u64 (InitialOffset (Segment c)) ->
  healthy w -> dir ∈ w_dirs w -> (forall n, w_fs w !! (dir, n) = None) ->
  exists l' w', NewLog dir c w = (Ok l', w') /\ log_fit l' w' (InitialOffset (Segment c)) [] /\
    l_Dir l' = dir /\ l_Config l' = default_config c.
Proof.
  intros [Hcfg Hlim] Hu Hw Hdir Hnone.
  set (l0 := mkLog dir (default_config c) ∅ 0 None []). set (lo := InitialOffset (Segment c)) in *.
  destruct (open_one w dir (default_config c) lo [] l0) as
    (s & w' & Hrun & Hs & Hw' & Hfr & Hbe & Hcont & Hex); auto.
  { split_and!; [by apply disk_seg_none|done|cbn; unfold is_u64 in Hu; lia|].
    cbn. unfold config_ok in Hcfg. cbn in Hcfg. lia. }
  pose proof Hs as (Hi & Hfl & Hbase & _).
  exists (push_segment s l0), w'. split.
  { unfold NewLog. fold l0.
    assert (Hset : setup (l0, w) = Log_newSegment lo (l0, w)).
    { unfold l0. erewrite (setup_run _ _ _ []); [|done|done| |constructor|constructor]; [reflexivity|].
      intros n. rewrite Hnone. split; [by intros []|]. intros (b & Hb & _). set_solver. }
    by rewrite Hset, Hrun. }
  split; [|done]. split; [|apply new_seg_heavy; exact Hi].
  destruct (ready_of_chain w' dir (default_config c) lo [s] [[]]) as [H _]; auto.
  - by constructor.
  - by rewrite (fs_frame_dirs _ _ _ Hfr).
  - intros n. split.
    + intros Hn. exists lo. split; [set_solver|].
      destruct (decide ((dir, n) ∈ seg_names dir lo)) as [Hin|Hout].
      * unfold seg_names in Hin. set_unfold. naive_solver.
      * rewrite (fs_frame_lookup _ _ _ Hfr), Hnone in Hn by done. by destruct Hn.
    + intros (b & Hb & Hor). apply list_elem_of_singleton in Hb as ->. apply Hex.
      unfold seg_names. destruct Hor as [->| ->]; set_solver.
  - intros s0 H0. by apply list_elem_of_singleton in H0 as ->.
  - intros s0 H0. cbn in H0. injection H0 as <-. rewrite Hcont. unfold fcontent. rewrite Hnone.
    pose proof (seg_inv_length _ _ _ Hi) as [_ Hsz]. unfold config_ok in Hcfg. cbn in *. lia.
Qed.

(** ** Logs that cannot get stuck *)

(** What happens outside the directory of a log does not concern it. *)
Lemma log_fit_elsewhere l w w' lo recs :
  log_fit l w lo recs -> (forall n, w_fs w' !! (l_Dir l, n) = w_fs w !! (l_Dir l, n)) ->
  l_Dir l ∈ w_dirs w' -> healthy w' -> log_fit l w' lo recs.
Proof.
  intros [((ss & rss & Hrecs & Hch & Hf & Hinv) & (Hlim & [_ Hex Hst] & Hroom) & (_ & Hbe)) Hhv] Hfs Hdir Hw.
  assert (Hp : forall s p, s ∈ ss -> p ∈ seg_paths s -> w_fs w' !! p = w_fs w !! p).
  { intros s p Hs Hp. destruct (chain_bases _ _ _ _ _ _ _ Hch Hs) as (_ & _ & Hfl).
    rewrite (seg_files_paths _ _ Hfl) in Hp. unfold seg_names in Hp. set_unfold. destruct Hp as [->|[->|[]]]; apply Hfs. }
  assert (Hget : forall id s, id ∈ l_segments l -> l_heap l !! id = Some s -> s ∈ ss).
  { intros id s Hid Hs. apply list_elem_of_lookup in Hid as [i Hi].
    destruct (Forall2_lookup_l _ _ _ _ _ Hf Hi) as (s' & Hs' & E). simplify_eq. by eapply list_elem_of_lookup_2. }
  assert (Hact : forall id s, l_active l = Some id -> l_heap l !! id = Some s ->
    store_content (sg_store s) w' = store_content (sg_store s) w).
  { intros id s Ha Hs. unfold store_content, bw_content, fcontent. cbn [fst snd].
    rewrite (Hp s (file_path (s_File (sg_store s)))); [done| |unfold seg_paths, store_Name; set_solver].
    eapply Hget; [|exact Hs].
    destruct Hinv as (_ & Hl & _). rewrite Ha in Hl. symmetry in Hl. by apply last_Some_elem_of in Hl. }
  split; [split_and!|].
  - exists ss, rss. split_and!; try done; try apply Hinv. eapply chain_agree; [|exact Hch].
    intros s p Hs Hps. unfold fcontent. by rewrite (Hp s).
  - split; [done|]. split; [|intros id s Ha Hs; rewrite (Hact id) by done; by apply (Hroom id)]. split; [done| |].
    + intros n. rewrite Hfs. apply Hex.
    + intros id s Hid Hs p Hps. rewrite (Hp s) by eauto. by eapply Hst.
  - by split.
  - intros id s Ha Hs. rewrite (Hact id) by done. by apply (Hhv id).
Qed.

Lemma Log_Append_fit r l w lo recs :
  let off := lo + Z.of_nat (length recs) in
  log_fit l w lo recs -> record_wf r -> fits (min_frame (l_Config l)) r -> off + 1 < 2 ^ 64 ->
  exists l' w', Log_Append (Some r) (l, w) = (Ok off, (l', w')) /\ log_fit l' w' lo (recs ++ [set_Offset off r]) /\
    l_Config l' = l_Config l /\ l_Dir l' = l_Dir l.
Proof.
  intros off [(Hinv & Hcl & Hg) Hhv] Hwf Hft Hb.
  destruct (Log_Append (Some r) (l, w)) as [o [l' w']] eqn:E.
  pose proof (Log_Append_spec _ _ _ _ _ _ _ _ Hinv Hcl Hwf Hb E) as (Hc & Hd & Ho).
  destruct o as [off'|e|]; [|by destruct Ho as [_ []]|done]. destruct Ho as (-> & H1 & H2 & H3 & H4).
  exists l', w'. split; [done|]. split; [|done]. split; [by split_and!; auto|auto].
Qed.

Lemma Log_Read_fit off l w lo recs :
  log_fit l w lo recs ->
  exists l' w', Log_Read off (l, w) =
    (match spec_read lo recs off with Some r => Ok r | None => Err (ErrOffsetOutOfRange off) end, (l', w')) /\
    log_fit l' w' lo recs /\ l_Config l' = l_Config l.
Proof.
  intros [(Hinv & Hcl & Hg) Hhv]. destruct (Log_Read off (l, w)) as [o [l' w']] eqn:E.
  pose proof (Log_Read_spec _ _ _ _ _ _ _ _ Hinv E) as (Hinv' & _ & _ & Hc & Ho).
  destruct (spec_read lo recs off) as [r|].
  - destruct Ho as (_ & Ho & Hcl' & Hhv'). destruct (Ho Hg) as [-> Hg']. exists l', w'. split; [done|].
    split; [|done]. split; [by split_and!; auto|auto].
  - destruct Ho as (-> & -> & ->). exists l, w. split; [done|]. split; [|done]. by split; [split_and!|].
Qed.

Lemma restart_fit l w lo recs :
  log_fit l w lo recs ->
  exists l' w', restart l w = (Ok l', w') /\ log_fit l' w' lo recs /\ l_Dir l' = l_Dir l /\ l_Config l' = l_Config l.
Proof.
  intros [Hr Hhv]. destruct (restart_spec _ _ _ _ Hr) as (l' & w' & H1 & H2 & H3 & H4 & H5).
  exists l', w'. split; [done|]. split; [by split; auto|done].
Qed.

(** ** Refinement *)

(** What a client asks of the log, and what it gets. *)
Inductive lop :=
| OpAppend (r : record) | OpRead (off : Z) | OpLowest | OpHighest | OpRestart.
Inductive lres := ResOffset (off : Z) | ResRecord (r : record) | ResDone.

(** The records appended are well-typed and take [m] bytes of a store at least. *)
Definition op_wf (m : Z) (op : lop) : Prop := match op with OpAppend r => record_wf r /\ fits m r | _ => True end.

Definition log_exec (op : lop) : M lst lres :=
  match op with
  | OpAppend r => off ← Log_Append (Some r); mret (ResOffset off)
  | OpRead off => r ← Log_Read off; mret (ResRecord r)
  | OpLowest => off ← LowestOffset; mret (ResOffset off)
  | OpHighest => off ← HighestOffset; mret (ResOffset off)
  | OpRestart => fun s =>
      match restart s.1 s.2 with
      | (Ok l', w') => (Ok ResDone, (l', w'))
      | (Err e, w') => (Err e, (s.1, w'))
      | (Panic p, w') => (Panic p, (s.1, w'))
      end
  end.

(** The same operations on a list of records with a base offset. *)
Definition spec_exec (op : lop) : M (Z * list record) lres := fun '(lo, recs) =>
  match op with
  | OpAppend r =>
      let off := lo + Z.of_nat (length recs) in (Ok (ResOffset off), (lo, recs ++ [set_Offset off r]))
  | OpRead off =>
      (match spec_read lo recs off with
       | Some r => Ok (ResRecord r)
       | None => Err (ErrOffsetOutOfRange off)
       end, (lo, recs))
  | OpLowest => (Ok (ResOffset lo), (lo, recs))
  | OpHighest => (Ok (ResOffset (spec_highest lo recs)), (lo, recs))
  | OpRestart => (Ok ResDone, (lo, recs))
  end.

Lemma spec_exec_base ops lo recs : (run_ops spec_exec ops (lo, recs)).2.1 = lo.
Proof.
  revert recs. induction ops as [|op ops IH]; intros recs; [done|]. cbn [run_ops].
  destruct op; cbn [spec_exec]; match goal with |- context [run_ops spec_exec ops (lo, ?r)] => specialize (IH r) end;
    by destruct (run_ops spec_exec ops _).
Qed.

Definition log_refines_state (c : Config) (s : lst) (t : Z * list record) : Prop :=
  log_fit s.1 s.2 t.1 t.2 /\ l_Config s.1 = c.

(** One operation: the same result, and related states again. *)
Lemma log_exec_sim c op s t o s' :
  op_wf (min_frame c) op -> t.1 + Z.of_nat (length t.2) + 1 < 2 ^ 64 ->
  log_refines_state c s t -> log_exec op s = (o, s') ->
  exists t', spec_exec op t = (o, t') /\ log_refines_state c s' t' /\
    t'.1 = t.1 /\ (length t'.2 <= S (length t.2))%nat.
Proof.
  destruct s as [l w], t as [lo recs]. cbn [fst snd].
  intros Hwf Hb [Hr Hc] Hrun. cbn [fst snd] in *. pose proof Hr as [(Hinv & _) _].
  destruct op as [r|off| | |]; cbn [log_exec op_wf spec_exec] in *.
  - destruct Hwf as [Hwf Hft]. rewrite <- Hc in Hft.
    destruct (Log_Append_fit r l w lo recs Hr Hwf Hft Hb) as (l1 & w1 & Ha & Hr1 & Hc1 & _).
    rewrite (bind_Ok _ _ _ _ _ Ha) in Hrun. unfold mret, M_ret in Hrun. simplify_eq.
    eexists. split; [done|]. cbn [fst snd]. by split_and!; [split|done|len].
  - destruct (Log_Read_fit off l w lo recs Hr) as (l1 & w1 & Ha & Hr1 & Hc1).
    destruct (spec_read lo recs off) as [r|].
    + rewrite (bind_Ok _ _ _ _ _ Ha) in Hrun. unfold mret, M_ret in Hrun. simplify_eq.
      eexists. split; [done|]. cbn [fst snd]. by split_and!; [split|done|lia].
    + rewrite (bind_Err _ _ _ _ _ Ha) in Hrun. simplify_eq.
      eexists. split; [done|]. cbn [fst snd]. by split_and!; [split|done|lia].
  - rewrite (bind_Ok _ _ _ _ _ (LowestOffset_spec _ _ _ _ Hinv)) in Hrun.
    unfold mret, M_ret in Hrun. simplify_eq. eexists. split; [done|]. by split_and!; [split|done|cbn; lia].
  - rewrite (bind_Ok _ _ _ _ _ (HighestOffset_spec _ _ _ _ Hinv)) in Hrun.
    unfold mret, M_ret in Hrun. simplify_eq. eexists. split; [done|]. by split_and!; [split|done|cbn; lia].
  - destruct (restart_fit _ _ _ _ Hr) as (l' & w' & Hrs & Hr' & Hd' & Hc'). cbn [fst snd] in Hrun.
    rewrite Hrs in Hrun. simplify_eq. eexists. split; [done|]. cbn [fst snd].
    split_and!; [by split|done|lia].
Qed.

Lemma run_ops_sim c ops s t :
  Forall (op_wf (min_frame c)) ops -> t.1 + Z.of_nat (length t.2) + Z.of_nat (length ops) < 2 ^ 64 ->
  log_refines_state c s t -> (run_ops log_exec ops s).1 = (run_ops spec_exec ops t).1.
Proof.
  intros Hwf Hb Hr.
  apply (run_ops_refine (op_wf (min_frame c)) (fun n s t => log_refines_state c s t /\
           t.1 + Z.of_nat (length t.2) + Z.of_nat n < 2 ^ 64)); [|done..].
  clear -Hlaws. intros n op s t Hop [Hr Hb]. destruct (log_exec op s) as [o s'] eqn:Hrun.
  destruct (log_exec_sim c op s t o s' Hop ltac:(lia) Hr Hrun) as (t' & -> & Hr' & H1 & H2).
  cbn [fst snd]. split_and!; [done|done|lia].
Qed.
End spec.
