(* ===== verification/LogTruncate.v ===== *)
(** [Log.Truncate] of [internal/log/log.go] on a represented log. *)

From S2P Require Import Prelude Endian OS Proto Config Store Index Names Segment Log LogInv LogReopen.
From S2P Require Import LogSpec.

Section truncate.
Context `{Hmsg : ProtoMessage record} {Hlaws : ProtoLaws record record_wf}.
Implicit Types (w : world) (c : Config) (dir : string) (lo : Z) (recs : list record).

(** Only the files at [ps] disappeared. *)
Definition fs_removed (ps : list path) w w' : Prop :=
  w_dirs w' = w_dirs w /\ forall p, w_fs w' !! p = if decide (p ∈ ps) then None else w_fs w !! p.

Lemma os_Remove_run p w :
  healthy w -> is_Some (w_fs w !! p) ->
  os_Remove p w = (Ok tt, set_fs (delete p (w_fs w)) w).
Proof. intros Hw [b Hb]. unfold os_Remove. rewrite syscall_healthy by done. by rewrite Hb. Qed.

Lemma segment_Remove_spec s w recs dir :
  seg_inv s w recs -> seg_good s w -> seg_files s dir ->
  (forall p, p ∈ seg_paths s -> is_Some (w_fs w !! p)) ->
  exists s' w', segment_Remove (s, w) = (Ok tt, (s', w')) /\ healthy w' /\ fs_removed (seg_paths s) w w'.
Proof.
  intros Hi Hg Hf Hex.
  destruct (segment_Close_spec s w recs dir Hi Hg Hf) as
    (s' & w1 & Hrun & Hw1 & (Hp & _ & _ & Hfr & _) & _).
  assert (Hex1 : forall p, p ∈ seg_paths s -> is_Some (w_fs w1 !! p)).
  { intros p Hin. apply (fs_frame_some _ _ _ Hfr). auto. }
  pose proof (si_names _ _ _ Hi) as Hne. unfold seg_paths in Hp. injection Hp as Hp1 Hp2.
  set (w2 := set_fs (delete (index_Name (sg_index s')) (w_fs w1)) w1).
  exists s', (set_fs (delete (store_Name (sg_store s')) (w_fs w2)) w2). split.
  { unfold segment_Remove. rewrite (bind_Ok _ _ _ _ _ Hrun).
    erewrite (bind_Ok get) by reflexivity. cbn [fst snd].
    erewrite bind_Ok.
    2:{ unfold sg_disk, zoom. cbn [fst snd]. rewrite os_Remove_run; [reflexivity|done|].
        rewrite Hp2. apply Hex1. set_solver. }
    unfold sg_disk, zoom. cbn [fst snd]. rewrite os_Remove_run; [reflexivity|done|].
    cbn. rewrite Hp1, Hp2, lookup_delete_ne by done. apply Hex1. set_solver. }
  split; [done|]. split; [exact (fs_frame_dirs _ _ _ Hfr)|].
  intros p. cbn. rewrite Hp1, Hp2. destruct (decide (p ∈ seg_paths s)) as [Hin|Hout].
  - unfold seg_paths in Hin. set_unfold. destruct Hin as [->|[->|[]]].
    + apply lookup_delete_eq.
    + rewrite lookup_delete_ne by done. apply lookup_delete_eq.
  - unfold seg_paths in Hout. rewrite !lookup_delete_ne by set_solver.
    apply (fs_frame_lookup _ _ _ Hfr). unfold seg_paths. set_solver.
Qed.

Lemma chain_next_ge w dir c lo ss rss s :
  chain w dir c lo ss rss -> s ∈ ss -> lo <= nextOffset s.
Proof.
  intros Hch Hs. destruct (chain_bases _ _ _ _ _ _ _ Hch Hs) as (Hlo & _).
  apply list_elem_of_lookup in Hs as [i Hi].
  destruct (lookup_lt_is_Some_2 rss i) as [rs Hrs].
  { rewrite <- (chain_length _ _ _ _ _ _ Hch). by eapply lookup_lt_Some. }
  destruct (chain_lookup _ _ _ _ _ _ _ _ _ Hch Hi Hrs) as (Hsi & _).
  pose proof (si_next _ _ _ Hsi). lia.
Qed.

Lemma chain_drop w dir c lo ss rss k :
  chain w dir c lo ss rss -> (k < length ss)%nat ->
  chain w dir c (lo + Z.of_nat (length (concat (take k rss)))) (drop k ss) (drop k rss).
Proof.
  intros Hch. revert k. induction Hch as [lo s rs Hs|lo s rs ss rss Hs Hne Hch IH]; intros [|k] Hk; cbn in *.
  - rewrite Z.add_0_r. by constructor.
  - lia.
  - rewrite Z.add_0_r. by constructor.
  - rewrite length_app, Nat2Z.inj_add, Z.add_assoc. apply IH. lia.
Qed.

Lemma chain_take_next w dir c lo ss rss k s :
  chain w dir c lo ss rss -> ss !! k = Some s ->
  nextOffset s = lo + Z.of_nat (length (concat (take (S k) rss))).
Proof.
  intros Hch. revert k. induction Hch as [lo s0 rs (Hi & _ & Hb & _)|lo s0 rs ss rss (Hi & _ & Hb & _) Hne Hch IH];
    intros [|k] Hk; cbn in Hk; simplify_eq; pose proof (si_next _ _ _ Hi).
  - cbn. rewrite app_nil_r. lia.
  - cbn. rewrite app_nil_r. lia.
  - rewrite (IH _ Hk). cbn [take concat]. rewrite length_app. lia.
Qed.

(** The loop keeps every segment that ends behind the limit. *)
Lemma truncate_keep lowest l w ids ss kept :
  Forall2 (fun id s => l_heap l !! id = Some s) ids ss ->
  (forall s, s ∈ ss -> u64 (lowest + 1) < nextOffset s) ->
  truncate_loop lowest ids kept (l, w) = (Ok (kept ++ ids), (l, w)).
Proof.
  intros Hf. revert kept. induction Hf as [|id s ids ss Hs Hf IH]; intros kept Hgt; cbn [truncate_loop].
  - by rewrite app_nil_r.
  - erewrite bind_Ok by (by apply get_segment_run).
    destruct (Z.leb_spec (nextOffset s) (u64 (lowest + 1))) as [Hle|_].
    { specialize (Hgt s ltac:(set_solver)). lia. }
    rewrite IH by (intros; apply Hgt; set_solver). by rewrite <- (assoc_L (++)).
Qed.

(** A chain that begins behind the limit is behind it. *)
Lemma chain_above lim w dir c lo ss rss s :
  chain w dir c lo (s :: ss) rss -> lim < nextOffset s -> forall s0, s0 ∈ s :: ss -> lim < nextOffset s0.
Proof.
  intros Hch Hgt s0 H0. apply elem_of_cons in H0 as [->|H0]; [done|].
  inversion Hch as [|lo' s' rs ss' rss' (Hi & _ & Hb & _) Hne Htl]; subst; [set_solver|].
  pose proof (chain_next_ge _ _ _ _ _ _ _ Htl H0). pose proof (si_next _ _ _ Hi). lia.
Qed.

(** The other pointers are not affected by the update of one. *)
Lemma heap_dom (h : gmap nat segment) id s s' id0 :
  h !! id = Some s -> is_Some (<[id := s']> h !! id0) <-> is_Some (h !! id0).
Proof.
  intros Hid. rewrite lookup_insert_is_Some'. split; [|by right]. intros [<-|H]; [by rewrite Hid|done].
Qed.

Lemma fs_removed_nil w : fs_removed [] w w.
Proof. split; [done|]. intros p. by rewrite decide_False by apply not_elem_of_nil. Qed.

Lemma fs_removed_trans ps qs w w1 w2 :
  fs_removed ps w w1 -> fs_removed qs w1 w2 -> fs_removed (ps ++ qs) w w2.
Proof.
  intros [Hd1 H1] [Hd2 H2]. split; [congruence|]. intros p. rewrite H2, H1.
  destruct (decide (p ∈ qs)), (decide (p ∈ ps)), (decide (p ∈ ps ++ qs)); set_solver.
Qed.

Lemma truncate_loop_spec lowest w dir c lo ss rss l ids kept :
  chain w dir c lo ss rss -> Forall2 (fun id s => l_heap l !! id = Some s) ids ss -> NoDup ids ->
  healthy w -> (forall s, s ∈ ss -> bw_err (s_buf (sg_store s)) = None) ->
  (forall s p, s ∈ ss -> p ∈ seg_paths s -> is_Some (w_fs w !! p)) ->
  exists k h' w', (k <= length ss)%nat /\
    truncate_loop lowest ids kept (l, w) = (Ok (kept ++ drop k ids), (set_heap h' l, w')) /\
    healthy w' /\ fs_removed (take k ss ≫= seg_paths) w w' /\
    (forall s, s ∈ take k ss -> nextOffset s <= u64 (lowest + 1)) /\
    (forall s, s ∈ drop k ss -> u64 (lowest + 1) < nextOffset s) /\
    (forall id, id ∉ take k ids -> h' !! id = l_heap l !! id) /\
    (forall id, is_Some (h' !! id) <-> is_Some (l_heap l !! id)).
Proof.
  revert lo rss l w ids kept. induction ss as [|s ss IH]; intros lo rss l w ids kept Hch Hf Hnd Hw Hbe Hex.
  { by apply chain_nonempty in Hch. }
  pose proof Hf as Hf0. apply Forall2_cons_inv_r in Hf as (id & ids' & Hid & Hf & ->).
  apply list.NoDup_cons in Hnd as [Hni Hnd].
  destruct (chain_uncons _ _ _ _ _ _ _ Hch) as (rs & rss' & -> & Hs & Htl).
  pose proof Hs as (Hi & Hfl & Hbase & Hcfg).
  destruct (Z.leb_spec (nextOffset s) (u64 (lowest + 1))) as [Hle|Hgt].
  2:{ assert (Hall := chain_above _ _ _ _ _ _ _ _ Hch Hgt). exists 0%nat, (l_heap l), w.
      rewrite (truncate_keep _ _ _ _ _ _ Hf0 Hall). destruct l.
      split_and!; auto using fs_removed_nil; [cbn; lia|]. intros s0 H0. by apply not_elem_of_nil in H0. }
  destruct (segment_Remove_spec s w rs dir Hi) as (s' & w1 & Hrun & Hw1 & Hr1);
    [split; [done|apply Hbe; set_solver]|done|intros; eapply Hex; [|done]; set_solver|].
  set (l1 := set_heap (<[id := s']> (l_heap l)) l).
  assert (Hon : on_segment id segment_Remove (l, w) = (Ok tt, (l1, w1))) by (by eapply on_segment_run).
  cbn [truncate_loop]. erewrite bind_Ok by (by apply get_segment_run).
  destruct (Z.leb_spec (nextOffset s) (u64 (lowest + 1))) as [_|]; [|lia].
  assert (Hdom := fun id0 => heap_dom _ _ _ s' id0 Hid).
  rewrite (bind_Ok _ _ _ _ _ Hon).
  destruct Htl as [[-> ->]|[Hne Htl]].
  { apply Forall2_nil_inv_r in Hf as ->. exists 1%nat, (<[id := s']> (l_heap l)), w1. cbn [length take drop].
    split_and!; auto.
    - cbn. by rewrite app_nil_r.
    - intros s0 H0. by apply list_elem_of_singleton in H0 as ->.
    - intros s0 H0. set_solver.
    - intros id0 H0. rewrite lookup_insert_ne by set_solver. done. }
  assert (Hdis : forall s1 p, s1 ∈ ss -> p ∈ seg_paths s1 -> w_fs w1 !! p = w_fs w !! p).
  { intros s1 p H1 Hp. destruct Hr1 as [_ ->]. rewrite decide_False; [done|].
    by apply (chain_tail_disjoint _ _ _ _ _ _ _ _ s1 p Hs Hne Htl). }
  destruct (IH (lo + Z.of_nat (length rs)) rss' l1 w1 ids' kept) as
    (k & h' & w' & Hk & Hrun' & Hw' & Hr' & Hle' & Hgt' & Hh' & Hdom'); auto.
  { eapply chain_agree; [|exact Htl]. intros s1 p H1 Hp. unfold fcontent. by rewrite (Hdis s1). }
  { by apply heap_tail. }
  { intros. apply Hbe. set_solver. }
  { intros s1 p H1 Hp. rewrite (Hdis s1) by done. eapply Hex; [|done]. set_solver. }
  exists (S k), h', w'. cbn [length take drop]. split; [lia|]. split; [exact Hrun'|].
  split; [done|]. split; [rewrite bind_cons; by eapply fs_removed_trans|].
  split_and!; [|done| |].
  - intros s0 H0. apply elem_of_cons in H0 as [->|H0]; [done|auto].
  - intros id0 H0. rewrite Hh' by set_solver. cbn. rewrite lookup_insert_ne by set_solver. done.
  - intros id0. rewrite Hdom'. apply Hdom.
Qed.

Lemma last_drop_lt {A} (l : list A) k :
  (k < length l)%nat -> list.last (drop k l) = list.last l.
Proof. intros Hk. rewrite !last_lookup, lookup_drop, length_drop. f_equal. lia. Qed.

Lemma concat_drop {A} (rss : list (list A)) k :
  concat (drop k rss) = drop (length (concat (take k rss))) (concat rss).
Proof.
  rewrite <- (take_drop k rss) at 3. rewrite concat_app. by rewrite drop_app_length.
Qed.

(** A pointer of the list is before or behind the cut, as its segment is. *)
Lemma heap_drop (h : gmap nat segment) ids ss k id s :
  Forall2 (fun id s => h !! id = Some s) ids ss -> NoDup ids -> h !! id = Some s -> id ∈ ids ->
  (id ∈ take k ids /\ s ∈ take k ss) \/ (id ∉ take k ids /\ id ∈ drop k ids /\ s ∈ drop k ss).
Proof.
  intros Hf Hnd Hs Hid. rewrite <- (take_drop k ids) in Hid, Hnd.
  apply list.NoDup_app in Hnd as (_ & Hd & _).
  pose proof (Forall2_take _ _ _ k Hf) as Ht. pose proof (Forall2_drop _ _ _ k Hf) as Hr.
  apply elem_of_app in Hid as [Hid|Hid]; [left|right]; pose proof Hid as [i Hi]%list_elem_of_lookup.
  - split; [done|]. destruct (Forall2_lookup_l _ _ _ _ _ Ht Hi) as (s' & Hs' & E). simplify_eq.
    by eapply list_elem_of_lookup_2.
  - split; [intros H; by apply (Hd _ H)|]. split; [done|].
    destruct (Forall2_lookup_l _ _ _ _ _ Hr Hi) as (s' & Hs' & E). simplify_eq.
    by eapply list_elem_of_lookup_2.
Qed.

(** What is left of a ready log when its first [k] segments are gone. *)
Section drop.
Variables (l : Log) (w : world) (lo : Z) (ss : list segment) (rss : list (list record)).
Variables (k : nat) (h' : gmap nat segment) (w' : world).
Hypothesis Hready : log_ready l w lo (concat rss).
Hypothesis Hch : chain w (l_Dir l) (l_Config l) lo ss rss.
Hypothesis Hf : Forall2 (fun id s => l_heap l !! id = Some s) (l_segments l) ss.
Hypothesis Hk : (k < length ss)%nat.
Hypothesis Hw' : healthy w'.
Hypothesis Hremoved : fs_removed (take k ss ≫= seg_paths) w w'.
Hypothesis Hh : forall id, id ∉ take k (l_segments l) -> h' !! id = l_heap l !! id.
Hypothesis Hdom : forall id, is_Some (h' !! id) <-> is_Some (l_heap l !! id).

Local Abbreviation ids := (l_segments l).
Local Abbreviation l' := (set_segments (drop k ids) (set_heap h' l)).
Local Abbreviation n := (length (concat (take k rss))).

Lemma ids_nodup : NoDup ids.
Proof. destruct Hready as [(_ & _ & _ & _ & _ & Hnd & _) _]. exact Hnd. Qed.

(** The files and the heap cells of the remaining segments are untouched. *)
Lemma dropped_files s p : s ∈ drop k ss -> p ∈ seg_paths s -> w_fs w' !! p = w_fs w !! p.
Proof.
  intros Hs Hp. destruct Hremoved as [_ ->]. rewrite decide_False; [done|]. intros Hin.
  apply list_elem_of_bind in Hin as (s1 & Hp1 & H1).
  apply list_elem_of_lookup in Hs as [i Hi], H1 as [j Hj]. rewrite lookup_drop in Hi.
  apply lookup_take_Some in Hj as [Hj Hjk].
  apply (chain_disjoint _ _ _ _ _ _ (k + i) j _ _ p Hch Hi Hj); [lia|done|done].
Qed.

Lemma dropped_heap id s :
  id ∈ drop k ids -> h' !! id = Some s -> id ∈ ids /\ l_heap l !! id = Some s /\ s ∈ drop k ss.
Proof.
  intros Hid Hs. assert (Hin : id ∈ ids) by (rewrite <- (take_drop k ids); set_solver).
  assert (Hni : id ∉ take k ids).
  { pose proof ids_nodup as Hnd. rewrite <- (take_drop k ids) in Hnd.
    apply list.NoDup_app in Hnd as (_ & Hd & _). intros H. by apply (Hd _ H). }
  rewrite Hh in Hs by done. split_and!; [done|done|].
  by destruct (heap_drop _ _ _ k _ _ Hf ids_nodup Hs Hin) as [[? _]|(_ & _ & ?)].
Qed.

Lemma dropped_inv : log_inv l' w' (lo + Z.of_nat n) (drop n (concat rss)).
Proof.
  destruct Hready as ((_ & _ & _ & _ & _ & Hnd & Hact & Hnx & Hcfg) & _ & _).
  pose proof (Forall2_length Hf) as Hlen.
  exists (drop k ss), (drop k rss). cbn. split_and!; auto.
  - symmetry. apply concat_drop.
  - eapply chain_agree; [|by apply chain_drop]. intros s p Hs Hp. unfold fcontent. by rewrite (dropped_files s).
  - apply Forall2_same_length_lookup. split; [rewrite !length_drop; lia|].
    intros i id s Hi Hs. rewrite Hh; rewrite !lookup_drop in *.
    + exact (Forall2_lookup_lr _ _ _ _ _ _ Hf Hi Hs).
    + intros [j Hj]%list_elem_of_lookup. apply lookup_take_Some in Hj as [Hj Hjk].
      assert (k + i = j)%nat by (by eapply NoDup_lookup). lia.
  - rewrite <- (take_drop k ids) in Hnd. by apply list.NoDup_app in Hnd as (_ & _ & ?).
  - rewrite last_drop_lt by lia. done.
  - intros id Hid. apply Hnx. by apply Hdom.
Qed.

Lemma dropped_log_files : log_files l' w'.
Proof.
  destruct Hready as (_ & (_ & Hfiles & _) & _). pose proof Hremoved as [Hd Hrem]. split; cbn.
  - rewrite Hd. apply Hfiles.
  - intros m Hm. rewrite Hrem in Hm. destruct (decide _) as [|Hnp]; [by destruct Hm|].
    apply (lc_exact _ _ Hfiles) in Hm as (id & s & Hid & Hs & Hor).
    destruct (heap_drop _ _ _ k _ _ Hf ids_nodup Hs Hid) as [[Ht Hst]|(Hnt & Hdr & Hsd)].
    + exfalso. apply Hnp, list_elem_of_bind. exists s. split; [|done].
      assert (s ∈ ss) as Hin by (rewrite <- (take_drop k ss); set_solver).
      destruct (chain_bases _ _ _ _ _ _ _ Hch Hin) as (_ & _ & Hfl).
      rewrite (seg_files_paths _ _ Hfl). unfold seg_names. destruct Hor as [->| ->]; set_solver.
    + exists id, s. by rewrite Hh.
  - intros id s Hid Hs p Hp. destruct (dropped_heap _ _ Hid Hs) as (Hin & Hs' & Hsd).
    rewrite (dropped_files s) by done. by eapply (lc_exist _ _ Hfiles).
Qed.

Lemma dropped_room : log_room l' w'.
Proof.
  destruct Hready as ((_ & _ & _ & _ & _ & _ & Hact & _) & (_ & _ & Hroom) & _).
  pose proof (Forall2_length Hf) as Hlen.
  intros id s Ha Hs. cbn in Ha, Hs. cbn [l_Config set_segments set_heap].
  assert (Hid : id ∈ drop k ids).
  { rewrite Hact, <- (last_drop_lt ids k) in Ha by lia. by apply last_Some_elem_of. }
  destruct (dropped_heap _ _ Hid Hs) as (Hin & Hs' & Hsd). destruct (Hroom _ _ Ha Hs') as [Hr1 Hr2].
  split; [|done]. intros He. specialize (Hr1 He).
  assert (Hc : w_fs w' !! store_Name (sg_store s) = w_fs w !! store_Name (sg_store s))
    by (apply (dropped_files s); [done|unfold seg_paths; set_solver]).
  unfold store_content, bw_content, fcontent in *. cbn in *. unfold store_Name in Hc. by rewrite Hc.
Qed.

Lemma log_ready_drop : log_ready l' w' (lo + Z.of_nat n) (drop n (concat rss)).
Proof.
  pose proof Hready as (_ & (Hlim & _ & _) & (_ & Hbe)). split; [apply dropped_inv|]. split.
  - split_and!; [apply Hlim..|apply dropped_log_files|apply dropped_room].
  - split; [done|]. cbn. intros id s Hid Hs. destruct (dropped_heap _ _ Hid Hs) as (Hin & Hs' & _). by eapply Hbe.
Qed.
End drop.

(** A cut at [k] that is at the limit [lim]: everything is cut exactly when the
    limit is behind the last record. *)
Section cut.
Variables (l : Log) (w : world) (lo : Z) (ss : list segment) (rss : list (list record)) (k : nat) (lim : Z).
Hypothesis Hch : chain w (l_Dir l) (l_Config l) lo ss rss.
Hypothesis Hf : Forall2 (fun id s => l_heap l !! id = Some s) (l_segments l) ss.
Hypothesis Hle : forall s, s ∈ take k ss -> nextOffset s <= lim.
Hypothesis Hgt : forall s, s ∈ drop k ss -> lim < nextOffset s.

Lemma cut_index i s : ss !! i = Some s -> (k <= i)%nat <-> lim < nextOffset s.
Proof.
  intros Hs. split.
  - intros Hki. apply Hgt, list_elem_of_lookup. exists (i - k)%nat.
    rewrite lookup_drop. by replace (k + (i - k))%nat with i by lia.
  - intros Hlt. destruct (decide (k <= i)%nat) as [|Hn]; [done|exfalso].
    assert (s ∈ take k ss) as Hin%Hle; [|lia].
    apply list_elem_of_lookup. exists i. by rewrite lookup_take_lt by lia.
Qed.

Lemma cut_pointer id s :
  NoDup (l_segments l) -> id ∈ l_segments l -> l_heap l !! id = Some s ->
  (id ∈ drop k (l_segments l) <-> lim < nextOffset s).
Proof.
  intros Hnd Hid Hs. apply list_elem_of_lookup in Hid as [i Hi].
  destruct (Forall2_lookup_l _ _ _ _ _ Hf Hi) as (s' & Hs' & E). simplify_eq.
  rewrite <- (cut_index _ _ Hs'), list_elem_of_lookup. split.
  - intros [j Hj]. rewrite lookup_drop in Hj. assert (i = k + j)%nat by (by eapply NoDup_lookup). lia.
  - intros Hki. exists (i - k)%nat. rewrite lookup_drop. by replace (k + (i - k))%nat with i by lia.
Qed.

Lemma cut_all : (k < length ss)%nat <-> lim < lo + Z.of_nat (length (concat rss)).
Proof.
  destruct (list.last ss) as [s|] eqn:Hls.
  2:{ apply last_None in Hls. subst. by apply chain_nonempty in Hch. }
  rewrite <- (chain_end _ _ _ _ _ _ _ Hch Hls). rewrite last_lookup in Hls.
  pose proof (lookup_lt_Some _ _ _ Hls). rewrite <- (cut_index _ _ Hls). lia.
Qed.

Lemma cut_records :
  (k <= length ss)%nat -> k = 0%nat \/ lo + Z.of_nat (length (concat (take k rss))) <= lim.
Proof.
  intros Hk. destruct k as [|k'] eqn:Ek; [by left|right].
  destruct (lookup_lt_is_Some_2 ss k') as [s Hs]; [lia|].
  assert (Hin : s ∈ take (S k') ss).
  { apply list_elem_of_lookup. exists k'. by rewrite lookup_take_lt by lia. }
  pose proof (Hle _ Hin). pose proof (chain_take_next _ _ _ _ _ _ _ _ Hch Hs). lia.
Qed.
End cut.

(** [Truncate] on a ready log removes the segments without a record behind
    [lowest + 1]; either a suffix of the chain is left and represents the
    corresponding suffix of the records, or no segment at all. *)
Lemma Truncate_run lowest l w lo recs :
  log_ready l w lo recs ->
  exists l' w' k n, Truncate lowest (l, w) = (Ok tt, (l', w')) /\
    l_segments l' = drop k (l_segments l) /\
    (forall id s, id ∈ l_segments l -> l_heap l !! id = Some s ->
       (id ∈ drop k (l_segments l) <-> u64 (lowest + 1) < nextOffset s)) /\
    (k = 0%nat /\ n = 0%nat \/ lo + Z.of_nat n <= u64 (lowest + 1)) /\
    (u64 (lowest + 1) < lo + Z.of_nat (length recs) ->
     log_ready l' w' (lo + Z.of_nat n) (drop n recs)) /\
    (lo + Z.of_nat (length recs) <= u64 (lowest + 1) -> l_segments l' = []).
Proof.
  intros (Hinv & (Hlim & Hfiles & Hroom) & (Hw & Hbe)).
  pose proof Hinv as (ss & rss & -> & Hch & Hf & Hnd & Hact & Hnx & Hcfg).
  assert (Hget : forall s0, s0 ∈ ss -> exists id, id ∈ l_segments l /\ l_heap l !! id = Some s0).
  { intros s0 H0. apply list_elem_of_lookup in H0 as [i H0].
    destruct (Forall2_lookup_r _ _ _ _ _ Hf H0) as (id' & H1 & H2).
    exists id'. split; [by eapply list_elem_of_lookup_2|done]. }
  destruct (truncate_loop_spec lowest _ _ _ _ _ _ l (l_segments l) [] Hch Hf Hnd Hw) as
    (k & h' & w' & Hk & Hrun & Hw' & [Hd' Hrem] & Hle & Hgt & Hh & Hdom).
  { intros s0 H0. destruct (Hget _ H0) as (id & H1 & H2). by eapply Hbe. }
  { intros s0 p H0 Hp. destruct (Hget _ H0) as (id & H1 & H2). by eapply (lc_exist _ _ Hfiles). }
  pose proof (Forall2_length Hf) as Hlen. pose proof (chain_length _ _ _ _ _ _ Hch) as Hlen'.
  set (n := length (concat (take k rss))).
  exists (set_segments (drop k (l_segments l)) (set_heap h' l)), w', k, n.
  split.
  { unfold Truncate. erewrite (bind_Ok get) by reflexivity. cbn [fst snd].
    rewrite (bind_Ok _ _ _ _ _ Hrun). reflexivity. }
  split; [done|].
  pose proof (cut_all _ _ _ _ _ _ _ Hch Hf Hle Hgt) as Hlast.
  split; [intros id s Hid Hs; by eapply cut_pointer|]. split_and!.
  - destruct (cut_records _ _ _ _ _ _ _ Hch Hle Hgt Hk) as [E|]; [left; unfold n; by rewrite E|by right].
  - intros Hlt. apply (log_ready_drop l w lo ss rss k h' w'); try done. by apply Hlast.
  - intros Hge. cbn. apply drop_ge. rewrite Hlen. destruct (decide (k < length ss)%nat) as [Hc|]; [|lia].
    apply Hlast in Hc. lia.
Qed.
End truncate.
