(* ===== verification/Scenario.v ===== *)
(** Concrete logs for the witnesses of the properties: a log in the empty
    directory [d], with the wire format of [Wire]. *)

From S2P Require Import Prelude Endian OS Proto Wire Config Store Index Names Segment Log LogInv.
From S2P Require Import LogReopen LogSpec.

Module Scenario.
Import Wire.

Definition wit_world : world := World {["d"%string]} ∅ ∅ [] ∅.
Definition wit_config (store index : Z) : Config :=
  mkConfig zero_RaftConfig (mkSegmentConfig store index 5).
Definition wit_record (b : bytes) : record := mkRecord b 0 7 1.
Definition abc : bytes := [Byte.x61; Byte.x62; Byte.x63].

(** The log [NewLog] gives there, and the log after an append. *)
Definition wit_new (c : Config) : lst :=
  match NewLog "d" c wit_world with
  | (Ok l, w) => (l, w)
  | (_, w) => (mkLog "" c ∅ 0 None [], w)
  end.
Definition wit_append (s : lst) : lst := (Log_Append (Some (wit_record abc)) s).2.

(** With this wire format a record takes ten bytes of the store more than its value. *)
Lemma wire_fits m r : Value r <> [] -> m <= 10 + Z.of_nat (length (Value r)) -> fits m r.
Proof.
  intros Hv Hm off p _ Hp. injection Hp as <-. unfold put_fields, record_fields. cbn [Value set_Offset].
  unfold opt_bytes. destruct (Value r) as [|x v] eqn:E; [done|]. cbn [app fmap list_fmap concat].
  unfold put_field at 1. cbn [fst snd]. rewrite !length_app.
  assert (H : forall n z, (1 <= length (put_varint (S n) z))%nat) by (intros n z; cbn; destruct (z <? 128); cbn; lia).
  pose proof (H 9%nat (8 * 1 + 2)). pose proof (H 9%nat (Z.of_nat (length (x :: v)))). lia.
Qed.

(** With the default limits of [NewLog], values of three bytes are enough. *)
Definition plain := wit_config 0 0.
Lemma plain_limits : limits_ok (default_config plain).
Proof. by vm_compute. Qed.
Lemma plain_min : min_frame (default_config plain) = 13.
Proof. reflexivity. Qed.
Lemma abc_fits m : m <= 13 -> fits m (wit_record abc).
Proof. intros H. apply wire_fits; [done|exact H]. Qed.

Lemma wit_new_fit c :
  limits_ok (default_config c) -> is_u64 (InitialOffset (Segment c)) ->
  log_fit (wit_new c).1 (wit_new c).2 (InitialOffset (Segment c)) [] /\
  l_Config (wit_new c).1 = default_config c.
Proof.
  intros H1 H2. destruct (NewLog_empty wit_world "d" c H1 H2) as (l & w & E & Hr & _ & Hc);
    [done|set_solver|intros n; apply lookup_empty|]. unfold wit_new. by rewrite E.
Qed.

Lemma wit_new_ready c :
  limits_ok (default_config c) -> is_u64 (InitialOffset (Segment c)) ->
  log_ready (wit_new c).1 (wit_new c).2 (InitialOffset (Segment c)) [] /\
  l_Config (wit_new c).1 = default_config c.
Proof. intros H1 H2. by destruct (wit_new_fit c H1 H2) as [[H _] Hc]. Qed.

Lemma wit_append_fit s lo recs :
  log_fit s.1 s.2 lo recs -> min_frame (l_Config s.1) <= 13 -> lo + Z.of_nat (length recs) + 1 < 2 ^ 64 ->
  log_fit (wit_append s).1 (wit_append s).2 lo
    (recs ++ [set_Offset (lo + Z.of_nat (length recs)) (wit_record abc)]) /\
  l_Config (wit_append s).1 = l_Config s.1.
Proof.
  destruct s as [l w]. cbn [fst snd]. intros Hf Hm Hb. unfold wit_append.
  assert (Hwf : record_wf (wit_record abc)) by (by vm_compute).
  destruct (Log_Append_fit _ l w lo recs Hf Hwf (abc_fits _ Hm) Hb) as (l' & w' & -> & H & Hc & _). done.
Qed.

Lemma wit_append_ready s lo recs :
  log_ready s.1 s.2 lo recs -> is_ok (Log_Append (Some (wit_record abc)) s).1 = true ->
  lo + Z.of_nat (length recs) + 1 < 2 ^ 64 ->
  log_ready (wit_append s).1 (wit_append s).2 lo
    (recs ++ [set_Offset (lo + Z.of_nat (length recs)) (wit_record abc)]).
Proof.
  destruct s as [l w]. cbn [fst snd]. intros (Hinv & Hcl & Hg) Hok Hb. unfold wit_append.
  destruct (Log_Append (Some (wit_record abc)) (l, w)) as [o [l' w']] eqn:E.
  eapply Log_Append_spec in E as (_ & _ & Ho); [|done|done|by vm_compute|done].
  destruct o as [off| |]; [|done..]. destruct Ho as (-> & H1 & H2 & H3 & _). by split_and!; auto.
Qed.

Definition small := wit_config 64 24.
Definition odd := wit_config 1000 20.

Lemma small_limits : limits_ok (default_config small).
Proof. by vm_compute. Qed.

(** Two appended records, in one segment. *)
Lemma small_two :
  log_ready (wit_append (wit_append (wit_new small))).1 (wit_append (wit_append (wit_new small))).2 5
    [set_Offset 5 (wit_record abc); set_Offset 6 (wit_record abc)].
Proof.
  destruct (wit_new_ready small small_limits) as [H _]; [by vm_compute|].
  apply wit_append_ready in H; [|by vm_compute|cbn; lia].
  apply wit_append_ready in H; [|by vm_compute|cbn; lia]. exact H.
Qed.
End Scenario.
