(* ===== verification/StorageProps.v ===== *)
(** Properties of the two files of a segment and of their names: records of the
    store are read back, the index refines a bounded list of entries across
    restarts, and file names determine base offsets. *)

From S2P Require Import Prelude Endian OS Proto Wire Config Store Index Names Segment Log LogInv.
From S2P Require Import LogReopen LogSpec Scenario.

(** ** The store *)

(** C18. A record the store acknowledged is never read back as anything else:
    whatever operations of the store follow ([Append], [Read], [ReadAt],
    [Close], in any order and with any failures), [Read] at the position [Append]
    returned gives the record or an error; it gives the record when the disk
    works, no earlier write has failed and the file is open, and an error once
    [Close] has closed the file. The store's size field counts its bytes and the
    record ends before 2^48 bytes, the largest allocation. *)
Theorem store_append_read p n pos s0 w0 s1 w1 s2 w2 :
  store_ok s0 w0 ->
  Z.of_nat (length (store_content s0 w0)) + 8 + Z.of_nat (length p) < 2 ^ 48 ->
  store_Append p (s0, w0) = (Ok (n, pos), (s1, w1)) ->
  rtc store_op (s1, w1) (s2, w2) ->
  ((store_Read pos (s2, w2)).1 = Ok p \/ exists e, (store_Read pos (s2, w2)).1 = Err e) /\
  (healthy w2 -> bw_err (s_buf s2) = None -> file_closed (s_File s2) = false ->
   (store_Read pos (s2, w2)).1 = Ok p) /\
  (file_closed (s_File s2) = true -> exists e, (store_Read pos (s2, w2)).1 = Err e).
Proof.
  intros Hok Hb Happ Hops.
  apply store_Append_spec in Happ as (Hst & HF & q & Hc & -> & -> & -> & _ & He0 & _).
  rewrite (Hok He0). u64_norm.
  apply store_ops_grow in Hops as (HF2 & [q Hq] & _). cbn in Hq, HF2.
  match goal with |- context [store_Read ?pos _] => pose proof (store_Read_closed pos s2 w2) as Hclosed end.
  destruct (store_Read _ (s2, w2)) as [o [s3 w3]] eqn:Hr.
  eapply (store_Read_spec p) in Hr as (_ & _ & _ & _ & Hgood & _ & Hor); try (unfold maxAlloc; lia).
  - split_and!; [done|intros; by apply Hgood|]. intros Hcl.
    by apply Hclosed.
  - rewrite Hq, Hc, <- app_assoc, Nat2Z.id. apply at_pos_end.
Qed.

(** ** The index as a bounded list *)

(** The operations of a client; [IReopen] is a [Close] and a [newIndex] on the
    file opened again. *)
Inductive iop := IWrite (off pos : Z) | IRead (inn : Z) | IReopen.

Definition iop_wf (op : iop) : Prop :=
  match op with IWrite off pos => is_u32 off /\ is_u64 pos | _ => True end.

Definition index_exec (c : Config) (op : iop) : M ist (option (Z * Z)) :=
  match op with
  | IWrite off pos => index_Write off pos;; mret None
  | IRead inn => e ← index_Read inn; mret (Some e)
  | IReopen => fun s =>
      match index_Close s with
      | (Ok _, (i1, w1)) =>
          match (f ← os_OpenFile (index_Name i1); newIndex f c) w1 with
          | (Ok i2, w2) => (Ok None, (i2, w2))
          | (Err e, w2) => (Err e, (i1, w2))
          | (Panic p, w2) => (Panic p, (i1, w2))
          end
      | (Err e, s1) => (Err e, s1)
      | (Panic p, s1) => (Panic p, s1)
      end
  end.

Definition spec_index (cap : Z) (op : iop) : M (list (Z * Z)) (option (Z * Z)) := fun es =>
  match op with
  | IWrite off pos =>
      if cap <? 12 * Z.of_nat (length es) + 12 then (Err io_EOF, es) else (Ok None, es ++ [(off, pos)])
  | IRead inn =>
      (match es !! read_slot inn (length es) with Some e => Ok (Some e) | None => Err io_EOF end, es)
  | IReopen => (Ok None, es)
  end.

Record index_ready (c : Config) (s : ist) (es : list (Z * Z)) : Prop := {
  rd_rep : index_rep s.1 s.2 es;
  rd_len : ix_mmap_len s.1 = MaxIndexBytes (Segment c);
  rd_dir : (index_Name s.1).1 ∈ w_dirs s.2;
  rd_disk : healthy s.2
}.

Lemma index_reopen_sim c i w es :
  config_ok c -> index_ready c (i, w) es ->
  exists s', index_exec c IReopen (i, w) = (Ok None, s') /\ index_ready c s' es.
Proof.
  intros Hc [Hrep Hlen Hdir Hh]. cbn [fst snd] in *. cbn [index_exec].
  pose proof (index_rep_bound _ _ _ Hrep) as Hb.
  destruct (index_Close_spec _ _ _ Hrep Hh) as (i1 & w1 & -> & Hh1 & Hf1 & Hc1 & Hi1 & _).
  assert (Hn : index_Name i1 = index_Name i) by (unfold index_Name; by rewrite Hi1).
  rewrite Hn. unfold mbind, M_bind.
  destruct (os_OpenFile_spec (index_Name i) w1) as (o & w2 & -> & Hf2 & Hh2 & Hc2 & Ho).
  destruct o as [f|e|]; [|exfalso; apply Ho; [done|by rewrite (fs_frame_dirs _ _ _ Hf1)]|done].
  destruct Ho as [-> _]. unfold config_ok in Hc.
  destruct (newIndex_spec (File (index_Name i) false) c w2 es) as (o & w3 & -> & Hf3 & Hh3 & Ho);
    cbn [file_path]; [lia|by rewrite Hc2, Hc1|apply Hrep|lia|].
  destruct o as [i3|e|]; [|exfalso; apply Ho; auto|done]. destruct Ho as (H1 & H2 & H3).
  eexists. split; [done|]. split; cbn [fst snd]; auto.
  unfold index_Name at 1. rewrite H1. cbn [file_path].
  by rewrite (fs_frame_dirs _ _ _ Hf3), (fs_frame_dirs _ _ _ Hf2), (fs_frame_dirs _ _ _ Hf1).
Qed.

Lemma index_exec_sim c op s es :
  config_ok c -> iop_wf op -> index_ready c s es ->
  let t := spec_index (MaxIndexBytes (Segment c)) op es in
  (index_exec c op s).1 = t.1 /\ index_ready c (index_exec c op s).2 t.2.
Proof.
  destruct s as [i w]. intros Hc Hwf Hr. pose proof Hr as [Hrep Hlen Hdir Hh]. cbn [fst snd] in *.
  destruct op as [off pos|inn|]; cbn [spec_index].
  - pose proof (index_Write_spec off pos i w es Hrep (proj1 Hwf) (proj2 Hwf)) as H. cbn [index_exec].
    rewrite (ir_size _ _ _ Hrep), Hlen in H. destruct (_ <? _).
    + by rewrite (bind_Err _ _ _ _ _ H).
    + destruct H as (i' & w' & H & H1 & H2 & H3 & H4 & H5). rewrite (bind_Ok _ _ _ _ _ H).
      split; [done|]. split; unfold mret, M_ret; cbn [fst snd]; [done|congruence| |unfold healthy in *; congruence].
      unfold index_Name. by rewrite H2, (fs_frame_dirs _ _ _ H4).
  - pose proof (index_Read_spec inn i w es Hrep) as H. cbn [index_exec].
    destruct (es !! _); [rewrite (bind_Ok _ _ _ _ _ H)|rewrite (bind_Err _ _ _ _ _ H)]; done.
  - by destruct (index_reopen_sim c i w es Hc Hr) as (s' & -> & Hr').
Qed.

(** C17. The index refines a list of entries of bounded length: on a working disk
    every sequence of [Write], [Read] and restarts gives the results of the list,
    [io.EOF] for a full index and for an absent entry included, and [Read] of [-1]
    is the last entry. *)
Theorem index_refinement c ops s es :
  config_ok c -> Forall iop_wf ops -> index_ready c s es ->
  (run_ops (index_exec c) ops s).1 = (run_ops (spec_index (MaxIndexBytes (Segment c))) ops es).1.
Proof.
  intros Hc Hops Hr. apply (run_ops_refine iop_wf (fun _ => index_ready c)); [|done..].
  intros _ op s' es' Hop Hr'. by apply index_exec_sim.
Qed.

(** ** File names *)

(** [setup] recovers the base offset of a segment from either of its file
    names, over the whole 64-bit range, and no two files of the log collide. *)
Theorem segment_names m n :
  is_u64 m -> is_u64 n ->
  name_offset (store_name m) = m /\ name_offset (index_name m) = m /\
  (store_name m = store_name n \/ index_name m = index_name n -> m = n) /\
  store_name m <> index_name n.
Proof.
  intros Hm Hn. split_and!; [by apply name_offset_store|by apply name_offset_index| |apply store_index_name_ne].
  intros [H|H]; [by apply store_name_inj|by apply index_name_inj].
Qed.

(** ** Witnesses *)
Module StorageWitness.
Import Scenario.

Definition st0 : store := Store (File ("d", "5.store") false) bufio_NewWriter 0.
Definition st1 : sst := (store_Append abc (st0, wit_world)).2.
Definition st2 : sst := (store_Append [] st1).2.

Definition st3 : sst := (store_Close st2).2.

Lemma store_append_read_witness :
  (store_Read 0 st2).1 = Ok abc /\ exists e, (store_Read 0 st3).1 = Err e.
Proof.
  destruct st3 as [s3 w3] eqn:E3, st2 as [s2 w2] eqn:E2, st1 as [s1 w1] eqn:E1.
  assert (H2 : rtc store_op (s1, w1) (s2, w2)).
  { eapply rtc_once, (op_Append []). rewrite <- E1, <- E2. apply surjective_pairing. }
  split; [|apply (store_append_read abc 11 0 st0 wit_world s1 w1 s3 w3);
    [intros _; reflexivity|reflexivity|rewrite <- E1; vm_compute; reflexivity| |]].
  2:{ eapply rtc_r; [done|]. eapply op_Close. rewrite <- E2, <- E3. apply surjective_pairing. }
  2:{ assert (s3 = st3.1) as -> by (by rewrite E3). vm_compute. reflexivity. }
  apply (store_append_read abc 11 0 st0 wit_world s1 w1 s2 w2).
  - intros _. reflexivity.
  - reflexivity.
  - rewrite <- E1. vm_compute. reflexivity.
  - done.
  - assert (w2 = st2.2) as -> by (by rewrite E2). vm_compute. reflexivity.
  - assert (s2 = st2.1) as -> by (by rewrite E2). vm_compute. reflexivity.
  - assert (s2 = st2.1) as -> by (by rewrite E2). vm_compute. reflexivity.
Defined.

Definition ix0 : ist :=
  (Index (File ("d", "5.index") false) 24 true 0,
   fput ("d"%string, "5.index"%string) (replicate 24 Byte.x00) wit_world).

Lemma ix0_ready : index_ready small ix0 [].
Proof.
  split; [|reflexivity|cbn; set_solver|reflexivity]. split; try reflexivity; [| |constructor].
  - vm_compute. discriminate.
  - split; [reflexivity|vm_compute; lia].
Qed.

Lemma index_refinement_witness :
  (run_ops (index_exec small) [IRead (-1); IWrite 0 0; IWrite 1 19; IWrite 2 38; IReopen; IRead (-1); IRead 7] ix0).1 =
  [Err io_EOF; Ok None; Ok None; Err io_EOF; Ok None; Ok (Some (1, 19)); Err io_EOF].
Proof.
  rewrite (index_refinement small _ ix0 []); [reflexivity|split; reflexivity || (vm_compute; discriminate)| |apply ix0_ready].
  repeat constructor; vm_compute; (reflexivity || discriminate).
Defined.

Lemma segment_names_witness : name_offset (store_name (2 ^ 64 - 1)) = 2 ^ 64 - 1 /\ store_name 16 <> index_name 16.
Proof.
  split; [apply (segment_names (2 ^ 64 - 1) 16)|apply (segment_names 16 16)]; split; (reflexivity || discriminate).
Defined.
End StorageWitness.
