(* ===== verification/LogProps.v ===== *)
(** The properties of the commit log of [internal/log]. *)

From S2P Require Import Prelude Endian OS Proto Wire Config Store Index Names Segment Log LogInv.
From S2P Require Import LogReopen LogSpec LogTruncate Scenario.

(** ** Lemmas on the paths that cannot succeed *)

Lemma on_segment_Dir {A} id (m : M gst A) s o s' :
  on_segment id m s = (o, s') -> l_Dir s'.1 = l_Dir s.1 /\ l_segments s'.1 = l_segments s.1.
Proof.
  unfold on_segment. destruct (l_heap s.1 !! id) as [sg|]; [|intros; by simplify_eq].
  destruct (m (sg, s.2)) as [o1 t]. intros. by simplify_eq.
Qed.

Lemma close_segments_Dir ids s o s' :
  close_segments ids s = (o, s') -> l_Dir s'.1 = l_Dir s.1.
Proof.
  revert s. induction ids as [|id ids IH]; intros s; cbn [close_segments].
  { intros H. unfold mret, M_ret in H. by simplify_eq. }
  unfold mbind, M_bind. destruct (on_segment id segment_Close s) as [o1 s1] eqn:E.
  apply on_segment_Dir in E as [E _]. destruct o1 as [[]|e|p]; intros H; [|by simplify_eq..].
  by rewrite (IH _ H).
Qed.

Lemma os_RemoveAll_dirs dir w w' : os_RemoveAll dir w = (Ok tt, w') -> dir ∉ w_dirs w'.
Proof.
  unfold os_RemoveAll.
  match goal with |- context [syscall ?k w] => destruct (syscall_cases k w)
    as [(e & o & -> & _)|(o & -> & _)] end; intros H; simplify_eq; cbn. set_solver.
Qed.

Lemma Log_Remove_dirs s s' :
  Log_Remove s = (Ok tt, s') -> l_Dir s'.1 ∉ w_dirs s'.2.
Proof.
  unfold Log_Remove, Log_Close. intros H. inv_ok H. inv_ok H. inv_ok Hrun.
  unfold get in Hrun0, Hrun1. simplify_eq. apply close_segments_Dir in Hrun.
  unfold log_disk, zoom in H. destruct (os_RemoveAll _ _) as [o w'] eqn:E. cbn in E. simplify_eq.
  cbn. by apply os_RemoveAll_dirs in E.
Qed.

Lemma setup_no_dir s s' : l_Dir s.1 ∉ w_dirs s.2 -> setup s <> (Ok tt, s').
Proof.
  intros Hd H. unfold setup in H. inv_ok H. unfold get in Hrun. simplify_eq. inv_ok H.
  unfold wrap_err, log_disk, zoom, os_ReadDir in Hrun. cbn in Hrun.
  match type of Hrun with context [syscall ?k ?w] => destruct (syscall_cases k w)
    as [(e & o & E & _)|(o & E & _)]; rewrite E in Hrun end; [done|].
  cbn in Hrun. by rewrite decide_False in Hrun.
Qed.

Lemma Log_Reset_fails s s' : Log_Reset s <> (Ok tt, s').
Proof.
  intros H. unfold Log_Reset in H. inv_ok H. destruct a. apply Log_Remove_dirs in Hrun.
  by apply setup_no_dir in H.
Qed.

Section props.
Context `{Hmsg : ProtoMessage record} {Hlaws : ProtoLaws record record_wf}.
Implicit Types (w : world) (c : Config) (dir : string) (lo : Z) (recs : list record).

(** The active segment's index has no room for an entry. *)
Definition index_full (l : Log) : Prop :=
  exists id s, l_active l = Some id /\ l_heap l !! id = Some s /\
    MaxIndexBytes (Segment (l_Config l)) < ix_size (sg_index s) + 12.

(** The active segment's store has fewer than [n] bytes. *)
Definition active_below (n : Z) (l : Log) w : Prop :=
  forall id s, l_active l = Some id -> l_heap l !! id = Some s ->
    Z.of_nat (length (store_content (sg_store s) w)) < n.

(** Such a segment refuses the record, keeps it in its store all the same, and
    stays the active one. *)
Lemma append_full n r l w lo recs o l' w' :
  log_inv l w lo recs -> log_good l w -> active_below n l w -> n + 2 ^ 32 <= 2 ^ 48 -> record_wf r ->
  lo + Z.of_nat (length recs) + 1 < 2 ^ 64 -> index_full l ->
  Log_Append (Some r) (l, w) = (o, (l', w')) ->
  o = Err io_EOF /\ log_inv l' w' lo recs /\ log_good l' w' /\ active_below (n + 2 ^ 32) l' w' /\ index_full l'.
Proof.
  intros Hinv [Hw Hbe] Hbel Hn Hwf Hoff (id & s & Ha & Hs & Hfull) Hrun.
  destruct (log_inv_last _ _ _ _ Hinv) as
    (ids & id0 & ss & s0 & rss & rs & Hids & Hact & Hs0 & -> & Hch & Hf & Hni & Hi & Hcfg & Hnext).
  rewrite Ha in Hact. injection Hact as <-. rewrite Hs in Hs0. injection Hs0 as <-.
  specialize (Hbel _ _ Ha Hs) as Hb.
  assert (Hg : seg_good s w) by (split; [done|]; eapply Hbe; [|exact Hs]; rewrite Hids; set_solver).
  unfold Log_Append in Hrun. erewrite (bind_Ok get) in Hrun by reflexivity. cbn [fst snd] in Hrun.
  rewrite Ha in Hrun.
  destruct (segment_Append (Some r) (s, w)) as [o1 [s1 w1]] eqn:Happ.
  pose proof Happ as Ha'. eapply segment_Append_spec in Ha' as [Hst Ho1]; [|done|done|lia|lia].
  pose proof (seg_inv_length _ _ _ Hi) as [_ Hsz]. pose proof (si_mmap _ _ _ Hi) as Hmm.
  assert (Hon := on_segment_run _ _ _ _ _ _ _ _ Hs Happ).
  destruct o1 as [off1|e|]; [| |done].
  { destruct Ho1 as (_ & _ & _ & _ & Hge & _). rewrite Hmm, Hcfg in Hge. lia. }
  destruct Ho1 as [Hi1 Hgood]. destruct (Hgood Hg) as (-> & _ & [Hw1 Hb1] & Hgrow).
  rewrite (bind_Err _ _ _ _ _ Hon) in Hrun. injection Hrun as <- <- <-. split; [done|].
  split; [by eapply log_inv_update_last|]. split; [by eapply log_good_update|]. split.
  - intros id' s' Ha1 Hs1. cbn in Ha1, Hs1. rewrite Ha in Ha1. injection Ha1 as <-.
    rewrite lookup_insert_eq in Hs1. injection Hs1 as <-. lia.
  - exists id, s1. cbn. rewrite lookup_insert_eq.
    pose proof (seg_inv_length _ _ _ Hi1) as [_ Hsz1]. split_and!; [done|done|lia].
Qed.

Lemma spec_read_drop lo recs n lowest off :
  (n = 0%nat \/ lo + Z.of_nat n <= lowest + 1) -> lowest < off ->
  spec_read (lo + Z.of_nat n) (drop n recs) off = spec_read lo recs off.
Proof.
  intros Hn Hoff. unfold spec_read. rewrite lookup_drop.
  destruct (Z.leb_spec (lo + Z.of_nat n) off), (Z.leb_spec lo off); try lia.
  - f_equal. lia.
  - done.
Qed.

(** ** The properties *)

(** C1. From its creation in an empty directory on, with limits in range and on a disk
    that works, every sequence of appends, reads, offset queries and restarts gives
    exactly the results of a list of records with a base offset: offsets are
    consecutive, a read gives the record appended at that offset and
    [ErrOffsetOutOfRange] elsewhere, and a restart loses nothing.  The records must
    take [min_frame] bytes of the store each: with an index limit that is a multiple
    of 12 that is no condition, with the default limits it is 13 bytes, 5 of them
    encoded record (see [append_stuck] for smaller ones). *)
Theorem log_refinement dir c w ops :
  limits_ok (default_config c) -> is_u64 (InitialOffset (Segment c)) ->
  healthy w -> dir ∈ w_dirs w -> (forall n, w_fs w !! (dir, n) = None) ->
  Forall (op_wf (min_frame (default_config c))) ops -> InitialOffset (Segment c) + Z.of_nat (length ops) < 2 ^ 64 ->
  exists l w1, NewLog dir c w = (Ok l, w1) /\
    (run_ops log_exec ops (l, w1)).1 = (run_ops spec_exec ops (InitialOffset (Segment c), [])).1.
Proof.
  intros Hlim Hu Hw Hdir Hnone Hwf Hb.
  destruct (NewLog_empty w dir c Hlim Hu Hw Hdir Hnone) as (l & w1 & Hrun & Hr & _ & Hc).
  exists l, w1. split; [done|]. apply (run_ops_sim (default_config c)); [done| |by split].
  cbn. lia.
Qed.

(** C5. [Append] under any disk failures: on success the record is at the end of
    the log, with the returned offset; on failure every earlier record is still
    there (and at most the new one was added); it never panics. *)
Theorem log_append_safe r l w lo recs o l' w' :
  log_inv l w lo recs -> log_clean l w -> record_wf r -> lo + Z.of_nat (length recs) + 1 < 2 ^ 64 ->
  Log_Append (Some r) (l, w) = (o, (l', w')) ->
  let off := lo + Z.of_nat (length recs) in
  match o with
  | Ok off' => off' = off /\ log_inv l' w' lo (recs ++ [set_Offset off r]) /\ log_clean l' w'
  | Err _ => log_inv l' w' lo recs \/ log_inv l' w' lo (recs ++ [set_Offset off r])
  | Panic _ => False
  end.
Proof.
  intros Hinv Hcl Hwf Hoff Hrun off.
  pose proof (Log_Append_spec _ _ _ _ _ _ _ _ Hinv Hcl Hwf Hoff Hrun) as (_ & _ & Ho).
  destruct o as [off'|e|]; [|exact (proj1 Ho)|done]. destruct Ho as (H1 & H2 & H3 & _). done.
Qed.

(** C6. [Read] under any disk failures: an offset of the log gives its record or
    an error, never another record; any other offset gives
    [ErrOffsetOutOfRange] without touching the disk; the log keeps its records. *)
Theorem log_read_safe off l w lo recs o l' w' :
  log_inv l w lo recs -> Log_Read off (l, w) = (o, (l', w')) ->
  log_inv l' w' lo recs /\
  match spec_read lo recs off with
  | Some r => o = Ok r \/ exists e, o = Err e
  | None => o = Err (ErrOffsetOutOfRange off) /\ l' = l /\ w' = w
  end.
Proof.
  intros Hinv Hrun.
  pose proof (Log_Read_spec _ _ _ _ _ _ _ _ Hinv Hrun) as (Hinv' & _ & _ & _ & Ho).
  split; [done|]. destruct (spec_read lo recs off); [exact (proj1 Ho)|exact Ho].
Qed.

(** C8. On a working disk, for a log without a failed write, [Close] followed by
    [NewLog] on the same directory and configuration gives a log with the same base
    offset and records. *)
Theorem log_close_reopen l w lo recs :
  log_ready l w lo recs ->
  exists l1 w1 l2 w2, Log_Close (l, w) = (Ok tt, (l1, w1)) /\
    NewLog (l_Dir l) (l_Config l) w1 = (Ok l2, w2) /\ log_ready l2 w2 lo recs.
Proof.
  intros Hr. pose proof (log_ready_limits _ _ _ _ Hr) as Hlim.
  destruct (Log_Close_spec _ _ _ _ Hr) as (l1 & w1 & Hrun & Hcl).
  destruct (NewLog_closed _ _ _ _ _ _ Hlim Hcl) as (l2 & w2 & Hrun2 & Hr2 & _).
  by exists l1, w1, l2, w2.
Qed.

(** C16. [Truncate] below the end of the log removes exactly the segments all of
    whose records have offsets up to [lowest]; what is left is a log again, and
    every offset above [lowest] reads as before. *)
Theorem truncate_keeps_later lowest l w lo recs :
  log_ready l w lo recs -> 0 <= lowest -> lowest + 1 < lo + Z.of_nat (length recs) ->
  exists l' w' n, Truncate lowest (l, w) = (Ok tt, (l', w')) /\
    log_ready l' w' (lo + Z.of_nat n) (drop n recs) /\
    (forall off, lowest < off -> spec_read (lo + Z.of_nat n) (drop n recs) off = spec_read lo recs off) /\
    (forall id s, id ∈ l_segments l -> l_heap l !! id = Some s ->
       (id ∈ l_segments l' <-> lowest + 1 < nextOffset s)).
Proof.
  intros Hr H0 Hlt. destruct (Truncate_run lowest l w lo recs Hr) as
    (l' & w' & k & n & Hrun & Hsegs & Hkeep & Hn & Hready & _).
  pose proof (log_inv_range _ _ _ _ (proj1 Hr)) as [_ Hb].
  assert (E : u64 (lowest + 1) = lowest + 1) by (u64_norm; done).
  rewrite E in *. exists l', w', n. split; [done|]. split; [auto|]. split.
  - intros off. apply spec_read_drop. naive_solver.
  - intros id s Hid Hs. rewrite Hsegs. by apply Hkeep.
Qed.

(** [Truncate] at or above the highest offset removes the active segment
    too: the log is left without segments, both offset queries panic, and every
    read is out of range. *)
Theorem truncate_all_panics lowest l w lo recs :
  log_ready l w lo recs -> lo + Z.of_nat (length recs) <= lowest + 1 < 2 ^ 64 ->
  exists l' w', Truncate lowest (l, w) = (Ok tt, (l', w')) /\ l_segments l' = [] /\
    (LowestOffset (l', w')).1 = Panic "index out of range" /\
    (HighestOffset (l', w')).1 = Panic "index out of range" /\
    forall off, (Log_Read off (l', w')).1 = Err (ErrOffsetOutOfRange off).
Proof.
  intros Hr [Hge Hlt]. destruct (Truncate_run lowest l w lo recs Hr) as
    (l' & w' & k & n & Hrun & _ & _ & _ & _ & Hnil).
  pose proof (log_inv_range _ _ _ _ (proj1 Hr)) as [Hlo _].
  rewrite u64_small in Hnil by in_range. specialize (Hnil Hge).
  exists l', w'. split; [done|]. split; [done|].
  unfold LowestOffset, HighestOffset, Log_Read, mbind, M_bind, get. cbn [fst snd]. by rewrite Hnil.
Qed.

(** [Reset] cannot succeed, whatever the disk does: [Remove] deletes the
    directory that [setup] then reads. *)
Theorem reset_never_succeeds l w : is_ok (Log_Reset (l, w)).1 = false.
Proof. destruct (Log_Reset (l, w)) as [[[]|e|p] s] eqn:E; [by apply Log_Reset_fails in E|done..]. Qed.

(** C38. When [MaxIndexBytes] leaves less than one entry at the end of the index,
    and the store is not full, the log gets stuck: every append returns
    [io.EOF], although the disk works. *)
Theorem append_stuck n rs l w lo recs :
  log_inv l w lo recs -> log_good l w -> active_below n l w ->
  n + Z.of_nat (length rs) * 2 ^ 32 <= 2 ^ 48 -> Forall record_wf rs ->
  lo + Z.of_nat (length recs) + 1 < 2 ^ 64 -> index_full l ->
  Forall (fun o => o = Err io_EOF) (run_ops log_exec (OpAppend <$> rs) (l, w)).1.
Proof.
  intros Hinv Hg Hb Hn Hwf. revert n l w Hinv Hg Hb Hn.
  induction Hwf as [|r rs Hr Hwf IH]; intros n l w Hinv Hg Hb Hn Hoff Hfull; [constructor|].
  rewrite fmap_cons. cbn [run_ops].
  cbn [length] in Hn.
  destruct (Log_Append (Some r) (l, w)) as [o [l1 w1]] eqn:Ha.
  pose proof Ha as Ha'. eapply append_full in Ha' as (-> & Hinv1 & Hg1 & Hb1 & Hf1); try done; [|lia].
  assert (He : log_exec (OpAppend r) (l, w) = (Err io_EOF, (l1, w1)))
    by (cbn [log_exec]; by apply bind_Err). rewrite He.
  specialize (IH (n + 2 ^ 32) l1 w1 Hinv1 Hg1 Hb1 ltac:(lia) Hoff Hf1).
  destruct (run_ops log_exec _ (l1, w1)) as [os s2]. by constructor.
Qed.
End props.

(** ** Witnesses *)
Module LogWitness.
Import Wire Scenario.

(** With the default limits. *)
Lemma log_refinement_witness :
  exists l w1, NewLog "d" plain wit_world = (Ok l, w1) /\
    (run_ops log_exec [OpAppend (wit_record abc); OpAppend (wit_record abc); OpAppend (wit_record abc);
       OpRestart; OpRead 6; OpRead 8; OpHighest] (l, w1)).1 =
    [Ok (ResOffset 5); Ok (ResOffset 6); Ok (ResOffset 7); Ok ResDone;
     Ok (ResRecord (mkRecord abc 6 7 1)); Err (ErrOffsetOutOfRange 8); Ok (ResOffset 7)].
Proof.
  assert (Hw : record_wf (wit_record abc)) by (by vm_compute).
  destruct (log_refinement "d" plain wit_world
    [OpAppend (wit_record abc); OpAppend (wit_record abc); OpAppend (wit_record abc);
     OpRestart; OpRead 6; OpRead 8; OpHighest]) as (l & w1 & H1 & H2).
  - exact plain_limits.
  - by vm_compute.
  - done.
  - set_solver.
  - intros n. apply lookup_empty.
  - rewrite plain_min. assert (Hf : fits 13 (wit_record abc)) by (by apply abc_fits). by repeat constructor.
  - cbn. lia.
  - exists l, w1. split; [done|]. rewrite H2. by vm_compute.
Defined.

Lemma log_append_safe_witness :
  exists l' w', Log_Append (Some (wit_record abc)) (wit_new small) = (Ok 5, (l', w')) /\
    log_inv l' w' 5 [set_Offset 5 (wit_record abc)].
Proof.
  destruct (wit_new_ready small small_limits) as [(Hi & Hc & _) _]; [by vm_compute|].
  assert (Ho : (Log_Append (Some (wit_record abc)) (wit_new small)).1 = Ok 5) by (by vm_compute).
  destruct (wit_new small) as [l w].
  destruct (Log_Append (Some (wit_record abc)) (l, w)) as [o [l' w']] eqn:E.
  cbn in Ho. subst o.
  exists l', w'. split; [done|].
  pose proof (log_append_safe _ _ _ _ _ _ _ _ Hi Hc (ltac:(by vm_compute) : record_wf (wit_record abc)) ltac:(cbn; lia) E) as H.
  apply H.
Defined.

Lemma log_read_safe_witness :
  exists l' w', Log_Read 6 (wit_append (wit_append (wit_new small))) = (Ok (mkRecord abc 6 7 1), (l', w')) /\
    log_inv l' w' 5 [mkRecord abc 5 7 1; mkRecord abc 6 7 1].
Proof.
  pose proof small_two as (Hi & _).
  assert (Ho : (Log_Read 6 (wit_append (wit_append (wit_new small)))).1 = Ok (mkRecord abc 6 7 1)) by (by vm_compute).
  destruct (wit_append (wit_append (wit_new small))) as [l w].
  destruct (Log_Read 6 (l, w)) as [o [l' w']] eqn:E.
  cbn in Ho. subst o. exists l', w'. split; [done|]. exact (proj1 (log_read_safe _ _ _ _ _ _ _ _ Hi E)).
Defined.

Lemma log_close_reopen_witness :
  let s := wit_append (wit_append (wit_new small)) in
  exists l1 w1 l2 w2, Log_Close s = (Ok tt, (l1, w1)) /\
    NewLog (l_Dir s.1) (l_Config s.1) w1 = (Ok l2, w2) /\
    log_ready l2 w2 5 [mkRecord abc 5 7 1; mkRecord abc 6 7 1].
Proof.
  intros s. pose proof (log_close_reopen s.1 s.2 5 _ small_two) as H. unfold s in *.
  destruct (wit_append (wit_append (wit_new small))) as [l w]. exact H.
Defined.

Lemma truncate_keeps_later_witness :
  let s := wit_append (wit_append (wit_new small)) in
  exists l' w' n, Truncate 5 s = (Ok tt, (l', w')) /\
    log_ready l' w' (5 + Z.of_nat n) (drop n [mkRecord abc 5 7 1; mkRecord abc 6 7 1]).
Proof.
  intros s.
  destruct (truncate_keeps_later 5 s.1 s.2 5 _ small_two) as (l' & w' & n & H1 & H2 & _); [lia|cbn; lia|].
  exists l', w', n. split; [|exact H2]. unfold s in *. by destruct (wit_append (wit_append (wit_new small))).
Defined.

Lemma truncate_all_panics_witness :
  let s := wit_append (wit_append (wit_new small)) in
  exists l' w', Truncate 6 s = (Ok tt, (l', w')) /\
    (HighestOffset (l', w')).1 = Panic "index out of range".
Proof.
  intros s.
  destruct (truncate_all_panics 6 s.1 s.2 5 _ small_two) as (l' & w' & H1 & _ & _ & H2 & _); [cbn; lia|].
  exists l', w'. split; [|exact H2]. unfold s in *. by destruct (wit_append (wit_append (wit_new small))).
Defined.

Lemma append_stuck_witness :
  Forall (fun o => o = Err io_EOF)
    (run_ops log_exec (OpAppend <$> [wit_record []; wit_record abc]) (wit_append (wit_new odd))).1.
Proof.
  destruct (wit_new_ready odd) as [Hr _]; [by vm_compute..|].
  apply wit_append_ready in Hr; [|by vm_compute|cbn; lia]. destruct Hr as (Hi & _ & Hg).
  assert (Hb : active_below 100 (wit_append (wit_new odd)).1 (wit_append (wit_new odd)).2).
  { intros id s Ha Hs. vm_compute in Ha. injection Ha as <-. vm_compute in Hs. injection Hs as <-.
    vm_compute. done. }
  assert (Hf : index_full (wit_append (wit_new odd)).1).
  { eexists 0%nat, _. split; [by vm_compute|]. split; [by vm_compute|]. by vm_compute. }
  destruct (wit_append (wit_new odd)) as [l w].
  apply (append_stuck 100 _ l w _ _ Hi Hg Hb); [cbn; lia| |cbn; lia|exact Hf].
  repeat constructor; by vm_compute.
Defined.
End LogWitness.
