(* ===== verification/LogTyped.v ===== *)
(** The integers of the log stay in the range of their Go types, whatever the disk
    does: every operation of [internal/log], on every branch, keeps [log_typed] and
    returns offsets that are [uint64] values. *)

From stdpp Require Import sorting.
From S2P Require Import Prelude Endian OS Proto Wire Config Store Index Names Segment Log Scenario.

Definition config_typed (c : Config) : Prop :=
  is_u64 (MaxStoreBytes (Segment c)) /\ is_u64 (MaxIndexBytes (Segment c)) /\ is_u64 (InitialOffset (Segment c)).
Definition store_typed (s : store) : Prop := is_u64 (s_size s).
Definition index_typed (i : index) : Prop := is_u64 (ix_size i) /\ is_u64 (ix_mmap_len i).
Definition segment_typed (s : segment) : Prop :=
  store_typed (sg_store s) /\ index_typed (sg_index s) /\ is_u64 (baseOffset s) /\ is_u64 (nextOffset s).
Definition log_typed (l : Log) : Prop := config_typed (l_Config l) /\ map_Forall (fun _ => segment_typed) (l_heap l).

Local Abbreviation anything := (fun _ => True).

(** ** Store *)

Lemma keeps_on_buf {A} (m : M bwst A) : keeps (fun s => store_typed s.1) anything (on_buf m).
Proof. apply (keeps_zoom _ anything); [done..|apply keeps_any]. Qed.
Lemma keeps_on_disk {A} (m : M world A) : keeps (fun s : sst => store_typed s.1) anything (on_disk m).
Proof. apply (keeps_zoom _ anything); [done..|apply keeps_any]. Qed.
#[export] Hint Extern 1 (keeps _ _ (on_buf _)) => eapply keeps_on_buf : keeps.
#[export] Hint Extern 1 (keeps _ _ (on_disk _)) => eapply keeps_on_disk : keeps.

Lemma store_Append_typed p :
  keeps (fun s => store_typed s.1) (fun r => is_u64 r.1 /\ is_u64 r.2) (store_Append p).
Proof.
  unfold store_Append. keeps_step. keeps_step. keeps_step.
  eapply keeps_bind; [apply keeps_modify; intros s Hs; apply u64_range|]. intros _ _.
  apply keeps_ret. split; [apply u64_range|done].
Qed.

Lemma store_Read_typed pos : keeps (fun s => store_typed s.1) anything (store_Read pos).
Proof.
  assert (Hr : forall n off, keeps (fun s => store_typed s.1) anything (read_full n off)).
  { intros n off. unfold read_full. keeps_step. keeps_step. destruct x0 as [b [e|]]; auto with keeps. }
  unfold store_Read. keeps_step. keeps_step. eapply keeps_bind; [apply Hr|]. intros size _.
  eapply (keeps_bind _ anything); [by apply keeps_lift|]. intros n _. destruct (maxAlloc <? n); auto with keeps.
Qed.

Lemma store_ReadAt_typed n off : keeps (fun s => store_typed s.1) anything (store_ReadAt n off).
Proof. unfold store_ReadAt. keeps_step. keeps_step. destruct x0; auto with keeps. Qed.

Lemma store_Close_typed : keeps (fun s => store_typed s.1) anything store_Close.
Proof. unfold store_Close. keeps_step. keeps_step. apply (keeps_zoom _ anything); [done..|apply keeps_any]. Qed.

(** ** Index *)

Lemma keeps_ix_disk {A} (m : M world A) : keeps (fun s : ist => index_typed s.1) anything (ix_disk m).
Proof. apply (keeps_zoom _ anything); [done..|apply keeps_any]. Qed.
#[export] Hint Extern 1 (keeps _ _ (ix_disk _)) => eapply keeps_ix_disk : keeps.

Lemma mmap_read_typed lo hi : keeps (fun s => index_typed s.1) anything (mmap_read lo hi).
Proof. unfold mmap_read. keeps_step. repeat (destruct (negb _); [auto with keeps|]). destruct (_ <? _); auto with keeps. Qed.

Lemma mmap_write_typed lo hi b : keeps (fun s => index_typed s.1) anything (mmap_write lo hi b).
Proof.
  unfold mmap_write. keeps_step. repeat (destruct (negb _); [auto with keeps|]).
  destruct (_ <? _); [auto with keeps|]. by apply keeps_modify.
Qed.
#[export] Hint Extern 1 (keeps _ _ (mmap_read _ _)) => eapply mmap_read_typed : keeps.
#[export] Hint Extern 1 (keeps _ _ (mmap_write _ _ _)) => eapply mmap_write_typed : keeps.

Lemma index_Write_typed off pos : keeps (fun s => index_typed s.1) anything (index_Write off pos).
Proof.
  unfold index_Write. keeps_step. destruct (_ <? _); [auto with keeps|]. keeps_step. keeps_step.
  apply keeps_modify. intros s [H1 H2]. split; [apply u64_range|done].
Qed.

Lemma index_Close_typed : keeps (fun s => index_typed s.1) anything index_Close.
Proof.
  assert (Hms : keeps (fun s => index_typed s.1) anything msync).
  { unfold msync. keeps_step. destruct (_ || _); auto with keeps. }
  assert (Hmu : keeps (fun s => index_typed s.1) anything munmap).
  { unfold munmap. keeps_step. destruct (ix_mapped _); [|auto with keeps]. keeps_step. by apply keeps_modify. }
  unfold index_Close. keeps_step. repeat keeps_step. apply (keeps_zoom _ anything); [done..|apply keeps_any].
Qed.

Lemma u32_u64 z : is_u32 z -> is_u64 z.
Proof. unfold is_u32, is_u64. lia. Qed.

Lemma index_Read_typed inn : keeps (fun s => index_typed s.1) anything (index_Read inn).
Proof.
  unfold index_Read. keeps_step. destruct (_ =? 0); [auto with keeps|]. destruct (_ <? _); [auto with keeps|].
  keeps_step. eapply (keeps_bind _ anything); [by apply keeps_lift|]. intros out' _.
  keeps_step. eapply (keeps_bind _ anything); [by apply keeps_lift|]. auto with keeps.
Qed.

(** ** Segment *)

Local Abbreviation gtyped := (fun s : gst => segment_typed s.1).

Lemma keeps_on_store {A} (Q : A -> Prop) (m : M sst A) :
  keeps (fun s => store_typed s.1) Q m -> keeps gtyped Q (on_store m).
Proof. apply keeps_zoom; [by intros s (? & _)|]. intros t s Ht (_ & H). by split. Qed.
Lemma keeps_on_index {A} (Q : A -> Prop) (m : M ist A) :
  keeps (fun s => index_typed s.1) Q m -> keeps gtyped Q (on_index m).
Proof. apply keeps_zoom; [by intros s (_ & ? & _)|]. intros t s Ht (H1 & _ & H2). by split. Qed.
Lemma keeps_sg_disk {A} (m : M world A) : keeps gtyped anything (sg_disk m).
Proof. apply (keeps_zoom _ anything); [done..|apply keeps_any]. Qed.

#[export] Hint Extern 1 (keeps _ _ (store_Append _)) => eapply store_Append_typed : keeps.
#[export] Hint Extern 1 (keeps _ _ (store_Read _)) => eapply store_Read_typed : keeps.
#[export] Hint Extern 1 (keeps _ _ (store_ReadAt _ _)) => eapply store_ReadAt_typed : keeps.
#[export] Hint Extern 1 (keeps _ _ store_Close) => eapply store_Close_typed : keeps.
#[export] Hint Extern 1 (keeps _ _ (index_Write _ _)) => eapply index_Write_typed : keeps.
#[export] Hint Extern 1 (keeps _ _ (index_Read _)) => eapply index_Read_typed : keeps.
#[export] Hint Extern 1 (keeps _ _ index_Close) => eapply index_Close_typed : keeps.
#[export] Hint Extern 1 (keeps _ _ (Segment.on_store _)) => eapply keeps_on_store : keeps.
#[export] Hint Extern 1 (keeps _ _ (on_index _)) => eapply keeps_on_index : keeps.
#[export] Hint Extern 1 (keeps _ _ (sg_disk _)) => eapply keeps_sg_disk : keeps.

Section segment.
Context `{ProtoMessage record}.

Lemma segment_Append_typed rc : keeps gtyped is_u64 (segment_Append rc).
Proof.
  unfold segment_Append. keeps_step. destruct rc as [r|]; [|auto with keeps].
  eapply (keeps_bind _ anything); [by apply keeps_lift|]. intros p _. keeps_step. destruct x0 as [n pos].
  keeps_step. eapply keeps_bind; [apply keeps_modify|].
  - intros s (H1 & H2 & H3 & H4). split_and!; [done..|apply u64_range].
  - intros _ _. apply keeps_ret. apply Hx.
Qed.

Lemma segment_Read_typed off : keeps gtyped anything (segment_Read off).
Proof. unfold segment_Read. keeps_step. keeps_step. destruct x0. keeps_step. by apply keeps_lift. Qed.
End segment.

Lemma segment_Close_typed : keeps gtyped anything segment_Close.
Proof. unfold segment_Close. keeps_step. auto with keeps. Qed.

Lemma segment_Remove_typed : keeps gtyped anything segment_Remove.
Proof.
  unfold segment_Remove. eapply keeps_bind; [apply segment_Close_typed|]. intros _ _. keeps_step. keeps_step.
  auto with keeps.
Qed.

Lemma newSegment_typed dir base c :
  is_u64 base -> config_typed c -> keeps anything segment_typed (newSegment dir base c).
Proof.
  intros Hb (_ & Hi & _). unfold newSegment, newStore, newIndex.
  assert (Hany : forall A (m : M world A), keeps anything anything m) by (intros; apply keeps_any).
  eapply keeps_bind; [apply Hany|]. intros sf _.
  eapply (keeps_bind _ store_typed).
  { apply keeps_wrap_err. eapply keeps_bind; [apply Hany|]. intros fi _. apply keeps_ret. apply u64_range. }
  intros st Hst. eapply keeps_bind; [apply Hany|]. intros xf _. eapply (keeps_bind _ index_typed).
  { apply keeps_wrap_err. do 3 (eapply keeps_bind; [apply Hany|]; intros ? _). apply keeps_ret.
    split; [apply u64_range|done]. }
  intros ix Hix. eapply keeps_bind; [apply Hany|]. intros r _. apply keeps_ret.
  split_and!; [done|done|done|]. cbn. destruct r as [[off pos]|e]; [apply u64_range|done].
Qed.

(** ** Log *)

Local Abbreviation ltyped := (fun s : lst => log_typed s.1).

Lemma keeps_on_segment {A} (Q : A -> Prop) id (m : M gst A) : keeps gtyped Q m -> keeps ltyped Q (on_segment id m).
Proof.
  intros Hm [l w] [Hc Hh]. unfold on_segment. cbn [fst snd] in *.
  destruct (l_heap l !! id) as [sg|] eqn:E; [|by split].
  destruct (Hm (sg, w) (Hh id sg E)) as [H1 H2]. destruct (m (sg, w)) as [o [sg' w']]. cbn in *.
  split; [|done]. split; [done|]. cbn. by apply map_Forall_insert_2.
Qed.

Lemma get_segment_typed id : keeps ltyped segment_typed (get_segment id).
Proof. apply keeps_on_segment. keeps_step. by apply keeps_ret. Qed.

Lemma keeps_log_disk {A} (Q : A -> Prop) (m : M world A) : keeps anything Q m -> keeps ltyped Q (log_disk m).
Proof. by apply keeps_zoom. Qed.

#[export] Hint Extern 1 (keeps _ _ segment_Close) => eapply segment_Close_typed : keeps.
#[export] Hint Extern 1 (keeps _ _ segment_Remove) => eapply segment_Remove_typed : keeps.
#[export] Hint Extern 1 (keeps _ _ (segment_Append _)) => eapply segment_Append_typed : keeps.
#[export] Hint Extern 1 (keeps _ _ (segment_Read _)) => eapply segment_Read_typed : keeps.
#[export] Hint Extern 1 (keeps _ _ (on_segment _ _)) => eapply keeps_on_segment : keeps.
#[export] Hint Extern 1 (keeps _ _ (get_segment _)) => eapply get_segment_typed : keeps.
#[export] Hint Extern 1 (keeps _ _ (log_disk _)) => eapply keeps_log_disk; eapply keeps_any : keeps.

Lemma Log_newSegment_typed off : is_u64 off -> keeps ltyped anything (Log_newSegment off).
Proof.
  intros Ho. unfold Log_newSegment. keeps_step. eapply (keeps_bind _ segment_typed).
  - apply keeps_log_disk, newSegment_typed; [done|apply Hx].
  - intros sg Hsg. apply keeps_modify. intros s [Hc Hh]. split; [done|]. cbn. by apply map_Forall_insert_2.
Qed.

Lemma ParseUint_loop_typed s n : is_u64 n -> is_u64 (ParseUint_loop s n).1.
Proof.
  revert n. induction s as [|c s IH]; intros n Hn; cbn [ParseUint_loop]; [done|].
  destruct (_ || _) eqn:Ed; [done|]. destruct (_ <=? n); [by vm_compute|].
  destruct (Z.ltb_spec maxUint64 (n * 10 + (Z.of_nat (Ascii.nat_of_ascii c) - 48))); [by vm_compute|].
  apply IH. apply orb_false_iff in Ed as [Ed _]. apply Z.ltb_ge in Ed. unfold is_u64, maxUint64 in *. lia.
Qed.

Lemma name_offset_typed n : is_u64 (name_offset n).
Proof.
  unfold name_offset, ParseUint. destruct (TrimSuffix n (path_Ext n)); [by vm_compute|].
  by apply ParseUint_loop_typed.
Qed.

Lemma setup_typed : keeps ltyped anything setup.
Proof.
  unfold setup. keeps_step. eapply (keeps_bind _ anything).
  { apply keeps_wrap_err, keeps_log_disk, keeps_any. }
  intros files _. eapply keeps_bind; [apply (keeps_open_segments _ is_u64); [apply Log_newSegment_typed|]|].
  - unfold sort_offsets. rewrite (merge_sort_Permutation Z.le (name_offset <$> files)).
    apply list.Forall_fmap, list.Forall_true. intros n. apply name_offset_typed.
  - intros _ _. eapply keeps_bind; [apply keeps_get|]. intros s Hs. destruct (decide _); [|auto with keeps].
    apply Log_newSegment_typed. apply Hs.
Qed.

Lemma close_segments_typed ids : keeps ltyped anything (close_segments ids).
Proof. induction ids as [|id ids IH]; cbn [close_segments]; [auto with keeps|]. keeps_step. done. Qed.

Lemma Log_Close_typed : keeps ltyped anything Log_Close.
Proof. unfold Log_Close. keeps_step. apply close_segments_typed. Qed.

Lemma Log_Remove_typed : keeps ltyped anything Log_Remove.
Proof.
  unfold Log_Remove. eapply keeps_bind; [apply Log_Close_typed|]. intros _ _. keeps_step. auto with keeps.
Qed.

Lemma truncate_loop_typed lowest ids kept : keeps ltyped anything (truncate_loop lowest ids kept).
Proof.
  revert kept. induction ids as [|id ids IH]; intros kept; cbn [truncate_loop]; [auto with keeps|].
  keeps_step. destruct (_ <=? _); [keeps_step|]; apply IH.
Qed.

Section log.
Context `{Hmsg : ProtoMessage record}.

Lemma Log_Append_typed rc : keeps ltyped is_u64 (Log_Append rc).
Proof.
  unfold Log_Append. keeps_step. destruct (l_active x.1) as [id|]; [|auto with keeps].
  eapply keeps_bind; [auto with keeps|]. intros off Hoff. keeps_step. destruct (IsMaxed _); [|by apply keeps_ret].
  eapply keeps_bind; [apply Log_newSegment_typed, u64_range|]. intros _ _. by apply keeps_ret.
Qed.

Lemma Log_Read_typed off : keeps ltyped anything (Log_Read off).
Proof.
  unfold Log_Read. keeps_step. destruct (find_segment _ _ _); [|auto with keeps]. keeps_step.
  destruct (_ <=? _); auto with keeps.
Qed.

(** Every operation of a [Log], with any argument; a method that returns no offset
    gives [None]. *)
Inductive any_op :=
| AnyAppend (rc : option record) | AnyRead (off : Z) | AnyLowest | AnyHighest | AnyTruncate (lowest : Z)
| AnyReset | AnyClose | AnyRemove | AnyReader (n : nat) (r : originReader).

Definition any_exec (op : any_op) : M lst (option Z) :=
  match op with
  | AnyAppend rc => off ← Log_Append rc; mret (Some off)
  | AnyRead off => Log_Read off;; mret None
  | AnyLowest => off ← LowestOffset; mret (Some off)
  | AnyHighest => off ← HighestOffset; mret (Some off)
  | AnyTruncate lowest => Truncate lowest;; mret None
  | AnyReset => Log_Reset;; mret None
  | AnyClose => Log_Close;; mret None
  | AnyRemove => Log_Remove;; mret None
  | AnyReader n r => originReader_Read n r;; mret None
  end.

Definition offset_typed (r : option Z) : Prop := match r with Some off => is_u64 off | None => True end.

Lemma any_exec_typed op : keeps ltyped offset_typed (any_exec op).
Proof.
  assert (Hnone : forall A (Q : A -> Prop) (m : M lst A), keeps ltyped Q m -> keeps ltyped offset_typed (m;; mret None)).
  { intros A Q m Hm. eapply keeps_bind; [exact Hm|]. intros _ _. by apply keeps_ret. }
  assert (Hsome : forall m : M lst Z, keeps ltyped is_u64 m -> keeps ltyped offset_typed (off ← m; mret (Some off))).
  { intros m Hm. eapply keeps_bind; [exact Hm|]. intros off Hoff. by apply keeps_ret. }
  destruct op as [rc|off| | |lowest| | | |n r]; cbn [any_exec].
  - apply Hsome, Log_Append_typed.
  - eapply Hnone, Log_Read_typed.
  - apply Hsome. unfold LowestOffset. keeps_step. destruct (l_segments _); [auto with keeps|].
    eapply keeps_bind; [apply get_segment_typed|]. intros sg Hsg. apply keeps_ret, Hsg.
  - apply Hsome. unfold HighestOffset. keeps_step. destruct (list.last _); [|auto with keeps].
    eapply keeps_bind; [apply get_segment_typed|]. intros sg Hsg.
    destruct (_ =? 0); apply keeps_ret; [by vm_compute|apply u64_range].
  - apply (Hnone _ anything). unfold Truncate. keeps_step. eapply keeps_bind; [apply truncate_loop_typed|].
    intros kept _. by apply keeps_modify.
  - apply (Hnone _ anything). unfold Log_Reset. eapply keeps_bind; [apply Log_Remove_typed|]. intros _ _.
    apply setup_typed.
  - eapply Hnone, Log_Close_typed.
  - eapply Hnone, Log_Remove_typed.
  - apply (Hnone _ anything). unfold originReader_Read. eapply keeps_bind; [auto with keeps|].
    intros [b err] _. auto with keeps.
Qed.

Lemma NewLog_typed dir c w l w' :
  config_typed c -> NewLog dir c w = (Ok l, w') -> log_typed l.
Proof.
  intros (H1 & H2 & H3) Hrun. unfold NewLog in Hrun.
  destruct (setup_typed (mkLog dir (default_config c) ∅ 0 None [], w)) as [Ht _].
  { split; [|apply map_Forall_empty]. cbn. split_and!; cbn; [| |done].
    - destruct (_ =? 0); [by vm_compute|done].
    - destruct (_ =? 0); [by vm_compute|done]. }
  destruct (setup _) as [o s]. destruct o; by simplify_eq.
Qed.

(** The log is well-typed at every step: from [NewLog] on, after any sequence of
    operations with any arguments, and whatever system calls fail on the way, sizes,
    base and next offsets of all segments are in the range of [uint64], and so is
    every offset an operation returns. *)
Theorem log_stays_typed dir c w l w' ops :
  config_typed c -> NewLog dir c w = (Ok l, w') ->
  log_typed (run_ops any_exec ops (l, w')).2.1 /\
  Forall (fun o => match o with Ok r => offset_typed r | _ => True end) (run_ops any_exec ops (l, w')).1.
Proof.
  intros Hc Hn. apply (keeps_run_ops ltyped); [apply any_exec_typed|]. by eapply NewLog_typed.
Qed.
End log.

(** ** Witness: appends, a truncation and a reset on a disk that fails. *)
Module TypedWitness.
Import Wire Scenario.

Definition ops : list any_op :=
  [AnyAppend (Some (wit_record abc)); AnyAppend None; AnyHighest; AnyTruncate 5; AnyReset; AnyAppend (Some (wit_record abc))].
Definition failing : world := World {["d"%string]} ∅ ∅ (replicate 9 None ++ replicate 9 (Some (Fault (Errno 5) 1))) ∅.
Definition opened : lst := match NewLog "d" small failing with (Ok l, w) => (l, w) | (_, w) => wit_new small end.

Lemma log_stays_typed_witness :
  log_typed (run_ops any_exec ops opened).2.1 /\
  is_ok <$> (run_ops any_exec ops opened).1 = [true; false; true; false; false; false].
Proof.
  split; [|by vm_compute].
  assert (E : NewLog "d" small failing = (Ok opened.1, opened.2)) by (by vm_compute).
  destruct opened as [l w]. cbn [fst snd] in E.
  apply (log_stays_typed "d" small failing l w ops); [|exact E]. by vm_compute.
Defined.
End TypedWitness.
