(* ===== verification/LogFrame.v ===== *)
(** A log acts on the files of its own directory only.

    [beside d w0 w]: outside the directory [d] the disk [w] is what [w0] was, and
    no file but the index files of [d] has been synced.
    Every operation of [internal/log], on every branch and under every failure,
    keeps it; two logs on one disk, as the replicated log has them, do not meet. *)

From stdpp Require Import sorting.
From S2P Require Import Prelude Endian OS Proto Wire Config Store Index Names Segment Log LogTyped.
From S2P Require Import Scenario.

Local Abbreviation anything := (fun _ => True).

Record beside (d : string) (w0 w : world) : Prop := {
  beside_fs p : p.1 <> d -> w_fs w !! p = w_fs w0 !! p;
  beside_pos p : p.1 <> d -> w_pos w !! p = w_pos w0 !! p;
  beside_dirs x : x <> d -> x ∈ w_dirs w <-> x ∈ w_dirs w0;
  beside_synced p : p.1 <> d \/ path_Ext p.2 <> ".index"%string -> w_synced w !! p = w_synced w0 !! p
}.

Lemma beside_refl d w : beside d w w.
Proof. by split. Qed.

(** The files of a log lie in [d]. *)
Definition file_in (d : string) (f : file) : Prop := (file_path f).1 = d.
Definition store_file (d : string) (f : file) : Prop := file_in d f /\ path_Ext (file_path f).2 = ".store"%string.
Definition index_file (d : string) (f : file) : Prop := file_in d f /\ path_Ext (file_path f).2 = ".index"%string.
Definition segment_in (d : string) (s : segment) : Prop :=
  store_file d (s_File (sg_store s)) /\ index_file d (ix_file (sg_index s)).
Definition log_in (d : string) (l : Log) : Prop :=
  l_Dir l = d /\ map_Forall (fun _ => segment_in d) (l_heap l).

#[global] Instance segment_in_dec d s : Decision (segment_in d s).
Proof. unfold segment_in, store_file, index_file, file_in. apply _. Defined.

Section frame.
Context (d : string) (w0 : world).
Local Abbreviation bw := (beside d w0).

(** ** The disk *)

Lemma beside_fput f b w : file_in d f -> bw w -> bw (fput (file_path f) b w).
Proof.
  intros Hf [H1 H2 H3 H4]. split; [|done..]. intros p Hp. cbn. rewrite lookup_insert_ne; [auto|].
  intros <-. by apply Hp.
Qed.
Lemma beside_seek f n w : file_in d f -> bw w -> bw (seek (file_path f) n w).
Proof.
  intros Hf [H1 H2 H3 H4]. split; [done| |done..]. intros p Hp. cbn. rewrite lookup_insert_ne; [auto|].
  intros <-. by apply Hp.
Qed.
Lemma beside_fappend f b w : file_in d f -> bw w -> bw (fappend (file_path f) b w).
Proof. intros Hf Hw. by apply beside_seek, beside_fput. Qed.
Lemma beside_oracle o w : bw w -> bw (set_oracle o w).
Proof. by intros [H1 H2 H3 H4]. Qed.

Lemma beside_fault : keeps bw anything next_fault.
Proof. intros w Hw. unfold next_fault. destruct (w_oracle w) as [|o os]; (split; [|done]); [done|by apply beside_oracle]. Qed.

Lemma beside_syscall {A} (Q : A -> Prop) (k : M world A) : keeps bw Q k -> keeps bw Q (syscall k).
Proof. intros Hk. eapply keeps_bind; [apply beside_fault|]. intros [f|] _; [apply keeps_throw|done]. Qed.

Lemma beside_check_open {A} (Q : A -> Prop) f (k : M world A) : keeps bw Q k -> keeps bw Q (check_open f k).
Proof. intros Hk. unfold check_open. destruct (file_closed f); [apply keeps_throw|by apply beside_syscall]. Qed.

(** A call that only looks. *)
Lemma beside_pure {A} (f : world -> outcome A) : keeps bw anything (fun w => (f w, w)).
Proof. intros w Hw. split; [done|]. by destruct (f w). Qed.

Lemma beside_Stat f : keeps bw anything (file_Stat f).
Proof. apply beside_check_open, (beside_pure (fun w => Ok _)). Qed.
Lemma beside_Sync f : index_file d f -> keeps bw anything (file_Sync f).
Proof.
  intros [Hf He]. apply beside_check_open. intros w [H1 H2 H3 H4]. split; [|done]. split; [done..|].
  intros p Hp. cbn. rewrite lookup_insert_ne; [auto|]. intros <-. by destruct Hp as [[]|[]].
Qed.
Lemma beside_Truncate f n : file_in d f -> keeps bw anything (file_Truncate f n).
Proof.
  intros Hf. apply beside_check_open. intros w Hw. destruct (n <? 0); [done|]. split; [by apply beside_fput|done].
Qed.
Lemma beside_ReadAt f n off : keeps bw anything (file_ReadAt f n off).
Proof.
  intros w Hw. unfold file_ReadAt. destruct (off <? 0); [done|]. destruct (n =? 0)%nat; [done|].
  destruct (file_closed f); [done|]. destruct (beside_fault w Hw) as [H1 _].
  by destruct (next_fault w) as [[[ft|]|e|p] w1].
Qed.
Lemma beside_Write f b : file_in d f -> keeps bw anything (file_Write f b).
Proof.
  intros Hf w Hw. unfold file_Write. destruct (file_closed f); [done|]. destruct (beside_fault w Hw) as [H1 _].
  destruct (next_fault w) as [[[ft|]|e|p] w1]; (split; [by apply beside_fappend|done]).
Qed.
Lemma beside_OpenFile n : keeps bw (fun f => file_path f = (d, n)) (os_OpenFile (d, n)).
Proof.
  apply beside_syscall. intros w Hw. destruct (decide _); [|done].
  destruct (w_fs w !! (d, n)); (split; [|done]); [by apply (beside_seek (File (d, n) false))|].
  by apply (beside_seek (File (d, n) false)), (beside_fput (File (d, n) false)).
Qed.
Lemma beside_Remove f : file_in d f -> keeps bw anything (os_Remove (file_path f)).
Proof.
  intros Hf. apply beside_syscall. intros w [H1 H2 H3 H4]. destruct (w_fs w !! file_path f); [|done].
  split; [|done]. split; [|done..]. intros p Hp. cbn. rewrite lookup_delete_ne; [auto|]. intros <-. by apply Hp.
Qed.
Lemma beside_RemoveAll : keeps bw anything (os_RemoveAll d).
Proof.
  apply beside_syscall. intros w [H1 H2 H3 H4]. split; [|done]. split; [|done| |done].
  - intros p Hp. cbn. rewrite <- H1 by done. rewrite map_lookup_filter.
    destruct (w_fs w !! p); cbn; [by rewrite option_guard_True|done].
  - intros x Hx. cbn. rewrite <- H3 by done. set_solver.
Qed.
Lemma beside_ReadDir dir : keeps bw anything (os_ReadDir dir).
Proof. apply beside_syscall. intros w Hw. by destruct (decide _). Qed.

(** ** The buffered writer *)

Local Abbreviation bbuf := (fun s : bwst => bw s.2).

Lemma beside_bw_Write f b : file_in d f -> keeps bbuf anything (bw_file_Write f b).
Proof. intros Hf. by apply (keeps_zoom _ bw); [..|apply beside_Write]. Qed.

Lemma beside_Flush f : file_in d f -> keeps bbuf anything (bufio_Flush f).
Proof.
  intros Hf. unfold bufio_Flush. keeps_step. destruct (bw_err x.1); [auto with keeps|].
  destruct (_ =? 0)%nat; [auto with keeps|]. eapply keeps_bind; [by apply beside_bw_Write|]. intros [n err] _.
  destruct (match err with Some e => Some e | None => _ end); [|by apply keeps_modify].
  eapply keeps_bind; [by apply keeps_modify|]. auto with keeps.
Qed.

Lemma beside_Write_loop fuel f p nn : file_in d f -> keeps bbuf anything (bufio_Write_loop fuel f p nn).
Proof.
  intros Hf. revert p nn. induction fuel as [|fuel IH]; intros p nn; cbn [bufio_Write_loop]; [auto with keeps|].
  keeps_step. destruct (_ && _); [|auto with keeps]. destruct (_ =? 0)%nat.
  - eapply keeps_bind; [by apply beside_bw_Write|]. intros [n err] _.
    eapply keeps_bind; [by apply keeps_modify|]. auto.
  - eapply keeps_bind; [by apply keeps_modify|]. intros _ _.
    eapply keeps_bind; [by apply keeps_try, beside_Flush|]. auto.
Qed.

Lemma beside_bufio_Write f p : file_in d f -> keeps bbuf anything (bufio_Write f p).
Proof.
  intros Hf. unfold bufio_Write. eapply keeps_bind; [by apply beside_Write_loop|]. intros [p' nn] _. keeps_step.
  destruct (bw_err x.1); [auto with keeps|]. eapply keeps_bind; [by apply keeps_modify|]. auto with keeps.
Qed.

(** ** Store *)

Definition store_here (s : sst) : Prop := store_file d (s_File s.1) /\ bw s.2.

Lemma here_on_buf {A} (m : M bwst A) : keeps bbuf anything m -> keeps store_here anything (on_buf m).
Proof. apply keeps_zoom; [by intros s []|]. by intros t s Ht []. Qed.
Lemma here_on_disk {A} (m : M world A) : keeps bw anything m -> keeps store_here anything (on_disk m).
Proof. apply keeps_zoom; [by intros s []|]. by intros t s Ht []. Qed.

Lemma here_file_Close (F : path -> Prop) : keeps (fun s : file * world => F (file_path s.1) /\ bw s.2) anything file_Close.
Proof.
  intros [f w] [Hf Hw]. unfold file_Close. destruct (file_closed f); [done|].
  destruct (beside_syscall anything (fun w => (Ok tt, w)) (beside_pure (fun w => Ok tt)) w Hw) as [H1 _].
  destruct (syscall _ w) as [o w1]. split; [done|]. by destruct o.
Qed.

Lemma here_Append p : keeps store_here anything (store_Append p).
Proof.
  unfold store_Append. keeps_step. destruct Hx as [[Hf _] _].
  do 2 (eapply keeps_bind; [by apply here_on_buf, beside_bufio_Write|]; intros ? _).
  eapply keeps_bind; [by apply keeps_modify|]. auto with keeps.
Qed.

Lemma here_read_full n off : keeps store_here anything (read_full n off).
Proof.
  unfold read_full. keeps_step. eapply keeps_bind; [apply here_on_disk, beside_ReadAt|]. intros [b [e|]] _; auto with keeps.
Qed.

Lemma here_Read pos : keeps store_here anything (store_Read pos).
Proof.
  unfold store_Read. keeps_step. destruct Hx as [[Hf _] _].
  eapply keeps_bind; [by apply here_on_buf, beside_Flush|]. intros _ _.
  eapply keeps_bind; [apply here_read_full|]. intros size _.
  eapply (keeps_bind _ anything); [by apply keeps_lift|]. intros n _.
  destruct (_ <? _); [auto with keeps|apply here_read_full].
Qed.

Lemma here_ReadAt n off : keeps store_here anything (store_ReadAt n off).
Proof.
  unfold store_ReadAt. keeps_step. destruct Hx as [[Hf _] _].
  eapply keeps_bind; [by apply keeps_try, here_on_buf, beside_Flush|]. intros [[]|e] _; [|auto with keeps].
  apply here_on_disk, beside_ReadAt.
Qed.

Lemma here_store_Close : keeps store_here anything store_Close.
Proof.
  unfold store_Close. keeps_step. destruct Hx as [[Hf _] _].
  eapply keeps_bind; [by apply here_on_buf, beside_Flush|]. intros _ _.
  eapply keeps_zoom; [| |apply (here_file_Close (fun p => p.1 = d /\ path_Ext p.2 = ".store"%string))]; done.
Qed.

(** ** Index *)

Definition index_here (s : ist) : Prop := index_file d (ix_file s.1) /\ bw s.2.

Lemma here_ix_disk {A} (m : M world A) : keeps bw anything m -> keeps index_here anything (ix_disk m).
Proof. apply keeps_zoom; [by intros s []|]. by intros t s Ht []. Qed.

Lemma here_mmap_read lo hi : keeps index_here anything (mmap_read lo hi).
Proof. unfold mmap_read. keeps_step. repeat (destruct (negb _); [auto with keeps|]). destruct (_ <? _); auto with keeps. Qed.

Lemma here_mmap_write lo hi b : keeps index_here anything (mmap_write lo hi b).
Proof.
  unfold mmap_write. keeps_step. destruct Hx as [[Hf _] _]. repeat (destruct (negb _); [auto with keeps|]).
  destruct (_ <? _); [auto with keeps|]. apply keeps_modify. intros s [H1 H2]. split; [done|]. by apply beside_fput.
Qed.

Lemma here_index_Write off pos : keeps index_here anything (index_Write off pos).
Proof.
  unfold index_Write. keeps_step. destruct (_ <? _); [auto with keeps|].
  do 2 (eapply keeps_bind; [apply here_mmap_write|]; intros _ _). by apply keeps_modify.
Qed.

Lemma here_index_Read inn : keeps index_here anything (index_Read inn).
Proof.
  unfold index_Read. keeps_step. destruct (_ =? 0); [auto with keeps|]. destruct (_ <? _); [auto with keeps|].
  do 2 (eapply keeps_bind; [apply here_mmap_read|]; intros ? _;
        eapply (keeps_bind _ anything); [by apply keeps_lift|]; intros ? _). auto with keeps.
Qed.

Lemma here_index_Close : keeps index_here anything index_Close.
Proof.
  assert (Hno : keeps index_here anything (ix_disk (syscall (fun w => (Ok tt, w)))))
    by (apply here_ix_disk, beside_syscall, (beside_pure (fun w => Ok tt))).
  assert (Hms : keeps index_here anything msync).
  { unfold msync. keeps_step. destruct (_ || _); [exact Hno|auto with keeps]. }
  assert (Hmu : keeps index_here anything munmap).
  { unfold munmap. keeps_step. destruct (ix_mapped _); [|auto with keeps].
    eapply keeps_bind; [exact Hno|]. intros _ _. by apply keeps_modify. }
  unfold index_Close. keeps_step. destruct Hx as [Hf _].
  eapply keeps_bind; [by apply keeps_wrap_err|]. intros _ _. eapply keeps_bind; [by apply keeps_wrap_err|]. intros _ _.
  eapply keeps_bind; [apply keeps_wrap_err, here_ix_disk, beside_Sync; exact Hf|]. intros _ _.
  eapply keeps_bind; [apply keeps_wrap_err, here_ix_disk, beside_Truncate, Hf|]. intros _ _.
  eapply keeps_zoom; [| |apply (here_file_Close (fun p => p.1 = d /\ path_Ext p.2 = ".index"%string))]; done.
Qed.

(** ** Segment *)

Definition segment_here (s : gst) : Prop := segment_in d s.1 /\ bw s.2.

Lemma here_on_store {A} (m : M sst A) : keeps store_here anything m -> keeps segment_here anything (on_store m).
Proof. apply keeps_zoom; [by intros s [[]]|]. by intros t s [] [[]]. Qed.
Lemma here_on_index {A} (m : M ist A) : keeps index_here anything m -> keeps segment_here anything (on_index m).
Proof. apply keeps_zoom; [by intros s [[]]|]. by intros t s [] [[]]. Qed.
Lemma here_sg_disk {A} (m : M world A) : keeps bw anything m -> keeps segment_here anything (sg_disk m).
Proof. apply keeps_zoom; [by intros s []|]. by intros t s Ht []. Qed.

Lemma here_segment_Close : keeps segment_here anything segment_Close.
Proof.
  unfold segment_Close. eapply keeps_bind; [apply here_on_index, here_index_Close|]. intros _ _.
  apply here_on_store, here_store_Close.
Qed.

Lemma here_segment_Remove : keeps segment_here anything segment_Remove.
Proof.
  unfold segment_Remove. eapply keeps_bind; [apply here_segment_Close|]. intros _ _. keeps_step.
  destruct Hx as [[[Hs _] [Hi _]] _]. eapply keeps_bind; [by apply here_sg_disk, beside_Remove|]. intros _ _.
  by apply here_sg_disk, beside_Remove.
Qed.

Lemma here_with_index {A} ix (m : M ist A) :
  index_file d (ix_file ix) -> keeps index_here anything m -> keeps bw anything (with_index ix m).
Proof.
  intros Hf Hm w Hw. unfold with_index. destruct (Hm (ix, w) (conj Hf Hw)) as [[_ H] _].
  destruct (m (ix, w)) as [o s]. split; [done|]. by destruct o.
Qed.

Lemma here_newSegment base c : keeps bw (segment_in d) (newSegment d base c).
Proof.
  unfold newSegment, newStore, newIndex. eapply keeps_bind; [apply keeps_wrap_err, beside_OpenFile|]. intros sf Hsf.
  eapply (keeps_bind _ (fun st => store_file d (s_File st))).
  { apply keeps_wrap_err. eapply keeps_bind; [apply keeps_wrap_err, beside_Stat|]. intros fi _. apply keeps_ret.
    unfold store_file, file_in. cbn [s_File]. rewrite Hsf. split; [done|apply path_Ext_store]. }
  intros st Hst. eapply keeps_bind; [apply keeps_wrap_err, beside_OpenFile|]. intros xf Hxf.
  eapply (keeps_bind _ (fun ix => index_file d (ix_file ix))).
  { apply keeps_wrap_err. eapply keeps_bind; [apply keeps_wrap_err, beside_Stat|]. intros fi _.
    assert (Hxd : index_file d xf).
    { unfold index_file, file_in. rewrite Hxf. split; [done|apply path_Ext_index]. }
    eapply keeps_bind; [apply beside_Truncate, Hxd|]. intros _ _. eapply (keeps_bind _ anything).
    - apply keeps_wrap_err. unfold syscall_Mmap. destruct (_ <=? 0); [apply keeps_throw|].
      apply beside_syscall, (beside_pure (fun w => Ok tt)).
    - intros _ _. by apply keeps_ret. }
  intros ix Hix. eapply keeps_bind; [apply keeps_try, here_with_index, here_index_Read; done|]. intros r _.
  by apply keeps_ret.
Qed.

(** ** Log *)

Definition log_here (s : lst) : Prop := log_in d s.1 /\ bw s.2.

Lemma here_on_segment {A} id (m : M gst A) : keeps segment_here anything m -> keeps log_here anything (on_segment id m).
Proof.
  intros Hm [l w] [[Hd Hh] Hw]. unfold on_segment. cbn [fst snd] in *.
  destruct (l_heap l !! id) as [sg|] eqn:E; [|done].
  destruct (Hm (sg, w) (conj (Hh id sg E) Hw)) as [[H1 H2] _]. destruct (m (sg, w)) as [o [sg' w']]. cbn in *.
  split; [|by destruct o]. split; [|done]. split; [done|]. cbn. by apply map_Forall_insert_2.
Qed.

Lemma here_get_segment id : keeps log_here anything (get_segment id).
Proof. apply here_on_segment. keeps_step. auto with keeps. Qed.

Lemma here_log_disk {A} (Q : A -> Prop) (m : M world A) : keeps bw Q m -> keeps log_here Q (log_disk m).
Proof. apply keeps_zoom; [by intros s []|]. by intros t s Ht []. Qed.

Lemma here_newSegment_log off : keeps log_here anything (Log_newSegment off).
Proof.
  unfold Log_newSegment. keeps_step. destruct Hx as [[Hd _] _]. rewrite Hd. eapply keeps_bind.
  - apply here_log_disk, here_newSegment.
  - intros sg Hsg. apply keeps_modify. intros s [[H1 H2] H3]. split; [|done]. split; [done|]. cbn.
    by apply map_Forall_insert_2.
Qed.

Lemma here_setup : keeps log_here anything setup.
Proof.
  unfold setup. keeps_step. eapply keeps_bind; [apply keeps_wrap_err, here_log_disk, beside_ReadDir|]. intros files _.
  eapply keeps_bind; [apply (keeps_open_segments _ anything); [intros b _; apply here_newSegment_log|by apply list.Forall_true]|]. intros _ _. keeps_step.
  destruct (decide _); [apply here_newSegment_log|auto with keeps].
Qed.

Lemma here_Log_Close : keeps log_here anything Log_Close.
Proof.
  unfold Log_Close. keeps_step. generalize (l_segments x.1) as ids. intros ids.
  induction ids as [|id ids IH]; cbn [close_segments]; [auto with keeps|].
  eapply keeps_bind; [apply here_on_segment, here_segment_Close|]. done.
Qed.

Lemma here_Log_Remove : keeps log_here anything Log_Remove.
Proof.
  unfold Log_Remove. eapply keeps_bind; [apply here_Log_Close|]. intros _ _. keeps_step.
  destruct Hx as [[Hd _] _]. rewrite Hd. apply here_log_disk, beside_RemoveAll.
Qed.

Lemma here_Truncate lowest : keeps log_here anything (Truncate lowest).
Proof.
  unfold Truncate. keeps_step. eapply (keeps_bind _ anything); [|intros kept _; by apply keeps_modify].
  generalize (l_segments x.1) as ids, ([] : list nat) as kept. intros ids.
  induction ids as [|id ids IH]; intros kept; cbn [truncate_loop]; [auto with keeps|].
  eapply keeps_bind; [apply here_get_segment|]. intros sg _. destruct (_ <=? _); [|apply IH].
  eapply keeps_bind; [apply here_on_segment, here_segment_Remove|]. auto.
Qed.
End frame.

Section log.
Context `{Hmsg : ProtoMessage record} (d : string) (w0 : world).

Lemma here_Log_Append rc : keeps (log_here d w0) anything (Log_Append rc).
Proof.
  assert (Hs : keeps (segment_here d w0) anything (segment_Append rc)).
  { unfold segment_Append. keeps_step. destruct rc as [r|]; [|auto with keeps].
    eapply (keeps_bind _ anything); [by apply keeps_lift|]. intros p _.
    eapply keeps_bind; [apply here_on_store, here_Append|]. intros [n pos] _.
    eapply keeps_bind; [apply here_on_index, here_index_Write|]. intros _ _.
    eapply keeps_bind; [by apply keeps_modify|]. auto with keeps. }
  unfold Log_Append. keeps_step. destruct (l_active x.1) as [id|]; [|auto with keeps].
  eapply keeps_bind; [by apply here_on_segment|]. intros off _.
  eapply keeps_bind; [apply here_get_segment|]. intros sg _. destruct (IsMaxed sg); [|auto with keeps].
  eapply keeps_bind; [apply here_newSegment_log|]. auto with keeps.
Qed.

Lemma here_Log_Read off : keeps (log_here d w0) anything (Log_Read off).
Proof.
  unfold Log_Read. keeps_step. destruct (find_segment _ _ _) as [id|]; [|auto with keeps].
  eapply keeps_bind; [apply here_get_segment|]. intros sg _. destruct (_ <=? _); [auto with keeps|].
  apply here_on_segment. unfold segment_Read. keeps_step.
  eapply keeps_bind; [apply here_on_index, here_index_Read|]. intros [o pos] _.
  eapply keeps_bind; [apply here_on_store, here_Read|]. intros p _. by apply keeps_lift.
Qed.

Lemma here_any_exec op : keeps (log_here d w0) anything (any_exec op).
Proof.
  assert (Hk : forall A B (m : M lst A) (f : A -> M lst B), keeps (log_here d w0) anything m ->
            (forall a, keeps (log_here d w0) anything (f a)) -> keeps (log_here d w0) anything (m ≫= f)).
  { intros A B m f Hm Hf. eapply keeps_bind; [exact Hm|]. auto. }
  assert (Hret : forall A (a : A), keeps (log_here d w0) anything (mret a)) by auto with keeps.
  destruct op as [rc|off| | |lowest| | | |n r]; cbn [any_exec]; (apply Hk; [|auto]).
  - apply here_Log_Append.
  - apply here_Log_Read.
  - unfold LowestOffset. keeps_step.
    destruct (l_segments x.1); [auto with keeps|]. apply Hk; [apply here_get_segment|auto].
  - unfold HighestOffset. keeps_step.
    destruct (list.last _); [|auto with keeps]. apply Hk; [apply here_get_segment|].
    intros sg. destruct (_ =? 0); auto.
  - apply here_Truncate.
  - unfold Log_Reset. apply Hk; [apply here_Log_Remove|]. intros _. apply here_setup.
  - apply here_Log_Close.
  - apply here_Log_Remove.
  - unfold originReader_Read. apply Hk; [apply here_on_segment, here_on_store, here_ReadAt|]. intros [b e]. auto.
Qed.
End log.

Lemma NewLog_here dir c w :
  beside dir w (NewLog dir c w).2 /\ (forall l, (NewLog dir c w).1 = Ok l -> log_in dir l).
Proof.
  unfold NewLog. destruct (here_setup dir w (mkLog dir (default_config c) ∅ 0 None [], w)) as [[H1 H2] _].
  { split; [|by apply beside_refl]. split; [done|]. apply map_Forall_empty. }
  destruct (setup _) as [o s]. split; [done|]. cbn. intros l. destruct o; intros [= <-]. done.
Qed.

(** C12. A log is confined to its directory: whatever operations run on it, with any
    arguments and under any failures of the disk, from [NewLog] on the files, file
    offsets and directories outside its own directory stay as they were, and only
    index files are ever synced. *)
Theorem log_confined `{ProtoMessage record} dir c w l w1 ops :
  NewLog dir c w = (Ok l, w1) -> beside dir w (run_ops any_exec ops (l, w1)).2.2.
Proof.
  intros Hn. destruct (NewLog_here dir c w) as [H1 H2]. rewrite Hn in H1, H2.
  destruct (keeps_run_ops (log_here dir w) (fun _ => True) any_exec ops (l, w1) (here_any_exec dir w)) as [[_ Hb] _].
  - split; [by apply H2|done].
  - exact Hb.
Qed.

(** ** Witness: a log that resets itself beside a file of another directory. *)
Module FrameWitness.
Import Wire Scenario TypedWitness.

Definition two_dirs : world :=
  World {["d"; "e"]}%string {[("e", "x")%string := [Byte.x01]]} ∅ (replicate 9 None ++ replicate 9 (Some (Fault (Errno 5) 1))) ∅.
Definition confined : lst := match NewLog "d" small two_dirs with (Ok l, w) => (l, w) | (_, w) => wit_new small end.

Lemma log_confined_witness :
  fcontent (run_ops any_exec ops confined).2.2 ("e", "x")%string = [Byte.x01].
Proof.
  assert (E : NewLog "d" small two_dirs = (Ok confined.1, confined.2)) by (by vm_compute).
  destruct confined as [l w]. cbn [fst snd] in E.
  destruct (log_confined "d" small two_dirs l w ops E) as [Hf _ _ _].
  unfold fcontent. rewrite Hf by done. reflexivity.
Defined.
End FrameWitness.
