(* ===== verification/PowerLoss.v ===== *)
(** A loss of power: what of a log is certain to be on the disk.

    [internal/log] syncs an index file when it closes it and never syncs a store
    file.  [power_loss] is the worst outcome that the system allows: every file has
    the contents it had when it was last synced (what the [msync] of an index secures
    is counted with the sync that follows it). *)

From S2P Require Import Prelude Endian OS Proto Wire Config Store Index Names Segment Log LogTyped.
From S2P Require Import LogFrame.
From S2P Require Import Scenario.

Local Abbreviation anything := (fun _ => True).

Definition power_loss (w : world) : world :=
  World (w_dirs w) (map_imap (fun p _ => Some (default [] (w_synced w !! p))) (w_fs w)) ∅ [] (w_synced w).

Lemma fcontent_power_loss w p : w_synced w !! p = None -> fcontent (power_loss w) p = [].
Proof. intros H. unfold fcontent, power_loss. cbn. rewrite map_lookup_imap, H. by destruct (w_fs w !! p). Qed.

(** ** Logs on empty store files *)

Section barren.
Context (d : string).

Definition is_store (p : path) : Prop := p.1 = d /\ path_Ext p.2 = ".store"%string.
Definition barren (w : world) : Prop := forall p, is_store p -> fcontent w p = [].

Lemma barren_fault : keeps barren anything next_fault.
Proof. intros w Hw. unfold next_fault. by destruct (w_oracle w). Qed.
Lemma fault_content w p : exists o w1, next_fault w = (Ok o, w1) /\ fcontent w1 p = fcontent w p.
Proof. unfold next_fault. destruct (w_oracle w); eauto. Qed.
Lemma barren_syscall {A} (Q : A -> Prop) (k : M world A) : keeps barren Q k -> keeps barren Q (syscall k).
Proof. intros Hk. eapply keeps_bind; [apply barren_fault|]. intros [f|] _; [apply keeps_throw|done]. Qed.
Lemma barren_check_open {A} (Q : A -> Prop) f (k : M world A) : keeps barren Q k -> keeps barren Q (check_open f k).
Proof. intros Hk. unfold check_open. destruct (file_closed f); [apply keeps_throw|by apply barren_syscall]. Qed.
Lemma barren_pure {A} (f : world -> outcome A) : keeps barren anything (fun w => (f w, w)).
Proof. intros w Hw. split; [done|]. by destruct (f w). Qed.

Lemma barren_OpenFile p : keeps barren (fun f => file_path f = p) (os_OpenFile p).
Proof.
  apply barren_syscall. intros w Hw. destruct (decide _); [|done]. destruct (w_fs w !! p) eqn:E; [done|].
  split; [|done]. intros q Hq. specialize (Hw q Hq). unfold fcontent in *. cbn.
  destruct (decide (p = q)) as [<-|Hne]; [by rewrite lookup_insert_eq|by rewrite lookup_insert_ne].
Qed.

Lemma barren_Truncate f n : ~ is_store (file_path f) -> keeps barren anything (file_Truncate f n).
Proof.
  intros Hf. apply barren_check_open. intros w Hw. destruct (n <? 0); [done|]. split; [|done].
  intros q Hq. specialize (Hw q Hq). unfold fcontent in *. cbn. rewrite lookup_insert_ne; [done|]. by intros <-.
Qed.

(** A segment whose store is empty, in the file and in the buffer. *)
Definition segment_barren (s : segment) : Prop :=
  is_store (store_Name (sg_store s)) /\ bw_buf (s_buf (sg_store s)) = [].
Definition log_barren (s : lst) : Prop := l_Dir s.1 = d /\ map_Forall (fun _ => segment_barren) (l_heap s.1) /\ barren s.2.

Lemma index_Read_pure inn ix w : exists o, index_Read inn (ix, w) = (o, (ix, w)).
Proof.
  unfold index_Read, mmap_read, mbind, M_bind, get, throw, panic, lift, mret, M_ret. cbn [fst snd].
  repeat (case_match; simplify_eq; eauto).
Qed.

Lemma newSegment_barren base c : keeps barren segment_barren (newSegment d base c).
Proof.
  unfold newSegment, newStore, newIndex. eapply keeps_bind; [apply keeps_wrap_err, barren_OpenFile|]. intros sf Hsf.
  eapply (keeps_bind _ (fun st => is_store (store_Name st) /\ bw_buf (s_buf st) = [])).
  { apply keeps_wrap_err. eapply (keeps_bind _ anything).
    - apply keeps_wrap_err, barren_check_open, (barren_pure (fun w => Ok _)).
    - intros fi _. apply keeps_ret. unfold store_Name, is_store. cbn [s_File]. rewrite Hsf.
      split; [split; [done|apply path_Ext_store]|done]. }
  intros st Hst. eapply keeps_bind; [apply keeps_wrap_err, barren_OpenFile|]. intros xf Hxf.
  eapply (keeps_bind _ anything).
  { apply keeps_wrap_err. eapply (keeps_bind _ anything).
    { apply keeps_wrap_err, barren_check_open, (barren_pure (fun w => Ok _)). }
    intros fi _. eapply keeps_bind.
    { apply barren_Truncate. rewrite Hxf. intros [_ He]. cbn in He. by rewrite path_Ext_index in He. }
    intros _ _. eapply (keeps_bind _ anything); [|intros _ _; by apply keeps_ret].
    apply keeps_wrap_err. unfold syscall_Mmap. destruct (_ <=? 0); [apply keeps_throw|].
    apply barren_syscall, (barren_pure (fun w => Ok tt)). }
  intros ix _. eapply (keeps_bind _ anything); [|intros r _; by apply keeps_ret].
  eapply keeps_mono; [|apply (keeps_try _ anything)]; [done|]. intros w Hw. unfold with_index.
  destruct (index_Read_pure (-1) ix w) as [o ->]. split; [done|]. by destruct o.
Qed.

Lemma Log_newSegment_barren off : keeps log_barren anything (Log_newSegment off).
Proof.
  unfold Log_newSegment. keeps_step. destruct Hx as (Hd & _). rewrite Hd. eapply keeps_bind.
  - eapply keeps_zoom; [| |apply newSegment_barren]; [by intros s (_ & _ & H)|]. by intros w s Hw (H1 & H2 & _).
  - intros sg Hsg. apply keeps_modify. intros s (H1 & H2 & H3). split_and!; [done| |done]. cbn.
    by apply map_Forall_insert_2.
Qed.

Lemma setup_barren : keeps log_barren anything setup.
Proof.
  unfold setup. keeps_step. eapply (keeps_bind _ anything).
  { apply keeps_wrap_err. eapply keeps_zoom; [| |apply barren_syscall]; [by intros s (_ & _ & H)|by intros t s Ht (H1 & H2 & _)|].
    intros w Hw. by destruct (decide _). }
  intros files _. eapply keeps_bind.
  { apply (keeps_open_segments _ anything); [intros b _; apply Log_newSegment_barren|by apply list.Forall_true]. }
  intros _ _. keeps_step. destruct (decide _); [apply Log_newSegment_barren|auto with keeps].
Qed.

Lemma NewLog_barren c w l w' : barren w -> NewLog d c w = (Ok l, w') -> log_barren (l, w').
Proof.
  intros Hw Hrun. unfold NewLog in Hrun. destruct (setup_barren (mkLog d (default_config c) ∅ 0 None [], w)) as [H _].
  { split_and!; [done|apply map_Forall_empty|done]. }
  destruct (setup _) as [[[]|e|m] [l1 w1]]; by simplify_eq.
Qed.

(** Nothing can be read from an empty store. *)
Lemma store_Read_barren pos s w :
  bw_buf (s_buf s) = [] -> fcontent w (store_Name s) = [] -> is_ok (store_Read pos (s, w)).1 = false.
Proof.
  intros Hb Hf. unfold store_Read, bufio_Flush, on_buf, read_full, on_disk, file_ReadAt. mrun. cbn [fst snd].
  rewrite Hb. destruct (bw_err (s_buf s)); [done|]. cbn. destruct (i64 pos <? 0); [done|].
  destruct (file_closed (s_File s)); [done|].
  destruct (fault_content w (store_Name s)) as (o & w1 & -> & Hc). rewrite Hf in Hc.
  destruct o as [ft|]; [done|]. unfold store_Name in Hc. rewrite Hc, drop_nil, take_nil. done.
Qed.
End barren.

Section log.
Context `{Hmsg : ProtoMessage record}.

Lemma segment_Read_barren d off s w :
  segment_barren d s -> barren d w -> is_ok (segment_Read off (s, w)).1 = false.
Proof.
  intros [Hs Hb] Hw. unfold segment_Read. erewrite (bind_Ok get) by reflexivity. cbn [fst].
  destruct (index_Read_pure (i64 (off -64 baseOffset s)) (sg_index s) w) as [o Ho].
  unfold mbind at 1, M_bind at 1. unfold on_index at 1, zoom at 1. cbn [fst snd]. rewrite Ho.
  destruct o as [[n pos]|e|m]; [|done..]. cbn [fst snd].
  pose proof (store_Read_barren pos (sg_store s) w Hb (Hw _ Hs)) as H.
  unfold mbind, M_bind, on_store, zoom. cbn. destruct (store_Read pos (sg_store s, w)) as [[b|e|m] t]; done.
Qed.

Lemma Log_Read_barren d off s : log_barren d s -> is_ok (Log_Read off s).1 = false.
Proof.
  destruct s as [l w]. intros (_ & Hh & Hw). unfold Log_Read. erewrite (bind_Ok get) by reflexivity. cbn [fst snd].
  destruct (find_segment _ _ _) as [id|]; [|done]. destruct (l_heap l !! id) as [sg|] eqn:E.
  2:{ unfold mbind, M_bind, get_segment, on_segment. cbn [fst snd]. by rewrite E. }
  unfold mbind at 1, M_bind at 1, get_segment. unfold on_segment at 1. cbn [fst snd]. rewrite E.
  unfold mbind, M_bind, get, mret, M_ret. cbn. destruct (_ <=? _); [done|].
  unfold on_segment. cbn. rewrite lookup_insert_eq. pose proof (segment_Read_barren d off sg w (Hh id sg E) Hw) as H.
  destruct (segment_Read off (sg, w)) as [o t]. exact H.
Qed.

(** C32. A loss of power can take everything: after any operations on a log in a
    directory without synced store files, a [Close] that succeeded included, the
    worst a loss of power does leaves a directory from which no record can be read
    any more, because no store file is ever synced. *)
Theorem power_loss_forgets dir c w l w1 ops c' l2 w2 :
  (forall n, path_Ext n = ".store"%string -> w_synced w !! (dir, n) = None) ->
  NewLog dir c w = (Ok l, w1) ->
  NewLog dir c' (power_loss (run_ops any_exec ops (l, w1)).2.2) = (Ok l2, w2) ->
  forall off, is_ok (Log_Read off (l2, w2)).1 = false.
Proof.
  intros Hno Hn Hn2 off. destruct (NewLog_here dir c w) as [Hb Hl]. rewrite Hn in Hb, Hl.
  destruct (keeps_run_ops (log_here dir w) (fun _ => True) any_exec ops (l, w1) (here_any_exec dir w)) as [[_ Hb2] _].
  { split; [by apply Hl|exact Hb]. }
  apply (Log_Read_barren dir). eapply NewLog_barren; [|exact Hn2]. intros [p1 n] [Hp He]. cbn in Hp, He. subst p1.
  apply fcontent_power_loss. rewrite (beside_synced _ _ _ Hb2) by (right; cbn; by rewrite He). by apply Hno.
Qed.
End log.

(** ** Witness: two records are appended, the log is closed and the power fails. *)
Module PowerWitness.
Import Wire Scenario.

Definition lost_ops : list any_op := [AnyAppend (Some (wit_record abc)); AnyAppend (Some (wit_record abc)); AnyRead 6; AnyClose].
Definition after_loss : world := power_loss (run_ops any_exec lost_ops (wit_new small)).2.2.

Lemma power_loss_forgets_witness :
  (run_ops any_exec lost_ops (wit_new small)).1 = [Ok (Some 5); Ok (Some 6); Ok None; Ok None] /\
  exists l2 w2, NewLog "d" small after_loss = (Ok l2, w2) /\ is_ok (Log_Read 5 (l2, w2)).1 = false.
Proof.
  assert (Hr : (run_ops any_exec lost_ops (wit_new small)).1 = [Ok (Some 5); Ok (Some 6); Ok None; Ok None])
    by (vm_compute; reflexivity).
  split; [exact Hr|].
  assert (Ho : is_ok (NewLog "d" small after_loss).1 = true) by (vm_compute; reflexivity).
  assert (Hn : NewLog "d" small wit_world = (Ok (wit_new small).1, (wit_new small).2)) by (vm_compute; reflexivity).
  destruct (NewLog "d" small after_loss) as [o w2] eqn:E. destruct o as [l2| |]; [|discriminate Ho..].
  exists l2, w2. split; [reflexivity|].
  apply (power_loss_forgets "d" small wit_world (wit_new small).1 (wit_new small).2 lost_ops small l2 w2).
  - intros n _. apply lookup_empty.
  - exact Hn.
  - rewrite <- surjective_pairing. exact E.
Defined.
End PowerWitness.
