(* ===== verification/Locks.v ===== *)
(** [Log.mu], the [sync.RWMutex] of [internal/log/log.go]: calls of many goroutines.

    [Append], [Truncate] and [Close] hold the lock exclusively, [Read],
    [LowestOffset], [HighestOffset] and [Reader] share it.  Here a call is a
    program that runs in steps between which other goroutines run.  [Read] is not
    read-only: [store.Read] flushes the buffer of the store, under the store's own
    lock, so that a shared holder changes the disk under the others.

    [Remove] and [Reset] take the lock for their call of [Close] only and are no
    calls of this machine. *)

From stdpp Require Import gmap.
From S2P Require Import Prelude Endian OS Proto Wire Config Store Index Names Segment Log LogTyped.
From S2P Require Import LogFrame PowerLoss.
From S2P Require Import LogInv Scenario.

Local Abbreviation anything := (fun _ => True).

(** ** Computations up to their runs *)

Record meq {S A} (m m' : M S A) : Prop := Meq { meq_run s : m s = m' s }.
Arguments Meq {_ _ _ _} _.
Arguments meq_run {_ _ _ _} _ _.
Infix "≐" := meq (at level 70).

#[global] Instance meq_equivalence S A : Equivalence (@meq S A).
Proof. split; [done| |]; [intros m m' [H]; by split|intros m1 m2 m3 [H1] [H2]; split; congruence]. Qed.
#[global] Instance bind_proper S A B : Proper (pointwise_relation A meq ==> meq ==> meq) (@mbind (M S) _ A B).
Proof. intros f f' Hf m m' [Hm]. split. intros s. unfold mbind, M_bind. rewrite Hm. destruct (m' s) as [[a| |] s1]; [apply Hf|done..]. Qed.

Section laws.
Context {S A B C : Type}.
Lemma bind_assoc (m : M S A) (f : A -> M S B) (g : B -> M S C) : (m ≫= f) ≫= g ≐ m ≫= fun a => f a ≫= g.
Proof. split. intros s. unfold mbind, M_bind. by destruct (m s) as [[]]. Qed.
Lemma bind_ret (m : M S A) : (m ≫= fun a => mret a) ≐ m.
Proof. split. intros s. unfold mbind, M_bind. by destruct (m s) as [[]]. Qed.
Lemma ret_bind (a : A) (f : A -> M S B) : (mret a ≫= f) ≐ f a.
Proof. done. Qed.
Lemma bind_ext (m : M S A) (f g : A -> M S B) : (forall a, f a ≐ g a) -> m ≫= f ≐ m ≫= g.
Proof. intros H. by apply bind_proper. Qed.
End laws.

(** ** Calls *)

Inductive wcall := WAppend (rc : option record) | WTruncate (lowest : Z) | WClose.
Inductive rcall := RRead (off : Z) | RLowest | RHighest | RReader.
Inductive call := CW (c : wcall) | CR (c : rcall).
Inductive result := ResUnit | ResOffset (off : Z) | ResRecord (r : record) | ResReader (rs : list originReader).

(** The program of an exclusive holder: it acts and goes on with what it saw. *)
Inductive wprog :=
  | WRet (o : outcome result)
  | WAct (f : lst -> lst) (k : lst -> wprog).

(** The program of a shared holder: it looks at the part of the log that no shared
    holder changes, and ends with at most one call into a store. *)
Inductive rprog :=
  | RRet (o : outcome result)
  | RLook (k : lst -> rprog)
  | RFetch (m : M lst result).

Definition act {A} (m : M lst A) (k : A -> wprog) : wprog :=
  WAct (fun s => (m s).2)
       (fun s => match (m s).1 with Ok a => k a | Err e => WRet (Err e) | Panic p => WRet (Panic p) end).

Fixpoint wrun (p : wprog) (s : lst) : outcome result * lst :=
  match p with WRet o => (o, s) | WAct f k => wrun (k s) (f s) end.

Lemma wrun_act {A} (m : M lst A) k : wrun (act m k) ≐ m ≫= fun a => wrun (k a).
Proof. split. intros s. unfold mbind, M_bind. cbn. by destruct (m s) as [[a|e|p] s1]. Qed.

(** What a shared holder sees: no store, and of the files the index files. *)
Definition no_store : store := Store (File ("", "")%string true) bufio_NewWriter 0.
Definition mask_segment (s : segment) : segment := set_store no_store s.
Definition index_files (w : world) : gmap path bytes :=
  filter (fun kv => path_Ext kv.1.2 = ".index"%string) (w_fs w).
Definition mask (s : lst) : lst :=
  (set_heap (mask_segment <$> l_heap s.1) s.1, World ∅ (index_files s.2) ∅ [] ∅).

Fixpoint rrun (p : rprog) (s : lst) : outcome result * lst :=
  match p with RRet o => (o, s) | RLook k => rrun (k (mask s)) s | RFetch m => m s end.

Definition nil_deref {A} : outcome A := Panic "nil pointer dereference".

Section bodies.
Context `{Hmsg : ProtoMessage record}.

(** The calls as operations of [Log]. *)
Definition log_call (c : call) : M lst result :=
  match c with
  | CW (WAppend rc) => off ← Log_Append rc; mret (ResOffset off)
  | CW (WTruncate lowest) => Truncate lowest;; mret ResUnit
  | CW WClose => Log_Close;; mret ResUnit
  | CR (RRead off) => r ← Log_Read off; mret (ResRecord r)
  | CR RLowest => off ← LowestOffset; mret (ResOffset off)
  | CR RHighest => off ← HighestOffset; mret (ResOffset off)
  | CR RReader => rs ← Reader; mret (ResReader rs)
  end.

(** The calls as programs. *)
Definition append_prog (rc : option record) : wprog :=
  act get (fun s =>
  match l_active s.1 with
  | None => WRet nil_deref
  | Some id =>
      act (get_segment id) (fun sg =>
      match rc with
      | None => WRet nil_deref
      | Some r =>
          act (lift (Marshal (set_Offset (nextOffset sg) r))) (fun p =>
          act (on_segment id (on_store (store_Append p))) (fun wpos =>
          act (on_segment id (on_index (index_Write (u32 (nextOffset sg -64 baseOffset sg)) wpos.2))) (fun _ =>
          act (on_segment id (modify (fun g => (set_nextOffset (nextOffset g.1 +64 1) g.1, g.2)))) (fun _ =>
          act (get_segment id) (fun sg' =>
          if IsMaxed sg' then
            act (Log_newSegment (nextOffset sg +64 1)) (fun _ => WRet (Ok (ResOffset (nextOffset sg))))
          else WRet (Ok (ResOffset (nextOffset sg))))))))
      end)
  end).

Fixpoint truncate_prog (lowest : Z) (ids kept : list nat) : wprog :=
  match ids with
  | [] => act (modify (fun s => (set_segments kept s.1, s.2))) (fun _ => WRet (Ok ResUnit))
  | id :: ids =>
      act (get_segment id) (fun sg =>
      if nextOffset sg <=? lowest +64 1 then
        act (on_segment id segment_Close) (fun _ =>
        act (on_segment id (s ← get; sg_disk (os_Remove (index_Name (sg_index s.1))))) (fun _ =>
        act (on_segment id (s ← get; sg_disk (os_Remove (store_Name (sg_store s.1))))) (fun _ =>
        truncate_prog lowest ids kept)))
      else truncate_prog lowest ids (kept ++ [id]))
  end.

Fixpoint close_prog (ids : list nat) : wprog :=
  match ids with
  | [] => WRet (Ok ResUnit)
  | id :: ids =>
      act (on_segment id (on_index index_Close)) (fun _ =>
      act (on_segment id (on_store store_Close)) (fun _ => close_prog ids))
  end.

(** The end of [Read], for the segment that its loop found: the check of the next
    offset, then [s.Read(off)], which looks into the index under the shared lock and
    calls the store, which has a lock of its own. *)
Definition fetch_prog (id : nat) (off : Z) : rprog :=
  RLook (fun v =>
    match l_heap v.1 !! id with
    | None => RRet nil_deref
    | Some sg =>
        if nextOffset sg <=? off then RRet (Err (ErrOffsetOutOfRange off)) else
        match (index_Read (i64 (off -64 baseOffset sg)) (sg_index sg, v.2)).1 with
        | Ok (_, pos) =>
            RFetch (p ← on_segment id (on_store (store_Read pos)); r ← lift (Unmarshal p); mret (ResRecord r))
        | Err e => RRet (Err e)
        | Panic p => RRet (Panic p)
        end
    end).

Fixpoint read_prog (ids : list nat) (off : Z) : rprog :=
  match ids with
  | [] => RRet (Err (ErrOffsetOutOfRange off))
  | id :: ids =>
      RLook (fun v =>
        match l_heap v.1 !! id with
        | Some sg => if (baseOffset sg <=? off) && (off <? nextOffset sg) then fetch_prog id off else read_prog ids off
        | None => read_prog ids off
        end)
  end.

Definition wbody (c : wcall) : wprog :=
  match c with
  | WAppend rc => append_prog rc
  | WTruncate lowest => act get (fun s => truncate_prog lowest (l_segments s.1) [])
  | WClose => act get (fun s => close_prog (l_segments s.1))
  end.

Definition rbody (c : rcall) : rprog :=
  match c with
  | RRead off => RLook (fun v => read_prog (l_segments v.1) off)
  | _ => RLook (fun v => RRet (log_call (CR c) v).1)
  end.

(** ** The programs are the operations *)

Lemma on_segment_bind {A B} id (m : M gst A) (f : A -> M gst B) :
  on_segment id (m ≫= f) ≐ on_segment id m ≫= fun a => on_segment id (f a).
Proof.
  split. intros s. unfold on_segment, mbind, M_bind. destruct (l_heap s.1 !! id) as [sg|]; [|done].
  destruct (m (sg, s.2)) as [[a|e|p] [sg1 w1]]; cbn; [|done..]. rewrite lookup_insert_eq.
  destruct (f a (sg1, w1)) as [o t]. cbn. by rewrite insert_insert_eq.
Qed.

Lemma on_segment_ret {A B} id (m : M gst A) (a : A -> B) :
  on_segment id (m ≫= fun x => mret (a x)) ≐ on_segment id m ≫= fun x => mret (a x).
Proof.
  split. intros s. unfold on_segment, mbind, M_bind. destruct (l_heap s.1 !! id) as [sg|]; [|done].
  by destruct (m (sg, s.2)) as [[x|e|p] t].
Qed.

(** A method that begins with a look at its segment. *)
Lemma on_segment_get {B} id (f : segment -> M gst B) :
  on_segment id (s ← get; f s.1) ≐ get_segment id ≫= fun sg => on_segment id (f sg).
Proof.
  split. intros [l w]. destruct (l_heap l !! id) as [sg|] eqn:E.
  - rewrite (bind_Ok _ _ _ _ _ (get_segment_run id l w sg E)). unfold on_segment. cbn. by rewrite E.
  - unfold get_segment, on_segment, mbind, M_bind. cbn. by rewrite E.
Qed.

Lemma on_segment_lift {A B} id (o : segment -> outcome A) (f : segment -> A -> M gst B) :
  (get_segment id ≫= fun sg => on_segment id (lift (o sg) ≫= f sg)) ≐
  (get_segment id ≫= fun sg => lift (o sg) ≫= fun a => on_segment id (f sg a)).
Proof.
  split. intros [l w]. destruct (l_heap l !! id) as [sg|] eqn:E.
  - rewrite !(bind_Ok _ _ _ _ _ (get_segment_run id l w sg E)). unfold on_segment, lift, mbind, M_bind. cbn. rewrite E.
    destruct (o sg); [done|..]; cbn; rewrite insert_id by done; by destruct l.
  - unfold get_segment, on_segment, mbind, M_bind. cbn. by rewrite E.
Qed.

Lemma segment_Append_parts id rc :
  on_segment id (segment_Append rc) ≐
  (get_segment id ≫= fun sg =>
   match rc with
   | None => lift nil_deref
   | Some r =>
       p ← lift (Marshal (set_Offset (nextOffset sg) r));
       wpos ← on_segment id (on_store (store_Append p));
       on_segment id (on_index (index_Write (u32 (nextOffset sg -64 baseOffset sg)) wpos.2));;
       on_segment id (modify (fun g => (set_nextOffset (nextOffset g.1 +64 1) g.1, g.2)));;
       mret (nextOffset sg)
   end).
Proof.
  destruct rc as [r|].
  - etransitivity; [exact (on_segment_get id (fun sg => p ← lift (Marshal (set_Offset (nextOffset sg) r));
      wpos ← on_store (store_Append p); let '(_, pos) := wpos in
      on_index (index_Write (u32 (nextOffset sg -64 baseOffset sg)) pos);;
      modify (fun s' => (set_nextOffset (nextOffset s'.1 +64 1) s'.1, s'.2));; mret (nextOffset sg)))|].
    rewrite on_segment_lift. apply bind_ext. intros sg. apply bind_ext. intros p.
    rewrite on_segment_bind. apply bind_ext. intros [n pos]. rewrite on_segment_bind. apply bind_ext. intros _.
    apply on_segment_ret.
  - etransitivity; [exact (on_segment_get id (fun sg => panic "nil pointer dereference"))|].
    split. intros [l w]. destruct (l_heap l !! id) as [sg|] eqn:E.
    + rewrite !(bind_Ok _ _ _ _ _ (get_segment_run id l w sg E)). unfold on_segment. cbn. rewrite E. cbn.
      rewrite insert_id by done. by destruct l.
    + unfold get_segment, on_segment, mbind, M_bind. cbn. by rewrite E.
Qed.

Lemma append_prog_run rc : wrun (append_prog rc) ≐ log_call (CW (WAppend rc)).
Proof.
  unfold append_prog, log_call, Log_Append. rewrite wrun_act, bind_assoc. apply bind_ext. intros s.
  destruct (l_active s.1) as [id|]; [|done]. rewrite bind_assoc, segment_Append_parts, wrun_act, bind_assoc.
  apply bind_ext. intros sg. destruct rc as [r|]; [|done].
  rewrite wrun_act, bind_assoc. apply bind_ext. intros p.
  rewrite wrun_act, bind_assoc. apply bind_ext. intros wpos.
  rewrite wrun_act, bind_assoc. apply bind_ext. intros [].
  rewrite wrun_act, bind_assoc. apply bind_ext. intros [].
  rewrite ret_bind, bind_assoc, wrun_act. apply bind_ext. intros sg'. destruct (IsMaxed sg'); [|done].
  rewrite wrun_act, bind_assoc. apply bind_ext. by intros [].
Qed.

Lemma segment_Remove_parts id :
  on_segment id segment_Remove ≐
  (on_segment id segment_Close;;
   on_segment id (s ← get; sg_disk (os_Remove (index_Name (sg_index s.1))));;
   on_segment id (s ← get; sg_disk (os_Remove (store_Name (sg_store s.1))))).
Proof.
  unfold segment_Remove. rewrite on_segment_bind. apply bind_ext. intros _.
  transitivity (on_segment id ((s ← get; sg_disk (os_Remove (index_Name (sg_index s.1))));;
    s ← get; sg_disk (os_Remove (store_Name (sg_store s.1))))); [|apply on_segment_bind].
  split. intros s. unfold on_segment. destruct (l_heap s.1 !! id) as [sg|]; [|done].
  unfold mbind, M_bind, get, sg_disk, zoom. cbn. by destruct (os_Remove _ s.2) as [[]].
Qed.

Lemma truncate_prog_run lowest ids kept :
  wrun (truncate_prog lowest ids kept) ≐
  (ks ← truncate_loop lowest ids kept; modify (fun s => (set_segments ks s.1, s.2));; mret ResUnit).
Proof.
  revert kept. induction ids as [|id ids IH]; intros kept; cbn [truncate_prog truncate_loop]; rewrite wrun_act; [done|].
  rewrite bind_assoc. apply bind_ext. intros sg. destruct (_ <=? _); [|apply IH].
  rewrite bind_assoc, segment_Remove_parts, bind_assoc, wrun_act. apply bind_ext. intros _.
  rewrite bind_assoc, wrun_act. apply bind_ext. intros _. rewrite wrun_act. apply bind_ext. intros _. apply IH.
Qed.

Lemma close_prog_run ids : wrun (close_prog ids) ≐ (close_segments ids;; mret ResUnit).
Proof.
  induction ids as [|id ids IH]; cbn [close_prog close_segments]; [done|].
  unfold segment_Close. rewrite bind_assoc, on_segment_bind, bind_assoc, wrun_act. apply bind_ext. intros _.
  rewrite wrun_act. apply bind_ext. intros _. apply IH.
Qed.

Lemma wbody_run c : wrun (wbody c) ≐ log_call (CW c).
Proof.
  destruct c as [rc|lowest|]; cbn [wbody log_call]; [apply append_prog_run|..]; rewrite wrun_act.
  - unfold Truncate. rewrite bind_assoc. apply bind_ext. intros s. rewrite bind_assoc, truncate_prog_run. done.
  - unfold Log_Close. rewrite bind_assoc. apply bind_ext. intros s. apply close_prog_run.
Qed.

Lemma index_Read_content inn ix w w' :
  fcontent w' (file_path (ix_file ix)) = fcontent w (file_path (ix_file ix)) ->
  (index_Read inn (ix, w')).1 = (index_Read inn (ix, w)).1.
Proof.
  intros Hc. assert (Hm : exists mm, forall lo hi,
    mmap_read lo hi (ix, w) = (mm lo hi, (ix, w)) /\ mmap_read lo hi (ix, w') = (mm lo hi, (ix, w'))).
  { exists (fun lo hi => (mmap_read lo hi (ix, w)).1). intros lo hi.
    unfold mmap_read, mbind, M_bind, get, panic, mret, M_ret. cbn [fst snd]. rewrite Hc. by repeat case_match. }
  destruct Hm as [mm Hm]. unfold index_Read. rewrite !(bind_Ok get _ _ _ _ eq_refl). cbn [fst].
  destruct (_ =? 0); [done|]. destruct (_ <? _); [done|]. unfold mbind, M_bind.
  rewrite (proj1 (Hm _ _)), (proj2 (Hm _ _)). destruct (mm _ _) as [b| |]; [|done..].
  unfold lift. destruct (Uint32 b) as [o| |]; [|done..].
  rewrite (proj1 (Hm _ _)), (proj2 (Hm _ _)). destruct (mm _ _) as [b'| |]; [|done..]. by destruct (Uint64 b').
Qed.

Lemma index_Read_mask inn ix s d :
  index_file d (ix_file ix) -> (index_Read inn (ix, (mask s).2)).1 = (index_Read inn (ix, s.2)).1.
Proof.
  intros [_ He]. apply index_Read_content. unfold fcontent, mask, index_files. cbn. rewrite map_lookup_filter.
  destruct (w_fs s.2 !! _); cbn; [|done]. by rewrite option_guard_True.
Qed.

Lemma mask_lookup s id : l_heap (mask s).1 !! id = mask_segment <$> l_heap s.1 !! id.
Proof. apply lookup_fmap. Qed.

(** The segment found is read as [Read] reads it. *)
Lemma fetch_prog_run d id off l w sg :
  l_heap l !! id = Some sg -> segment_in d sg ->
  rrun (fetch_prog id off) (l, w) =
  ((if nextOffset sg <=? off then throw (ErrOffsetOutOfRange off) else on_segment id (segment_Read off)) ≫=
    fun r => mret (ResRecord r)) (l, w).
Proof.
  intros E [_ Hix]. cbn [rrun fetch_prog]. rewrite mask_lookup. cbn [fst]. rewrite E. cbn [fmap option_fmap option_map].
  change (nextOffset (mask_segment sg)) with (nextOffset sg). destruct (_ <=? _); [done|].
  change (sg_index (mask_segment sg)) with (sg_index sg). change (baseOffset (mask_segment sg)) with (baseOffset sg).
  rewrite (index_Read_mask _ _ (l, w) d Hix). cbn [snd].
  destruct (index_Read_pure (i64 (off -64 baseOffset sg)) (sg_index sg) w) as [o Ho]. rewrite Ho. cbn [fst].
  assert (Hx : on_index (index_Read (i64 (off -64 baseOffset sg))) (sg, w) = (o, (sg, w))).
  { unfold on_index, zoom. cbn [fst snd]. rewrite Ho. cbn. by rewrite set_index_eta. }
  unfold mbind at 3, M_bind at 3. unfold on_segment at 2. cbn [fst snd]. rewrite E.
  unfold segment_Read. rewrite (bind_Ok get _ _ _ _ eq_refl). cbn [fst].
  destruct o as [[n pos]|e|m]; cbn [rrun].
  - rewrite (bind_Ok _ _ _ _ _ Hx). unfold mbind, M_bind. unfold on_segment. cbn [fst snd]. rewrite E.
    destruct (on_store (store_Read pos) (sg, w)) as [[p|e|m] t]; [|done..]. unfold lift. by destruct (Unmarshal p).
  - rewrite (bind_Err _ _ _ _ _ Hx). cbn. rewrite insert_id by done. by destruct l.
  - rewrite (bind_Panic _ _ _ _ _ Hx). cbn. rewrite insert_id by done. by destruct l.
Qed.

Lemma read_prog_run ids off l w :
  rrun (read_prog ids off) (l, w) =
  match find_segment (l_heap l) ids off with
  | None => (Err (ErrOffsetOutOfRange off), (l, w))
  | Some id => rrun (fetch_prog id off) (l, w)
  end.
Proof.
  induction ids as [|id ids IH]; [done|]. cbn [read_prog rrun find_segment]. rewrite mask_lookup. cbn [fst].
  destruct (l_heap l !! id) as [sg|]; cbn [fmap option_fmap option_map]; [|exact IH].
  change (baseOffset (mask_segment sg)) with (baseOffset sg). change (nextOffset (mask_segment sg)) with (nextOffset sg).
  by destruct (_ && _).
Qed.

Lemma find_segment_is_Some h ids off id : find_segment h ids off = Some id -> is_Some (h !! id).
Proof.
  induction ids as [|i ids IH]; cbn [find_segment]; [done|]. destruct (h !! i) as [sg|] eqn:E; [|done].
  destruct (_ && _); [|done]. intros [= <-]. by rewrite E.
Qed.

(** The calls that only look see in the mask what they see in the log. *)
Lemma get_segment_look {A} (f : segment -> A) (g : segment -> M lst A) id s :
  (forall sg t, g sg t = (Ok (f sg), t)) -> (forall st sg, f (set_store st sg) = f sg) ->
  exists o, (get_segment id ≫= g) s = (o, s) /\ (get_segment id ≫= g) (mask s) = (o, mask s).
Proof.
  intros Hg Hf. destruct s as [l w]. destruct (l_heap l !! id) as [sg|] eqn:E.
  - exists (Ok (f sg)). rewrite (bind_Ok _ _ _ _ _ (get_segment_run id l w sg E)). split; [apply Hg|].
    assert (Em : l_heap (mask (l, w)).1 !! id = Some (mask_segment sg)) by (rewrite mask_lookup; cbn; by rewrite E).
    destruct (mask (l, w)) as [l' w']. cbn [fst] in Em.
    rewrite (bind_Ok _ _ _ _ _ (get_segment_run id l' w' _ Em)), Hg. unfold mask_segment. by rewrite Hf.
  - exists nil_deref. unfold get_segment, on_segment, mbind, M_bind. rewrite mask_lookup. cbn. by rewrite E.
Qed.

Definition looking (c : rcall) : bool := match c with RRead _ => false | _ => true end.

Lemma looking_mask c s : looking c = true ->
  exists o, log_call (CR c) s = (o, s) /\ log_call (CR c) (mask s) = (o, mask s).
Proof.
  assert (Hret : forall (m : M lst Z), (exists o, m s = (o, s) /\ m (mask s) = (o, mask s)) ->
    exists o, (m ≫= fun off => mret (ResOffset off)) s = (o, s) /\
      (m ≫= fun off => mret (ResOffset off)) (mask s) = (o, mask s)).
  { intros m (o & H1 & H2). unfold mbind, M_bind. rewrite H1, H2. destruct o; eexists; done. }
  destruct c as [off| | |]; [done|intros _..]; cbn [log_call]; [apply Hret..|by eexists].
  - unfold LowestOffset. rewrite !(bind_Ok get _ _ _ _ eq_refl). change (l_segments (mask s).1) with (l_segments s.1).
    destruct (l_segments s.1) as [|id ids]; [by eexists|]. by apply (get_segment_look baseOffset).
  - unfold HighestOffset. rewrite !(bind_Ok get _ _ _ _ eq_refl). change (l_segments (mask s).1) with (l_segments s.1).
    destruct (list.last (l_segments s.1)) as [id|]; [|by eexists].
    apply (get_segment_look (fun sg => if nextOffset sg =? 0 then 0 else nextOffset sg -64 1)); [|done].
    intros sg t. by destruct (_ =? 0).
Qed.

Lemma rbody_run d c l w : log_in d l -> rrun (rbody c) (l, w) = log_call (CR c) (l, w).
Proof.
  intros Hd. destruct (looking c) eqn:El.
  - destruct (looking_mask c (l, w) El) as (o & H1 & H2). rewrite H1. destruct c; [done|..]; cbn [rbody rrun]; by rewrite H2.
  - destruct c as [off| | |]; [|done..]. cbn [rbody rrun]. rewrite read_prog_run. change (l_segments (mask (l, w)).1) with (l_segments l).
    cbn [log_call]. unfold Log_Read. unfold mbind at 1, M_bind at 1. rewrite (bind_Ok get _ _ _ _ eq_refl). cbn [fst snd].
    destruct (find_segment (l_heap l) (l_segments l) off) as [id|] eqn:Ef; [|done].
    destruct (find_segment_is_Some _ _ _ _ Ef) as [sg Hsg].
    rewrite (fetch_prog_run d id off l w sg Hsg) by (by eapply Hd).
    by rewrite (bind_Ok _ _ _ _ _ (get_segment_run id l w sg Hsg)).
Qed.

(** No shared holder changes what the others see. *)
Lemma index_files_fput p b w : path_Ext p.2 <> ".index"%string -> index_files (fput p b w) = index_files w.
Proof. intros Hp. unfold index_files. cbn. apply map_filter_insert_not. intros y. exact Hp. Qed.

Section unseen.
Context (F : gmap path bytes).
Local Abbreviation files := (fun w => index_files w = F).

Lemma files_fault : keeps files anything next_fault.
Proof. intros w Hw. unfold next_fault. by destruct (w_oracle w). Qed.

Lemma files_Write f b : path_Ext (file_path f).2 = ".store"%string -> keeps files anything (file_Write f b).
Proof.
  intros Hf. assert (Hne : path_Ext (file_path f).2 <> ".index"%string) by (by rewrite Hf).
  intros w Hw. unfold file_Write. destruct (file_closed f); [done|]. destruct (files_fault w Hw) as [H1 _].
  destruct (next_fault w) as [[[ft|]|e|p] w1]; (split; [|done]); rewrite <- H1; by apply index_files_fput.
Qed.

Lemma files_Flush f : path_Ext (file_path f).2 = ".store"%string -> keeps (fun s : bwst => files s.2) anything (bufio_Flush f).
Proof.
  intros Hf. unfold bufio_Flush. keeps_step. destruct (bw_err x.1); [auto with keeps|].
  destruct (_ =? 0)%nat; [auto with keeps|].
  eapply keeps_bind; [by apply (keeps_zoom _ files); [..|apply files_Write]|]. intros [n err] _.
  destruct (match err with Some e => Some e | None => _ end); [|by apply keeps_modify].
  eapply keeps_bind; [by apply keeps_modify|]. auto with keeps.
Qed.

Lemma files_ReadAt f n off : keeps files anything (file_ReadAt f n off).
Proof.
  intros w Hw. unfold file_ReadAt. destruct (off <? 0); [done|]. destruct (n =? 0)%nat; [done|].
  destruct (file_closed f); [done|]. destruct (files_fault w Hw) as [H1 _].
  by destruct (next_fault w) as [[[ft|]|e|p] w1].
Qed.

Definition store_unseen (s : sst) : Prop := path_Ext (file_path (s_File s.1)).2 = ".store"%string /\ files s.2.

Lemma files_read_full n off : keeps store_unseen anything (read_full n off).
Proof.
  unfold read_full. keeps_step. eapply (keeps_bind _ anything).
  - eapply keeps_zoom; [| |apply files_ReadAt]; [by intros s []|by intros t s Ht []].
  - intros [b [e|]] _; auto with keeps.
Qed.

Lemma files_store_Read pos : keeps store_unseen anything (store_Read pos).
Proof.
  unfold store_Read. keeps_step. destruct Hx as [Hf _]. eapply (keeps_bind _ anything).
  - eapply keeps_zoom; [| |by apply files_Flush]; [by intros s []|by intros t s Ht []].
  - intros _ _. eapply keeps_bind; [apply files_read_full|]. intros size _.
    eapply (keeps_bind _ anything); [by apply keeps_lift|]. intros n _.
    destruct (_ <? _); [auto with keeps|apply files_read_full].
Qed.
End unseen.

Lemma on_segment_unseen {A} d id pos (k : bytes -> outcome A) l w :
  log_in d l -> mask ((p ← on_segment id (on_store (store_Read pos)); lift (k p)) (l, w)).2 = mask (l, w).
Proof.
  intros [_ Hh]. unfold mbind, M_bind, on_segment. cbn [fst snd]. destruct (l_heap l !! id) as [sg|] eqn:E; [|done].
  destruct (Hh id sg E) as [[_ Hs] _].
  destruct (files_store_Read (index_files w) pos (sg_store sg, w) (conj Hs eq_refl)) as [[_ Hw] _].
  unfold on_store, zoom. cbn [fst snd]. destruct (store_Read pos (sg_store sg, w)) as [o [st w1]]. cbn [fst snd] in Hw.
  assert (Hm : mask (set_heap (<[id := set_store st sg]> (l_heap l)) l, w1) = mask (l, w)).
  { unfold mask. cbn [fst snd]. rewrite Hw. f_equal. unfold set_heap. cbn. f_equal.
    rewrite fmap_insert. change (mask_segment (set_store st sg)) with (mask_segment sg). apply insert_id.
    by rewrite lookup_fmap, E. }
  by destruct o.
Qed.

Lemma rcall_unseen d c l w : log_in d l -> mask (log_call (CR c) (l, w)).2 = mask (l, w).
Proof.
  intros Hd. destruct (looking c) eqn:El; [by destruct (looking_mask c (l, w) El) as (o & -> & _)|].
  destruct c as [off| | |]; [|done..]. rewrite <- (rbody_run d) by done. cbn [rbody rrun]. rewrite read_prog_run.
  destruct (find_segment _ _ _) as [id|]; [|done]. unfold fetch_prog. cbn [rrun].
  destruct (l_heap _ !! id) as [sg|]; [|done]. destruct (_ <=? _); [done|].
  destruct (index_Read _ _).1 as [[n pos]|e|m]; [|done..]. cbn [rrun].
  pose proof (on_segment_unseen d id pos (fun p => Unmarshal p) l w Hd) as H.
  unfold mbind, M_bind, lift in *. destruct (on_segment _ _ _) as [[p|e|m] s1]; [|done..].
  by destruct (Unmarshal p).
Qed.
End bodies.
