(* ===== verification/Goroutines.v ===== *)
(** Goroutines that call one log: the [sync.RWMutex] as a machine.

    [step e m m'] is one step of one goroutine: it enters a call, takes the lock,
    does one action of its program, or leaves.  A writer that asks for the lock
    keeps new readers out, and acts when the readers of before have left, as the
    [RWMutex] of Go does.  [m_hist] lists the calls in the order in which they took
    effect and [m_returned] in the order in which they returned. *)

From stdpp Require Import gmap.
From S2P Require Import Prelude Endian OS Proto Wire Config Store Index Names Segment Log LogTyped.
From S2P Require Import LogFrame Locks.
From S2P Require Import Scenario.

Definition entry : Type := nat * call * outcome result.
Definition e_call (e : entry) : call := e.1.2.

Inductive phase :=
  | Waits (c : call)
  | Writes (c : wcall) (p : wprog)
  | Reads (c : rcall) (p : rprog).

Record machine := Machine {
  m_log : lst;
  m_writer : option nat;
  m_readers : gset nat;
  m_threads : gmap nat phase;
  m_hist : list entry;
  m_returned : list entry
}.

Definition machine_init (s : lst) : machine := Machine s None ∅ ∅ [] [].

(** A call that took effect and has not returned. *)
Definition effected (t : nat) (ph : phase) : list entry :=
  match ph with Reads c (RRet o) => [(t, CR c, o)] | _ => [] end.
Definition pending (ths : gmap nat phase) : list entry := map_to_list ths ≫= fun tp => effected tp.1 tp.2.

(** One action of a reader; [None] when it has its result. *)
Definition radvance (p : rprog) (s : lst) : option (rprog * lst) :=
  match p with
  | RRet _ => None
  | RLook k => Some (k (mask s), s)
  | RFetch m => Some (RRet (m s).1, (m s).2)
  end.

Inductive event := Calls (t : nat) | Acts (t : nat).

#[local] Arguments log_call {_} _ : simpl never.
#[local] Arguments mask _ : simpl never.

Section machine.
Context `{Hmsg : ProtoMessage record}.

Inductive step : event -> machine -> machine -> Prop :=
  | step_call t c s wr rs ths h rt :
      ths !! t = None ->
      step (Calls t) (Machine s wr rs ths h rt) (Machine s wr rs (<[t := Waits c]> ths) h rt)
  | step_Lock t c s rs ths h rt :
      ths !! t = Some (Waits (CW c)) ->
      step (Acts t) (Machine s None rs ths h rt) (Machine s (Some t) rs (<[t := Writes c (wbody c)]> ths) h rt)
  | step_write t c f k s ths h rt :
      ths !! t = Some (Writes c (WAct f k)) ->
      step (Acts t) (Machine s (Some t) ∅ ths h rt) (Machine (f s) (Some t) ∅ (<[t := Writes c (k s)]> ths) h rt)
  | step_Unlock t c o s ths h rt :
      ths !! t = Some (Writes c (WRet o)) ->
      step (Acts t) (Machine s (Some t) ∅ ths h rt)
        (Machine s None ∅ (delete t ths) (h ++ [(t, CW c, o)]) (rt ++ [(t, CW c, o)]))
  | step_RLock t c s rs ths h rt :
      ths !! t = Some (Waits (CR c)) ->
      step (Acts t) (Machine s None rs ths h rt) (Machine s None ({[t]} ∪ rs) (<[t := Reads c (rbody c)]> ths) h rt)
  | step_read t c p p' s s' wr rs ths h rt :
      ths !! t = Some (Reads c p) -> radvance p s = Some (p', s') ->
      step (Acts t) (Machine s wr rs ths h rt)
        (Machine s' wr rs (<[t := Reads c p']> ths) (h ++ effected t (Reads c p')) rt)
  | step_RUnlock t c o s wr rs ths h rt :
      ths !! t = Some (Reads c (RRet o)) ->
      step (Acts t) (Machine s wr rs ths h rt)
        (Machine s wr (rs ∖ {[t]}) (delete t ths) h (rt ++ [(t, CR c, o)])).

Definition steps : machine -> machine -> Prop := rtc (fun m m' => exists e, step e m m').

(** ** The lock *)

Definition writes_at (ths : gmap nat phase) (t : nat) : Prop :=
  match ths !! t with Some (Writes _ _) => True | _ => False end.
Definition reads_at (ths : gmap nat phase) (t : nat) : Prop :=
  match ths !! t with Some (Reads _ _) => True | _ => False end.

(** The lock knows its holders. *)
Definition lock_ok (m : machine) : Prop :=
  (forall t, m_writer m = Some t <-> writes_at (m_threads m) t) /\
  (forall t, t ∈ m_readers m <-> reads_at (m_threads m) t).

(** The calls of [h], one after the other, have the results of [h] and lead from [s0] to [s]. *)
Definition in_turn (h : list entry) (s0 s : lst) : Prop :=
  run_ops log_call (e_call <$> h) s0 = (snd <$> h, s).

(** The invariant for a log that was [s0]: the log is what the calls of the history,
    one after the other, make of it, but for the writer at work; and every reader
    that has no result yet will have the one of a call that runs now. *)
Record lin (d : string) (w0 : world) (s0 : lst) (m : machine) : Prop := {
  lin_lock : lock_ok m;
  lin_pending : m_hist m ≡ₚ m_returned m ++ pending (m_threads m);
  lin_log : exists s, in_turn (m_hist m) s0 s /\ log_here d w0 s /\
    (m_writer m = None \/ m_readers m <> ∅ -> m_log m = s) /\
    (forall t c p, m_threads m !! t = Some (Writes c p) ->
       wrun p (m_log m) = log_call (CW c) s /\ (m_readers m <> ∅ -> p = wbody c));
  lin_readers t c p : m_threads m !! t = Some (Reads c p) ->
    (exists o, p = RRet o) \/
    (forall s', mask s' = mask (m_log m) -> log_in d s'.1 -> rrun p s' = log_call (CR c) s')
}.

(** ** Pending calls *)

Lemma pending_insert t ph ths : pending (<[t := ph]> ths) ≡ₚ effected t ph ++ pending (delete t ths).
Proof.
  unfold pending. rewrite <- insert_delete_eq. rewrite map_to_list_insert by apply lookup_delete_eq. done.
Qed.

Lemma pending_delete t ph ths : ths !! t = Some ph -> pending ths ≡ₚ effected t ph ++ pending (delete t ths).
Proof. intros H. rewrite <- (insert_id ths t ph H) at 1. apply pending_insert. Qed.

Lemma pending_fresh t ph ths : ths !! t = None -> effected t ph = [] -> pending (<[t := ph]> ths) ≡ₚ pending ths.
Proof. intros H E. rewrite pending_insert, E, delete_id by done. done. Qed.

Lemma pending_step e m m' :
  step e m m' -> m_hist m ≡ₚ m_returned m ++ pending (m_threads m) ->
  m_hist m' ≡ₚ m_returned m' ++ pending (m_threads m').
Proof.
  intros Hs. destruct Hs as [t c s wr rs ths h rt E|t c s rs ths h rt E|t c f k s ths h rt E|t c o s ths h rt E|
    t c s rs ths h rt E|t c p p' s s' wr rs ths h rt E Ea|t c o s wr rs ths h rt E]; cbn; intros ->.
  - by rewrite pending_fresh.
  - by rewrite pending_insert, (pending_delete t _ ths E).
  - by rewrite pending_insert, (pending_delete t _ ths E).
  - rewrite (pending_delete t _ ths E). cbn. by rewrite <- !app_assoc, (Permutation_app_comm (pending _)).
  - rewrite pending_insert, (pending_delete t _ ths E). by destruct c.
  - rewrite pending_insert, (pending_delete t _ ths E). assert (effected t (Reads c p) = []) as -> by (by destruct p).
    by rewrite app_nil_l, <- app_assoc, (Permutation_app_comm (pending _)).
  - rewrite (pending_delete t _ ths E). by rewrite app_assoc.
Qed.

(** ** The lock is kept *)

Lemma lock_ok_step e m m' : step e m m' -> lock_ok m -> lock_ok m'.
Proof.
  unfold lock_ok, writes_at, reads_at.
  intros Hs. destruct Hs as [t c s wr rs ths h rt E|t c s rs ths h rt E|t c f k s ths h rt E|t c o s ths h rt E|
    t c s rs ths h rt E|t c p p' s s' wr rs ths h rt E Ea|t c o s wr rs ths h rt E]; intros [HW HR]; split; cbn in *;
    intros t'; pose proof (HW t') as HW'; pose proof (HR t') as HR'; pose proof (HW t) as HWt; pose proof (HR t) as HRt;
    clear HW HR; rewrite E in HWt, HRt;
    (destruct (decide (t = t')) as [<-|Hne];
    [rewrite ?lookup_insert_eq, ?lookup_delete_eq|rewrite ?lookup_insert_ne, ?lookup_delete_ne by done]; try done);
    rewrite <- ?HW', <- ?HR'; try set_solver.
Qed.

(** ** The calls take effect one after the other *)

Lemma in_turn_snoc h s0 s t c o s' : in_turn h s0 s -> log_call c s = (o, s') -> in_turn (h ++ [(t, c, o)]) s0 s'.
Proof.
  unfold in_turn. revert s0. induction h as [|e h IH]; intros s0 H Hc; cbn in *.
  - injection H as ->. by rewrite Hc.
  - destruct (log_call (e_call e) s0) as [o1 s1]. destruct (run_ops log_call (e_call <$> h) s1) as [os s2] eqn:E.
    injection H as -> -> ->. by rewrite (IH s1 E Hc).
Qed.

Lemma here_log_call d w0 c : keeps (log_here d w0) (fun _ => True) (log_call c).
Proof.
  assert (Hk : forall A B (m : M lst A) (f : A -> M lst B), keeps (log_here d w0) (fun _ => True) m ->
            (forall a, keeps (log_here d w0) (fun _ => True) (f a)) -> keeps (log_here d w0) (fun _ => True) (m ≫= f)).
  { intros A B m f Hm Hf. eapply keeps_bind; [exact Hm|]. auto. }
  destruct c as [[rc|lowest|]|c]; [cbn [log_call]..|].
  - apply Hk; [apply here_Log_Append|auto with keeps].
  - apply Hk; [apply here_Truncate|auto with keeps].
  - apply Hk; [apply here_Log_Close|auto with keeps].
  - intros s Hs. destruct (looking c) eqn:El; [destruct (looking_mask c s El) as (o & -> & _); split; [done|by destruct o]|].
    destruct c as [off| | |]; [|done..]. cbn [log_call]. apply Hk; [apply here_Log_Read|auto with keeps|done].
Qed.

Lemma lock_ok_init s : lock_ok (machine_init s).
Proof. split; intros t; unfold writes_at, reads_at; cbn; rewrite lookup_empty; split; set_solver. Qed.
Lemma lock_ok_readers m t c p : lock_ok m -> m_threads m !! t = Some (Reads c p) -> m_readers m <> ∅.
Proof. intros [_ HR] E He. specialize (HR t). unfold reads_at in HR. rewrite E, He in HR. set_solver. Qed.
Lemma lock_ok_writer m t c p : lock_ok m -> m_threads m !! t = Some (Writes c p) -> m_writer m = Some t.
Proof. intros [HW _] E. apply HW. unfold writes_at. by rewrite E. Qed.

Context (d : string) (w0 : world) (s0 : lst).
Local Abbreviation lin' := (lin d w0 s0).

Lemma lin_step_call t c s wr rs ths h rt :
  ths !! t = None -> lin' (Machine s wr rs ths h rt) -> lin' (Machine s wr rs (<[t := Waits c]> ths) h rt).
Proof.
  intros E [Hl Hp (s1 & H1 & H2 & H3 & H4) Hr]. pose proof (step_call t c s wr rs ths h rt E) as Hs.
  split; [by eapply lock_ok_step|by eapply pending_step|exists s1; split_and!; try done|]; cbn in *.
  - intros t' c' p [[? ?]|[? ?]]%lookup_insert_Some; [done|eauto].
  - intros t' c' p [[? ?]|[? ?]]%lookup_insert_Some; [done|eauto].
Qed.

Lemma lin_step_Lock t c s rs ths h rt :
  ths !! t = Some (Waits (CW c)) -> lin' (Machine s None rs ths h rt) ->
  lin' (Machine s (Some t) rs (<[t := Writes c (wbody c)]> ths) h rt).
Proof.
  intros E [Hl Hp (s1 & H1 & H2 & H3 & H4) Hr]. pose proof (step_Lock t c s rs ths h rt E) as Hs.
  assert (s = s1) as <- by (apply H3; by left).
  split; [by eapply lock_ok_step|by eapply pending_step|exists s; split_and!; try done|]; cbn in *.
  - intros t' c' p [[-> ?]|[? E']]%lookup_insert_Some; [simplify_eq; split; [apply wbody_run|done]|].
    by pose proof (lock_ok_writer _ _ _ _ Hl E').
  - intros t' c' p [[? ?]|[? ?]]%lookup_insert_Some; [done|eauto].
Qed.

Lemma lin_step_write t c f k s ths h rt :
  ths !! t = Some (Writes c (WAct f k)) -> lin' (Machine s (Some t) ∅ ths h rt) ->
  lin' (Machine (f s) (Some t) ∅ (<[t := Writes c (k s)]> ths) h rt).
Proof.
  intros E [Hl Hp (s1 & H1 & H2 & H3 & H4) Hr]. pose proof (step_write t c f k s ths h rt E) as Hs.
  split; [by eapply lock_ok_step|by eapply pending_step|exists s1; split_and!; try done|]; cbn in *.
  - by intros [?|?].
  - intros t' c' p [[-> ?]|[Hne E']]%lookup_insert_Some; [simplify_eq; split; [by apply (H4 _ _ _ E)|done]|].
    pose proof (lock_ok_writer _ _ _ _ Hl E') as Hw. cbn in Hw. by simplify_eq.
  - intros t' c' p [[? ?]|[? E']]%lookup_insert_Some; [done|]. by pose proof (lock_ok_readers _ _ _ _ Hl E').
Qed.

Lemma lin_step_Unlock t c o s ths h rt :
  ths !! t = Some (Writes c (WRet o)) -> lin' (Machine s (Some t) ∅ ths h rt) ->
  lin' (Machine s None ∅ (delete t ths) (h ++ [(t, CW c, o)]) (rt ++ [(t, CW c, o)])).
Proof.
  intros E [Hl Hp (s1 & H1 & H2 & H3 & H4) Hr]. pose proof (step_Unlock t c o s ths h rt E) as Hs.
  destruct (H4 _ _ _ E) as [Hrun _]. cbn in Hrun.
  split; [by eapply lock_ok_step|by eapply pending_step|exists s; split_and!; try done|]; cbn in *.
  - by eapply in_turn_snoc.
  - destruct (here_log_call d w0 (CW c) s1 H2) as [H _]. by rewrite <- Hrun in H.
  - intros t' c' p [Hne E']%lookup_delete_Some. pose proof (lock_ok_writer _ _ _ _ Hl E') as Hw. cbn in Hw. by simplify_eq.
  - intros t' c' p [? E']%lookup_delete_Some. by pose proof (lock_ok_readers _ _ _ _ Hl E').
Qed.

Lemma lin_step_RLock t c s rs ths h rt :
  ths !! t = Some (Waits (CR c)) -> lin' (Machine s None rs ths h rt) ->
  lin' (Machine s None ({[t]} ∪ rs) (<[t := Reads c (rbody c)]> ths) h rt).
Proof.
  intros E [Hl Hp (s1 & H1 & H2 & H3 & H4) Hr]. pose proof (step_RLock t c s rs ths h rt E) as Hs.
  split; [by eapply lock_ok_step|by eapply pending_step|exists s1; split_and!; try done|]; cbn in *.
  - intros _. apply H3. by left.
  - intros t' c' p [[? ?]|[? E']]%lookup_insert_Some; [done|]. by pose proof (lock_ok_writer _ _ _ _ Hl E').
  - intros t' c' p [[? ?]|[? ?]]%lookup_insert_Some; [|eauto]. simplify_eq. right. intros [l w] _ Hd. by apply (rbody_run d).
Qed.

(** An action of a reader brings it its result, and then the call takes effect now, or is a look. *)
Lemma radvance_ok c p p' s s' :
  log_here d w0 s -> (forall s1, mask s1 = mask s -> log_in d s1.1 -> rrun p s1 = log_call (CR c) s1) ->
  radvance p s = Some (p', s') ->
  (exists o, p' = RRet o /\ log_call (CR c) s = (o, s')) \/
  (s' = s /\ (forall t, effected t (Reads c p') = []) /\
   forall s1, mask s1 = mask s -> log_in d s1.1 -> rrun p' s1 = log_call (CR c) s1).
Proof.
  intros [Hd _] Hp Ha. pose proof (Hp s eq_refl Hd) as Hnow. destruct p as [o|k|m]; cbn in Ha; simplify_eq.
  - cbn [rrun] in Hnow. destruct (k (mask s')) as [o|k'|m] eqn:Ek; [left; exists o; by rewrite <- Hnow|right..].
    + split_and!; [done|done|]. intros s1 Hm Hd1. rewrite <- Hp by done. change (rrun (RLook k) s1) with (rrun (k (mask s1)) s1). by rewrite Hm, Ek.
    + split_and!; [done|done|]. intros s1 Hm Hd1. rewrite <- Hp by done. change (rrun (RLook k) s1) with (rrun (k (mask s1)) s1). by rewrite Hm, Ek.
  - left. exists (m s).1. split; [done|]. rewrite <- Hnow. apply surjective_pairing.
Qed.

Lemma lin_step_read t c p p' s s' wr rs ths h rt :
  ths !! t = Some (Reads c p) -> radvance p s = Some (p', s') -> lin' (Machine s wr rs ths h rt) ->
  lin' (Machine s' wr rs (<[t := Reads c p']> ths) (h ++ effected t (Reads c p')) rt).
Proof.
  intros E Ea [Hl Hp (s1 & H1 & H2 & H3 & H4) Hr]. pose proof (step_read t c p p' s s' wr rs ths h rt E Ea) as Hs.
  pose proof (lock_ok_readers _ _ _ _ Hl E) as Hrs.
  cbn [m_hist m_log m_readers m_writer m_threads m_returned] in *. assert (s = s1) as <- by (apply H3; by right).
  destruct (Hr _ _ _ E) as [[o ->]|Hrun]; [done|]. pose proof (lock_ok_step _ _ _ Hs Hl) as Hl'.
  pose proof (pending_step _ _ _ Hs Hp) as Hp'.
  assert (Hw : forall t' c' q, <[t := Reads c p']> ths !! t' = Some (Writes c' q) -> q = wbody c').
  { intros t' c' q [[? ?]|[? E']]%lookup_insert_Some; [done|]. by apply (H4 _ _ _ E'). }
  destruct (radvance_ok c p p' s s' H2 Hrun Ea) as [(o & -> & Hc)|(-> & He & Hrun')]; split; try done;
    cbn [m_hist m_log m_readers m_writer m_threads].
  - exists s'. split_and!; [by eapply in_turn_snoc| |done|].
    + destruct (here_log_call d w0 (CR c) s H2) as [H _]. by rewrite Hc in H.
    + intros t' c' q E'. rewrite (Hw _ _ _ E'). split; [apply wbody_run|done].
  - assert (Hm : mask s' = mask s).
    { destruct s as [l w], H2 as [Hd _]. pose proof (rcall_unseen d c l w Hd) as H. by rewrite Hc in H. }
    intros t' c' q [[? ?]|[? E']]%lookup_insert_Some; [simplify_eq; left; eauto|]. rewrite Hm. eauto.
  - exists s. rewrite He, app_nil_r. split_and!; [done..|].
    intros t' c' q E'. rewrite (Hw _ _ _ E'). split; [apply wbody_run|done].
  - intros t' c' q [[? ?]|[? E']]%lookup_insert_Some; [simplify_eq; by right|eauto].
Qed.

Lemma lin_step_RUnlock t c o s wr rs ths h rt :
  ths !! t = Some (Reads c (RRet o)) -> lin' (Machine s wr rs ths h rt) ->
  lin' (Machine s wr (rs ∖ {[t]}) (delete t ths) h (rt ++ [(t, CR c, o)])).
Proof.
  intros E [Hl Hp (s1 & H1 & H2 & H3 & H4) Hr]. pose proof (step_RUnlock t c o s wr rs ths h rt E) as Hs.
  pose proof (lock_ok_readers _ _ _ _ Hl E) as Hrs. cbn in *.
  split; [by eapply lock_ok_step|by eapply pending_step|exists s1; split_and!; try done|]; cbn in *.
  - intros _. apply H3. by right.
  - intros t' c' p [Hne E']%lookup_delete_Some. destruct (H4 _ _ _ E') as [? ?]. split; auto.
  - intros t' c' p [? E']%lookup_delete_Some. eauto.
Qed.

Lemma lin_step e m m' : step e m m' -> lin' m -> lin' m'.
Proof.
  destruct 1; eauto using lin_step_call, lin_step_Lock, lin_step_write, lin_step_Unlock, lin_step_RLock, lin_step_read,
    lin_step_RUnlock.
Qed.

Lemma lin_steps m m' : steps m m' -> lin' m -> lin' m'.
Proof. induction 1 as [|m1 m2 m3 [e Hs] _ IH]; [done|]. intros H. by eapply IH, lin_step. Qed.

Lemma lin_init : log_here d w0 s0 -> lin' (machine_init s0).
Proof.
  intros H. split; cbn.
  - apply lock_ok_init.
  - done.
  - exists s0. split_and!; [done..|]. intros t c p. by rewrite lookup_empty.
  - intros t c p. by rewrite lookup_empty.
Qed.
End machine.

Section theorems.
Context `{Hmsg : ProtoMessage record}.

Lemma steps_hist m m' : steps m m' -> m_hist m `prefix_of` m_hist m'.
Proof.
  induction 1 as [|m1 m2 m3 [e Hs] _ IH]; [done|]. etransitivity; [|exact IH].
  destruct Hs; cbn [m_hist]; done || by apply prefix_app_r.
Qed.

(** C7. The log is linearizable: whatever goroutines call [Append], [Read], [Truncate],
    [Close], [LowestOffset], [HighestOffset] and [Reader] of a log from [NewLog],
    however their steps interleave and whatever the disk does, every call takes
    effect once between its begin and its return, the results are those of the calls
    run one after the other in that order, and so is the log when no writer is at
    work.  Readers flush the store under each other; none of them can tell. *)
Theorem calls_linearize dir c w l w1 m m' :
  NewLog dir c w = (Ok l, w1) -> steps (machine_init (l, w1)) m -> steps m m' ->
  m_hist m ≡ₚ m_returned m ++ pending (m_threads m) /\ m_hist m `prefix_of` m_hist m' /\
  exists s, run_ops log_call (e_call <$> m_hist m) (l, w1) = (snd <$> m_hist m, s) /\
    (m_writer m = None -> m_log m = s).
Proof.
  intros Hn Hs Hs'. destruct (NewLog_here dir c w) as [Hb Hl]. rewrite Hn in Hb, Hl.
  destruct (lin_steps dir w (l, w1) _ _ Hs) as [_ Hp (s & Ht & _ & Hlog & _) _].
  { apply lin_init. split; [by apply Hl|exact Hb]. }
  split; [exact Hp|]. split; [by apply steps_hist|]. exists s. split; [exact Ht|]. intros Hw. apply Hlog. by left.
Qed.

End theorems.

(** ** Schedules

    The machine as a function: [(t, Some c)] lets goroutine [t] call [c], and
    [(t, None)] lets it act; [None] when it cannot. *)

Section schedules.
Context `{Hmsg : ProtoMessage record}.

Definition enter (t : nat) (c : call) (m : machine) : option machine :=
  let '(Machine s wr rs ths h rt) := m in
  match ths !! t with None => Some (Machine s wr rs (<[t := Waits c]> ths) h rt) | Some _ => None end.

Definition advance (t : nat) (m : machine) : option machine :=
  let '(Machine s wr rs ths h rt) := m in
  match ths !! t with
  | None => None
  | Some (Waits (CW c)) =>
      match wr with None => Some (Machine s (Some t) rs (<[t := Writes c (wbody c)]> ths) h rt) | Some _ => None end
  | Some (Waits (CR c)) =>
      match wr with None => Some (Machine s None ({[t]} ∪ rs) (<[t := Reads c (rbody c)]> ths) h rt) | Some _ => None end
  | Some (Writes c p) =>
      if decide (wr = Some t /\ rs = ∅) then
        match p with
        | WAct f k => Some (Machine (f s) wr rs (<[t := Writes c (k s)]> ths) h rt)
        | WRet o => Some (Machine s None rs (delete t ths) (h ++ [(t, CW c, o)]) (rt ++ [(t, CW c, o)]))
        end
      else None
  | Some (Reads c p) =>
      match p with
      | RRet o => Some (Machine s wr (rs ∖ {[t]}) (delete t ths) h (rt ++ [(t, CR c, o)]))
      | _ => '(p', s') ← radvance p s;
             Some (Machine s' wr rs (<[t := Reads c p']> ths) (h ++ effected t (Reads c p')) rt)
      end
  end.

Fixpoint play (sched : list (nat * option call)) (m : machine) : option machine :=
  match sched with
  | [] => Some m
  | (t, Some c) :: sched => m' ← enter t c m; play sched m'
  | (t, None) :: sched => m' ← advance t m; play sched m'
  end.

Lemma enter_step t c m m' : enter t c m = Some m' -> step (Calls t) m m'.
Proof. destruct m as [s wr rs ths h rt]. cbn. destruct (ths !! t) eqn:E; intros; simplify_eq. by constructor. Qed.

Lemma advance_step t m m' : advance t m = Some m' -> step (Acts t) m m'.
Proof.
  destruct m as [s wr rs ths h rt]. cbn. destruct (ths !! t) as [[[c|c]|c p|c p]|] eqn:E; [| | | |done].
  - destruct wr; intros; simplify_eq. by apply step_Lock.
  - destruct wr; intros; simplify_eq. by apply step_RLock.
  - destruct (decide _) as [[-> ->]|]; [|done]. destruct p; intros; simplify_eq; [by apply step_Unlock|by eapply step_write].
  - destruct p; intros; cbn in *; simplify_eq; [by apply step_RUnlock|by eapply step_read..].
Qed.

Lemma play_steps sched m m' : play sched m = Some m' -> steps m m'.
Proof.
  revert m. induction sched as [|[t [c|]] sched IH]; intros m H; cbn in H; [simplify_eq; reflexivity|..].
  - destruct (enter t c m) as [m1|] eqn:E; [|done]. eapply rtc_l; [|by apply IH]. exists (Calls t). by eapply enter_step.
  - destruct (advance t m) as [m1|] eqn:E; [|done]. eapply rtc_l; [|by apply IH]. exists (Acts t). by apply advance_step.
Qed.
End schedules.

(** ** Witness: a record is appended, then two readers read it in turns while a
    second append already waits for the lock. *)
Module GoroutinesWitness.
Import Wire Scenario.

Definition sched : list (nat * option call) :=
  [(1%nat, Some (CW (WAppend (Some (wit_record abc)))))] ++ replicate 9 (1%nat, None) ++
  [(2%nat, Some (CR (RRead 5))); (3%nat, Some (CR (RRead 5))); (2%nat, None); (3%nat, None);
   (1%nat, Some (CW (WAppend (Some (wit_record abc))))); (1%nat, None);
   (2%nat, None); (3%nat, None); (3%nat, None); (2%nat, None); (3%nat, None); (3%nat, None);
   (2%nat, None); (2%nat, None); (3%nat, None); (2%nat, None)] ++ replicate 9 (1%nat, None).

Definition played : option machine := play sched (machine_init (wit_new small)).

Lemma calls_linearize_witness :
  exists m s, played = Some m /\ m_threads m = ∅ /\
    (fun e => (e.1.1, e.2)) <$> m_hist m =
      [(1%nat, Ok (ResOffset 5)); (3%nat, Ok (ResRecord (set_Offset 5 (wit_record abc))));
       (2%nat, Ok (ResRecord (set_Offset 5 (wit_record abc)))); (1%nat, Ok (ResOffset 6))] /\
    run_ops log_call (e_call <$> m_hist m) (wit_new small) = (snd <$> m_hist m, s) /\ m_log m = s.
Proof.
  assert (Hn : NewLog "d" small wit_world = (Ok (wit_new small).1, (wit_new small).2)) by (vm_compute; reflexivity).
  assert (Hp : (m ← played; Some (m_writer m, m_threads m, (fun e => (e.1.1, e.2)) <$> m_hist m)) =
    Some (None, ∅, [(1%nat, Ok (ResOffset 5)); (3%nat, Ok (ResRecord (set_Offset 5 (wit_record abc))));
       (2%nat, Ok (ResRecord (set_Offset 5 (wit_record abc)))); (1%nat, Ok (ResOffset 6))])) by (vm_compute; reflexivity).
  destruct played as [m|] eqn:E; [|discriminate Hp]. cbn [mbind option_bind] in Hp. injection Hp as Hw Ht Hh.
  apply play_steps in E. rewrite (surjective_pairing (wit_new small)) in E |- *.
  destruct (calls_linearize "d" small wit_world _ _ m m Hn E) as (_ & _ & s & Hr & Hs); [reflexivity|].
  exists m, s. split_and!; [reflexivity|exact Ht|exact Hh|exact Hr|exact (Hs Hw)].
Defined.
End GoroutinesWitness.
