(* ===== verification/LogCrash.v ===== *)
(** A log that was not closed: the process died, or the owner of the log never
    calls [Close].  The index file is then as long as its map, with zero bytes
    behind the entries, and [newIndex] takes its length for the number of bytes in
    use. *)

From coqutil Require Import Byte.
From stdpp Require Import sorting.
From S2P Require Import Prelude Endian OS Proto Wire Config Store Index Names Segment Log LogInv.
From S2P Require Import LogReopen LogSpec.
From S2P Require Import PowerLoss Scenario.

Definition zeros (n : nat) : bytes := replicate n Byte.x00.

(** The index file of [base] was left behind by a process that had not used its last
    entry. *)
Definition unclosed (w : world) (dir : string) (c : Config) (base : Z) : Prop :=
  let m := MaxIndexBytes (Segment c) in
  let b := fcontent w (dir, index_name base) in
  Z.of_nat (length b) = m /\ at_pos b (Z.to_nat (12 * (m / 12 - 1))) (zeros 12).

Lemma Uint_zeros : Uint32 (zeros 4) = Ok 0 /\ Uint64 (zeros 8) = Ok 0.
Proof. by vm_compute. Qed.

(** The last entry of such an index reads as zero. *)
Lemma index_Read_unclosed px m w :
  12 <= m <= 12 * 2 ^ 32 -> Z.of_nat (length (fcontent w px)) = m ->
  at_pos (fcontent w px) (Z.to_nat (12 * (m / 12 - 1))) (zeros 12) ->
  index_Read (-1) (Index (File px false) m true m, w) = (Ok (0, 0), (Index (File px false) m true m, w)).
Proof.
  intros Hm Hl Hz. set (q := m / 12) in *.
  assert (Hq : 1 <= q <= 2 ^ 32 /\ 12 * q <= m).
  { unfold q. pose proof (Z.div_mod m 12 ltac:(lia)). pose proof (Z.mod_pos_bound m 12 ltac:(lia)).
    split; [split|]; [apply Z.div_le_lower_bound; lia|apply Z.div_le_upper_bound; lia|lia]. }
  unfold index_Read. erewrite (bind_Ok get) by reflexivity. cbn [fst ix_size].
  destruct (Z.eqb_spec m 0); [lia|]. cbn [Z.eqb Pos.eqb]. change entryWidth with 12. change offWidth with 4. fold q.
  rewrite (u64_small (q - 1)), (u32_small (q - 1)) by in_range. rewrite (u64_small ((q - 1) * 12)) by in_range.
  set (pos := (q - 1) * 12) in *. assert (Hpos : 0 <= pos /\ pos + 12 <= m) by lia. u64_norm.
  destruct (Z.ltb_spec m (pos + 12)); [lia|].
  replace (Z.to_nat (12 * (q - 1))) with (Z.to_nat pos) in Hz by (unfold pos; f_equal; lia).
  change (zeros 12) with (zeros 4 ++ zeros 8) in Hz. apply at_pos_app_inv in Hz as [Hz1 Hz2].
  assert (Hread : forall lo b, at_pos (fcontent w px) (Z.to_nat lo) b -> 0 <= lo ->
    mmap_read lo (lo + Z.of_nat (length b)) (Index (File px false) m true m, w) =
      (Ok b, (Index (File px false) m true m, w))).
  { intros lo b [Hb1 Hb2] Hlo. unfold mmap_read. mrun. cbn [file_path].
    replace ((lo <=? lo + Z.of_nat (length b)) && (lo + Z.of_nat (length b) <=? m)) with true
      by (symmetry; rewrite andb_true_iff, !Z.leb_le; lia). cbn [negb].
    destruct (Z.ltb_spec (Z.of_nat (length (fcontent w px))) (lo + Z.of_nat (length b))); [lia|].
    replace (Z.to_nat (lo + Z.of_nat (length b) - lo)) with (length b) by lia. by rewrite Hb1. }
  erewrite bind_Ok by (apply (Hread pos (zeros 4) Hz1); lia).
  erewrite bind_Ok by (unfold lift; by rewrite (proj1 Uint_zeros)).
  replace (pos + 12) with ((pos + 4) + Z.of_nat (length (zeros 8))) by (cbn; lia).
  erewrite bind_Ok by (apply (Hread (pos + 4) (zeros 8)); [by replace (Z.to_nat (pos + 4)) with (Z.to_nat pos + 4)%nat by lia|lia]).
  by erewrite bind_Ok by (unfold lift; by rewrite (proj2 Uint_zeros)).
Qed.

(** A segment whose index has no room, on a working disk. *)
Definition stuck (s : segment) (w : world) : Prop :=
  healthy w /\ bw_err (s_buf (sg_store s)) = None /\ file_closed (s_File (sg_store s)) = false /\
  ix_mmap_len (sg_index s) < u64 (ix_size (sg_index s) + 12).

(** Opening the files of a segment on a working disk: what is left to do is to read the
    last entry of an index that takes the length of its file for its size. *)
Lemma newSegment_opens w dir c base :
  let px := (dir, index_name base) in
  let m := MaxIndexBytes (Segment c) in
  let ix := Index (File px false) m true (Z.of_nat (length (fcontent w px))) in
  config_ok c -> healthy w -> dir ∈ w_dirs w -> Z.of_nat (length (fcontent w px)) <= m ->
  exists st w', newSegment dir base c w =
      (r ← try (with_index ix (index_Read (-1)));
       mret (Seg st ix base (match r with inr _ => base | inl (off, _) => base +64 off +64 1 end) c)) w' /\
    bw_err (s_buf st) = None /\ file_closed (s_File st) = false /\ healthy w' /\
    fs_frame (seg_names dir base) w w' /\ fcontent w' px = resize (Z.to_nat m) Byte.x00 (fcontent w px).
Proof.
  intros px m ix Hcfg Hw Hdir Hl. unfold config_ok in Hcfg. fold m in Hcfg.
  set (ps := (dir, store_name base)). unfold newSegment.
  destruct (os_OpenFile_spec ps w) as (o1 & w1 & H1 & Hf1 & Hh1 & Hc1 & Ho1).
  destruct o1 as [f1|e|]; [|by destruct (Ho1 Hw Hdir)|done]. destruct Ho1 as [-> _].
  erewrite bind_Ok by (by apply wrap_err_Ok). fold ps.
  destruct (newStore_spec (File ps false) w1) as (o2 & w2 & H2 & Hfs2 & Hd2 & Hh2 & Ho2).
  destruct o2 as [st|e|]; [|by destruct (Ho2 (Hh1 Hw) eq_refl)|done]. destruct Ho2 as (HF & Hbe & _).
  erewrite bind_Ok by (by apply wrap_err_Ok). fold px.
  destruct (os_OpenFile_spec px w2) as (o3 & w3 & H3 & Hf3 & Hh3 & Hc3 & Ho3).
  assert (Hw2 : healthy w2) by auto. assert (Hd1 : dir ∈ w_dirs w2) by (by rewrite Hd2, (fs_frame_dirs _ _ _ Hf1)).
  destruct o3 as [f3|e|]; [|by destruct (Ho3 Hw2 Hd1)|done].
  destruct Ho3 as [-> _]. erewrite bind_Ok by (by apply wrap_err_Ok).
  assert (Hw3 : healthy w3) by auto.
  assert (Hcx : fcontent w3 px = fcontent w px).
  { rewrite Hc3. unfold fcontent at 1. rewrite Hfs2. fold (fcontent w1 px). apply Hc1. }
  erewrite bind_Ok.
  2:{ apply wrap_err_Ok. unfold newIndex, file_Stat, file_Truncate, syscall_Mmap.
      erewrite bind_Ok by (apply wrap_err_Ok; by rewrite check_open_healthy by done).
      fold m. rewrite (i64_small m) by lia. destruct (Z.leb_spec m 0); [lia|].
      erewrite bind_Ok by (rewrite check_open_healthy by done; destruct (Z.ltb_spec m 0); [lia|reflexivity]).
      erewrite bind_Ok by (apply wrap_err_Ok; by rewrite syscall_healthy by done). reflexivity. }
  cbn [file_path]. rewrite Hcx, (u64_small (Z.of_nat _)) by in_range.
  exists st, (fput px (resize (Z.to_nat m) Byte.x00 (fcontent w px)) w3).
  split; [reflexivity|]. split_and!; [done|by rewrite HF|done| |by rewrite fcontent_fput].
  eapply fs_frame_trans; [eapply fs_frame_mono; [|exact Hf1]; unfold seg_names; set_solver|].
  apply (fs_frame_trans _ _ w3); [|eapply fs_frame_mono; [|apply fs_frame_fput]; unfold seg_names; set_solver].
  eapply fs_frame_mono; [|eapply fs_frame_trans; [|exact Hf3]]; [unfold seg_names; set_solver|].
  eapply fs_frame_same; [exact Hfs2|exact Hd2|apply fs_frame_refl].
Qed.

Lemma newSegment_unclosed w dir c base :
  config_ok c -> is_u64 base -> base + 1 < 2 ^ 64 -> healthy w -> dir ∈ w_dirs w -> unclosed w dir c base ->
  exists s w', newSegment dir base c w = (Ok s, w') /\ stuck s w' /\ baseOffset s = base /\ nextOffset s = base + 1.
Proof.
  intros Hcfg Hb Hb1 Hw Hdir [Hl Hz].
  destruct (newSegment_opens w dir c base Hcfg Hw Hdir ltac:(lia)) as (st & w4 & Hrun & Hbe & Hcl & Hw4 & _ & Hx4).
  unfold config_ok in Hcfg. set (px := (dir, index_name base)) in *. set (m := MaxIndexBytes (Segment c)) in *.
  replace (Z.to_nat m) with (length (fcontent w px)) in Hx4 by lia. rewrite resize_all in Hx4. rewrite Hl in Hrun.
  erewrite bind_Ok in Hrun.
  2:{ unfold try, with_index. rewrite (index_Read_unclosed px m w4) by (rewrite ?Hx4; done). reflexivity. }
  eexists _, w4. split; [exact Hrun|]. split; [|split; [done|cbn; u64_norm; lia]].
  split; [done|]. cbn. split_and!; [done|done|]. u64_norm. lia.
Qed.

(** Reading an index whose entries lie within its map does not panic. *)
Lemma index_Read_safe inn ix w p :
  ix_size ix <= ix_mmap_len ix -> ix_mapped ix = true ->
  ix_mmap_len ix <= Z.of_nat (length (fcontent w (file_path (ix_file ix)))) ->
  (index_Read inn (ix, w)).1 <> Panic p.
Proof.
  intros Hs Hm Hl. unfold index_Read. erewrite (bind_Ok get) by reflexivity. cbn [fst].
  destruct (Z.eqb_spec (ix_size ix) 0); [done|]. set (out := if inn =? -1 then _ else _).
  assert (Ho : 0 <= out < 2 ^ 32) by (unfold out; destruct (inn =? -1); apply u32_range).
  change entryWidth with 12. change offWidth with 4. u64_norm.
  destruct (Z.ltb_spec (ix_size ix) (out * 12 + 12)); [done|].
  assert (Hread : forall lo k, 0 <= lo -> lo + Z.of_nat k <= ix_size ix ->
    exists b, mmap_read lo (lo + Z.of_nat k) (ix, w) = (Ok b, (ix, w)) /\ length b = k).
  { intros lo k Hlo Hn. unfold mmap_read. mrun. rewrite Hm.
    replace ((lo <=? lo + Z.of_nat k) && (lo + Z.of_nat k <=? ix_mmap_len ix)) with true
      by (symmetry; rewrite andb_true_iff, !Z.leb_le; lia). cbn [negb].
    destruct (Z.ltb_spec (Z.of_nat (length (fcontent w (file_path (ix_file ix))))) (lo + Z.of_nat k)); [lia|].
    eexists. split; [done|]. rewrite length_take, length_drop. lia. }
  destruct (Hread (out * 12) 4%nat) as (b & Hb & Hlb); [lia|cbn; lia|].
  destruct (Hread (out * 12 + 4) 8%nat) as (b' & Hb' & Hlb'); [lia|cbn; lia|].
  erewrite bind_Ok by exact Hb. do 4 (destruct b as [|? b]; [done|]). erewrite bind_Ok by reflexivity.
  replace (out * 12 + 12) with (out * 12 + 4 + Z.of_nat 8) by lia. erewrite bind_Ok by exact Hb'.
  destruct (Uint64_total b' ltac:(lia)) as [v Hv]. by erewrite bind_Ok by (unfold lift; by rewrite Hv).
Qed.

(** Any segment whose index file is not longer than the limit opens. *)
Lemma newSegment_any w dir c base :
  config_ok c -> healthy w -> dir ∈ w_dirs w ->
  Z.of_nat (length (fcontent w (dir, index_name base))) <= MaxIndexBytes (Segment c) ->
  exists s w', newSegment dir base c w = (Ok s, w') /\ healthy w' /\ fs_frame (seg_names dir base) w w'.
Proof.
  intros Hcfg Hw Hdir Hl.
  destruct (newSegment_opens w dir c base Hcfg Hw Hdir Hl) as (st & w4 & Hrun & _ & _ & Hw4 & Hfr & Hx4).
  set (px := (dir, index_name base)) in *. set (m := MaxIndexBytes (Segment c)) in *.
  set (ix := Index _ _ _ _) in Hrun. unfold config_ok in Hcfg. fold m in Hcfg.
  assert (Hs : forall p, (index_Read (-1) (ix, w4)).1 <> Panic p).
  { intros p. apply index_Read_safe; cbn; [lia|done|]. fold px. rewrite Hx4, length_resize. lia. }
  destruct (index_Read_pure (-1) ix w4) as [o Ho]. rewrite Ho in Hs. cbn in Hs.
  unfold mbind, M_bind, try, with_index in Hrun. rewrite Ho in Hrun.
  destruct o as [[off pos]|e|p]; [| |by destruct (Hs p)]; cbn in Hrun; eauto.
Qed.

Section crash.
Context `{Hmsg : ProtoMessage record} {Hlaws : ProtoLaws record record_wf}.

Lemma stuck_append s w r :
  stuck s w -> is_u64 (nextOffset s) -> record_wf r ->
  exists s' w', segment_Append (Some r) (s, w) = (Err io_EOF, (s', w')) /\ stuck s' w' /\ nextOffset s' = nextOffset s.
Proof.
  intros (Hw & Hbe & Hcl & Hfull) Hn Hr. unfold segment_Append. erewrite (bind_Ok get) by reflexivity. cbn [fst].
  destruct (Marshal_total (set_Offset (nextOffset s) r)) as (p & Hp & _); [by apply record_wf_set_Offset|].
  erewrite bind_Ok by (unfold lift; by rewrite Hp).
  destruct (store_Append p (sg_store s, w)) as [o [st w1]] eqn:Ha.
  pose proof (store_Append_spec _ _ _ _ _ _ Ha) as ((_ & _ & Hh) & HF & q & _ & Ho).
  destruct o as [[n pos]|e|]; [|by destruct Ho as (_ & _ & []) |done].
  erewrite bind_Ok by (apply on_store_run; exact Ha). cbv beta iota.
  assert (Hx : index_Write (u32 (nextOffset s -64 baseOffset s)) pos (sg_index s, w1) = (Err io_EOF, (sg_index s, w1))).
  { unfold index_Write. mrun. change entryWidth with 12. by destruct (Z.ltb_spec (ix_mmap_len (sg_index s)) (u64 (ix_size (sg_index s) + 12))); [|lia]. }
  erewrite bind_Err by (apply (on_index_run _ (set_store st s)); exact Hx).
  eexists _, w1. split; [reflexivity|]. split; [|done]. split; [auto|].
  cbn [sg_store sg_index set_index set_store]. rewrite HF. split_and!; [apply Ho|done|done].
Qed.

(** A log whose active segment is stuck. *)
Definition log_stuck (s : lst) : Prop :=
  exists id sg, l_active s.1 = Some id /\ l_heap s.1 !! id = Some sg /\ stuck sg s.2 /\ is_u64 (nextOffset sg).

Lemma log_stuck_append r s :
  log_stuck s -> record_wf r -> exists s', Log_Append (Some r) s = (Err io_EOF, s') /\ log_stuck s'.
Proof.
  destruct s as [l w]. intros (id & sg & Ha & Hs & Hst & Hn) Hr. cbn [fst snd] in *.
  destruct (stuck_append sg w r Hst Hn Hr) as (sg' & w' & Hrun & Hst' & Hn').
  pose proof (on_segment_run _ _ _ _ _ _ _ _ Hs Hrun) as Hon.
  eexists. split.
  - unfold Log_Append. erewrite (bind_Ok get) by reflexivity. cbn [fst]. rewrite Ha. by apply bind_Err.
  - exists id, sg'. cbn. rewrite lookup_insert_eq, Hn'. done.
Qed.

(** A directory that a process left with its log open: segments at [bs], with index
    files within the limit, and a last one at [base] whose last entry is unused. *)
Definition left_open (w : world) (dir : string) (c : Config) (bs : list Z) (base : Z) : Prop :=
  dir ∈ w_dirs w /\ dir_exact w dir (bs ++ [base]) /\ Forall is_u64 (bs ++ [base]) /\ Sorted Z.lt (bs ++ [base]) /\
  Forall (fun b => Z.of_nat (length (fcontent w (dir, index_name b))) <= MaxIndexBytes (Segment c)) bs /\
  unclosed w dir c base.

Lemma Log_newSegment_run b l w s w' :
  newSegment (l_Dir l) b (l_Config l) w = (Ok s, w') -> Log_newSegment b (l, w) = (Ok tt, (push_segment s l, w')).
Proof.
  intros H. unfold Log_newSegment. erewrite (bind_Ok get) by reflexivity. unfold mbind, M_bind, log_disk, zoom.
  cbn [fst snd]. by rewrite H.
Qed.

Lemma index_name_apart dir b b' :
  is_u64 b -> is_u64 b' -> b <> b' -> (dir, index_name b') ∉ seg_names dir b.
Proof.
  intros H1 H2 Hne. unfold seg_names. intros Hin. set_unfold. destruct Hin as [E|[E|[]]]; injection E as E.
  - symmetry in E. by apply store_index_name_ne in E.
  - by apply Hne, index_name_inj.
Qed.

Lemma open_segments_unclosed bs base l w :
  config_ok (l_Config l) -> healthy w -> base + 1 < 2 ^ 64 -> left_open w (l_Dir l) (l_Config l) bs base ->
  exists l' w' id s, open_segments (double (bs ++ [base])) (l, w) = (Ok tt, (l', w')) /\
    l_active l' = Some id /\ list.last (l_segments l') = Some id /\ l_heap l' !! id = Some s /\
    stuck s w' /\ nextOffset s = base + 1.
Proof.
  intros Hcfg Hw Hb1 (Hdir & _ & Hu & Hs & Hbs & Hun). revert l w Hcfg Hw Hdir Hbs Hun.
  induction bs as [|b bs IH]; intros l w Hcfg Hw Hdir Hbs Hun; cbn [app] in Hu, Hs.
  - apply list.Forall_cons in Hu as [Hu _].
    destruct (newSegment_unclosed w (l_Dir l) (l_Config l) base Hcfg Hu Hb1 Hw Hdir Hun) as (s & w' & Hrun & Hst & _ & Hn).
    exists (push_segment s l), w', (l_next l), s. split.
    { unfold double. cbn [app mbind list_bind open_segments]. by rewrite (bind_Ok _ _ _ _ _ (Log_newSegment_run _ _ _ _ _ Hrun)). }
    cbn. by rewrite last_snoc, lookup_insert_eq.
  - apply list.Forall_cons in Hu as [Hub Hu]. apply list.Forall_cons in Hbs as [Hl Hbs].
    pose proof (Sorted_extends Z.lt_trans Hs) as Hlt. apply Sorted_inv in Hs as [Hs _].
    assert (Hout : forall b', b' ∈ bs ++ [base] -> (l_Dir l, index_name b') ∉ seg_names (l_Dir l) b).
    { intros b' Hin. apply list_elem_of_In in Hin. rewrite List.Forall_forall in Hlt, Hu.
      apply index_name_apart; [done|by apply Hu|]. specialize (Hlt _ Hin). lia. }
    destruct (newSegment_any w (l_Dir l) (l_Config l) b Hcfg Hw Hdir Hl) as (s & w1 & Hrun & Hw1 & Hfr).
    assert (Hc : forall b', b' ∈ bs ++ [base] -> fcontent w1 (l_Dir l, index_name b') = fcontent w (l_Dir l, index_name b'))
      by (intros b' Hin; eapply fs_frame_content; [exact Hfr|by apply Hout]).
    destruct (IH Hu Hs (push_segment s l) w1) as (l' & w' & id & s' & Hrun' & H); [done|done| | | |].
    { cbn. by rewrite (fs_frame_dirs _ _ _ Hfr). }
    { cbn. rewrite list.Forall_forall in Hbs |- *. intros b' Hin. rewrite Hc by set_solver. by apply Hbs. }
    { cbn. unfold unclosed. rewrite Hc by set_solver. exact Hun. }
    exists l', w', id, s'. split; [|done]. unfold double. cbn [app]. rewrite bind_cons. cbn [app open_segments].
    by rewrite (bind_Ok _ _ _ _ _ (Log_newSegment_run _ _ _ _ _ Hrun)).
Qed.

Lemma NewLog_unclosed w dir c bs base :
  limits_ok c -> base + 1 < 2 ^ 64 -> healthy w -> left_open w dir c bs base ->
  exists l w', NewLog dir c w = (Ok l, w') /\ (HighestOffset (l, w')).1 = Ok base /\ log_stuck (l, w').
Proof.
  intros [Hcfg Hlim] Hb1 Hw Hopen. pose proof Hopen as (Hdir & Hex & Hu & Hs & _).
  assert (Hb : is_u64 base) by (apply list.Forall_app in Hu as [_ Hu]; by apply list.Forall_cons in Hu as [Hu _]).
  set (l0 := mkLog dir c ∅ 0 None []).
  destruct (open_segments_unclosed bs base l0 w Hcfg Hw Hb1 Hopen) as (l & w' & id & s & Hrun & Ha & Hla & Hh & Hst & Hnext).
  exists l, w'. split_and!.
  - unfold NewLog. rewrite default_config_id; [|lia|unfold config_ok in Hcfg; lia].
    rewrite (setup_run dir c w (bs ++ [base])) by done. fold l0. rewrite (bind_Ok _ _ _ _ _ Hrun).
    erewrite (bind_Ok get) by reflexivity. cbn [fst]. rewrite decide_False; [done|]. intros E. by rewrite E in Hla.
  - unfold HighestOffset. erewrite (bind_Ok get) by reflexivity. cbn [fst]. rewrite Hla.
    erewrite bind_Ok by (by apply (get_segment_run id _ _ s)). rewrite Hnext.
    destruct (Z.eqb_spec (base + 1) 0); [unfold is_u64 in Hb; lia|]. cbn. f_equal. u64_norm. lia.
  - exists id, s. cbn. rewrite Hnext. split_and!; [done|done|done|]. unfold is_u64 in *. lia.
Qed.

(** A log that was not closed is lost: when [NewLog] opens a directory that was left
    behind without [Close], its last index with an unused end, the log it returns
    claims to end with the first record of its last segment, however many there were,
    and refuses every append with [io.EOF]. *)
Theorem unclosed_log_lost w dir c bs base rs :
  limits_ok c -> base + 1 < 2 ^ 64 -> healthy w -> left_open w dir c bs base -> Forall record_wf rs ->
  exists l w', NewLog dir c w = (Ok l, w') /\ (HighestOffset (l, w')).1 = Ok base /\
    Forall (fun o => o = Err io_EOF) (run_ops log_exec (OpAppend <$> rs) (l, w')).1.
Proof.
  intros Hlim Hb1 Hw Hopen Hrs.
  destruct (NewLog_unclosed w dir c bs base) as (l & w' & Hn & Hh & Hls); [done..|].
  exists l, w'. split_and!; [done|done|].
  revert Hls. generalize (l, w'). clear -Hrs Hlaws. induction Hrs as [|r rs Hr Hrs IH]; intros x Hx; [constructor|].
  rewrite fmap_cons. cbn [run_ops log_exec]. destruct (log_stuck_append r x Hx Hr) as (x' & Happ & Hx').
  rewrite (bind_Err _ _ _ _ _ Happ). specialize (IH x' Hx').
  destruct (run_ops log_exec (OpAppend <$> rs) x') as [os x2]. by constructor.
Qed.
End crash.

(** ** Witness: the log of the scenario after three appends, in two segments, opened
    again without [Close]. *)
Module CrashWitness.
Import Wire Scenario.

Definition roomy : Config := wit_config 30 240.
Definition crashed : world := (wit_append (wit_append (wit_append (wit_new roomy)))).2.

Lemma crashed_open : left_open crashed "d" roomy [5] 7.
Proof.
  assert (Hd : dir_files "d" crashed ≡ₚ [store_name 5; index_name 5; store_name 7; index_name 7]).
  { apply (bool_decide_unpack _). by vm_compute. }
  split; [apply (bool_decide_unpack _); by vm_compute|]. split.
  { intros n. rewrite <- elem_of_dir_files, Hd. set_solver. }
  split; [repeat constructor; by vm_compute|]. split; [by repeat constructor|]. split.
  - repeat constructor. vm_compute. discriminate.
  - split; by vm_compute.
Qed.

Lemma unclosed_log_lost_witness :
  exists l w', NewLog "d" roomy crashed = (Ok l, w') /\ (HighestOffset (l, w')).1 = Ok 7 /\
    (run_ops log_exec (OpAppend <$> [wit_record abc]) (l, w')).1 = [Err io_EOF].
Proof.
  destruct (unclosed_log_lost crashed "d" roomy [5] 7 [wit_record abc]) as (l & w' & H1 & H2 & H3).
  - by vm_compute.
  - by vm_compute.
  - by vm_compute.
  - exact crashed_open.
  - repeat constructor; by vm_compute.
  - exists l, w'. split; [exact H1|]. split; [exact H2|].
    destruct (run_ops log_exec (OpAppend <$> [wit_record abc]) (l, w')) as [os s] eqn:E. cbn [fst] in *.
    rewrite fmap_cons in E. cbn [run_ops fmap list_fmap] in E. destruct (log_exec _ _) as [o s1].
    injection E as <- _. inversion H3 as [|? ? H4]. by rewrite H4.
Defined.
End CrashWitness.
