(* ===== verification/Raft.v ===== *)
(** What the program uses of [github.com/hashicorp/raft]: its log entries, the
    interfaces [raft.LogStore] and [raft.StableStore] the program implements,
    and the node whose methods it calls, as an interface with the laws the
    library documents. *)

From S2P Require Import Prelude.

(** [raft.Log]; [LogType] is a [uint8], times are nanoseconds. *)
Record raft_Log := mkRaftLog {
  rl_Index : Z;
  rl_Term : Z;
  rl_Type : Z;
  rl_Data : bytes;
  rl_Extensions : bytes;
  rl_AppendedAt : Z
}.

(** [raft.LogStore], for an implementation with state [S].  [GetLog] fills the
    entry it is given. *)
Class LogStore (S : Type) := {
  FirstIndex : M S Z;
  LastIndex : M S Z;
  GetLog : Z -> raft_Log -> M S raft_Log;
  StoreLog : raft_Log -> M S unit;
  StoreLogs : list raft_Log -> M S unit;
  DeleteRange : Z -> Z -> M S unit
}.

(** [raft.StableStore] *)
Class StableStore (S : Type) := {
  Set_ : bytes -> bytes -> M S unit;
  Get : bytes -> M S bytes;
  SetUint64 : bytes -> Z -> M S unit;
  GetUint64 : bytes -> M S Z
}.

(** [raft.Server]: its identifier and address. *)
Record Server := mkServer { sv_ID : string; sv_Address : string }.

#[global] Instance Server_eq_dec : EqDecision Server.
Proof. solve_decision. Defined.
