(* ===== verification/LogStore.v ===== *)
(** [internal/log/distributed/store.go]: the commit log as raft's log store.
    [logStore] embeds [*log.Log], so its state is the log's. *)

From S2P Require Import Prelude Endian OS Proto Config Store Index Names Segment Log Raft.

Definition newLogStore (dir : string) (c : Config) : M world Log := NewLog dir c.

(** [uint32(log.Type)] and [raft.LogType(in.GetType())] *)
Definition record_of_log (lg : raft_Log) : record :=
  mkRecord (rl_Data lg) 0 (rl_Term lg) (u32 (rl_Type lg)).
Definition fill_log (r : record) (lg : raft_Log) : raft_Log :=
  mkRaftLog (Offset r) (Term r) (u8 (Type_ r)) (Value r) (rl_Extensions lg) (rl_AppendedAt lg).

Section logstore.
Context `{ProtoMessage record}.

Definition logStore_FirstIndex : M lst Z := LowestOffset.
Definition logStore_LastIndex : M lst Z := HighestOffset.

Definition logStore_DeleteRange (_ max : Z) : M lst unit := Truncate max.

Definition logStore_GetLog (index : Z) (lg : raft_Log) : M lst raft_Log :=
  r ← Log_Read index;
  mret (fill_log r lg).

Fixpoint logStore_StoreLogs (logs : list raft_Log) : M lst unit :=
  match logs with
  | [] => mret tt
  | lg :: logs => Log_Append (Some (record_of_log lg));; logStore_StoreLogs logs
  end.

Definition logStore_StoreLog (lg : raft_Log) : M lst unit := logStore_StoreLogs [lg].

#[export] Instance logStore_LogStore : LogStore lst := {|
  FirstIndex := logStore_FirstIndex;
  LastIndex := logStore_LastIndex;
  GetLog := logStore_GetLog;
  StoreLog := logStore_StoreLog;
  StoreLogs := logStore_StoreLogs;
  DeleteRange := logStore_DeleteRange
|}.
End logstore.
