(* ===== verification/LogStoreProps.v ===== *)
(** The commit log as raft's log store: what [raft.LogStore] asks for and what
    [internal/log/distributed/store.go] gives. *)

From S2P Require Import Prelude Endian OS Proto Wire Config Store Index Names Segment Log LogInv.
From S2P Require Import LogReopen LogSpec LogTruncate Scenario Raft LogStore.

(** The entry [GetLog] gives for a stored one: the log's own offset is its
    index, and the extensions and the time are those of the argument. *)
Definition stored (off : Z) (lg lg0 : raft_Log) : raft_Log :=
  mkRaftLog off (rl_Term lg) (rl_Type lg) (rl_Data lg) (rl_Extensions lg0) (rl_AppendedAt lg0).

Definition raft_wf (lg : raft_Log) : Prop :=
  is_u64 (rl_Term lg) /\ is_u8 (rl_Type lg) /\ Z.of_nat (length (rl_Data lg)) < 2 ^ 30.

Lemma record_of_log_wf lg : raft_wf lg -> record_wf (record_of_log lg).
Proof.
  intros (H1 & H2 & H3). unfold record_wf, record_of_log. cbn. split_and!; try done.
  unfold is_u8 in H2. rewrite u32_small by in_range. unfold is_u32. lia.
Qed.

Lemma fill_record_of_log off lg lg0 :
  raft_wf lg -> fill_log (set_Offset off (record_of_log lg)) lg0 = stored off lg lg0.
Proof.
  intros (_ & H2 & _). unfold fill_log, stored. cbn. f_equal. unfold is_u8 in H2.
  rewrite u32_small by in_range. apply u8_small. done.
Qed.

Section props.
Context `{Hmsg : ProtoMessage record} {Hlaws : ProtoLaws record record_wf}.

(** The records of entries stored from offset [off] on. *)
Definition stored_records (off : Z) (logs : list raft_Log) : list record :=
  imap (fun i lg => set_Offset (off + Z.of_nat i) (record_of_log lg)) logs.

Lemma stored_records_cons off lg logs :
  stored_records off (lg :: logs) =
  set_Offset off (record_of_log lg) :: stored_records (off + 1) logs.
Proof.
  unfold stored_records. cbn. rewrite Z.add_0_r. f_equal. apply imap_ext.
  intros i x _. cbn. f_equal. lia.
Qed.

Lemma StoreLogs_spec logs l w lo recs :
  log_fit l w lo recs -> Forall raft_wf logs -> Forall (fits (min_frame (l_Config l))) (record_of_log <$> logs) ->
  lo + Z.of_nat (length recs) + Z.of_nat (length logs) < 2 ^ 64 ->
  exists l' w', logStore_StoreLogs logs (l, w) = (Ok tt, (l', w')) /\
    log_fit l' w' lo (recs ++ stored_records (lo + Z.of_nat (length recs)) logs) /\
    l_Config l' = l_Config l.
Proof.
  intros Hr Hwf. revert l w recs Hr. induction Hwf as [|lg logs Hlg Hwf IH]; intros l w recs Hr Hft Hb.
  { exists l, w. rewrite app_nil_r. done. }
  rewrite fmap_cons in Hft. apply list.Forall_cons in Hft as [Hf1 Hft]. cbn [length] in Hb. cbn [logStore_StoreLogs].
  destruct (Log_Append_fit _ _ _ _ _ Hr (record_of_log_wf _ Hlg) Hf1 ltac:(lia)) as (l1 & w1 & E & Hr1 & Hc & _).
  rewrite (bind_Ok _ _ _ _ _ E). rewrite stored_records_cons.
  destruct (IH l1 w1 (recs ++ [set_Offset (lo + Z.of_nat (length recs)) (record_of_log lg)]))
    as (l' & w' & Hrun & Hr' & Hc'); [done|by rewrite Hc|len|].
  exists l', w'. split; [done|]. split; [|congruence].
  rewrite length_app, <- app_assoc in Hr'. cbn in Hr'.
  by replace (lo + Z.of_nat (length recs + 1)) with (lo + Z.of_nat (length recs) + 1) in Hr' by lia.
Qed.

(** C24. [StoreLogs] on a working disk stores the entries under consecutive
    indexes behind the last one, and [GetLog] gives each of them back: its data,
    term and type, and that index.  (The extensions and the append time are not
    stored.)  As in [log_refinement], the entries must take [min_frame] bytes of the
    store; with the default limits every entry with a term, an index and data does. *)
Theorem logstore_store_get logs l w lo recs i lg lg0 :
  log_fit l w lo recs -> Forall raft_wf logs -> Forall (fits (min_frame (l_Config l))) (record_of_log <$> logs) ->
  lo + Z.of_nat (length recs) + Z.of_nat (length logs) < 2 ^ 64 ->
  logs !! i = Some lg ->
  let idx := lo + Z.of_nat (length recs) + Z.of_nat i in
  exists l' w', StoreLogs logs (l, w) = (Ok tt, (l', w')) /\
    (GetLog idx lg0 (l', w')).1 = Ok (stored idx lg lg0) /\
    (LastIndex (l', w')).1 = Ok (lo + Z.of_nat (length recs + length logs) - 1).
Proof.
  intros Hr Hwf Hft Hb Hi idx.
  destruct (StoreLogs_spec logs l w lo recs Hr Hwf Hft Hb) as (l' & w' & Hrun & [(Hinv & _ & Hg) _] & _).
  exists l', w'. split; [exact Hrun|]. pose proof (lookup_lt_Some _ _ _ Hi) as Hlt.
  assert (Hlen : length (stored_records (lo + Z.of_nat (length recs)) logs) = length logs) by apply length_imap.
  destruct (log_inv_range _ _ _ _ Hinv) as [Hlo _].
  split.
  - cbn [GetLog logStore_LogStore]. unfold logStore_GetLog.
    destruct (Log_Read idx (l', w')) as [o [l2 w2]] eqn:E.
    pose proof (Log_Read_spec _ _ _ _ _ _ _ _ Hinv E) as (_ & _ & _ & _ & Ho).
    assert (Hsp : spec_read lo (recs ++ stored_records (lo + Z.of_nat (length recs)) logs) idx
                  = Some (set_Offset idx (record_of_log lg))).
    { unfold spec_read, idx. destruct (Z.leb_spec lo (lo + Z.of_nat (length recs) + Z.of_nat i)); [|lia].
      rewrite lookup_app_r by lia. unfold stored_records. rewrite list_lookup_imap.
      replace (Z.to_nat _ - length recs)%nat with i by lia. by rewrite Hi. }
    rewrite Hsp in Ho. destruct Ho as (_ & Ho & _). destruct (Ho Hg) as [-> _].
    rewrite (bind_Ok _ _ _ _ _ E). cbn. f_equal. apply fill_record_of_log.
    by eapply Forall_lookup_1 in Hwf.
  - cbn [LastIndex logStore_LogStore]. unfold logStore_LastIndex.
    rewrite (HighestOffset_spec _ _ _ _ Hinv). cbn [fst]. unfold spec_highest. rewrite length_app, Hlen.
    destruct (Z.eqb_spec (lo + Z.of_nat (length recs + length logs)) 0); [lia|done].
Qed.

(** C39. [DeleteRange] ignores its lower bound: deleting only the last entries
    [min..last], as raft does when they conflict with the leader's, removes the
    whole log, and the next [LastIndex] panics. *)
Theorem deleterange_suffix_wipes min last l w lo recs :
  log_ready l w lo recs -> recs <> [] ->
  (LastIndex (l, w)).1 = Ok last -> lo <= min <= last ->
  exists l' w', DeleteRange min last (l, w) = (Ok tt, (l', w')) /\
    (forall idx lg0, (GetLog idx lg0 (l', w')).1 = Err (ErrOffsetOutOfRange idx)) /\
    (LastIndex (l', w')).1 = Panic "index out of range".
Proof.
  intros Hr Hne Hlast Hmin. pose proof Hr as [Hinv _].
  cbn [LastIndex GetLog DeleteRange logStore_LogStore] in *.
  unfold logStore_LastIndex, logStore_GetLog, logStore_DeleteRange in *.
  rewrite (HighestOffset_spec _ _ _ _ Hinv) in Hlast. cbn in Hlast. injection Hlast as <-.
  destruct (log_inv_range _ _ _ _ Hinv) as [Hlo Hb].
  assert (Hpos : (0 < length recs)%nat) by (destruct recs; [done|cbn; lia]).
  assert (E : spec_highest lo recs = lo + Z.of_nat (length recs) - 1).
  { unfold spec_highest. destruct (Z.eqb_spec (lo + Z.of_nat (length recs)) 0); [lia|done]. }
  destruct (Truncate_run (spec_highest lo recs) l w lo recs Hr) as
    (l' & w' & k & n & Hrun & _ & _ & _ & _ & Hnil).
  rewrite E, u64_small in Hnil by in_range. specialize (Hnil ltac:(lia)).
  exists l', w'. split; [done|].
  unfold HighestOffset, Log_Read, mbind, M_bind, get. cbn [fst snd]. rewrite Hnil. done.
Qed.
End props.

(** ** Witnesses *)
Module LogStoreWitness.
Import Wire Scenario.

Definition entry : raft_Log := mkRaftLog 0 3 2 abc [] 0.
Definition blank : raft_Log := mkRaftLog 0 0 0 [] [] 0.

(** With the default limits, as [setupRaft] has them. *)
Lemma logstore_store_get_witness :
  exists l' w', StoreLogs [entry; entry] (wit_new plain) = (Ok tt, (l', w')) /\
    (GetLog 6 blank (l', w')).1 = Ok (mkRaftLog 6 3 2 abc [] 0) /\ (LastIndex (l', w')).1 = Ok 6.
Proof.
  destruct (wit_new_fit plain plain_limits) as [Hr Hc]; [by vm_compute|].
  destruct (wit_new plain) as [l w].
  apply (logstore_store_get [entry; entry] l w 5 [] 1 entry blank Hr).
  - repeat constructor; by vm_compute.
  - cbn [fst] in Hc. rewrite Hc, plain_min. repeat constructor; by apply wire_fits.
  - cbn. lia.
  - done.
Defined.

Lemma deleterange_suffix_wipes_witness :
  exists l' w', DeleteRange 6 6 (wit_append (wit_append (wit_new small))) = (Ok tt, (l', w')) /\
    (GetLog 5 blank (l', w')).1 = Err (ErrOffsetOutOfRange 5) /\
    (LastIndex (l', w')).1 = Panic "index out of range".
Proof.
  pose proof small_two as Hr.
  assert (Hl : (LastIndex (wit_append (wit_append (wit_new small)))).1 = Ok 6) by (by vm_compute).
  destruct (wit_append (wit_append (wit_new small))) as [l w].
  destruct (deleterange_suffix_wipes 6 6 l w 5 _ Hr) as (l' & w' & H1 & H2 & H3);
    [done|exact Hl|lia|].
  exists l', w'. split; [exact H1|]. split; [apply H2|exact H3].
Defined.
End LogStoreWitness.
