(* ===== verification/Fsm.v ===== *)
(** [internal/log/distributed/fsm.go] and [snapshot.go]: the state machine that
    raft drives, over the commit log.

    [io.Copy] of the snapshot does not go through [originReader.Read]: with
    Go 1.22 the reader has a [WriteTo] method, promoted from the [*os.File] that
    [store] embeds, and [io.MultiReader]'s [WriteTo] prefers it.  [os.File]'s
    [WriteTo] reads from the file offset. *)

From S2P Require Import Prelude Endian OS Proto Config Store Index Names Segment Log Raft.

Definition AppendRequestType : Z := 0.

(** What [Apply] returns: [nil], an [error], or a response. *)
Inductive response := RespNil | RespError (e : error) | RespProduce (r : ProduceResponse).

(** ** Reading the stream of a snapshot *)

(** An [io.Reader] with the bytes it still has and the error it then returns
    ([io.EOF] at a proper end). *)
Record stream := mkStream { st_bytes : bytes; st_err : error }.

(** [io.ReadFull(r, b)] for a [b] of [n] bytes. *)
Definition io_ReadFull (n : nat) (r : stream) : bytes * option error * stream :=
  let d := take n (st_bytes r) in
  let r' := mkStream (drop n (st_bytes r)) (st_err r) in
  if (length d =? n)%nat then (d, None, r')
  else (d, Some (match st_err r, d with
                 | io_EOF, _ :: _ => io_ErrUnexpectedEOF
                 | e, _ => e
                 end), r').

(** [io.CopyN(&buf, r, n)]: a count that is not positive copies nothing and is
    no error. *)
Definition io_CopyN (n : Z) (r : stream) : bytes * option error * stream :=
  if n <=? 0 then ([], None, r) else
  let d := take (Z.to_nat n) (st_bytes r) in
  let r' := mkStream (drop (Z.to_nat n) (st_bytes r)) (st_err r) in
  if (length d =? Z.to_nat n)%nat then (d, None, r') else (d, Some (st_err r), r').

Section fsm.
Context `{ProtoMessage record} `{ProtoMessage ProduceRequest}.

Definition fsm_applyAppend (b : bytes) : M lst response :=
  r ← try (lift (Unmarshal b));
  match r with
  | inr e => mret (RespError e)
  | inl req =>
      r ← try (Log_Append (pr_Record req));
      match r with
      | inr e => mret (RespError e)
      | inl off => mret (RespProduce (mkProduceResponse off))
      end
  end.

Definition fsm_Apply (data : bytes) : M lst response :=
  match data with
  | [] => panic "index out of range"
  | t :: b => if byte_val t =? AppendRequestType then fsm_applyAppend b else mret RespNil
  end.

(** One turn of the loop of [Restore], [first] for [i == 0]: it returns what is
    left of the stream, or [None] at the [break]. *)
Definition restore_turn (first : bool) (r : stream) : M lst (option stream) :=
  let '(b, err, r) := io_ReadFull (Z.to_nat LenWidth) r in
  match err with
  | Some io_EOF => mret None
  | Some e => throw e
  | None =>
      size ← lift (Uint64 b);
      let '(buf, err, r) := io_CopyN (i64 size) r in
      match err with
      | Some e => throw e
      | None =>
          rc ← lift (Unmarshal buf);
          (if first then
             modify (fun s => (set_Config (set_InitialOffset (Offset rc) (l_Config s.1)) s.1, s.2));;
             Log_Reset
           else mret tt);;
          Log_Append (Some rc);;
          mret (Some r)
      end
  end.

(** The loop itself, at most [fuel] turns of it: [None] when it has not
    returned by then. *)
Fixpoint restore_loop (fuel : nat) (first : bool) (r : stream) (s : lst) : option (outcome unit * lst) :=
  match fuel with
  | O => None
  | S fuel =>
      match restore_turn first r s with
      | (Ok None, s) => Some (Ok tt, s)
      | (Ok (Some r), s) => restore_loop fuel false r s
      | (Err e, s) => Some (Err e, s)
      | (Panic p, s) => Some (Panic p, s)
      end
  end.

(** [Restore]: every turn but the last takes the eight bytes of a length off the
    stream, so the loop returns within the turns it is given
    ([restore_terminates]). *)
Definition fsm_Restore (r : stream) : M lst unit := fun s =>
  match restore_loop (S (length (st_bytes r))) true r s with
  | Some res => res
  | None => (Panic "out of fuel", s)
  end.
End fsm.

(** [Snapshot] *)
Definition fsm_Snapshot : M lst (list originReader) := Reader.

(** ** Writing a snapshot *)

(** [raft.SnapshotSink] with state [K]. *)
Class SnapshotSink (K : Type) := {
  sink_Write : bytes -> K -> nat * option error * K;
  sink_Close : M K unit;
  sink_Cancel : M K unit
}.

Definition copy_buffer_size : nat := Z.to_nat 32768.

Section snapshot.
Context `{SnapshotSink K}.

Abbreviation kst := (lst * K)%type.

Definition k_disk {A} (m : M world A) : M kst A :=
  zoom (fun s : kst => s.1.2) (fun w s => ((s.1.1, w), s.2)) m.
Definition k_sink {A} (m : M K A) : M kst A := zoom snd (fun k s => (s.1, k)) m.
Definition k_write (b : bytes) : M kst (nat * option error) := fun s =>
  let '(n, e, k) := sink_Write b s.2 in (Ok (n, e), (s.1, k)).

(** The copy loop of [io.Copy] over [f.Read]; every turn but the last reads at
    least a byte. *)
Fixpoint copy_loop (fuel : nat) (f : file) : M kst unit :=
  match fuel with
  | O => panic "out of fuel"
  | S fuel =>
      r ← k_disk (file_Read f copy_buffer_size);
      let '(d, er) := r in
      (if (length d =? 0)%nat then mret tt
       else r ← k_write d;
            let '(nw, ew) := r in
            let ew := if (length d <? nw)%nat
                      then Some (match ew with Some e => e | None => errors_New "invalid write result" end)
                      else ew in
            match ew with
            | Some e => throw e
            | None => if (nw =? length d)%nat then mret tt else throw io_ErrShortWrite
            end);;
      match er with
      | None => copy_loop fuel f
      | Some io_EOF => mret tt
      | Some e => throw e
      end
  end.

(** [f.WriteTo(sink)]; the fuel counts the bytes left in the file. *)
Definition file_WriteTo (f : file) : M kst unit := fun s =>
  copy_loop (S (length (fcontent s.1.2 (file_path f)))) f s.

(** [MultiReader(readers...).WriteTo(sink)] *)
Fixpoint readers_WriteTo (rs : list originReader) : M kst unit :=
  match rs with
  | [] => mret tt
  | r :: rs =>
      s ← get;
      match l_heap s.1.1 !! or_store r with
      | None => panic "nil pointer dereference"
      | Some sg => file_WriteTo (s_File (sg_store sg))
      end;;
      readers_WriteTo rs
  end.

Definition snapshot_Persist (rs : list originReader) : M kst unit :=
  r ← try (readers_WriteTo rs);
  match r with
  | inr e => try (k_sink sink_Cancel);; throw e
  | inl _ => k_sink sink_Close
  end.

Definition snapshot_Release : M kst unit := mret tt.
End snapshot.
