(* ===== verification/FsmProps.v ===== *)
(** The replicated state machine: commands, snapshots and restores. *)

From coqutil Require Import Byte.
From S2P Require Import Prelude Endian OS Proto Wire Config Store Index Names Segment Log LogInv.
From S2P Require Import LogReopen LogSpec LogTruncate LogProps Scenario Raft Fsm.

Section apply.
Context `{Hmsg : ProtoMessage record} {Hlaws : ProtoLaws record record_wf}.
Context `{Hreq : ProtoMessage ProduceRequest} {Hreqlaws : ProtoLaws ProduceRequest ProduceRequest_wf}.

(** The entries raft commits: append requests as [Log.apply] encodes them, and
    entries of other request types. *)
Inductive command := CmdAppend (r : record) | CmdOther (t : byte) (b : bytes).

Definition command_wf (c : command) : Prop :=
  match c with
  | CmdAppend r => record_wf r
  | CmdOther t _ => byte_val t <> AppendRequestType
  end.

Definition command_data (c : command) (data : bytes) : Prop :=
  match c with
  | CmdAppend r => exists b, Marshal (mkProduceRequest (Some r)) = Ok b /\ data = byte_of 0 :: b
  | CmdOther t b => data = t :: b
  end.

(** The machine on a list of records. *)
Definition spec_apply (c : command) (lo : Z) (recs : list record) : response * list record :=
  match c with
  | CmdAppend r =>
      let off := lo + Z.of_nat (length recs) in
      (RespProduce (mkProduceResponse off), recs ++ [set_Offset off r])
  | CmdOther _ _ => (RespNil, recs)
  end.

(** The record of a command takes [m] bytes of a store at least. *)
Definition command_fits (m : Z) (c : command) : Prop :=
  match c with CmdAppend r => fits m r | CmdOther _ _ => True end.

Lemma command_fits_mono m m' c : m' <= m -> command_fits m c -> command_fits m' c.
Proof. destruct c; [by apply fits_mono|done]. Qed.

Lemma fsm_Apply_spec c data l w lo recs :
  log_fit l w lo recs -> command_wf c -> command_fits (min_frame (l_Config l)) c -> command_data c data ->
  lo + Z.of_nat (length recs) + 1 < 2 ^ 64 ->
  exists l' w', fsm_Apply data (l, w) = (Ok (spec_apply c lo recs).1, (l', w')) /\
    log_fit l' w' lo (spec_apply c lo recs).2 /\ l_Config l' = l_Config l.
Proof.
  intros Hr Hwf Hft Hd Hb. destruct c as [r|t b]; cbn in Hwf, Hft, Hd |- *.
  2:{ subst data. exists l, w. cbn. destruct (Z.eqb_spec (byte_val t) AppendRequestType); [done|].
      split; [done|]. by split. }
  destruct Hd as (b & Hm & ->). cbn [fsm_Apply].
  replace (byte_val (byte_of 0) =? AppendRequestType) with true by reflexivity.
  unfold fsm_applyAppend. erewrite bind_Ok.
  2:{ unfold try, lift. by rewrite (Unmarshal_Marshal (mkProduceRequest (Some r)) b Hwf Hm). }
  cbn [pr_Record]. destruct (Log_Append_fit r l w lo recs Hr Hwf Hft Hb) as (l1 & w1 & E & Hr1 & Hc & _).
  erewrite bind_Ok by (unfold try; by rewrite E). by exists l1, w1.
Qed.

(** A replica applies committed entries in order. *)
Fixpoint apply_all (datas : list bytes) (s : lst) : list (outcome response) * lst :=
  match datas with
  | [] => ([], s)
  | d :: ds => let (o, s1) := fsm_Apply d s in let (os, s2) := apply_all ds s1 in (o :: os, s2)
  end.

Fixpoint spec_apply_all (cs : list command) (lo : Z) (recs : list record) : list (outcome response) * list record :=
  match cs with
  | [] => ([], recs)
  | c :: cs =>
      let (r, recs1) := spec_apply c lo recs in
      let (rs, recs2) := spec_apply_all cs lo recs1 in (Ok r :: rs, recs2)
  end.

Lemma length_spec_apply c lo recs : (length (spec_apply c lo recs).2 <= S (length recs))%nat.
Proof. destruct c; cbn; len. Qed.

Lemma apply_all_spec m cs datas l w lo recs :
  log_fit l w lo recs -> min_frame (l_Config l) <= m ->
  Forall command_wf cs -> Forall (command_fits m) cs -> Forall2 command_data cs datas ->
  lo + Z.of_nat (length recs) + Z.of_nat (length cs) < 2 ^ 64 ->
  exists l' w', apply_all datas (l, w) = ((spec_apply_all cs lo recs).1, (l', w')) /\
    log_fit l' w' lo (spec_apply_all cs lo recs).2 /\ l_Config l' = l_Config l.
Proof.
  intros Hr Hm Hwf Hft Hd. revert l w recs Hr Hm.
  induction Hd as [|c data cs datas Hc Hd IH]; intros l w recs Hr Hm Hb; [by exists l, w|].
  apply list.Forall_cons in Hwf as [Hw Hwf]. apply list.Forall_cons in Hft as [Hf Hft]. cbn [length] in Hb.
  destruct (fsm_Apply_spec c data l w lo recs Hr Hw (command_fits_mono _ _ _ Hm Hf) Hc ltac:(lia))
    as (l1 & w1 & Hrun & Hr1 & Hc1).
  pose proof (length_spec_apply c lo recs) as Hlen. cbn [apply_all spec_apply_all]. rewrite Hrun.
  destruct (spec_apply c lo recs) as [r recs1]. cbn [fst snd] in *.
  destruct (IH Hwf Hft l1 w1 recs1 Hr1 ltac:(by rewrite Hc1) ltac:(lia)) as (l' & w' & Hrun' & Hr' & Hc').
  rewrite Hrun'. destruct (spec_apply_all cs lo recs1) as [rs recs2]. exists l', w'. by rewrite <- Hc1.
Qed.

(** State machine safety: two replicas that hold the same records, in
    whatever directories and with whatever segment limits, give the same
    responses to the same committed entries (each append its offset) and hold
    the same records afterwards, those of the entries behind the old ones, as
    long as their disks work and the records are large enough to fill a
    segment's store before its index. *)
Theorem replicas_agree m cs datas l1 w1 l2 w2 lo recs :
  log_fit l1 w1 lo recs -> log_fit l2 w2 lo recs ->
  min_frame (l_Config l1) <= m -> min_frame (l_Config l2) <= m ->
  Forall command_wf cs -> Forall (command_fits m) cs -> Forall2 command_data cs datas ->
  lo + Z.of_nat (length recs) + Z.of_nat (length cs) < 2 ^ 64 ->
  let '(resps, recs') := spec_apply_all cs lo recs in
  exists l1' w1' l2' w2',
    apply_all datas (l1, w1) = (resps, (l1', w1')) /\ apply_all datas (l2, w2) = (resps, (l2', w2')) /\
    log_fit l1' w1' lo recs' /\ log_fit l2' w2' lo recs'.
Proof.
  intros Hr1 Hr2 Ha1 Ha2 Hwf Hft Hd Hb.
  destruct (apply_all_spec m _ _ _ _ _ _ Hr1 Ha1 Hwf Hft Hd Hb) as (l1' & w1' & H1 & Hr1' & _).
  destruct (apply_all_spec m _ _ _ _ _ _ Hr2 Ha2 Hwf Hft Hd Hb) as (l2' & w2' & H2 & Hr2' & _).
  destruct (spec_apply_all cs lo recs) as [resps recs']. by exists l1', w1', l2', w2'.
Qed.

(** A committed append request without a record makes [Apply] panic, on
    every replica and in every state of its log with an active segment. *)
Theorem apply_nil_record b l w id s :
  Marshal (mkProduceRequest None) = Ok b -> l_active l = Some id -> l_heap l !! id = Some s ->
  (fsm_Apply (byte_of AppendRequestType :: b) (l, w)).1 = Panic "nil pointer dereference".
Proof.
  intros Hm Ha Hs. cbn [fsm_Apply].
  replace (byte_val (byte_of AppendRequestType) =? AppendRequestType) with true by reflexivity.
  unfold fsm_applyAppend. erewrite bind_Ok.
  2:{ unfold try, lift. by rewrite (Unmarshal_Marshal (mkProduceRequest None) b I Hm). }
  cbn [pr_Record]. erewrite bind_Panic; [reflexivity|].
  assert (E : Log_Append None (l, w) = (Panic "nil pointer dereference", (l, w))).
  { unfold Log_Append. erewrite (bind_Ok get) by reflexivity. cbn [fst snd]. rewrite Ha.
    apply bind_Panic. unfold on_segment. cbn [fst snd]. rewrite Hs.
    change (segment_Append None (s, w)) with (@Panic Z "nil pointer dereference", (s, w)).
    cbn [fst snd]. rewrite insert_id by done. by destruct l. }
  unfold try. rewrite E. done.
Qed.

(** ** Restore *)

Lemma io_ReadFull_shrinks n r d r' :
  io_ReadFull n r = (d, None, r') -> (length (st_bytes r') + n = length (st_bytes r))%nat /\ length d = n.
Proof.
  unfold io_ReadFull. destruct (Nat.eqb_spec (length (take n (st_bytes r))) n) as [E|E]; intros H; simplify_eq.
  cbn. rewrite length_take in E. rewrite length_drop, length_take. lia.
Qed.

Lemma io_CopyN_shrinks n r d e r' :
  io_CopyN n r = (d, e, r') -> (length (st_bytes r') <= length (st_bytes r))%nat.
Proof.
  unfold io_CopyN. destruct (n <=? 0); [intros; by simplify_eq|].
  destruct (length (take _ _) =? _)%nat; intros; simplify_eq; cbn; rewrite length_drop; lia.
Qed.

Lemma restore_turn_shrinks first r s r' s' :
  restore_turn first r s = (Ok (Some r'), s') ->
  (length (st_bytes r') + Z.to_nat LenWidth <= length (st_bytes r))%nat.
Proof.
  unfold restore_turn. destruct (io_ReadFull (Z.to_nat LenWidth) r) as [[b [e|]] r1] eqn:E1; [by destruct e|].
  apply io_ReadFull_shrinks in E1 as [E1 _]. intros H. inv_ok H.
  destruct (io_CopyN _ r1) as [[buf [e|]] r2] eqn:E2; [done|]. apply io_CopyN_shrinks in E2.
  inv_ok H. inv_ok H. inv_ok H. unfold mret, M_ret in H. simplify_eq. lia.
Qed.

(** A loop that returned gives the same with more fuel. *)
Lemma restore_loop_more fuel fuel' first r s res :
  restore_loop fuel first r s = Some res -> (fuel <= fuel')%nat -> restore_loop fuel' first r s = Some res.
Proof.
  revert fuel' first r s. induction fuel as [|fuel IH]; intros fuel' first r s H Hle; [done|].
  destruct fuel' as [|fuel']; [lia|]. cbn [restore_loop] in *.
  destruct (restore_turn first r s) as [[[r1|]|e|p] s1]; [|done..]. apply IH; [done|lia].
Qed.

Lemma restore_loop_returns fuel first r s :
  (length (st_bytes r) < Z.to_nat LenWidth * fuel)%nat -> is_Some (restore_loop fuel first r s).
Proof.
  revert first r s. induction fuel as [|fuel IH]; intros first r s Hf; [lia|]. cbn [restore_loop].
  destruct (restore_turn first r s) as [[[r1|]|e|p] s1] eqn:E; [|by eexists..].
  apply IH. apply restore_turn_shrinks in E. lia.
Qed.

(** C28. [Restore] terminates, whatever the stream holds, whatever error it ends
    with and whatever the state of the log and its disk: the loop returns within
    one turn more than there are lengths of eight bytes in the stream, in the
    first turn ([i == 0]) as in later ones, and [Restore] gives what it returns. *)
Theorem restore_terminates fuel first r s :
  (length (st_bytes r) < Z.to_nat LenWidth * fuel)%nat ->
  exists o s', restore_loop fuel first r s = Some (o, s') /\ (first = true -> fsm_Restore r s = (o, s')).
Proof.
  intros Hf. destruct (restore_loop_returns fuel first r s Hf) as [[o s'] E].
  exists o, s'. split; [done|]. intros ->. unfold fsm_Restore.
  destruct (restore_loop_returns (S (length (st_bytes r))) true r s) as [res E']; [unfold LenWidth; lia|].
  rewrite E'. destruct (Nat.le_ge_cases fuel (S (length (st_bytes r)))) as [Hle|Hle];
    eapply restore_loop_more in Hle; eauto; congruence.
Qed.

(** [Restore] succeeds on the empty snapshot only, and then leaves the log as
    it was: the first record of any other snapshot leads through [Reset], which
    fails. *)
Theorem restore_only_empty r l w s' :
  fsm_Restore r (l, w) = (Ok tt, s') -> st_bytes r = [] /\ st_err r = io_EOF /\ s' = (l, w).
Proof.
  unfold fsm_Restore. cbn [restore_loop]. intros H.
  destruct (restore_turn true r (l, w)) as [[[r1|]|e|p] s1] eqn:E; [| |simplify_eq..].
  { exfalso. unfold restore_turn in E. destruct (io_ReadFull _ r) as [[b [e|]] r2]; [by destruct e|].
    inv_ok E. destruct (io_CopyN _ _) as [[buf [e|]] r3]; [done|].
    inv_ok E. inv_ok E. inv_ok Hrun1. destruct a1. by apply Log_Reset_fails in Hrun1. }
  injection H as <-. unfold restore_turn, io_ReadFull in E.
  destruct (Nat.eqb_spec (length (take (Z.to_nat LenWidth) (st_bytes r))) (Z.to_nat LenWidth)) as [El|El].
  { exfalso. inv_ok E. destruct (io_CopyN _ _) as [[buf [e|]] r3]; [done|]. inv_ok E. inv_ok E. inv_ok E. done. }
  destruct (st_bytes r) as [|x t] eqn:Eb.
  - rewrite take_nil in E. destruct (st_err r); unfold throw, mret, M_ret in E; by simplify_eq.
  - replace (take (Z.to_nat LenWidth) (x :: t)) with (x :: take 7 t) in E by reflexivity.
    destruct (st_err r); unfold throw, mret, M_ret in E; by simplify_eq.
Qed.
End apply.

(** ** Snapshots *)

(** A sink that takes all it is given. *)
Class SinkLaws (K : Type) `{SnapshotSink K} := {
  sink_data : K -> bytes;
  sink_accepts b k : exists k', sink_Write b k = (length b, None, k') /\ sink_data k' = sink_data k ++ b;
  sink_closes k : exists k', sink_Close k = (Ok tt, k') /\ sink_data k' = sink_data k
}.

(** The bytes of a segment's store file behind the file offset. *)
Definition unread (w : world) (s : segment) : bytes :=
  drop (fpos w (store_Name (sg_store s))) (fcontent w (store_Name (sg_store s))).

Section snapshot.
Context `{Hsink : SnapshotSink K} {Hsl : SinkLaws K}.

Lemma fpos_seek_ne p q n w : p <> q -> fpos (seek p n w) q = fpos w q.
Proof. intros. unfold fpos, seek. cbn. by rewrite lookup_insert_ne. Qed.

Lemma fpos_seek p n w : fpos (seek p n w) p = n.
Proof. unfold fpos, seek. cbn. by rewrite lookup_insert_eq. Qed.

(** Only the file offset at [p] changed. *)
Definition seeked (p : path) (w w' : world) : Prop :=
  w_fs w' = w_fs w /\ w_dirs w' = w_dirs w /\ w_oracle w' = w_oracle w /\
  forall q, q <> p -> fpos w' q = fpos w q.

Lemma copy_loop_spec fuel f l w k :
  healthy w -> file_closed f = false ->
  let rest := drop (fpos w (file_path f)) (fcontent w (file_path f)) in
  (length rest < fuel)%nat ->
  exists w' k', copy_loop fuel f ((l, w), k) = (Ok tt, ((l, w'), k')) /\
    sink_data k' = sink_data k ++ rest /\ seeked (file_path f) w w'.
Proof.
  revert w k. induction fuel as [|fuel IH]; intros w k Hw Hf rest Hlen; [lia|].
  set (p := file_path f) in *. set (d := take copy_buffer_size rest).
  set (w1 := seek p (fpos w p + length d) w).
  assert (Hrd : k_disk (file_Read f copy_buffer_size) ((l, w), k) =
     (Ok (d, if (length d =? 0)%nat then Some io_EOF else None), ((l, w1), k))).
  { unfold k_disk, zoom, file_Read. cbn [fst snd]. rewrite Hf.
    replace (copy_buffer_size =? 0)%nat with false by reflexivity.
    rewrite next_fault_healthy by done. reflexivity. }
  cbn [copy_loop]. rewrite (bind_Ok _ _ _ _ _ Hrd).
  assert (Hsk1 : seeked p w w1) by (split_and!; try done; intros q Hq; by apply fpos_seek_ne).
  destruct (Nat.eqb_spec (length d) 0) as [Hd|Hd].
  { erewrite bind_Ok by reflexivity. exists w1, k. split; [done|]. split; [|done].
    assert (rest = []) as ->; [|by rewrite app_nil_r].
    apply length_zero_iff_nil. unfold d in Hd. rewrite length_take in Hd.
    assert (copy_buffer_size <> 0%nat) by (unfold copy_buffer_size; lia). lia. }
  destruct (sink_accepts d k) as (k1 & Hwr & Hk1).
  assert (Hkw : k_write d ((l, w1), k) = (Ok (length d, None), ((l, w1), k1)))
    by (unfold k_write; cbn [fst snd]; by rewrite Hwr).
  erewrite bind_Ok.
  2:{ rewrite (bind_Ok _ _ _ _ _ Hkw). by rewrite Nat.ltb_irrefl, Nat.eqb_refl. }
  assert (Hrest : drop (fpos w1 p) (fcontent w1 p) = drop (length d) rest).
  { unfold w1. rewrite fpos_seek. change (fcontent (seek p _ w) p) with (fcontent w p).
    unfold rest. by rewrite drop_drop. }
  destruct (IH w1 k1) as (w' & k' & Hrun & Hk' & H1 & H2 & H3 & H4); [done|done| |].
  { fold p. rewrite Hrest, length_drop.
    assert (length d <= length rest)%nat by (unfold d; rewrite length_take; lia). lia. }
  fold p in Hk'. rewrite Hrest in Hk'. exists w', k'. split; [done|]. split.
  - rewrite Hk', Hk1, <- app_assoc. f_equal. apply take_drop_length.
  - split_and!; [by rewrite H1|by rewrite H2|by rewrite H3|]. intros q Hq.
    rewrite H4 by done. by apply fpos_seek_ne.
Qed.

Lemma readers_WriteTo_spec ids ss l w k :
  Forall2 (fun id s => l_heap l !! id = Some s) ids ss -> healthy w ->
  (forall s, s ∈ ss -> file_closed (s_File (sg_store s)) = false) ->
  NoDup ((fun s => store_Name (sg_store s)) <$> ss) ->
  exists w' k', readers_WriteTo ((fun id => mkOriginReader id 0) <$> ids) ((l, w), k) =
      (Ok tt, ((l, w'), k')) /\
    sink_data k' = sink_data k ++ (ss ≫= unread w) /\ healthy w' /\ w_fs w' = w_fs w.
Proof.
  intros Hf. revert w k. induction Hf as [|id s ids ss Hs Hf IH]; intros w k Hw Hop Hnd.
  { exists w, k. rewrite app_nil_r. done. }
  rewrite fmap_cons in Hnd. apply list.NoDup_cons in Hnd as [Hni Hnd].
  rewrite fmap_cons. cbn [readers_WriteTo or_store].
  erewrite (bind_Ok get) by reflexivity. cbn [fst snd]. rewrite Hs.
  set (f := s_File (sg_store s)) in *.
  destruct (copy_loop_spec (S (length (fcontent w (file_path f)))) f l w k Hw) as
    (w1 & k1 & Hrun & Hk1 & H1 & H2 & H3 & H4).
  { apply Hop. set_solver. }
  { rewrite length_drop. lia. }
  erewrite bind_Ok by exact Hrun.
  destruct (IH w1 k1) as (w' & k' & Hrun' & Hk' & Hw' & Hfs').
  { unfold healthy. by rewrite H3. }
  { intros. apply Hop. set_solver. }
  { done. }
  exists w', k'. split; [done|]. split; [|by rewrite Hfs', H1].
  rewrite Hk', Hk1, bind_cons, <- app_assoc. do 2 f_equal. apply bind_ext_elem.
  intros s1 Hs1. unfold unread, fcontent. rewrite H1, H4; [done|].
  intros E. apply Hni. apply list_elem_of_fmap. by exists s1.
Qed.

Context `{Hmsg : ProtoMessage record} {Hlaws : ProtoLaws record record_wf}.

Lemma chain_store_names w dir c lo ss rss :
  chain w dir c lo ss rss -> NoDup ((fun s => store_Name (sg_store s)) <$> ss).
Proof.
  intros Hch. apply NoDup_alt. intros i j p Hi Hj. destruct (decide (i = j)) as [|Hne]; [done|exfalso].
  apply list_lookup_fmap_Some in Hi as (s1 & -> & H1), Hj as (s2 & E & H2).
  eapply (chain_disjoint _ _ _ _ _ _ i j s1 s2 (store_Name (sg_store s1)) Hch H1 H2 Hne);
    unfold seg_paths; [|rewrite E]; set_solver.
Qed.

(** What a snapshot persists: for every segment, the bytes of its store file
    behind the current file offset, which are neither the bytes in front of it
    nor those still in the write buffer. *)
Theorem persist_writes_unread l w k lo recs :
  log_ready l w lo recs ->
  exists rs ss w' k', fsm_Snapshot (l, w) = (Ok rs, (l, w)) /\
    Forall2 (fun id s => l_heap l !! id = Some s) (l_segments l) ss /\
    snapshot_Persist rs ((l, w), k) = (Ok tt, ((l, w'), k')) /\
    sink_data k' = sink_data k ++ (ss ≫= unread w).
Proof.
  intros ((ss & rss & _ & Hch & Hf & _) & _ & Hw & _).
  exists ((fun id => mkOriginReader id 0) <$> l_segments l), ss.
  destruct (readers_WriteTo_spec (l_segments l) ss l w k Hf Hw) as (w' & k' & Hrun & Hk' & _).
  { intros s Hs. apply list_elem_of_lookup in Hs as [i Hi].
    destruct (lookup_lt_is_Some_2 rss i) as [rs Hrs].
    { rewrite <- (chain_length _ _ _ _ _ _ Hch). by eapply lookup_lt_Some. }
    destruct (chain_lookup _ _ _ _ _ _ _ _ _ Hch Hi Hrs) as (Hsi & _). apply Hsi. }
  { by eapply chain_store_names. }
  destruct (sink_closes k') as (k2 & Hcl & Hk2).
  exists w', k2. split; [done|]. split; [done|]. split; [|congruence].
  unfold snapshot_Persist. erewrite bind_Ok by (unfold try; by rewrite Hrun).
  unfold k_sink, zoom. cbn [fst snd]. by rewrite Hcl.
Qed.
End snapshot.

(** ** Witnesses *)
Module FsmWitness.
Import Wire Scenario.

(** A sink in memory. *)
#[export] Instance bytes_sink : SnapshotSink bytes := {|
  sink_Write := fun b k => (length b, None, k ++ b);
  sink_Close := mret tt;
  sink_Cancel := mret tt
|}.
#[export, refine] Instance bytes_sink_laws : SinkLaws bytes := {| sink_data := fun k => k |}.
Proof. all: intros; eauto. Defined.

Lemma persist_writes_unread_witness :
  exists rs ss w' k', fsm_Snapshot (wit_new small) = (Ok rs, wit_new small) /\
    snapshot_Persist rs (wit_new small, []) = (Ok tt, (((wit_new small).1, w'), k')) /\
    k' = ss ≫= unread (wit_new small).2.
Proof.
  destruct (wit_new_ready small small_limits) as [Hr _]; [by vm_compute|].
  destruct (wit_new small) as [l w].
  destruct (persist_writes_unread l w [] 5 [] Hr) as (rs & ss & w' & k' & H1 & H2 & H3 & H4).
  exists rs, ss, w', k'. split; [exact H1|]. split; [exact H3|exact H4].
Defined.

Definition append_data : bytes :=
  byte_of 0 :: match Marshal (mkProduceRequest (Some (wit_record abc))) with Ok b => b | _ => [] end.

Lemma replicas_agree_witness :
  let resps := [Ok (RespProduce (mkProduceResponse 5)); Ok RespNil] in
  let recs' := [set_Offset 5 (wit_record abc)] in
  exists l1' w1' l2' w2',
    apply_all [append_data; [Byte.x09]] (wit_new plain) = (resps, (l1', w1')) /\
    apply_all [append_data; [Byte.x09]] (wit_new (wit_config 1000 240)) = (resps, (l2', w2')) /\
    log_fit l1' w1' 5 recs' /\ log_fit l2' w2' 5 recs'.
Proof.
  destruct (wit_new_fit plain plain_limits) as [Hr1 Hc1]; [by vm_compute|].
  destruct (wit_new_fit (wit_config 1000 240)) as [Hr2 Hc2]; [by vm_compute..|].
  destruct (wit_new plain) as [l1 w1], (wit_new (wit_config 1000 240)) as [l2 w2].
  apply (replicas_agree 13 [CmdAppend (wit_record abc); CmdOther Byte.x09 []] _ l1 w1 l2 w2 5 [] Hr1 Hr2).
  - cbn in Hc1. rewrite Hc1. by vm_compute.
  - cbn in Hc2. rewrite Hc2. by vm_compute.
  - repeat constructor; by vm_compute.
  - repeat constructor. by apply abc_fits.
  - repeat constructor. eexists. split; [reflexivity|reflexivity].
  - cbn. lia.
Defined.

Lemma apply_nil_record_witness :
  (fsm_Apply [byte_of AppendRequestType] (wit_new small)).1 = Panic "nil pointer dereference".
Proof.
  destruct (l_heap (wit_new small).1 !! 0%nat) as [s|] eqn:Es; [|by vm_compute in Es].
  assert (Ha : l_active (wit_new small).1 = Some 0%nat) by (by vm_compute).
  destruct (wit_new small) as [l w]. by apply (apply_nil_record [] l w 0%nat s).
Defined.

(** Two framed records behind the first one of a snapshot, in three turns of the
    loop, and the whole snapshot of which the first turn fails. *)
Definition two_frames : stream :=
  let p := match Marshal (wit_record abc) with Ok b => b | _ => [] end in
  mkStream (frame p ++ frame p) io_EOF.

Lemma restore_terminates_witness :
  exists s', restore_loop 6 false two_frames (wit_new plain) = Some (Ok tt, s') /\
    (Log_Read 6 s').1 = Ok (set_Offset 6 (wit_record abc)) /\
    exists e s2, fsm_Restore two_frames (wit_new plain) = (Err e, s2).
Proof.
  assert (E1 : match restore_loop 6 false two_frames (wit_new plain) with
    | Some (o, s) => o = Ok tt /\ (Log_Read 6 s).1 = Ok (set_Offset 6 (wit_record abc)) | None => False end)
    by (vm_compute; by split).
  assert (E2 : match (fsm_Restore two_frames (wit_new plain)).1 with Err _ => True | _ => False end) by (vm_compute; exact I).
  destruct (restore_terminates 6 false two_frames (wit_new plain)) as (o & s' & H & _); [vm_compute; lia|].
  destruct (restore_terminates 6 true two_frames (wit_new plain)) as (o2 & s2 & _ & H2); [vm_compute; lia|].
  rewrite H in E1 |- *. destruct E1 as [-> E1]. specialize (H2 eq_refl).
  rewrite H2 in E2 |- *. exists s'. split; [reflexivity|]. split; [exact E1|].
  destruct o2 as [|e|]; [destruct E2| |destruct E2]. exists e, s2. reflexivity.
Defined.

Lemma restore_only_empty_witness :
  fsm_Restore (mkStream [] io_EOF) (wit_new small) = (Ok tt, wit_new small) /\
  st_bytes (mkStream [] io_EOF) = [].
Proof.
  assert (H : fsm_Restore (mkStream [] io_EOF) (wit_new small) = (Ok tt, wit_new small)) by reflexivity.
  split; [exact H|]. destruct (wit_new small) as [l w].
  exact (proj1 (restore_only_empty _ _ _ _ H)).
Defined.
End FsmWitness.
