(* ===== verification/Snapshot.v ===== *)
(** What a snapshot of a log in use holds.

    Every write to a store file goes to its end and leaves the offset of the file
    there; reads are [ReadAt] and do not move it.  [Persist] copies from that
    offset on. *)

From S2P Require Import Prelude Endian OS Proto Wire Config Store Index Names Segment Log LogInv.
From S2P Require Import LogReopen LogSpec.
From S2P Require Import LogFrame PowerLoss Scenario Raft Fsm FsmProps.

Local Abbreviation anything := (fun _ => True).

Section ended.
Context (d : string).

(** The offset of no store file of [d] is in front of its end. *)
Definition ended (w : world) : Prop := forall p, is_store d p -> (length (fcontent w p) <= fpos w p)%nat.

(** ** The disk *)

Lemma ended_fappend p b w : ended w -> ended (fappend p b w).
Proof.
  intros Hw q Hq. unfold fappend. destruct (decide (p = q)) as [<-|Hne].
  - rewrite fpos_seek. unfold fcontent. cbn. by rewrite lookup_insert_eq.
  - rewrite fpos_seek_ne by done. specialize (Hw q Hq). unfold fpos, fcontent in *. cbn. by rewrite lookup_insert_ne.
Qed.
Lemma ended_fput p b w : ~ is_store d p -> ended w -> ended (fput p b w).
Proof.
  intros Hp Hw q Hq. specialize (Hw q Hq). unfold fpos, fcontent in *. cbn. rewrite lookup_insert_ne; [done|]. by intros <-.
Qed.

Lemma ended_fault : keeps ended anything next_fault.
Proof. intros w Hw. unfold next_fault. by destruct (w_oracle w). Qed.
Lemma ended_syscall {A} (Q : A -> Prop) (k : M world A) : keeps ended Q k -> keeps ended Q (syscall k).
Proof. intros Hk. eapply keeps_bind; [apply ended_fault|]. intros [f|] _; [apply keeps_throw|done]. Qed.
Lemma ended_check_open {A} (Q : A -> Prop) f (k : M world A) : keeps ended Q k -> keeps ended Q (check_open f k).
Proof. intros Hk. unfold check_open. destruct (file_closed f); [apply keeps_throw|by apply ended_syscall]. Qed.
Lemma ended_pure {A} (f : world -> outcome A) : keeps ended anything (fun w => (f w, w)).
Proof. intros w Hw. split; [done|]. by destruct (f w). Qed.

Lemma ended_ReadAt f n off : keeps ended anything (file_ReadAt f n off).
Proof.
  intros w Hw. unfold file_ReadAt. destruct (off <? 0); [done|]. destruct (n =? 0)%nat; [done|].
  destruct (file_closed f); [done|]. destruct (ended_fault w Hw) as [H1 _].
  by destruct (next_fault w) as [[[ft|]|e|p] w1].
Qed.
Lemma ended_Write f b : keeps ended anything (file_Write f b).
Proof.
  intros w Hw. unfold file_Write. destruct (file_closed f); [done|]. destruct (ended_fault w Hw) as [H1 _].
  destruct (next_fault w) as [[[ft|]|e|p] w1]; (split; [by apply ended_fappend|done]).
Qed.
Lemma ended_Truncate f n : ~ is_store d (file_path f) -> keeps ended anything (file_Truncate f n).
Proof.
  intros Hf. apply ended_check_open. intros w Hw. destruct (n <? 0); [done|]. split; [by apply ended_fput|done].
Qed.
(** A file that is not there, or is not a store, can be opened. *)
Lemma ended_OpenFile p w :
  (is_store d p -> w_fs w !! p = None) -> ended w -> ended (os_OpenFile p w).2 /\
  match (os_OpenFile p w).1 with Ok f => file_path f = p | _ => True end.
Proof.
  intros Hp Hw. unfold os_OpenFile, syscall. destruct (next_fault w) as [o w1] eqn:E.
  assert (Hfs : w_fs w1 = w_fs w /\ w_pos w1 = w_pos w /\ exists x, o = Ok x).
  { unfold next_fault in E. destruct (w_oracle w); simplify_eq; cbn; eauto. }
  destruct Hfs as (Hfs & Hpos & x & ->). unfold mbind, M_bind. rewrite E.
  assert (Hw1 : ended w1) by (intros q Hq; specialize (Hw q Hq); unfold fpos, fcontent in *; by rewrite Hfs, Hpos).
  destruct x as [ft|]; [done|]. rewrite Hfs in *. destruct (decide _); [|done].
  assert (Hsk : forall w2, (is_store d p -> fcontent w2 p = []) -> (forall q, q <> p -> is_store d q -> (length (fcontent w2 q) <= fpos w2 q)%nat) ->
    ended (seek p 0 w2)).
  { intros w2 H1 H2 q Hq. destruct (decide (p = q)) as [<-|Hne].
    - rewrite fpos_seek. change (fcontent (seek p 0 w2) p) with (fcontent w2 p). by rewrite H1.
    - rewrite fpos_seek_ne by done. by apply H2. }
  destruct (w_fs w !! p) eqn:Ep; cbn [fst snd]; (split; [|done]).
  - apply Hsk; [intros H; by specialize (Hp H)|]. intros q _. apply Hw1.
  - apply Hsk; [intros _; unfold fcontent; cbn; by rewrite lookup_insert_eq|].
    intros q Hq Hs. specialize (Hw1 q Hs). unfold fpos, fcontent in *. cbn. by rewrite lookup_insert_ne.
Qed.

(** ** Store, index and segment *)

Local Abbreviation ebuf := (fun s : bwst => ended s.2).

Lemma ended_bw_Write f b : keeps ebuf anything (bw_file_Write f b).
Proof. by apply (keeps_zoom _ ended); [..|apply ended_Write]. Qed.

Lemma ended_Flush f : keeps ebuf anything (bufio_Flush f).
Proof.
  unfold bufio_Flush. keeps_step. destruct (bw_err x.1); [auto with keeps|].
  destruct (_ =? 0)%nat; [auto with keeps|]. eapply keeps_bind; [apply ended_bw_Write|]. intros [n err] _.
  destruct (match err with Some e => Some e | None => _ end); [|by apply keeps_modify].
  eapply keeps_bind; [by apply keeps_modify|]. auto with keeps.
Qed.

Lemma ended_bufio_Write f p : keeps ebuf anything (bufio_Write f p).
Proof.
  assert (Hloop : forall fuel p nn, keeps ebuf anything (bufio_Write_loop fuel f p nn)).
  { induction fuel as [|fuel IH]; intros p0 nn; cbn [bufio_Write_loop]; [auto with keeps|].
    keeps_step. destruct (_ && _); [|auto with keeps]. destruct (_ =? 0)%nat.
    - eapply keeps_bind; [apply ended_bw_Write|]. intros [n err] _. eapply keeps_bind; [by apply keeps_modify|]. auto.
    - eapply keeps_bind; [by apply keeps_modify|]. intros _ _.
      eapply keeps_bind; [by apply keeps_try, ended_Flush|]. auto. }
  unfold bufio_Write. eapply keeps_bind; [apply Hloop|]. intros [p' nn] _. keeps_step.
  destruct (bw_err x.1); [auto with keeps|]. eapply keeps_bind; [by apply keeps_modify|]. auto with keeps.
Qed.

Definition store_ended (s : sst) : Prop := store_file d (s_File s.1) /\ ended s.2.

Lemma ended_on_buf {A} (m : M bwst A) : keeps ebuf anything m -> keeps store_ended anything (on_buf m).
Proof. apply keeps_zoom; [by intros s []|]. by intros t s Ht []. Qed.

Lemma ended_store_Append p : keeps store_ended anything (store_Append p).
Proof.
  unfold store_Append. keeps_step. do 2 (eapply keeps_bind; [apply ended_on_buf, ended_bufio_Write|]; intros ? _).
  eapply keeps_bind; [by apply keeps_modify|]. auto with keeps.
Qed.

Lemma ended_store_Read pos : keeps store_ended anything (store_Read pos).
Proof.
  assert (Hrf : forall n off, keeps store_ended anything (read_full n off)).
  { intros n off. unfold read_full. keeps_step. eapply (keeps_bind _ anything).
    - apply (keeps_zoom _ ended); [by intros s []|by intros t s Ht []|]. apply ended_ReadAt.
    - intros [b [e|]] _; auto with keeps. }
  unfold store_Read. keeps_step. eapply keeps_bind; [apply ended_on_buf, ended_Flush|]. intros _ _.
  eapply keeps_bind; [apply Hrf|]. intros size _. eapply (keeps_bind _ anything); [by apply keeps_lift|]. intros n _.
  destruct (_ <? _); [auto with keeps|apply Hrf].
Qed.

Definition index_ended (s : ist) : Prop := index_file d (ix_file s.1) /\ ended s.2.

Lemma index_file_no_store f : index_file d f -> ~ is_store d (file_path f).
Proof. intros [_ He] [_ Hs]. by rewrite He in Hs. Qed.

Lemma ended_index_Write off pos : keeps index_ended anything (index_Write off pos).
Proof.
  assert (Hmw : forall lo hi b, keeps index_ended anything (mmap_write lo hi b)).
  { intros lo hi b. unfold mmap_write. keeps_step. destruct Hx as [Hf _]. repeat (destruct (negb _); [auto with keeps|]).
    destruct (_ <? _); [auto with keeps|]. apply keeps_modify. intros s [H1 H2]. split; [done|].
    apply ended_fput; [by apply index_file_no_store|done]. }
  unfold index_Write. keeps_step. destruct (_ <? _); [auto with keeps|].
  do 2 (eapply keeps_bind; [apply Hmw|]; intros _ _). by apply keeps_modify.
Qed.

Definition segment_ended (s : gst) : Prop := segment_in d s.1 /\ ended s.2.

Lemma ended_on_store {A} (m : M sst A) : keeps store_ended anything m -> keeps segment_ended anything (on_store m).
Proof. apply keeps_zoom; [by intros s [[]]|]. by intros t s [] [[]]. Qed.

(** A segment whose store file is new. *)
Lemma ended_newSegment base c w :
  w_fs w !! (d, store_name base) = None -> ended w -> ended (newSegment d base c w).2.
Proof.
  intros Hn Hw. unfold newSegment. unfold mbind at 1, M_bind at 1, wrap_err at 1.
  destruct (ended_OpenFile (d, store_name base) w (fun _ => Hn) Hw) as [H1 _].
  destruct (os_OpenFile (d, store_name base) w) as [[sf|e|p] w1]; [|done..]. cbn [fst snd] in H1.
  enough (Hk : keeps ended anything (st ← wrap_err "new store" (newStore sf);
    indexFile ← wrap_err "open index" (os_OpenFile (d, index_name base));
    ix ← wrap_err "new index" (newIndex indexFile c);
    r ← try (with_index ix (index_Read (-1)));
    mret (Seg st ix base (match r with inr _ => base | inl (off, _) => base +64 off +64 1 end) c))) by apply Hk, H1.
  assert (Hstat : forall f, keeps ended anything (file_Stat f)) by (intros f; apply ended_check_open, (ended_pure (fun w => Ok _))).
  unfold newStore, newIndex. eapply (keeps_bind _ anything).
  { apply keeps_wrap_err. eapply keeps_bind; [apply keeps_wrap_err, Hstat|]. intros fi _. by apply keeps_ret. }
  intros st _. eapply (keeps_bind _ (fun f => file_path f = (d, index_name base))).
  { apply keeps_wrap_err. intros w2 Hw2. apply ended_OpenFile; [|done].
    intros [_ He]. cbn in He. by rewrite path_Ext_index in He. }
  intros xf Hxf. eapply (keeps_bind _ anything).
  { apply keeps_wrap_err. eapply keeps_bind; [apply keeps_wrap_err, Hstat|]. intros fi _. eapply keeps_bind.
    { apply ended_Truncate. rewrite Hxf. intros [_ He]. cbn in He. by rewrite path_Ext_index in He. }
    intros _ _. eapply (keeps_bind _ anything); [|intros _ _; by apply keeps_ret].
    apply keeps_wrap_err. unfold syscall_Mmap. destruct (_ <=? 0); [apply keeps_throw|].
    apply ended_syscall, (ended_pure (fun w => Ok tt)). }
  intros ix _. eapply (keeps_bind _ anything); [|intros r _; by apply keeps_ret].
  eapply keeps_mono; [|apply (keeps_try _ anything)]; [done|]. intros w2 Hw2. unfold with_index.
  destruct (index_Read_pure (-1) ix w2) as [o ->]. split; [done|]. by destruct o.
Qed.

(** ** Log *)

Definition log_ended (s : lst) : Prop := log_in d s.1 /\ ended s.2.

Lemma ended_on_segment {A} id (m : M gst A) : keeps segment_ended anything m -> keeps log_ended anything (on_segment id m).
Proof.
  intros Hm [l w] [[Hd Hh] Hw]. unfold on_segment. cbn [fst snd] in *.
  destruct (l_heap l !! id) as [sg|] eqn:E; [|done].
  destruct (Hm (sg, w) (conj (Hh id sg E) Hw)) as [[H1 H2] _]. destruct (m (sg, w)) as [o [sg' w']]. cbn in *.
  split; [|by destruct o]. split; [|done]. split; [done|]. cbn. by apply map_Forall_insert_2.
Qed.

Lemma ended_get_segment id : keeps log_ended anything (get_segment id).
Proof. apply ended_on_segment. keeps_step. auto with keeps. Qed.

Lemma ended_Log_newSegment off l w :
  log_ended (l, w) -> w_fs w !! (d, store_name off) = None -> log_ended (Log_newSegment off (l, w)).2.
Proof.
  intros Hl Hn. destruct (here_newSegment_log d w off (l, w)) as [[Hin _] _]; [by split; [apply Hl|apply beside_refl]|].
  split; [done|]. clear Hin. destruct Hl as [[Hd _] Hw]. unfold Log_newSegment. erewrite (bind_Ok get) by reflexivity.
  cbn [fst snd] in *. rewrite Hd. pose proof (ended_newSegment off (l_Config l) w Hn Hw) as H.
  unfold mbind, M_bind, log_disk, zoom. cbn [fst snd]. by destruct (newSegment _ _ _ _) as [[sg|e|p] w1].
Qed.

Section ops.
Context `{Hmsg : ProtoMessage record} {Hlaws : ProtoLaws record record_wf}.

Lemma ended_segment_Append rc : keeps segment_ended anything (segment_Append rc).
Proof.
  unfold segment_Append. keeps_step. destruct rc as [r|]; [|auto with keeps].
  eapply (keeps_bind _ anything); [by apply keeps_lift|]. intros p _.
  eapply keeps_bind; [apply ended_on_store, ended_store_Append|]. intros [n pos] _. eapply keeps_bind.
  { eapply (keeps_zoom _ index_ended); [by intros s [[]]|by intros t s [] [[]]|]. apply ended_index_Write. }
  intros _ _. eapply keeps_bind; [by apply keeps_modify|]. auto with keeps.
Qed.

Lemma ended_Log_Read off : keeps log_ended anything (Log_Read off).
Proof.
  unfold Log_Read. keeps_step. destruct (find_segment _ _ _) as [id|]; [|auto with keeps].
  eapply keeps_bind; [apply ended_get_segment|]. intros sg _. destruct (_ <=? _); [auto with keeps|].
  apply ended_on_segment. unfold segment_Read. keeps_step. eapply (keeps_bind _ anything).
  { intros [sg' w'] Hs. unfold on_index, zoom. cbn [fst snd]. destruct (index_Read_pure (i64 (off -64 baseOffset x0.1)) (sg_index sg') w') as [o ->].
    split; [by destruct sg'|by destruct o]. }
  intros [n pos] _. eapply keeps_bind; [apply ended_on_store, ended_store_Read|]. intros p _. by apply keeps_lift.
Qed.

(** [Append]: the segment it may open is new, as no file lies behind the log. *)
Lemma ended_Log_Append r l w lo recs :
  log_fit l w lo recs -> record_wf r -> lo + Z.of_nat (length recs) + 1 < 2 ^ 64 ->
  log_ended (l, w) -> log_ended (Log_Append (Some r) (l, w)).2.
Proof.
  intros [(Hinv & Hcl & _) _] Hwf Hb He. pose proof (log_inv_range _ _ _ _ Hinv) as [Hlo _].
  destruct (log_inv_last _ _ _ _ Hinv) as (_ & id & _ & _ & _ & _ & _ & Hact & _).
  destruct (active_Append_spec r l w lo recs id Hinv Hcl Hwf Hb Hact) as (o1 & s1 & w1 & Hon & Ho1).
  destruct (ended_on_segment id _ (ended_segment_Append (Some r)) (l, w) He) as [He1 _]. rewrite Hon in He1.
  set (l1 := set_heap (<[id := s1]> (l_heap l)) l) in *. cbn [snd] in He1.
  unfold Log_Append. erewrite bind_Ok by reflexivity. cbn [fst snd]. rewrite Hact.
  destruct o1 as [off1|e|]; [|by rewrite (bind_Err _ _ _ _ _ Hon)|done].
  destruct Ho1 as (-> & Hinv1 & Hfiles1 & _ & Hlt & _). rewrite (bind_Ok _ _ _ _ _ Hon).
  assert (Hs1 : l_heap l1 !! id = Some s1) by apply lookup_insert_eq.
  erewrite bind_Ok by (by apply get_segment_run). destruct (IsMaxed s1); [|done].
  set (off := lo + Z.of_nat (length recs)) in *.
  assert (Hf : w_fs w1 !! (d, store_name (off +64 1)) = None).
  { rewrite u64_small by (unfold off in *; in_range). pose proof (log_inv_full _ _ _ _ _ _ Hinv1 Hact Hs1 Hlt) as Hfull.
    destruct He1 as [[<- _] _]. apply (log_files_fresh l1 w1 (off + 1) Hfiles1); [unfold is_u64, off in *; lia|].
    intros id0 s0 H1 H2. destruct (log_inv_segment _ _ _ _ _ _ Hinv1 H1 H2) as (rs & _ & _ & _ & Hu & _ & Hn).
    specialize (Hfull _ _ H1 H2). split; [done|]. rewrite length_app in Hn. unfold off. cbn [length] in Hn. lia. }
  pose proof (ended_Log_newSegment _ _ _ He1 Hf) as H. unfold mbind, M_bind.
  by destruct (Log_newSegment _ _) as [[[]|e|p] s2].
Qed.

(** The operations of a log in use. *)
Definition op_use (op : lop) : Prop := match op with OpRestart => False | _ => True end.

Lemma ended_log_exec c op s t o s' :
  op_use op -> op_wf (min_frame c) op -> t.1 + Z.of_nat (length t.2) + 1 < 2 ^ 64 ->
  log_refines_state c s t -> log_ended s -> log_exec op s = (o, s') -> log_ended s'.
Proof.
  destruct s as [l w], t as [lo recs]. intros Hu Hwf Hb [Hr Hc] He Hrun. cbn [fst snd] in *.
  assert (Hk : forall {A} (m : M lst A) (f : A -> lres), log_ended (m (l, w)).2 ->
     (a ← m; mret (f a)) (l, w) = (o, s') -> log_ended s').
  { intros A m f H E. unfold mbind, M_bind, mret, M_ret in E. by destruct (m (l, w)) as [[a|e|p] s1]; simplify_eq. }
  assert (Hg : forall id, log_ended (get_segment id (l, w)).2) by (intros id; by apply ended_get_segment).
  destruct op as [r|off| | |]; cbn [log_exec] in Hrun; [| | | |done].
  - destruct Hwf as [Hwf _]. eapply Hk; [|exact Hrun]. by eapply ended_Log_Append.
  - eapply Hk; [|exact Hrun]. by apply ended_Log_Read.
  - destruct Hr as [(Hinv & _) _]. eapply Hk; [|exact Hrun]. by rewrite (LowestOffset_spec _ _ _ _ Hinv).
  - destruct Hr as [(Hinv & _) _]. eapply Hk; [|exact Hrun]. by rewrite (HighestOffset_spec _ _ _ _ Hinv).
Qed.

Lemma ended_run_ops c ops s t :
  Forall op_use ops -> Forall (op_wf (min_frame c)) ops -> t.1 + Z.of_nat (length t.2) + Z.of_nat (length ops) < 2 ^ 64 ->
  log_refines_state c s t -> log_ended s ->
  exists t', (run_ops spec_exec ops t).2 = t' /\ log_refines_state c (run_ops log_exec ops s).2 t' /\
    log_ended (run_ops log_exec ops s).2.
Proof.
  intros Hu. revert s t. induction Hu as [|op ops Ho Hu IH]; intros s t Hwf Hb Hr He; [by exists t|].
  apply list.Forall_cons in Hwf as [Hw Hwf]. cbn [length] in Hb. cbn [run_ops].
  destruct (log_exec op s) as [o s'] eqn:E.
  destruct (log_exec_sim c op s t o s' Hw ltac:(lia) Hr E) as (t' & Ht & Hr' & H1 & H2). rewrite Ht.
  destruct (IH s' t' Hwf ltac:(lia) Hr') as (t2 & H3 & H4 & H5); [by eapply ended_log_exec; [..|exact E]; eauto; lia|].
  exists t2. by destruct (run_ops spec_exec ops t'), (run_ops log_exec ops s').
Qed.

Lemma NewLog_ended c w l w' :
  healthy w -> d ∈ w_dirs w -> (forall n, w_fs w !! (d, n) = None) -> NewLog d c w = (Ok l, w') -> log_ended (l, w').
Proof.
  intros Hw Hd Hn Hrun. unfold NewLog in Hrun. set (l0 := mkLog d (default_config c) ∅ 0 None []) in *.
  assert (E : setup (l0, w) = Log_newSegment (InitialOffset (Segment (default_config c))) (l0, w)).
  { unfold l0. erewrite (setup_run _ _ _ []); [|done|done| |constructor|constructor]; [reflexivity|].
    intros n. rewrite Hn. split; [by intros []|]. intros (b & Hb & _). set_solver. }
  rewrite E in Hrun. assert (H : log_ended (Log_newSegment (InitialOffset (Segment (default_config c))) (l0, w)).2).
  { apply ended_Log_newSegment; [|done]. split; [split; [done|apply map_Forall_empty]|].
    intros p [Hp _]. unfold fcontent. destruct p as [d' n]. cbn in Hp. subst d'. rewrite Hn. cbn. lia. }
  by destruct (Log_newSegment _ _) as [[[]|e|p] [l1 w1]]; simplify_eq.
Qed.
End ops.
End ended.

(** ** The snapshot of a log in use *)

Section snapshot.
Context `{Hmsg : ProtoMessage record} {Hlaws : ProtoLaws record record_wf}.
Context `{Hsink : SnapshotSink K} {Hsl : SinkLaws K}.

Lemma ended_unread d l w ss ids :
  log_ended d (l, w) -> Forall2 (fun id s => l_heap l !! id = Some s) ids ss -> ss ≫= unread w = [].
Proof.
  intros [[_ Hh] He] Hf. induction Hf as [|id s ids ss Hs _ IH]; [done|]. rewrite bind_cons, IH, app_nil_r.
  cbn [fst snd] in *. destruct (Hh id s Hs) as [Hst _]. apply drop_ge, (He (store_Name (sg_store s)) Hst).
Qed.

(** C37. Snapshots of a log that was not reopened hold nothing: after [NewLog] in an
    empty directory and any appends (of well-typed records large enough to fill a
    segment's store before its index), reads and questions for the offsets, on a working
    disk, the log holds every record that was appended, and [Snapshot] and [Persist]
    succeed without a single byte going to the sink. *)
Theorem snapshot_misses_records ops dir c w l w1 lo k :
  limits_ok (default_config c) -> lo = InitialOffset (Segment c) -> is_u64 lo ->
  healthy w -> dir ∈ w_dirs w -> (forall n, w_fs w !! (dir, n) = None) ->
  NewLog dir c w = (Ok l, w1) ->
  Forall op_use ops -> Forall (op_wf (min_frame (default_config c))) ops -> lo + Z.of_nat (length ops) < 2 ^ 64 ->
  let (l', w') := (run_ops log_exec ops (l, w1)).2 in
  exists recs rs s2 k', (run_ops spec_exec ops (lo, [])).2 = (lo, recs) /\ log_fit l' w' lo recs /\
    fsm_Snapshot (l', w') = (Ok rs, (l', w')) /\
    snapshot_Persist rs ((l', w'), k) = (Ok tt, (s2, k')) /\ sink_data k' = sink_data k.
Proof.
  intros Hlim -> Hu Hw Hd Hn Hnew Hus Hwf Hb.
  pose proof (NewLog_ended dir c w l w1 Hw Hd Hn Hnew) as He.
  destruct (NewLog_empty w dir c Hlim Hu Hw Hd Hn) as (l0 & w0 & E & Hfit & _ & Hc). rewrite E in Hnew.
  injection Hnew as -> ->.
  destruct (ended_run_ops dir (default_config c) ops (l, w1) (InitialOffset (Segment c), []) Hus Hwf)
    as ([lo' recs] & Ht & [Hr _] & He'); [cbn [fst snd length]; lia|by split|done|].
  destruct (run_ops log_exec ops (l, w1)).2 as [l' w'].
  assert (lo' = InitialOffset (Segment c)) as ->.
  { rewrite <- (spec_exec_base ops (InitialOffset (Segment c)) []). by rewrite Ht. }
  cbn [fst snd] in Hr. destruct (persist_writes_unread l' w' k _ recs (proj1 Hr)) as (rs & ss & w2 & k' & H1 & H2 & H3 & H4).
  rewrite (ended_unread _ _ _ _ _ He' H2), app_nil_r in H4. by exists recs, rs, (l', w2), k'.
Qed.
End snapshot.

(** ** Witness *)
Module SnapshotWitness.
Import Wire Scenario FsmWitness.

(** Two records with the limits of [NewLog], one of them read. *)
Lemma snapshot_misses_records_witness :
  let ops := [OpAppend (wit_record abc); OpAppend (wit_record abc); OpRead 5] in
  let (l', w') := (run_ops log_exec ops (wit_new plain)).2 in
  exists rs s2, log_fit l' w' 5 [set_Offset 5 (wit_record abc); set_Offset 6 (wit_record abc)] /\
    fsm_Snapshot (l', w') = (Ok rs, (l', w')) /\
    snapshot_Persist rs ((l', w'), []) = (Ok tt, (s2, [])).
Proof.
  assert (Hn : exists l w, NewLog "d" plain wit_world = (Ok l, w) /\ wit_new plain = (l, w)).
  { unfold wit_new. destruct (NewLog_empty wit_world "d" plain plain_limits) as (l & w & E & _);
      [by vm_compute|done|set_solver|intros n; apply lookup_empty|]. exists l, w. by rewrite E. }
  destruct Hn as (l & w & Hn & ->). intros ops.
  pose proof (snapshot_misses_records (K := bytes) ops "d" plain wit_world l w 5 [] plain_limits eq_refl) as H.
  destruct (run_ops log_exec ops (l, w)).2 as [l' w'].
  destruct H as (recs & rs & s2 & k' & H1 & H2 & H3 & H4 & H5); [by vm_compute|done|set_solver|
    intros n; apply lookup_empty|done|repeat constructor| |cbn; lia|].
  { assert (Ha : op_wf (min_frame (default_config plain)) (OpAppend (wit_record abc))).
    { split; [by vm_compute|]. apply abc_fits. rewrite plain_min. reflexivity. }
    apply list.Forall_cons; split; [exact Ha|]. apply list.Forall_cons; split; [exact Ha|].
    apply list.Forall_cons; split; [exact I|constructor]. }
  cbn in H1. injection H1 as <-. exists rs, s2. split; [exact H2|]. split; [exact H3|].
  cbn [sink_data bytes_sink_laws] in H5. rewrite H4. by rewrite H5.
Defined.
End SnapshotWitness.
