(* ===== verification/Faults.v ===== *)
(** What the commit log does not promise: records that were acknowledged but lie in
    the write buffer only, and a store whose buffer has seen a failed write.

    [bufio.Writer] keeps its first error and returns it from every later call.
    Nothing in [internal/log] makes a new writer, so one failed write ends all
    appends to the segment, and raft, which sees only responses of the state
    machine, goes on applying entries. *)

From coqutil Require Import Byte.
From S2P Require Import Prelude Endian OS Proto Wire Config Store Index Names Segment Log LogInv.
From S2P Require Import LogReopen LogSpec.
From S2P Require Import Scenario Raft LogStore Fsm FsmProps.

(** ** A failed writer *)

Lemma bufio_Write_failed f p b w e : bw_err b = Some e -> bufio_Write f p (b, w) = (Err e, (b, w)).
Proof.
  intros He. unfold bufio_Write. erewrite bind_Ok by (apply bufio_Write_loop_exit; right; cbn; by rewrite He).
  mrun. by rewrite He.
Qed.

Lemma bufio_Flush_failed f b w e : bw_err b = Some e -> bufio_Flush f (b, w) = (Err e, (b, w)).
Proof. intros He. unfold bufio_Flush. mrun. by rewrite He. Qed.

Lemma store_Append_failed p s w e : bw_err (s_buf s) = Some e -> store_Append p (s, w) = (Err e, (s, w)).
Proof.
  intros He. unfold store_Append. erewrite (bind_Ok get) by reflexivity. apply bind_Err.
  erewrite on_buf_run by (by apply bufio_Write_failed). by destruct s.
Qed.

Lemma store_Close_failed s w e : bw_err (s_buf s) = Some e -> store_Close (s, w) = (Err e, (s, w)).
Proof.
  intros He. unfold store_Close. erewrite (bind_Ok get) by reflexivity. apply bind_Err.
  erewrite on_buf_run by (by apply bufio_Flush_failed). by destruct s.
Qed.

Lemma store_Read_failed pos s w e : bw_err (s_buf s) = Some e -> store_Read pos (s, w) = (Err e, (s, w)).
Proof.
  intros He. unfold store_Read. erewrite (bind_Ok get) by reflexivity. apply bind_Err.
  erewrite on_buf_run by (by apply bufio_Flush_failed). by destruct s.
Qed.

(** The active segment of the log has seen the write error [e]. *)
Definition jammed (l : Log) (e : error) : Prop :=
  exists id s, l_active l = Some id /\ l_heap l !! id = Some s /\ bw_err (s_buf (sg_store s)) = Some e /\
    is_u64 (nextOffset s).

(** Closing the segments stops at the failed store, if it gets there. *)
Lemma segment_Close_failed s w e : bw_err (s_buf (sg_store s)) = Some e -> (segment_Close (s, w)).1 <> Ok tt.
Proof.
  intros He. unfold segment_Close, mbind, M_bind. unfold on_index at 1, zoom at 1. cbn [fst snd].
  destruct (index_Close (sg_index s, w)) as [[[]|e1|p] [ix w1]]; [|done..]. cbn [fst snd].
  erewrite on_store_run by (apply store_Close_failed; exact He). done.
Qed.

Lemma close_segments_failed id s e ids l w :
  id ∈ ids -> l_heap l !! id = Some s -> bw_err (s_buf (sg_store s)) = Some e ->
  (close_segments ids (l, w)).1 <> Ok tt.
Proof.
  intros Hin Hs He. revert l w Hs. induction ids as [|id1 ids IH]; intros l w Hs; [by apply not_elem_of_nil in Hin|].
  cbn [close_segments]. unfold mbind, M_bind. unfold on_segment at 1. cbn [fst snd].
  destruct (decide (id = id1)) as [<-|Hne].
  - rewrite Hs. pose proof (segment_Close_failed s w e He) as Hc.
    destruct (segment_Close (s, w)) as [[[]|e1|p] [s1 w1]]; done.
  - apply elem_of_cons in Hin as [?|Hin]; [done|]. destruct (l_heap l !! id1) as [s1|]; [|done].
    destruct (segment_Close (s1, w)) as [[[]|e1|p] [s2 w1]]; [|done..].
    apply IH; [done|]. cbn. by rewrite lookup_insert_ne.
Qed.

Section jammed.
Context `{Hmsg : ProtoMessage record} {Hlaws : ProtoLaws record record_wf}.
Context `{Hreq : ProtoMessage ProduceRequest} {Hreqlaws : ProtoLaws ProduceRequest ProduceRequest_wf}.

Lemma segment_Append_failed r s w e :
  bw_err (s_buf (sg_store s)) = Some e -> record_wf r -> is_u64 (nextOffset s) ->
  segment_Append (Some r) (s, w) = (Err e, (s, w)).
Proof.
  intros He Hr Hn. destruct (Marshal_total (set_Offset (nextOffset s) r)) as (p & Hp & _); [by apply record_wf_set_Offset|].
  unfold segment_Append. erewrite (bind_Ok get) by reflexivity. cbn [fst].
  erewrite bind_Ok by (unfold lift; by rewrite Hp). apply bind_Err.
  erewrite on_store_run by (by apply store_Append_failed). by destruct s.
Qed.

Lemma Log_Append_jammed r l w e : jammed l e -> record_wf r -> Log_Append (Some r) (l, w) = (Err e, (l, w)).
Proof.
  intros (id & s & Ha & Hs & He & Hn) Hr. unfold Log_Append. erewrite (bind_Ok get) by reflexivity. cbn [fst].
  rewrite Ha. apply bind_Err. erewrite on_segment_run by (exact Hs || by apply segment_Append_failed).
  rewrite insert_id by done. by destruct l.
Qed.

(** What a replica with such a log answers to a committed entry. *)
Definition jammed_response (e : error) (c : command) : outcome response :=
  match c with CmdAppend _ => Ok (RespError e) | CmdOther _ _ => Ok RespNil end.

Lemma fsm_Apply_jammed c data l w e :
  jammed l e -> command_wf c -> command_data c data -> fsm_Apply data (l, w) = (jammed_response e c, (l, w)).
Proof.
  intros Hj Hw Hd. destruct c as [r|t b]; cbn in Hw, Hd.
  - destruct Hd as (b & Hm & ->). cbn [fsm_Apply].
    replace (byte_val (byte_of 0) =? AppendRequestType) with true by reflexivity.
    unfold fsm_applyAppend. erewrite bind_Ok
      by (unfold try, lift; by rewrite (Unmarshal_Marshal (mkProduceRequest (Some r)) b Hw Hm)).
    cbn [pr_Record]. erewrite bind_Ok by (unfold try; by rewrite (Log_Append_jammed r l w e Hj Hw)). done.
  - subst data. cbn. by destruct (Z.eqb_spec (byte_val t) AppendRequestType).
Qed.

Lemma apply_all_jammed cs datas l w e :
  jammed l e -> Forall command_wf cs -> Forall2 command_data cs datas ->
  apply_all datas (l, w) = (jammed_response e <$> cs, (l, w)).
Proof.
  intros Hj Hw Hd. induction Hd as [|c data cs datas Hc Hd IH]; [done|].
  apply list.Forall_cons in Hw as [Hw1 Hw]. cbn [apply_all]. rewrite (fsm_Apply_jammed c data l w e Hj Hw1 Hc).
  by rewrite IH.
Qed.

Lemma segment_Read_failed off s w e :
  bw_err (s_buf (sg_store s)) = Some e -> is_ok (segment_Read off (s, w)).1 = false.
Proof.
  intros He. unfold segment_Read. erewrite (bind_Ok get) by reflexivity. cbn [fst].
  unfold mbind at 1, M_bind at 1. unfold on_index at 1, zoom at 1. cbn [fst snd].
  destruct (index_Read _ (sg_index s, w)) as [[[n pos]|e1|m] [ix w1]]; [|done..]. cbn [fst snd].
  erewrite bind_Err; [reflexivity|]. apply on_store_run. apply store_Read_failed. exact He.
Qed.

Lemma Log_Read_jammed off l w e :
  jammed l e -> find_segment (l_heap l) (l_segments l) off = l_active l -> is_ok (Log_Read off (l, w)).1 = false.
Proof.
  intros (id & s & Ha & Hs & He & _) Hf. unfold Log_Read. erewrite (bind_Ok get) by reflexivity. cbn [fst snd].
  rewrite Hf, Ha. erewrite bind_Ok by (by apply get_segment_run). destruct (_ <=? _); [done|].
  pose proof (segment_Read_failed off s w e He) as H. unfold on_segment. cbn [fst snd]. rewrite Hs.
  by destruct (segment_Read off (s, w)) as [o t].
Qed.

(** C35. A failed write is for ever: once the buffer of the active store has an error,
    the replica answers every committed append with that error and stays as it is,
    whatever the disk does from then on; the records of the active segment cannot be
    read, and the log cannot be closed.  Raft takes these entries for applied, so the
    replica falls behind its peers without anyone noticing. *)
Theorem write_error_sticky cs datas l w e :
  jammed l e -> Forall command_wf cs -> Forall2 command_data cs datas ->
  apply_all datas (l, w) = (jammed_response e <$> cs, (l, w)) /\
  (forall off, find_segment (l_heap l) (l_segments l) off = l_active l -> is_ok (Log_Read off (l, w)).1 = false) /\
  (default 0%nat (l_active l) ∈ l_segments l -> (Log_Close (l, w)).1 <> Ok tt).
Proof.
  intros Hj Hw Hd. split; [by apply apply_all_jammed|]. split; [intros off; by eapply Log_Read_jammed|].
  destruct Hj as (id & s & -> & Hs & He & _). intros Hin.
  unfold Log_Close. erewrite (bind_Ok get) by reflexivity. by eapply close_segments_failed.
Qed.
End jammed.

(** ** Records in the buffer *)

Lemma bufio_Write_fits f p b w :
  bw_err b = None -> Z.of_nat (length (bw_buf b) + length p) <= bufio_size ->
  bufio_Write f p (b, w) = (Ok (length p), (BufioWriter (bw_buf b ++ p) None, w)).
Proof.
  intros He Hf. unfold bufio_Write.
  erewrite bind_Ok by (apply bufio_Write_loop_exit; left; cbn; unfold bw_Available; lia).
  mrun. rewrite He. cbn. by rewrite He.
Qed.

(** A frame that fits goes to the buffer; the disk is not touched. *)
Lemma store_Append_fits p s w :
  bw_err (s_buf s) = None -> Z.of_nat (length (bw_buf (s_buf s)) + (8 + length p)) <= bufio_size ->
  store_Append p (s, w) =
    (Ok (u64 (Z.of_nat (length p) + 8), s_size s),
     (Store (s_File s) (BufioWriter (bw_buf (s_buf s) ++ frame p) None)
        (s_size s +64 u64 (Z.of_nat (length p) + 8)), w)).
Proof.
  intros He Hf. unfold store_Append. erewrite (bind_Ok get) by reflexivity. cbn [fst].
  erewrite bind_Ok.
  2:{ apply on_buf_run. apply bufio_Write_fits; [done|]. rewrite length_PutUint64. lia. }
  erewrite bind_Ok.
  2:{ apply on_buf_run. apply bufio_Write_fits; [done|]. cbn. rewrite length_app, length_PutUint64. lia. }
  cbn. unfold frame. by rewrite <- app_assoc.
Qed.

Section buffered.
Context `{Hmsg : ProtoMessage record} {Hlaws : ProtoLaws record record_wf}.

(** The bytes the appends of these records take, from offset [next] on. *)
Fixpoint batch_bytes (next : Z) (rs : list record) : nat :=
  match rs with
  | [] => 0
  | r :: rs => 8 + match Marshal (set_Offset next r) with Ok p => length p | _ => 0 end + batch_bytes (next + 1) rs
  end.

(** The segment takes [n] more records of [k] bytes in its buffer, without being full
    then. *)
Definition has_room (s : segment) (n k : nat) : Prop :=
  bw_err (s_buf (sg_store s)) = None /\ Z.of_nat (length (bw_buf (s_buf (sg_store s))) + k) <= bufio_size /\
  0 <= s_size (sg_store s) /\ s_size (sg_store s) + Z.of_nat k < MaxStoreBytes (Segment (sg_config s)) /\
  ix_size (sg_index s) + 12 * Z.of_nat n < MaxIndexBytes (Segment (sg_config s)).

Lemma segment_Append_buffered r s w recs p n k :
  seg_inv s w recs -> record_wf r -> nextOffset s + 1 < 2 ^ 64 -> MaxStoreBytes (Segment (sg_config s)) <= 2 ^ 47 ->
  Marshal (set_Offset (nextOffset s) r) = Ok p -> has_room s (S n) (8 + length p + k) ->
  exists s' w', segment_Append (Some r) (s, w) = (Ok (nextOffset s), (s', w')) /\
    has_room s' n k /\ IsMaxed s' = false /\ store_Name (sg_store s') = store_Name (sg_store s) /\
    nextOffset s' = nextOffset s + 1 /\ sg_config s' = sg_config s /\
    fcontent w' (store_Name (sg_store s)) = fcontent w (store_Name (sg_store s)).
Proof.
  intros Hi Hwf Hn Hmx Hp (He & Hb & Hs0 & Hs & Hx).
  pose proof Hi as [H1 H2 H3 H4 H5 H6 H7 H8 (poss & Hir & Hat)].
  unfold segment_Append. erewrite (bind_Ok get) by reflexivity. cbn [fst].
  erewrite bind_Ok by (unfold lift; by rewrite Hp).
  pose proof (store_Append_fits p (sg_store s) w He ltac:(lia)) as Ha.
  erewrite bind_Ok by (apply on_store_run; exact Ha). cbv beta iota.
  pose proof (index_Write_spec (u32 (nextOffset s -64 baseOffset s)) (s_size (sg_store s)) _ w _ Hir
                (u32_range _) ltac:(in_range)) as Hwr.
  destruct (Z.ltb_spec (ix_mmap_len (sg_index s)) (ix_size (sg_index s) + 12)); [lia|].
  destruct Hwr as (ix & w' & Hwr & Hir' & Hf & Hm & Hfr & _).
  erewrite bind_Ok by (apply (on_index_run _ (set_store _ s)); exact Hwr).
  eexists _, w'. split; [reflexivity|].
  cbn [fst snd set_index set_store set_nextOffset sg_store sg_index sg_config nextOffset s_buf s_size s_File bw_buf bw_err].
  assert (Hixs : ix_size ix = ix_size (sg_index s) + 12).
  { rewrite (ir_size _ _ _ Hir'), (ir_size _ _ _ Hir), length_app. cbn. lia. }
  rewrite (u64_small (Z.of_nat (length p) + 8)) by in_range.
  unfold has_room, IsMaxed.
  cbn [fst snd set_index set_store set_nextOffset sg_store sg_index sg_config nextOffset s_buf s_size s_File bw_buf bw_err].
  rewrite Hixs, length_app, length_frame.
  rewrite !u64_small by in_range. split_and!; try done; try lia.
  eapply fs_frame_content; [exact Hfr|]. set_solver.
Qed.

Lemma Log_Append_buffered r l w lo recs id s p n k :
  log_ready l w lo recs -> record_wf r -> lo + Z.of_nat (length recs) + 1 < 2 ^ 64 ->
  l_active l = Some id -> l_heap l !! id = Some s ->
  let off := lo + Z.of_nat (length recs) in
  Marshal (set_Offset off r) = Ok p -> has_room s (S n) (8 + length p + k) ->
  exists l' w' s', Log_Append (Some r) (l, w) = (Ok off, (l', w')) /\
    log_ready l' w' lo (recs ++ [set_Offset off r]) /\ l_Config l' = l_Config l /\
    l_active l' = Some id /\ l_heap l' !! id = Some s' /\ has_room s' n k /\
    store_Name (sg_store s') = store_Name (sg_store s) /\
    fcontent w' (store_Name (sg_store s)) = fcontent w (store_Name (sg_store s)).
Proof.
  intros (Hinv & Hcl & Hg) Hwf Hb Ha Hs off Hp Hrm. pose proof Hcl as ([_ Hmx] & _).
  destruct (log_inv_last _ _ _ _ Hinv) as (? & ? & ? & ? & ? & rs & _ & Ha' & Hs' & _ & _ & _ & _ & Hi & Hcfg & Hnext).
  simplify_eq. fold off in Hnext. rewrite <- Hnext in Hp.
  destruct (segment_Append_buffered r _ w rs p n k Hi Hwf) as (s' & w' & Hrun & Hrm' & Hmax & Hnm & _ & _ & Hfc);
    [lia|by rewrite Hcfg|done|done|].
  destruct (Log_Append (Some r) (l, w)) as [o [l2 w2]] eqn:E.
  pose proof (Log_Append_spec _ _ _ _ _ _ _ _ Hinv Hcl Hwf Hb E) as (Hc & _ & Ho).
  unfold Log_Append in E. erewrite (bind_Ok get) in E by reflexivity. cbn [fst] in E. rewrite Ha in E.
  erewrite bind_Ok in E by (by eapply on_segment_run).
  erewrite bind_Ok in E by (apply get_segment_run; cbn; by rewrite lookup_insert_eq).
  rewrite Hmax in E. unfold mret, M_ret in E. simplify_eq. rewrite Hnext in *.
  destruct Ho as (_ & K1 & K2 & K3 & _). eexists _, _, s'. split; [reflexivity|].
  split; [by split_and!; auto|]. cbn. rewrite lookup_insert_eq. by split_and!.
Qed.

(** C34. Acknowledged is not stored: on a working disk, [StoreLogs] returns success for
    every batch of well-typed entries that fits both what is left of the write buffer
    and the active segment (which it does not fill, in its store or in its index), the
    log then holds one record more per entry, and the store file of the segment has
    none of their bytes: raft counts entries as persisted, and votes and commits on
    them, that are lost when the process dies. *)
Theorem store_logs_not_durable logs l w lo recs id s :
  log_ready l w lo recs -> l_active l = Some id -> l_heap l !! id = Some s ->
  Forall (fun lg => record_wf (record_of_log lg)) logs -> lo + Z.of_nat (length recs) + Z.of_nat (length logs) < 2 ^ 64 ->
  has_room s (length logs) (batch_bytes (lo + Z.of_nat (length recs)) (record_of_log <$> logs)) ->
  exists l' w' recs', StoreLogs logs (l, w) = (Ok tt, (l', w')) /\
    log_ready l' w' lo (recs ++ recs') /\ length recs' = length logs /\
    fcontent w' (store_Name (sg_store s)) = fcontent w (store_Name (sg_store s)).
Proof.
  cbn [StoreLogs logStore_LogStore]. intros Hr Ha Hs Hwf. revert l w recs s Hr Ha Hs.
  induction Hwf as [|lg logs Hlg Hwf IH]; intros l w recs s Hr Ha Hs Hb Hrm.
  { exists l, w, []. rewrite app_nil_r. done. }
  cbn [length] in Hb. rewrite fmap_cons in Hrm. cbn [batch_bytes length] in Hrm.
  destruct (log_inv_range _ _ _ _ (proj1 Hr)) as [Hlo Hhi].
  destruct (Marshal_total (set_Offset (lo + Z.of_nat (length recs)) (record_of_log lg))) as (p & Hp & _);
    [apply record_wf_set_Offset; [done|in_range]|]. rewrite Hp in Hrm.
  destruct (Log_Append_buffered _ _ _ _ _ _ _ p _ _ Hr Hlg ltac:(lia) Ha Hs Hp Hrm) as
    (l1 & w1 & s1 & Hrun & Hr1 & Hc1 & Ha1 & Hs1 & Hrm1 & Hn1 & Hf1).
  destruct (IH l1 w1 _ s1 Hr1) as (l2 & w2 & recs2 & Hrun2 & Hr2 & Hl2 & Hf2); [done..|len| |].
  { rewrite length_app. cbn [length]. by replace (lo + Z.of_nat (length recs + 1)) with (lo + Z.of_nat (length recs) + 1) by lia. }
  eexists l2, w2, _. split; [cbn [logStore_StoreLogs]; by rewrite (bind_Ok _ _ _ _ _ Hrun)|].
  rewrite <- app_assoc in Hr2. split; [exact Hr2|]. split; [cbn; by rewrite Hl2|]. congruence.
Qed.
End buffered.

(** ** Witnesses *)
Module FaultsWitness.
Import Wire Scenario FsmWitness.

(** A log with one record, whose next write fails for want of space: the read that
    flushes the buffer fails, and leaves the buffer with the error. *)
Definition ENOSPC : error := Errno 28.
Definition before : lst := wit_append (wit_new small).
Definition full_disk : lst := (Log_Read 5 (before.1, set_oracle [Some (Fault ENOSPC 0)] before.2)).2.

Lemma full_disk_jammed : jammed full_disk.1 ENOSPC.
Proof.
  destruct (l_heap full_disk.1 !! 0%nat) as [s|] eqn:Es; [|by vm_compute in Es].
  exists 0%nat, s. split; [by vm_compute|]. split; [exact Es|]. vm_compute in Es. injection Es as <-. by vm_compute.
Qed.

Lemma write_error_sticky_witness :
  healthy full_disk.2 /\ apply_all [append_data; [Byte.x09]; append_data] full_disk =
    ([Ok (RespError ENOSPC); Ok RespNil; Ok (RespError ENOSPC)], full_disk) /\
  is_ok (Log_Read 5 full_disk).1 = false /\ (Log_Close full_disk).1 <> Ok tt.
Proof.
  split; [by vm_compute|]. pose proof full_disk_jammed as Hj.
  assert (Hin : default 0%nat (l_active full_disk.1) ∈ l_segments full_disk.1) by (apply (bool_decide_unpack _); by vm_compute).
  assert (Hfs : find_segment (l_heap full_disk.1) (l_segments full_disk.1) 5 = l_active full_disk.1) by (by vm_compute).
  destruct full_disk as [l w].
  destruct (write_error_sticky [CmdAppend (wit_record abc); CmdOther Byte.x09 []; CmdAppend (wit_record abc)]
              [append_data; [Byte.x09]; append_data] l w ENOSPC Hj) as (H1 & H2 & H3).
  - repeat constructor; by vm_compute.
  - repeat constructor; (eexists; split; reflexivity).
  - split; [exact H1|]. split; [exact (H2 5 Hfs)|exact (H3 Hin)].
Defined.

(** Two entries in an empty log store. *)
Definition entries : list raft_Log := [mkRaftLog 5 7 0 abc [] 0; mkRaftLog 6 7 0 [] [] 0].
Definition store_log : lst := wit_new plain.

Lemma store_logs_not_durable_witness :
  exists l' w', StoreLogs entries store_log = (Ok tt, (l', w')) /\
    fcontent w' ("d"%string, store_name 5) = [] /\ exists recs, length recs = 2%nat /\ log_ready l' w' 5 recs.
Proof.
  destruct (wit_new_ready plain plain_limits) as [Hr _]; [by vm_compute|].
  destruct (l_heap store_log.1 !! 0%nat) as [s|] eqn:Es; [|by vm_compute in Es].
  assert (Ha : l_active store_log.1 = Some 0%nat) by (by vm_compute).
  assert (He : fcontent store_log.2 ("d"%string, store_name 5) = []) by (by vm_compute).
  assert (Hs : store_Name (sg_store s) = ("d"%string, store_name 5) /\
    has_room s 2 (batch_bytes 5 (record_of_log <$> entries))).
  { vm_compute in Es. injection Es as <-. split; [by vm_compute|]. vm_compute. repeat split; discriminate. }
  destruct Hs as [Hs Hrm]. fold store_log in Hr. destruct store_log as [l w]. cbn [fst snd] in *.
  destruct (store_logs_not_durable entries l w 5 [] 0%nat s Hr Ha Es) as (l' & w' & recs & H1 & H2 & H3 & H4).
  - repeat constructor; by vm_compute.
  - cbn. lia.
  - exact Hrm.
  - exists l', w'. split; [exact H1|]. rewrite Hs in H4. split; [rewrite H4; exact He|]. exists recs. split; [exact H3|exact H2].
Defined.
End FaultsWitness.
