(* ===== verification/Closed.v ===== *)
(** Reading a log that was closed.

    [Close] unmaps the index but keeps the slice of the map: a read of an offset that
    the log holds then touches memory that is gone, which no Go program survives.
    [Close] runs under a log that is in use when raft restores a snapshot. *)

From coqutil Require Import Byte.
From S2P Require Import Prelude Endian OS Proto Wire Config Store Index Names Segment Log LogInv.
From S2P Require Import LogReopen LogSpec.
From S2P Require Import LogTruncate LogProps Scenario Raft Fsm FsmProps.

Definition map_fault : string := "unexpected fault address".

(** ** What [Close] does to the index *)

Definition unmapped (i i' : index) : Prop :=
  ix_mapped i' = false /\ ix_size i' = ix_size i /\ ix_mmap_len i' = ix_mmap_len i.

(** The segment after [Close]: its range is the same, its index is unmapped. *)
Definition seg_closed (s s' : segment) : Prop :=
  baseOffset s' = baseOffset s /\ nextOffset s' = nextOffset s /\ unmapped (sg_index s) (sg_index s').

Lemma ix_disk_index {A} (m : M world A) i w o i' w' : ix_disk m (i, w) = (o, (i', w')) -> i' = i.
Proof. unfold ix_disk, zoom. cbn. destruct (m w). intros. by simplify_eq. Qed.

Lemma index_Close_unmaps i w i' w' : index_Close (i, w) = (Ok tt, (i', w')) -> unmapped i i'.
Proof.
  unfold index_Close. erewrite (bind_Ok get) by reflexivity. cbn [fst]. intros H.
  inv_ok H. destruct s as [i1 w1]. apply wrap_err_Ok_inv in Hrun. assert (i1 = i) as ->.
  { unfold msync in Hrun. erewrite (bind_Ok get) in Hrun by reflexivity. cbn in Hrun. destruct (_ || _); [|done].
    by eapply ix_disk_index. }
  inv_ok H. destruct s as [i2 w2]. apply wrap_err_Ok_inv in Hrun0. assert (Hu : unmapped i i2).
  { unfold munmap in Hrun0. erewrite (bind_Ok get) in Hrun0 by reflexivity. cbn in Hrun0.
    destruct (ix_mapped i); [|done]. inv_ok Hrun0. destruct s as [i3 w3]. apply ix_disk_index in Hrun1 as ->.
    unfold modify in Hrun0. by simplify_eq. }
  inv_ok H. destruct s as [i3 w3]. apply wrap_err_Ok_inv, ix_disk_index in Hrun1 as ->.
  inv_ok H. destruct s as [i3 w4]. apply wrap_err_Ok_inv, ix_disk_index in Hrun1 as ->.
  unfold zoom in H. cbn [fst snd] in H. destruct (file_Close (ix_file i2, w4)) as [o [f w5]]. by simplify_eq.
Qed.

Lemma segment_Close_closed s w s' w' : segment_Close (s, w) = (Ok tt, (s', w')) -> seg_closed s s'.
Proof.
  unfold segment_Close. intros H. inv_ok H. unfold on_index, zoom in Hrun. cbn in Hrun.
  destruct (index_Close (sg_index s, w)) as [o [i w1]] eqn:E. simplify_eq. destruct a. apply index_Close_unmaps in E.
  unfold on_store, zoom in H. destruct (store_Close _) as [o2 t]. by simplify_eq.
Qed.

Lemma seg_closed_trans s1 s2 s3 : seg_closed s1 s2 -> seg_closed s2 s3 -> seg_closed s1 s3.
Proof. intros (H1 & H2 & H3 & H4 & H5) (K1 & K2 & K3 & K4 & K5). unfold seg_closed, unmapped. split_and!; congruence. Qed.

(** [Close] that succeeds closes the segments of the list and leaves the others. *)
Lemma close_segments_closed ids l w l' w' :
  close_segments ids (l, w) = (Ok tt, (l', w')) ->
  l_segments l' = l_segments l /\
  forall id, if decide (id ∈ ids) then exists s s', l_heap l !! id = Some s /\ l_heap l' !! id = Some s' /\ seg_closed s s'
             else l_heap l' !! id = l_heap l !! id.
Proof.
  revert l w. induction ids as [|id0 ids IH]; intros l w H; cbn [close_segments] in H.
  { unfold mret, M_ret in H. simplify_eq. split; [done|]. intros id. by rewrite decide_False by apply not_elem_of_nil. }
  inv_ok H. destruct a, s as [l1 w1]. unfold on_segment in Hrun. cbn in Hrun.
  destruct (l_heap l !! id0) as [s0|] eqn:E0; [|done].
  destruct (segment_Close (s0, w)) as [o [s1 w2]] eqn:Ec. simplify_eq. apply segment_Close_closed in Ec.
  destruct (IH _ _ H) as [Hs Hh]. split; [exact Hs|]. intros id. specialize (Hh id). cbn in Hh.
  destruct (decide (id = id0)) as [->|Hne].
  - rewrite decide_True by left. rewrite lookup_insert_eq in Hh. destruct (decide (id0 ∈ ids)).
    + destruct Hh as (s2 & s3 & [= <-] & H3 & Hc). exists s0, s3. eauto using seg_closed_trans.
    + by exists s0, s1.
  - rewrite lookup_insert_ne in Hh by done. destruct (decide (id ∈ ids)) as [Hin|Hni].
    + by rewrite decide_True by (by right).
    + rewrite decide_False; [exact Hh|]. intros [?|?]%elem_of_cons; done.
Qed.

(** ** Reading *)

Lemma index_Read_unmapped inn i w e s i' w' :
  index_Read inn (i, w) = (Ok e, s) -> unmapped i i' -> (index_Read inn (i', w')).1 = Panic map_fault.
Proof.
  intros H (Hm & Hs & Hl). unfold index_Read in *. erewrite (bind_Ok get) in H |- * by reflexivity. cbn [fst] in *.
  rewrite Hs. destruct (ix_size i =? 0); [done|]. destruct (_ <? _); [done|]. inv_ok H. erewrite bind_Panic; [reflexivity|].
  unfold mmap_read in *. erewrite (bind_Ok get) in Hrun |- * by reflexivity. cbn [fst snd] in *. rewrite Hl, Hm.
  destruct (negb _); [done|]. reflexivity.
Qed.

(** The log [l'] is [l] with its segments closed. *)
Definition log_closed (l l' : Log) : Prop :=
  l_segments l' = l_segments l /\
  forall id, id ∈ l_segments l -> exists s s', l_heap l !! id = Some s /\ l_heap l' !! id = Some s' /\ seg_closed s s'.

Lemma Log_Close_closed l w l' w' : close_segments (l_segments l) (l, w) = (Ok tt, (l', w')) -> log_closed l l'.
Proof.
  intros H. destruct (close_segments_closed _ _ _ _ _ H) as [Hs Hh]. split; [done|]. intros id Hid.
  specialize (Hh id). by rewrite decide_True in Hh.
Qed.

Lemma find_segment_closed h h' ids off :
  (forall id, id ∈ ids -> exists s s', h !! id = Some s /\ h' !! id = Some s' /\ seg_closed s s') ->
  find_segment h' ids off = find_segment h ids off.
Proof.
  induction ids as [|id ids IH]; intros H; [done|]. cbn [find_segment].
  destruct (H id) as (s & s' & -> & -> & H1 & H2 & _); [by left|]. rewrite H1, H2.
  destruct (_ && _); [done|]. apply IH. intros id' Hid'. apply H. by right.
Qed.

Lemma find_segment_elem h ids off id : find_segment h ids off = Some id -> id ∈ ids.
Proof.
  induction ids as [|id0 ids IH]; cbn [find_segment]; [done|].
  destruct (h !! id0) as [s|]; [destruct (_ && _)|]; intros H; [injection H as <-; by left|right; auto..].
Qed.

Section read.
Context `{Hmsg : ProtoMessage record}.

Lemma segment_Read_closed off s w v t s' w' :
  segment_Read off (s, w) = (Ok v, t) -> seg_closed s s' -> (segment_Read off (s', w')).1 = Panic map_fault.
Proof.
  intros H (Hb & _ & Hu). unfold segment_Read in *. erewrite (bind_Ok get) in H |- * by reflexivity. cbn [fst] in *.
  inv_ok H. unfold on_index, zoom in Hrun. cbn [fst snd] in Hrun.
  destruct (index_Read _ (sg_index s, w)) as [o t1] eqn:E in Hrun. simplify_eq. rewrite Hb.
  apply (index_Read_unmapped _ _ _ _ _ (sg_index s') w') in E; [|done].
  unfold mbind, M_bind, on_index, zoom. cbn [fst snd]. destruct (index_Read _ (sg_index s', w')) as [o2 t2].
  cbn in E. by subst o2.
Qed.

Lemma Log_Read_closed off l w v t l' w' :
  Log_Read off (l, w) = (Ok v, t) -> log_closed l l' -> (Log_Read off (l', w')).1 = Panic map_fault.
Proof.
  intros H [Hs Hh]. unfold Log_Read in *. erewrite (bind_Ok get) in H |- * by reflexivity. cbn [fst snd] in *.
  rewrite Hs, (find_segment_closed _ _ _ _ Hh). destruct (find_segment _ _ _) as [id|] eqn:Ef; [|done].
  destruct (Hh id (find_segment_elem _ _ _ _ Ef)) as (s & s' & E & E' & Hc). pose proof Hc as (_ & Hn & _).
  erewrite bind_Ok in H |- * by (by apply get_segment_run). rewrite Hn.
  destruct (_ <=? _); [done|]. unfold on_segment in *. cbn [fst snd] in *. rewrite E in H. rewrite E'.
  destruct (segment_Read off (s, w)) as [o1 t1] eqn:E1. simplify_eq.
  pose proof (segment_Read_closed _ _ _ _ _ s' w' E1 Hc) as Hp. by destruct (segment_Read off (s', w')).
Qed.
End read.

(** ** Restore *)

Section restore.
Context `{Hmsg : ProtoMessage record} {Hlaws : ProtoLaws record record_wf}.

(** [Reset] leaves the log closed. *)
Lemma Log_Reset_closed l w lo recs c :
  log_ready l w lo recs ->
  exists e l' w', Log_Reset (set_Config c l, w) = (Err e, (l', w')) /\ log_closed l l'.
Proof.
  intros ((ss & rss & -> & Hch & Hf & Hnd & _) & _ & Hw & Hbe).
  destruct (close_segments_spec _ _ _ _ _ _ (set_Config c l) (l_segments l) Hch Hf Hnd Hw) as (h' & w1 & Hrun & Hw1 & _).
  { intros s Hs. apply list_elem_of_lookup in Hs as [i Hi].
    destruct (Forall2_lookup_r _ _ _ _ _ Hf Hi) as (id & H1 & H2). eapply Hbe; [by eapply list_elem_of_lookup_2|done]. }
  assert (Hcl : Log_Close (set_Config c l, w) = (Ok tt, (set_heap h' (set_Config c l), w1))) by exact Hrun.
  apply (Log_Close_closed (set_Config c l)) in Hrun. unfold Log_Reset, Log_Remove. 
  set (l1 := set_heap h' (set_Config c l)) in *.
  assert (Hrm : (Log_Close;; s ← get; log_disk (os_RemoveAll (l_Dir s.1))) (set_Config c l, w) =
    (Ok tt, (l1, (os_RemoveAll (l_Dir l1) w1).2))).
  { rewrite (bind_Ok _ _ _ _ _ Hcl). unfold os_RemoveAll, log_disk, zoom. mrun. by rewrite syscall_healthy. }
  rewrite (bind_Ok _ _ _ _ _ Hrm). unfold setup. erewrite (bind_Ok get) by reflexivity. cbn [fst].
  unfold os_RemoveAll. rewrite syscall_healthy by done. cbn [snd].
  eexists _, l1, _. split; [|exact Hrun]. apply bind_Err. unfold wrap_err, log_disk, zoom, os_ReadDir. cbn [fst snd].
  rewrite syscall_healthy by done. rewrite decide_False; [reflexivity|]. cbn. set_solver.
Qed.

(** The first turn of [Restore] on a snapshot that begins with a framed record. *)
Lemma fsm_Restore_first p rest e (rc : record) s er s' :
  Z.of_nat (length p) < 2 ^ 63 -> Unmarshal p = Ok rc ->
  Log_Reset (set_Config (set_InitialOffset (Offset rc) (l_Config s.1)) s.1, s.2) = (Err er, s') ->
  fsm_Restore (mkStream (frame p ++ rest) e) s = (Err er, s').
Proof.
  intros Hl Hu Hr. assert (is_u64 (Z.of_nat (length p))) by (unfold is_u64; lia).
  unfold fsm_Restore. cbn [restore_loop st_bytes].
  enough (E : restore_turn true (mkStream (frame p ++ rest) e) s = (Err er, s')) by (by rewrite E).
  unfold restore_turn, io_ReadFull, frame. cbn [st_bytes st_err].
  rewrite <- app_assoc, take_app_length', drop_app_length' by (by rewrite length_PutUint64).
  rewrite length_PutUint64. change (8 =? Z.to_nat LenWidth)%nat with true. cbn iota.
  rewrite u64_small by done. erewrite bind_Ok by (unfold lift; by rewrite Uint64_PutUint64_nil).
  assert (Hn : io_CopyN (i64 (Z.of_nat (length p))) (mkStream (p ++ rest) e) = (p, None, mkStream rest e)).
  { rewrite i64_small by lia. unfold io_CopyN. cbn [st_bytes st_err]. rewrite Nat2Z.id.
    rewrite take_app_length, drop_app_length, Nat.eqb_refl. destruct (Z.leb_spec (Z.of_nat (length p)) 0); [|done].
    by destruct p; [|cbn in *; lia]. }
  rewrite Hn. erewrite bind_Ok by (unfold lift; by rewrite Hu).
  apply bind_Err. erewrite bind_Ok by reflexivity. exact Hr.
Qed.

(** C33. Raft restores a snapshot while the log is in use, on a disk without failures:
    [Restore] fails in [Reset], which has closed the segments and removed their files
    by then.  [Close] keeps the slice of the index map that it unmaps, so the next
    [Read] of any record that the log held a moment ago touches unmapped memory, a
    fault that ends the whole process. *)
Theorem restore_kills_readers l w lo recs p (rc : record) rest e off r :
  log_ready l w lo recs -> spec_read lo recs off = Some r ->
  Unmarshal p = Ok rc -> Z.of_nat (length p) < 2 ^ 63 ->
  exists er s', fsm_Restore (mkStream (frame p ++ rest) e) (l, w) = (Err er, s') /\
    (Log_Read off s').1 = Panic map_fault.
Proof.
  intros Hr Hv Hu Hl.
  destruct (Log_Reset_closed l w lo recs (set_InitialOffset (Offset rc) (l_Config l)) Hr) as (er & l' & w' & Hres & Hc).
  exists er, (l', w'). split; [by apply fsm_Restore_first with rc|].
  destruct (Log_Read off (l, w)) as [o [l1 w1]] eqn:E. pose proof Hr as (Hinv & _ & Hg).
  pose proof (Log_Read_spec _ _ _ _ _ _ _ _ Hinv E) as (_ & _ & _ & _ & H). rewrite Hv in H.
  destruct H as (_ & H & _). destruct (H Hg) as [-> _]. by eapply Log_Read_closed.
Qed.
End restore.

Module ClosedWitness.
Import Wire Scenario.

(** A log of two records, and the snapshot of a record at offset 9. *)
Lemma restore_kills_readers_witness :
  let s := wit_append (wit_append (wit_new small)) in
  let p := default [] (match Marshal (set_Offset 9 (wit_record abc)) with Ok p => Some p | _ => None end) in
  exists er s', fsm_Restore (mkStream (frame p) io_EOF) s = (Err er, s') /\ (Log_Read 6 s').1 = Panic map_fault.
Proof.
  cbv zeta. set (p := default [] _).
  assert (Hp : Unmarshal p = Ok (set_Offset 9 (wit_record abc))) by (vm_compute; reflexivity).
  assert (Hl : Z.of_nat (length p) < 2 ^ 63) by (vm_compute; reflexivity). clearbody p.
  pose proof small_two as Hr. destruct (wit_append (wit_append (wit_new small))) as [l w]. cbn [fst snd] in Hr.
  rewrite <- (app_nil_r (frame p)).
  eapply (restore_kills_readers l w 5 _ p _ [] io_EOF 6); [exact Hr|reflexivity|exact Hp|exact Hl].
Defined.
End ClosedWitness.
