(* ===== verification/RaftPebble.v ===== *)
(** [internal/raftpebble]: a raft log and stable store over the Pebble key-value
    store.

    Pebble and the msgpack codec are dependencies: [PebbleDB] and [MsgPack] are
    the calls the code makes of them, with state [D] of the database, and
    [PebbleLaws] and [MsgPackLaws] what their documentation promises. *)

From coqutil Require Import Byte.
From S2P Require Import Prelude Endian Raft.

(** ** Configuration ([config.go]) *)

Record RaftLogRocksDBConfig := mkRocks {
  Shards : Z;
  KVKeepLogFileNum : Z;
  KVMaxBackgroundCompactions : Z;
  KVMaxBackgroundFlushes : Z;
  KVLRUCacheSize : Z;
  KVWriteBufferSize : Z;
  KVMaxWriteBufferNumber : Z;
  KVLevel0FileNumCompactionTrigger : Z;
  KVLevel0SlowdownWritesTrigger : Z;
  KVLevel0StopWritesTrigger : Z;
  KVMaxBytesForLevelBase : Z;
  KVMaxBytesForLevelMultiplier : Z;
  KVTargetFileSizeBase : Z;
  KVTargetFileSizeMultiplier : Z;
  KVLevelCompactionDynamicLevelBytes : Z;
  KVRecycleLogFileNum : Z;
  KVNumOfLevels : Z;
  KVBlockSize : Z;
  SaveBufferSize : Z;
  MaxSaveBufferSize : Z
}.

#[global] Instance Rocks_eq_dec : EqDecision RaftLogRocksDBConfig.
Proof. solve_decision. Defined.

Definition defaultLogDBShards : Z := 1.

Definition getDefaultRaftLogRocksDBConfig : RaftLogRocksDBConfig := {|
  Shards := defaultLogDBShards;
  KVMaxBackgroundCompactions := 2;
  KVMaxBackgroundFlushes := 2;
  KVLRUCacheSize := 0;
  KVKeepLogFileNum := 16;
  KVWriteBufferSize := 128 * 1024 * 1024;
  KVMaxWriteBufferNumber := 4;
  KVLevel0FileNumCompactionTrigger := 8;
  KVLevel0SlowdownWritesTrigger := 17;
  KVLevel0StopWritesTrigger := 24;
  KVMaxBytesForLevelBase := 4 * 1024 * 1024 * 1024;
  KVMaxBytesForLevelMultiplier := 2;
  KVTargetFileSizeBase := 16 * 1024 * 1024;
  KVTargetFileSizeMultiplier := 2;
  KVLevelCompactionDynamicLevelBytes := 0;
  KVRecycleLogFileNum := 0;
  KVNumOfLevels := 7;
  KVBlockSize := 32 * 1024;
  SaveBufferSize := 32 * 1024;
  MaxSaveBufferSize := 64 * 1024 * 1024
|}.

Definition set_write_buffers (size number : Z) (c : RaftLogRocksDBConfig) : RaftLogRocksDBConfig := {|
  Shards := Shards c;
  KVMaxBackgroundCompactions := KVMaxBackgroundCompactions c;
  KVMaxBackgroundFlushes := KVMaxBackgroundFlushes c;
  KVLRUCacheSize := KVLRUCacheSize c;
  KVKeepLogFileNum := KVKeepLogFileNum c;
  KVWriteBufferSize := size;
  KVMaxWriteBufferNumber := number;
  KVLevel0FileNumCompactionTrigger := KVLevel0FileNumCompactionTrigger c;
  KVLevel0SlowdownWritesTrigger := KVLevel0SlowdownWritesTrigger c;
  KVLevel0StopWritesTrigger := KVLevel0StopWritesTrigger c;
  KVMaxBytesForLevelBase := KVMaxBytesForLevelBase c;
  KVMaxBytesForLevelMultiplier := KVMaxBytesForLevelMultiplier c;
  KVTargetFileSizeBase := KVTargetFileSizeBase c;
  KVTargetFileSizeMultiplier := KVTargetFileSizeMultiplier c;
  KVLevelCompactionDynamicLevelBytes := KVLevelCompactionDynamicLevelBytes c;
  KVRecycleLogFileNum := KVRecycleLogFileNum c;
  KVNumOfLevels := KVNumOfLevels c;
  KVBlockSize := KVBlockSize c;
  SaveBufferSize := SaveBufferSize c;
  MaxSaveBufferSize := MaxSaveBufferSize c
|}.

Definition GetLargeMemRaftLogRocksDBConfig := getDefaultRaftLogRocksDBConfig.
Definition GetDefaultRaftLogRocksDBConfig := GetLargeMemRaftLogRocksDBConfig.
Definition GetTinyMemRaftLogRocksDBConfig :=
  set_write_buffers (4 * 1024 * 1024) 4 getDefaultRaftLogRocksDBConfig.
Definition GetSmallMemRaftLogRocksDBConfig :=
  set_write_buffers (16 * 1024 * 1024) 4 getDefaultRaftLogRocksDBConfig.
Definition GetMediumMemRaftLogRocksDBConfig :=
  set_write_buffers (64 * 1024 * 1024) 4 getDefaultRaftLogRocksDBConfig.

Definition MemorySizeMB (cfg : RaftLogRocksDBConfig) : Z :=
  let ss := KVWriteBufferSize cfg *64 KVMaxWriteBufferNumber cfg in
  let bs := ss *64 Shards cfg in
  bs / (1024 * 1024).

Definition IsEmpty (cfg : RaftLogRocksDBConfig) : bool :=
  bool_decide (cfg = mkRocks 0 0 0 0 0 0 0 0 0 0 0 0 0 0 0 0 0 0 0 0).

(** ** Options ([options.go])

    A logger and a file system are names; a callback is present or not; an
    explicit [pebble.Options] is a value of the abstract type [PO]. *)
Section options.
Context {PO : Type}.

Record options := mkOptions {
  o_config : RaftLogRocksDBConfig;
  o_logger : string;
  o_fs : string;
  o_walDir : string;
  o_dir : string;
  o_callback : bool;
  o_pebbleOptions : option PO
}.

Inductive Option_ :=
| WithConfig (c : RaftLogRocksDBConfig)
| WithLogger (logger : string)
| WithFS (fs : string)
| WithWalDirPath (walDir : string)
| WithDbDirPath (dbDir : string)
| WithLogDBCallback (cb : bool)
| WithPebbleOptions (opts : option PO).

Definition option_apply (o : Option_) (do : options) : options :=
  let '(mkOptions c lg fs wal dir cb po) := do in
  match o with
  | WithConfig c => mkOptions c lg fs wal dir cb po
  | WithLogger lg => mkOptions c lg fs wal dir cb po
  | WithFS fs => mkOptions c lg fs wal dir cb po
  | WithWalDirPath wal => mkOptions c lg fs wal dir cb po
  | WithDbDirPath dir => mkOptions c lg fs wal dir cb po
  | WithLogDBCallback cb => mkOptions c lg fs wal dir cb po
  | WithPebbleOptions po => mkOptions c lg fs wal dir cb po
  end.

Definition getOptions (opts : list Option_) : options :=
  foldl (fun do o => option_apply o do)
    (mkOptions GetDefaultRaftLogRocksDBConfig "pebble.DefaultLogger" "vfs.Default" "" "" false None) opts.
End options.
Arguments options : clear implicits.
Arguments Option_ : clear implicits.

(** ** The database *)

(** The fields of [pebble.Options] that [New] sets. *)
Record LevelOptions := mkLevelOptions { lo_BlockSize : Z; lo_TargetFileSize : Z }.
Record PebbleOptions := mkPebbleOptions {
  po_Levels : list LevelOptions;
  po_MaxManifestFileSize : Z;
  po_MemTableSize : Z;
  po_MemTableStopWritesThreshold : Z;
  po_LBaseMaxBytes : Z;
  po_L0CompactionFileThreshold : Z;
  po_L0StopWritesThreshold : Z;
  po_CacheSize : Z;
  po_Logger : string;
  po_FS : string;
  po_WALDir : string
}.

(** [pebble.WriteOptions]; the code asks for no write to be synced. *)
Record WriteOptions := mkWriteOptions { wo_Sync : bool }.
Definition wo : WriteOptions := mkWriteOptions false.

(** The calls on a [*pebble.DB] and on what it hands out.  An iterator is its
    bounds; [Get] of a missing key gives [ErrNotFound], here [None].  Of the
    metrics the code reads [MemTable.Size] and [Levels\[0\].Sublevels].  The
    callback of the options and the stopper of the listener, which waits for its
    workers, act on the same state.  The slice that [Get] hands out is valid until its
    closer is closed: [slice_after v d] is what a slice that held [v] holds when it is
    used after that, with the database in state [d]. *)
Class PebbleDB (D : Type) := {
  db_Metrics : D -> Z * Z;
  options_callback : bool -> D -> D;
  stopper_Stop : D -> D;
  pebble_Open : string -> PebbleOptions -> M D unit;
  db_Close : M D unit;
  db_Get : bytes -> M D (option bytes);
  closer_Close : M D unit;
  slice_after : bytes -> D -> bytes;
  db_Set : bytes -> bytes -> WriteOptions -> M D unit;
  db_DeleteRange : bytes -> bytes -> WriteOptions -> M D unit;
  batch_Set : bytes -> bytes -> WriteOptions -> M D unit;
  batch_Close : M D unit;
  db_Apply : list (bytes * bytes) -> WriteOptions -> M D unit;
  db_NewIter : bytes -> bytes -> M D unit;
  iter_First : bytes -> bytes -> M D (option bytes);
  iter_Last : bytes -> bytes -> M D (option bytes);
  iter_Close : M D unit
}.

(** The msgpack codec at [*raft.Log]: [Encode] writes to the buffer of the encoder,
    whatever it returns; [Decode] reads the buffer and fills the entry it is
    given. *)
Class MsgPack := {
  codec_Encode : raft_Log -> bytes -> bytes * option error;
  codec_Decode : bytes -> raft_Log -> raft_Log * option error
}.

Definition decodeMsgPack `{MsgPack} (buf : bytes) (out : raft_Log) : outcome raft_Log :=
  match codec_Decode buf out with
  | (out, None) => Ok out
  | (_, Some e) => Err e
  end.

Definition encodeMsgPack `{MsgPack} (inn : raft_Log) : outcome bytes :=
  match codec_Encode inn [] with
  | (buf, None) => Ok buf
  | (_, Some e) => Err e
  end.

Definition bytesToUint64 (b : bytes) : outcome Z := Uint64 b.
Definition uint64ToBytes (u : Z) : bytes := PutUint64 u.

(** [FirstError], on a finished call and the deferred [Close] after it. *)
Definition FirstError (err1 err2 : option error) : option error :=
  match err1 with Some _ => err1 | None => err2 end.

Section deferred.
Context {D : Type}.
(** [defer func() { err = FirstError(err, close()) }()] around [m]; a panic of [m] runs
    the deferred call on its way. *)
Definition outcome_err {A} (o : outcome A) : option error := match o with Err e => Some e | _ => None end.

Definition defer_close {A} (close : M D unit) (m : M D A) : M D A := fun d =>
  let (r, d) := m d in
  let (c, d) := close d in
  (match r, c with
   | _, Panic p => Panic p
   | Panic p, _ => Panic p
   | _, _ => match FirstError (outcome_err r) (outcome_err c) with Some e => Err e | None => r end
   end, d).
End deferred.

(** ** The store ([store.go]) *)

Definition prefixLog : bytes := [Byte.x00].
Definition prefixConf : bytes := [Byte.x01].
Definition ErrKeyNotFound : error := errors_New "not found".
Definition raft_ErrLogNotFound : error := errors_New "log not found".
Definition maxLogFileSize : Z := 1024 * 1024 * 128.

Definition log_key (index : Z) : bytes := prefixLog ++ uint64ToBytes index.
Definition conf_key (key : bytes) : bytes := prefixConf ++ key.

(** The loop over the levels in [New]. *)
Fixpoint level_options (n : nat) (blockSize multiplier sz : Z) : list LevelOptions :=
  match n with
  | O => []
  | S n => mkLevelOptions (i64 blockSize) (i64 sz) ::
           level_options n blockSize multiplier (sz *64 multiplier)
  end.

Definition pebble_options (o : options PebbleOptions) : PebbleOptions :=
  let config := o_config o in
  {| po_Levels := level_options (Z.to_nat (i64 (KVNumOfLevels config))) (KVBlockSize config)
                    (KVTargetFileSizeMultiplier config) (KVTargetFileSizeBase config);
     po_MaxManifestFileSize := maxLogFileSize;
     po_MemTableSize := KVWriteBufferSize config;
     po_MemTableStopWritesThreshold := i64 (KVMaxWriteBufferNumber config);
     po_LBaseMaxBytes := i64 (KVMaxBytesForLevelBase config);
     po_L0CompactionFileThreshold := i64 (KVLevel0FileNumCompactionTrigger config);
     po_L0StopWritesThreshold := i64 (KVLevel0StopWritesTrigger config);
     po_CacheSize := i64 (KVLRUCacheSize config);
     po_Logger := o_logger o;
     po_FS := o_fs o;
     po_WALDir := o_walDir o |}.

(** [PebbleKVStore]: whether [dbSet] is closed and the listener installed, and
    the options. *)
Record PebbleKVStore := mkKV {
  kv_dbSet : bool;
  kv_event : bool;
  kv_options : options PebbleOptions
}.

Section store.
Context `{PebbleDB D} `{MsgPack}.

(** ** The listener for the events of the database *)

(** [notify], when the worker that it starts runs: nothing before [dbSet] is closed
    or without a callback. *)
Definition notify (kv : PebbleKVStore) : M D unit :=
  if kv_dbSet kv && o_callback (kv_options kv) then
    let config := o_config (kv_options kv) in
    let memSizeThreshold := (KVWriteBufferSize config *64 KVMaxWriteBufferNumber config *64 19) / 20 in
    let l0FileNumThreshold := KVLevel0StopWritesTrigger config -64 1 in
    modify (fun d =>
      let '(memTableSize, sublevels) := db_Metrics d in
      let busy := (memSizeThreshold <=? memTableSize) || (l0FileNumThreshold <=? u64 sublevels) in
      options_callback busy d)
  else mret tt.

Definition onCompactionEnd (kv : PebbleKVStore) : M D unit := notify kv.
Definition onFlushEnd (kv : PebbleKVStore) : M D unit := notify kv.
Definition onWALCreated (kv : PebbleKVStore) : M D unit := notify kv.

(** [close] of the listener. *)
Definition event_close : M D unit := modify stopper_Stop.

(** ** Opening and closing *)

(** [opened] is whether [s.db] is set. *)
Definition setEventListener (opened : bool) (kv : PebbleKVStore) : M D PebbleKVStore :=
  if negb opened || kv_event kv then panic "unexpected kv state"
  else
    let kv := mkKV true true (kv_options kv) in
    onWALCreated kv;;
    mret kv.

Definition raftpebble_New (opts : list (Option_ PebbleOptions)) : M D PebbleKVStore :=
  let o := getOptions opts in
  let po := match o_pebbleOptions o with Some po => po | None => pebble_options o end in
  pebble_Open (o_dir o) po;;
  setEventListener true (mkKV false false o).

(** A store that [New] returned has its listener. *)
Definition kv_Close (kv : PebbleKVStore) : M D unit :=
  (if kv_event kv then event_close else panic "invalid memory address or nil pointer dereference");;
  db_Close.

(** ** The stores of raft *)

Definition kv_FirstIndex : M D Z :=
  db_NewIter prefixLog prefixConf;;
  defer_close iter_Close (
    r ← iter_First prefixLog prefixConf;
    match r with
    | Some key => lift (bytesToUint64 (drop (length prefixLog) key))
    | None => mret 0
    end).

Definition kv_LastIndex : M D Z :=
  db_NewIter prefixLog prefixConf;;
  defer_close iter_Close (
    r ← iter_Last prefixLog prefixConf;
    match r with
    | Some key => lift (bytesToUint64 (drop (length prefixLog) key))
    | None => mret 0
    end).

Definition kv_GetLog (index : Z) (lg : raft_Log) : M D raft_Log :=
  r ← db_Get (log_key index);
  match r with
  | None => throw raft_ErrLogNotFound
  | Some val => defer_close closer_Close (lift (decodeMsgPack val lg))
  end.

Definition kv_StoreLog (lg : raft_Log) : M D unit :=
  val ← lift (encodeMsgPack lg);
  db_Set (log_key (rl_Index lg)) val wo.

(** The loop of [StoreLogs]: the contents of the batch. *)
Fixpoint store_batch (logs : list raft_Log) : M D (list (bytes * bytes)) :=
  match logs with
  | [] => mret []
  | lg :: logs =>
      val ← lift (encodeMsgPack lg);
      batch_Set (log_key (rl_Index lg)) val wo;;
      rest ← store_batch logs;
      mret ((log_key (rl_Index lg), val) :: rest)
  end.

Definition kv_StoreLogs (logs : list raft_Log) : M D unit :=
  defer_close batch_Close (
    wb ← store_batch logs;
    db_Apply wb wo).

Definition kv_DeleteRange (min max : Z) : M D unit :=
  db_DeleteRange (log_key min) (log_key (max +64 1)) wo.

Definition kv_Set (key val : bytes) : M D unit := db_Set (conf_key key) val wo.

(** [GetValue] with the operation [op] on the value, [None] when there is none. *)
Definition kv_GetValue {A} (key : bytes) (op : option bytes -> outcome A) : M D A :=
  r ← db_Get key;
  match r with
  | None => lift (op None)
  | Some val => defer_close closer_Close (lift (op (Some val)))
  end.

(** [Get] keeps the slice that the operation was given, so that its caller uses it
    after the closer was closed. *)
Definition kv_Get (key : bytes) : M D bytes :=
  v ← kv_GetValue (conf_key key) (fun val =>
    match val with None => Err ErrKeyNotFound | Some v => Ok v end);
  d ← get;
  mret (slice_after v d).

Definition kv_SetUint64 (key : bytes) (val : Z) : M D unit := kv_Set key (uint64ToBytes val).

Definition kv_GetUint64 (key : bytes) : M D Z :=
  kv_GetValue (conf_key key) (fun val =>
    match val with None => Err ErrKeyNotFound | Some v => bytesToUint64 v end).

#[export] Instance kv_LogStore : LogStore D := {|
  FirstIndex := kv_FirstIndex;
  LastIndex := kv_LastIndex;
  GetLog := kv_GetLog;
  StoreLog := kv_StoreLog;
  StoreLogs := kv_StoreLogs;
  DeleteRange := kv_DeleteRange
|}.

#[export] Instance kv_StableStore : StableStore D := {|
  Set_ := kv_Set;
  Get := kv_Get;
  SetUint64 := kv_SetUint64;
  GetUint64 := kv_GetUint64
|}.
End store.
