(* ===== verification/RaftPebbleProps.v ===== *)
(** The Pebble-backed store implements raft's two stores.

    Its abstract state is a map from indexes to entries and a map of
    configuration values; [kv_rep] relates it to the keys of the database, and
    every operation refines its counterpart on the maps. *)

From coqutil Require Import Byte.
From S2P Require Import Prelude Endian Raft RaftPebble.

(** ** What Pebble and msgpack promise *)

(** [db_view] is the contents of the database and [db_ok] says that no call fails
    from now on.  A call never panics; it has its effect when it succeeds, and
    reading or closing has none. *)
Class PebbleLaws (D : Type) `{PebbleDB D} := {
  db_view : D -> gmap bytes bytes;
  db_ok : D -> Prop;
  law_Get k d o d' : db_Get k d = (o, d') ->
    db_view d' = db_view d /\ (forall p, o <> Panic p) /\
    (forall r, o = Ok r -> r = db_view d !! k) /\ (db_ok d -> is_ok o = true /\ db_ok d');
  law_slice v d : length (slice_after v d) = length v;
  law_Set k v o' d o d' : db_Set k v o' d = (o, d') ->
    (forall p, o <> Panic p) /\ (is_ok o = true -> db_view d' = <[k := v]> (db_view d)) /\
    (db_ok d -> is_ok o = true /\ db_ok d');
  law_DeleteRange lo hi o' d o d' : db_DeleteRange lo hi o' d = (o, d') ->
    (forall p, o <> Panic p) /\
    (is_ok o = true -> forall k, db_view d' !! k =
       if negb (bytes_ltb k lo) && bytes_ltb k hi then None else db_view d !! k) /\
    (db_ok d -> is_ok o = true /\ db_ok d');
  law_Apply wb o' d o d' : db_Apply wb o' d = (o, d') ->
    (forall p, o <> Panic p) /\
    (is_ok o = true -> db_view d' = foldl (fun m kv => <[kv.1 := kv.2]> m) (db_view d) wb) /\
    (db_ok d -> is_ok o = true /\ db_ok d');
  law_aux m d o d' :
    m ∈ [closer_Close; batch_Close; iter_Close] \/ (exists k v o', m = batch_Set k v o') \/
    (exists lo hi, m = db_NewIter lo hi) ->
    m d = (o, d') -> db_view d' = db_view d /\ (forall p, o <> Panic p) /\ (db_ok d -> is_ok o = true /\ db_ok d');
  law_First lo hi d o d' : iter_First lo hi d = (o, d') ->
    db_view d' = db_view d /\ (forall p, o <> Panic p) /\
    (forall r, o = Ok r -> match r with
       | Some k => is_Some (db_view d !! k) /\ bytes_ltb k lo = false /\ bytes_ltb k hi = true /\
           forall k', is_Some (db_view d !! k') -> bytes_ltb k' lo = false -> bytes_ltb k' k = false
       | None => forall k', is_Some (db_view d !! k') -> bytes_ltb k' lo = false -> bytes_ltb k' hi = false
       end) /\ (db_ok d -> is_ok o = true /\ db_ok d');
  law_Last lo hi d o d' : iter_Last lo hi d = (o, d') ->
    db_view d' = db_view d /\ (forall p, o <> Panic p) /\
    (forall r, o = Ok r -> match r with
       | Some k => is_Some (db_view d !! k) /\ bytes_ltb k lo = false /\ bytes_ltb k hi = true /\
           forall k', is_Some (db_view d !! k') -> bytes_ltb k' hi = true -> bytes_ltb k k' = false
       | None => forall k', is_Some (db_view d !! k') -> bytes_ltb k' lo = false -> bytes_ltb k' hi = false
       end) /\ (db_ok d -> is_ok o = true /\ db_ok d')
}.

Class MsgPackLaws `{MsgPack} := {
  law_Encode lg buf : exists b, codec_Encode lg buf = (buf ++ b, None);
  law_Decode lg lg0 b : codec_Encode lg [] = (b, None) -> codec_Decode b lg0 = (lg, None)
}.

Lemma encode_total `{MsgPackLaws} lg : exists b, encodeMsgPack lg = Ok b.
Proof. destruct (law_Encode lg []) as [b Hb]. exists b. unfold encodeMsgPack. by rewrite Hb. Qed.

Lemma decode_encoded `{MsgPackLaws} lg lg0 b : encodeMsgPack lg = Ok b -> decodeMsgPack b lg0 = Ok lg.
Proof.
  unfold encodeMsgPack, decodeMsgPack. destruct (codec_Encode lg []) as [b' [e|]] eqn:E; [done|]. intros [= ->].
  by rewrite (law_Decode lg lg0 b E).
Qed.

(** ** Keys *)

Lemma log_key_inj i j : is_u64 i -> is_u64 j -> log_key i = log_key j -> i = j.
Proof.
  unfold log_key. intros Hi Hj E. apply app_inv_head in E. apply (f_equal be_val) in E.
  unfold uint64ToBytes in E. by rewrite !be_val_PutUint64 in E.
Qed.

Lemma log_conf_key_ne i k : log_key i <> conf_key k.
Proof. done. Qed.

Lemma log_key_ltb i j : is_u64 i -> is_u64 j -> bytes_ltb (log_key i) (log_key j) = (i <? j).
Proof.
  intros Hi Hj. change (bytes_ltb (log_key i) (log_key j))
    with ((byte_val Byte.x00 <? byte_val Byte.x00) ||
          ((byte_val Byte.x00 =? byte_val Byte.x00) && bytes_ltb (PutUint64 i) (PutUint64 j))).
  cbn [orb]. by apply bytes_ltb_PutUint64.
Qed.

(** The range [\[prefixLog, prefixConf)] holds exactly the keys that start with a
    zero byte. *)
Lemma log_range k :
  bytes_ltb k prefixLog = false /\ bytes_ltb k prefixConf = true <-> exists t, k = Byte.x00 :: t.
Proof.
  split.
  - intros [H1 H2]. destruct k as [|x t]; [done|]. exists t. f_equal.
    apply byte.unsigned_inj. change (byte_val Byte.x00) with 0.
    pose proof (byte.unsigned_range x). cbn [bytes_ltb prefixConf] in H2.
    change (byte_val Byte.x01) with 1 in H2.
    destruct (Z.ltb_spec (byte_val x) 1) as [Hlt|Hge]; [lia|].
    destruct t; cbn in H2; by rewrite andb_false_r in H2.
  - intros [t ->]. split; [|done]. unfold prefixLog. cbn. by destruct t.
Qed.

Section refinement.
Context `{Hdb : PebbleDB D} {Hlaws : PebbleLaws D} `{Hmp : MsgPack} {Hmpl : MsgPackLaws}.
Implicit Types (m : gmap Z raft_Log) (conf : gmap bytes bytes) (d : D).

(** A database with contents [v] holds the entries [m] and the values [conf]. *)
Record kv_rep (v : gmap bytes bytes) m conf : Prop := {
  kr_log idx : is_u64 idx ->
    match m !! idx with
    | Some lg => exists b, encodeMsgPack lg = Ok b /\ v !! log_key idx = Some b
    | None => v !! log_key idx = None
    end;
  kr_dom idx : is_Some (m !! idx) -> is_u64 idx;
  kr_keys t : is_Some (v !! (Byte.x00 :: t)) -> exists idx, is_u64 idx /\ Byte.x00 :: t = log_key idx;
  kr_conf k : v !! conf_key k = conf !! k
}.

Lemma kv_rep_view v v' m conf : v' = v -> kv_rep v m conf -> kv_rep v' m conf.
Proof. by intros ->. Qed.

(** A call that reads: the specified result or an error, and no change. *)
Definition reads {A} d (o : outcome A) d' (spec : outcome A) m conf : Prop :=
  kv_rep (db_view d') m conf /\ (o = spec \/ exists e, o = Err e) /\ (db_ok d -> o = spec /\ db_ok d').

(** A call that writes: the specified change or an error. *)
Definition writes d (o : outcome unit) d' m' conf' : Prop :=
  ((o = Ok tt /\ kv_rep (db_view d') m' conf') \/ exists e, o = Err e) /\ (db_ok d -> o = Ok tt /\ db_ok d').

Lemma outcome_unit_cases (o : outcome unit) :
  (forall p, o <> Panic p) -> o = Ok tt \/ exists e, o = Err e.
Proof. destruct o as [[]|e|p]; [by left|eauto|]. intros H. by destruct (H p). Qed.

Lemma writes_intro d (o : outcome unit) d' m' conf' :
  (forall p, o <> Panic p) -> (is_ok o = true -> kv_rep (db_view d') m' conf') ->
  (db_ok d -> is_ok o = true /\ db_ok d') -> writes d o d' m' conf'.
Proof.
  intros Hp Hrep Hok. destruct o as [[]|e|p]; [| |by destruct (Hp p)].
  - split; [left; auto|]. intros H%Hok. split; [done|apply H].
  - split; [right; eauto|]. intros H%Hok. by destruct H.
Qed.

(** A deferred close passes the result on, or turns success into its error. *)
Lemma defer_close_spec {A} close (m : M D A) d o1 d1 o d' :
  close ∈ [closer_Close; batch_Close; iter_Close] ->
  m d = (o1, d1) -> (forall p, o1 <> Panic p) -> defer_close close m d = (o, d') ->
  db_view d' = db_view d1 /\ (o = o1 \/ exists e, o = Err e) /\ (db_ok d1 -> o = o1 /\ db_ok d').
Proof.
  intros Hc Hm Hp H. unfold defer_close in H. rewrite Hm in H.
  destruct (close d1) as [oc d2] eqn:Ec.
  pose proof (law_aux close d1 oc d2 (or_introl Hc) Ec) as (Hv & Hcp & Hok).
  destruct o1 as [a|e|p]; [| |by destruct (Hp p)];
    destruct oc as [[]|e'|p]; try (by destruct (Hcp p)); cbn in H; simplify_eq; split_and!; eauto.
  - intros H%Hok. by split; [|apply H].
  - intros H%Hok. by destruct H.
  - intros H%Hok. by split; [|apply H].
  - intros H%Hok. by destruct H.
Qed.

(** ** Reading *)

Definition spec_GetLog idx m : outcome raft_Log :=
  match m !! idx with Some lg => Ok lg | None => Err raft_ErrLogNotFound end.

Lemma kv_GetLog_spec idx lg0 d m conf o d' :
  kv_rep (db_view d) m conf -> is_u64 idx -> kv_GetLog idx lg0 d = (o, d') -> reads d o d' (spec_GetLog idx m) m conf.
Proof.
  intros Hr Hu H. unfold kv_GetLog, mbind, M_bind in H.
  destruct (db_Get (log_key idx) d) as [og d1] eqn:Eg.
  pose proof (law_Get _ _ _ _ Eg) as (Hv & Hp & Hval & Hok).
  pose proof (kr_log _ _ _ Hr idx Hu) as Hlog. unfold spec_GetLog.
  destruct og as [r|e|p]; [| |by destruct (Hp p)].
  2:{ simplify_eq. split; [by eapply kv_rep_view|]. split; [eauto|]. intros H. by destruct (Hok H). }
  specialize (Hval r eq_refl). subst r.
  destruct (m !! idx) as [lg|].
  - destruct Hlog as (b & Hb & Hlk). rewrite Hlk in H.
    eapply (defer_close_spec closer_Close _ d1 (Ok lg) d1) in H as (Hv' & Hor & Hok').
    + split; [eapply kv_rep_view; [|done]; congruence|]. split; [done|].
      intros H. destruct (Hok H) as [_ H1]. by apply Hok'.
    + set_solver.
    + unfold lift. by rewrite (decode_encoded _ _ _ Hb).
    + done.
  - rewrite Hlog in H. unfold throw in H. simplify_eq. split; [by eapply kv_rep_view|].
    split; [by left|]. intros H. destruct (Hok H) as [_ H1]. done.
Qed.

Lemma kv_GetValue_spec {A} key op d m conf (o : outcome A) d' :
  kv_rep (db_view d) m conf ->
  kv_GetValue (conf_key key) op d = (o, d') -> reads d o d' (op (conf !! key)) m conf.
Proof.
  intros Hr H. unfold kv_GetValue, mbind, M_bind in H.
  destruct (db_Get (conf_key key) d) as [og d1] eqn:Eg.
  pose proof (law_Get _ _ _ _ Eg) as (Hv & Hp & Hval & Hok). rewrite (kr_conf _ _ _ Hr key) in Hval.
  destruct og as [r|e|p]; [| |by destruct (Hp p)].
  2:{ simplify_eq. split; [by eapply kv_rep_view|]. split; [eauto|]. intros H. by destruct (Hok H). }
  assert (Hsame : (o, d') = (op r, d1) -> reads d o d' (op r) m conf).
  { intros E. simplify_eq. split; [by eapply kv_rep_view|]. split; [by left|]. intros H1.
    by destruct (Hok H1). }
  rewrite <- (Hval r eq_refl). destruct r as [v|]; [|by apply Hsame].
  destruct (op (Some v)) as [a|e|p] eqn:Eop.
  3:{ unfold defer_close, lift in H. destruct (closer_Close d1) as [oc d2] eqn:Ec.
      pose proof (law_aux closer_Close d1 oc d2 ltac:(left; set_solver) Ec) as (Hv2 & Hcp & Hok2).
      assert (o = Panic p /\ d' = d2) as [-> ->] by (destruct oc as [[]|e|q]; [| |by destruct (Hcp q)]; by simplify_eq).
      split; [eapply kv_rep_view; [|exact Hr]; congruence|]. split; [by left|]. intros H1. destruct (Hok H1) as [_ H2].
      by destruct (Hok2 H2). }
  all: eapply (defer_close_spec closer_Close _ d1 _ d1) in H as (Hv' & Hor & Hok'); [|set_solver|done|done];
    split; [eapply kv_rep_view; [|done]; congruence|]; split; [done|];
    intros H; destruct (Hok H) as [_ H1]; by apply Hok'.
Qed.

(** ** Writing *)

Lemma kv_rep_Set v m conf lg b :
  kv_rep v m conf -> is_u64 (rl_Index lg) -> encodeMsgPack lg = Ok b ->
  kv_rep (<[log_key (rl_Index lg) := b]> v) (<[rl_Index lg := lg]> m) conf.
Proof.
  intros [H1 H2 H3 H4] Hu Hb. split.
  - intros idx Hi. destruct (decide (rl_Index lg = idx)) as [<-|Hne].
    + rewrite !lookup_insert_eq. eauto.
    + rewrite !lookup_insert_ne by (try done; intros E; by apply Hne, log_key_inj). by apply H1.
  - intros idx. rewrite lookup_insert_is_Some'. intros [<-|H]; auto.
  - intros t. rewrite lookup_insert_is_Some'. intros [E|H]; [eauto|auto].
  - intros k. rewrite lookup_insert_ne by apply log_conf_key_ne. apply H4.
Qed.

Lemma kv_StoreLog_spec lg d m conf o d' :
  kv_rep (db_view d) m conf -> is_u64 (rl_Index lg) -> kv_StoreLog lg d = (o, d') ->
  writes d o d' (<[rl_Index lg := lg]> m) conf.
Proof.
  intros Hr Hu H. destruct (encode_total lg) as [b Hb]. unfold kv_StoreLog in H.
  erewrite bind_Ok in H by (unfold lift; by rewrite Hb).
  apply law_Set in H as (Hp & Hv & Hok). apply writes_intro; auto.
  intros Ho. rewrite Hv by done. by apply kv_rep_Set.
Qed.

(** The contents of the batch [StoreLogs] builds. *)
Definition batch_of (logs : list raft_Log) (wb : list (bytes * bytes)) : Prop :=
  Forall2 (fun lg kv => kv.1 = log_key (rl_Index lg) /\ encodeMsgPack lg = Ok kv.2) logs wb.

Lemma store_batch_spec logs d o d' :
  store_batch logs d = (o, d') ->
  db_view d' = db_view d /\ (forall p, o <> Panic p) /\ (forall wb, o = Ok wb -> batch_of logs wb) /\
  (db_ok d -> is_ok o = true /\ db_ok d').
Proof.
  revert d o d'. induction logs as [|lg logs IH]; intros d o d' H; cbn [store_batch] in H.
  { unfold mret, M_ret in H. simplify_eq. split_and!; try done. intros wb E. simplify_eq. constructor. }
  destruct (encode_total lg) as [b Hb]. erewrite bind_Ok in H by (unfold lift; by rewrite Hb).
  unfold mbind at 1, M_bind at 1 in H.
  destruct (batch_Set (log_key (rl_Index lg)) b wo d) as [o1 d1] eqn:E1.
  pose proof (law_aux (batch_Set (log_key (rl_Index lg)) b wo) d o1 d1 ltac:(eauto 6) E1) as (Hv1 & Hp1 & Hok1).
  destruct o1 as [[]|e|p]; [| |by destruct (Hp1 p)].
  2:{ simplify_eq. split_and!; try done. }
  unfold mbind, M_bind in H. destruct (store_batch logs d1) as [o2 d2] eqn:E2.
  apply IH in E2 as (Hv2 & Hp2 & Hb2 & Hok2).
  destruct o2 as [wb|e|p]; [| |by destruct (Hp2 p)]; unfold mret, M_ret in H; simplify_eq.
  - split_and!; [congruence|done| |].
    + intros wb' E. simplify_eq. constructor; [done|]. by apply Hb2.
    + intros H. apply Hok2. by apply Hok1.
  - split_and!; [congruence|done|done|]. intros H. apply Hok2. by apply Hok1.
Qed.

Definition store_all logs m : gmap Z raft_Log := foldl (fun m lg => <[rl_Index lg := lg]> m) m logs.

Lemma kv_rep_batch logs wb v m conf :
  batch_of logs wb -> Forall (fun lg => is_u64 (rl_Index lg)) logs -> kv_rep v m conf ->
  kv_rep (foldl (fun v kv => <[kv.1 := kv.2]> v) v wb) (store_all logs m) conf.
Proof.
  intros Hb. revert v m. induction Hb as [|lg [k b] logs wb [Hk Hb] Hbs IH]; intros v m Hu Hr; [done|].
  apply list.Forall_cons in Hu as [Hu Hus]. cbn [fst snd] in *. subst k. cbn. apply IH; [done|].
  by eapply kv_rep_Set.
Qed.

Definition write_batch (v : gmap bytes bytes) (wb : list (bytes * bytes)) : gmap bytes bytes :=
  foldl (fun v kv => <[kv.1 := kv.2]> v) v wb.

Lemma kv_StoreLogs_run logs d o d' :
  kv_StoreLogs logs d = (o, d') ->
  (forall p, o <> Panic p) /\
  (is_ok o = true -> exists wb, batch_of logs wb /\ db_view d' = write_batch (db_view d) wb) /\
  (db_ok d -> is_ok o = true /\ db_ok d').
Proof.
  intros H. unfold kv_StoreLogs in H.
  destruct ((wb ← store_batch logs; db_Apply wb wo) d) as [o1 d1] eqn:E.
  assert (Hin : (forall p, o1 <> Panic p) /\
    (is_ok o1 = true -> exists wb, batch_of logs wb /\ db_view d1 = write_batch (db_view d) wb) /\
    (db_ok d -> is_ok o1 = true /\ db_ok d1)).
  { unfold mbind, M_bind in E. destruct (store_batch logs d) as [ob d0] eqn:Eb.
    apply store_batch_spec in Eb as (Hv & Hp & Hwb & Hok).
    destruct ob as [wb|e|p]; [| |by destruct (Hp p)]; [|by simplify_eq; split_and!].
    apply law_Apply in E as (Hp1 & Hv1 & Hok1). split_and!; [done| |].
    - intros Ho. exists wb. split; [by apply Hwb|]. by rewrite Hv1, Hv by done.
    - intros H0. apply Hok1. by apply Hok. }
  destruct Hin as (Hp & Hrep & Hok).
  eapply defer_close_spec in H as (Hv & Hor & Hok'); [|set_solver|exact E|done]. split_and!.
  - intros p ->. destruct Hor as [<-|[e E']]; [by destruct (Hp p)|done].
  - intros Ho. rewrite Hv. destruct Hor as [->|[e ->]]; [auto|done].
  - intros H0. destruct (Hok H0) as [H1 H2]. destruct (Hok' H2) as [-> H3]. done.
Qed.

Lemma kv_StoreLogs_spec logs d m conf o d' :
  kv_rep (db_view d) m conf -> Forall (fun lg => is_u64 (rl_Index lg)) logs ->
  kv_StoreLogs logs d = (o, d') -> writes d o d' (store_all logs m) conf.
Proof.
  intros Hr Hu H. apply kv_StoreLogs_run in H as (Hp & Hwb & Hok). apply writes_intro; [done| |done].
  intros Ho. destruct (Hwb Ho) as (wb & Hb & ->). by apply kv_rep_batch.
Qed.

Lemma kv_Set_spec key val d m conf o d' :
  kv_rep (db_view d) m conf -> kv_Set key val d = (o, d') -> writes d o d' m (<[key := val]> conf).
Proof.
  intros [H1 H2 H3 H4] H. apply law_Set in H as (Hp & Hv & Hok). apply writes_intro; [done| |done].
  intros Ho. rewrite Hv by done. split; [|done| |].
  - intros idx Hi. specialize (H1 idx Hi). destruct (m !! idx) as [lg|].
    + destruct H1 as (b & Hb & Hl). exists b. split; [done|].
      rewrite lookup_insert_ne; [done|]. intros E. symmetry in E. by apply log_conf_key_ne in E.
    + rewrite lookup_insert_ne; [done|]. intros E. symmetry in E. by apply log_conf_key_ne in E.
  - intros t. rewrite lookup_insert_ne by done. apply H3.
  - intros k. destruct (decide (key = k)) as [<-|Hne].
    + by rewrite !lookup_insert_eq.
    + rewrite !lookup_insert_ne; [apply H4|done|]. unfold conf_key. intros E. by simplify_eq.
Qed.

(** A slice of the value's length, and the value as long as the slice lasts. *)
Lemma kv_Get_spec key d m conf o d' :
  kv_rep (db_view d) m conf -> kv_Get key d = (o, d') ->
  reads d o d' (match conf !! key with Some v => Ok (slice_after v d') | None => Err ErrKeyNotFound end) m conf.
Proof.
  intros Hr H. unfold kv_Get, mbind, M_bind, get, mret, M_ret in H.
  destruct (kv_GetValue _ _ d) as [o1 d1] eqn:E. apply (kv_GetValue_spec key _ d m conf) in E as (H1 & H2 & H3); [|done].
  destruct o1 as [v|e|p]; simplify_eq.
  - split; [done|]. destruct (conf !! key) as [v'|]; [|by destruct H2 as [|[]]].
    assert (v = v') as -> by (by destruct H2 as [[= ->]|[]]). split; [by left|]. intros H. by destruct (H3 H).
  - split; [done|]. split; [by right; eexists|]. intros H. destruct (H3 H) as [H4 H5]. by destruct (conf !! key).
  - destruct (conf !! key); by destruct H2 as [|[]].
Qed.

(** The entries outside a range of indexes; a range up to the largest index is empty,
    because its exclusive end wraps around. *)
Definition delete_indexes (min max : Z) m : gmap Z raft_Log :=
  if max =? 2 ^ 64 - 1 then m else filter (fun kv => kv.1 < min \/ max < kv.1) m.

Lemma kv_rep_delete v v' m conf min max :
  kv_rep v m conf -> is_u64 min -> 0 <= max -> max + 1 < 2 ^ 64 ->
  (forall k, v' !! k = if negb (bytes_ltb k (log_key min)) && bytes_ltb k (log_key (max + 1)) then None else v !! k) ->
  kv_rep v' (delete_indexes min max m) conf.
Proof.
  intros [H1 H2 H3 H4] Hmin H0 Hmax Hv.
  assert (Hrange : forall idx, is_u64 idx ->
     negb (bytes_ltb (log_key idx) (log_key min)) && bytes_ltb (log_key idx) (log_key (max + 1)) =
     negb (idx <? min) && (idx <=? max)).
  { intros idx Hi. rewrite !log_key_ltb by in_range. f_equal.
    destruct (Z.ltb_spec idx (max + 1)), (Z.leb_spec idx max); lia || done. }
  unfold delete_indexes. destruct (Z.eqb_spec max (2 ^ 64 - 1)); [lia|]. split.
  - intros idx Hi. rewrite Hv, (Hrange idx Hi). specialize (H1 idx Hi).
    rewrite map_lookup_filter. destruct (m !! idx) as [lg|]; cbn.
    + destruct H1 as (b & Hb & Hl).
      destruct (Z.ltb_spec idx min), (Z.leb_spec idx max); cbn; rewrite ?option_guard_True by (cbn; lia); eauto.
      rewrite option_guard_False by (cbn; lia). done.
    + by destruct (negb (idx <? min) && (idx <=? max)).
  - intros idx [lg Hl]. apply map_lookup_filter_Some in Hl as [Hl _]. eauto.
  - intros t Ht. rewrite Hv in Ht. destruct (_ && _); [by destruct Ht|auto].
  - intros k. rewrite Hv. replace (bytes_ltb (conf_key k) (log_key (max + 1))) with false by reflexivity.
    rewrite andb_false_r. apply H4.
Qed.

Lemma kv_DeleteRange_max min d m conf o d' :
  kv_rep (db_view d) m conf -> is_u64 min -> kv_DeleteRange min (2 ^ 64 - 1) d = (o, d') -> writes d o d' m conf.
Proof.
  intros Hr Hmin H. unfold kv_DeleteRange in H.
  apply law_DeleteRange in H as (Hp & Hv & Hok). apply writes_intro; [done| |done].
  intros Ho. assert (E : db_view d' = db_view d); [|by rewrite E].
  apply map_eq. intros k. rewrite (Hv Ho).
  destruct (negb (bytes_ltb k (log_key min)) && bytes_ltb k (log_key (u64 (2 ^ 64 - 1 + 1)))) eqn:Hk; [|done].
  apply andb_true_iff in Hk as [Hk1 Hk2]. apply negb_true_iff in Hk1. symmetry. apply eq_None_not_Some. intros Hin.
  assert (Hlog : exists t, k = Byte.x00 :: t).
  { destruct k as [|x t]; [done|]. exists t. f_equal. apply byte.unsigned_inj.
    change (byte_val Byte.x00) with 0. pose proof (byte.unsigned_range x).
    cbn [bytes_ltb log_key prefixLog app] in Hk2. change (byte_val Byte.x00) with 0 in Hk2.
    destruct (Z.ltb_spec (byte_val x) 0), (Z.eqb_spec (byte_val x) 0); try lia; done. }
  destruct Hlog as [t ->]. destruct (kr_keys _ _ _ Hr t Hin) as (idx & Hu & E). rewrite E in Hk1, Hk2.
  change (u64 (2 ^ 64 - 1 + 1)) with 0 in Hk2. rewrite log_key_ltb in Hk2 by in_range.
  apply Z.ltb_lt in Hk2. unfold is_u64 in Hu. lia.
Qed.
Lemma kv_DeleteRange_spec min max d m conf o d' :
  kv_rep (db_view d) m conf -> is_u64 min -> is_u64 max ->
  kv_DeleteRange min max d = (o, d') -> writes d o d' (delete_indexes min max m) conf.
Proof.
  intros Hr Hmin Hmax H. destruct (decide (max = 2 ^ 64 - 1)) as [->|Hne].
  { unfold delete_indexes. rewrite Z.eqb_refl. exact (kv_DeleteRange_max _ _ _ _ _ _ Hr Hmin H). }
  unfold is_u64 in Hmax. unfold kv_DeleteRange in H. u64_norm in H.
  apply law_DeleteRange in H as (Hp & Hv & Hok). apply writes_intro; [done| |done].
  intros Ho. by eapply kv_rep_delete; [|done|lia|lia|apply Hv].
Qed.

(** ** First and last index *)

(** The least and the greatest index, 0 without entries. *)
Definition spec_first m : Z :=
  match (map_to_list m).*1 with [] => 0 | k :: ks => foldr Z.min k ks end.
Definition spec_last m : Z :=
  match (map_to_list m).*1 with [] => 0 | k :: ks => foldr Z.max k ks end.

Lemma elem_of_keys m k : k ∈ (map_to_list m).*1 <-> is_Some (m !! k).
Proof.
  rewrite list_elem_of_fmap. split.
  - intros ([k' v] & -> & H). apply elem_of_map_to_list in H. by exists v.
  - intros [v H]. exists (k, v). split; [done|]. by apply elem_of_map_to_list.
Qed.

Lemma foldr_min_spec k ks : foldr Z.min k ks ∈ k :: ks /\ forall x, x ∈ k :: ks -> foldr Z.min k ks <= x.
Proof.
  induction ks as [|x ks [IH1 IH2]]; cbn.
  - split; [set_solver|]. intros x Hx. apply list_elem_of_singleton in Hx as ->. lia.
  - split.
    + destruct (Z.min_spec x (foldr Z.min k ks)) as [[_ ->]|[_ ->]]; set_solver.
    + intros y Hy. assert (y = x \/ y ∈ k :: ks) as [->|H] by set_solver; [lia|]. specialize (IH2 y H). lia.
Qed.

Lemma foldr_max_spec k ks : foldr Z.max k ks ∈ k :: ks /\ forall x, x ∈ k :: ks -> x <= foldr Z.max k ks.
Proof.
  induction ks as [|x ks [IH1 IH2]]; cbn.
  - split; [set_solver|]. intros x Hx. apply list_elem_of_singleton in Hx as ->. lia.
  - split.
    + destruct (Z.max_spec x (foldr Z.max k ks)) as [[_ ->]|[_ ->]]; set_solver.
    + intros y Hy. assert (y = x \/ y ∈ k :: ks) as [->|H] by set_solver; [lia|]. specialize (IH2 y H). lia.
Qed.

Lemma spec_first_min m i :
  is_Some (m !! i) -> (forall j, is_Some (m !! j) -> i <= j) -> spec_first m = i.
Proof.
  intros Hi Hmin. unfold spec_first. apply elem_of_keys in Hi as Hk.
  destruct ((map_to_list m).*1) as [|k ks] eqn:E; [by apply not_elem_of_nil in Hk|].
  destruct (foldr_min_spec k ks) as [H1 H2]. specialize (H2 i Hk). rewrite <- E in H1.
  apply elem_of_keys, Hmin in H1. lia.
Qed.

Lemma spec_last_max m i :
  is_Some (m !! i) -> (forall j, is_Some (m !! j) -> j <= i) -> spec_last m = i.
Proof.
  intros Hi Hmax. unfold spec_last. apply elem_of_keys in Hi as Hk.
  destruct ((map_to_list m).*1) as [|k ks] eqn:E; [by apply not_elem_of_nil in Hk|].
  destruct (foldr_max_spec k ks) as [H1 H2]. specialize (H2 i Hk). rewrite <- E in H1.
  apply elem_of_keys, Hmax in H1. lia.
Qed.

Lemma kv_rep_log_in v m conf idx :
  kv_rep v m conf -> is_Some (m !! idx) -> is_u64 idx /\ is_Some (v !! log_key idx).
Proof.
  intros Hr Hi. pose proof (kr_dom _ _ _ Hr _ Hi) as Hu. split; [done|].
  pose proof (kr_log _ _ _ Hr idx Hu) as H. destruct Hi as [lg Hlg]. rewrite Hlg in H.
  destruct H as (b & _ & ->). done.
Qed.

Lemma kv_rep_in_log v m conf k :
  kv_rep v m conf -> is_Some (v !! k) -> bytes_ltb k prefixLog = false -> bytes_ltb k prefixConf = true ->
  exists idx, is_u64 idx /\ k = log_key idx /\ is_Some (m !! idx).
Proof.
  intros Hr Hk H1 H2. destruct (proj1 (log_range k) (conj H1 H2)) as [t ->].
  destruct (kr_keys _ _ _ Hr t Hk) as (idx & Hu & E). exists idx. split_and!; [done|done|].
  pose proof (kr_log _ _ _ Hr idx Hu) as H. rewrite <- E in H. destruct (m !! idx); [done|].
  rewrite H in Hk. by destruct Hk.
Qed.

Lemma log_key_in_range idx : bytes_ltb (log_key idx) prefixLog = false /\ bytes_ltb (log_key idx) prefixConf = true.
Proof. apply log_range. by eexists. Qed.

Lemma bytesToUint64_log_key idx :
  is_u64 idx -> bytesToUint64 (drop (length prefixLog) (log_key idx)) = Ok idx.
Proof. intros. by apply Uint64_PutUint64_nil. Qed.

Lemma no_logs_empty m : (forall i, ~ is_Some (m !! i)) -> spec_first m = 0 /\ spec_last m = 0.
Proof.
  intros H. assert (m = ∅) as ->; [|done]. apply map_empty. intros i.
  apply eq_None_not_Some, H.
Qed.

(** An index query, given what its seek finds. *)
Lemma kv_index_spec (seek : M D (option bytes)) d m conf o d' spec :
  kv_rep (db_view d) m conf ->
  (forall d0 os d1, seek d0 = (os, d1) -> db_view d0 = db_view d -> db_view d1 = db_view d0 /\
     (forall p, os <> Panic p) /\
     (forall r, os = Ok r -> match r with
        | Some k => exists idx, is_u64 idx /\ k = log_key idx /\ spec = idx
        | None => spec = 0 end) /\ (db_ok d0 -> is_ok os = true /\ db_ok d1)) ->
  (db_NewIter prefixLog prefixConf;;
   defer_close iter_Close (
     r ← seek;
     match r with
     | Some key => lift (bytesToUint64 (drop (length prefixLog) key))
     | None => mret 0
     end)) d = (o, d') ->
  reads d o d' (Ok spec) m conf.
Proof.
  intros Hr Hseek H. unfold mbind at 1, M_bind at 1 in H.
  destruct (db_NewIter prefixLog prefixConf d) as [oi di] eqn:Ei.
  pose proof (law_aux (db_NewIter prefixLog prefixConf) d oi di ltac:(eauto) Ei) as (Hvi & Hpi & Hoki).
  destruct oi as [[]|e|p]; [| |by destruct (Hpi p)].
  2:{ simplify_eq. split; [by eapply kv_rep_view|]. split; [eauto|]. intros H. by destruct (Hoki H). }
  destruct (seek di) as [os d1] eqn:Es.
  destruct (Hseek _ _ _ Es Hvi) as (Hv1 & Hp1 & Hval & Hok1).
  assert (Hin : (r ← seek; match r with
     | Some key => lift (bytesToUint64 (drop (length prefixLog) key)) | None => mret 0 end) di =
     (match os with Ok _ => Ok spec | Err e => Err e | Panic p => Panic p end, d1)).
  { unfold mbind, M_bind. rewrite Es. destruct os as [r|e|p]; [|done..]. specialize (Hval r eq_refl).
    destruct r as [k|]; [|by rewrite Hval]. destruct Hval as (idx & Hu & -> & ->).
    unfold lift. by rewrite bytesToUint64_log_key. }
  eapply defer_close_spec in H as (Hv & Hor & Hok); [|set_solver|exact Hin|].
  2:{ intros p. destruct os as [| |p']; try done. intros _. by destruct (Hp1 p'). }
  split; [eapply kv_rep_view; [|exact Hr]; congruence|]. split.
  - destruct Hor as [->|[e ->]]; [|eauto]. destruct os as [r|e|p]; eauto. by destruct (Hp1 p).
  - intros H. destruct (Hoki H) as [_ H1]. destruct (Hok1 H1) as [H2 H3]. destruct (Hok H3) as [-> H4].
    by destruct os.
Qed.

Lemma kv_FirstIndex_spec d m conf o d' :
  kv_rep (db_view d) m conf -> kv_FirstIndex d = (o, d') -> reads d o d' (Ok (spec_first m)) m conf.
Proof.
  intros Hr H. eapply (kv_index_spec (iter_First prefixLog prefixConf)); [done| |exact H].
  intros d0 os d1 Es E0. apply law_First in Es as (Hv & Hp & Hval & Hok). rewrite E0 in Hval.
  split_and!; try done. intros r Hrr. specialize (Hval r Hrr). destruct r as [k|].
  - destruct Hval as (Hk & H1 & H2 & Hmin).
    destruct (kv_rep_in_log _ _ _ _ Hr Hk H1 H2) as (idx & Hu & -> & Hm). exists idx. split_and!; [done|done|].
    apply spec_first_min; [done|]. intros j Hj. destruct (kv_rep_log_in _ _ _ _ Hr Hj) as [Huj Hkj].
    specialize (Hmin _ Hkj (proj1 (log_key_in_range j))). rewrite log_key_ltb in Hmin by done.
    by apply Z.ltb_ge in Hmin.
  - apply no_logs_empty. intros i Hi. destruct (kv_rep_log_in _ _ _ _ Hr Hi) as [_ Hk].
    destruct (log_key_in_range i) as [H1 H2]. rewrite (Hval _ Hk H1) in H2. done.
Qed.

Lemma kv_LastIndex_spec d m conf o d' :
  kv_rep (db_view d) m conf -> kv_LastIndex d = (o, d') -> reads d o d' (Ok (spec_last m)) m conf.
Proof.
  intros Hr H. eapply (kv_index_spec (iter_Last prefixLog prefixConf)); [done| |exact H].
  intros d0 os d1 Es E0. apply law_Last in Es as (Hv & Hp & Hval & Hok). rewrite E0 in Hval.
  split_and!; try done. intros r Hrr. specialize (Hval r Hrr). destruct r as [k|].
  - destruct Hval as (Hk & H1 & H2 & Hmax).
    destruct (kv_rep_in_log _ _ _ _ Hr Hk H1 H2) as (idx & Hu & -> & Hm). exists idx. split_and!; [done|done|].
    apply spec_last_max; [done|]. intros j Hj. destruct (kv_rep_log_in _ _ _ _ Hr Hj) as [Huj Hkj].
    specialize (Hmax _ Hkj (proj2 (log_key_in_range j))). rewrite log_key_ltb in Hmax by done.
    by apply Z.ltb_ge in Hmax.
  - apply no_logs_empty. intros i Hi. destruct (kv_rep_log_in _ _ _ _ Hr Hi) as [_ Hk].
    destruct (log_key_in_range i) as [H1 H2]. rewrite (Hval _ Hk H1) in H2. done.
Qed.

(** ** The refinement *)

Inductive kvop :=
| KStoreLog (lg : raft_Log) | KStoreLogs (logs : list raft_Log) | KGetLog (idx : Z) (lg0 : raft_Log)
| KFirst | KLast | KDelete (min max : Z)
| KSet (k v : bytes) | KGet (k : bytes) | KSetUint64 (k : bytes) (v : Z) | KGetUint64 (k : bytes).
Inductive kvres := RUnit | RLog (lg : raft_Log) | RNum (z : Z) | RSlice (n : nat).

Definition kvop_wf (op : kvop) : Prop :=
  match op with
  | KStoreLog lg => is_u64 (rl_Index lg)
  | KStoreLogs logs => Forall (fun lg => is_u64 (rl_Index lg)) logs
  | KGetLog idx _ => is_u64 idx
  | KDelete min max => is_u64 min /\ is_u64 max
  | _ => True
  end.

(** Of the slice that [Get] returns the length is certain, its contents are not. *)
Definition kv_exec (op : kvop) : M D kvres :=
  match op with
  | KStoreLog lg => StoreLog lg;; mret RUnit
  | KStoreLogs logs => StoreLogs logs;; mret RUnit
  | KGetLog idx lg0 => lg ← GetLog idx lg0; mret (RLog lg)
  | KFirst => z ← FirstIndex; mret (RNum z)
  | KLast => z ← LastIndex; mret (RNum z)
  | KDelete min max => DeleteRange min max;; mret RUnit
  | KSet k v => Set_ k v;; mret RUnit
  | KGet k => b ← Get k; mret (RSlice (length b))
  | KSetUint64 k v => SetUint64 k v;; mret RUnit
  | KGetUint64 k => z ← GetUint64 k; mret (RNum z)
  end.

Definition omap_res {A B} (f : A -> B) (o : outcome A) : outcome B :=
  match o with Ok a => Ok (f a) | Err e => Err e | Panic p => Panic p end.

(** The operations on the two maps. *)
Definition spec_kv (op : kvop) : M (gmap Z raft_Log * gmap bytes bytes) kvres := fun '(m, conf) =>
  match op with
  | KStoreLog lg => (Ok RUnit, (<[rl_Index lg := lg]> m, conf))
  | KStoreLogs logs => (Ok RUnit, (store_all logs m, conf))
  | KGetLog idx _ => (omap_res RLog (spec_GetLog idx m), (m, conf))
  | KFirst => (Ok (RNum (spec_first m)), (m, conf))
  | KLast => (Ok (RNum (spec_last m)), (m, conf))
  | KDelete min max => (Ok RUnit, (delete_indexes min max m, conf))
  | KSet k v => (Ok RUnit, (m, <[k := v]> conf))
  | KGet k => (match conf !! k with Some v => Ok (RSlice (length v)) | None => Err ErrKeyNotFound end, (m, conf))
  | KSetUint64 k v => (Ok RUnit, (m, <[k := PutUint64 v]> conf))
  | KGetUint64 k =>
      (match conf !! k with Some v => omap_res RNum (Uint64 v) | None => Err ErrKeyNotFound end, (m, conf))
  end.

(** Continuing with a pure function maps the outcome. *)
Lemma bind_mret_run {A B} (c : M D A) (f : A -> B) d :
  (c ≫= fun a => mret (f a)) d = (omap_res f (c d).1, (c d).2).
Proof. unfold mbind, M_bind, mret, M_ret. by destruct (c d) as [[a|e|p] d']. Qed.

Lemma writes_ok d o d' m' conf' :
  writes d o d' m' conf' -> db_ok d -> o = Ok tt /\ kv_rep (db_view d') m' conf' /\ db_ok d'.
Proof.
  intros [Hor Hok] H. destruct (Hok H) as [-> H']. destruct Hor as [[_ Hr]|[e E]]; done.
Qed.

Lemma kv_exec_sim op d m conf :
  kv_rep (db_view d) m conf -> db_ok d -> kvop_wf op ->
  (kv_exec op d).1 = (spec_kv op (m, conf)).1 /\ db_ok (kv_exec op d).2 /\
  kv_rep (db_view (kv_exec op d).2) (spec_kv op (m, conf)).2.1 (spec_kv op (m, conf)).2.2.
Proof.
  intros Hr Hok Hwf.
  assert (Hw : forall c m' conf', (forall o d', c d = (o, d') -> writes d o d' m' conf') ->
            (c d).1 = Ok tt /\ db_ok (c d).2 /\ kv_rep (db_view (c d).2) m' conf').
  { intros c m' conf' Hc. destruct (c d) as [o d'] eqn:E.
    destruct (writes_ok _ _ _ _ _ (Hc _ _ eq_refl) Hok) as (-> & H1 & H2). done. }
  assert (Hrd : forall A (c : M D A) spec, (forall o d', c d = (o, d') -> reads d o d' spec m conf) ->
            (c d).1 = spec /\ db_ok (c d).2 /\ kv_rep (db_view (c d).2) m conf).
  { intros A c spec Hc. destruct (c d) as [o d'] eqn:E.
    destruct (Hc _ _ eq_refl) as (H1 & _ & H2). destruct (H2 Hok) as [-> H3]. done. }
  destruct op; cbn [kv_exec spec_kv kvop_wf] in *; rewrite bind_mret_run; cbn [fst snd].
  - destruct (Hw (kv_StoreLog lg) _ _ (fun o d' => kv_StoreLog_spec lg d m conf o d' Hr Hwf)) as (H1 & H2 & H3).
    split; [|done]. cbn [StoreLog kv_LogStore]. by rewrite H1.
  - destruct (Hw (kv_StoreLogs logs) _ _ (fun o d' => kv_StoreLogs_spec logs d m conf o d' Hr Hwf)) as (H1 & H2 & H3).
    split; [|done]. cbn [StoreLogs kv_LogStore]. by rewrite H1.
  - destruct (Hrd _ (kv_GetLog idx lg0) _ (fun o d' => kv_GetLog_spec idx lg0 d m conf o d' Hr Hwf)) as (H1 & H2 & H3).
    split; [|done]. cbn [GetLog kv_LogStore]. by rewrite H1.
  - destruct (Hrd _ kv_FirstIndex _ (fun o d' => kv_FirstIndex_spec d m conf o d' Hr)) as (H1 & H2 & H3).
    split; [|done]. cbn [FirstIndex kv_LogStore]. by rewrite H1.
  - destruct (Hrd _ kv_LastIndex _ (fun o d' => kv_LastIndex_spec d m conf o d' Hr)) as (H1 & H2 & H3).
    split; [|done]. cbn [LastIndex kv_LogStore]. by rewrite H1.
  - destruct Hwf as (Hmin & Hmax).
    destruct (Hw (kv_DeleteRange min max) _ _
      (fun o d' => kv_DeleteRange_spec min max d m conf o d' Hr Hmin Hmax)) as (H1 & H2 & H3).
    split; [|done]. cbn [DeleteRange kv_LogStore]. by rewrite H1.
  - destruct (Hw (kv_Set k v) _ _ (fun o d' => kv_Set_spec k v d m conf o d' Hr)) as (H1 & H2 & H3).
    split; [|done]. cbn [Set_ kv_StableStore]. by rewrite H1.
  - cbn [Get kv_StableStore]. destruct (kv_Get k d) as [o d'] eqn:E. cbn [fst snd].
    destruct (kv_Get_spec k d m conf o d' Hr E) as (H1 & _ & H2). destruct (H2 Hok) as [-> H3]. split; [|done].
    destruct (conf !! k) as [v|]; [|done]. cbn [omap_res]. by rewrite law_slice.
  - destruct (Hw (kv_SetUint64 k v) _ _ (fun o d' => kv_Set_spec k _ d m conf o d' Hr)) as (H1 & H2 & H3).
    split; [|done]. cbn [SetUint64 kv_StableStore]. by rewrite H1.
  - destruct (Hrd _ (kv_GetUint64 k) _ (fun o d' => kv_GetValue_spec k _ d m conf o d' Hr)) as (H1 & H2 & H3).
    split; [|done]. cbn [GetUint64 kv_StableStore]. rewrite H1. by destruct (conf !! k).
Qed.

(** C14. The Pebble store refines raft's two store interfaces: while the database
    works, every sequence of calls gives the results of a map from indexes to
    entries (its first and last index included) and a map of values, and the two
    never interfere.  A [DeleteRange] up to the largest index deletes nothing, in the code
    as in the specification; of a value that [Get] returns the specification has the length
    only, since the slice is used after its closer was closed. *)
Theorem kv_refinement ops d m conf :
  kv_rep (db_view d) m conf -> db_ok d -> Forall kvop_wf ops ->
  (run_ops kv_exec ops d).1 = (run_ops spec_kv ops (m, conf)).1.
Proof.
  intros Hr Hok Hwf.
  apply (run_ops_refine kvop_wf (fun _ d t => kv_rep (db_view d) t.1 t.2 /\ db_ok d)); [|done..].
  intros _ op d' [m' conf'] Hop [Hr' Hok'].
  destruct (kv_exec_sim op d' m' conf' Hr' Hok' Hop) as (H1 & H2 & H3). done.
Qed.

(** Storing the entries one by one writes what the batch writes. *)
Lemma store_each_run logs wb d :
  batch_of logs wb -> db_ok d ->
  Forall (.= Ok tt) (run_ops kv_StoreLog logs d).1 /\ db_ok (run_ops kv_StoreLog logs d).2 /\
  db_view (run_ops kv_StoreLog logs d).2 = write_batch (db_view d) wb.
Proof.
  intros Hb. revert d. induction Hb as [|lg [k b] logs wb [Hk Hb] _ IH]; intros d Hok; [done|]. cbn [fst snd] in *. subst k.
  cbn [run_ops]. destruct (kv_StoreLog lg d) as [o d1] eqn:E.
  unfold kv_StoreLog in E. erewrite bind_Ok in E by (unfold lift; by rewrite Hb).
  apply law_Set in E as (Hp & Hv & Hok1). destruct (Hok1 Hok) as [Ho Hok2].
  destruct (IH d1 Hok2) as (H1 & H2 & H3). destruct (run_ops kv_StoreLog logs d1) as [rs d2]. cbn [fst snd] in *.
  split_and!; [|done|].
  - constructor; [|done]. by destruct o as [[]| |].
  - by rewrite H3, (Hv Ho).
Qed.

(** C27. [StoreLogs], which batches its writes, is equivalent to [StoreLog] of each
    entry in turn: on a database that works both succeed and leave the same
    contents, also with duplicate indexes. *)
Theorem store_logs_batch logs d :
  db_ok d ->
  (kv_StoreLogs logs d).1 = Ok tt /\ Forall (.= Ok tt) (run_ops kv_StoreLog logs d).1 /\
  db_view (kv_StoreLogs logs d).2 = db_view (run_ops kv_StoreLog logs d).2.
Proof.
  intros Hok. destruct (kv_StoreLogs logs d) as [o d'] eqn:E.
  apply kv_StoreLogs_run in E as (Hp & Hwb & Hok'). destruct (Hok' Hok) as [Ho _].
  destruct (Hwb Ho) as (wb & Hb & Hv). destruct (store_each_run logs wb d Hb Hok) as (H1 & _ & H2).
  cbn [fst snd]. split_and!; [by destruct o as [[]| |]|done|congruence].
Qed.

(** Under any failures of the database, an entry that [StoreLogs]
    acknowledged is read back by [GetLog] as it was stored, or with an error. *)
Theorem kv_acknowledged_read logs lg lg0 d d1 m conf :
  kv_rep (db_view d) m conf -> Forall (fun lg => is_u64 (rl_Index lg)) logs -> is_u64 (rl_Index lg) ->
  StoreLogs (logs ++ [lg]) d = (Ok tt, d1) ->
  (GetLog (rl_Index lg) lg0 d1).1 = Ok lg \/ exists e, (GetLog (rl_Index lg) lg0 d1).1 = Err e.
Proof.
  intros Hr Hu Hlg H. eapply kv_StoreLogs_spec in H as [Hor _]; [|done|].
  2:{ apply Forall_app_2; [done|by constructor]. }
  destruct Hor as [[_ Hr1]|[e E]]; [|done].
  destruct (GetLog (rl_Index lg) lg0 d1) as [o d2] eqn:E.
  destruct (kv_GetLog_spec _ _ _ _ _ _ _ Hr1 Hlg E) as (_ & Hor & _). cbn [fst].
  unfold spec_GetLog, store_all in Hor. rewrite foldl_snoc, lookup_insert_eq in Hor. done.
Qed.

(** [DeleteRange] up to the largest index deletes nothing: the exclusive end
    of its range wraps around to index 0. *)
Theorem kv_delete_all_wraps min d m conf o d' :
  kv_rep (db_view d) m conf -> is_u64 min -> DeleteRange min (2 ^ 64 - 1) d = (o, d') ->
  writes d o d' m conf.
Proof. intros Hr Hmin H. exact (kv_DeleteRange_max min d m conf o d' Hr Hmin H). Qed.
End refinement.

(** ** Witnesses

    A database in memory and a codec from the countability of entries. *)
Module PebbleWitness.

Lemma bytes_ltb_irrefl a : bytes_ltb a a = false.
Proof. induction a as [|x a IH]; [done|]. cbn. by rewrite Z.ltb_irrefl, Z.eqb_refl, IH. Qed.

Lemma bytes_ltb_trans a b c : bytes_ltb a b = true -> bytes_ltb b c = true -> bytes_ltb a c = true.
Proof.
  revert b c. induction a as [|x a IH]; intros [|y b] [|z c] H1 H2; try done. cbn in *.
  apply orb_true_iff in H1, H2. rewrite !andb_true_iff, !Z.ltb_lt, !Z.eqb_eq in *.
  apply orb_true_iff. rewrite andb_true_iff, Z.ltb_lt, Z.eqb_eq.
  destruct H1 as [H1|[H1 H1']], H2 as [H2|[H2 H2']]; [left; lia..|]. right. split; [lia|]. eauto.
Qed.

(** The first key in the order [lt]. *)
Definition pick (lt : bytes -> bytes -> bool) (ks : list bytes) : option bytes :=
  foldr (fun k acc => match acc with
                      | None => Some k
                      | Some a => if lt k a then Some k else Some a
                      end) None ks.

Lemma pick_spec lt ks :
  (forall a, lt a a = false) -> (forall a b c, lt a b = true -> lt b c = true -> lt a c = true) ->
  match pick lt ks with
  | None => ks = []
  | Some k => k ∈ ks /\ forall k', k' ∈ ks -> lt k' k = false
  end.
Proof.
  intros Hirr Htr. induction ks as [|k ks IH]; [done|]. cbn [pick foldr]. fold (pick lt ks).
  destruct (pick lt ks) as [a|]; [|subst; split; [set_solver|intros k' Hk'; by apply list_elem_of_singleton in Hk' as ->]].
  destruct IH as [IH1 IH2]. destruct (lt k a) eqn:E; (split; [set_solver|]); intros k' Hk';
    apply elem_of_cons in Hk' as [->|Hk']; auto.
  destruct (lt k' k) eqn:E'; [|done]. rewrite <- (IH2 k' Hk'). symmetry. eauto.
Qed.

Definition range_keys (lo hi : bytes) (m : gmap bytes bytes) : list bytes :=
  filter (fun k => bytes_ltb k lo = false /\ bytes_ltb k hi = true) ((map_to_list m).*1).

#[export] Instance mem_db : PebbleDB (gmap bytes bytes) := {|
  db_Metrics := fun m => (0, Z.of_nat (size m));
  options_callback := fun _ m => m;
  stopper_Stop := fun m => m;
  pebble_Open := fun _ _ => mret tt;
  db_Close := mret tt;
  db_Get := fun k m => (Ok (m !! k), m);
  closer_Close := mret tt;
  slice_after := fun v _ => replicate (length v) Byte.x00;
  db_Set := fun k v _ m => (Ok tt, <[k := v]> m);
  db_DeleteRange := fun lo hi _ m =>
    (Ok tt, filter (fun kv => negb (bytes_ltb kv.1 lo) && bytes_ltb kv.1 hi = false) m);
  batch_Set := fun _ _ _ => mret tt;
  batch_Close := mret tt;
  db_Apply := fun wb _ m => (Ok tt, foldl (fun m kv => <[kv.1 := kv.2]> m) m wb);
  db_NewIter := fun _ _ => mret tt;
  iter_First := fun lo hi m => (Ok (pick bytes_ltb (range_keys lo hi m)), m);
  iter_Last := fun lo hi m => (Ok (pick (fun a b => bytes_ltb b a) (range_keys lo hi m)), m);
  iter_Close := mret tt
|}.

Lemma elem_of_range_keys lo hi m k :
  k ∈ range_keys lo hi m <-> is_Some (m !! k) /\ bytes_ltb k lo = false /\ bytes_ltb k hi = true.
Proof.
  unfold range_keys. rewrite list_elem_of_filter, list_elem_of_fmap. split.
  - intros [H ([k' v] & -> & Hin)]. apply elem_of_map_to_list in Hin. split; [by exists v|done].
  - intros [[v Hv] H]. split; [done|]. exists (k, v). split; [done|]. by apply elem_of_map_to_list.
Qed.

#[export] Program Instance mem_db_laws : PebbleLaws (gmap bytes bytes) :=
  {| db_view := fun m => m; db_ok := fun _ => True |}.
Next Obligation. intros k d o d' H. cbn in H. simplify_eq. split_and!; try done. intros r E. by simplify_eq. Qed.
Next Obligation. intros v d. apply length_replicate. Qed.
Next Obligation. intros k v o1 d o d' H. cbn in H. by simplify_eq. Qed.
Next Obligation.
  intros lo hi o1 d o d' H. cbn in H. simplify_eq. split_and!; try done. intros _ k.
  rewrite map_lookup_filter. destruct (d !! k) as [v|]; cbn; [|by destruct (_ && _)].
  destruct (negb (bytes_ltb k lo) && bytes_ltb k hi) eqn:E.
  - by rewrite option_guard_False by (cbn; by rewrite ?E).
  - by rewrite option_guard_True by (cbn; by rewrite ?E).
Qed.
Next Obligation. intros wb o1 d o d' H. cbn in H. by simplify_eq. Qed.
Next Obligation.
  intros m d o d' Hm H. assert (m = mret tt) as ->.
  { destruct Hm as [Hm|[(k & v & o1 & ->)|(lo & hi & ->)]]; [|done..]. set_unfold. naive_solver. }
  unfold mret, M_ret in H. by simplify_eq.
Qed.
Next Obligation.
  intros lo hi d o d' H. cbn in H. simplify_eq. split_and!; try done. intros r E. simplify_eq.
  pose proof (pick_spec bytes_ltb (range_keys lo hi d') bytes_ltb_irrefl bytes_ltb_trans) as Hp.
  destruct (pick bytes_ltb _) as [k|].
  - destruct Hp as [Hk Hmin]. apply elem_of_range_keys in Hk as (H1 & H2 & H3). split_and!; auto.
    intros k' Hk' Hlo. destruct (bytes_ltb k' hi) eqn:Ehi; [by apply Hmin, elem_of_range_keys|].
    destruct (bytes_ltb k' k) eqn:E; [|done]. by rewrite (bytes_ltb_trans _ _ _ E H3) in Ehi.
  - intros k' Hk' Hlo. destruct (bytes_ltb k' hi) eqn:Ehi; [|done].
    assert (k' ∈ range_keys lo hi d') as Hin by (by apply elem_of_range_keys). rewrite Hp in Hin. set_solver.
Qed.
Next Obligation.
  intros lo hi d o d' H. cbn in H. simplify_eq. split_and!; try done. intros r E. simplify_eq.
  pose proof (pick_spec (fun a b => bytes_ltb b a) (range_keys lo hi d') bytes_ltb_irrefl
    (fun a b c H1 H2 => bytes_ltb_trans _ _ _ H2 H1)) as Hp.
  destruct (pick _ _) as [k|].
  - destruct Hp as [Hk Hmax]. apply elem_of_range_keys in Hk as (H1 & H2 & H3). split_and!; auto.
    intros k' Hk' Hhi. destruct (bytes_ltb k' lo) eqn:Elo; [|by apply Hmax, elem_of_range_keys].
    destruct (bytes_ltb k k') eqn:E; [|done]. by rewrite (bytes_ltb_trans _ _ _ E Elo) in H2.
  - intros k' Hk' Hlo. destruct (bytes_ltb k' hi) eqn:Ehi; [|done].
    assert (k' ∈ range_keys lo hi d') as Hin by (by apply elem_of_range_keys). rewrite Hp in Hin. set_solver.
Qed.

Fixpoint pos_bytes (p : positive) : bytes :=
  match p with xH => [] | xO p => Byte.x00 :: pos_bytes p | xI p => Byte.x01 :: pos_bytes p end.
Fixpoint bytes_pos (b : bytes) : positive :=
  match b with
  | [] => xH
  | Byte.x00 :: b => xO (bytes_pos b)
  | _ :: b => xI (bytes_pos b)
  end.

Definition log_tuple (lg : raft_Log) : Z * Z * Z * bytes * bytes * Z :=
  (rl_Index lg, rl_Term lg, rl_Type lg, rl_Data lg, rl_Extensions lg, rl_AppendedAt lg).
Definition tuple_log (t : Z * Z * Z * bytes * bytes * Z) : raft_Log :=
  let '(i, t, y, d, e, a) := t in mkRaftLog i t y d e a.

#[export] Instance mem_codec : MsgPack := {|
  codec_Encode := fun lg buf => (buf ++ pos_bytes (encode (log_tuple lg)), None);
  codec_Decode := fun b lg0 =>
    match decode (bytes_pos b) with Some t => (tuple_log t, None) | None => (lg0, Some ErrProto) end
|}.

#[export] Instance mem_codec_laws : MsgPackLaws.
Proof.
  split; [cbn; eauto|]. intros lg lg0 b E. cbn in E. injection E as <-. cbn.
  assert (Hp : forall p, bytes_pos (pos_bytes p) = p) by (induction p; cbn; congruence).
  rewrite Hp, decode_encode. by destruct lg.
Qed.

Lemma empty_rep : kv_rep (db_view (D := gmap bytes bytes) ∅) ∅ ∅.
Proof.
  change (db_view ∅) with (∅ : gmap bytes bytes).
  split; intros *; rewrite ?lookup_empty; try done; by intros [].
Qed.

Definition e3 : raft_Log := mkRaftLog 3 1 0 [Byte.x61] [] 0.
Definition e9 : raft_Log := mkRaftLog 9 2 0 [] [] 0.

Lemma kv_refinement_witness :
  (run_ops (kv_exec (D := gmap bytes bytes))
     [KStoreLogs [e9; e3]; KFirst; KLast; KDelete 0 5; KFirst; KDelete 0 (2 ^ 64 - 1); KGetLog 3 e9; KGetLog 9 e3;
      KSetUint64 [] 7; KGetUint64 []; KGet []; KGet [Byte.x05]] ∅).1 =
  [Ok RUnit; Ok (RNum 3); Ok (RNum 9); Ok RUnit; Ok (RNum 9); Ok RUnit; Err raft_ErrLogNotFound; Ok (RLog e9);
   Ok RUnit; Ok (RNum 7); Ok (RSlice 8); Err ErrKeyNotFound].
Proof.
  rewrite (kv_refinement _ _ ∅ ∅ empty_rep I).
  - by vm_compute.
  - repeat constructor; by vm_compute.
Defined.

(** In this database, which keeps every promise, the memory of a slice is cleared when
    its closer is closed: what [Get] returns is not what was set. *)
Example get_after_close :
  (kv_Get [] (kv_Set [] [Byte.x61] (∅ : gmap bytes bytes)).2).1 = Ok [Byte.x00].
Proof. by vm_compute. Qed.

Lemma store_logs_batch_witness :
  let each := run_ops kv_StoreLog [e9; e3; e9] (∅ : gmap bytes bytes) in
  (kv_StoreLogs [e9; e3; e9] (∅ : gmap bytes bytes)).1 = Ok tt /\ Forall (.= Ok tt) each.1 /\
  db_view (kv_StoreLogs [e9; e3; e9] (∅ : gmap bytes bytes)).2 = db_view each.2.
Proof. exact (store_logs_batch [e9; e3; e9] (∅ : gmap bytes bytes) I). Defined.

(** The database after [StoreLogs \[e9; e3\]]. *)
Definition d2 : gmap bytes bytes := (StoreLogs (S := gmap bytes bytes) [e9; e3] ∅).2.

Lemma d2_run : StoreLogs [e9; e3] (∅ : gmap bytes bytes) = (Ok tt, d2).
Proof.
  unfold d2. destruct (StoreLogs [e9; e3] (∅ : gmap bytes bytes)) as [o d] eqn:E. cbn [snd].
  assert (Ho : (StoreLogs [e9; e3] (∅ : gmap bytes bytes)).1 = Ok tt) by (by vm_compute).
  rewrite E in Ho. cbn in Ho. by rewrite Ho.
Qed.

Lemma e_wf lg : lg ∈ [e9; e3] -> is_u64 (rl_Index lg).
Proof. intros H. set_unfold. destruct H as [->|[->|[]]]; by vm_compute. Qed.

Lemma d2_rep : kv_rep (db_view d2) (store_all [e9; e3] ∅) ∅.
Proof.
  destruct (kv_StoreLogs_spec _ _ _ _ _ _ empty_rep (proj2 (list.Forall_forall _ _) e_wf) d2_run) as [Hor _].
  destruct Hor as [[_ Hr]|[e He]]; [exact Hr|done].
Qed.

Lemma kv_acknowledged_read_witness :
  (GetLog 3 e9 d2).1 = Ok e3 \/ exists e, (GetLog 3 e9 d2).1 = Err e.
Proof.
  refine (kv_acknowledged_read [e9] e3 e9 ∅ d2 ∅ ∅ empty_rep _ _ d2_run).
  - constructor; [apply e_wf; set_solver|constructor].
  - apply e_wf. set_solver.
Defined.

Lemma kv_delete_all_wraps_witness :
  exists o d', DeleteRange 0 (2 ^ 64 - 1) d2 = (o, d') /\ writes d2 o d' (store_all [e9; e3] ∅) ∅.
Proof.
  assert (H0 : is_u64 0) by (by vm_compute).
  destruct (DeleteRange 0 (2 ^ 64 - 1) d2) as [o d'] eqn:E. exists o, d'. split; [exact eq_refl|].
  exact (kv_delete_all_wraps 0 d2 _ _ o d' d2_rep H0 E).
Defined.
End PebbleWitness.
