(* ===== verification/NetAddr.v ===== *)
(** The functions of [net] and [strconv] on addresses that the agent uses, from
    the definitions of the standard library, on the characters of a string. *)

From Stdlib Require Import Ascii.
From S2P Require Import Prelude Names.

Abbreviation chars := (list ascii).
Definition of_string (s : string) : chars := String.list_ascii_of_string s.
Definition to_string (l : chars) : string := String.string_of_list_ascii l.

(** [bytealg.IndexByteString]: the first occurrence. *)
Fixpoint index_char (c : ascii) (l : chars) : option nat :=
  match l with
  | [] => None
  | x :: l => if bool_decide (x = c) then Some 0%nat else S <$> index_char c l
  end.

(** [last]: the last occurrence. *)
Fixpoint last_char (c : ascii) (l : chars) : option nat :=
  match l with
  | [] => None
  | x :: l =>
      match last_char c l with
      | Some i => Some (S i)
      | None => if bool_decide (x = c) then Some 0%nat else None
      end
  end.

Definition has_char (c : ascii) (l : chars) : bool := bool_decide (c ∈ l).

(** [&net.AddrError{Err: why, Addr: addr}] *)
Definition addrErr {A} (addr : chars) (why : string) : outcome A :=
  Err (errors_New ("address " +:+ to_string addr +:+ ": " +:+ why)).
Definition missingPort : string := "missing port in address".
Definition tooManyColons : string := "too many colons in address".

(** The host, and the positions from which there can be no bracket. *)
Definition split_host (hp : chars) (i : nat) : outcome (chars * nat * nat) :=
  match hp with
  | "["%char :: _ =>
      match index_char "]" hp with
      | None => addrErr hp "missing ']' in address"
      | Some e =>
          if bool_decide (e + 1 = length hp)%nat then addrErr hp missingPort
          else if bool_decide (e + 1 = i)%nat then Ok (drop 1 (take e hp), 1%nat, (e + 1)%nat)
          else if bool_decide (hp !! (e + 1)%nat = Some ":"%char) then addrErr hp tooManyColons
          else addrErr hp missingPort
      end
  | _ =>
      let host := take i hp in
      if has_char ":" host then addrErr hp tooManyColons else Ok (host, 0%nat, 0%nat)
  end.

Definition SplitHostPort_chars (hp : chars) : outcome (chars * chars) :=
  match last_char ":" hp with
  | None => addrErr hp missingPort
  | Some i =>
      match split_host hp i with
      | Ok (host, j, k) =>
          if has_char "[" (drop j hp) then addrErr hp "unexpected '[' in address"
          else if has_char "]" (drop k hp) then addrErr hp "unexpected ']' in address"
          else Ok (host, drop (i + 1) hp)
      | Err e => Err e
      | Panic p => Panic p
      end
  end.

(** [net.SplitHostPort] *)
Definition SplitHostPort (hostport : string) : outcome (string * string) :=
  match SplitHostPort_chars (of_string hostport) with
  | Ok (h, p) => Ok (to_string h, to_string p)
  | Err e => Err e
  | Panic p => Panic p
  end.

Definition JoinHostPort_chars (host port : chars) : chars :=
  if has_char ":" host then "["%char :: host ++ "]"%char :: ":"%char :: port
  else host ++ ":"%char :: port.

(** [net.JoinHostPort] *)
Definition JoinHostPort (host port : string) : string :=
  to_string (JoinHostPort_chars (of_string host) (of_string port)).

(** [strconv.Itoa], and [%d] of an [int] *)
Definition Itoa (n : Z) : string := if n <? 0 then "-" +:+ FormatUint (- n) else FormatUint n.

Example split_v6 : SplitHostPort "[::1]:8400" = Ok ("::1", "8400")%string.
Proof. reflexivity. Qed.
Example split_v4 : SplitHostPort "127.0.0.1:8400" = Ok ("127.0.0.1", "8400")%string.
Proof. reflexivity. Qed.
Example split_missing : is_ok (SplitHostPort "localhost") = false.
Proof. reflexivity. Qed.
Example split_bare_v6 : is_ok (SplitHostPort "::1") = false.
Proof. reflexivity. Qed.
Example join_v6 : JoinHostPort "::1" (Itoa 8400) = "[::1]:8400"%string.
Proof. reflexivity. Qed.

(** ** Splitting what was joined *)

(** No brackets; an address that was split has none in its parts. *)
Definition unbracketed (l : chars) : Prop := "["%char ∉ l /\ "]"%char ∉ l.

Lemma index_char_spec c l i :
  index_char c l = Some i -> c ∉ take i l /\ (i < length l)%nat.
Proof.
  revert i. induction l as [|x l IH]; intros i; cbn; [done|]. case_bool_decide as Hx.
  - intros [= <-]. split; [|lia]. apply not_elem_of_nil.
  - destruct (index_char c l) as [j|] eqn:E; [|done]. intros [= <-]. destruct (IH j eq_refl). split; [|lia].
    cbn. set_solver.
Qed.

Lemma index_char_app c l r : c ∉ l -> index_char c (l ++ c :: r) = Some (length l).
Proof.
  induction l as [|x l IH]; intros H; cbn.
  - by rewrite bool_decide_eq_true_2.
  - apply not_elem_of_cons in H as [Hx Hl]. rewrite bool_decide_eq_false_2 by done. by rewrite IH.
Qed.

Lemma last_char_None c l : c ∉ l -> last_char c l = None.
Proof.
  induction l as [|x l IH]; intros H; cbn; [done|]. apply not_elem_of_cons in H as [Hx Hl].
  rewrite IH by done. by rewrite bool_decide_eq_false_2.
Qed.

Lemma last_char_app c l r : c ∉ r -> last_char c (l ++ c :: r) = Some (length l).
Proof.
  intros H. induction l as [|x l IH]; cbn.
  - rewrite last_char_None by done. by rewrite bool_decide_eq_true_2.
  - by rewrite IH.
Qed.

Lemma last_char_spec c l i : last_char c l = Some i -> c ∉ drop (i + 1) l /\ (i < length l)%nat.
Proof.
  revert i. induction l as [|x l IH]; intros i; cbn; [done|].
  destruct (last_char c l) as [j|] eqn:E.
  - intros [= <-]. destruct (IH j eq_refl). cbn. split; [done|lia].
  - case_bool_decide; [|done]. intros [= <-]. cbn. split; [|lia]. rewrite drop_0.
    intros Hin. clear -E Hin. induction l as [|y l IH]; [by apply not_elem_of_nil in Hin|]. cbn in E.
    destruct (last_char c l); [done|]. case_bool_decide; [done|]. set_solver.
Qed.

Lemma elem_of_drop_in {A} (x : A) n l : x ∈ drop n l -> x ∈ l.
Proof. intros H. rewrite <- (take_drop n l). set_solver. Qed.

Lemma elem_of_take_in {A} (x : A) n l : x ∈ take n l -> x ∈ l.
Proof. intros H. rewrite <- (take_drop n l). set_solver. Qed.

Lemma not_in_drop {A} (x : A) n m l : (n <= m)%nat -> x ∉ drop n l -> x ∉ drop m l.
Proof.
  intros Hle H Hin. apply H. replace m with (n + (m - n))%nat in Hin by lia.
  rewrite <- drop_drop in Hin. by apply elem_of_drop_in in Hin.
Qed.

Lemma SplitHostPort_parts hp h p :
  SplitHostPort_chars hp = Ok (h, p) -> unbracketed h /\ unbracketed p /\ ":"%char ∉ p.
Proof.
  unfold SplitHostPort_chars. destruct (last_char ":" hp) as [i|] eqn:Ei; [|done].
  apply last_char_spec in Ei as [Hcol Hi].
  destruct (split_host hp i) as [[[h' j] k]|e|q] eqn:Es; [|done..].
  unfold has_char. case_bool_decide as Hl; [done|]. case_bool_decide as Hr; [done|]. intros [= <- <-].
  assert (Hk : (j <= i + 1 /\ k <= i + 1)%nat /\ unbracketed h').
  { unfold split_host in Es. destruct hp as [|c hp]; [cbn in Hi; lia|].
    destruct (decide (c = "["%char)) as [->|Hc].
    - destruct (index_char "]" ("["%char :: hp)) as [e|] eqn:Ee; [|done].
      apply index_char_spec in Ee as [He _].
      repeat case_bool_decide; simplify_eq. split; [lia|]. split.
      + intros Hin. apply Hl. cbn [drop] in *. destruct e; [by apply not_elem_of_nil in Hin|]. cbn in Hin.
        rewrite drop_0 in *. by apply elem_of_take_in in Hin.
      + intros Hin. by apply elem_of_drop_in in Hin.
    - assert (Ok (take i (c :: hp), 0%nat, 0%nat) = Ok (h', j, k)) as [= <- <- <-].
      { destruct c as [[] [] [] [] [] [] [] []]; try done; by destruct (has_char ":" _). }
      rewrite drop_0 in *. split; [lia|]. split; by intros Hin%elem_of_take_in. }
  destruct Hk as [[Hj Hk] Hh]. split; [done|]. split; [|done]. split; [exact (not_in_drop _ _ _ _ Hj Hl)|exact (not_in_drop _ _ _ _ Hk Hr)].
Qed.

Lemma SplitHostPort_JoinHostPort h p :
  unbracketed h -> unbracketed p -> ":"%char ∉ p -> SplitHostPort_chars (JoinHostPort_chars h p) = Ok (h, p).
Proof.
  intros [Hl Hr] [Pl Pr] Hp. unfold SplitHostPort_chars, JoinHostPort_chars, has_char.
  case_bool_decide as Hc.
  - remember (h ++ "]"%char :: ":"%char :: p) as t eqn:Et.
    assert (E1 : "["%char :: t = ("["%char :: h ++ ["]"%char]) ++ ":"%char :: p)
      by (rewrite Et; cbn; by rewrite <- app_assoc).
    assert (E2 : "["%char :: t = ("["%char :: h) ++ "]"%char :: ":"%char :: p) by (by rewrite Et).
    assert (Hlast : last_char ":" ("["%char :: t) = Some (length h + 2)%nat)
      by (rewrite E1, last_char_app by done; f_equal; cbn; len).
    assert (Hidx : index_char "]" ("["%char :: t) = Some (length h + 1)%nat)
      by (rewrite E2, index_char_app by set_solver; f_equal; cbn; lia).
    assert (Hdrop : drop (length h + 2) ("["%char :: t) = ":"%char :: p).
    { rewrite E1. replace (length h + 2)%nat with (length ("["%char :: h ++ ["]"%char])) by (cbn; len). apply drop_app_length. }
    rewrite Hlast. unfold split_host. rewrite Hidx.
    rewrite bool_decide_eq_false_2 by (rewrite Et; cbn; len). rewrite bool_decide_eq_true_2 by lia.
    replace (length h + 1 + 1)%nat with (length h + 2)%nat by lia.
    rewrite (Nat.add_comm _ 1), <- (drop_drop _ 1 (length h + 2)), Hdrop.
    rewrite !bool_decide_eq_false_2 by (rewrite ?Et; cbn; rewrite ?drop_0; set_solver).
    cbn. by rewrite drop_0, Et, take_app_length.
  - rewrite last_char_app by done.
    assert (Eh : split_host (h ++ ":"%char :: p) (length h) = Ok (h, 0%nat, 0%nat)).
    { unfold split_host. destruct h as [|c h]; [done|]. cbn [app].
      assert (c <> "["%char) by set_solver.
      assert (Et : take (length (c :: h)) (c :: h ++ ":"%char :: p) = c :: h) by (apply (take_app_length (c :: h))).
      rewrite Et.
      unfold has_char. rewrite (bool_decide_eq_false_2 (":"%char ∈ c :: h)) by done.
      by destruct c as [[] [] [] [] [] [] [] []]. }
    rewrite Eh, !drop_0. rewrite !bool_decide_eq_false_2 by set_solver.
    by rewrite drop_app_add.
Qed.

(** The characters of a number. *)
Definition number_char (c : ascii) : bool := bool_decide (c ∈ of_string "-0123456789").

Lemma uint_chars d : Forall number_char (of_string (DecimalString.NilEmpty.string_of_uint d)).
Proof. induction d; cbn; constructor; done. Qed.

Lemma Itoa_chars n : Forall number_char (of_string (Itoa n)).
Proof. unfold Itoa. destruct (n <? 0); [constructor; [done|]|]; apply uint_chars. Qed.

Lemma Itoa_clean n : unbracketed (of_string (Itoa n)) /\ ":"%char ∉ of_string (Itoa n).
Proof.
  pose proof (Itoa_chars n) as H. rewrite list.Forall_forall in H.
  split; [split|]; intros Hin%H; done.
Qed.

Lemma of_to_string l : of_string (to_string l) = l.
Proof. apply String.list_ascii_of_string_of_list_ascii. Qed.

Lemma to_of_string s : to_string (of_string s) = s.
Proof. apply String.string_of_list_ascii_of_string. Qed.

(** The host of an address with another port: splitting it gives the host and the
    port. *)
Lemma SplitHostPort_rejoin addr host port n :
  SplitHostPort addr = Ok (host, port) ->
  SplitHostPort (JoinHostPort host (Itoa n)) = Ok (host, Itoa n).
Proof.
  unfold SplitHostPort, JoinHostPort. intros H. rewrite of_to_string.
  destruct (SplitHostPort_chars (of_string addr)) as [[h p]|e|q] eqn:E; simplify_eq.
  apply SplitHostPort_parts in E as (Hh & _). rewrite of_to_string.
  destruct (Itoa_clean n). rewrite SplitHostPort_JoinHostPort by done. by rewrite to_of_string.
Qed.
