(* ===== verification/Port.v ===== *)
(** [internal/net/random_port.go]: a free port for the tests.

    The random numbers and the listeners are those of the environment. *)

From Stdlib Require Import Ascii.
From S2P Require Import Prelude Names NetAddr Tls StreamLayer.

(** [rand.Intn] *)
Class Rand (N : Type) := { rand_Intn : Z -> N -> Z * N }.

Definition minPort : Z := 1024.
Definition maxPort : Z := 65535.

Section port.
Context {N : Type} `{Net N} `{Rand N}.

(** Whether a listener cannot be opened on the port; one that was is closed again,
    the result of [Close] ignored. *)
Definition isPortOpen (port : Z) : M N bool :=
  r ← try (net_Listen (":" +:+ Itoa port));
  match r with
  | inr _ => mret true
  | inl listener => try (ln_Close listener);; mret false
  end.

Fixpoint port_loop (tries : nat) : M N Z :=
  match tries with
  | O => throw (errors_New "could not find an available port")
  | S tries =>
      r ← (fun s => let (r, s) := rand_Intn (maxPort - minPort) s in (Ok r, s));
      let port := r + minPort in
      opened ← isPortOpen port;
      if negb opened then mret port else port_loop tries
  end.

Definition GetAvailablePort : M N Z := port_loop 1000.

(** [tries_fail n s s']: from [s] to [s'], [n] ports were drawn and none could be
    listened on. *)
Inductive tries_fail : nat -> N -> N -> Prop :=
| tries_none s : tries_fail 0 s s
| tries_one n s r s1 e s2 s3 :
    rand_Intn (maxPort - minPort) s = (r, s1) -> net_Listen (":" +:+ Itoa (r + minPort)) s1 = (Err e, s2) ->
    tries_fail n s2 s3 -> tries_fail (S n) s s3.

(** C29. A port that [GetAvailablePort] returns is unprivileged and below 65535, and
    listening on it had just succeeded; it fails only after a thousand ports that
    could not be listened on. *)
Theorem available_port s o s' :
  (forall n x, 0 < n -> 0 <= (rand_Intn n x).1 < n) ->
  GetAvailablePort s = (o, s') ->
  match o with
  | Ok port => 1024 <= port < 65535 /\
      exists s1 l s2, net_Listen (":" +:+ Itoa port) s1 = (Ok l, s2) /\ (try (ln_Close l) s2).2 = s'
  | Err e => e = errors_New "could not find an available port" /\ tries_fail 1000 s s'
  | Panic _ => True
  end.
Proof.
  intros Hr. unfold GetAvailablePort. generalize 1000%nat as tries. intros tries. revert s.
  induction tries as [|tries IH]; intros s Hrun; cbn [port_loop] in Hrun.
  { unfold throw in Hrun. simplify_eq. split; [done|constructor]. }
  specialize (Hr (maxPort - minPort) s eq_refl) as Hrange. unfold mbind, M_bind in Hrun.
  destruct (rand_Intn (maxPort - minPort) s) as [r s1] eqn:Er. cbn in Hrange.
  unfold isPortOpen, mbind, M_bind, try in Hrun.
  destruct (net_Listen (":" +:+ Itoa (r + minPort)) s1) as [[l|e|p] s2] eqn:El; cbn in Hrun; [| |by simplify_eq].
  - destruct (ln_Close l s2) as [[[]|e|p] s3] eqn:Ec; cbn in Hrun; unfold mret, M_ret in Hrun; simplify_eq; try done.
    all: unfold minPort, maxPort in *; split; [lia|]; exists s1, l, s2; split; [done|];
      unfold try; by rewrite Ec.
  - apply IH in Hrun. destruct o as [port|e'|p]; [done| |done]. destruct Hrun. split; [done|]. by econstructor.
Qed.
End port.

(** ** Witness: the ports drawn are 7 and 8 above the lowest, of which the first is
    taken. *)
Module PortWitness.
Definition machine : Type := list Z * list string.

#[export] Instance machine_rand : Rand machine := {|
  rand_Intn := fun n m => (List.hd 0 m.1 mod n, (List.tl m.1, m.2))
|}.
#[export] Instance machine_net : Net machine := {|
  net_Listen := fun addr m =>
    if bool_decide (addr ∈ m.2) then (Err (Errno 98), m) else (Ok 0%nat, m);
  ln_Accept := fun _ => mret 0%nat;
  ln_Addr := fun _ => mret ""%string;
  ln_Close := fun _ => mret tt;
  conn_Read := fun _ _ => mret [];
  conn_Write := fun _ _ => mret tt;
  dialer_Dial := fun _ _ => mret 0%nat
|}.

Definition busy : machine := ([7; 8], [":1031"%string]).

Lemma available_port_witness :
  GetAvailablePort busy = (Ok 1032, ([], [":1031"%string])) /\ 1024 <= 1032 < 65535.
Proof.
  assert (E : GetAvailablePort busy = (Ok 1032, ([], [":1031"%string]))) by reflexivity.
  split; [exact E|]. apply (available_port busy (Ok 1032) ([], [":1031"%string])); [|exact E].
  intros n x Hn. by apply Z.mod_pos_bound.
Defined.
End PortWitness.
