(* ===== verification/Http.v ===== *)
(** What the service uses of [net/http] and [context]: requests, handlers and
    [ServeMux] (of Go 1.22).

    A handler is a computation on the state [S] of the server.  The request
    carries what its connection does while a handler runs: the messages of its
    body, and for each turn of a streaming handler whether the context is done
    and what sending returns. *)

From Stdlib Require Import Ascii.
From S2P Require Import Prelude.

(** The values of a [context.Context]: the user under the key of
    [internal/http]. *)
Record context := mkContext { ctx_user : option string }.
Definition context_Background : context := mkContext None.

(** [http.Request].  [req_TLS] is the state of the TLS connection, of which the
    code uses the common names of the verified chains; [None] is a connection
    without TLS. *)
Record Request := mkRequest {
  req_Method : string;
  req_Path : string;
  req_ContentType : string;
  req_RemoteAddr : string;
  req_TLS : option (list (list string));
  req_Context : context;
  req_Body : list bytes;
  req_Turns : list (bool * option error)
}.

Definition WithContext (ctx : context) (r : Request) : Request :=
  mkRequest (req_Method r) (req_Path r) (req_ContentType r) (req_RemoteAddr r) (req_TLS r) ctx (req_Body r)
    (req_Turns r).

Definition StatusMovedPermanently : Z := 301.
Definition StatusUnauthorized : Z := 401.
Definition StatusNotFound : Z := 404.

(** What a handler writes: the error of [http.Error], a redirection, the message
    or the error of a unary call, or the messages of a stream and how it ended,
    [None] while it runs. *)
Inductive http_response :=
| HttpError (status : Z) (msg : string)
| HttpRedirect (status : Z) (location : string)
| RpcMessage (body : bytes)
| RpcError (e : error)
| RpcStream (sent : list bytes) (ended : option (option error)).

Definition http_Handler (S : Type) : Type := Request -> M S http_response.

Definition http_NotFound {S} : http_Handler S := fun _ => mret (HttpError StatusNotFound "404 page not found").

(** ** [path.Clean] on rooted paths *)

(** [strings.Split(s, "/")], on the characters of a string. *)
Fixpoint split_slash (s : list ascii) (cur : list ascii) : list (list ascii) :=
  match s with
  | [] => [reverse cur]
  | c :: s => if bool_decide (c = "/"%char) then reverse cur :: split_slash s [] else split_slash s (c :: cur)
  end.

Fixpoint join_slash (segs : list (list ascii)) : list ascii :=
  match segs with [] => [] | seg :: segs => "/"%char :: seg ++ join_slash segs end.

(** Empty elements and ["."] disappear, [".."] removes the element before it;
    [kept] is reversed. *)
Definition clean_step (kept : list (list ascii)) (seg : list ascii) : list (list ascii) :=
  if bool_decide (seg = []) || bool_decide (seg = ["."%char]) then kept
  else if bool_decide (seg = ["."%char; "."%char]) then tail kept
  else seg :: kept.

Definition path_Clean (p : list ascii) : list ascii :=
  match reverse (foldl clean_step [] (split_slash p [])) with
  | [] => ["/"%char]
  | segs => join_slash segs
  end.

(** [cleanPath] of [net/http]: rooted and clean, with the slash at its end kept. *)
Definition cleanPath (path : string) : string :=
  match String.list_ascii_of_string path with
  | [] => "/"
  | c :: _ as p =>
      let p := if bool_decide (c = "/"%char) then p else "/"%char :: p in
      let np := path_Clean p in
      String.string_of_list_ascii
        (if bool_decide (list.last p = Some "/"%char) && negb (bool_decide (np = ["/"%char]))
         then np ++ ["/"%char] else np)
  end.

(** ** [ServeMux], with patterns that have neither a method nor a host nor
    wildcards, on paths without percent-encoding *)

Definition ServeMux (S : Type) : Type := list (string * http_Handler S).
Definition NewServeMux {S} : ServeMux S := [].
Definition Handle {S} (pattern : string) (h : http_Handler S) (mux : ServeMux S) : ServeMux S :=
  mux ++ [(pattern, h)].

Definition is_subtree (pattern : string) : bool :=
  bool_decide (list.last (String.list_ascii_of_string pattern) = Some "/"%char).

(** A pattern that ends in a slash matches the paths it is a prefix of. *)
Definition pattern_matches (pattern path : string) : bool :=
  if is_subtree pattern then String.prefix pattern path else bool_decide (pattern = path).

(** The longest pattern that matches. *)
Definition mux_find {S} (mux : ServeMux S) (path : string) : option (string * http_Handler S) :=
  foldl (fun best ph =>
    if pattern_matches ph.1 path then
      match best with
      | Some b => if (String.length b.1 <? String.length ph.1)%nat then Some ph else best
      | None => Some ph
      end
    else best) None mux.

Definition mux_has {S} (mux : ServeMux S) (pattern : string) : bool :=
  existsb (fun ph => bool_decide (ph.1 = pattern)) mux.

(** [matchOrRedirect]: whether [path] is redirected to the subtree it names. *)
Definition mux_redirects {S} (mux : ServeMux S) (path : string) : bool :=
  negb (mux_has mux path) && negb (is_subtree path) && mux_has mux (path +:+ "/").

Definition mux_dispatch {S} (mux : ServeMux S) : http_Handler S := fun r =>
  match mux_find mux (req_Path r) with Some ph => ph.2 r | None => http_NotFound r end.

(** The paths of [CONNECT] requests are not cleaned. *)
Definition mux_ServeHTTP {S} (mux : ServeMux S) : http_Handler S := fun r =>
  let path := if bool_decide (req_Method r = "CONNECT"%string) then req_Path r else cleanPath (req_Path r) in
  if mux_redirects mux path then mret (HttpRedirect StatusMovedPermanently (cleanPath (req_Path r) +:+ "/"))
  else if negb (bool_decide (path = req_Path r)) then mret (HttpRedirect StatusMovedPermanently path)
  else mux_dispatch mux r.

Example clean_up : cleanPath "/a/./b//../c/" = "/a/c/"%string.
Proof. reflexivity. Qed.
Example clean_root : cleanPath "..//." = "/"%string.
Proof. reflexivity. Qed.
