(* ===== verification/Server.v ===== *)
(** [internal/server]: the log service.

    A handler is a computation on a state [S] that holds the commit log it was
    given; the interface [CommitLog] is the source's.  The streaming handlers are
    loops over what the client and the context do: each turn takes that turn's
    part of the environment. *)

From S2P Require Import Prelude Names Http Proto.

Class CommitLog (S : Type) := {
  cl_Append : option record -> M S Z;
  cl_Read : Z -> M S record
}.

(** [server.Config]: its interface value can be [nil]. *)
Record server_Config (S : Type) := mkServerConfig { sc_CommitLog : option (CommitLog S) }.
Arguments mkServerConfig {S} _.
Arguments sc_CommitLog {S} _.

(** ** Calls ([connectrpc.com/connect]) *)

(** [connect.Spec]: the procedure, and the name of the method with that of its
    service when there is a schema. *)
Record Spec := mkSpec { sp_Procedure : string; sp_Schema : option (string * string) }.

(** [connect.Request]: the message, and what an interceptor sees of the call. *)
Record connect_Request (T : Set) := mkConnectRequest { cq_Msg : T; cq_Spec : Spec; cq_Peer : string }.
Arguments mkConnectRequest {T} _ _ _.
Arguments cq_Msg {T} _.
Arguments cq_Spec {T} _.
Arguments cq_Peer {T} _.

(** [&connect.Request[T]{Msg: msg}] *)
Definition msg_request {T : Set} (msg : T) : connect_Request T := mkConnectRequest msg (mkSpec "" None) "".

Definition UnaryFunc (S : Type) (Req Resp : Set) : Type := context -> connect_Request Req -> M S Resp.

(** Interceptors see requests and responses of any message type, and only pass
    the messages on. *)
Definition UnaryInterceptorFunc (S : Type) : Type :=
  forall Req Resp : Set, UnaryFunc S Req Resp -> UnaryFunc S Req Resp.

(** ** Errors ([error.go]) *)

(** [errors.As(err, &target)] with [target] a [*log.ErrOffsetOutOfRange]: the first
    error of that dynamic type in the tree of wrapped errors. *)
Fixpoint errors_As_ptr (e : error) : option Z :=
  match e with
  | PtrErrOffsetOutOfRange off => Some off
  | fmt_wrap _ e => errors_As_ptr e
  | errors_Join es =>
      (fix first (es : list error) : option Z :=
         match es with
         | [] => None
         | e :: es => match errors_As_ptr e with Some off => Some off | None => first es end
         end) es
  | connect_Error _ e _ => errors_As_ptr e
  | _ => None
  end.

(** [errors.As(err, &target)] with [target] a [*connect.Error]: its code. *)
Fixpoint errors_As_connect (e : error) : option code :=
  match e with
  | connect_Error c _ _ => Some c
  | fmt_wrap _ e => errors_As_connect e
  | errors_Join es =>
      (fix first (es : list error) : option code :=
         match es with
         | [] => None
         | e :: es => match errors_As_connect e with Some c => Some c | None => first es end
         end) es
  | _ => None
  end.

(** [connect.CodeOf] *)
Definition connect_CodeOf (e : error) : code := default CodeUnknown (errors_As_connect e).

Definition code_String (c : code) : string :=
  match c with
  | CodeUnknown => "unknown"
  | CodeInvalidArgument => "invalid_argument"
  | CodeInternal => "internal"
  | CodeNotFound => "not_found"
  | CodePermissionDenied => "permission_denied"
  | CodeUnimplemented => "unimplemented"
  end.

Definition out_of_range_message (off : Z) : string :=
  "The requested offset is outside the log's range: " +:+ FormatUint off.

(** (Building the detail does not fail for a message of the library.) *)
Definition addErrOffsetOutOfRangeDetails (off : Z) : error :=
  connect_Error CodeNotFound (PtrErrOffsetOutOfRange off) [("en-US", out_of_range_message off)]%string.

Definition WrapToConnectError (e : error) : error :=
  match errors_As_ptr e with
  | Some off => addErrOffsetOutOfRangeDetails off
  | None => e
  end.

(** [res, err := m(); return res, WrapToConnectError(err)] *)
Definition with_connect_error {S A} (m : M S A) : M S A := fun s =>
  match m s with
  | (Err e, s') => (Err (WrapToConnectError e), s')
  | r => r
  end.

Definition NewErrorInterceptor {S} : UnaryInterceptorFunc S := fun Req Resp next ctx req =>
  with_connect_error (next ctx req).

(** ** Logging ([logging.go]) *)

(** The state of the service: that of the log, the lines of the logger and the
    clock, the time and how far it will have moved at each later reading. *)
Record svc (S : Type) := mkSvc { sv_log : S; sv_lines : list (list (string * string) * (Z * Z)); sv_now : Z; sv_ticks : list Z }.
Arguments mkSvc {S} _ _ _ _.
Arguments sv_log {S} _.
Arguments sv_lines {S} _.
Arguments sv_now {S} _.
Arguments sv_ticks {S} _.

Definition on_commit {S A} (m : M S A) : M (svc S) A :=
  zoom sv_log (fun l s => mkSvc l (sv_lines s) (sv_now s) (sv_ticks s)) m.

Definition time_Now {S} : M (svc S) Z := fun s =>
  let now := sv_now s + List.hd 0 (sv_ticks s) in
  (Ok now, mkSvc (sv_log s) (sv_lines s) now (List.tl (sv_ticks s))).

(** A line: its attributes, with the start and the duration in nanoseconds. *)
Definition logger_Info {S} (attrs : list (string * string)) (start nanos : Z) : M (svc S) unit :=
  modify (fun s => mkSvc (sv_log s) (sv_lines s ++ [(attrs, (start, nanos))]) (sv_now s) (sv_ticks s)).

(** The attributes that name the call. *)
Definition call_attrs (sp : Spec) : list (string * string) :=
  match sp_Schema sp with
  | None => [("grpc.procedure", sp_Procedure sp)]
  | Some (method, service) => [("grpc.method", method); ("grpc.service", service)]
  end%string.

Definition LoggingInterceptor {S} : UnaryInterceptorFunc (svc S) := fun Req Resp next ctx req =>
  now ← time_Now;
  r ← try (next ctx req);
  later ← time_Now;
  let code := match r with inr e => code_String (connect_CodeOf e) | inl _ => "OK"%string end in
  logger_Info ([("grpc.code", code); ("peer.address", cq_Peer req)]%string ++ call_attrs (cq_Spec req))
    now (later - now);;
  match r with inr e => throw (WrapToConnectError e) | inl res => mret res end.

(** ** The handlers ([log.go]) *)

Section handlers.
Context {S : Type} (config : server_Config S).

(** A method of the embedded interface; it panics on [nil]. *)
Definition on_CommitLog {A} (method : CommitLog S -> M S A) : M S A :=
  match sc_CommitLog config with
  | Some cl => method cl
  | None => panic "invalid memory address or nil pointer dereference"
  end.

Definition Consume : UnaryFunc S ConsumeRequest ConsumeResponse := fun _ req =>
  r ← on_CommitLog (fun _ => cl_Read (cr_Offset (cq_Msg req)));
  mret (mkConsumeResponse (Some r)).

Definition Produce : UnaryFunc S ProduceRequest ProduceResponse := fun _ req =>
  off ← on_CommitLog (fun _ => cl_Append (GetRecord (Some (cq_Msg req))));
  mret (mkProduceResponse off).

(** ** [ConsumeStream] *)

(** The handler between two turns of its loop: the offset of the request, the
    records sent so far, and how it returned, if it has. *)
Record consumer := mkConsumer {
  cs_off : Z;
  cs_sent : list ConsumeStreamResponse;
  cs_ret : option (option error)
}.

(** One turn: [done] says whether the context is done, [send] what
    [stream.Send] returns. *)
Definition consume_turn (ctx : context) (done : bool) (send : option error) (c : consumer) : M S consumer :=
  match cs_ret c with
  | Some _ => mret c
  | None =>
      if done then mret (mkConsumer (cs_off c) (cs_sent c) (Some None)) else
      r ← try (Consume ctx (msg_request (mkConsumeRequest (cs_off c))));
      match r with
      | inr (ErrOffsetOutOfRange _) => mret c
      | inr e => mret (mkConsumer (cs_off c) (cs_sent c) (Some (Some (connect_Error CodeInternal e []))))
      | inl res =>
          match send with
          | Some e => mret (mkConsumer (cs_off c) (cs_sent c) (Some (Some (connect_Error CodeInternal e []))))
          | None =>
              mret (mkConsumer (cs_off c +64 1) (cs_sent c ++ [mkConsumeStreamResponse (cresp_Record res)]) None)
          end
      end
  end.

Fixpoint consume_stream (ctx : context) (env : list (bool * option error)) (c : consumer) : M S consumer :=
  match env with
  | [] => mret c
  | (done, send) :: env => c ← consume_turn ctx done send c; consume_stream ctx env c
  end.

Definition consume_start (req : ConsumeStreamRequest) : consumer := mkConsumer (csr_Offset req) [] None.

(** The messages sent during the turns of [env], and how the handler returned. *)
Definition ConsumeStream (ctx : context) (req : connect_Request ConsumeStreamRequest)
    (env : list (bool * option error)) : M S (list ConsumeStreamResponse * option (option error)) :=
  c ← consume_stream ctx env (consume_start (cq_Msg req));
  mret (cs_sent c, cs_ret c).

(** ** [ProduceStream] *)

(** The handler between two turns: the offsets sent, and how it returned. *)
Record producer := mkProducer { ps_sent : list ProduceStreamResponse; ps_ret : option (option error) }.

(** One turn, on what [stream.Receive] and [stream.Send] return. *)
Definition produce_turn (ctx : context) (recv : ProduceStreamRequest + error) (send : option error) (p : producer)
    : M S producer :=
  match ps_ret p with
  | Some _ => mret p
  | None =>
      match recv with
      | inr io_EOF => mret (mkProducer (ps_sent p) (Some None))
      | inr e => mret (mkProducer (ps_sent p) (Some (Some (connect_Error CodeUnknown e []))))
      | inl req =>
          r ← try (Produce ctx (msg_request (mkProduceRequest (psr_Record req))));
          match r with
          | inr e => mret (mkProducer (ps_sent p) (Some (Some (connect_Error CodeInternal e []))))
          | inl res =>
              match send with
              | Some e => mret (mkProducer (ps_sent p) (Some (Some (connect_Error CodeInternal e []))))
              | None => mret (mkProducer (ps_sent p ++ [mkProduceStreamResponse (presp_Offset res)]) None)
              end
          end
      end
  end.

Fixpoint produce_stream (ctx : context) (env : list ((ProduceStreamRequest + error) * option error)) (p : producer)
    : M S producer :=
  match env with
  | [] => mret p
  | (recv, send) :: env => p ← produce_turn ctx recv send p; produce_stream ctx env p
  end.

Definition ProduceStream (ctx : context) (env : list ((ProduceStreamRequest + error) * option error))
    : M S (list ProduceStreamResponse * option (option error)) :=
  p ← produce_stream ctx env (mkProducer [] None);
  mret (ps_sent p, ps_ret p).
End handlers.
