(* ===== verification/ServerProps.v ===== *)
(** The log service over a commit log that keeps its promise.

    [CommitLogLaws] is that promise; the commit log of [internal/log] on a
    working disk discharges it ([log_commit_laws]), and the theorems on the
    handlers are proved against it. *)

From S2P Require Import Prelude Endian OS Proto Wire Config Store Index Names Segment Log LogInv.
From S2P Require Import LogReopen LogSpec Scenario Http Server.

(** [cl_rep s lo recs]: the log holds [recs] from offset [lo] on; [cl_ok r]: a record
    it may be given. *)
Class CommitLogLaws (S : Type) `{CommitLog S} := {
  cl_rep : S -> Z -> list record -> Prop;
  cl_ok : record -> Prop;
  cl_Append_ok r s lo recs off s' :
    cl_rep s lo recs -> cl_ok r -> lo + Z.of_nat (length recs) + 1 < 2 ^ 64 ->
    cl_Append (Some r) s = (Ok off, s') ->
    off = lo + Z.of_nat (length recs) /\ cl_rep s' lo (recs ++ [set_Offset off r]);
  cl_Read_ok off s lo recs :
    cl_rep s lo recs ->
    exists s', cl_Read off s =
      (match spec_read lo recs off with Some r => Ok r | None => Err (ErrOffsetOutOfRange off) end, s') /\
      cl_rep s' lo recs;
  cl_rep_range s lo recs : cl_rep s lo recs -> 0 <= lo /\ lo + Z.of_nat (length recs) < 2 ^ 64
}.

(** A commit log that takes every such record. *)
Class CommitLogTotal (S : Type) `{CommitLogLaws S} := {
  cl_Append_total r s lo recs :
    cl_rep s lo recs -> cl_ok r -> lo + Z.of_nat (length recs) + 1 < 2 ^ 64 ->
    exists off s', cl_Append (Some r) s = (Ok off, s')
}.

(** ** The commit log keeps the promise *)
Section instance.
Context `{Hmsg : ProtoMessage record} {Hlaws : ProtoLaws record record_wf}.

#[export] Instance log_commit : CommitLog lst := {| cl_Append := Log_Append; cl_Read := Log_Read |}.

(** On a working disk, with whatever limits and records. *)
#[export] Program Instance log_commit_laws : CommitLogLaws lst :=
  {| cl_rep := fun s lo recs => log_ready s.1 s.2 lo recs; cl_ok := record_wf |}.
Next Obligation.
  intros r [l w] lo recs off [l' w'] (Hinv & Hcl & Hg) Hwf Hb E. cbn [fst snd cl_Append log_commit] in *.
  pose proof (Log_Append_spec _ _ _ _ _ _ _ _ Hinv Hcl Hwf Hb E) as (_ & _ & -> & H1 & H2 & H3 & _).
  split; [done|]. by split_and!; auto.
Qed.
Next Obligation.
  intros off [l w] lo recs (Hinv & Hcl & Hg). cbn [fst snd] in *.
  cbn [cl_Read log_commit]. destruct (Log_Read off (l, w)) as [o [l' w']] eqn:E.
  pose proof (Log_Read_spec _ _ _ _ _ _ _ _ Hinv E) as (Hinv' & _ & _ & Hc & Ho).
  destruct (spec_read lo recs off) as [r|].
  - destruct Ho as (_ & Ho & Hcl' & _). destruct (Ho Hg) as [-> Hg']. exists (l', w'). split; [done|]. by split_and!; auto.
  - destruct Ho as (-> & -> & ->). exists (l, w). split; [done|]. by split_and!.
Qed.
Next Obligation. intros [l w] lo recs (Hinv & _). by eapply log_inv_range. Qed.

(** With records of [m] bytes in the store at least, and limits for which this is
    enough, the log takes every record ([min_frame]). *)
Definition log_for (m : Z) (s : lst) (lo : Z) (recs : list record) : Prop :=
  log_fit s.1 s.2 lo recs /\ min_frame (l_Config s.1) <= m.

Lemma Log_Append_for m r s lo recs :
  let off := lo + Z.of_nat (length recs) in
  log_for m s lo recs -> record_wf r -> fits m r -> off + 1 < 2 ^ 64 ->
  exists s', Log_Append (Some r) s = (Ok off, s') /\ log_for m s' lo (recs ++ [set_Offset off r]).
Proof.
  destruct s as [l w]. intros off [Hr Hm] Hwf Hft Hb. cbn [fst snd] in *.
  destruct (Log_Append_fit r l w lo recs Hr Hwf (fits_mono _ _ _ Hm Hft) Hb) as (l' & w' & Hrun & Hr' & Hc & _).
  exists (l', w'). split; [done|]. split; [done|]. cbn [fst]. by rewrite Hc.
Qed.

Program Definition log_for_laws (m : Z) : CommitLogLaws lst :=
  {| cl_rep := log_for m; cl_ok := fun r => record_wf r /\ fits m r |}.
Next Obligation.
  intros m r s lo recs off s' Hr [Hwf Hft] Hb E. destruct (Log_Append_for m r s lo recs Hr Hwf Hft Hb) as (s1 & E1 & H).
  cbn [cl_Append log_commit] in E. rewrite E in E1. injection E1 as -> ->. done.
Qed.
Next Obligation.
  intros m off [l w] lo recs [Hr Hm]. cbn [fst snd] in *.
  destruct (Log_Read_fit off l w lo recs Hr) as (l' & w' & Hrun & Hr' & Hc).
  exists (l', w'). split; [exact Hrun|]. split; [done|]. cbn [fst]. by rewrite Hc.
Qed.
Next Obligation. intros m [l w] lo recs [[(Hinv & _) _] _]. by eapply log_inv_range. Qed.

Lemma log_for_total m : @CommitLogTotal lst log_commit (log_for_laws m).
Proof.
  constructor. intros r s lo recs Hr [Hwf Hft] Hb.
  destruct (Log_Append_for m r s lo recs Hr Hwf Hft Hb) as (s1 & E1 & _). eauto.
Qed.
End instance.

Section props.
Context {S : Type} `{Hcl : CommitLog S} {Hcll : CommitLogLaws S}.
Implicit Types (s : S) (lo : Z) (recs : list record) (ctx : context).
Local Abbreviation config := (mkServerConfig (Some Hcl)).
Local Abbreviation sent_of l := (mkConsumeStreamResponse ∘ Some <$> l).

(** ** [ConsumeStream] among other clients *)

(** A step of the system: a turn of the streaming handler, with any state of the
    context and of the connection, or an append by another client. *)
Inductive sys_step : consumer * S -> consumer * S -> Prop :=
| step_turn ctx done send c s c' s' :
    consume_turn config ctx done send c s = (Ok c', s') -> sys_step (c, s) (c', s')
| step_append r c s off s' :
    cl_ok r -> cl_Append (Some r) s = (Ok off, s') -> sys_step (c, s) (c, s').

(** The records of the log from [start] up to [off]. *)
Definition spec_slice lo recs (start off : Z) : list record :=
  take (Z.to_nat (off - start)) (drop (Z.to_nat (start - lo)) recs).

(** What the client has got is the log from the requested offset on. *)
Definition stream_ok (start : Z) (c : consumer) lo recs : Prop :=
  start <= cs_off c /\
  ((lo <= start /\ cs_off c <= lo + Z.of_nat (length recs) /\
    cs_sent c = sent_of (spec_slice lo recs start (cs_off c))) \/
   (cs_off c = start /\ cs_sent c = [])).
Definition stream_inv (start : Z) (c : consumer) s lo recs : Prop := cl_rep s lo recs /\ stream_ok start c lo recs.

Lemma stream_ok_start req lo recs : stream_ok (csr_Offset req) (consume_start req) lo recs.
Proof. split; [cbn; lia|by right]. Qed.

Lemma spec_slice_grow lo recs recs' start off :
  lo <= start -> off <= lo + Z.of_nat (length recs) ->
  spec_slice lo (recs ++ recs') start off = spec_slice lo recs start off.
Proof.
  intros H1 H2. unfold spec_slice. destruct (Z.le_gt_cases off start).
  { replace (Z.to_nat (off - start)) with 0%nat by lia. done. }
  rewrite drop_app_le by lia. rewrite take_app_le; [done|]. rewrite length_drop. lia.
Qed.

Lemma spec_slice_snoc lo recs start off r :
  lo <= start -> start <= off -> spec_read lo recs off = Some r ->
  spec_slice lo recs start (off + 1) = spec_slice lo recs start off ++ [r].
Proof.
  intros H1 H2 Hr. unfold spec_read in Hr. destruct (Z.leb_spec lo off); [|done].
  unfold spec_slice. replace (Z.to_nat (off + 1 - start)) with (Datatypes.S (Z.to_nat (off - start))) by lia.
  apply take_S_r. rewrite lookup_drop. rewrite <- Hr. f_equal. lia.
Qed.

(** Appends do not concern what was sent. *)
Lemma stream_ok_grow start c lo recs recs' : stream_ok start c lo recs -> stream_ok start c lo (recs ++ recs').
Proof.
  intros [Hso [(H1 & H2 & H3)|H]]; (split; [done|]); [left|by right].
  split_and!; [done|len|]. by rewrite spec_slice_grow.
Qed.

Lemma Consume_run ctx req s lo recs :
  let off := cr_Offset (cq_Msg req) in
  cl_rep s lo recs -> exists s', cl_rep s' lo recs /\ Consume config ctx req s =
    (match spec_read lo recs off with
     | Some r => Ok (mkConsumeResponse (Some r))
     | None => Err (ErrOffsetOutOfRange off)
     end, s').
Proof.
  intros off Hr. destruct (cl_Read_ok off s lo recs Hr) as (s' & Hrun & Hr'). exists s'. split; [done|].
  unfold Consume, on_CommitLog, mbind, M_bind. cbn [sc_CommitLog]. fold off. rewrite Hrun. by destruct (spec_read lo recs off).
Qed.

Lemma consume_turn_run ctx done send c s lo recs c' s' :
  cl_rep s lo recs -> consume_turn config ctx done send c s = (Ok c', s') ->
  cl_rep s' lo recs /\
  ((cs_off c' = cs_off c /\ cs_sent c' = cs_sent c) \/
   exists r, cs_ret c = None /\ spec_read lo recs (cs_off c) = Some r /\
     c' = mkConsumer (u64 (cs_off c + 1)) (cs_sent c ++ sent_of [r]) None).
Proof.
  intros Hr Hrun. unfold consume_turn in Hrun.
  destruct (cs_ret c) as [ret|] eqn:Eret; [unfold mret, M_ret in Hrun; simplify_eq; eauto|].
  destruct done; [unfold mret, M_ret in Hrun; simplify_eq; cbn; eauto|].
  destruct (Consume_run ctx (msg_request (mkConsumeRequest (cs_off c))) s lo recs Hr) as (s1 & Hr1 & Hc).
  cbn [cq_Msg msg_request cr_Offset] in Hc.
  unfold mbind, M_bind, try in Hrun. rewrite Hc in Hrun.
  destruct (spec_read lo recs (cs_off c)) as [r|]; cbn in Hrun.
  - destruct send as [e|]; unfold mret, M_ret in Hrun; simplify_eq; (split; [done|]); cbn; eauto.
  - unfold mret, M_ret in Hrun. simplify_eq. eauto.
Qed.

Lemma spec_read_range lo recs off r :
  spec_read lo recs off = Some r -> lo <= off < lo + Z.of_nat (length recs).
Proof.
  unfold spec_read. destruct (Z.leb_spec lo off); [|done]. intros Hl%lookup_lt_Some. lia.
Qed.

(** A turn keeps what the client has got. *)
Lemma consume_turn_ok start ctx done send c s lo recs c' s' :
  stream_inv start c s lo recs -> consume_turn config ctx done send c s = (Ok c', s') ->
  stream_inv start c' s' lo recs.
Proof.
  intros (Hr & Hso & Hor) Hrun.
  destruct (consume_turn_run _ _ _ _ _ _ _ _ _ Hr Hrun) as [Hr' [[Ho Hs]|(r & _ & Hrd & ->)]]; (split; [done|]).
  - unfold stream_ok. by rewrite Ho, Hs.
  - pose proof (spec_read_range _ _ _ _ Hrd) as Hrange.
    destruct (cl_rep_range _ _ _ Hr) as [Hlo Hhi]. rewrite u64_small by in_range.
    split; [cbn; lia|]. cbn. left. destruct Hor as [(H1 & H2 & H3)|[H1 H2]].
    + split_and!; [lia|lia|]. rewrite (spec_slice_snoc _ _ _ _ r) by (done || lia). by rewrite fmap_app, H3.
    + rewrite H1, H2 in *. split_and!; [lia|lia|].
      rewrite (spec_slice_snoc _ _ _ _ r) by (done || lia). unfold spec_slice.
      by replace (Z.to_nat (start - start)) with 0%nat by lia.
Qed.

Lemma sys_step_inv start c s lo recs x :
  stream_inv start c s lo recs -> lo + Z.of_nat (length recs) + 1 < 2 ^ 64 ->
  sys_step (c, s) x ->
  exists recs', stream_inv start x.1 x.2 lo recs' /\ (length recs' <= 1 + length recs)%nat /\ recs `prefix_of` recs'.
Proof.
  intros Hi Hb Hst. inversion Hst as [ctx done send ? ? c' s' Hrun|r ? ? off s' Hwf Hrun]; subst; cbn [fst snd].
  - exists recs. split; [by eapply consume_turn_ok|]. split; [lia|done].
  - destruct Hi as [Hr Hok]. destruct (cl_Append_ok r s lo recs off s' Hr Hwf Hb Hrun) as [-> Hr1].
    eexists. split; [split; [exact Hr1|by apply stream_ok_grow]|]. split; [len|by apply prefix_app_r].
Qed.

Lemma sys_steps_inv n start c s lo recs x :
  stream_inv start c s lo recs -> lo + Z.of_nat (length recs) + Z.of_nat n < 2 ^ 64 ->
  nsteps sys_step n (c, s) x -> exists recs', stream_inv start x.1 x.2 lo recs' /\ recs `prefix_of` recs'.
Proof.
  revert c s recs. induction n as [|n IH]; intros c s recs Hi Hb Hn.
  - inversion Hn; subst. eauto.
  - inversion Hn as [|? ? [c1 s1] ? Hst Hrest]; subst.
    destruct (sys_step_inv _ _ _ _ _ _ Hi ltac:(lia) Hst) as (recs1 & Hi1 & Hl1 & Hp1).
    destruct (IH c1 s1 recs1 Hi1 ltac:(lia) Hrest) as (recs2 & Hi2 & Hp2). exists recs2.
    split; [done|]. by etransitivity.
Qed.

(** C19. [ConsumeStream] sends the log in order without gaps or repetitions: at any
    point of any interleaving of its turns with the appends of other clients, the
    records sent are exactly those from the requested offset up to the current
    one. *)
Theorem consume_stream_exact n req s lo recs c' s' :
  cl_rep s lo recs -> lo <= csr_Offset req <= lo + Z.of_nat (length recs) ->
  lo + Z.of_nat (length recs) + Z.of_nat n < 2 ^ 64 ->
  nsteps sys_step n (consume_start req, s) (c', s') ->
  exists recs', cl_rep s' lo recs' /\ recs `prefix_of` recs' /\
    cs_sent c' = sent_of (spec_slice lo recs' (csr_Offset req) (cs_off c')).
Proof.
  intros Hr Hoff Hb Hn.
  assert (Hi : stream_inv (csr_Offset req) (consume_start req) s lo recs) by (split; [done|apply stream_ok_start]).
  destruct (sys_steps_inv _ _ _ _ _ _ _ Hi Hb Hn) as (recs' & (Hr' & _ & Hor) & Hp). cbn [fst snd] in *.
  exists recs'. split_and!; [done|done|]. destruct Hor as [(_ & _ & ->)|[-> ->]]; [done|].
  unfold spec_slice. by replace (Z.to_nat (csr_Offset req - csr_Offset req)) with 0%nat by lia.
Qed.

(** [ConsumeStream] makes progress: a turn with a live context and connection,
    on a log that has the requested offset, sends its record and moves on. *)
Theorem consume_turn_progress ctx c s lo recs r :
  cl_rep s lo recs -> cs_ret c = None -> spec_read lo recs (cs_off c) = Some r ->
  exists s', consume_turn config ctx false None c s =
    (Ok (mkConsumer (cs_off c + 1) (cs_sent c ++ [mkConsumeStreamResponse (Some r)]) None), s') /\ cl_rep s' lo recs.
Proof.
  intros Hr Hret Hrd. destruct (Consume_run ctx (msg_request (mkConsumeRequest (cs_off c))) s lo recs Hr) as (s1 & Hr1 & Hc).
  cbn [cq_Msg msg_request cr_Offset] in Hc.
  exists s1. split; [|done]. unfold consume_turn. rewrite Hret. unfold mbind, M_bind, try. rewrite Hc, Hrd.
  pose proof (spec_read_range _ _ _ _ Hrd). destruct (cl_rep_range _ _ _ Hr).
  cbn. unfold mret, M_ret. by rewrite u64_small by in_range.
Qed.

(** ** Producing *)

Section total.
Context {Htot : CommitLogTotal S}.

Lemma Produce_run ctx r s lo recs :
  cl_rep s lo recs -> cl_ok r -> lo + Z.of_nat (length recs) + 1 < 2 ^ 64 ->
  let off := lo + Z.of_nat (length recs) in
  forall req, cq_Msg req = mkProduceRequest (Some r) ->
  exists s', Produce config ctx req s = (Ok (mkProduceResponse off), s') /\
    cl_rep s' lo (recs ++ [set_Offset off r]).
Proof.
  intros Hr Hw Hb off req Hreq. destruct (cl_Append_total r s lo recs Hr Hw Hb) as (off' & s' & Hrun).
  destruct (cl_Append_ok r s lo recs off' s' Hr Hw Hb Hrun) as [-> Hr'].
  exists s'. split; [|done]. unfold Produce, on_CommitLog. rewrite Hreq. cbn.
  by rewrite (bind_Ok _ _ _ _ _ Hrun).
Qed.

(** The client sends [rs], takes every answer and closes its side. *)
Definition client_sends (rs : list record) : list ((ProduceStreamRequest + error) * option error) :=
  ((fun r => (inl (mkProduceStreamRequest (Some r)), None)) <$> rs) ++ [(inr io_EOF, None)].

Lemma produce_stream_run ctx rs sent s lo recs :
  cl_rep s lo recs -> Forall cl_ok rs -> lo + Z.of_nat (length recs + length rs) < 2 ^ 64 ->
  let next := lo + Z.of_nat (length recs) in
  exists s', produce_stream config ctx (client_sends rs) (mkProducer sent None) s =
      (Ok (mkProducer (sent ++ ((fun i => mkProduceStreamResponse (next + Z.of_nat i)) <$> seq 0 (length rs)))
             (Some None)), s') /\
    cl_rep s' lo (recs ++ imap (fun i r => set_Offset (next + Z.of_nat i) r) rs).
Proof.
  revert sent s recs. induction rs as [|r rs IH]; intros sent s recs Hr Hwf Hb next.
  { exists s. cbn. rewrite !app_nil_r. done. }
  apply list.Forall_cons in Hwf as [Hw Hwf]. cbn [length] in Hb.
  destruct (Produce_run ctx r s lo recs Hr Hw ltac:(lia) (msg_request (mkProduceRequest (Some r))) eq_refl)
    as (s1 & Hrun & Hr1).
  destruct (IH (sent ++ [mkProduceStreamResponse next]) s1 _ Hr1 Hwf ltac:(len)) as (s2 & Hrun2 & Hr2).
  exists s2. split.
  - unfold client_sends. rewrite fmap_cons. cbn [app produce_stream].
    erewrite bind_Ok by (unfold produce_turn, try, mbind, M_bind; cbn [ps_ret psr_Record]; rewrite Hrun; reflexivity).
    cbn. unfold client_sends in Hrun2. unfold next in *. rewrite Hrun2. do 3 f_equal.
    rewrite <- app_assoc. f_equal. cbn. f_equal; [f_equal; lia|].
    rewrite <- fmap_S_seq, <- list_fmap_compose. apply list_fmap_ext. intros _ i _. cbn. f_equal. len.
  - cbn. rewrite <- app_assoc in Hr2. cbn in Hr2. rewrite Z.add_0_r.
    erewrite imap_ext; [exact Hr2|]. intros i x _. cbn. f_equal. unfold next. len.
Qed.

(** C9. [ProduceStream] answers every record of the client with its offset, in
    order, until the client closes the stream: the offsets are consecutive and the
    log has the records there.  The commit log is any that keeps the laws of the
    interface and takes every record that is [cl_ok] (the program's log is one on a
    working disk, for records that fill a segment's store before its index), and
    the offsets stay below 2^64. *)
Theorem produce_stream_offsets ctx rs s lo recs :
  cl_rep s lo recs -> Forall cl_ok rs -> lo + Z.of_nat (length recs + length rs) < 2 ^ 64 ->
  let next := lo + Z.of_nat (length recs) in
  exists s', ProduceStream config ctx (client_sends rs) s =
      (Ok ((fun i => mkProduceStreamResponse (next + Z.of_nat i)) <$> seq 0 (length rs), Some None), s') /\
    cl_rep s' lo (recs ++ imap (fun i r => set_Offset (next + Z.of_nat i) r) rs).
Proof.
  intros Hr Hwf Hb next. destruct (produce_stream_run ctx rs [] s lo recs Hr Hwf Hb) as (s' & H1 & H2).
  exists s'. split; [|done]. unfold ProduceStream. by rewrite (bind_Ok _ _ _ _ _ H1).
Qed.

End total.

(** ** Errors *)

(** The error interceptors do not recognise the error of the log: the service
    returns [ErrOffsetOutOfRange] as it is, with code [Unknown] instead of
    [NotFound], because they look for a pointer. *)
Theorem consume_out_of_range_unknown ctx req s lo recs :
  let off := cr_Offset (cq_Msg req) in
  cl_rep s lo recs -> spec_read lo recs off = None ->
  exists e, (NewErrorInterceptor _ _ (Consume config) ctx req s).1 = Err e /\
    e = ErrOffsetOutOfRange off /\ connect_CodeOf e = CodeUnknown.
Proof.
  intros off Hr Hnone. destruct (Consume_run ctx req s lo recs Hr) as (s1 & Hr1 & Hc).
  exists (ErrOffsetOutOfRange off). unfold NewErrorInterceptor, with_connect_error.
  fold off in Hc. rewrite Hnone in Hc. by rewrite Hc.
Qed.
End props.


(** ** Witnesses *)
Module ServerWitness.
Import Wire Scenario.

Definition two : list record := [mkRecord abc 5 7 1; mkRecord abc 6 7 1].
Definition s2 : lst := wit_append (wit_append (wit_new small)).

Lemma s2_rep : cl_rep s2 5 two.
Proof. exact small_two. Qed.

Lemma plain_for : log_for 13 (wit_new plain) 5 [].
Proof.
  destruct (wit_new_fit plain plain_limits) as [Hr Hc]; [by vm_compute|].
  split; [exact Hr|]. rewrite Hc, plain_min. done.
Qed.

Lemma abc_ok : @cl_ok lst log_commit (log_for_laws 13) (wit_record abc).
Proof. split; [by vm_compute|by apply abc_fits]. Qed.

Definition cfg : server_Config lst := mkServerConfig (Some log_commit).
Definition root : context := mkContext (Some "root"%string).
Definition first_turn := consume_turn cfg root false None (consume_start (mkConsumeStreamRequest 5)) s2.

Lemma consume_stream_exact_witness :
  exists c' s' recs', first_turn = (Ok c', s') /\ cl_rep s' 5 recs' /\ two `prefix_of` recs' /\
    cs_sent c' = mkConsumeStreamResponse ∘ Some <$> spec_slice 5 recs' 5 (cs_off c').
Proof.
  destruct first_turn as [o s'] eqn:E.
  assert (Ho : is_ok first_turn.1 = true) by (by vm_compute).
  rewrite E in Ho. destruct o as [c'| |]; [|discriminate Ho..].
  destruct (consume_stream_exact 1 (mkConsumeStreamRequest 5) s2 5 two c' s' s2_rep) as (recs' & H1 & H2 & H3).
  - cbn. lia.
  - cbn. lia.
  - eapply nsteps_l; [|apply nsteps_O]. eapply step_turn. exact E.
  - exists c', s', recs'. split; [exact eq_refl|]. split; [exact H1|]. split; [exact H2|exact H3].
Defined.

Lemma consume_turn_progress_witness :
  exists s', consume_turn cfg root false None (mkConsumer 6 [] None) s2 =
    (Ok (mkConsumer 7 [mkConsumeStreamResponse (Some (mkRecord abc 6 7 1))] None), s') /\ cl_rep s' 5 two.
Proof.
  exact (consume_turn_progress root (mkConsumer 6 [] None) s2 5 two (mkRecord abc 6 7 1) s2_rep eq_refl eq_refl).
Defined.

Lemma produce_stream_offsets_witness :
  exists s', ProduceStream cfg root (client_sends [wit_record abc; wit_record abc]) (wit_new plain) =
      (Ok ([mkProduceStreamResponse 5; mkProduceStreamResponse 6], Some None), s') /\
    log_for 13 s' 5 [mkRecord abc 5 7 1; mkRecord abc 6 7 1].
Proof.
  refine (produce_stream_offsets (Hcll := log_for_laws 13) (Htot := log_for_total 13) root
            [wit_record abc; wit_record abc] (wit_new plain) 5 [] plain_for _ _).
  - apply list.Forall_cons; split; [exact abc_ok|]. apply list.Forall_cons; split; [exact abc_ok|constructor].
  - cbn. lia.
Defined.

Lemma consume_out_of_range_unknown_witness :
  exists e, (NewErrorInterceptor _ _ (Consume cfg) root (msg_request (mkConsumeRequest 9)) s2).1 = Err e /\
    e = ErrOffsetOutOfRange 9 /\ connect_CodeOf e = CodeUnknown.
Proof.
  exact (consume_out_of_range_unknown root (msg_request (mkConsumeRequest 9)) s2 5 two s2_rep eq_refl).
Defined.
End ServerWitness.
