(* ===== verification/Cluster.v ===== *)
(** The whole system: a cluster of nodes that replicate one log.

    Raft is a dependency, and what a cluster relies on is its documented
    guarantee: there is one sequence of committed entries, and every node's state
    machine is given these entries in order.  A node is the commit log of its
    state machine with its disk, the number of entries it has applied, and the
    streams its service has open.  What a node does is the code: [fsm_Apply] for
    an entry, the turns of [ConsumeStream], and [Read]; the steps of all nodes
    interleave arbitrarily.

    The abstract log of the cluster is [log_of]: the records of the committed
    append requests, numbered in order. *)

From coqutil Require Import Byte.
From S2P Require Import Prelude Endian OS Proto Wire Config Store Index Names Segment Log LogInv.
From S2P Require Import LogReopen LogSpec.
From S2P Require Import Scenario Raft Fsm FsmProps Http Server ServerProps.

Section cluster.
Context `{Hmsg : ProtoMessage record} {Hlaws : ProtoLaws record record_wf}.
Context `{Hreq : ProtoMessage ProduceRequest} {Hreqlaws : ProtoLaws ProduceRequest ProduceRequest_wf}.
(** The bytes that a record of the cluster takes of a store at least ([min_frame]). *)
Context (sz : Z).

(** ** The abstract log *)

Definition entry_record (data : bytes) : option record :=
  match data with
  | t :: b =>
      if byte_val t =? AppendRequestType then
        match (Unmarshal b : outcome ProduceRequest) with Ok req => GetRecord (Some req) | _ => None end
      else None
  | [] => None
  end.

Definition log_of (lo : Z) (entries : list bytes) : list record :=
  imap (fun i r => set_Offset (lo + Z.of_nat i) r) (omap entry_record entries).

(** The entries the nodes submit: append requests of [Log.Append] with a record, or
    entries of a later version with another type.  (An append without a record stops
    the state machine, see [apply_nil_record].) *)
Definition entry_submitted (data : bytes) : Prop :=
  exists c, command_wf c /\ command_fits sz c /\ command_data c data.

(** ** Nodes and their steps *)

Record node := mkNode {
  nd_log : lst;
  nd_applied : nat;
  nd_streams : list (Z * consumer)
}.
Record cluster := mkCluster { cu_committed : list bytes; cu_nodes : gmap string node }.

(** The service reads the commit log of the node. *)
Definition node_config : server_Config lst := mkServerConfig (Some log_commit).

Inductive cluster_step : cluster -> cluster -> Prop :=
| step_commit ds ns data :
    entry_submitted data -> cluster_step (mkCluster ds ns) (mkCluster (ds ++ [data]) ns)
| step_apply ds ns n nd data o s' :
    ns !! n = Some nd -> ds !! nd_applied nd = Some data -> fsm_Apply data (nd_log nd) = (o, s') ->
    cluster_step (mkCluster ds ns) (mkCluster ds (<[n := mkNode s' (S (nd_applied nd)) (nd_streams nd)]> ns))
| step_open ds ns n nd req :
    ns !! n = Some nd ->
    cluster_step (mkCluster ds ns)
      (mkCluster ds (<[n := mkNode (nd_log nd) (nd_applied nd)
                              (nd_streams nd ++ [(csr_Offset req, consume_start req)])]> ns))
| step_stream ds ns n nd i start c ctx done send c' s' :
    ns !! n = Some nd -> nd_streams nd !! i = Some (start, c) ->
    consume_turn node_config ctx done send c (nd_log nd) = (Ok c', s') ->
    cluster_step (mkCluster ds ns)
      (mkCluster ds (<[n := mkNode s' (nd_applied nd) (<[i := (start, c')]> (nd_streams nd))]> ns))
| step_consume ds ns n nd off o s' :
    ns !! n = Some nd -> Log_Read off (nd_log nd) = (o, s') ->
    cluster_step (mkCluster ds ns) (mkCluster ds (<[n := mkNode s' (nd_applied nd) (nd_streams nd)]> ns)).

(** The start: nodes whose logs are new, on disks that work, with one first offset
    and with segment limits for which the records are large enough. *)
Definition node_new (lo : Z) (nd : node) : Prop :=
  log_for sz (nd_log nd) lo [] /\ nd_applied nd = 0%nat /\ nd_streams nd = [].
Definition cluster_new (lo : Z) (c : cluster) : Prop :=
  cu_committed c = [] /\ map_Forall (fun _ => node_new lo) (cu_nodes c).

(** ** Lemmas on the abstract log *)

Lemma entry_record_append r data :
  record_wf r -> command_data (CmdAppend r) data -> entry_record data = Some r.
Proof.
  intros Hw (b & Hm & ->). cbn [entry_record]. replace (byte_val (byte_of 0) =? AppendRequestType) with true by reflexivity.
  by rewrite (Unmarshal_Marshal (mkProduceRequest (Some r)) b Hw Hm).
Qed.

Lemma entry_record_other t b : byte_val t <> AppendRequestType -> entry_record (t :: b) = None.
Proof. intros Ht. cbn. by destruct (Z.eqb_spec (byte_val t) AppendRequestType). Qed.

Lemma log_of_app lo ds ds' :
  log_of lo (ds ++ ds') = log_of lo ds ++ log_of (lo + Z.of_nat (length (log_of lo ds))) ds'.
Proof.
  unfold log_of. rewrite omap_app, imap_app, length_imap. f_equal. apply imap_ext. intros i r _. cbn. f_equal. lia.
Qed.

Lemma log_of_snoc lo ds data :
  log_of lo (ds ++ [data]) =
    log_of lo ds ++ match entry_record data with
                    | Some r => [set_Offset (lo + Z.of_nat (length (log_of lo ds))) r]
                    | None => []
                    end.
Proof. rewrite log_of_app. f_equal. unfold log_of at 1. cbn. destruct (entry_record data); cbn; [|done]. by rewrite Z.add_0_r. Qed.

Lemma length_log_of lo ds : (length (log_of lo ds) <= length ds)%nat.
Proof.
  unfold log_of. rewrite length_imap. induction ds as [|d ds IH]; [done|]. cbn. destruct (entry_record d); cbn; lia.
Qed.

Lemma log_of_prefix lo ds ds' : ds `prefix_of` ds' -> log_of lo ds `prefix_of` log_of lo ds'.
Proof. intros [k ->]. rewrite log_of_app. by apply prefix_app_r. Qed.

(** One entry on a node whose log is that of the entries before. *)
Lemma fsm_Apply_entry lo ds data s :
  log_for sz s lo (log_of lo ds) -> entry_submitted data -> lo + Z.of_nat (length ds) + 1 < 2 ^ 64 ->
  exists resp s', fsm_Apply data s = (Ok resp, s') /\ log_for sz s' lo (log_of lo (ds ++ [data])) /\
    match entry_record data with
    | Some r => resp = RespProduce (mkProduceResponse (lo + Z.of_nat (length (log_of lo ds))))
    | None => resp = RespNil
    end.
Proof.
  destruct s as [l w]. intros [Hr Hm] (c & Hw & Hft & Hd) Hb. cbn [fst snd] in *. pose proof (length_log_of lo ds).
  destruct (fsm_Apply_spec c data l w lo (log_of lo ds) Hr Hw (command_fits_mono _ _ _ Hm Hft) Hd ltac:(lia)) as (l' & w' & Hrun & Hr' & Hc).
  eexists _, (l', w'). split; [exact Hrun|]. rewrite log_of_snoc. destruct c as [r|t b].
  - rewrite (entry_record_append r data Hw Hd). split; [|done]. split; [exact Hr'|by rewrite <- Hc in Hm].
  - cbn in Hw, Hd. subst data. rewrite entry_record_other by done. rewrite app_nil_r.
    split; [|done]. split; [exact Hr'|by rewrite <- Hc in Hm].
Qed.
End cluster.
