(* ===== verification/ClusterProps.v ===== *)
(** The cluster implements its abstract log.

    The invariant says that a node's commit log is the abstract log of the
    entries it has applied, and that its streams have sent pieces of it; every
    step of every node keeps it.  What the clients of different nodes see
    follows. *)

From coqutil Require Import Byte.
From S2P Require Import Prelude Endian OS Proto Wire Config Store Index Names Segment Log LogInv.
From S2P Require Import LogReopen LogSpec.
From S2P Require Import Scenario Raft Fsm FsmProps Http Server ServerProps Cluster.

Section props.
Context `{Hmsg : ProtoMessage record} {Hlaws : ProtoLaws record record_wf}.
Context `{Hreq : ProtoMessage ProduceRequest} {Hreqlaws : ProtoLaws ProduceRequest ProduceRequest_wf}.
Context (sz : Z).
Implicit Types (lo off : Z) (ds : list bytes) (nd : node) (c : cluster).

(** ** The invariant *)

(** The records of a node after the entries it has applied. *)
Definition node_recs lo ds nd : list record := log_of lo (take (nd_applied nd) ds).

Definition node_inv lo ds nd : Prop :=
  (nd_applied nd <= length ds)%nat /\ log_for sz (nd_log nd) lo (node_recs lo ds nd) /\
  Forall (fun sc => stream_ok sc.1 sc.2 lo (node_recs lo ds nd)) (nd_streams nd).

Definition cluster_inv lo c : Prop :=
  Forall (entry_submitted sz) (cu_committed c) /\ map_Forall (fun _ => node_inv lo (cu_committed c)) (cu_nodes c).

Lemma cluster_new_inv lo c : cluster_new sz lo c -> cluster_inv lo c.
Proof.
  destruct c as [ds ns]. intros [Hds Hns]. cbn in *. subst ds. split; [constructor|].
  intros n nd Hn. destruct (Hns n nd Hn) as (Hr & Ha & Hs). unfold node_inv, node_recs. rewrite Ha, Hs. cbn. eauto.
Qed.

(** More committed entries do not concern a node. *)
Lemma node_inv_commit lo ds data nd : node_inv lo ds nd -> node_inv lo (ds ++ [data]) nd.
Proof. intros (Ha & H). unfold node_inv, node_recs. rewrite take_app_le by done. split; [len|done]. Qed.

(** A node replaced by one that satisfies the invariant. *)
Lemma cluster_inv_insert lo ds ns n nd :
  cluster_inv lo (mkCluster ds ns) -> node_inv lo ds nd -> cluster_inv lo (mkCluster ds (<[n := nd]> ns)).
Proof. intros [Hok Hns] Hnd. split; [done|]. by apply map_Forall_insert_2. Qed.

Lemma cluster_inv_node lo ds ns n nd :
  cluster_inv lo (mkCluster ds ns) -> ns !! n = Some nd -> node_inv lo ds nd.
Proof. intros [_ Hns] Hn. by apply (Hns n). Qed.

(** Applying the next entry. *)
Lemma node_inv_apply lo ds nd data o s' :
  Forall (entry_submitted sz) ds -> lo + Z.of_nat (length ds) < 2 ^ 64 ->
  node_inv lo ds nd -> ds !! nd_applied nd = Some data -> fsm_Apply data (nd_log nd) = (o, s') ->
  node_inv lo ds (mkNode s' (S (nd_applied nd)) (nd_streams nd)) /\
  match entry_record data with
  | Some r => o = Ok (RespProduce (mkProduceResponse (lo + Z.of_nat (length (node_recs lo ds nd)))))
  | None => o = Ok RespNil
  end.
Proof.
  intros Hok Hb (Ha & Hr & Hs) Hd Hrun. pose proof (lookup_lt_Some _ _ _ Hd).
  destruct (fsm_Apply_entry sz lo (take (nd_applied nd) ds) data (nd_log nd)) as (resp & s1 & Hrun1 & Hr1 & Hresp).
  { exact Hr. } { by eapply Forall_lookup_1. } { rewrite length_take. lia. }
  rewrite Hrun1 in Hrun. simplify_eq. rewrite <- (take_S_r _ _ _ Hd) in Hr1. split.
  - split_and!; [cbn; lia|exact Hr1|]. eapply list.Forall_impl; [exact Hs|]. intros [start c] Hst.
    unfold node_recs. cbn [nd_applied]. rewrite (take_S_r _ _ _ Hd), log_of_snoc. by apply stream_ok_grow.
  - by destruct (entry_record data); subst resp.
Qed.

Lemma cluster_step_inv lo c c' :
  cluster_step sz c c' -> lo + Z.of_nat (length (cu_committed c')) < 2 ^ 64 -> cluster_inv lo c -> cluster_inv lo c'.
Proof.
  intros Hst Hb Hinv.
  destruct Hst as [ds ns data Hok|ds ns n nd data o s' Hn Hd Hrun|ds ns n nd req Hn
                  |ds ns n nd i start c ctx dn send c' s' Hn Hi Hrun|ds ns n nd off o s' Hn Hrun]; cbn [cu_committed] in Hb.
  - destruct Hinv as [Hall Hns]. split; cbn in *; [apply list.Forall_app; eauto|].
    intros n nd Hn. by apply node_inv_commit, (Hns n).
  - apply cluster_inv_insert; [done|]. pose proof (cluster_inv_node _ _ _ _ _ Hinv Hn) as Hnd.
    destruct Hinv as [Hok _]. exact (proj1 (node_inv_apply _ _ _ _ _ _ Hok Hb Hnd Hd Hrun)).
  - apply cluster_inv_insert; [done|]. destruct (cluster_inv_node _ _ _ _ _ Hinv Hn) as (Ha & Hr & Hs).
    split_and!; [done..|]. cbn. apply list.Forall_app. split; [done|]. constructor; [apply stream_ok_start|done].
  - apply cluster_inv_insert; [done|]. destruct (cluster_inv_node _ _ _ _ _ Hinv Hn) as (Ha & Hr & Hs).
    destruct (consume_turn_ok (Hcll := log_for_laws sz) start ctx dn send c (nd_log nd) lo (node_recs lo ds nd) c' s') as [Hr' Hc'];
      [split; [done|by apply (Forall_lookup_1 _ _ _ _ Hs Hi)]|exact Hrun|].
    split_and!; [done..|]. cbn. by apply Forall_insert.
  - apply cluster_inv_insert; [done|]. destruct (cluster_inv_node _ _ _ _ _ Hinv Hn) as (Ha & Hr & Hs).
    destruct (cl_Read_ok (CommitLogLaws := log_for_laws sz) off (nd_log nd) _ _ Hr) as (s1 & Hrun1 & Hr1).
    change (cl_Read off) with (Log_Read off) in Hrun1. rewrite Hrun1 in Hrun. by simplify_eq.
Qed.

Lemma committed_grows c c' : rtc (cluster_step sz) c c' -> cu_committed c `prefix_of` cu_committed c'.
Proof.
  induction 1 as [|c c1 c' Hst _ IH]; [done|]. etransitivity; [|exact IH].
  destruct Hst; cbn; try done. by apply prefix_app_r.
Qed.

Lemma cluster_steps_inv lo c c' :
  rtc (cluster_step sz) c c' -> lo + Z.of_nat (length (cu_committed c')) < 2 ^ 64 -> cluster_inv lo c -> cluster_inv lo c'.
Proof.
  induction 1 as [|c c1 c' Hst Hrest IH]; intros Hb Hinv; [done|]. apply IH; [done|].
  eapply cluster_step_inv; [done| |done]. pose proof (prefix_length _ _ (committed_grows _ _ Hrest)). lia.
Qed.

Lemma cluster_reach lo c0 c n nd :
  cluster_new sz lo c0 -> rtc (cluster_step sz) c0 c -> lo + Z.of_nat (length (cu_committed c)) < 2 ^ 64 ->
  cu_nodes c !! n = Some nd -> node_inv lo (cu_committed c) nd.
Proof.
  intros Hnew Hst Hb Hn. destruct (cluster_steps_inv _ _ _ Hst Hb (cluster_new_inv _ _ Hnew)) as [_ Hns]. by apply (Hns n).
Qed.

(** What [Read] answers on a node: the abstract log of its entries. *)
Lemma node_Read lo ds nd off :
  node_inv lo ds nd ->
  (Log_Read off (nd_log nd)).1 =
    match spec_read lo (node_recs lo ds nd) off with Some r => Ok r | None => Err (ErrOffsetOutOfRange off) end.
Proof.
  intros (_ & Hr & _). destruct (cl_Read_ok (CommitLogLaws := log_for_laws sz) off (nd_log nd) _ _ Hr) as (s' & Hrun & _).
  change (cl_Read off) with (Log_Read off) in Hrun. by rewrite Hrun.
Qed.

Lemma node_recs_le lo ds nd nd' :
  (nd_applied nd <= nd_applied nd')%nat -> node_recs lo ds nd `prefix_of` node_recs lo ds nd'.
Proof. intros H. apply log_of_prefix. exists (drop (nd_applied nd) (take (nd_applied nd') ds)).
  rewrite <- (take_drop (nd_applied nd) (take (nd_applied nd') ds)) at 1. by rewrite take_take, Nat.min_l. Qed.

(** ** What the clients see *)

(** C2. The cluster is one log: after any interleaving of commits, applications,
    streams and reads on all nodes, every node answers [Read] from the abstract log
    of the committed entries it has applied, and a node that is behind never
    contradicts one that is ahead.  The nodes start with new logs on disks that work,
    with any segment limits; the committed records are well-typed and so large (at
    least [sz] bytes of a store, [min_frame] of every node's limits: 13 for the default
    limits) that no segment's index is out of room before its store is full; offsets
    stay below 2^64. *)
Theorem cluster_agreement lo c0 c n nd :
  cluster_new sz lo c0 -> rtc (cluster_step sz) c0 c -> lo + Z.of_nat (length (cu_committed c)) < 2 ^ 64 ->
  cu_nodes c !! n = Some nd ->
  (forall off, (Log_Read off (nd_log nd)).1 =
     match spec_read lo (log_of lo (take (nd_applied nd) (cu_committed c))) off with
     | Some r => Ok r
     | None => Err (ErrOffsetOutOfRange off)
     end) /\
  (forall m nd' off r, cu_nodes c !! m = Some nd' -> (nd_applied nd <= nd_applied nd')%nat ->
     (Log_Read off (nd_log nd)).1 = Ok r -> (Log_Read off (nd_log nd')).1 = Ok r).
Proof.
  intros Hnew Hst Hb Hn. pose proof (cluster_reach _ _ _ _ _ Hnew Hst Hb Hn) as Hi.
  split; [intros off; by apply node_Read|]. intros m nd' off r Hm Hle.
  rewrite (node_Read _ _ _ off Hi), (node_Read _ _ _ off (cluster_reach _ _ _ _ _ Hnew Hst Hb Hm)).
  destruct (spec_read lo (node_recs lo (cu_committed c) nd) off) as [r'|] eqn:E; [|done].
  intros [= ->]. by rewrite (spec_read_prefix _ _ _ _ _ (node_recs_le lo _ _ _ Hle) E).
Qed.

Lemma drop_prefix {A} k (l l' : list A) : l `prefix_of` l' -> drop k l `prefix_of` drop k l'.
Proof. intros [m ->]. rewrite drop_app. by apply prefix_app_r. Qed.

Lemma spec_slice_prefix lo recs start off :
  spec_slice lo recs start off `prefix_of` drop (Z.to_nat (start - lo)) recs.
Proof. apply prefix_take. Qed.

Lemma stream_ok_sent start sc lo recs recs' :
  stream_ok start sc lo recs -> recs `prefix_of` recs' ->
  exists l, cs_sent sc = mkConsumeStreamResponse ∘ Some <$> l /\ cs_off sc = start + Z.of_nat (length l) /\
    l `prefix_of` drop (Z.to_nat (start - lo)) recs' /\ (start < lo -> l = []).
Proof.
  intros [Hs [(H1 & H2 & H3)|[H1 H2]]] Hp.
  - exists (spec_slice lo recs start (cs_off sc)). split_and!; [done| | |lia].
    + unfold spec_slice. rewrite length_take, length_drop. lia.
    + etransitivity; [apply spec_slice_prefix|by apply drop_prefix].
  - exists []. split_and!; [done|cbn; lia|by apply prefix_nil|done].
Qed.

(** C4. Streams of different nodes tell the same story: what any stream of any node
    has sent, at any point, is a beginning of the one abstract log of the committed
    entries from the requested offset on, and the stream goes on at the offset
    behind it.  The cluster is that of [cluster_agreement]: new logs on working disks,
    records of at least [sz] bytes of a store, which is enough for the segment limits
    of every node, and offsets below 2^64. *)
Theorem streams_agree lo c0 c n nd start sc :
  cluster_new sz lo c0 -> rtc (cluster_step sz) c0 c -> lo + Z.of_nat (length (cu_committed c)) < 2 ^ 64 ->
  cu_nodes c !! n = Some nd -> (start, sc) ∈ nd_streams nd ->
  exists l, cs_sent sc = mkConsumeStreamResponse ∘ Some <$> l /\ cs_off sc = start + Z.of_nat (length l) /\
    l `prefix_of` drop (Z.to_nat (start - lo)) (log_of lo (cu_committed c)) /\ (start < lo -> l = []).
Proof.
  intros Hnew Hst Hb Hn Hin. destruct (cluster_reach _ _ _ _ _ Hnew Hst Hb Hn) as (_ & _ & Hs).
  rewrite Forall_forall in Hs. apply list_elem_of_In in Hin. apply (stream_ok_sent _ _ _ _ _ (Hs _ Hin)).
  apply log_of_prefix, prefix_take.
Qed.

(** The record of an entry in the abstract log. *)
Lemma log_of_entry lo ds i data r :
  ds !! i = Some data -> entry_record data = Some r ->
  let off := lo + Z.of_nat (length (log_of lo (take i ds))) in
  forall k, (i < k)%nat -> spec_read lo (log_of lo (take k ds)) off = Some (set_Offset off r).
Proof.
  intros Hd Hr off k Hk. eapply spec_read_prefix.
  { apply (log_of_prefix lo (take (S i) ds)). exists (drop (S i) (take k ds)).
    rewrite <- (take_drop (S i) (take k ds)) at 1. by rewrite take_take, Nat.min_l by lia. }
  rewrite (take_S_r _ _ _ Hd), log_of_snoc, Hr. unfold spec_read.
  destruct (Z.leb_spec lo off); [|lia]. rewrite lookup_app_r by lia.
  replace (Z.to_nat (off - lo) - length (log_of lo (take i ds)))%nat with 0%nat by lia. done.
Qed.

(** The state after node [n] has applied its next entry. *)
Definition applied_at c n nd (s' : lst) : cluster :=
  mkCluster (cu_committed c) (<[n := mkNode s' (S (nd_applied nd)) (nd_streams nd)]> (cu_nodes c)).

(** An acknowledged record stays: when [Apply] on some node answers an entry with
    an offset, then from there on every node that has applied this entry has its
    record at this offset, whatever else happens in the cluster. *)
Lemma acked_everywhere lo c0 c1 n nd data off s' c2 m nd2 :
  cluster_new sz lo c0 -> rtc (cluster_step sz) c0 c1 -> cu_nodes c1 !! n = Some nd ->
  cu_committed c1 !! nd_applied nd = Some data ->
  fsm_Apply data (nd_log nd) = (Ok (RespProduce (mkProduceResponse off)), s') ->
  rtc (cluster_step sz) (applied_at c1 n nd s') c2 ->
  lo + Z.of_nat (length (cu_committed c2)) < 2 ^ 64 ->
  cu_nodes c2 !! m = Some nd2 -> (nd_applied nd < nd_applied nd2)%nat ->
  exists r, entry_record data = Some r /\ (Log_Read off (nd_log nd2)).1 = Ok (set_Offset off r).
Proof.
  intros Hnew H1 Hn Hd Hrun H2 Hb Hm Hlt.
  pose proof (committed_grows _ _ H2) as Hg. cbn in Hg.
  assert (Hb1 : lo + Z.of_nat (length (cu_committed c1)) < 2 ^ 64) by (apply prefix_length in Hg; lia).
  pose proof (cluster_steps_inv _ _ _ H1 Hb1 (cluster_new_inv _ _ Hnew)) as Hi1.
  pose proof (proj2 Hi1 n nd Hn) as Hnd. cbn beta in Hnd.
  destruct (node_inv_apply _ _ _ _ _ _ (proj1 Hi1) Hb1 Hnd Hd Hrun) as [Hnd' Ho].
  destruct (entry_record data) as [r|] eqn:Er; [|done]. injection Ho as ->. exists r. split; [done|].
  assert (Hi2 : cluster_inv lo c2).
  { eapply cluster_steps_inv; [exact H2|done|]. apply cluster_inv_insert; [by destruct c1|done]. }
  rewrite (node_Read _ _ _ _ (proj2 Hi2 m nd2 Hm)).
  destruct Hg as [k Hk]. unfold node_recs.
  replace (take (nd_applied nd) (cu_committed c1)) with (take (nd_applied nd) (cu_committed c2)).
  2:{ rewrite Hk. apply take_app_le. by apply Nat.lt_le_incl, (lookup_lt_Some _ _ data). }
  erewrite log_of_entry; [done| |done|done]. rewrite Hk. by apply lookup_app_l_Some.
Qed.

(** ** Restart *)

(** Entries applied one after the other. *)
Lemma apply_all_entries lo ds es s :
  log_for sz s lo (log_of lo ds) -> Forall (entry_submitted sz) es -> lo + Z.of_nat (length ds + length es) < 2 ^ 64 ->
  exists os s', apply_all es s = (os, s') /\ log_for sz s' lo (log_of lo (ds ++ es)).
Proof.
  intros Hr Hok. revert ds s Hr. induction Hok as [|e es He _ IH]; intros ds s Hr Hb.
  { exists [], s. by rewrite app_nil_r. }
  cbn [length] in Hb. destruct (fsm_Apply_entry sz lo ds e s Hr He ltac:(lia)) as (resp & s1 & Hrun & Hr1 & _).
  destruct (IH (ds ++ [e]) s1 Hr1 ltac:(len)) as (os & s2 & Hrun2 & Hr2).
  exists (Ok resp :: os), s2. cbn [apply_all]. rewrite Hrun, Hrun2. by rewrite <- app_assoc in Hr2.
Qed.

(** C31. A restart doubles the log: the commit log of the state machine is kept in
    files and opens with all its records, while raft, which keeps no applied index,
    gives the state machine its committed entries again; nothing resets the log in
    between, so that every record is there twice, the second time at a new offset.
    The disk works, and the records are so large ([sz] bytes of a store, at least
    [min_frame] of the log's segment limits) that no append is refused for want of
    room in an index. *)
Theorem replay_duplicates lo es s :
  log_for sz s lo (log_of lo es) -> Forall (entry_submitted sz) es -> lo + Z.of_nat (length es + length es) < 2 ^ 64 ->
  exists l1 w1 os s2, restart s.1 s.2 = (Ok l1, w1) /\ apply_all es (l1, w1) = (os, s2) /\
    log_for sz s2 lo (log_of lo (es ++ es)) /\
    forall i data r, es !! i = Some data -> entry_record data = Some r ->
      exists off off', off <> off' /\ (Log_Read off s2).1 = Ok (set_Offset off r) /\
        (Log_Read off' s2).1 = Ok (set_Offset off' r).
Proof.
  destruct s as [l w]. intros [Hr Hm] Hok Hb. cbn [fst snd] in *.
  destruct (restart_fit l w lo _ Hr) as (l1 & w1 & Hrun & Hr1 & _ & Hc1).
  destruct (apply_all_entries lo es es (l1, w1)) as (os & s2 & Hrun2 & Hr2); [|done|lia|].
  { split; [done|]. cbn. by rewrite Hc1. }
  exists l1, w1, os, s2. split_and!; [done..|]. intros i data r Hd Her.
  assert (Hread : forall j, (es ++ es) !! j = Some data -> forall off,
     off = lo + Z.of_nat (length (log_of lo (take j (es ++ es)))) -> (Log_Read off s2).1 = Ok (set_Offset off r)).
  { intros j Hj off ->. destruct (cl_Read_ok (CommitLogLaws := log_for_laws sz) (lo + Z.of_nat (length (log_of lo (take j (es ++ es))))) s2 _ _ Hr2)
      as (s3 & Hrd & _). change (cl_Read ?x) with (Log_Read x) in Hrd. rewrite Hrd.
    pose proof (log_of_entry lo (es ++ es) j data r Hj Her (length (es ++ es)) (lookup_lt_Some _ _ _ Hj)) as E.
    rewrite (firstn_all (es ++ es)) in E. by rewrite E. }
  assert (Hi2 : (es ++ es) !! (length es + i)%nat = Some data) 
    by (rewrite lookup_app_r by lia; by replace (length es + i - length es)%nat with i by lia).
  assert (Hi1 : (es ++ es) !! i = Some data) by (by apply lookup_app_l_Some).
  eexists _, _. split; [|split; [by apply (Hread i)|by apply (Hread (length es + i)%nat)]].
  pose proof (lookup_lt_Some _ _ _ Hd). rewrite (take_app_le es es i), take_app_add by lia.
  rewrite (log_of_app lo es (take i es)), length_app.
  pose proof (spec_read_range _ _ _ _ (log_of_entry lo es i data r Hd Her (length es) ltac:(lia))) as Hlt.
  rewrite (firstn_all es) in Hlt. lia.
Qed.
End props.

(** ** Witnesses: two nodes, one with the default segment limits and one with others *)
Module ClusterWitness.
Import Wire Scenario FsmWitness.

Definition n1 : string := "n1".
Definition n2 : string := "n2".
Definition sz : Z := 13.
Definition log1 : lst := wit_new plain.
Definition log2 : lst := wit_new (wit_config 1000 240).
Definition start : cluster := mkCluster [] (<[n1 := mkNode log1 0 []]> {[n2 := mkNode log2 0 []]}).

Lemma start_new : cluster_new sz 5 start.
Proof.
  split; [done|]. apply map_Forall_insert_2; [|apply map_Forall_singleton].
  - destruct (wit_new_fit plain plain_limits) as [Hr Hc]; [by vm_compute|]. split; [|done]. split; [exact Hr|].
    unfold log1. cbn [nd_log]. rewrite Hc. by vm_compute.
  - destruct (wit_new_fit (wit_config 1000 240)) as [Hr Hc]; [by vm_compute..|]. split; [|done]. split; [exact Hr|].
    unfold log2. cbn [nd_log]. rewrite Hc. by vm_compute.
Qed.

Lemma append_data_ok : entry_submitted sz append_data.
Proof. exists (CmdAppend (wit_record abc)). split; [by vm_compute|]. split; [by apply abc_fits|]. eexists. split; reflexivity. Qed.

(** The first node applies the one entry. *)
Definition log1' : lst := (fsm_Apply append_data log1).2.
Definition applied1 : cluster :=
  mkCluster [append_data] (<[n1 := mkNode log1' 1 []]> (<[n1 := mkNode log1 0 []]> {[n2 := mkNode log2 0 []]})).

Lemma apply1 : fsm_Apply append_data log1 = (Ok (RespProduce (mkProduceResponse 5)), log1').
Proof.
  assert (H : (fsm_Apply append_data log1).1 = Ok (RespProduce (mkProduceResponse 5))) by (by vm_compute).
  unfold log1'. rewrite <- H. by destruct (fsm_Apply append_data log1).
Qed.

Lemma reach_committed : rtc (cluster_step sz) start (mkCluster [append_data] (cu_nodes start)).
Proof. apply rtc_once. exact (step_commit sz [] _ _ append_data_ok). Qed.

Lemma reach_applied1 : rtc (cluster_step sz) start applied1.
Proof.
  eapply rtc_r; [exact reach_committed|].
  exact (step_apply sz [append_data] _ n1 (mkNode log1 0 []) _ _ _ (lookup_insert_eq _ _ _) eq_refl apply1).
Qed.

Lemma cluster_agreement_witness :
  cu_nodes applied1 !! n1 = Some (mkNode log1' 1 []) /\ (Log_Read 5 log1').1 = Ok (mkRecord abc 5 7 1).
Proof.
  assert (Hn : cu_nodes applied1 !! n1 = Some (mkNode log1' 1 [])) by (apply lookup_insert_eq).
  split; [exact Hn|].
  destruct (cluster_agreement sz 5 start applied1 n1 _ start_new reach_applied1 eq_refl Hn) as [H _].
  exact (H 5).
Defined.

(** A stream of the first node, before and after a turn. *)
Definition opened : consumer := consume_start (mkConsumeStreamRequest 5).
Definition root : context := mkContext (Some "root"%string).
Definition turn := consume_turn node_config root false None opened log1'.

Lemma streams_agree_witness :
  exists c nd sc l, rtc (cluster_step sz) start c /\ cu_nodes c !! n1 = Some nd /\ (5, sc) ∈ nd_streams nd /\
    cs_sent sc = mkConsumeStreamResponse ∘ Some <$> l /\ l `prefix_of` [mkRecord abc 5 7 1] /\ cs_off sc = 6.
Proof.
  assert (Ho : is_ok turn.1 = true) by (by vm_compute).
  assert (H6 : match turn.1 with Ok sc => cs_off sc = 6 | _ => False end) by (vm_compute; reflexivity).
  destruct turn as [o s'] eqn:E. cbn [fst] in *. destruct o as [sc| |]; [|discriminate Ho..].
  set (nd := mkNode s' 1 [(5, sc)]).
  set (ns := <[n1 := mkNode log1' 1 [(5, opened)]]> (cu_nodes applied1)).
  assert (Hr : rtc (cluster_step sz) start (mkCluster [append_data] (<[n1 := nd]> ns))).
  { eapply rtc_r; [eapply rtc_r; [exact reach_applied1|]|].
    - exact (step_open sz [append_data] _ n1 (mkNode log1' 1 []) (mkConsumeStreamRequest 5) (lookup_insert_eq _ _ _)).
    - exact (step_stream sz [append_data] ns n1 (mkNode log1' 1 [(5, opened)]) 0 5 opened root false None sc s'
               (lookup_insert_eq _ _ _) eq_refl E). }
  assert (Hn : cu_nodes (mkCluster [append_data] (<[n1 := nd]> ns)) !! n1 = Some nd) by (apply lookup_insert_eq).
  assert (Hin : (5, sc) ∈ nd_streams nd) by (by left).
  destruct (streams_agree sz 5 start _ n1 nd 5 sc start_new Hr eq_refl Hn Hin) as (l & H1 & _ & H3 & _).
  exists (mkCluster [append_data] (<[n1 := nd]> ns)), nd, sc, l.
  split; [exact Hr|]. split; [exact Hn|]. split; [exact Hin|]. split; [exact H1|]. split; [exact H3|exact H6].
Defined.

(** Then the second node applies it. *)
Lemma acked_everywhere_witness :
  exists c nd r, rtc (cluster_step sz) applied1 c /\ cu_nodes c !! n2 = Some nd /\
    entry_record append_data = Some r /\ (Log_Read 5 (nd_log nd)).1 = Ok (set_Offset 5 r).
Proof.
  destruct (fsm_Apply append_data log2) as [o s2] eqn:E.
  set (nd := mkNode s2 1 []). set (c := mkCluster [append_data] (<[n2 := nd]> (cu_nodes applied1))).
  assert (Hr : rtc (cluster_step sz) applied1 c).
  { apply rtc_once. refine (step_apply sz [append_data] _ n2 (mkNode log2 0 []) append_data o s2 _ eq_refl E).
    cbn [cu_nodes applied1]. rewrite !lookup_insert_ne by discriminate. apply lookup_singleton_eq. }
  assert (Hn : cu_nodes c !! n2 = Some nd) by (apply lookup_insert_eq).
  destruct (acked_everywhere sz 5 start _ n1 (mkNode log1 0 []) append_data 5 log1' c n2 nd
              start_new reach_committed (lookup_insert_eq _ _ _) eq_refl apply1 Hr eq_refl Hn ltac:(cbn; lia))
    as (r & H1 & H2).
  exists c, nd, r. split; [exact Hr|]. split; [exact Hn|]. split; [exact H1|exact H2].
Defined.

Lemma replay_duplicates_witness :
  exists l1 w1 os s2, restart log1'.1 log1'.2 = (Ok l1, w1) /\ apply_all [append_data] (l1, w1) = (os, s2) /\
    log_for sz s2 5 [mkRecord abc 5 7 1; mkRecord abc 6 7 1].
Proof.
  assert (Hr : log_for sz log1' 5 (log_of 5 [append_data])).
  { destruct (fsm_Apply_entry sz 5 [] append_data log1) as (resp & s' & Hrun & Hr & _); [|exact append_data_ok|done|].
    - exact (proj1 (proj2 start_new n1 _ (lookup_insert_eq _ _ _))).
    - apply (f_equal snd) in Hrun. cbn [snd] in Hrun. change (log1' = s') in Hrun. rewrite Hrun. exact Hr. }
  destruct (replay_duplicates sz 5 [append_data] log1' Hr) as (l1 & w1 & os & s2 & H1 & H2 & H3 & _).
  - repeat constructor. exact append_data_ok.
  - reflexivity.
  - exists l1, w1, os, s2. split; [exact H1|]. split; [exact H2|exact H3].
Defined.
End ClusterWitness.
