(* ===== verification/ClusterLive.v ===== *)
(** The cluster makes progress: from every state a node can be served until it has
    caught up, and a stream until its client has all committed records. *)

From coqutil Require Import Byte.
From S2P Require Import Prelude Endian OS Proto Wire Config Store Index Names Segment Log LogInv.
From S2P Require Import LogReopen LogSpec.
From S2P Require Import Scenario Raft Fsm FsmProps Http Server ServerProps Cluster ClusterProps.

Section live.
Context `{Hmsg : ProtoMessage record} {Hlaws : ProtoLaws record record_wf}.
Context `{Hreq : ProtoMessage ProduceRequest} {Hreqlaws : ProtoLaws ProduceRequest ProduceRequest_wf}.
Context (sz : Z).
Implicit Types (lo off : Z) (ds : list bytes) (nd : node) (c : cluster).

(** The node applies what it has not applied yet. *)
Lemma node_catches_up lo ds ns n nd :
  cluster_inv sz lo (mkCluster ds ns) -> lo + Z.of_nat (length ds) < 2 ^ 64 -> ns !! n = Some nd ->
  exists s, rtc (cluster_step sz) (mkCluster ds ns) (mkCluster ds (<[n := mkNode s (length ds) (nd_streams nd)]> ns)) /\
    node_inv sz lo ds (mkNode s (length ds) (nd_streams nd)).
Proof.
  intros Hinv Hb. remember (length ds - nd_applied nd)%nat as k eqn:Hk. revert ns nd Hinv Hk.
  induction k as [|k IH]; intros ns nd Hinv Hk Hn; pose proof (cluster_inv_node _ _ _ _ _ _ Hinv Hn) as Hnd.
  - exists (nd_log nd). assert (nd = mkNode (nd_log nd) (length ds) (nd_streams nd)) as <-.
    { destruct nd as [s a st], Hnd as (Ha & _). cbn in *. f_equal. lia. }
    by rewrite insert_id.
  - destruct (lookup_lt_is_Some_2 ds (nd_applied nd)) as [data Hd]; [lia|].
    destruct (fsm_Apply data (nd_log nd)) as [o s1] eqn:E.
    destruct (node_inv_apply sz lo ds nd data o s1 (proj1 Hinv) Hb Hnd Hd E) as [Hnd1 _].
    destruct (IH (<[n := mkNode s1 (S (nd_applied nd)) (nd_streams nd)]> ns) (mkNode s1 (S (nd_applied nd)) (nd_streams nd)))
      as (s & Hst & Hnds); [by apply cluster_inv_insert|cbn; lia|apply lookup_insert_eq|].
    exists s. split; [|exact Hnds]. rewrite insert_insert_eq in Hst. eapply rtc_l; [|exact Hst]. by eapply step_apply.
Qed.

(** A stream that is served reaches the end of its node's log. *)
Lemma stream_catches_up lo ds ns n s a ss i start sc :
  let recs := log_of lo (take a ds) in
  node_inv sz lo ds (mkNode s a ss) -> ss !! i = Some (start, sc) -> cs_ret sc = None -> lo <= start ->
  cs_off sc <= lo + Z.of_nat (length recs) ->
  exists s' sc', let nd' := mkNode s' a (<[i := (start, sc')]> ss) in
    rtc (cluster_step sz) (mkCluster ds (<[n := mkNode s a ss]> ns)) (mkCluster ds (<[n := nd']> ns)) /\
    node_inv sz lo ds nd' /\ cs_off sc' = lo + Z.of_nat (length recs) /\ cs_ret sc' = None.
Proof.
  intros recs Hnd Hi Hret Hlo Hle.
  remember (Z.to_nat (lo + Z.of_nat (length recs) - cs_off sc)) as k eqn:Hk. revert s ss sc Hnd Hi Hret Hle Hk.
  induction k as [|k IH]; intros s ss sc Hnd Hi Hret Hle Hk.
  { exists s, sc. rewrite list_insert_id by done. split_and!; [done|done|lia|done]. }
  destruct Hnd as (Ha & Hr & Hs). change (log_for sz s lo recs) in Hr. cbn in Ha, Hs. pose proof (Forall_lookup_1 _ _ _ _ Hs Hi) as [Hge _]. cbn in Hge.
  destruct (lookup_lt_is_Some_2 recs (Z.to_nat (cs_off sc - lo))) as [r Hrd]; [lia|].
  assert (Hsr : spec_read lo recs (cs_off sc) = Some r)
    by (unfold spec_read; by destruct (Z.leb_spec lo (cs_off sc)); [|lia]).
  destruct (consume_turn_progress (Hcll := log_for_laws sz) (mkContext None) sc s lo recs r Hr Hret Hsr) as (s1 & Hrun & Hr1).
  set (sc1 := mkConsumer _ _ _) in Hrun. set (nd1 := mkNode s1 a (<[i := (start, sc1)]> ss)).
  assert (Hst : cluster_step sz (mkCluster ds (<[n := mkNode s a ss]> ns)) (mkCluster ds (<[n := nd1]> ns))).
  { rewrite <- (insert_insert_eq ns n nd1 (mkNode s a ss)).
    exact (step_stream sz ds _ n (mkNode s a ss) i start sc _ _ _ sc1 s1 (lookup_insert_eq _ _ _) Hi Hrun). }
  assert (Hnd1 : node_inv sz lo ds nd1).
  { split_and!; [done|exact Hr1|]. cbn. apply Forall_insert; [done|].
    refine (proj2 (consume_turn_ok (Hcll := log_for_laws sz) start (mkContext None) false None sc s lo recs sc1 s1 _ Hrun)).
    split; [done|exact (Forall_lookup_1 _ _ _ _ Hs Hi)]. }
  destruct (IH s1 (<[i := (start, sc1)]> ss) sc1) as (s' & sc' & Hst' & Hnd' & Ho & Hret'); [done| |done|cbn; lia|cbn; lia|].
  { apply list_lookup_insert_eq. by eapply lookup_lt_Some. }
  exists s', sc'. rewrite list_insert_insert_eq in Hst', Hnd'. split_and!; [by eapply rtc_l|done..].
Qed.

(** C26. Nothing that was committed is kept from a client: from every reachable state,
    an open stream of any node, whose requested offset is in the log, can be served
    until its client has every committed record from that offset on.  The cluster is
    that of [cluster_agreement]: new logs on working disks, records of at least [sz]
    bytes of a store, which is enough for the segment limits of every node, and offsets
    below 2^64. *)
Theorem stream_delivers lo c0 c n nd i start sc :
  cluster_new sz lo c0 -> rtc (cluster_step sz) c0 c -> lo + Z.of_nat (length (cu_committed c)) < 2 ^ 64 ->
  cu_nodes c !! n = Some nd -> nd_streams nd !! i = Some (start, sc) -> cs_ret sc = None ->
  lo <= start <= lo + Z.of_nat (length (log_of lo (cu_committed c))) ->
  exists c' nd' sc', rtc (cluster_step sz) c c' /\ cu_committed c' = cu_committed c /\
    cu_nodes c' !! n = Some nd' /\ nd_streams nd' !! i = Some (start, sc') /\ cs_ret sc' = None /\
    cs_sent sc' = mkConsumeStreamResponse ∘ Some <$> drop (Z.to_nat (start - lo)) (log_of lo (cu_committed c)).
Proof.
  destruct c as [ds ns]. cbn [cu_committed cu_nodes]. intros Hnew Hst Hb Hn Hi Hret Hrange.
  pose proof (cluster_steps_inv _ _ _ _ Hst Hb (cluster_new_inv _ _ _ Hnew)) as Hinv.
  destruct (node_catches_up lo ds ns n nd Hinv Hb Hn) as (s1 & Hst1 & Hnd1).
  pose proof Hnd1 as (_ & _ & Hs). unfold node_recs in Hs. cbn [nd_applied nd_streams] in Hs.
  pose proof (Forall_lookup_1 _ _ _ _ Hs Hi) as Hok. rewrite firstn_all in Hok.
  destruct (stream_catches_up lo ds ns n s1 (length ds) (nd_streams nd) i start sc Hnd1 Hi Hret) as
    (s2 & sc2 & Hst2 & Hnd2 & Hoff & Hret2); [lia| |].
  { rewrite firstn_all. destruct Hok as [_ [(_ & H & _)|[H _]]]; cbn [fst snd] in H; lia. }
  eexists _, _, sc2. split; [etransitivity; [exact Hst1|exact Hst2]|]. split; [done|].
  split; [apply lookup_insert_eq|]. cbn [nd_streams].
  assert (Hi2 : <[i := (start, sc2)]> (nd_streams nd) !! i = Some (start, sc2))
    by (apply list_lookup_insert_eq; by eapply lookup_lt_Some).
  split; [exact Hi2|]. split; [exact Hret2|].
  destruct Hnd2 as (_ & _ & Hs2). pose proof (Forall_lookup_1 _ _ _ _ Hs2 Hi2) as [_ Hsent].
  unfold node_recs in Hsent. cbn [nd_applied fst snd] in Hsent. rewrite firstn_all in Hsent, Hoff.
  destruct Hsent as [(_ & _ & ->)|[H1 ->]]; rewrite Hoff in *; unfold spec_slice.
  - rewrite firstn_all2; [done|]. rewrite length_drop. lia.
  - by rewrite skipn_all2 by lia.
Qed.
End live.

(** ** Witness: a stream of the node that has not applied the entry yet. *)
Module LiveWitness.
Import Wire Scenario FsmWitness ClusterWitness.

Definition waiting : cluster :=
  mkCluster [append_data] (<[n1 := mkNode log1 0 [(5, opened)]]> (cu_nodes start)).

Lemma reach_waiting : rtc (cluster_step sz) start waiting.
Proof.
  eapply rtc_r; [exact reach_committed|].
  exact (step_open sz [append_data] _ n1 (mkNode log1 0 []) (mkConsumeStreamRequest 5) (lookup_insert_eq _ _ _)).
Qed.

Lemma stream_delivers_witness :
  exists c' nd' sc', rtc (cluster_step sz) waiting c' /\ cu_nodes c' !! n1 = Some nd' /\
    nd_streams nd' !! 0%nat = Some (5, sc') /\ cs_sent sc' = [mkConsumeStreamResponse (Some (mkRecord abc 5 7 1))].
Proof.
  assert (Hn : cu_nodes waiting !! n1 = Some (mkNode log1 0 [(5, opened)])) by (apply lookup_insert_eq).
  destruct (stream_delivers sz 5 start waiting n1 _ 0 5 opened start_new reach_waiting eq_refl Hn eq_refl eq_refl)
    as (c' & nd' & sc' & H1 & _ & H3 & H4 & _ & H6).
  - split; [lia|]. vm_compute. discriminate.
  - exists c', nd', sc'. split; [exact H1|]. split; [exact H3|]. split; [exact H4|exact H6].
Defined.
End LiveWitness.
