(* ===== verification/Distributed.v ===== *)
(** [internal/log/distributed/distributed.go]: the replicated log.

    The raft node is a dependency: [RaftNode] is the methods of [*raft.Raft] the
    code calls, with the node's state [R].  The node drives the state machine of
    [Fsm] on the commit log that [Read] uses too, so its methods act on the pair
    of the node and that log.  A future's [Error] and [Response] are the outcome
    of the call. *)

From S2P Require Import Prelude Endian OS Proto Config Store Index Names Segment Log Raft LogStore Fsm.
From S2P Require Import Tls StreamLayer RaftPebble.

Class RaftNode (R : Type) := {
  raft_Apply : bytes -> Z -> M (R * lst) response;
  raft_GetConfiguration : M (R * lst) (list Server);
  raft_RemoveServer : string -> Z -> Z -> M (R * lst) unit;
  raft_AddVoter : string -> string -> Z -> Z -> M (R * lst) unit;
  raft_LeaderWithID : M (R * lst) (string * string);
  raft_Shutdown : M (R * lst) unit
}.

Section node.
Context {R : Type} `{RaftNode R} `{ProtoMessage record} `{ProtoMessage ProduceRequest}.

Definition on_log {A} (m : M lst A) : M (R * lst) A := zoom snd (fun l s => (s.1, l)) m.

Definition apply_timeout : Z := 10 * 1000000000.

(** [apply]: the request type, then the encoded request.  (Writes to a
    [bytes.Buffer] do not fail.) *)
Definition dist_apply (reqType : Z) (req : ProduceRequest) : M (R * lst) response :=
  b ← lift (Marshal req);
  res ← raft_Apply (byte_of reqType :: b) apply_timeout;
  match res with
  | RespError e => throw e
  | _ => mret res
  end.

(** [Append]; the type assertion on the response panics on any other type. *)
Definition dist_Append (rc : option record) : M (R * lst) Z :=
  res ← dist_apply AppendRequestType (mkProduceRequest rc);
  match res with
  | RespProduce r => mret (presp_Offset r)
  | _ => panic "interface conversion"
  end.

Definition dist_Read (off : Z) : M (R * lst) record := on_log (Log_Read off).

(** The loop of [Join] over the servers: [true] when the node is a member
    already. *)
Fixpoint join_loop (id addr : string) (servers : list Server) : M (R * lst) bool :=
  match servers with
  | [] => mret false
  | srv :: servers =>
      if bool_decide (sv_ID srv = id) || bool_decide (sv_Address srv = addr) then
        if bool_decide (sv_Address srv = addr) && bool_decide (sv_ID srv = id) then mret true
        else
          r ← try (raft_RemoveServer id 0 0);
          match r with
          | inr _ => throw (errors_New "error removing existing node")
          | inl _ => join_loop id addr servers
          end
      else join_loop id addr servers
  end.

Definition dist_Join (id addr : string) : M (R * lst) unit :=
  servers ← raft_GetConfiguration;
  member ← join_loop id addr servers;
  if (member : bool) then mret tt else raft_AddVoter id addr 0 0.

Definition dist_Leave (id : string) : M (R * lst) unit := raft_RemoveServer id 0 0.

(** [WaitForLeader]: the loop takes the events its [select] receives, ticks and
    at last the timeout; [None] says that it still waits. *)
Inductive wait_event := Tick | TimedOut.

Fixpoint WaitForLeader (evs : list wait_event) : M (R * lst) (option unit) :=
  match evs with
  | [] => mret None
  | TimedOut :: _ => throw (errors_New "timed out waiting for leader")
  | Tick :: evs =>
      r ← raft_LeaderWithID;
      if bool_decide (r.1 = ""%string) then WaitForLeader evs else mret (Some tt)
  end.

Definition dist_Close : M (R * lst) unit :=
  raft_Shutdown;;
  on_log Log_Close.
End node.

(** ** Construction *)

(** [filepath.Join] of clean elements. *)
Definition filepath_Join (a b : string) : string := a +:+ "/" +:+ b.

(** What [setupRaft] uses of the raft library, with the state [R] of what it
    opens: the snapshot store, the node and its transport.  [NewRaft] gets the
    state machine, so it acts on its log too. *)
Class RaftLib (R : Type) := {
  raft_DefaultConfig : RaftConfig;
  raft_NewFileSnapshotStore : string -> Z -> M (R * world) unit;
  raft_NewNetworkTransport : option StreamLayer -> Z -> Z -> M (R * world) unit;
  raft_NewRaft : RaftConfig -> Log -> M (R * lst) unit;
  raft_HasExistingState : Log -> M (R * world) bool;
  transport_LocalAddr : R -> string;
  raft_BootstrapCluster : list Server -> M (R * world) unit
}.

Section setup.
Context {R D : Type} `{RaftLib R} `{PebbleDB D}.

Abbreviation rst := (R * world)%type.

(** The configuration with the fields of [l.config.Raft] that are set. *)
Definition override (d v : Z) : Z := if v =? 0 then d else v.
Definition raft_config (c : RaftConfig) : RaftConfig :=
  let d := raft_DefaultConfig in
  mkRaftConfig (LocalID c) (override (HeartbeatTimeout d) (HeartbeatTimeout c))
    (override (ElectionTimeout d) (ElectionTimeout c))
    (override (LeaderLeaseTimeout d) (LeaderLeaseTimeout c))
    (override (CommitTimeout d) (CommitTimeout c)) (rc_StreamLayer d) (Bootstrap d).

Definition r_disk {A} (m : M world A) : M (rst * D) A :=
  zoom (fun s : rst * D => s.1.2) (fun w s => ((s.1.1, w), s.2)) m.
Definition r_raft {A} (m : M rst A) : M (rst * D) A := zoom fst (fun r s => (r, s.2)) m.
Definition r_db {A} (m : M D A) : M (rst * D) A := zoom snd (fun d s => (s.1, d)) m.

Definition r_fsm (m : M (R * lst) unit) (fsm : Log) : M (rst * D) Log := fun s =>
  let '(o, (r, (l, w))) := m (s.1.1, (fsm, s.1.2)) in
  (match o with Ok _ => Ok l | Err e => Err e | Panic p => Panic p end, ((r, w), s.2)).

Definition setupLog (dataDir : string) (config : Config) : M (rst * D) Log :=
  let logDir := filepath_Join dataDir "log" in
  r_disk (os_MkdirAll logDir);;
  r_disk (NewLog logDir config).

Definition setupRaft (dataDir : string) (config : Config) (fsm : Log) : M (rst * D) (Log * Log) :=
  let logDir := filepath_Join (filepath_Join dataDir "raft") "log" in
  r_disk (os_MkdirAll logDir);;
  ldb ← r_disk (newLogStore logDir (set_InitialOffset 1 config));
  r_db (raftpebble_New [WithDbDirPath (filepath_Join (filepath_Join dataDir "raft") "stable");
                        WithLogger "pebble.DefaultLogger"]);;
  r_raft (raft_NewFileSnapshotStore (filepath_Join dataDir "raft") 1);;
  r_raft (raft_NewNetworkTransport (rc_StreamLayer (Raft config)) 5 (10 * 1000000000));;
  let rc := raft_config (Raft config) in
  fsm ← r_fsm (raft_NewRaft rc ldb) fsm;
  hasState ← r_raft (raft_HasExistingState ldb);
  s ← get;
  (if Bootstrap (Raft config) && negb hasState then
     r_raft (raft_BootstrapCluster [mkServer (LocalID rc) (transport_LocalAddr s.1.1)])
   else mret tt);;
  mret (fsm, ldb).

(** [NewLog]: the commit log and raft's log store. *)
Definition dist_NewLog (dataDir : string) (config : Config) : M (rst * D) (Log * Log) :=
  l ← setupLog dataDir config;
  setupRaft dataDir config l.
End setup.
