(* ===== verification/DistributedProps.v ===== *)
(** The replicated log over a raft node that keeps its promise. *)

From coqutil Require Import Byte.
From S2P Require Import Prelude Endian OS Proto Wire Config Store Index Names Segment Log LogInv.
From S2P Require Import LogReopen LogSpec Scenario Raft LogStore Fsm FsmProps RaftPebble Distributed.

(** The membership changes of raft: a server is replaced under its identifier or
    added, and removed by its identifier. *)
Fixpoint add_server (id addr : string) (servers : list Server) : list Server :=
  match servers with
  | [] => [mkServer id addr]
  | srv :: servers =>
      if bool_decide (sv_ID srv = id) then mkServer id addr :: servers
      else srv :: add_server id addr servers
  end.
Definition remove_server (id : string) (servers : list Server) : list Server :=
  filter (fun srv => sv_ID srv <> id) servers.

(** The documentation of [raft.Raft]: [Apply] succeeds after the state machine
    has applied the entry, behind other committed entries and before the ones
    that follow, and its response is what the machine returned (the entries are
    those the nodes of the cluster submitted, [raft_submitted]; fewer than 2^32 of
    them fall within one call); the configuration calls act on the
    latest configuration, and raft refuses a configuration in which two servers
    share an address; [Shutdown] returns after the state machine has stopped,
    behind the entries it still applied. *)
Class RaftLaws (R : Type) `{RaftNode R} `{ProtoMessage record} `{ProtoMessage ProduceRequest} := {
  raft_servers : R -> list Server;
  raft_submitted : command -> Prop;
  law_Apply data t r s resp r' s' :
    raft_Apply data t (r, s) = (Ok resp, (r', s')) ->
    exists pre dpre opre s1 s2 post dpost opost,
      Forall raft_submitted pre /\ Forall2 command_data pre dpre /\ apply_all dpre s = (opre, s1) /\
      fsm_Apply data s1 = (Ok resp, s2) /\
      Forall raft_submitted post /\ Forall2 command_data post dpost /\ apply_all dpost s2 = (opost, s') /\
      Z.of_nat (length pre + length post) < 2 ^ 32;
  law_GetConfiguration r s o r' s' :
    raft_GetConfiguration (r, s) = (o, (r', s')) ->
    raft_servers r' = raft_servers r /\ (forall l, o = Ok l -> l = raft_servers r);
  law_RemoveServer id r s r' s' :
    raft_RemoveServer id 0 0 (r, s) = (Ok tt, (r', s')) -> raft_servers r' = remove_server id (raft_servers r);
  law_AddVoter id addr r s r' s' :
    raft_AddVoter id addr 0 0 (r, s) = (Ok tt, (r', s')) ->
    raft_servers r' = add_server id addr (raft_servers r) /\ NoDup (sv_Address <$> raft_servers r');
  law_Shutdown r s r' s' :
    raft_Shutdown (r, s) = (Ok tt, (r', s')) ->
    exists cs datas os, Forall raft_submitted cs /\ Forall2 command_data cs datas /\
      apply_all datas s = (os, s') /\ Z.of_nat (length cs) < 2 ^ 32
}.

Section props.
Context {R : Type} `{Hnode : RaftNode R}.
Context `{Hmsg : ProtoMessage record} {Hlaws : ProtoLaws record record_wf}.
Context `{Hreq : ProtoMessage ProduceRequest} {Hreqlaws : ProtoLaws ProduceRequest ProduceRequest_wf}.
Context {Hraft : RaftLaws R}.

(** The nodes of the cluster submit well-typed records of [m] bytes of a store at
    least. *)
Definition submits (m : Z) : Prop := forall c, raft_submitted c -> command_wf c /\ command_fits m c.

Lemma length_spec_apply_all cs lo recs :
  (length (spec_apply_all cs lo recs).2 <= length recs + length cs)%nat.
Proof.
  revert recs. induction cs as [|c cs IH]; intros recs; cbn; [lia|].
  pose proof (length_spec_apply c lo recs). destruct (spec_apply c lo recs) as [r recs1]. cbn in *.
  specialize (IH recs1). destruct (spec_apply_all cs lo recs1). cbn in *. lia.
Qed.

Lemma spec_apply_all_prefix cs lo recs : recs `prefix_of` (spec_apply_all cs lo recs).2.
Proof.
  revert recs. induction cs as [|c cs IH]; intros recs; cbn; [done|].
  destruct (spec_apply c lo recs) as [r recs1] eqn:E. specialize (IH recs1).
  destruct (spec_apply_all cs lo recs1). cbn in *. etransitivity; [|exact IH].
  destruct c; cbn in E; simplify_eq; [by apply prefix_app_r|done].
Qed.

(** A replica keeps a fit log while it applies committed entries. *)
Lemma apply_all_fit cs datas l w lo recs os l' w' :
  log_fit l w lo recs -> submits (min_frame (l_Config l)) -> Forall raft_submitted cs -> Forall2 command_data cs datas ->
  lo + Z.of_nat (length recs) + Z.of_nat (length cs) < 2 ^ 64 ->
  apply_all datas (l, w) = (os, (l', w')) ->
  log_fit l' w' lo (spec_apply_all cs lo recs).2 /\ l_Config l' = l_Config l.
Proof.
  intros Hr Hsub Hs Hd Hb Hrun.
  destruct (apply_all_spec (min_frame (l_Config l)) cs datas l w lo recs Hr) as (l1 & w1 & E & H1 & H2); [lia| | |done..|].
  1,2: eapply list.Forall_impl; [exact Hs|]; intros c Hc; by apply Hsub.
  rewrite E in Hrun. by simplify_eq.
Qed.

(** [Append] that succeeds is a call of raft with the encoded request, answered with
    the offset. *)
Lemma dist_Append_inv r off rn s rn' s' :
  record_wf r -> dist_Append (Some r) (rn, s) = (Ok off, (rn', s')) ->
  exists b, Marshal (mkProduceRequest (Some r)) = Ok b /\
    raft_Apply (byte_of AppendRequestType :: b) apply_timeout (rn, s) =
      (Ok (RespProduce (mkProduceResponse off)), (rn', s')).
Proof.
  intros Hwf Hrun. unfold dist_Append, dist_apply in Hrun.
  destruct (Marshal_total (mkProduceRequest (Some r)) Hwf) as (b & Hm & _). exists b. split; [done|].
  inv_ok Hrun. rewrite (bind_Ok _ _ _ b (rn, s)) in Hrun0 by (unfold lift; by rewrite Hm). inv_ok Hrun0.
  rewrite Hrun1. destruct a0; unfold throw, mret, M_ret in Hrun0; simplify_eq; cbn in Hrun; unfold panic, mret, M_ret in Hrun;
    simplify_eq. by destruct r0.
Qed.

Lemma dist_append_read_run r off rn rn' l w l' w' lo recs :
  log_fit l w lo recs -> submits (min_frame (l_Config l)) -> record_wf r -> fits (min_frame (l_Config l)) r ->
  lo + Z.of_nat (length recs) + 2 ^ 33 < 2 ^ 64 ->
  dist_Append (Some r) (rn, (l, w)) = (Ok off, (rn', (l', w'))) ->
  exists recs', log_fit l' w' lo recs' /\ recs `prefix_of` recs' /\
    spec_read lo recs' off = Some (set_Offset off r) /\
    (dist_Read off (rn', (l', w'))).1 = Ok (set_Offset off r).
Proof.
  intros Hr Hsub Hwf Hft Hb Hrun. destruct (dist_Append_inv _ _ _ _ _ _ Hwf Hrun) as (b & Hm & Hrun1).
  apply law_Apply in Hrun1 as (pre & dpre & opre & [lp wp] & [lm wm] & post & dpost & opost &
    Hwp & Hdp & Hap & Hme & Hwq & Hdq & Haq & Hlen).
  destruct (apply_all_fit _ _ _ _ _ _ _ _ _ Hr Hsub Hwp Hdp ltac:(lia) Hap) as [Hrp Hcp].
  pose proof (length_spec_apply_all pre lo recs) as Hlp. set (recs1 := (spec_apply_all pre lo recs).2) in *.
  destruct (fsm_Apply_spec (CmdAppend r) (byte_of AppendRequestType :: b) lp wp lo recs1 Hrp Hwf
    ltac:(by rewrite Hcp) ltac:(by exists b) ltac:(lia)) as (l3 & w3 & Hme' & Hr3 & Hc3).
  rewrite Hme in Hme'. cbn [spec_apply fst snd] in Hme', Hr3. simplify_eq.
  destruct (apply_all_fit _ _ _ _ _ _ _ _ _ Hr3 ltac:(by rewrite Hc3, Hcp) Hwq Hdq ltac:(len) Haq) as [Hrq _].
  set (recs2 := recs1 ++ _) in *. exists (spec_apply_all post lo recs2).2.
  assert (Hrd : spec_read lo (spec_apply_all post lo recs2).2 (lo + Z.of_nat (length recs1)) =
                Some (set_Offset (lo + Z.of_nat (length recs1)) r)).
  { eapply spec_read_prefix; [apply spec_apply_all_prefix|]. unfold spec_read, recs2.
    destruct (Z.leb_spec lo (lo + Z.of_nat (length recs1))); [|lia].
    replace (Z.to_nat _) with (length recs1) by lia. by rewrite list_lookup_middle. }
  split_and!; [done| |done|].
  - transitivity recs1; [apply spec_apply_all_prefix|].
    transitivity recs2; [by apply prefix_app_r|apply spec_apply_all_prefix].
  - unfold dist_Read, on_log, zoom. cbn [fst snd].
    destruct (Log_Read_fit (lo + Z.of_nat (length recs1)) _ _ _ _ Hrq) as (l4 & w4 & E4 & _).
    by rewrite E4, Hrd.
Qed.

(** The directory of a log never changes. *)
Lemma on_segment_dir {A} d id (m : M gst A) : keeps (fun s => l_Dir s.1 = d) (fun _ => True) (on_segment id m).
Proof.
  intros [l w] Hd. unfold on_segment. cbn [fst snd] in *. destruct (l_heap l !! id) as [sg|]; [|done].
  destruct (m (sg, w)) as [o [sg' w']]. by destruct o.
Qed.

Lemma Log_newSegment_dir d off : keeps (fun s => l_Dir s.1 = d) (fun _ => True) (Log_newSegment off).
Proof.
  unfold Log_newSegment. keeps_step. eapply keeps_bind.
  { apply (keeps_zoom _ (fun _ => True)); [done| |apply keeps_any]. done. }
  intros sg _. by apply keeps_modify.
Qed.

Lemma Log_Append_dir d rc : keeps (fun s => l_Dir s.1 = d) (fun _ => True) (Log_Append rc).
Proof.
  unfold Log_Append. keeps_step. destruct (l_active x.1) as [id|]; [|auto with keeps].
  eapply keeps_bind; [apply on_segment_dir|]. intros off _. eapply keeps_bind; [apply on_segment_dir|]. intros sg _.
  destruct (IsMaxed sg); [|auto with keeps]. eapply keeps_bind; [apply Log_newSegment_dir|]. auto with keeps.
Qed.

Lemma fsm_Apply_dir d data : keeps (fun s => l_Dir s.1 = d) (fun _ => True) (fsm_Apply data).
Proof.
  unfold fsm_Apply, fsm_applyAppend. destruct data as [|t b]; [auto with keeps|]. destruct (_ =? _); [|auto with keeps].
  eapply keeps_bind; [by apply keeps_try, (keeps_lift _ (fun _ => True))|]. intros [q|e] _; [|auto with keeps].
  eapply keeps_bind; [apply keeps_try, Log_Append_dir|]. intros [off|e] _; auto with keeps.
Qed.

Lemma apply_all_dir datas s : l_Dir (apply_all datas s).2.1 = l_Dir s.1.
Proof.
  revert s. induction datas as [|data datas IH]; intros s; [done|]. cbn [apply_all].
  destruct (fsm_Apply_dir (l_Dir s.1) data s eq_refl) as [Hf _].
  destruct (fsm_Apply data s) as [o s1]. cbn in Hf. specialize (IH s1). destruct (apply_all datas s1) as [os s2].
  cbn in *. congruence.
Qed.

(** Closing the replicated log closes its commit log, with every record it had. *)
Lemma dist_Close_run rn l w lo recs rn' l' w' :
  log_fit l w lo recs -> submits (min_frame (l_Config l)) -> lo + Z.of_nat (length recs) + 2 ^ 32 < 2 ^ 64 ->
  dist_Close (rn, (l, w)) = (Ok tt, (rn', (l', w'))) ->
  exists recs', closed_log True w' (l_Dir l) (l_Config l) lo recs' /\ recs `prefix_of` recs'.
Proof.
  intros Hr Hsub Hb Hrun. unfold dist_Close in Hrun. inv_ok Hrun. destruct a, s as [rn1 [l1 w1]].
  apply law_Shutdown in Hrun0 as (cs & datas & os & Hwf & Hd & Hap & Hlen).
  pose proof (apply_all_dir datas (l, w)) as Hdir. rewrite Hap in Hdir. cbn in Hdir.
  destruct (apply_all_fit _ _ _ _ _ _ _ _ _ Hr Hsub Hwf Hd ltac:(lia) Hap) as [[Hr1 Hh1] Hc1].
  destruct (Log_Close_spec _ _ _ _ Hr1) as (l2 & w2 & Hcl & Hclosed).
  unfold on_log, zoom in Hrun. cbn in Hrun. rewrite Hcl in Hrun. simplify_eq.
  exists (spec_apply_all cs lo recs).2. split; [|apply spec_apply_all_prefix]. rewrite <- Hdir, <- Hc1.
  by eapply closed_log_mono; [|exact Hclosed].
Qed.

(** C13. A record whose replicated [Append] succeeded is committed at the returned
    offset of the local log, whatever other entries were committed around it:
    [Read] gives it back, and no earlier record is lost.  The local disk works, the
    records (this one, and those that the nodes of the cluster submit) are well-typed and so
    large, [min_frame] of the log's segment limits (13 bytes of a store for the limits
    the agent's log has), that no segment's index is out of room before its store is
    full, and 2^33 offsets are left. *)
Theorem dist_append_read r off rn rn' l w l' w' lo recs :
  log_fit l w lo recs -> submits (min_frame (l_Config l)) -> record_wf r -> fits (min_frame (l_Config l)) r ->
  lo + Z.of_nat (length recs) + 2 ^ 33 < 2 ^ 64 ->
  dist_Append (Some r) (rn, (l, w)) = (Ok off, (rn', (l', w'))) ->
  exists recs', log_fit l' w' lo recs' /\ recs `prefix_of` recs' /\
    spec_read lo recs' off = Some (set_Offset off r) /\
    (dist_Read off (rn', (l', w'))).1 = Ok (set_Offset off r).
Proof. apply dist_append_read_run. Qed.

(** ** Membership *)

Lemma add_server_elem id addr servers srv :
  mkServer id addr ∈ add_server id addr servers /\
  (srv ∈ servers -> sv_ID srv <> id -> srv ∈ add_server id addr servers).
Proof.
  induction servers as [|s0 servers [IH1 IH2]]; cbn; [set_solver|].
  case_bool_decide as E; split.
  - set_solver.
  - intros Hin Hne. apply elem_of_cons in Hin as [->|Hin]; [done|set_solver].
  - set_solver.
  - intros Hin Hne. apply elem_of_cons in Hin as [->|Hin]; set_solver.
Qed.

(** The loop keeps the other servers; when it says that the node is a member, it
    is one of the servers it looked at. *)
Lemma join_loop_spec id addr servers r s b r' s' :
  join_loop id addr servers (r, s) = (Ok b, (r', s')) ->
  (forall srv, srv ∈ raft_servers r -> sv_ID srv <> id -> srv ∈ raft_servers r') /\
  (b = true -> mkServer id addr ∈ servers).
Proof.
  revert r s. induction servers as [|srv servers IH]; intros r s Hrun; cbn [join_loop] in Hrun.
  { unfold mret, M_ret in Hrun. by simplify_eq. }
  destruct (bool_decide (sv_ID srv = id) || bool_decide (sv_Address srv = addr)).
  2:{ apply IH in Hrun as [H1 H2]. split; [done|]. intros Hb. set_solver. }
  destruct (bool_decide (sv_Address srv = addr) && bool_decide (sv_ID srv = id)) eqn:E.
  - unfold mret, M_ret in Hrun. simplify_eq. split; [done|]. intros _.
    apply andb_true_iff in E as [E1 E2]. apply bool_decide_eq_true in E1, E2. destruct srv. cbn in *. subst. set_solver.
  - unfold mbind, M_bind, try in Hrun. destruct (raft_RemoveServer id 0 0 (r, s)) as [[[]|e|p] [r1 s1]] eqn:Er; [| |done].
    + apply law_RemoveServer in Er. apply IH in Hrun as [H1 H2]. split; [|intros Hb; set_solver].
      intros srv0 H0 Hne. apply H1; [|done]. rewrite Er. unfold remove_server. by apply list_elem_of_filter.
    + unfold throw in Hrun. done.
Qed.

(** In a configuration without duplicates a member is found before anything is
    removed. *)
Lemma join_loop_member id addr servers s :
  NoDup (sv_ID <$> servers) -> NoDup (sv_Address <$> servers) -> mkServer id addr ∈ servers ->
  join_loop id addr servers s = (Ok true, s).
Proof.
  induction servers as [|srv servers IH]; intros H1 H2 Hin; [by apply not_elem_of_nil in Hin|].
  rewrite !fmap_cons in *. apply list.NoDup_cons in H1 as [N1 H1], H2 as [N2 H2]. cbn [join_loop].
  apply elem_of_cons in Hin as [<-|Hin].
  - cbn. by rewrite !bool_decide_eq_true_2 by done.
  - assert (sv_ID srv <> id) by (intros E; apply N1, list_elem_of_fmap; by exists (mkServer id addr)).
    assert (sv_Address srv <> addr) by (intros E; apply N2, list_elem_of_fmap; by exists (mkServer id addr)).
    rewrite !bool_decide_eq_false_2 by done. cbn. by apply IH.
Qed.

Lemma join_member_run id addr r s r' s' :
  NoDup (sv_ID <$> raft_servers r) -> NoDup (sv_Address <$> raft_servers r) ->
  dist_Join id addr (r, s) = (Ok tt, (r', s')) ->
  mkServer id addr ∈ raft_servers r' /\
  forall srv, srv ∈ raft_servers r -> sv_ID srv <> id -> srv ∈ raft_servers r'.
Proof.
  intros N1 N2 Hrun. unfold dist_Join in Hrun. inv_ok Hrun. destruct s0 as [r1 s1].
  apply law_GetConfiguration in Hrun0 as [Hs Hl]. rewrite (Hl a eq_refl) in Hrun. inv_ok Hrun. destruct s0 as [r2 s2].
  destruct (decide (mkServer id addr ∈ raft_servers r)) as [Hin|Hout].
  - rewrite (join_loop_member _ _ _ _ N1 N2 Hin) in Hrun0. simplify_eq. cbn in Hrun.
    unfold mret, M_ret in Hrun. simplify_eq. by rewrite Hs.
  - apply join_loop_spec in Hrun0 as [Hkeep Hmem]. rewrite Hs in Hkeep.
    destruct a0; cbn in Hrun; [by destruct Hout; apply Hmem|].
    apply law_AddVoter in Hrun as [Hrun _]. rewrite Hrun. split; [exact (proj1 (add_server_elem id addr _ (mkServer id addr)))|].
    intros srv H0 Hne. apply (proj2 (add_server_elem id addr _ srv)); [by apply Hkeep|done].
Qed.

(** After a successful [Join] the node is a member under its address, and
    every server with another identifier still is, whatever its address. *)
Theorem join_member id addr r s r' s' :
  NoDup (sv_ID <$> raft_servers r) -> NoDup (sv_Address <$> raft_servers r) ->
  dist_Join id addr (r, s) = (Ok tt, (r', s')) ->
  mkServer id addr ∈ raft_servers r' /\
  forall srv, srv ∈ raft_servers r -> sv_ID srv <> id -> srv ∈ raft_servers r'.
Proof. apply join_member_run. Qed.

(** [WaitForLeader] ends: after its ticks and the timeout it has returned,
    with success exactly when it saw a leader at a tick. *)
Theorem wait_for_leader_ends n s :
  (forall x, exists p y, raft_LeaderWithID x = (Ok p, y)) ->
  let r := WaitForLeader (replicate n Tick ++ [TimedOut]) s in
  (r.1 = Ok (Some tt) \/ r.1 = Err (errors_New "timed out waiting for leader")) /\
  (r.1 = Ok (Some tt) <-> exists k s' p, (k < n)%nat /\
     WaitForLeader (replicate k Tick) s = (Ok None, s') /\ (raft_LeaderWithID s').1 = Ok p /\ p.1 <> ""%string).
Proof.
  intros Hl r. subst r. revert s. induction n as [|n IH]; intros s; cbn [replicate app WaitForLeader].
  { split; [by right|]. split; [done|]. intros (k & s' & p & Hk & _). lia. }
  destruct (Hl s) as (p & y & E). rewrite (bind_Ok _ _ _ _ _ E). case_bool_decide as Hp.
  - destruct (IH y) as [H1 H2]. split; [done|]. rewrite H2. split.
    + intros (k & s' & q & Hk & Hrun & Hq). exists (S k), s', q. split; [lia|]. cbn [replicate WaitForLeader].
      rewrite (bind_Ok _ _ _ _ _ E), bool_decide_eq_true_2 by done. done.
    + intros (k & s' & q & Hk & Hrun & Hq & Hne). destruct k as [|k].
      * cbn in Hrun. unfold mret, M_ret in Hrun. simplify_eq. rewrite E in Hq. cbn in Hq. by simplify_eq.
      * cbn [replicate WaitForLeader] in Hrun. rewrite (bind_Ok _ _ _ _ _ E), bool_decide_eq_true_2 in Hrun by done.
        exists k, s', q. split; [lia|done].
  - split; [by left|]. split; [|done]. intros _. exists 0%nat, s, p. rewrite E. split_and!; [lia|done..].
Qed.
End props.

(** ** Witnesses

    A cluster whose only active node commits at once. *)
Module DistributedWitness.
Import Wire Scenario.

#[export] Instance solo : RaftNode (list Server) := {|
  raft_Apply := fun data _ s => let (o, l) := fsm_Apply data s.2 in (o, (s.1, l));
  raft_GetConfiguration := fun s => (Ok s.1, s);
  raft_RemoveServer := fun id _ _ s => (Ok tt, (remove_server id s.1, s.2));
  raft_AddVoter := fun id addr _ _ s =>
    if negb (bool_decide (NoDup (sv_Address <$> add_server id addr s.1)))
    then (Err (errors_New "found duplicate address in configuration"), s)
    else (Ok tt, (add_server id addr s.1, s.2));
  raft_LeaderWithID := mret ("10.0.0.1:8400"%string, "n1"%string);
  raft_Shutdown := mret tt
|}.

#[export] Program Instance solo_laws : RaftLaws (list Server) := {|
  raft_servers := fun r => r; raft_submitted := fun c => command_wf c /\ command_fits 13 c
|}.
Next Obligation.
  intros data t r s resp r' s' H. cbn in H. destruct (fsm_Apply data s) as [o l] eqn:E. simplify_eq.
  exists [], [], [], s, s', [], [], []. split_and!; try done; constructor.
Qed.
Next Obligation. intros r s o r' s' H. cbn in H. simplify_eq. split; [done|]. intros l E. by simplify_eq. Qed.
Next Obligation. intros id r s r' s' H. cbn in H. by simplify_eq. Qed.
Next Obligation. intros id addr r s r' s' H. cbn in H. case_bool_decide; cbn in H; by simplify_eq. Qed.
Next Obligation.
  intros r s r' s' H. cbn in H. unfold mret, M_ret in H. simplify_eq. exists [], [], []. split_and!; try done; constructor.
Qed.

Definition n1 : Server := mkServer "n1" "10.0.0.1:8400".
Definition n2 : Server := mkServer "n2" "10.0.0.2:8400".

Lemma solo_submits : submits (min_frame (default_config plain)).
Proof. intros c Hc. by rewrite plain_min. Qed.

Lemma dist_append_read_witness :
  exists off rn' l' w' recs', dist_Append (Some (wit_record abc)) ([n1], wit_new plain) = (Ok off, (rn', (l', w'))) /\
    log_fit l' w' 5 recs' /\ (dist_Read off (rn', (l', w'))).1 = Ok (set_Offset off (wit_record abc)).
Proof.
  destruct (wit_new_fit plain plain_limits) as [Hr Hc]; [by vm_compute|].
  assert (Ho : is_ok (dist_Append (Some (wit_record abc)) ([n1], wit_new plain)).1 = true) by (by vm_compute).
  destruct (wit_new plain) as [l w]. cbn [fst snd] in Hr, Hc.
  destruct (dist_Append (Some (wit_record abc)) ([n1], (l, w))) as [o [rn' [l' w']]] eqn:E.
  destruct o as [off| |]; [|discriminate Ho..].
  destruct (dist_append_read (wit_record abc) off [n1] rn' l w l' w' 5 [] Hr) as (recs' & H1 & _ & _ & H2).
  - rewrite Hc. exact solo_submits.
  - by vm_compute.
  - rewrite Hc, plain_min. by apply abc_fits.
  - cbn. lia.
  - exact E.
  - exists off, rn', l', w', recs'. split; [exact eq_refl|]. split; [exact H1|exact H2].
Defined.

(** A node that comes back under a new address. *)
Lemma join_member_witness :
  exists r' s', dist_Join "n2" "10.0.0.9:8400" ([n1; n2], wit_new small) = (Ok tt, (r', s')) /\
    mkServer "n2" "10.0.0.9:8400" ∈ r' /\ n1 ∈ r'.
Proof.
  assert (Ho : (dist_Join "n2" "10.0.0.9:8400" ([n1; n2], wit_new small)).1 = Ok tt) by (by vm_compute).
  destruct (dist_Join "n2" "10.0.0.9:8400" ([n1; n2], wit_new small)) as [o [r' s']] eqn:E.
  cbn in Ho. subst o.
  destruct (join_member "n2" "10.0.0.9:8400" [n1; n2] (wit_new small) r' s') as [H1 H2].
  - apply (bool_decide_unpack _). by vm_compute.
  - apply (bool_decide_unpack _). by vm_compute.
  - exact E.
  - exists r', s'. split; [exact eq_refl|]. split; [exact H1|]. apply H2; [set_solver|discriminate].
Defined.

Lemma wait_for_leader_ends_witness :
  (WaitForLeader (replicate 3 Tick ++ [TimedOut]) ([n1], wit_new small)).1 = Ok (Some tt) \/
  (WaitForLeader (replicate 3 Tick ++ [TimedOut]) ([n1], wit_new small)).1 =
    Err (errors_New "timed out waiting for leader").
Proof. apply (wait_for_leader_ends 3 ([n1], wit_new small)). intros x. by eexists _, _. Defined.
End DistributedWitness.
