(* ===== verification/Auth.v ===== *)
(** Authentication and authorisation: [internal/http/auth.go] and
    [internal/auth/authorizer.go].

    The policy engine (casbin) is a dependency: the enforcer is a function.  (The
    lines of the global logger are not part of the model.) *)

From S2P Require Import Prelude Http Server.

(** ** Authentication *)

Definition authenticate (req : Request) : outcome string :=
  match req_TLS req with
  | None => Err (errors_New "no TLS")
  | Some chains =>
      match chains with
      | (name :: _) :: _ => Ok name
      | _ => Err (errors_New "no verified chains")
      end
  end.

Definition GetAuthInfo (ctx : context) : string :=
  match ctx_user ctx with None => "" | Some v => v end.

(** The message of an error that [authenticate] returns. *)
Definition Error_ (e : error) : string := match e with errors_New msg => msg | _ => "" end.

Definition AuthMiddleware {S} (next : http_Handler S) : http_Handler S := fun r =>
  match authenticate r with
  | Ok name => next (WithContext (mkContext (Some name)) r)
  | Err e => mret (HttpError StatusUnauthorized (Error_ e))
  | Panic p => panic p
  end.

(** ** Authorisation *)

(** The loaded [casbin.Enforcer]. *)
Definition Enforcer : Type := string -> string -> string -> outcome bool.

(** [auth.New] *)
Definition auth_New (newEnforcer : string -> string -> outcome Enforcer) (model policy : string) : outcome Enforcer :=
  match newEnforcer model policy with
  | Ok enf => Ok enf
  | Err e => Err (fmt_wrap "failed to create enforcer" e)
  | Panic p => Panic p
  end.

Definition Enforce (a : Enforcer) (sub obj act : string) : outcome bool := a sub obj act.

Definition permission_denied : error :=
  connect_Error CodePermissionDenied (errors_New "permission denied") [].

(** [Interceptor]. *)
Definition Interceptor {S} (a : Enforcer) : UnaryInterceptorFunc S := fun Req Resp next ctx req =>
  ok ← lift (Enforce a (GetAuthInfo ctx) "*" (sp_Procedure (cq_Spec req)));
  if (ok : bool) then next ctx req else throw permission_denied.

(** ** Properties *)

(** Without a client certificate that verified, the service does not run and the
    state does not change: the answer is 401. *)
Lemma unauthenticated_rejected {S} (next : http_Handler S) r s :
  (forall name rest chains, req_TLS r <> Some ((name :: rest) :: chains)) ->
  exists msg, AuthMiddleware next r s = (Ok (HttpError StatusUnauthorized msg), s).
Proof.
  intros H. unfold AuthMiddleware, authenticate.
  destruct (req_TLS r) as [[|[|name rest] chains]|]; cbn in *; eauto. by destruct (H name rest chains).
Qed.

(** A verified client is served as the common name of its leaf certificate. *)
Lemma authenticated_served {S} (next : http_Handler S) r name rest chains :
  req_TLS r = Some ((name :: rest) :: chains) ->
  AuthMiddleware next r = next (WithContext (mkContext (Some name)) r).
Proof. intros H. unfold AuthMiddleware, authenticate. by rewrite H. Qed.

(** Behind the interceptor a call runs exactly when the policy allows the user the
    procedure; otherwise the state does not change. *)
Lemma Interceptor_run {S} (a : Enforcer) {Req Resp} (next : UnaryFunc S Req Resp) ctx req s :
  Interceptor a _ _ next ctx req s =
    match a (GetAuthInfo ctx) "*"%string (sp_Procedure (cq_Spec req)) with
    | Ok true => next ctx req s
    | Ok false => (Err permission_denied, s)
    | Err e => (Err e, s)
    | Panic p => (Panic p, s)
    end.
Proof. unfold Interceptor, Enforce. mrun. by destruct (a _ _ _) as [[]| |]. Qed.
