(* ===== verification/Service.v ===== *)
(** The log service as an HTTP handler: the stubs of
    [gen/log/v1/logv1connect/log.connect.go] and [NewLogAPIHandler] of
    [internal/server/log.go], which adds the error interceptor to the options.

    [connectrpc.com/connect] is a dependency.  [ConnectLib] is the constructors
    of its handlers and [ConnectClientLib] the calls of its clients; [ConnectLaws]
    and [ConnectClientLaws] are what its documentation says about them. *)

From Stdlib Require Import Ascii.
From S2P Require Import Prelude Names Http Proto Server.

(** ** The library *)

(** [connect.Interceptor] values: a [connect.UnaryInterceptorFunc], or the
    interceptor of [otelconnect] with its providers and propagator. *)
Inductive connect_Interceptor (S : Type) :=
| UnaryInterceptor (f : UnaryInterceptorFunc S)
| OtelInterceptor (tracer meter : nat) (propagator : list string).
Arguments UnaryInterceptor {S} _.
Arguments OtelInterceptor {S} _ _ _.

(** [connect.HandlerOption]: the code uses [connect.WithInterceptors]. *)
Inductive HandlerOption (S : Type) := WithInterceptors (ics : list (connect_Interceptor S)).
Arguments WithInterceptors {S} _.

(** Streams: what the peer does at each turn comes in, the messages sent and how
    the handler returned come out. *)
Definition ServerStreamFunc (S : Type) (Req Resp : Set) : Type :=
  context -> connect_Request Req -> list (bool * option error) -> M S (list Resp * option (option error)).
Definition BidiStreamFunc (S : Type) (Req Resp : Set) : Type :=
  context -> list ((Req + error) * option error) -> M S (list Resp * option (option error)).

Class ConnectLib (S : Type) := {
  NewUnaryHandler {Req Resp : Set} `{ProtoMessage Req} `{ProtoMessage Resp} :
    Spec -> UnaryFunc S Req Resp -> list (HandlerOption S) -> http_Handler S;
  NewServerStreamHandler {Req Resp : Set} `{ProtoMessage Req} `{ProtoMessage Resp} :
    Spec -> ServerStreamFunc S Req Resp -> list (HandlerOption S) -> http_Handler S;
  NewBidiStreamHandler {Req Resp : Set} `{ProtoMessage Req} `{ProtoMessage Resp} :
    Spec -> BidiStreamFunc S Req Resp -> list (HandlerOption S) -> http_Handler S
}.

(** [connect.HTTPClient]: [Do], with the content type, the URL and the body of the
    request. *)
Definition HTTPClient (N : Type) : Type := string -> string -> bytes -> M N http_response.

(** [connect.ClientOption]: the code uses [connect.WithGRPC]; the stubs add the schema
    of the method and pass on the options of their caller. *)
Inductive ClientOption := WithGRPC | WithSchema (s : Spec) | WithClientOptions (opts : list ClientOption).

(** The calls of a [connect.Client] made with an HTTP client, a URL and options; a
    stream is a handle. *)
Class ConnectClientLib (N : Type) := {
  CallUnary {Req Resp : Set} `{ProtoMessage Req} `{ProtoMessage Resp} :
    HTTPClient N -> string -> list ClientOption -> context -> Req -> M N Resp;
  CallServerStream {Req : Set} `{ProtoMessage Req} :
    HTTPClient N -> string -> list ClientOption -> context -> Req -> M N nat;
  CallBidiStream : HTTPClient N -> string -> list ClientOption -> context -> M N nat
}.

(** ** The stubs *)

Definition LogAPIName : string := "log.v1.LogAPI".
Definition LogAPIProduceProcedure : string := "/log.v1.LogAPI/Produce".
Definition LogAPIConsumeProcedure : string := "/log.v1.LogAPI/Consume".
Definition LogAPIConsumeStreamProcedure : string := "/log.v1.LogAPI/ConsumeStream".
Definition LogAPIProduceStreamProcedure : string := "/log.v1.LogAPI/ProduceStream".

(** The method descriptors: their name and the name of the service. *)
Definition logAPIMethodDescriptor (name : string) : option (string * string) := Some (name, "LogAPI"%string).
Definition produce_spec : Spec := mkSpec LogAPIProduceProcedure (logAPIMethodDescriptor "Produce").
Definition consume_spec : Spec := mkSpec LogAPIConsumeProcedure (logAPIMethodDescriptor "Consume").
Definition consume_stream_spec : Spec :=
  mkSpec LogAPIConsumeStreamProcedure (logAPIMethodDescriptor "ConsumeStream").
Definition produce_stream_spec : Spec :=
  mkSpec LogAPIProduceStreamProcedure (logAPIMethodDescriptor "ProduceStream").

(** The interface [LogAPIHandler]. *)
Record LogAPIHandler (S : Type) := mkLogAPIHandler {
  api_Produce : UnaryFunc S ProduceRequest ProduceResponse;
  api_Consume : UnaryFunc S ConsumeRequest ConsumeResponse;
  api_ConsumeStream : ServerStreamFunc S ConsumeStreamRequest ConsumeStreamResponse;
  api_ProduceStream : BidiStreamFunc S ProduceStreamRequest ProduceStreamResponse
}.
Arguments mkLogAPIHandler {S} _ _ _ _.
Arguments api_Produce {S} _.
Arguments api_Consume {S} _.
Arguments api_ConsumeStream {S} _.
Arguments api_ProduceStream {S} _.

Definition unimplemented (method : string) : error :=
  connect_Error CodeUnimplemented (errors_New ("log.v1.LogAPI." +:+ method +:+ " is not implemented")) [].

(** (The stream methods return the error before anything is sent.) *)
Definition UnimplementedLogAPIHandler {S} : LogAPIHandler S := mkLogAPIHandler
  (fun _ _ => throw (unimplemented "Produce"))
  (fun _ _ => throw (unimplemented "Consume"))
  (fun _ _ _ => mret ([], Some (Some (unimplemented "ConsumeStream"))))
  (fun _ _ => mret ([], Some (Some (unimplemented "ProduceStream")))).

Section stubs.
Context {S : Type} `{ConnectLib S}.
Context `{ProtoMessage ProduceRequest} `{ProtoMessage ProduceResponse}.
Context `{ProtoMessage ConsumeRequest} `{ProtoMessage ConsumeResponse}.
Context `{ProtoMessage ProduceStreamRequest} `{ProtoMessage ProduceStreamResponse}.
Context `{ProtoMessage ConsumeStreamRequest} `{ProtoMessage ConsumeStreamResponse}.

(** [logv1connect.NewLogAPIHandler] *)
Definition connect_NewLogAPIHandler (svc : LogAPIHandler S) (opts : list (HandlerOption S))
    : string * http_Handler S :=
  let logAPIProduceHandler := NewUnaryHandler produce_spec (api_Produce svc) opts in
  let logAPIConsumeHandler := NewUnaryHandler consume_spec (api_Consume svc) opts in
  let logAPIConsumeStreamHandler := NewServerStreamHandler consume_stream_spec (api_ConsumeStream svc) opts in
  let logAPIProduceStreamHandler := NewBidiStreamHandler produce_stream_spec (api_ProduceStream svc) opts in
  ("/log.v1.LogAPI/"%string, fun r =>
    let path := req_Path r in
    if bool_decide (path = LogAPIProduceProcedure) then logAPIProduceHandler r
    else if bool_decide (path = LogAPIConsumeProcedure) then logAPIConsumeHandler r
    else if bool_decide (path = LogAPIConsumeStreamProcedure) then logAPIConsumeStreamHandler r
    else if bool_decide (path = LogAPIProduceStreamProcedure) then logAPIProduceStreamHandler r
    else http_NotFound r).

(** The methods of [*LogAPIHandler] of [internal/server]. *)
Definition log_handler (config : server_Config S) : LogAPIHandler S :=
  mkLogAPIHandler (Produce config) (Consume config) (ConsumeStream config) (ProduceStream config).

(** [server.NewLogAPIHandler]; its configuration is a pointer. *)
Definition server_NewLogAPIHandler (config : option (server_Config S)) (opts : list (HandlerOption S))
    : outcome (string * http_Handler S) :=
  match config with
  | None => Panic "missing config"
  | Some config =>
      let opts := opts ++ [WithInterceptors [UnaryInterceptor NewErrorInterceptor]] in
      Ok (connect_NewLogAPIHandler (log_handler config) opts)
  end.
End stubs.

(** [strings.TrimRight(s, "/")] *)
Fixpoint drop_slashes (rev : list ascii) : list ascii :=
  match rev with
  | c :: t => if bool_decide (c = "/"%char) then drop_slashes t else rev
  | [] => []
  end.
Definition TrimRight_slash (s : string) : string :=
  String.string_of_list_ascii (reverse (drop_slashes (reverse (String.list_ascii_of_string s)))).

Section client.
Context {N : Type} `{ConnectClientLib N}.
Context `{ProtoMessage ProduceRequest} `{ProtoMessage ProduceResponse}.
Context `{ProtoMessage ConsumeRequest} `{ProtoMessage ConsumeResponse} `{ProtoMessage ConsumeStreamRequest}.

(** The interface [LogAPIClient], which [logAPIClient] implements. *)
Record LogAPIClient := mkLogAPIClient {
  client_Produce : context -> ProduceRequest -> M N ProduceResponse;
  client_Consume : context -> ConsumeRequest -> M N ConsumeResponse;
  client_ConsumeStream : context -> ConsumeStreamRequest -> M N nat;
  client_ProduceStream : context -> M N nat
}.

Definition NewLogAPIClient (httpClient : HTTPClient N) (baseURL : string) (opts : list ClientOption) : LogAPIClient :=
  let baseURL := TrimRight_slash baseURL in
  mkLogAPIClient
    (CallUnary httpClient (baseURL +:+ LogAPIProduceProcedure) [WithSchema produce_spec; WithClientOptions opts])
    (CallUnary httpClient (baseURL +:+ LogAPIConsumeProcedure) [WithSchema consume_spec; WithClientOptions opts])
    (CallServerStream httpClient (baseURL +:+ LogAPIConsumeStreamProcedure)
       [WithSchema consume_stream_spec; WithClientOptions opts])
    (CallBidiStream httpClient (baseURL +:+ LogAPIProduceStreamProcedure)
       [WithSchema produce_stream_spec; WithClientOptions opts]).
End client.

(** ** What the documentation of connect says *)

(** The interceptors of all options, the first outermost; the interceptor of
    [otelconnect] passes the call on and returns its result. *)
Definition option_interceptors {S} (opts : list (HandlerOption S)) : list (connect_Interceptor S) :=
  opts ≫= (fun o => match o with WithInterceptors ics => ics end).

Definition wrap_unary {S} (i : connect_Interceptor S) : UnaryInterceptorFunc S :=
  match i with UnaryInterceptor f => f | OtelInterceptor _ _ _ => fun _ _ next => next end.

Definition unary_chain {S} {Req Resp : Set} (opts : list (HandlerOption S)) (f : UnaryFunc S Req Resp)
    : UnaryFunc S Req Resp :=
  foldr (fun i next => wrap_unary i _ _ next) f (option_interceptors opts).

(** The response to the outcome of a unary call, and to that of a stream. *)
Definition unary_response {S} {Resp : Set} `{ProtoMessage Resp} (m : M S Resp) : M S http_response := fun s =>
  match m s with
  | (Ok res, s') =>
      match Marshal res with
      | Ok b => (Ok (RpcMessage b), s')
      | Err e => (Ok (RpcError (connect_Error CodeInternal e [])), s')
      | Panic p => (Panic p, s')
      end
  | (Err e, s') => (Ok (RpcError e), s')
  | (Panic p, s') => (Panic p, s')
  end.

Definition encode_all {A : Set} `{ProtoMessage A} (ms : list A) : list bytes :=
  omap (fun m => match Marshal m with Ok b => Some b | _ => None end) ms.

Definition stream_response {S} {Resp : Set} `{ProtoMessage Resp}
    (m : M S (list Resp * option (option error))) : M S http_response := fun s =>
  match m s with
  | (Ok (sent, ended), s') => (Ok (RpcStream (encode_all sent) ended), s')
  | (Err e, s') => (Ok (RpcError e), s')
  | (Panic p, s') => (Panic p, s')
  end.

Definition unary_only {S} (i : connect_Interceptor S) : Prop :=
  match i with UnaryInterceptor _ => True | OtelInterceptor _ _ _ => False end.

(** The content types of the protocols: a handler takes Connect's and gRPC's, and a
    client sends Connect's unless [WithGRPC] is among its options. *)
Definition unary_types : list string := ["application/proto"; "application/grpc+proto"]%string.
Definition stream_types : list string := ["application/connect+proto"; "application/grpc+proto"]%string.

Fixpoint is_grpc (o : ClientOption) : bool :=
  match o with
  | WithGRPC => true
  | WithSchema _ => false
  | WithClientOptions opts => existsb is_grpc opts
  end.
Definition unary_type (opts : list ClientOption) : string :=
  if existsb is_grpc opts then "application/grpc+proto"%string else "application/proto"%string.

Lemma unary_type_elem opts : unary_type opts ∈ unary_types.
Proof. unfold unary_type, unary_types. destruct (existsb is_grpc opts); set_solver. Qed.

(** A [connect.UnaryInterceptorFunc] has no effect on streams.  A request that the
    protocol does not accept is answered without a call. *)
Class ConnectLaws (S : Type) `{ConnectLib S} := {
  law_unary {Req Resp : Set} `{ProtoMessage Req} `{ProtoMessage Resp} spec (f : UnaryFunc S Req Resp) opts r b m s :
    req_Method r = "POST"%string -> req_ContentType r ∈ unary_types ->
    req_Body r = [b] -> Unmarshal b = Ok m ->
    NewUnaryHandler spec f opts r s =
      unary_response (unary_chain opts f (req_Context r) (mkConnectRequest m spec (req_RemoteAddr r))) s;
  law_unary_any {Req Resp : Set} `{ProtoMessage Req} `{ProtoMessage Resp} spec (f : UnaryFunc S Req Resp) opts r s :
    (exists m, NewUnaryHandler spec f opts r s =
       unary_response (unary_chain opts f (req_Context r) (mkConnectRequest m spec (req_RemoteAddr r))) s) \/
    (exists resp, NewUnaryHandler spec f opts r s = (Ok resp, s));
  law_server_stream {Req Resp : Set} `{ProtoMessage Req} `{ProtoMessage Resp} spec
      (f : ServerStreamFunc S Req Resp) opts r b m s :
    Forall unary_only (option_interceptors opts) ->
    req_Method r = "POST"%string -> req_ContentType r ∈ stream_types ->
    req_Body r = [b] -> Unmarshal b = Ok m ->
    NewServerStreamHandler spec f opts r s =
      stream_response (f (req_Context r) (mkConnectRequest m spec (req_RemoteAddr r)) (req_Turns r)) s;
  law_bidi_stream {Req Resp : Set} `{ProtoMessage Req} `{ProtoMessage Resp} spec
      (f : BidiStreamFunc S Req Resp) opts r ms s :
    Forall unary_only (option_interceptors opts) ->
    req_Method r = "POST"%string -> req_ContentType r ∈ stream_types ->
    Forall2 (fun b m => Unmarshal b = Ok m) (req_Body r) ms ->
    NewBidiStreamHandler spec f opts r s =
      stream_response (f (req_Context r) (zip ((inl <$> ms) ++ [inr io_EOF]) (req_Turns r).*2)) s
}.

(** A client sends the encoded message and decodes the answer; an error of the
    service keeps its code, and any other answer is an error. *)
Class ConnectClientLaws (N : Type) `{ConnectClientLib N} := {
  law_call {Req Resp : Set} `{ProtoMessage Req} `{ProtoMessage Resp} do url opts ctx (m : Req) b s o s' :
    Marshal m = Ok b -> do (unary_type opts) url b s = (o, s') ->
    match o with
    | Ok (RpcMessage b') => CallUnary (Resp := Resp) do url opts ctx m s = (Unmarshal b', s')
    | Ok (RpcError e) =>
        exists e', CallUnary (Resp := Resp) do url opts ctx m s = (Err e', s') /\ connect_CodeOf e' = connect_CodeOf e
    | _ => exists e', CallUnary (Resp := Resp) do url opts ctx m s = (Err e', s')
    end
}.
