(* ===== verification/HttpClient.v ===== *)
(** The HTTP clients of [internal/http/client.go], up to the connection their
    transport dials. *)

From S2P Require Import Prelude Tls StreamLayer.

Section client.
Context {N : Type} `{Net N}.
Variable LoadX509KeyPair : string -> string -> outcome string.
Variable read_certs : string -> outcome (list string).

(** [http.Client] over an [http2.Transport]: its fields that the code sets.  The
    dialing function gets the address and the TLS configuration of the transport
    for that address. *)
Record http_Client := mkHttpClient {
  hc_AllowHTTP : bool;
  hc_Dial : string -> option tls_Config -> M N Conn;
  hc_TLSClientConfig : option tls_Config
}.

(** [Options], with its field [tlsConfig]. *)
Definition Options : Type := option tls_Config.

Definition WithTLSConfig (cfg : option tls_Config) (o : Options) : Options := cfg.

Definition WithTLS (crt key ca serverName : string) : Options -> Options :=
  WithTLSConfig (match SetupClientTLSConfig LoadX509KeyPair read_certs crt key ca serverName with
                 | Ok cfg => Some cfg
                 | _ => None
                 end).

(** [DefaultClient]: connections without TLS. *)
Definition DefaultClient : http_Client :=
  mkHttpClient true (fun addr _ => conn ← dialer_Dial addr 0; mret (mkConn conn Plain)) None.

Definition DialTLSContext (addr : string) (cfg : option tls_Config) : M N Conn :=
  conn ← dialer_Dial addr 0;
  match cfg with
  | Some cfg => mret (mkConn conn (TlsClient cfg))
  | None => mret (mkConn conn Plain)
  end.

Definition NewH2Client (opts : list (Options -> Options)) : http_Client :=
  let options := foldl (fun o f => f o) None opts in
  mkHttpClient true DialTLSContext options.
End client.
