(* ===== verification/Replicator.v ===== *)
(** [internal/log/replicator/replicator.go]: the pull-based replicator.

    Channels are addresses of a heap of close flags, so that a second [close]
    panics; a channel that was never made is [None].  A goroutine of [replicate]
    is a [worker]: the loop of its [select], the goroutine that receives from the
    stream of the peer, and the buffered channel between the two.  What the peer
    and the local server answer are the events of [worker_step], and the
    interleavings are the sequences of [repl_step].  [r.logger] only logs. *)

From stdpp Require Import gmap strings.
From S2P Require Import Prelude Proto.

(** The receiving goroutine: before [stream.Receive], blocked in the send of the
    record it received, or returned. *)
Inductive receiver := RecvIdle | RecvHolding (rc : option record) | RecvDone.

Inductive stop_reason := StopConsume (e : error) | StopClose | StopLeave | StopProduce (e : error).

Inductive worker_state := Starting | Running | Stopped (why : stop_reason).

(** [wk_received] and [wk_produced] are the records the goroutines took from the
    stream and passed to [LocalServer.Produce] so far. *)
Record worker := mkWorker {
  wk_addr : string;
  wk_leave : nat;
  wk_state : worker_state;
  wk_recv : receiver;
  wk_records : list (option record);
  wk_received : list (option record);
  wk_produced : list (option record)
}.

Record Replicator := mkReplicator {
  r_TLS : bool;
  r_servers : option (gmap string nat);
  r_closed : bool;
  r_close : option nat;
  r_chans : list bool;
  r_workers : list worker
}.

(** A [Replicator] as its client builds it. *)
Definition new_Replicator (tls : bool) : Replicator := mkReplicator tls None false None [] [].

Definition set_servers (m : gmap string nat) (r : Replicator) : Replicator :=
  mkReplicator (r_TLS r) (Some m) (r_closed r) (r_close r) (r_chans r) (r_workers r).
Definition set_closed (r : Replicator) : Replicator :=
  mkReplicator (r_TLS r) (r_servers r) true (r_close r) (r_chans r) (r_workers r).
Definition set_close (ch : nat) (r : Replicator) : Replicator :=
  mkReplicator (r_TLS r) (r_servers r) (r_closed r) (Some ch) (r_chans r) (r_workers r).
Definition set_chans (h : list bool) (r : Replicator) : Replicator :=
  mkReplicator (r_TLS r) (r_servers r) (r_closed r) (r_close r) h (r_workers r).
Definition set_workers (ws : list worker) (r : Replicator) : Replicator :=
  mkReplicator (r_TLS r) (r_servers r) (r_closed r) (r_close r) (r_chans r) ws.

(** ** Channels *)

Definition make_chan : M Replicator nat := fun r =>
  (Ok (length (r_chans r)), set_chans (r_chans r ++ [false]) r).

Definition close_chan (ch : option nat) : M Replicator unit := fun r =>
  match ch with
  | None => (Panic "close of nil channel", r)
  | Some ch =>
      if decide (r_chans r !! ch = Some false) then (Ok tt, set_chans (<[ch := true]> (r_chans r)) r)
      else (Panic "close of closed channel", r)
  end.

(** A receive is ready on a closed channel (nothing is ever sent), and blocks
    forever on a nil channel. *)
Definition chan_ready (r : Replicator) (ch : option nat) : bool :=
  match ch with Some ch => bool_decide (r_chans r !! ch = Some true) | None => false end.

(** ** The methods, each under the lock *)

Definition lookup_server (r : Replicator) (name : string) : option nat :=
  r_servers r ≫= (fun m => m !! name).

Definition repl_init : M Replicator unit :=
  r ← get;
  (match r_servers r with None => modify (set_servers ∅) | Some _ => mret tt end);;
  r ← get;
  match r_close r with
  | None => ch ← make_chan; modify (set_close ch)
  | Some _ => mret tt
  end.

Definition spawn (addr : string) (leave : nat) : M Replicator unit :=
  modify (fun r => set_workers (r_workers r ++ [mkWorker addr leave Starting RecvIdle [] [] []]) r).

Definition repl_Join (name addr : string) : M Replicator unit :=
  repl_init;;
  r ← get;
  if r_closed r then mret tt else
  match lookup_server r name with
  | Some _ => mret tt
  | None =>
      ch ← make_chan;
      (match r_servers r with
       | Some m => modify (set_servers (<[name := ch]> m))
       | None => panic "assignment to entry in nil map"
       end);;
      spawn addr ch
  end.

Definition repl_Leave (name : string) : M Replicator unit :=
  repl_init;;
  r ← get;
  match lookup_server r name with
  | None => mret tt
  | Some ch =>
      close_chan (Some ch);;
      modify (fun r' => set_servers (delete name (default ∅ (r_servers r'))) r')
  end.

Definition repl_Close : M Replicator unit :=
  repl_init;;
  r ← get;
  if r_closed r then mret tt else
  modify set_closed;;
  close_chan (r_close r).

(** ** [replicate] *)

Definition records_cap : nat := 16.

Definition replicate_url (tls : bool) (addr : string) : string :=
  if tls then "https://" +:+ addr else "http://" +:+ addr.

(** What a goroutine of [replicate] does next, with the answer of its peer: the
    stream is opened; a record or the end is received; the received record is
    sent to the channel; a case of the [select] is taken. *)
Inductive worker_event :=
| EvConsume (url : string) (res : option error)
| EvReceive (rc : option record)
| EvStreamEnd
| EvPush
| EvClose
| EvLeave
| EvProduce (res : option error).

Definition worker_step (r : Replicator) (ev : worker_event) (w : worker) : option worker :=
  let 'mkWorker addr leave st recv records received produced := w in
  match st, ev with
  | Starting, EvConsume url res =>
      if decide (url = replicate_url (r_TLS r) addr) then
        match res with
        | Some e => Some (mkWorker addr leave (Stopped (StopConsume e)) RecvDone records received produced)
        | None => Some (mkWorker addr leave Running RecvIdle records received produced)
        end
      else None
  | Running, EvClose =>
      if chan_ready r (r_close r)
      then Some (mkWorker addr leave (Stopped StopClose) recv records received produced) else None
  | Running, EvLeave =>
      if chan_ready r (Some leave)
      then Some (mkWorker addr leave (Stopped StopLeave) recv records received produced) else None
  | Running, EvProduce res =>
      match records with
      | [] => None
      | rc :: records =>
          let st' := match res with Some e => Stopped (StopProduce e) | None => Running end in
          Some (mkWorker addr leave st' recv records received (produced ++ [rc]))
      end
  | (Running | Stopped _), EvReceive rc =>
      match recv with
      | RecvIdle => Some (mkWorker addr leave st (RecvHolding rc) records (received ++ [rc]) produced)
      | _ => None
      end
  | (Running | Stopped _), EvStreamEnd =>
      match recv with
      | RecvIdle => Some (mkWorker addr leave st RecvDone records received produced)
      | _ => None
      end
  | (Running | Stopped _), EvPush =>
      match recv with
      | RecvHolding rc =>
          if decide (length records < records_cap)%nat
          then Some (mkWorker addr leave st RecvIdle (records ++ [rc]) received produced) else None
      | _ => None
      end
  | _, _ => None
  end.

(** ** Interleavings *)

Inductive repl_step : Replicator -> Replicator -> Prop :=
| call_Join name addr o r r' : repl_Join name addr r = (o, r') -> repl_step r r'
| call_Leave name o r r' : repl_Leave name r = (o, r') -> repl_step r r'
| call_Close o r r' : repl_Close r = (o, r') -> repl_step r r'
| worker_runs i w w' ev r :
    r_workers r !! i = Some w -> worker_step r ev w = Some w' ->
    repl_step r (set_workers (<[i := w']> (r_workers r)) r).

(** What clients and goroutines can reach from a new replicator. *)
Definition reachable (r : Replicator) : Prop := exists tls, rtc repl_step (new_Replicator tls) r.
