(* ===== verification/ReplicatorProps.v ===== *)
(** The replicator under every interleaving of its clients and goroutines. *)

From stdpp Require Import gmap strings.
From S2P Require Import Prelude Proto Replicator.

Definition held (rv : receiver) : list (option record) :=
  match rv with RecvHolding rc => [rc] | _ => [] end.

(** Nothing is lost, added or reordered between the stream and [Produce]. *)
Definition worker_inv (w : worker) : Prop :=
  wk_produced w ++ wk_records w ++ held (wk_recv w) = wk_received w /\
  (length (wk_records w) <= records_cap)%nat /\
  (wk_state w = Starting -> wk_recv w = RecvIdle).

Record repl_inv (r : Replicator) : Prop := {
  ri_close ch : r_close r = Some ch -> r_chans r !! ch = Some (r_closed r);
  ri_closed : r_closed r = true -> is_Some (r_close r);
  ri_open name ch : lookup_server r name = Some ch -> r_chans r !! ch = Some false;
  ri_inj n1 n2 ch : lookup_server r n1 = Some ch -> lookup_server r n2 = Some ch -> n1 = n2;
  ri_sep name ch : lookup_server r name = Some ch -> r_close r <> Some ch;
  ri_worker name ch : lookup_server r name = Some ch -> ch ∈ wk_leave <$> r_workers r;
  ri_nodup : NoDup (wk_leave <$> r_workers r);
  ri_bound ch : ch ∈ wk_leave <$> r_workers r -> (ch < length (r_chans r))%nat;
  ri_sane : Forall worker_inv (r_workers r)
}.

Lemma lookup_servers r m name : r_servers r = Some m -> lookup_server r name = m !! name.
Proof. unfold lookup_server. by intros ->. Qed.

Lemma lookup_chans_grow (h : list bool) ch b x : h !! ch = Some b -> (h ++ [x]) !! ch = Some b.
Proof. apply lookup_app_l_Some. Qed.

Lemma repl_init_spec r :
  repl_inv r ->
  exists m ch r', repl_init r = (Ok tt, r') /\ repl_inv r' /\ r_servers r' = Some m /\ r_close r' = Some ch /\
    (forall name, lookup_server r' name = lookup_server r name) /\ r_closed r' = r_closed r /\
    r_workers r' = r_workers r /\ r_TLS r' = r_TLS r /\
    (forall c b, r_chans r !! c = Some b -> r_chans r' !! c = Some b).
Proof.
  intros Hr. unfold repl_init.
  set (r1 := match r_servers r with None => set_servers ∅ r | Some _ => r end).
  assert (Hl1 : forall name, lookup_server r1 name = lookup_server r name).
  { intros name. unfold r1, lookup_server. destruct (r_servers r) eqn:E; [by rewrite E|done]. }
  assert (H1 : exists m, r_servers r1 = Some m) by (unfold r1; destruct (r_servers r) eqn:E; eauto).
  assert (Hi1 : repl_inv r1).
  { destruct Hr. unfold r1 in *. destruct (r_servers r) eqn:E; [by split|].
    split; try (cbn; eassumption); intros *; rewrite ?Hl1; cbn; eauto. }
  assert (Hf : (r_close r1, r_closed r1, r_workers r1, r_TLS r1, r_chans r1) =
               (r_close r, r_closed r, r_workers r, r_TLS r, r_chans r))
    by (unfold r1; by destruct (r_servers r)).
  injection Hf as Hf1 Hf2 Hf3 Hf4 Hf5. destruct H1 as [m H1].
  unfold mbind, M_bind, get, modify, mret, M_ret. cbn beta iota.
  replace (match r_servers r with None => fun s => (Ok (), set_servers ∅ s) | Some _ => fun s => (Ok (), s) end r)
    with (Ok (), r1) by (unfold r1; by destruct (r_servers r)).
  destruct (r_close r1) as [ch|] eqn:Ec; cbn.
  - exists m, ch, r1. rewrite Hf2, Hf3, Hf4, Hf5. by split_and!.
  - eexists m, _, _. split; [done|]. cbn. rewrite Hf2, Hf3, Hf4, Hf5. split_and!; try done.
    2:{ intros c b. apply lookup_chans_grow. }
    rewrite <- Hf5. destruct Hi1 as [I1 I2 I3 I4 I5 I6 I7 I8 I9]. split; cbn; try done.
    + intros ? [= <-]. rewrite list_lookup_middle by done. f_equal.
      destruct (r_closed r1) eqn:E; [|done]. destruct (I2 eq_refl) as [? ?]. congruence.
    + intros name c E. apply lookup_chans_grow. by eapply I3.
    + intros name c E [= <-]. apply I3, lookup_lt_Some in E. lia.
    + intros c Hc. apply I8 in Hc. rewrite length_app. lia.
Qed.

(** The three methods, after [init]. *)
Lemma repl_Join_spec name addr r :
  repl_inv r ->
  exists r', repl_Join name addr r = (Ok tt, r') /\ repl_inv r' /\ r_closed r' = r_closed r /\
    (forall n, is_Some (lookup_server r' n) <->
       is_Some (lookup_server r n) \/ (n = name /\ r_closed r = false)) /\
    (forall n c, lookup_server r n = Some c -> lookup_server r' n = Some c) /\
    (r_closed r = true \/ is_Some (lookup_server r name) -> r_workers r' = r_workers r) /\
    (forall c b, r_chans r !! c = Some b -> r_chans r' !! c = Some b).
Proof.
  intros Hr. destruct (repl_init_spec r Hr) as (m & ch & r1 & E & Hr1 & Hm & Hch & Hl & Hc & Hw & _ & Hch1).
  unfold repl_Join. rewrite (bind_Ok _ _ _ _ _ E). unfold mbind at 1, M_bind at 1, get. rewrite Hc.
  destruct (r_closed r) eqn:Hcl.
  { eexists. split; [done|]. split_and!; try done; intros n; rewrite Hl; naive_solver. }
  destruct (lookup_server r1 name) as [c|] eqn:Hn.
  { eexists. split; [done|]. split_and!; try done; intros n; rewrite Hl; [|done]. split; [naive_solver|].
    intros [H|[-> _]]; [done|]. by rewrite <- Hl, Hn. }
  rewrite Hm. set (r2 := set_workers (r_workers r1 ++ [mkWorker addr (length (r_chans r1)) Starting RecvIdle [] [] []])
    (set_servers (<[name := length (r_chans r1)]> m) (set_chans (r_chans r1 ++ [false]) r1))).
  exists r2. split; [reflexivity|]. assert (Hl2 : forall n, lookup_server r2 n =
    if decide (n = name) then Some (length (r_chans r1)) else lookup_server r1 n).
  { intros n. rewrite (lookup_servers r1 m n Hm). unfold lookup_server, r2. cbn.
    destruct (decide (n = name)) as [->|Hne]; [by rewrite lookup_insert_eq|by rewrite lookup_insert_ne]. }
  pose proof Hr1 as [I1 I2 I3 I4 I5 I6 I7 I8 I9].
  assert (Hfresh : forall n c, lookup_server r1 n = Some c -> c <> length (r_chans r1)).
  { intros n c H. apply I3, lookup_lt_Some in H. lia. }
  split_and!; try done.
  - split; try (intros *; rewrite ?Hl2); cbn; rewrite ?Hcl, ?fmap_app; try done.
    + intros Hq. apply lookup_chans_grow. by apply I1.
    + destruct (decide _) as [->|Hne]; [intros [= <-]; by apply list_lookup_middle|].
      intros Hq. apply lookup_chans_grow. by eapply I3.
    + repeat destruct (decide _); intros; simplify_eq; try done; [exfalso; by eapply Hfresh..|by eapply I4].
    + destruct (decide _) as [->|Hne]; [|by apply I5].
      intros [= <-] Hq. apply I1, lookup_lt_Some in Hq. lia.
    + destruct (decide _) as [->|Hne]; [intros [= <-]; set_solver|]. intros Hq. apply I6 in Hq. set_solver.
    + apply list.NoDup_app. split; [done|]. split; [|apply NoDup_singleton]. intros c Hin Hin2.
      apply I8 in Hin. cbn in Hin2. apply list_elem_of_singleton in Hin2. lia.
    + intros Hin. rewrite length_app. cbn. apply elem_of_app in Hin as [Hin|Hin]; [apply I8 in Hin; lia|].
      cbn in Hin. apply list_elem_of_singleton in Hin. lia.
    + apply Forall_app_2; [done|]. constructor; [|constructor]. split_and!; [done|cbn; lia|done].
  - intros n. rewrite Hl2, Hl. destruct (decide (n = name)); naive_solver.
  - intros n c. rewrite Hl2, <- Hl. destruct (decide (n = name)); congruence.
  - intros [?|H]; [done|]. rewrite Hl in Hn. rewrite Hn in H. by destruct H.
  - intros c b H. apply lookup_chans_grow. by apply Hch1.
Qed.

Lemma repl_Leave_spec name r :
  repl_inv r ->
  exists r', repl_Leave name r = (Ok tt, r') /\ repl_inv r' /\ r_closed r' = r_closed r /\
    (forall n, lookup_server r' n = if decide (n = name) then None else lookup_server r n) /\
    r_workers r' = r_workers r /\
    (forall ch, lookup_server r name = Some ch -> r_chans r' !! ch = Some true) /\
    (forall c, r_chans r !! c = Some true -> r_chans r' !! c = Some true).
Proof.
  intros Hr. destruct (repl_init_spec r Hr) as (m & ch0 & r1 & E & Hr1 & Hm & Hch & Hl & Hc & Hw & _ & Hch1).
  unfold repl_Leave. rewrite (bind_Ok _ _ _ _ _ E). unfold mbind at 1, M_bind at 1, get.
  destruct (lookup_server r1 name) as [ch|] eqn:Hn.
  2:{ exists r1. rewrite <- Hl, Hn. split_and!; try done; [|by auto].
      intros n. rewrite <- Hl. by destruct (decide (n = name)) as [->|]. }
  pose proof Hr1 as [I1 I2 I3 I4 I5 I6 I7 I8 I9]. pose proof (I3 _ _ Hn) as Hopen.
  pose proof (lookup_lt_Some _ _ _ Hopen) as Hlt.
  set (r2 := set_servers (delete name m) (set_chans (<[ch := true]> (r_chans r1)) r1)).
  assert (Hl2 : forall n, lookup_server r2 n = if decide (n = name) then None else lookup_server r1 n).
  { intros n. rewrite (lookup_servers r1 m n Hm), (lookup_servers r2 (delete name m) n eq_refl).
    destruct (decide (n = name)) as [->|]; [apply lookup_delete_eq|by apply lookup_delete_ne]. }
  exists r2. split.
  { erewrite bind_Ok by (unfold close_chan; by rewrite decide_True by done).
    unfold modify. cbn. by rewrite Hm. }
  split_and!; try done.
  - split; try (intros *; rewrite ?Hl2); cbn; rewrite ?length_insert; try done.
    + intros Hq. rewrite list_lookup_insert_ne; [by apply I1|]. intros ->. by eapply I5.
    + destruct (decide _) as [->|Hne]; [done|]. intros Hq. rewrite list_lookup_insert_ne; [by eapply I3|].
      intros ->. apply Hne. by eapply I4.
    + repeat destruct (decide _); try done. apply I4.
    + destruct (decide _); [done|apply I5].
    + destruct (decide _); [done|apply I6].
    + apply I8.
  - intros n. by rewrite Hl2, Hl.
  - rewrite <- Hl, Hn. intros ? [= <-]. by apply list_lookup_insert_eq.
  - intros c H. cbn. destruct (decide (ch = c)) as [->|]; [by apply list_lookup_insert_eq|].
    rewrite list_lookup_insert_ne by done. by apply Hch1.
Qed.

Lemma repl_Close_spec r :
  repl_inv r ->
  exists r' ch, repl_Close r = (Ok tt, r') /\ repl_inv r' /\ r_closed r' = true /\
    r_close r' = Some ch /\ (forall n, lookup_server r' n = lookup_server r n) /\ r_workers r' = r_workers r /\
    (forall c, r_chans r !! c = Some true -> r_chans r' !! c = Some true).
Proof.
  intros Hr. destruct (repl_init_spec r Hr) as (m & ch & r1 & E & Hr1 & Hm & Hch & Hl & Hc & Hw & _ & Hch1).
  unfold repl_Close. rewrite (bind_Ok _ _ _ _ _ E). unfold mbind at 1, M_bind at 1, get.
  destruct (r_closed r1) eqn:Hcl. { exists r1, ch. by split_and!; auto. }
  pose proof Hr1 as [I1 I2 I3 I4 I5 I6 I7 I8 I9]. pose proof (I1 _ Hch) as Hopen. rewrite Hcl in Hopen.
  pose proof (lookup_lt_Some _ _ _ Hopen) as Hlt.
  set (r2 := set_chans (<[ch := true]> (r_chans r1)) (set_closed r1)).
  exists r2, ch. split.
  { unfold mbind, M_bind, modify. cbn. rewrite Hch. cbn. by rewrite decide_True by done. }
  split_and!; try done.
  - split; cbn; rewrite ?length_insert; try done.
    + intros c. rewrite Hch. intros [= <-]. by apply list_lookup_insert_eq.
    + intros name c Hq. rewrite list_lookup_insert_ne; [by eapply I3|]. intros ->. by eapply I5.
  - intros c H. cbn. destruct (decide (ch = c)) as [->|]; [by apply list_lookup_insert_eq|].
    rewrite list_lookup_insert_ne by done. by apply Hch1.
Qed.

(** A step of a goroutine keeps its channel and its records. *)
Lemma worker_step_spec r ev w w' :
  worker_step r ev w = Some w' -> worker_inv w ->
  worker_inv w' /\ wk_leave w' = wk_leave w /\ wk_produced w `prefix_of` wk_produced w' /\
  (forall why, wk_state w = Stopped why -> wk_state w' = Stopped why /\ wk_produced w' = wk_produced w).
Proof.
  unfold worker_inv. intros H (H1 & H2 & H3). destruct w as [a l st rv recs rcvd prod]. cbn in H1, H2, H3.
  destruct st; try rewrite (H3 eq_refl) in *; destruct ev; cbn in H; try discriminate H; repeat case_match; simplify_eq; cbn in *;
    rewrite <- ?app_assoc, ?app_nil_r in *; (split_and!; try done; try (by intros)); try lia.
  all: first [by apply prefix_app_r|rewrite length_app; cbn; lia].
Qed.

Lemma repl_step_inv r r' : repl_step r r' -> repl_inv r -> repl_inv r'.
Proof.
  destruct 1 as [name addr o r r' H|name o r r' H|o r r' H|i w w' ev r Hi Hs]; intros Hr.
  - destruct (repl_Join_spec name addr r Hr) as (r2 & E & ? & _). rewrite E in H. by simplify_eq.
  - destruct (repl_Leave_spec name r Hr) as (r2 & E & ? & _). rewrite E in H. by simplify_eq.
  - destruct (repl_Close_spec r Hr) as (r2 & ch & E & ? & _). rewrite E in H. by simplify_eq.
  - destruct Hr as [I1 I2 I3 I4 I5 I6 I7 I8 I9].
    destruct (worker_step_spec _ _ _ _ Hs (Forall_lookup_1 _ _ _ _ I9 Hi)) as (Hw & Hl & _).
    assert (E : wk_leave <$> <[i := w']> (r_workers r) = wk_leave <$> r_workers r).
    { rewrite list_fmap_insert, Hl. apply list_insert_id. by rewrite list_lookup_fmap, Hi. }
    split; cbn; rewrite ?E; try done. by apply Forall_insert.
Qed.

Lemma new_inv tls : repl_inv (new_Replicator tls).
Proof. split; cbn; try done; [constructor|set_solver]. Qed.

Lemma repl_steps_inv r r' : rtc repl_step r r' -> repl_inv r -> repl_inv r'.
Proof. induction 1; eauto using repl_step_inv. Qed.

Lemma reachable_inv r : reachable r -> repl_inv r.
Proof. intros [tls H]. eapply repl_steps_inv; [exact H|apply new_inv]. Qed.

(** Closed channels stay closed, and stopped goroutines stopped. *)
Definition settled (r r' : Replicator) : Prop :=
  (forall c, r_chans r !! c = Some true -> r_chans r' !! c = Some true) /\
  (r_closed r = true -> r_closed r' = true) /\
  (forall i w, r_workers r !! i = Some w -> exists w', r_workers r' !! i = Some w' /\
     wk_leave w' = wk_leave w /\
     forall why, wk_state w = Stopped why -> wk_state w' = Stopped why /\ wk_produced w' = wk_produced w).

Lemma settled_trans r1 r2 r3 : settled r1 r2 -> settled r2 r3 -> settled r1 r3.
Proof.
  intros (A1 & A2 & A3) (B1 & B2 & B3). split_and!; eauto.
  intros i w Hi. destruct (A3 i w Hi) as (w2 & Hi2 & L2 & S2). destruct (B3 i w2 Hi2) as (w3 & Hi3 & L3 & S3).
  exists w3. split_and!; [done|congruence|]. intros why Hs. destruct (S2 why Hs) as [S2a S2b].
  destruct (S3 why S2a) as [S3a S3b]. by rewrite S3b.
Qed.

Lemma settled_same r r' :
  r_workers r' = r_workers r -> (r_closed r = true -> r_closed r' = true) ->
  (forall c, r_chans r !! c = Some true -> r_chans r' !! c = Some true) -> settled r r'.
Proof. intros Hw Hc Hh. split_and!; auto. intros i w. rewrite Hw. eauto. Qed.

Lemma repl_Join_workers name addr r :
  repl_inv r -> exists ws, r_workers (repl_Join name addr r).2 = r_workers r ++ ws.
Proof.
  intros Hr. destruct (repl_init_spec r Hr) as (m & ch & r1 & E & _ & Hm & _ & _ & _ & Hw & _).
  unfold repl_Join. rewrite (bind_Ok _ _ _ _ _ E). unfold mbind at 1, M_bind at 1, get.
  rewrite <- Hw. destruct (r_closed r1); [exists []; by rewrite app_nil_r|].
  destruct (lookup_server r1 name); [exists []; by rewrite app_nil_r|].
  rewrite Hm. exists [mkWorker addr (length (r_chans r1)) Starting RecvIdle [] [] []]. reflexivity.
Qed.

Lemma repl_step_settled r r' : repl_step r r' -> repl_inv r -> settled r r'.
Proof.
  destruct 1 as [name addr o r r' H|name o r r' H|o r r' H|i w w' ev r Hi Hs]; intros Hr.
  - destruct (repl_Join_workers name addr r Hr) as [ws Hw].
    destruct (repl_Join_spec name addr r Hr) as (r2 & E & _ & Hc & _ & _ & _ & Hh).
    rewrite E in H, Hw. cbn in Hw. simplify_eq. split_and!; [auto|congruence|].
    intros i w0 Hi. exists w0. rewrite Hw. split_and!; [by apply lookup_app_l_Some|done|done].
  - destruct (repl_Leave_spec name r Hr) as (r2 & E & _ & Hc & _ & Hw & _ & Hh). rewrite E in H. simplify_eq.
    apply settled_same; [done|congruence|auto].
  - destruct (repl_Close_spec r Hr) as (r2 & ch & E & _ & Hc & _ & _ & Hw & Hh). rewrite E in H. simplify_eq.
    by apply settled_same.
  - destruct (worker_step_spec _ _ _ _ Hs (Forall_lookup_1 _ _ _ _ (ri_sane _ Hr) Hi)) as (_ & Hl & _ & Hst).
    split_and!; try done. intros j wj Hj. cbn. destruct (decide (i = j)) as [<-|Hne].
    + simplify_eq. exists w'. split; [apply list_lookup_insert_eq; by eapply lookup_lt_Some|done].
    + exists wj. by rewrite list_lookup_insert_ne.
Qed.

Lemma repl_steps_settled r r' : rtc repl_step r r' -> repl_inv r -> settled r r'.
Proof.
  induction 1 as [r|r r1 r' Hs _ IH]; intros Hr.
  - by apply settled_same.
  - eapply settled_trans; [by apply repl_step_settled|apply IH]. by eapply repl_step_inv.
Qed.

(** ** Properties *)

(** C21. No interleaving of [Join], [Leave], [Close] and the goroutines makes a
    method fail or panic (a channel is never closed twice), and every registered
    server has exactly one goroutine of its own. *)
Theorem replicator_calls_safe r name addr :
  reachable r ->
  (repl_Join name addr r).1 = Ok tt /\ (repl_Leave name r).1 = Ok tt /\ (repl_Close r).1 = Ok tt /\
  (forall n ch, lookup_server r n = Some ch ->
     exists i w, r_workers r !! i = Some w /\ wk_leave w = ch /\
       (forall j w', r_workers r !! j = Some w' -> wk_leave w' = ch -> j = i) /\
       (forall n', lookup_server r n' = Some ch -> n' = n)).
Proof.
  intros Hr. apply reachable_inv in Hr.
  destruct (repl_Join_spec name addr r Hr) as (? & -> & _), (repl_Leave_spec name r Hr) as (? & -> & _),
    (repl_Close_spec r Hr) as (? & ? & -> & _). split_and!; try done.
  intros n ch Hn. destruct (list_elem_of_lookup_1 _ _ (ri_worker _ Hr _ _ Hn)) as [i Hi].
  pose proof Hi as Hi'. rewrite list_lookup_fmap in Hi'. apply fmap_Some in Hi' as (w & Hw & ->).
  exists i, w. split_and!; [done..| |].
  - intros j w' Hj E. eapply NoDup_lookup; [apply (ri_nodup _ Hr)| |exact Hi].
    by rewrite list_lookup_fmap, Hj, <- E.
  - intros n' Hn'. by eapply ri_inj.
Qed.

(** C20. What a goroutine hands to the local server is a prefix of what its peer
    streamed, in order, and it lags behind by at most the channel and the record
    in the sender's hand; a goroutine that has stopped therefore holds no more
    than that. *)
Theorem replicate_in_order r i w :
  reachable r -> r_workers r !! i = Some w ->
  wk_produced w `prefix_of` wk_received w /\
  (length (wk_received w) <= length (wk_produced w) + records_cap + 1)%nat.
Proof.
  intros Hr Hi. apply reachable_inv in Hr. destruct (Forall_lookup_1 _ _ _ _ (ri_sane _ Hr) Hi) as (<- & Hl & _).
  split; [by apply prefix_app_r|]. rewrite !length_app. destruct (wk_recv w); cbn; lia.
Qed.

(** C25. After [Close] every goroutine, and after [Leave] that of its server, can stop:
    from then on, however the others run, one that is in its loop can take the
    stopping case of its [select], and one that had stopped before never produces
    again. *)
Theorem replicator_stops r0 r r' i w name :
  reachable r0 -> r_workers r0 !! i = Some w ->
  (repl_Close r0).2 = r \/ (lookup_server r0 name = Some (wk_leave w) /\ (repl_Leave name r0).2 = r) ->
  rtc repl_step r r' ->
  exists w', r_workers r' !! i = Some w' /\
    (wk_state w' = Running -> exists ev w'', (ev = EvClose \/ ev = EvLeave) /\
       worker_step r' ev w' = Some w'' /\ wk_state w'' <> Running) /\
    (forall why, wk_state w = Stopped why -> wk_state w' = Stopped why /\ wk_produced w' = wk_produced w).
Proof.
  intros Hr Hi Hstop Hsteps. apply reachable_inv in Hr.
  assert (repl_inv r /\ r_workers r = r_workers r0 /\
    (r_closed r = true \/ r_chans r !! wk_leave w = Some true)) as (Hr1 & Hw & Hreq).
  { destruct Hstop as [<-|[Hl <-]].
    - destruct (repl_Close_spec r0 Hr) as (r1 & ch & -> & H1 & H2 & _ & _ & H3 & _). auto.
    - destruct (repl_Leave_spec name r0 Hr) as (r1 & -> & H1 & _ & _ & H3 & H4 & _). auto. }
  pose proof (repl_steps_inv _ _ Hsteps Hr1) as Hr2.
  destruct (repl_steps_settled _ _ Hsteps Hr1) as (S1 & S2 & S3). rewrite <- Hw in Hi.
  destruct (S3 i w Hi) as (w' & Hi' & Hl & Hst). exists w'. split_and!; [done| |done].
  intros Hrun. destruct w' as [a l st rv recs rcvd prod]. cbn in Hrun, Hl. subst st l.
  destruct Hreq as [Hc|Hc].
  - apply S2 in Hc. destruct (ri_closed _ Hr2 Hc) as [ch Hch]. pose proof (ri_close _ Hr2 _ Hch) as Hopen.
    exists EvClose. cbn. rewrite Hch. cbn. rewrite bool_decide_eq_true_2 by congruence.
    eexists. split_and!; [by left|done|done].
  - apply S1 in Hc. exists EvLeave. cbn. rewrite bool_decide_eq_true_2 by done.
    eexists. split_and!; [by right|done|done].
Qed.

(** A server whose goroutine failed is not replicated again: it stays
    registered, and [Join] starts nothing for it, at whatever address. *)
Theorem replicator_no_retry r name addr i w e :
  reachable r -> r_workers r !! i = Some w -> lookup_server r name = Some (wk_leave w) ->
  wk_state w = Stopped (StopConsume e) \/ wk_state w = Stopped (StopProduce e) ->
  exists ch, lookup_server (repl_Join name addr r).2 name = Some ch /\
    forall j w', r_workers (repl_Join name addr r).2 !! j = Some w' -> wk_leave w' = ch ->
      exists why, wk_state w' = Stopped why.
Proof.
  intros Hr Hi Hl Hst. apply reachable_inv in Hr.
  destruct (repl_Join_spec name addr r Hr) as (r' & -> & _ & _ & _ & Hs & Hw & _). cbn [snd].
  exists (wk_leave w). split; [by apply Hs|]. rewrite Hw by (right; by rewrite Hl). intros j w' Hj E.
  assert (j = i) as ->.
  { eapply NoDup_lookup; [apply (ri_nodup _ Hr)|..]; rewrite list_lookup_fmap; [by rewrite Hj|by rewrite Hi, E]. }
  simplify_eq. destruct Hst; eauto.
Qed.

(** ** Witnesses *)
Module ReplicatorWitness.

(** Runs an event of a goroutine, when it is enabled. *)
Definition run_event (i : nat) (r : Replicator) (ev : worker_event) : Replicator :=
  match r_workers r !! i with
  | Some w => match worker_step r ev w with Some w' => set_workers (<[i := w']> (r_workers r)) r | None => r end
  | None => r
  end.

Lemma run_events_steps i evs r : rtc repl_step r (foldl (run_event i) r evs).
Proof.
  revert r. induction evs as [|ev evs IH]; intros r; cbn; [constructor|].
  transitivity (run_event i r ev); [|apply IH]. unfold run_event.
  destruct (r_workers r !! i) as [w|] eqn:E; [|constructor].
  destruct (worker_step r ev w) as [w'|] eqn:E'; [|constructor]. apply rtc_once. by eapply worker_runs.
Qed.

Definition joined : Replicator := (repl_Join "n2" "10.0.0.2:8400" (new_Replicator false)).2.

Lemma joined_events evs : reachable (foldl (run_event 0) joined evs).
Proof.
  exists false. eapply rtc_l; [|apply run_events_steps]. eapply call_Join. apply surjective_pairing.
Qed.

Definition rec1 : option record := Some (mkRecord [Byte.x61] 0 1 0).
Definition rec2 : option record := Some (mkRecord [Byte.x62] 1 1 0).
Definition url : string := "http://10.0.0.2:8400".

(** One record replicated and one received. *)
Definition replicating : Replicator :=
  foldl (run_event 0) joined [EvConsume url None; EvReceive rec1; EvPush; EvReceive rec2; EvProduce None].
(** The peer could not be reached. *)
Definition refused : Replicator := foldl (run_event 0) joined [EvConsume url (Some (Errno 111))].

Lemma replicator_calls_safe_witness :
  (repl_Leave "n2" replicating).1 = Ok tt /\ (repl_Close replicating).1 = Ok tt /\
  exists i w, r_workers replicating !! i = Some w /\ wk_leave w = 1%nat.
Proof.
  destruct (replicator_calls_safe replicating "n2" "" (joined_events _)) as (_ & H1 & H2 & H3).
  split_and!; [done|done|]. destruct (H3 "n2"%string 1%nat) as (i & w & ? & ? & _); [by vm_compute|eauto].
Defined.

Lemma replicate_in_order_witness :
  exists w, r_workers replicating !! 0%nat = Some w /\ wk_received w = [rec1; rec2] /\
    wk_produced w `prefix_of` [rec1; rec2].
Proof.
  eexists. split; [vm_compute; reflexivity|]. split; [reflexivity|].
  eapply (replicate_in_order replicating 0); [apply joined_events|vm_compute; reflexivity].
Defined.

Lemma replicator_stops_witness :
  exists w ev w'', r_workers (repl_Leave "n2" replicating).2 !! 0%nat = Some w /\
    worker_step (repl_Leave "n2" replicating).2 ev w = Some w'' /\ wk_state w'' <> Running.
Proof.
  destruct (replicator_stops replicating (repl_Leave "n2" replicating).2 (repl_Leave "n2" replicating).2 0
    (mkWorker "10.0.0.2:8400" 1 Running (RecvHolding rec2) [] [rec1; rec2] [rec1]) "n2" (joined_events _))
    as (w' & Hw & Hrun & _).
  - vm_compute. reflexivity.
  - right. split; [vm_compute; reflexivity|reflexivity].
  - constructor.
  - destruct Hrun as (ev & w'' & _ & H1 & H2); [|by exists w', ev, w''].
    assert (E : wk_state <$> r_workers (repl_Leave "n2" replicating).2 !! 0%nat = Some Running) by (by vm_compute).
    rewrite Hw in E. by injection E.
Defined.

Lemma replicator_no_retry_witness :
  exists ch, lookup_server (repl_Join "n2" "10.0.0.3:8400" refused).2 "n2" = Some ch /\
    forall j w', r_workers (repl_Join "n2" "10.0.0.3:8400" refused).2 !! j = Some w' -> wk_leave w' = ch ->
      exists why, wk_state w' = Stopped why.
Proof.
  eapply (replicator_no_retry refused "n2" "10.0.0.3:8400" 0 _ (Errno 111) (joined_events _)).
  - vm_compute. reflexivity.
  - vm_compute. reflexivity.
  - left. reflexivity.
Defined.
End ReplicatorWitness.
