(* ===== verification/Discovery.v ===== *)
(** [internal/discovery/membership.go]: cluster membership from serf's events.

    Serf is a dependency: [SerfLib] is the functions of the package the code
    calls, on serf's state, and the event channel delivers the values of [wakeup]
    that the loop of [eventHandler] receives.  The handler is an interface of the
    program, [Handler]; the replicated log and the replicator implement it. *)

From stdpp Require Import gmap strings.
From S2P Require Import Prelude.

Class Handler (S : Type) := {
  h_Join : string -> string -> M S unit;
  h_Leave : string -> M S unit
}.

(** [serf.Member], of which the code reads the name and the tags. *)
Record Member := mkMember { mb_Name : string; mb_Tags : gmap string string }.

Inductive event :=
| EventMemberJoin (ms : list Member)
| EventMemberLeave (ms : list Member)
| EventMemberFailed (ms : list Member)
| EventOther.

Definition raft_ErrNotLeader : error := errors_New "node is not the leader".

(** [err == raft.ErrNotLeader] *)
Definition is_ErrNotLeader (e : error) : bool :=
  match e with errors_New msg => bool_decide (msg = "node is not the leader"%string) | _ => false end.

Inductive level := LevelDebug | LevelError.
Record entry := mkEntry { en_level : level; en_msg : string; en_err : error; en_member : Member }.

Section handler.
Context {S : Type} `{Handler S}.
(** The handler's state and the lines of the logger. *)
Local Abbreviation hst := (S * list entry)%type.

Definition logError (msg : string) (e : error) (m : Member) : M hst unit :=
  let lvl := if is_ErrNotLeader e then LevelDebug else LevelError in
  modify (fun s => (s.1, s.2 ++ [mkEntry lvl msg e m])).

Definition on_handler {A} (m : M S A) : M hst A := zoom fst (fun h s => (h, s.2)) m.

Definition handleJoin (m : Member) : M hst unit :=
  r ← try (on_handler (h_Join (mb_Name m) (default "" (mb_Tags m !! "rpc_addr"%string))));
  match r with inl _ => mret tt | inr e => logError "failed to handle join" e m end.

Definition handleLeave (m : Member) : M hst unit :=
  r ← try (on_handler (h_Leave (mb_Name m)));
  match r with inl _ => mret tt | inr e => logError "failed to handle leave" e m end.

(** [local] is the name of [m.serf.LocalMember()]. *)
Definition isLocal (local : string) (m : Member) : bool := bool_decide (mb_Name m = local).

Fixpoint each_remote (local : string) (f : Member -> M hst unit) (ms : list Member) : M hst unit :=
  match ms with
  | [] => mret tt
  | m :: ms => if isLocal local m then each_remote local f ms else f m;; each_remote local f ms
  end.

Definition handle_event (local : string) (e : event) : M hst unit :=
  match e with
  | EventMemberJoin ms => each_remote local handleJoin ms
  | EventMemberLeave ms | EventMemberFailed ms => each_remote local handleLeave ms
  | EventOther => mret tt
  end.

(** What the [select] receives; [None] says that the loop still waits. *)
Inductive wakeup := Shutdown | Event (e : event).

Fixpoint eventHandler (local : string) (ws : list wakeup) : M hst (option unit) :=
  match ws with
  | [] => mret None
  | Shutdown :: _ => mret (Some tt)
  | Event e :: ws => handle_event local e;; eventHandler local ws
  end.
End handler.

(** ** Construction *)

Record discovery_Config := mkDiscoveryConfig {
  dc_NodeName : string;
  dc_BindAddress : string;
  dc_Tags : gmap string string;
  dc_StartJoinAddresses : option (list string)
}.

(** The fields of [serf.Config] that [setupSerf] sets on the defaults, the
    capacity of the event channel among them. *)
Record serf_Config := mkSerfConfig {
  sc_BindAddr : string;
  sc_BindPort : Z;
  sc_EventCh : nat;
  sc_Tags : gmap string string;
  sc_NodeName : string
}.

Class SerfLib (F : Type) := {
  net_ResolveTCPAddr : string -> M F (string * Z);
  serf_Create : serf_Config -> M F unit;
  serf_Join : list string -> bool -> M F Z;
  serf_Members : M F (list Member);
  serf_Leave : M F unit
}.

(** [Membership], with whether its pointer to serf is set. *)
Record Membership := mkMembership { mem_Config : discovery_Config; mem_serf : bool }.

Section setup.
Context {F : Type} `{SerfLib F}.
Local Abbreviation mst := (Membership * F)%type.

Definition on_serf {A} (m : M F A) : M mst A := zoom snd (fun f s => (s.1, f)) m.

(** [setupSerf]; the goroutine of [eventHandler] starts after [serf.Create]. *)
Definition setupSerf : M mst unit :=
  s ← get;
  let c := mem_Config s.1 in
  addr ← on_serf (net_ResolveTCPAddr (dc_BindAddress c));
  on_serf (serf_Create (mkSerfConfig addr.1 addr.2 256 (dc_Tags c) (dc_NodeName c)));;
  modify (fun s => (mkMembership c true, s.2));;
  match dc_StartJoinAddresses c with
  | Some addrs => on_serf (serf_Join addrs true);; mret tt
  | None => mret tt
  end.

(** [New] returns the membership beside an error too. *)
Definition discovery_New (c : discovery_Config) : M F (Membership * option error) := fun f =>
  match setupSerf (mkMembership c false, f) with
  | (Ok _, (m, f)) => (Ok (m, None), f)
  | (Err e, (m, f)) => (Ok (m, Some e), f)
  | (Panic p, (m, f)) => (Panic p, f)
  end.

(** The methods of a [nil] serf panic. *)
Definition Membership_Members (m : Membership) : M F (list Member) :=
  if mem_serf m then serf_Members else panic "nil pointer dereference".
Definition Membership_Leave (m : Membership) : M F unit :=
  if mem_serf m then serf_Leave else panic "nil pointer dereference".
End setup.
