(* ===== verification/DiscoveryProps.v ===== *)
(** Membership events reach the handler: what discovery shows of any handler that
    keeps the promise [HandlerLaws], and the two handlers of the program. *)

From stdpp Require Import gmap strings.
From S2P Require Import Prelude Endian OS Proto Wire Config Store Index Names Segment Log LogInv.
From S2P Require Import LogReopen LogSpec Scenario Raft LogStore Fsm FsmProps RaftPebble Distributed.
From S2P Require Import DistributedProps Replicator ReplicatorProps Discovery.

(** The set of names a handler serves, in the states it can be in; a call that
    returns [nil] adds or removes its name. *)
Class HandlerLaws (S : Type) `{Handler S} := {
  h_inv : S -> Prop;
  h_members : S -> gset string;
  law_Join name addr s s' :
    h_inv s -> h_Join name addr s = (Ok tt, s') -> h_inv s' /\ h_members s' = {[name]} ∪ h_members s;
  law_Leave name s s' :
    h_inv s -> h_Leave name s = (Ok tt, s') -> h_inv s' /\ h_members s' = h_members s ∖ {[name]}
}.

(** What the events say about the cluster. *)
Definition remote_names (local : string) (ms : list Member) : gset string :=
  list_to_set (mb_Name <$> ms) ∖ {[local]}.

Fixpoint spec_members (local : string) (ws : list wakeup) (X : gset string) : gset string :=
  match ws with
  | [] | Shutdown :: _ => X
  | Event (EventMemberJoin ms) :: ws => spec_members local ws (remote_names local ms ∪ X)
  | Event (EventMemberLeave ms | EventMemberFailed ms) :: ws => spec_members local ws (X ∖ remote_names local ms)
  | Event EventOther :: ws => spec_members local ws X
  end.

Section props.
Context {S : Type} `{Hh : Handler S} {Hl : HandlerLaws S}.
Implicit Types (s : S) (lines : list entry).

(** [calls m f]: a run of [m] logs at the end, and when it logs nothing it
    changes the members by [f]. *)
Definition calls {A} (m : M (S * list entry) A) (f : gset string -> gset string) : Prop :=
  forall s lines o s' lines', m (s, lines) = (o, (s', lines')) ->
    lines `prefix_of` lines' /\
    (forall a, o = Ok a -> lines' = lines -> h_inv s -> h_inv s' /\ h_members s' = f (h_members s)).

Lemma calls_seq {A B} (m : M _ A) (k : M _ B) f g :
  calls m f -> calls k g -> calls (m;; k) (fun X => g (f X)).
Proof.
  intros Hm Hk s lines o s' lines' H. unfold mbind, M_bind in H.
  destruct (m (s, lines)) as [[a|e|p] [s1 l1]] eqn:E.
  2,3: simplify_eq; destruct (Hm _ _ _ _ _ E) as [Hp _]; by split.
  destruct (Hm _ _ _ _ _ E) as [Hp1 H1], (Hk _ _ _ _ _ H) as [Hp2 H2].
  split; [by etransitivity|]. intros b Hb -> Hi.
  assert (l1 = lines) as -> by (apply (anti_symm prefix); done).
  destruct (H1 a eq_refl eq_refl Hi) as [Hi1 <-]. by eapply H2.
Qed.

Lemma calls_ret {A} (a : A) : calls (mret a) id.
Proof. intros s lines o s' lines' H. unfold mret, M_ret in H. by simplify_eq. Qed.

(** A handler call whose error is logged. *)
Lemma calls_handler (call : M S unit) msg m f :
  (forall s s', h_inv s -> call s = (Ok tt, s') -> h_inv s' /\ h_members s' = f (h_members s)) ->
  calls (r ← try (on_handler call);
         match r with inl _ => mret tt | inr e => logError msg e m end) f.
Proof.
  intros Hc s lines o s' lines' H. unfold mbind, M_bind, try, on_handler, zoom in H. cbn [fst snd] in H.
  destruct (call s) as [[[]|e|p] s1] eqn:E; cbn in H; unfold mret, M_ret, logError, modify in H; simplify_eq.
  - split; [done|]. intros. by apply Hc.
  - split; [by apply prefix_app_r|]. intros a _ Hq. symmetry in Hq.
    by apply (f_equal length) in Hq; rewrite length_app in Hq; cbn in Hq; lia.
  - split; [done|]. intros a Ha. done.
Qed.

Lemma calls_each local (f : Member -> M (S * list entry) unit) g ms :
  (forall m, calls (f m) (g (mb_Name m))) ->
  calls (each_remote local f ms)
    (fun X => foldl (fun X m => if bool_decide (mb_Name m = local) then X else g (mb_Name m) X) X ms).
Proof.
  intros Hf. induction ms as [|m ms IH]; cbn [each_remote foldl]; [apply calls_ret|].
  unfold isLocal. case_bool_decide; [exact IH|]. exact (calls_seq _ _ _ _ (Hf m) IH).
Qed.

Lemma calls_ext {A} (m : M _ A) f g : (forall X, f X = g X) -> calls m f -> calls m g.
Proof. intros E Hm s lines o s' lines' H. rewrite <- E. by apply Hm. Qed.

Lemma fold_join local ms X :
  foldl (fun X m => if bool_decide (mb_Name m = local) then X else {[mb_Name m]} ∪ X) X ms =
  remote_names local ms ∪ X.
Proof.
  unfold remote_names. revert X. induction ms as [|m ms IH]; intros X; cbn; [set_solver|].
  rewrite IH. case_bool_decide as E; [subst; set_solver|]. set_unfold. intros x. split; [|naive_solver].
  destruct (decide (x = local)); naive_solver.
Qed.

Lemma fold_leave local ms X :
  foldl (fun X m => if bool_decide (mb_Name m = local) then X else X ∖ {[mb_Name m]}) X ms =
  X ∖ remote_names local ms.
Proof.
  unfold remote_names. revert X. induction ms as [|m ms IH]; intros X; cbn; [set_solver|].
  rewrite IH. case_bool_decide as E; [subst; set_solver|]. set_unfold. intros x. split; [|naive_solver].
  destruct (decide (x = mb_Name m)); naive_solver.
Qed.

Lemma calls_join local ms : calls (each_remote local handleJoin ms) (fun X => remote_names local ms ∪ X).
Proof.
  eapply calls_ext; [apply fold_join|].
  apply (calls_each local handleJoin (fun n X => {[n]} ∪ X)). intros m. apply calls_handler. intros s s'. apply law_Join.
Qed.

Lemma calls_leave local ms : calls (each_remote local handleLeave ms) (fun X => X ∖ remote_names local ms).
Proof.
  eapply calls_ext; [apply fold_leave|].
  apply (calls_each local handleLeave (fun n X => X ∖ {[n]})). intros m. apply calls_handler. intros s s'. apply law_Leave.
Qed.

Lemma calls_loop local ws : calls (eventHandler local ws) (spec_members local ws).
Proof.
  induction ws as [|[|[ms|ms|ms|]] ws IH]; cbn [eventHandler spec_members handle_event].
  - apply calls_ret.
  - apply calls_ret.
  - exact (calls_seq _ _ _ _ (calls_join local ms) IH).
  - exact (calls_seq _ _ _ _ (calls_leave local ms) IH).
  - exact (calls_seq _ _ _ _ (calls_leave local ms) IH).
  - exact (calls_seq _ _ _ _ (calls_ret tt) IH).
Qed.

(** C22. The cluster follows serf: as long as no error was logged, the handler
    serves exactly the members the events name, every joined one that has not
    left or failed since and never the local node on its own account, for any
    handler that keeps its promise. *)
Theorem members_tracked local ws s lines o s' :
  h_inv s -> eventHandler local ws (s, lines) = (Ok o, (s', lines)) ->
  h_inv s' /\ h_members s' = spec_members local ws (h_members s).
Proof. intros Hi H. destruct (calls_loop local ws _ _ _ _ _ H) as [_ Hc]. by eapply Hc. Qed.
End props.

(** The loop survives the errors of its handler, whose states keep [P]. *)
Section errors.
Context {S : Type} `{Hh : Handler S} (P : S -> Prop).

Definition line_ok (local : string) (en : entry) : Prop :=
  mb_Name (en_member en) <> local /\ (en_level en = LevelDebug <-> en_err en = raft_ErrNotLeader).

Definition no_panic {A} (m : M S A) : Prop := forall s, P s -> P (m s).2 /\ forall p, (m s).1 <> Panic p.

Definition survives {A} (a : A) (local : string) (m : M (S * list entry) A) : Prop :=
  forall s lines, P s ->
  exists s' news, m (s, lines) = (Ok a, (s', lines ++ news)) /\ P s' /\ Forall (line_ok local) news.

Lemma survives_seq {A} (a : A) local (m : M _ unit) k :
  survives tt local m -> survives a local k -> survives a local (m;; k).
Proof.
  intros Hm Hk s lines Hs. destruct (Hm s lines Hs) as (s1 & n1 & E1 & P1 & F1).
  destruct (Hk s1 (lines ++ n1) P1) as (s2 & n2 & E2 & P2 & F2).
  exists s2, (n1 ++ n2). rewrite (bind_Ok _ _ _ _ _ E1), E2, app_assoc. split_and!; [done..|]. by apply Forall_app_2.
Qed.

Lemma survives_ret {A} (a : A) local : survives a local (mret a).
Proof. intros s lines Hs. exists s, []. rewrite app_nil_r. split_and!; [done..|constructor]. Qed.

Lemma is_ErrNotLeader_spec e : is_ErrNotLeader e = true <-> e = raft_ErrNotLeader.
Proof.
  unfold raft_ErrNotLeader. destruct e; cbn; try (by split; intros; simplify_eq).
  rewrite bool_decide_eq_true. split; [by intros ->|by intros [= ->]].
Qed.

Lemma survives_handler (call : M S unit) msg m local :
  no_panic call -> mb_Name m <> local ->
  survives tt local (r ← try (on_handler call);
                     match r with inl _ => mret tt | inr e => logError msg e m end).
Proof.
  intros Hc Hm s lines Hs. unfold mbind, M_bind, try, on_handler, zoom. cbn [fst snd].
  destruct (Hc s Hs) as [HP Hn]. destruct (call s) as [[[]|e|p] s1]; cbn in *; [..|by destruct (Hn p)].
  - exists s1, []. rewrite app_nil_r. split_and!; [done..|constructor].
  - eexists s1, [_]. split_and!; [done..|]. constructor; [|constructor]. split; [done|]. cbn.
    rewrite <- is_ErrNotLeader_spec. by destruct (is_ErrNotLeader e).
Qed.

Lemma survives_each local f ms :
  (forall m, mb_Name m <> local -> survives tt local (f m)) -> survives tt local (each_remote local f ms).
Proof.
  intros Hf. induction ms as [|m ms IH]; cbn [each_remote]; [apply survives_ret|].
  unfold isLocal. case_bool_decide; [done|]. apply survives_seq; auto.
Qed.

(** An error of the handler does not end the event loop: after any events it
    waits for the next one, and every line it has logged is of a remote member,
    at debug level exactly when the node was not the leader. *)
Theorem event_loop_survives local evs s lines :
  (forall name addr, no_panic (h_Join name addr)) -> (forall name, no_panic (h_Leave name)) -> P s ->
  exists s' news, eventHandler local (Event <$> evs) (s, lines) = (Ok None, (s', lines ++ news)) /\
    P s' /\ Forall (line_ok local) news.
Proof.
  intros Hj Hlv. revert s lines. change (survives None local (eventHandler local (Event <$> evs))).
  induction evs as [|e evs IH]; [apply survives_ret|]. rewrite fmap_cons. cbn [eventHandler].
  apply survives_seq; [|done].
  destruct e; cbn [handle_event]; try apply survives_ret; apply survives_each; intros m Hm;
    apply survives_handler; auto.
Qed.
End errors.

(** ** The handlers of the program *)

(** The deprecated replicator, while it is not closed. *)
#[export] Instance replicator_handler : Handler Replicator := {| h_Join := repl_Join; h_Leave := repl_Leave |}.

Definition served (r : Replicator) : gset string := dom (default ∅ (r_servers r)).

Lemma elem_of_served r n : n ∈ served r <-> is_Some (lookup_server r n).
Proof.
  unfold served, lookup_server. rewrite elem_of_dom. by destruct (r_servers r).
Qed.

#[export, refine] Instance replicator_handler_laws : HandlerLaws Replicator := {|
  h_inv r := repl_inv r /\ r_closed r = false;
  h_members := served
|}.
Proof.
  - intros name addr r r' [Hr Hc] H. cbn in H.
    destruct (repl_Join_spec name addr r Hr) as (r1 & E & Hr1 & Hc1 & Hs & _). rewrite E in H. simplify_eq.
    split; [split; congruence|]. apply set_eq. intros n. rewrite elem_of_union, elem_of_singleton, !elem_of_served, Hs.
    naive_solver.
  - intros name r r' [Hr Hc] H. cbn in H.
    destruct (repl_Leave_spec name r Hr) as (r1 & E & Hr1 & Hc1 & Hs & _). rewrite E in H. simplify_eq.
    split; [split; congruence|]. apply set_eq. intros n. rewrite elem_of_difference, elem_of_singleton, !elem_of_served, Hs.
    destruct (decide (n = name)); [|naive_solver]. split; [by intros [? ?]|naive_solver].
Defined.

(** The replicated log, in a cluster without duplicate servers. *)
Section dist.
Context {R : Type} `{Hnode : RaftNode R}.
Context `{Hmsg : ProtoMessage record} {Hlaws : ProtoLaws record record_wf}.
Context `{Hreq : ProtoMessage ProduceRequest} {Hreqlaws : ProtoLaws ProduceRequest ProduceRequest_wf}.
Context {Hraft : RaftLaws R}.

#[export] Instance dist_handler : Handler (R * lst) := {| h_Join := dist_Join; h_Leave := dist_Leave |}.

Lemma remove_server_twice id l : remove_server id (remove_server id l) = remove_server id l.
Proof.
  unfold remove_server. rewrite list_filter_filter. apply list_filter_iff. intros; tauto.
Qed.

Lemma join_loop_servers id addr servers r s b r' s' :
  join_loop id addr servers (r, s) = (Ok b, (r', s')) ->
  raft_servers r' = raft_servers r \/ raft_servers r' = remove_server id (raft_servers r).
Proof.
  revert r s. induction servers as [|srv servers IH]; intros r s Hrun; cbn [join_loop] in Hrun.
  { unfold mret, M_ret in Hrun. simplify_eq. by left. }
  destruct (_ || _); [|by eapply IH]. destruct (_ && _).
  { unfold mret, M_ret in Hrun. simplify_eq. by left. }
  unfold mbind, M_bind, try in Hrun.
  destruct (raft_RemoveServer id 0 0 (r, s)) as [[[]|e|p] [r1 s1]] eqn:Er; [|done..].
  apply law_RemoveServer in Er. right.
  destruct (IH _ _ Hrun) as [->| ->]; rewrite Er; [done|apply remove_server_twice].
Qed.

Definition ids (r : R) : gset string := list_to_set (sv_ID <$> raft_servers r).

Lemma add_server_ids id addr l :
  (list_to_set (sv_ID <$> add_server id addr l) : gset string) = {[id]} ∪ list_to_set (sv_ID <$> l) /\
  (NoDup (sv_ID <$> l) -> NoDup (sv_ID <$> add_server id addr l)).
Proof.
  induction l as [|srv l [IH1 IH2]]; cbn; [split; [set_solver|intros _; apply NoDup_singleton]|].
  case_bool_decide as E; cbn; [subst; split; [set_solver|done]|].
  split; [set_solver|]. intros [N1 N2]%list.NoDup_cons. apply list.NoDup_cons. split; [|auto].
  rewrite <- (elem_of_list_to_set (C := gset string)), IH1. set_unfold. naive_solver.
Qed.

Lemma remove_server_ids id l :
  (list_to_set (sv_ID <$> remove_server id l) : gset string) = list_to_set (sv_ID <$> l) ∖ {[id]}.
Proof.
  unfold remove_server. induction l as [|srv l IH]; [set_solver|]. rewrite filter_cons.
  case_decide; cbn; rewrite IH; set_solver.
Qed.

Lemma remove_server_nodup {A} (f : Server -> A) id l :
  NoDup (f <$> l) -> NoDup (f <$> remove_server id l).
Proof. intros H. eapply sublist_NoDup; [exact H|]. apply fmap_sublist, sublist_filter. Qed.

Lemma dist_Join_ids id addr r s r' s' :
  NoDup (sv_ID <$> raft_servers r) -> NoDup (sv_Address <$> raft_servers r) ->
  dist_Join id addr (r, s) = (Ok tt, (r', s')) ->
  NoDup (sv_ID <$> raft_servers r') /\ NoDup (sv_Address <$> raft_servers r') /\ ids r' = {[id]} ∪ ids r.
Proof.
  intros N1 N2 Hrun. unfold dist_Join in Hrun. inv_ok Hrun. destruct s0 as [r1 s1].
  apply law_GetConfiguration in Hrun0 as [Hs Hl]. rewrite (Hl a eq_refl) in Hrun. inv_ok Hrun. destruct s0 as [r2 s2].
  destruct (decide (mkServer id addr ∈ raft_servers r)) as [Hin|Hout].
  - rewrite (join_loop_member _ _ _ _ N1 N2 Hin) in Hrun0. simplify_eq. cbn in Hrun.
    unfold mret, M_ret in Hrun. simplify_eq. unfold ids. rewrite Hs. split_and!; [done..|].
    apply (list_elem_of_fmap_2 sv_ID) in Hin. set_solver.
  - pose proof (join_loop_servers _ _ _ _ _ _ _ _ Hrun0) as Hr2. rewrite Hs in Hr2.
    apply join_loop_spec in Hrun0 as [_ Hmem].
    destruct a0; cbn in Hrun; [by destruct Hout; apply Hmem|].
    apply law_AddVoter in Hrun as [Hrun Ha]. unfold ids.
    destruct (add_server_ids id addr (raft_servers r2)) as [I1 I2]. split_and!; [|done|].
    + rewrite Hrun. apply I2. destruct Hr2 as [->| ->]; [done|by apply remove_server_nodup].
    + rewrite Hrun, I1. destruct Hr2 as [->| ->]; [done|]. rewrite remove_server_ids.
      set_unfold. intros x. destruct (decide (x = id)); naive_solver.
Qed.

#[export, refine] Instance dist_handler_laws : HandlerLaws (R * lst) := {|
  h_inv s := NoDup (sv_ID <$> raft_servers s.1) /\ NoDup (sv_Address <$> raft_servers s.1);
  h_members s := ids s.1
|}.
Proof.
  - intros name addr [r s] [r' s'] [N1 N2] H. by apply dist_Join_ids in H as (H1 & H2 & H3).
  - intros name [r s] [r' s'] [N1 N2] H. cbn in H, N1, N2. unfold dist_Leave in H.
    apply law_RemoveServer in H. cbn. unfold ids. rewrite H, remove_server_ids.
    split; [|done]. split; by apply remove_server_nodup.
Defined.
End dist.

(** ** Witnesses *)
Module DiscoveryWitness.
Import Wire Scenario DistributedWitness.

Definition member (name addr : string) : Member := mkMember name {["rpc_addr"%string := addr]}.

Definition story : list wakeup :=
  [Event (EventMemberJoin [member "n1" "10.0.0.1:8400"; member "n2" "10.0.0.2:8400"]);
   Event (EventMemberJoin [member "n3" "10.0.0.3:8400"]); Event EventOther;
   Event (EventMemberFailed [member "n2" "10.0.0.2:8400"]); Shutdown].

Lemma members_tracked_witness :
  exists s', eventHandler "n1" story (([n1], wit_new small), []) = (Ok (Some tt), (s', [])) /\
    ids s'.1 = {["n1"%string; "n3"%string]}.
Proof.
  assert (Ho : (eventHandler "n1" story (([n1], wit_new small), [])).1 = Ok (Some tt)) by (by vm_compute).
  assert (Hn : (eventHandler "n1" story (([n1], wit_new small), [])).2.2 = []) by (by vm_compute).
  destruct (eventHandler "n1" story (([n1], wit_new small), [])) as [o [s' lines']] eqn:E.
  cbn in Ho, Hn. subst o lines'. exists s'. split; [exact eq_refl|].
  destruct (members_tracked "n1" story ([n1], wit_new small) [] (Some tt) s') as [_ H].
  - split; apply NoDup_singleton.
  - exact E.
  - change (ids s'.1 = spec_members "n1" story (ids [n1])) in H. rewrite H. by vm_compute.
Defined.

Lemma solo_join_loop id addr servers s : exists b s', join_loop (R := list Server) id addr servers s = (Ok b, s').
Proof.
  revert s. induction servers as [|srv servers IH]; intros s; cbn [join_loop]; [by eexists _, _|].
  destruct (_ || _); [|apply IH]. destruct (_ && _); [by eexists _, _|].
  unfold mbind, M_bind, try. cbn. apply IH.
Qed.

Lemma solo_no_panic : 
  (forall name addr, no_panic (S := list Server * lst) (fun _ => True) (h_Join name addr)) /\
  (forall name, no_panic (S := list Server * lst) (fun _ => True) (h_Leave name)).
Proof.
  split; intros *; (split; [done|]); intros p; [|done]. cbn. unfold dist_Join.
  unfold mbind at 1, M_bind at 1. cbn [raft_GetConfiguration solo].
  destruct (solo_join_loop name addr s.1 s) as (b & s' & E). rewrite (bind_Ok _ _ _ _ _ E).
  destruct b; cbn; [done|]. by case_match.
Qed.

(** A node that asks for the address of another one. *)
Lemma event_loop_survives_witness :
  exists s' news, eventHandler "n1" (Event <$> [EventMemberJoin [member "n2" "10.0.0.1:8400"]])
    (([n1], wit_new small), []) = (Ok None, (s', [] ++ news)) /\ True /\ Forall (line_ok "n1") news.
Proof.
  apply (event_loop_survives (S := list Server * lst) (fun _ => True) "n1");
    [apply solo_no_panic|apply solo_no_panic|exact I].
Defined.
End DiscoveryWitness.
