(* ===== verification/Otel.v ===== *)
(** [internal/otel/setup.go]: the set-up of telemetry and its shutdown.

    The OpenTelemetry SDK is a dependency: [OtelLib] is the functions the code
    calls, on the state [O] of the SDK; providers are handles, and constructors
    do not fail.  The variable [shutdownFuncs] that the closures of
    [SetupOTelSDK] share is part of the state. *)

From S2P Require Import Prelude.

Definition second : Z := 1000000000.

(** The options the code passes, exporters being handles. *)
Inductive TracerProviderOption := WithSampler_AlwaysSample | WithBatcher (exporter : nat) (batchTimeout : Z).
Inductive MetricOption := WithReader_Periodic (exporter : nat) (interval : Z).

Class OtelLib (O : Type) := {
  trace_NewTracerProvider : list TracerProviderOption -> O -> nat * O;
  metric_NewMeterProvider : list MetricOption -> O -> nat * O;
  tracer_Shutdown : nat -> M O unit;
  meter_Shutdown : nat -> M O unit;
  otel_SetTextMapPropagator : list string -> O -> O;
  otel_SetTracerProvider : nat -> O -> O;
  otel_SetMeterProvider : nat -> O -> O
}.

(** [errors.Join(a, b)]: [nil] when both are. *)
Definition errors_Join2 (a b : option error) : option error :=
  match a, b with
  | None, None => None
  | Some a, None => Some (errors_Join [a])
  | None, Some b => Some (errors_Join [b])
  | Some a, Some b => Some (errors_Join [a; b])
  end.

(** The method values that are registered. *)
Inductive shutdown_func := TracerShutdown (provider : nat) | MeterShutdown (provider : nat).

Section setup.
Context {O : Type} `{OtelLib O}.
Local Abbreviation ost := (list shutdown_func * O)%type.

Definition call_shutdown (f : shutdown_func) : M O unit :=
  match f with TracerShutdown p => tracer_Shutdown p | MeterShutdown p => meter_Shutdown p end.

(** The loop of [shutdown]. *)
Fixpoint shutdown_loop (fns : list shutdown_func) (err : option error) : M O (option error) :=
  match fns with
  | [] => mret err
  | fn :: fns =>
      r ← try (call_shutdown fn);
      shutdown_loop fns (errors_Join2 err (match r with inl _ => None | inr e => Some e end))
  end.

(** The closure [shutdown], with the error it returns. *)
Definition otel_shutdown : M ost (option error) :=
  s ← get;
  err ← zoom snd (fun o s => (s.1, o)) (shutdown_loop s.1 None);
  modify (fun s => ([], s.2));;
  mret err.

Definition handleErr {A} (inErr : error) : M ost A :=
  err ← otel_shutdown;
  match errors_Join2 (Some inErr) err with
  | Some e => throw e
  | None => panic "errors.Join of an error is an error"
  end.

(** [newPropagator]: the composite of two propagators. *)
Definition newPropagator : list string := ["TraceContext"; "Baggage"]%string.

Definition newTraceProvider (traceExporter : option nat) : M O nat := fun o =>
  let opts := [WithSampler_AlwaysSample] ++
              match traceExporter with Some e => [WithBatcher e second] | None => [] end in
  let (p, o) := trace_NewTracerProvider opts o in (Ok p, o).

Definition newMeterProvider (metricExporter : option nat) : M O nat := fun o =>
  let opts := match metricExporter with Some e => [WithReader_Periodic e second] | None => [] end in
  let (p, o) := metric_NewMeterProvider opts o in (Ok p, o).

Definition on_sdk {A} (m : M O A) : M ost A := zoom snd (fun o s => (s.1, o)) m.
Definition register (fn : shutdown_func) : M ost unit := modify (fun s => (s.1 ++ [fn], s.2)).

(** The providers and the propagator; the closure [shutdown] is [otel_shutdown] on
    the state it leaves. *)
Definition SetupOTelSDK (metricExporter traceExporter : option nat) : M ost (nat * nat * list string) :=
  let propagator := newPropagator in
  modify (fun s => (s.1, otel_SetTextMapPropagator propagator s.2));;
  r ← try (on_sdk (newTraceProvider traceExporter));
  match r with
  | inr e => handleErr e
  | inl tracerProvider =>
      register (TracerShutdown tracerProvider);;
      modify (fun s => (s.1, otel_SetTracerProvider tracerProvider s.2));;
      r ← try (on_sdk (newMeterProvider metricExporter));
      match r with
      | inr e => handleErr e
      | inl meterProvider =>
          register (MeterShutdown meterProvider);;
          modify (fun s => (s.1, otel_SetMeterProvider meterProvider s.2));;
          mret (tracerProvider, meterProvider, propagator)
      end
  end.

(** ** Properties *)

(** The errors a joined error is made of, in order. *)
Fixpoint error_leaves (e : error) : list error :=
  match e with
  | errors_Join es => (fix go (es : list error) : list error :=
                         match es with [] => [] | e :: es => error_leaves e ++ go es end) es
  | e => [e]
  end.
Definition leaves (err : option error) : list error := from_option error_leaves [] err.

Lemma leaves_Join2 a b : leaves (errors_Join2 a b) = leaves a ++ leaves b.
Proof. destruct a, b; cbn; by rewrite ?app_nil_r. Qed.

Lemma errors_Join2_None a b : errors_Join2 a b = None <-> a = None /\ b = None.
Proof. destruct a, b; cbn; naive_solver. Qed.

(** The reference: every function is called once, in order, on the state the one
    before it left; their errors are collected. *)
Definition shutdown_spec (fns : list shutdown_func) (o : O) : list (option error) * O :=
  let (rs, o') := run_ops call_shutdown fns o in
  ((fun r => match r with Err e => Some e | _ => None end) <$> rs, o').

Lemma shutdown_loop_spec fns err o :
  (forall fn o p, (call_shutdown fn o).1 <> Panic p) ->
  exists err', shutdown_loop fns err o = (Ok err', (shutdown_spec fns o).2) /\
    leaves err' = leaves err ++ ((shutdown_spec fns o).1 ≫= leaves) /\
    (err' = None <-> err = None /\ Forall (.= None) (shutdown_spec fns o).1).
Proof.
  intros Hp. unfold shutdown_spec. revert err o. induction fns as [|fn fns IH]; intros err o; cbn [shutdown_loop run_ops].
  { exists err. rewrite app_nil_r. split_and!; [done|done|]. cbn. naive_solver. }
  specialize (Hp fn o) as Hpo. unfold mbind, M_bind, try. destruct (call_shutdown fn o) as [r o1]. cbn in Hpo.
  pose (e := match r with Err e => Some e | _ => None end).
  destruct (IH (errors_Join2 err e) o1) as (err' & Hrun & Hl & Hn).
  destruct (run_ops call_shutdown fns o1) as [rs o2]. cbn [fst snd] in *.
  exists err'. rewrite fmap_cons, bind_cons. change (match r with Err e => Some e | _ => None end) with e. split_and!.
  - destruct r as [[]|e'|p]; [exact Hrun|exact Hrun|by destruct (Hpo p)].
  - by rewrite Hl, leaves_Join2, <- app_assoc.
  - rewrite Hn, errors_Join2_None, list.Forall_cons. tauto.
Qed.

(** Set-up does not fail. *)
Lemma SetupOTelSDK_Ok metricExporter traceExporter o :
  exists t m o1, SetupOTelSDK metricExporter traceExporter ([], o) =
    (Ok (t, m, newPropagator), ([TracerShutdown t; MeterShutdown m], o1)).
Proof.
  unfold SetupOTelSDK, register, on_sdk, newTraceProvider, newMeterProvider. mrun.
  destruct (trace_NewTracerProvider _ _) as [t o1]. cbn. destruct (metric_NewMeterProvider _ _) as [m o2]. cbn.
  by eexists _, _, _.
Qed.

(** The closure empties the list it shares. *)
Lemma otel_shutdown_run fns o :
  (forall fn o p, (call_shutdown fn o).1 <> Panic p) ->
  exists err, otel_shutdown (fns, o) = (Ok err, ([], (shutdown_spec fns o).2)) /\
    leaves err = ((shutdown_spec fns o).1 ≫= leaves) /\ (err = None <-> Forall (.= None) (shutdown_spec fns o).1).
Proof.
  intros Hp. destruct (shutdown_loop_spec fns None o Hp) as (err & Hrun & Hl & Hn).
  exists err. split_and!; [|done|tauto]. unfold otel_shutdown. erewrite bind_Ok by reflexivity.
  erewrite bind_Ok by (unfold zoom; cbn [fst snd]; rewrite Hrun; reflexivity). reflexivity.
Qed.

(** Telemetry is shut down completely: set-up registers the shutdown of both
    providers, and the returned closure calls each of them exactly once, in order,
    also when an earlier one fails; its error is made of exactly their errors and
    is [nil] only when all succeeded; calling it again does nothing. *)
Theorem otel_shutdown_all metricExporter traceExporter o :
  (forall fn o p, (call_shutdown fn o).1 <> Panic p) ->
  exists t m o1, SetupOTelSDK metricExporter traceExporter ([], o) =
      (Ok (t, m, newPropagator), ([TracerShutdown t; MeterShutdown m], o1)) /\
    let (errs, o2) := shutdown_spec [TracerShutdown t; MeterShutdown m] o1 in
    exists err, otel_shutdown ([TracerShutdown t; MeterShutdown m], o1) = (Ok err, ([], o2)) /\
      leaves err = (errs ≫= leaves) /\ (err = None <-> Forall (.= None) errs) /\
      otel_shutdown ([], o2) = (Ok None, ([], o2)).
Proof.
  intros Hp. destruct (SetupOTelSDK_Ok metricExporter traceExporter o) as (t & m & o1 & Hs).
  exists t, m, o1. split; [done|].
  destruct (otel_shutdown_run [TracerShutdown t; MeterShutdown m] o1 Hp) as (err & Hrun & Hl & Hn).
  destruct (shutdown_spec _ o1) as [errs o2]. by exists err.
Qed.
End setup.

(** ** Witness: an SDK that records the calls and whose first provider fails to shut
    down. *)
Module OtelWitness.
#[export] Instance sdk : OtelLib (list string) := {|
  trace_NewTracerProvider := fun _ o => (1%nat, o);
  metric_NewMeterProvider := fun _ o => (2%nat, o);
  tracer_Shutdown := fun _ o => (Err (errors_New "flush"), o ++ ["tracer"%string]);
  meter_Shutdown := fun _ o => (Ok tt, o ++ ["meter"%string]);
  otel_SetTextMapPropagator := fun _ o => o;
  otel_SetTracerProvider := fun _ o => o;
  otel_SetMeterProvider := fun _ o => o
|}.

Lemma otel_shutdown_all_witness :
  exists err, otel_shutdown ([TracerShutdown 1; MeterShutdown 2], []) =
      (Ok err, ([], ["tracer"; "meter"]%string)) /\ leaves err = [errors_New "flush"].
Proof.
  destruct (otel_shutdown_all None None []) as (t & m & o1 & H1 & H2).
  - by intros [] o p.
  - vm_compute in H1. injection H1. clear H1. intros. subst. cbn in H2. destruct H2 as (err & K1 & K2 & _).
    exists err. split; [exact K1|exact K2].
Defined.
End OtelWitness.
