(* ===== verification/Agent.v ===== *)
(** [internal/agent/agent.go]: the agent, which wires the parts together.

    The state is the agent's fields and the system it runs on: the raft node, the
    disk, the Pebble database, the sockets and serf.  A goroutine of the agent is
    the computation it runs; when it acts it takes the lock, so a history is a
    sequence of such computations.  [cmux], [http.Server] and [h2c] are
    dependencies. *)

From Stdlib Require Import Ascii.
From S2P Require Import Prelude Endian OS Proto Config Store Index Names Segment Log Raft LogStore Fsm.
From S2P Require Import Tls StreamLayer NetAddr RaftPebble Distributed Http Server Auth Service.
From S2P Require Import Discovery.

(** What a matcher of the multiplexer decides on: the first read of a connection,
    or nothing ([cmux.Any()]). *)
Inductive Matcher := MatchRead (f : outcome bytes -> bool) | MatchAny.

(** [cmux.CMux], a handle. *)
Class CMux (N : Type) := {
  cmux_New : nat -> N -> nat * N;
  cmux_Match : nat -> Matcher -> N -> nat * N;
  cmux_Serve : nat -> M N unit;
  cmux_Close : nat -> N -> N
}.

(** [http.Server], the only one of the process, and [tls.NewListener]. *)
Class HttpServer (N : Type) := {
  tls_NewListener : nat -> tls_Config -> N -> nat * N;
  http_Serve : nat -> M N unit;
  http_Shutdown : M N unit
}.

(** [h2c.NewHandler] *)
Class H2C (S : Type) := { h2c_NewHandler : http_Handler S -> http_Handler S }.

Record agent_Config := mkAgentConfig {
  ac_ServerTLSConfig : option tls_Config;
  ac_PeerTLSConfig : option tls_Config;
  ac_DataDir : string;
  ac_BindAddress : string;
  ac_RPCPort : Z;
  ac_NodeName : string;
  ac_StartJoinAddresses : option (list string);
  ac_ACLModelFile : string;
  ac_ACLPolicyFile : string;
  ac_Bootstrap : bool
}.

Definition RPCAddress (c : agent_Config) : outcome string :=
  match SplitHostPort (ac_BindAddress c) with
  | Ok (host, _) => Ok (JoinHostPort host (Itoa (ac_RPCPort c)))
  | Err e => Err e
  | Panic p => Panic p
  end.

(** A commit log as part of the state of the service. *)
Definition svc_commit {S} (cl : CommitLog S) : CommitLog (svc S) := {|
  cl_Append := fun r => on_commit (cl_Append r);
  cl_Read := fun off => on_commit (cl_Read off)
|}.

Section routes.
Context {S : Type} `{ConnectLib (svc S)} `{H2C (svc S)}.
Context `{ProtoMessage ProduceRequest} `{ProtoMessage ProduceResponse}.
Context `{ProtoMessage ConsumeRequest} `{ProtoMessage ConsumeResponse}.
Context `{ProtoMessage ProduceStreamRequest} `{ProtoMessage ProduceStreamResponse}.
Context `{ProtoMessage ConsumeStreamRequest} `{ProtoMessage ConsumeStreamResponse}.

(** The handler that [setupServer] gives to the HTTP server. *)
Definition agent_routes (auth : Enforcer) (log : CommitLog S) : outcome (http_Handler (svc S)) :=
  let interceptors := [UnaryInterceptor LoggingInterceptor] ++ [UnaryInterceptor (Interceptor auth)] in
  let opts := [] ++ [WithInterceptors interceptors] in
  match server_NewLogAPIHandler (Some (mkServerConfig (Some (svc_commit log)))) opts with
  | Ok (path, handler) => Ok (AuthMiddleware (h2c_NewHandler (mux_ServeHTTP (Handle path handler NewServeMux))))
  | Err e => Err e
  | Panic p => Panic p
  end.
End routes.

Section agent.
Context {R D N F : Type}.
Context `{RaftLib R} `{RaftNode R} `{PebbleDB D} `{Net N} `{CMux N} `{HttpServer N} `{SerfLib F}.
Context `{ProtoMessage record} `{ConnectLib (svc (R * lst))} `{H2C (svc (R * lst))}.
Context `{ProtoMessage ProduceRequest} `{ProtoMessage ProduceResponse}.
Context `{ProtoMessage ConsumeRequest} `{ProtoMessage ConsumeResponse}.
Context `{ProtoMessage ProduceStreamRequest} `{ProtoMessage ProduceStreamResponse}.
Context `{ProtoMessage ConsumeStreamRequest} `{ProtoMessage ConsumeStreamResponse}.
(** [casbin.NewEnforcer], and how often the ticker of [WaitForLeader] fires before
    its timeout. *)
Variable newEnforcer : string -> string -> outcome Enforcer.
Variable ticks : nat.

(** [Agent]: [ag_log] is the replicated log, its commit log and raft's log store;
    [ag_shutdownCh] says whether the channel is closed. *)
Record Agent := mkAgent {
  ag_Config : agent_Config;
  ag_mux : option nat;
  ag_log : option (Log * Log);
  ag_server : option (http_Handler (svc (R * lst)));
  ag_membership : option Membership;
  ag_shutdown : bool;
  ag_shutdownCh : bool
}.

Record sys := mkSys { sy_raft : R; sy_world : world; sy_db : D; sy_net : N; sy_serf : F }.
Local Abbreviation ast := (Agent * sys)%type.

Definition set_mux (m : nat) (a : Agent) : Agent :=
  mkAgent (ag_Config a) (Some m) (ag_log a) (ag_server a) (ag_membership a) (ag_shutdown a) (ag_shutdownCh a).
Definition set_log (l : option (Log * Log)) (a : Agent) : Agent :=
  mkAgent (ag_Config a) (ag_mux a) l (ag_server a) (ag_membership a) (ag_shutdown a) (ag_shutdownCh a).
Definition set_server (h : http_Handler (svc (R * lst))) (a : Agent) : Agent :=
  mkAgent (ag_Config a) (ag_mux a) (ag_log a) (Some h) (ag_membership a) (ag_shutdown a) (ag_shutdownCh a).
Definition set_membership (m : Membership) (a : Agent) : Agent :=
  mkAgent (ag_Config a) (ag_mux a) (ag_log a) (ag_server a) (Some m) (ag_shutdown a) (ag_shutdownCh a).
Definition set_shutdown (a : Agent) : Agent :=
  mkAgent (ag_Config a) (ag_mux a) (ag_log a) (ag_server a) (ag_membership a) true true.

Definition on_net {A} (m : M N A) : M ast A :=
  zoom (fun s => sy_net s.2)
    (fun n s => (s.1, mkSys (sy_raft s.2) (sy_world s.2) (sy_db s.2) n (sy_serf s.2))) m.
(** Calls that do not return an error. *)
Definition net_call {A} (f : N -> A * N) : M ast A := on_net (fun n => let (a, n) := f n in (Ok a, n)).
Definition on_member {A} (m : M F A) : M ast A :=
  zoom (fun s => sy_serf s.2)
    (fun f s => (s.1, mkSys (sy_raft s.2) (sy_world s.2) (sy_db s.2) (sy_net s.2) f)) m.
Definition on_store {A} (m : M (R * world * D) A) : M ast A :=
  zoom (fun s => (sy_raft s.2, sy_world s.2, sy_db s.2))
    (fun x s => (s.1, mkSys x.1.1 x.1.2 x.2 (sy_net s.2) (sy_serf s.2))) m.

Definition nil_deref {A} : M ast A := panic "invalid memory address or nil pointer dereference".
Definition deref {A} (p : option A) : M ast A := match p with Some x => mret x | None => nil_deref end.

(** A method of [a.log]. *)
Definition on_dist {A} (m : M (R * lst) A) : M ast A := fun s =>
  match ag_log s.1 with
  | None => nil_deref s
  | Some (l, ldb) =>
      let '(o, (r, (l, w))) := m (sy_raft s.2, (l, sy_world s.2)) in
      (o, (set_log (Some (l, ldb)) s.1, mkSys r w (sy_db s.2) (sy_net s.2) (sy_serf s.2)))
  end.

(** ** Construction *)

Definition agent_setupMux : M ast unit :=
  s ← get;
  let rpcAddr := ":" +:+ Itoa (ac_RPCPort (ag_Config s.1)) in
  ln ← on_net (net_Listen rpcAddr);
  m ← net_call (cmux_New ln);
  modify (fun s => (set_mux m s.1, s.2)).

(** The configuration of the replicated log. *)
Definition agent_log_config (c : agent_Config) (raftLn : nat) : Config :=
  mkConfig
    (mkRaftConfig (ac_NodeName c) 0 0 0 0
       (Some (NewStreamLayer raftLn (ac_ServerTLSConfig c) (ac_PeerTLSConfig c))) (ac_Bootstrap c))
    (mkSegmentConfig 0 0 0).

Definition agent_setupLog : M ast unit :=
  s ← get;
  let c := ag_Config s.1 in
  mux ← deref (ag_mux s.1);
  raftLn ← net_call (cmux_Match mux (MatchRead raft_matcher));
  l ← on_store (dist_NewLog (ac_DataDir c) (agent_log_config c raftLn));
  modify (fun s => (set_log (Some l) s.1, s.2));;
  if ac_Bootstrap c then on_dist (WaitForLeader (replicate ticks Tick ++ [TimedOut]));; mret tt
  else mret tt.

(** The replicated log as the commit log of the service. *)
Definition dist_commit : CommitLog (R * lst) := {| cl_Append := dist_Append; cl_Read := dist_Read |}.

(** [setupServer]; the goroutine it starts is [agent_http] on the listener that is
    returned. *)
Definition agent_setupServer : M ast nat :=
  s ← get;
  let c := ag_Config s.1 in
  auth ← lift (auth_New newEnforcer (ac_ACLModelFile c) (ac_ACLPolicyFile c));
  handler ← lift (agent_routes auth dist_commit);
  modify (fun s => (set_server handler s.1, s.2));;
  mux ← deref (ag_mux s.1);
  grpcLn ← net_call (cmux_Match mux MatchAny);
  match ac_ServerTLSConfig c with
  | Some tls => net_call (tls_NewListener grpcLn tls)
  | None => mret grpcLn
  end.

Definition agent_setupMembership : M ast unit :=
  s ← get;
  let c := ag_Config s.1 in
  rpcAddr ← lift (RPCAddress c);
  r ← on_member (discovery_New (mkDiscoveryConfig (ac_NodeName c) (ac_BindAddress c)
                                  {["rpc_addr"%string := rpcAddr]} (ac_StartJoinAddresses c)));
  modify (fun s => (set_membership r.1 s.1, s.2));;
  match r.2 with Some e => throw e | None => mret tt end.

Definition agent_zero (c : agent_Config) : Agent := mkAgent c None None None None false false.

(** The loop of [New] over its four functions, from [agent_zero]; the goroutine of
    [agent_serve] starts when it succeeds. *)
Definition agent_New : M ast unit :=
  agent_setupMux;;
  agent_setupLog;;
  agent_setupServer;;
  agent_setupMembership.

(** ** Shutdown *)

(** The functions of the loop, of which the first that fails ends it. *)
Definition fn_leave : M ast unit :=
  s ← get;
  m ← deref (ag_membership s.1);
  on_member (Membership_Leave m).

Definition fn_stop : M ast unit :=
  s ← get;
  deref (ag_server s.1);;
  try (on_net http_Shutdown);;
  mux ← deref (ag_mux s.1);
  net_call (fun n => (tt, cmux_Close mux n)).

Definition shutdown_fns : M ast unit :=
  fn_leave;;
  fn_stop;;
  on_dist dist_Close.

Definition agent_Shutdown : M ast unit :=
  s ← get;
  if ag_shutdown s.1 then mret tt
  else
    modify (fun s => (set_shutdown s.1, s.2));;
    shutdown_fns.

(** [serve], with what it returns. *)
Definition agent_serve : M ast unit :=
  s ← get;
  mux ← deref (ag_mux s.1);
  r ← try (on_net (cmux_Serve mux));
  match r with
  | inl _ => mret tt
  | inr e => try agent_Shutdown;; throw e
  end.

(** The goroutine that [setupServer] starts. *)
Definition agent_http (grpcLn : nat) : M ast unit :=
  r ← try (on_net (http_Serve grpcLn));
  match r with
  | inl _ => mret tt
  | inr _ => try agent_Shutdown;; mret tt
  end.
End agent.
