(* ===== verification/ClusterClient.v ===== *)
(** From a client's call to every node: [Produce] on a node whose raft takes part in
    the cluster.

    [RaftCluster] joins the two views of raft: the methods that
    [internal/log/distributed] calls ([RaftNode]) and the executions of the cluster.
    Its law is the documentation of [raft.Apply]: the future returns after the
    entry was committed and this node's state machine has applied it, with what the
    machine returned. *)

From coqutil Require Import Byte.
From S2P Require Import Prelude Endian OS Proto Wire Config Store Index Names Segment Log LogInv.
From S2P Require Import LogReopen LogSpec.
From S2P Require Import Scenario Raft LogStore Fsm FsmProps Http Server ServerProps Cluster ClusterProps.
From S2P Require Import Tls StreamLayer RaftPebble Distributed DistributedProps NetAddr Auth Service.
From S2P Require Import Discovery Agent.

(** The cluster as node [name] sees it: [raft_view r s] is its state when the node has
    raft state [r] and log [s]. *)
Class RaftCluster (R : Type) `{RaftNode R} `{ProtoMessage record} `{ProtoMessage ProduceRequest} (sz : Z) (name : string) := {
  raft_view : R -> lst -> cluster;
  law_view r s : exists nd, cu_nodes (raft_view r s) !! name = Some nd /\ nd_log nd = s;
  law_cluster_Apply data t r s resp r' s' :
    entry_submitted sz data -> raft_Apply data t (r, s) = (Ok resp, (r', s')) ->
    exists c nd s1, rtc (cluster_step sz) (raft_view r s) c /\
      cu_nodes c !! name = Some nd /\ cu_committed c !! nd_applied nd = Some data /\
      fsm_Apply data (nd_log nd) = (Ok resp, s1) /\ rtc (cluster_step sz) (applied_at c name nd s1) (raft_view r' s')
}.

Section client.
Context {R : Type} `{Hnode : RaftNode R}.
Context `{Hmsg : ProtoMessage record} {Hlaws : ProtoLaws record record_wf}.
Context `{Hreq : ProtoMessage ProduceRequest} {Hreqlaws : ProtoLaws ProduceRequest ProduceRequest_wf}.
Context (sz : Z) (name : string) {Hcluster : RaftCluster R sz name}.
Implicit Types (lo off : Z) (nd : node) (c : cluster) (r : R) (s : lst).

(** ** What nodes have applied only grows *)

Lemma applied_step c c' n nd :
  cluster_step sz c c' -> cu_nodes c !! n = Some nd ->
  exists nd', cu_nodes c' !! n = Some nd' /\ (nd_applied nd <= nd_applied nd')%nat.
Proof.
  intros Hst Hn.
  destruct Hst as [| ? ? m | ? ? m | ? ? m | ? ? m]; cbn in *; [eauto| | | |];
    (destruct (decide (m = n)) as [->|Hne];
      [simplify_eq; eexists; split; [apply lookup_insert_eq|cbn; lia]
      |exists nd; split; [by rewrite lookup_insert_ne|lia]]).
Qed.

Lemma applied_steps c c' n nd :
  rtc (cluster_step sz) c c' -> cu_nodes c !! n = Some nd ->
  exists nd', cu_nodes c' !! n = Some nd' /\ (nd_applied nd <= nd_applied nd')%nat.
Proof.
  intros Hst. revert nd. induction Hst as [c|c c1 c' Hst _ IH]; intros nd Hn; [eauto|].
  destruct (applied_step _ _ _ _ Hst Hn) as (nd1 & Hn1 & H1). destruct (IH _ Hn1) as (nd2 & Hn2 & H2).
  exists nd2. split; [done|lia].
Qed.

(** ** Produce *)

Lemma Produce_inv ctx req r s resp r' s' rc :
  pr_Record (cq_Msg req) = Some rc -> record_wf rc -> fits sz rc ->
  Produce (mkServerConfig (Some dist_commit)) ctx req (r, s) = (Ok resp, (r', s')) ->
  exists data, entry_submitted sz data /\ entry_record data = Some rc /\
    raft_Apply data apply_timeout (r, s) = (Ok (RespProduce resp), (r', s')).
Proof.
  intros Hrc Hwf Hft Hrun. unfold Produce, on_CommitLog in Hrun. cbn [sc_CommitLog cl_Append dist_commit GetRecord] in Hrun.
  rewrite Hrc in Hrun. inv_ok Hrun. unfold mret, M_ret in Hrun. simplify_eq.
  destruct (dist_Append_inv _ _ _ _ _ _ Hwf Hrun0) as (b & Hm & Hap).
  assert (Hd : command_data (CmdAppend rc) (byte_of AppendRequestType :: b)) by (by exists b).
  exists (byte_of AppendRequestType :: b). split; [by exists (CmdAppend rc)|]. split; [by apply entry_record_append|done].
Qed.

Lemma Consume_of_Read {S} (cl : CommitLog S) ctx off (x : S) rc :
  (cl_Read off x).1 = Ok rc ->
  (Consume (mkServerConfig (Some cl)) ctx (msg_request (mkConsumeRequest off)) x).1 = Ok (mkConsumeResponse (Some rc)).
Proof.
  intros H. unfold Consume, on_CommitLog, mbind, M_bind. cbn [sc_CommitLog cq_Msg msg_request cr_Offset].
  destruct (cl_Read off x) as [o x']. cbn in H. by subst o.
Qed.

(** C3. A record a client produced on one node is on every node: when [Produce]
    answers with an offset, the entry has a place among the committed ones; this
    node gives the record to whoever asks for the offset, and so does, from there on
    in every execution of the cluster, every node that has applied the entry.  The
    cluster is that of [cluster_agreement]: new logs on working disks, records (this one
    too) of at least [sz] bytes of a store, which is enough for the segment limits of
    every node, and offsets below 2^64. *)
Theorem produced_everywhere lo c0 ctx req rc r s resp r' s' :
  cluster_new sz lo c0 -> rtc (cluster_step sz) c0 (raft_view r s) ->
  pr_Record (cq_Msg req) = Some rc -> record_wf rc -> fits sz rc ->
  Produce (mkServerConfig (Some dist_commit)) ctx req (r, s) = (Ok resp, (r', s')) ->
  lo + Z.of_nat (length (cu_committed (raft_view r' s'))) < 2 ^ 64 ->
  let off := presp_Offset resp in
  let answer := Ok (mkConsumeResponse (Some (set_Offset off rc))) in
  (Consume (mkServerConfig (Some dist_commit)) ctx (msg_request (mkConsumeRequest off)) (r', s')).1 = answer /\
  exists i, (i < length (cu_committed (raft_view r' s')))%nat /\
    forall c m nd, rtc (cluster_step sz) (raft_view r' s') c -> lo + Z.of_nat (length (cu_committed c)) < 2 ^ 64 ->
      cu_nodes c !! m = Some nd -> (i < nd_applied nd)%nat ->
      (Consume node_config ctx (msg_request (mkConsumeRequest off)) (nd_log nd)).1 = answer.
Proof.
  intros Hnew Hreach Hrc Hwf Hft Hrun Hb off answer.
  destruct (Produce_inv _ _ _ _ _ _ _ _ Hrc Hwf Hft Hrun) as (data & Hok & Her & Hap).
  destruct (law_cluster_Apply _ _ _ _ _ _ _ Hok Hap) as (c1 & nd1 & s1 & Hst1 & Hn1 & Hd1 & Hap1 & Hst2).
  assert (Hread : forall c m nd, rtc (cluster_step sz) (raft_view r' s') c -> lo + Z.of_nat (length (cu_committed c)) < 2 ^ 64 ->
    cu_nodes c !! m = Some nd -> (nd_applied nd1 < nd_applied nd)%nat -> (Log_Read off (nd_log nd)).1 = Ok (set_Offset off rc)).
  { intros c m nd Hst3 Hbc Hm Hlt. destruct resp as [o]. cbn in off. subst off.
    destruct (acked_everywhere sz lo c0 c1 name nd1 data o s1 c m nd Hnew) as (rc' & Her' & Hread); try done;
      [by etransitivity..|]. rewrite Her in Her'. by simplify_eq. }
  destruct (law_view r' s') as (nd2 & Hn2 & Hlog2).
  destruct (applied_steps _ _ name (mkNode s1 (S (nd_applied nd1)) (nd_streams nd1)) Hst2) as (nd2' & Hn2' & Hle);
    [apply lookup_insert_eq|]. simplify_eq. cbn in Hle.
  split; [|exists (nd_applied nd1); split].
  - apply Consume_of_Read. cbn [cl_Read dist_commit]. unfold dist_Read, on_log, zoom. cbn [fst snd].
    pose proof (Hread _ name nd2 (rtc_refl _ _) Hb Hn2 ltac:(lia)) as H. by destruct (Log_Read off (nd_log nd2)).
  - eapply Nat.lt_le_trans; [by eapply lookup_lt_Some|]. by apply (prefix_length _ _ (committed_grows _ _ _ Hst2)).
  - intros c m nd Hst3 Hbc Hm Hlt. apply Consume_of_Read. exact (Hread c m nd Hst3 Hbc Hm Hlt).
Qed.
End client.

(** ** An instance: a leader that commits at once and has applied everything *)
Module ClientWitness.
Import Wire Scenario FsmWitness ClusterWitness.

Definition set_log (s : lst) (nd : node) : node := mkNode s (nd_applied nd) (nd_streams nd).
Definition seen (c : cluster) (s : lst) : cluster :=
  mkCluster (cu_committed c) (<[n1 := set_log s (default (mkNode s 0 []) (cu_nodes c !! n1))]> (cu_nodes c)).

Definition leader_Apply (data : bytes) : M (cluster * lst) response := fun '(c, s) =>
  match cu_nodes (seen c s) !! n1 with
  | Some nd =>
      if (nd_applied nd =? length (cu_committed c))%nat then
        let (o, s') := fsm_Apply data s in
        (o, (applied_at (mkCluster (cu_committed c ++ [data]) (cu_nodes (seen c s))) n1 nd s', s'))
      else (Err (errors_New "leadership lost while committing log"), (c, s))
  | None => (Err (errors_New "node is not the leader"), (c, s))
  end.

#[export] Instance leader : RaftNode cluster := {|
  raft_Apply := fun data _ => leader_Apply data;
  raft_GetConfiguration := mret [];
  raft_RemoveServer := fun _ _ _ => mret tt;
  raft_AddVoter := fun _ _ _ _ => mret tt;
  raft_LeaderWithID := mret ("10.0.0.1:8400"%string, n1);
  raft_Shutdown := mret tt
|}.

Lemma seen_applied c nd s : seen (applied_at c n1 nd s) s = applied_at c n1 nd s.
Proof. unfold seen, applied_at. cbn. by rewrite lookup_insert_eq, insert_insert_eq. Qed.

#[export, refine] Instance leader_cluster : RaftCluster cluster sz n1 := {| raft_view := seen |}.
Proof.
  - intros c s. eexists. split; [apply lookup_insert_eq|done].
  - intros data t c s resp c' s' Hok H. cbn [raft_Apply leader] in H. unfold leader_Apply in H.
    destruct (cu_nodes (seen c s) !! n1) as [nd|] eqn:Hn; [|done].
    destruct (Nat.eqb_spec (nd_applied nd) (length (cu_committed c))) as [Ha|]; [|done].
    assert (Hl : nd_log nd = s) by (cbn in Hn; rewrite lookup_insert_eq in Hn; by simplify_eq).
    destruct (fsm_Apply data s) as [o s2] eqn:E. simplify_eq. rewrite seen_applied.
    eexists (mkCluster (cu_committed c ++ [data]) (cu_nodes (seen c (nd_log nd)))), nd, s'.
    split_and!; [by apply rtc_once, step_commit|done| |done|done].
    cbn. rewrite Ha. by apply list_lookup_middle.
Defined.

Definition produce := msg_request (mkProduceRequest (Some (wit_record abc))).
Definition client : context := mkContext (Some "root"%string).

(** The call on the first node of two. *)
Lemma produced_everywhere_witness :
  exists c' s', Produce (mkServerConfig (Some dist_commit)) client produce (ClusterWitness.start, log1) =
      (Ok (mkProduceResponse 5), (c', s')) /\
    (Consume (mkServerConfig (Some dist_commit)) client (msg_request (mkConsumeRequest 5)) (c', s')).1 =
      Ok (mkConsumeResponse (Some (mkRecord abc 5 7 1))).
Proof.
  assert (Ho : (Produce (mkServerConfig (Some dist_commit)) client produce (ClusterWitness.start, log1)).1 =
    Ok (mkProduceResponse 5)) by (vm_compute; reflexivity).
  assert (Hl : length (cu_committed (Produce (mkServerConfig (Some dist_commit)) client produce
    (ClusterWitness.start, log1)).2.1) = 1%nat) by (vm_compute; reflexivity).
  assert (Hw : record_wf (wit_record abc)) by (vm_compute; repeat split; discriminate).
  assert (Hs : seen ClusterWitness.start log1 = ClusterWitness.start).
  { unfold seen, ClusterWitness.start. cbn. by rewrite lookup_insert_eq, insert_insert_eq. }
  destruct (Produce _ client produce (ClusterWitness.start, log1)) as [o [c' s']] eqn:E. cbn [fst snd] in Ho, Hl. subst o.
  destruct (produced_everywhere sz n1 5 ClusterWitness.start client produce (wit_record abc) ClusterWitness.start log1
              (mkProduceResponse 5) c' s' start_new) as [H _].
  - change (raft_view _ _) with (seen ClusterWitness.start log1). rewrite Hs. apply rtc_refl.
  - reflexivity.
  - exact Hw.
  - by apply abc_fits.
  - exact E.
  - change (cu_committed (raft_view c' s')) with (cu_committed c'). rewrite Hl. reflexivity.
  - exists c', s'. split; [reflexivity|exact H].
Defined.
End ClientWitness.
