(* ===== verification/ServiceProps.v ===== *)
(** The service behind the agent's routes: who may call what, what a client
    sees.

    The theorems hold for every commit log with the property they name, and for
    every implementation of connect and h2c with the documented laws; the module
    [ConnectRef] is one. *)

From S2P Require Import Prelude Proto Wire Http Server Auth Service Tls StreamLayer NetAddr Agent Log.
From S2P Require Import LogInv LogSpec.
From S2P Require Import Scenario ServerProps.

(** [h2c.NewHandler] passes every request to its handler but the preface of an
    HTTP/2 connection. *)
Class H2CLaws (S : Type) `{H2C S} := {
  law_h2c (h : http_Handler S) r : req_Method r <> "PRI"%string -> h2c_NewHandler h r = h r
}.

(** A request either is answered by the multiplexer itself or reaches a handler. *)
Lemma mux_cases {S} (mux : ServeMux S) r :
  (exists resp, mux_ServeHTTP mux r = mret resp) \/ (exists ph, ph ∈ mux /\ mux_ServeHTTP mux r = ph.2 r).
Proof.
  unfold mux_ServeHTTP. destruct (mux_redirects _ _); [eauto|]. case_bool_decide; cbn [negb]; [|eauto].
  unfold mux_dispatch. destruct (mux_find mux (req_Path r)) as [ph|] eqn:E; [|left; by eexists].
  right. exists ph. split; [|done]. unfold mux_find in E. revert E.
  assert (Hgen : forall l best, (forall b, best = Some b -> b ∈ mux) -> l ⊆ mux ->
    foldl (fun best ph => if pattern_matches ph.1 (req_Path r) then
             match best with
             | Some b => if (String.length b.1 <? String.length ph.1)%nat then Some ph else best
             | None => Some ph end else best) best l = Some ph -> ph ∈ mux).
  { intros l. induction l as [|x l IH]; intros best Hb Hl; cbn [foldl]; [apply Hb|].
    apply IH; [|set_solver]. intros b. destruct (pattern_matches _ _); [|apply Hb].
    destruct best as [b0|]; [destruct (_ <? _)%nat|]; intros [= <-]; set_solver. }
  intros E. eapply Hgen; [| |exact E]; [done|set_solver].
Qed.

(** The multiplexer passes the requests for a procedure on. *)
Definition procedures : list string :=
  [LogAPIProduceProcedure; LogAPIConsumeProcedure; LogAPIConsumeStreamProcedure; LogAPIProduceStreamProcedure].

Lemma mux_procedure {S} (api : http_Handler S) r :
  req_Method r = "POST"%string -> req_Path r ∈ procedures ->
  mux_ServeHTTP [("/log.v1.LogAPI/"%string, api)] r = api r.
Proof.
  intros Hm Hp. unfold mux_ServeHTTP. rewrite Hm. unfold mux_dispatch.
  unfold procedures in Hp. repeat (apply elem_of_cons in Hp as [->|Hp]; [reflexivity|]). by apply not_elem_of_nil in Hp.
Qed.

Section service.
Context {S : Type} {cl : CommitLog S}.
Context `{Hconn : ConnectLib (svc S)} {Hlaws : ConnectLaws (svc S)} `{Hh2c : H2C (svc S)} {Hh2cl : H2CLaws (svc S)}.
Context `{Mpq : ProtoMessage ProduceRequest} {Lpq : ProtoLaws ProduceRequest ProduceRequest_wf}.
Context `{Mpr : ProtoMessage ProduceResponse} {Lpr : ProtoLaws ProduceResponse ProduceResponse_wf}.
Context `{Mcq : ProtoMessage ConsumeRequest} {Lcq : ProtoLaws ConsumeRequest ConsumeRequest_wf}.
Context `{Mcr : ProtoMessage ConsumeResponse} {Lcr : ProtoLaws ConsumeResponse ConsumeResponse_wf}.
Context `{Mpsq : ProtoMessage ProduceStreamRequest} `{Mpsr : ProtoMessage ProduceStreamResponse}.
Context `{Mcsq : ProtoMessage ConsumeStreamRequest} `{Mcsr : ProtoMessage ConsumeStreamResponse}.
Implicit Types (s : svc S) (auth : Enforcer).

Local Abbreviation config := (mkServerConfig (Some (svc_commit cl))).

(** The options as [agent_routes] and [NewLogAPIHandler] make them. *)
Definition agent_opts auth : list (HandlerOption (svc S)) :=
  [WithInterceptors [UnaryInterceptor LoggingInterceptor; UnaryInterceptor (Interceptor auth)];
   WithInterceptors [UnaryInterceptor NewErrorInterceptor]].

Definition api_handler auth : http_Handler (svc S) :=
  (connect_NewLogAPIHandler (log_handler config) (agent_opts auth)).2.

Lemma agent_routes_Ok auth :
  agent_routes auth cl =
    Ok (AuthMiddleware (h2c_NewHandler (mux_ServeHTTP [("/log.v1.LogAPI/"%string, api_handler auth)]))).
Proof. reflexivity. Qed.

Lemma unary_chain_agent {Req Resp : Set} auth (f : UnaryFunc (svc S) Req Resp) :
  unary_chain (agent_opts auth) f = LoggingInterceptor _ _ (Interceptor auth _ _ (NewErrorInterceptor _ _ f)).
Proof. reflexivity. Qed.

(** ** Interceptors *)

(** The clock and the lines change, the log does not. *)
Definition same_log (s s' : svc S) : Prop := sv_log s' = sv_log s.

Definition ticked s : svc S := mkSvc (sv_log s) (sv_lines s) (sv_now s + List.hd 0 (sv_ticks s)) (List.tl (sv_ticks s)).

(** The logging interceptor returns what the call returned, on the log the call
    left. *)
Lemma LoggingInterceptor_run {Req Resp : Set} (next : UnaryFunc (svc S) Req Resp) ctx req s o s1 :
  next ctx req (ticked s) = (o, s1) ->
  exists s', LoggingInterceptor _ _ next ctx req s =
      (match o with Err e => Err (WrapToConnectError e) | o => o end, s') /\ same_log s1 s'.
Proof.
  intros Hn. unfold LoggingInterceptor, time_Now, mbind, M_bind, try. fold (ticked s).
  unfold ticked in *. rewrite Hn. destruct o as [r|e|p]; eexists; by split.
Qed.

Lemma unary_response_log {Resp : Set} `{ProtoMessage Resp} (m : M (svc S) Resp) s :
  same_log (m s).2 (unary_response m s).2.
Proof.
  unfold unary_response. destruct (m s) as [[r|e|p] s1]; cbn; [|done..]. by destruct (Marshal r).
Qed.

(** A call that the policy does not allow leaves the log alone. *)
Lemma unary_chain_denied {Req Resp : Set} auth (f : UnaryFunc (svc S) Req Resp) ctx req s :
  auth (GetAuthInfo ctx) "*"%string (sp_Procedure (cq_Spec req)) <> Ok true ->
  same_log s (unary_chain (agent_opts auth) f ctx req s).2.
Proof.
  intros Hd. rewrite unary_chain_agent.
  destruct (Interceptor auth _ _ (NewErrorInterceptor _ _ f) ctx req (ticked s)) as [o s1] eqn:E.
  destruct (LoggingInterceptor_run _ _ _ _ _ _ E) as (s' & -> & Hs). cbn.
  rewrite Interceptor_run in E. unfold same_log in *. rewrite Hs.
  destruct (auth _ _ _) as [[]|e|p]; by simplify_eq.
Qed.

(** A call that it allows runs the handler. *)
Lemma unary_chain_allowed {Req Resp : Set} auth (f : UnaryFunc (svc S) Req Resp) ctx req s o s1 :
  auth (GetAuthInfo ctx) "*"%string (sp_Procedure (cq_Spec req)) = Ok true ->
  f ctx req (ticked s) = (o, s1) ->
  exists s', same_log s1 s' /\ unary_chain (agent_opts auth) f ctx req s =
    (match o with Err e => Err (WrapToConnectError (WrapToConnectError e)) | o => o end, s').
Proof.
  intros Ha Hf. rewrite unary_chain_agent.
  destruct (Interceptor auth _ _ (NewErrorInterceptor _ _ f) ctx req (ticked s)) as [o' s1'] eqn:E.
  destruct (LoggingInterceptor_run _ _ _ _ _ _ E) as (s' & -> & Hs).
  rewrite Interceptor_run, Ha in E. unfold NewErrorInterceptor, with_connect_error in E. rewrite Hf in E.
  exists s'. destruct o; simplify_eq; done.
Qed.

(** ** The guard *)

Lemma unary_guard {Req Resp : Set} `{ProtoMessage Req} `{ProtoMessage Resp} auth spec
    (f : UnaryFunc (svc S) Req Resp) r s :
  auth (GetAuthInfo (req_Context r)) "*"%string (sp_Procedure spec) = Ok true \/
  same_log s (NewUnaryHandler spec f (agent_opts auth) r s).2.
Proof.
  destruct (law_unary_any spec f (agent_opts auth) r s) as [[m ->]|[resp ->]]; [|by right].
  set (req := mkConnectRequest m spec (req_RemoteAddr r)). set (ctx := req_Context r).
  assert (Hor : auth (GetAuthInfo ctx) "*"%string (sp_Procedure spec) = Ok true \/
                auth (GetAuthInfo ctx) "*"%string (sp_Procedure spec) <> Ok true)
    by (destruct (auth _ _ _) as [[]| |]; auto).
  destruct Hor as [Ha|Hd]; [by left|right]. unfold same_log.
  rewrite (unary_response_log (unary_chain (agent_opts auth) f ctx req) s). by apply unary_chain_denied.
Qed.

Lemma api_guard auth r s :
  req_Path r <> LogAPIConsumeStreamProcedure -> req_Path r <> LogAPIProduceStreamProcedure ->
  (req_Path r ∈ [LogAPIProduceProcedure; LogAPIConsumeProcedure] /\
   auth (GetAuthInfo (req_Context r)) "*"%string (req_Path r) = Ok true) \/
  same_log s (api_handler auth r s).2.
Proof.
  intros H1 H2. unfold api_handler, connect_NewLogAPIHandler. cbn [fst snd].
  case_bool_decide as E1.
  { rewrite E1. destruct (unary_guard auth produce_spec (api_Produce (log_handler config)) r s); [left|by right].
    split; [set_solver|done]. }
  case_bool_decide as E2.
  { rewrite E2. destruct (unary_guard auth consume_spec (api_Consume (log_handler config)) r s); [left|by right].
    split; [set_solver|done]. }
  rewrite !bool_decide_eq_false_2 by done. by right.
Qed.

(** A unary request with the body [b], and one whose body is a message of its
    procedure. *)
Definition rpc_request (r : Request) (b : bytes) : Prop :=
  req_Method r = "POST"%string /\ req_ContentType r ∈ unary_types /\ req_Body r = [b].

Definition well_formed (r : Request) (b : bytes) : Prop :=
  rpc_request r b /\
  ((req_Path r = LogAPIProduceProcedure /\ exists m : ProduceRequest, Unmarshal b = Ok m) \/
   (req_Path r = LogAPIConsumeProcedure /\ exists m : ConsumeRequest, Unmarshal b = Ok m)).

Lemma unary_denied {Req Resp : Set} `{ProtoMessage Req} `{ProtoMessage Resp} auth spec
    (f : UnaryFunc (svc S) Req Resp) r b (m : Req) s :
  rpc_request r b -> Unmarshal b = Ok m ->
  auth (GetAuthInfo (req_Context r)) "*"%string (sp_Procedure spec) = Ok false ->
  (NewUnaryHandler spec f (agent_opts auth) r s).1 = Ok (RpcError permission_denied).
Proof.
  intros (E1 & E2 & E3) Hb Ha. rewrite (law_unary _ _ _ _ b m) by done. rewrite unary_chain_agent. unfold unary_response.
  edestruct (LoggingInterceptor_run (Interceptor auth _ _ (NewErrorInterceptor _ _ f)) (req_Context r)
    (mkConnectRequest m spec (req_RemoteAddr r)) s (Err permission_denied) (ticked s)) as (s' & Hrun & _).
  { rewrite Interceptor_run. cbn [cq_Spec]. by rewrite Ha. }
  by rewrite Hrun.
Qed.

Definition is_user (name : string) (r : Request) : Prop :=
  exists rest chains, req_TLS r = Some ((name :: rest) :: chains).

Lemma agent_routes_serve auth h r name s :
  agent_routes auth cl = Ok h -> is_user name r -> req_Method r <> "PRI"%string ->
  h r s = mux_ServeHTTP [("/log.v1.LogAPI/"%string, api_handler auth)] (WithContext (mkContext (Some name)) r) s.
Proof.
  intros Hh (rest & chains & Hu) Hm. rewrite agent_routes_Ok in Hh. injection Hh as <-.
  rewrite (authenticated_served _ _ _ _ _ Hu). by rewrite law_h2c.
Qed.

Lemma agent_routes_procedure auth h r name s :
  agent_routes auth cl = Ok h -> is_user name r -> req_Method r = "POST"%string -> req_Path r ∈ procedures ->
  h r s = api_handler auth (WithContext (mkContext (Some name)) r) s.
Proof.
  intros Hh Hu Hm Hp. rewrite (agent_routes_serve auth h r name s) by (done || by rewrite Hm). by rewrite mux_procedure.
Qed.

(** C10. The service is guarded: a request other than for a stream changes the log
    only when it comes from a client with a verified certificate whose common name
    the policy allows that procedure.  A request without such a certificate gets
    401, and one that the policy refuses gets [PermissionDenied]. *)
Theorem service_guarded auth h r s :
  agent_routes auth cl = Ok h -> req_Method r <> "PRI"%string ->
  ((forall name, ~ is_user name r) ->
     exists msg, h r s = (Ok (HttpError StatusUnauthorized msg), s)) /\
  (forall name, is_user name r ->
     (req_Path r <> LogAPIConsumeStreamProcedure -> req_Path r <> LogAPIProduceStreamProcedure ->
      sv_log (h r s).2 <> sv_log s ->
      req_Path r ∈ [LogAPIProduceProcedure; LogAPIConsumeProcedure] /\
      auth name "*"%string (req_Path r) = Ok true) /\
     (forall b, well_formed r b -> auth name "*"%string (req_Path r) = Ok false ->
      exists e, (h r s).1 = Ok (RpcError e) /\ connect_CodeOf e = CodePermissionDenied)).
Proof.
  intros Hh Hm. split.
  - intros Hu. rewrite agent_routes_Ok in Hh. injection Hh as <-. apply unauthenticated_rejected.
    intros name rest chains E. by apply (Hu name); exists rest, chains.
  - intros name Hu. split.
    + intros H1 H2 Hs. rewrite (agent_routes_serve auth h r name s) in Hs by done.
      set (r' := WithContext _ r) in Hs.
      destruct (mux_cases [("/log.v1.LogAPI/"%string, api_handler auth)] r') as [[resp E]|(ph & Hin & E)];
        rewrite E in Hs; [done|].
      apply list_elem_of_singleton in Hin as ->. by destruct (api_guard auth r' s) as [H|H].
    + intros b [Hr Hp] Ha. exists permission_denied. split; [|done]. pose proof (proj1 Hr) as E1.
      rewrite (agent_routes_procedure auth h r name s)
        by (done || destruct Hp as [[-> _]|[-> _]]; set_solver).
      unfold api_handler, connect_NewLogAPIHandler. cbn [fst snd req_Path WithContext].
      destruct Hp as [[E [m Hb]]|[E [m Hb]]]; rewrite E in *.
      * rewrite bool_decide_eq_true_2 by done. by eapply unary_denied.
      * rewrite bool_decide_eq_false_2, bool_decide_eq_true_2 by done. by eapply unary_denied.
Qed.

(** ** Streams *)

Definition stream_request (r : Request) : Prop :=
  req_Method r = "POST"%string /\ req_ContentType r ∈ stream_types.

Lemma agent_opts_unary auth : Forall unary_only (option_interceptors (agent_opts auth)).
Proof. repeat constructor. Qed.

Lemma consume_stream_served auth h r name b m s :
  agent_routes auth cl = Ok h -> is_user name r -> stream_request r ->
  req_Path r = LogAPIConsumeStreamProcedure -> req_Body r = [b] -> Unmarshal b = Ok m ->
  h r s = stream_response (ConsumeStream config (mkContext (Some name))
            (mkConnectRequest m consume_stream_spec (req_RemoteAddr r)) (req_Turns r)) s.
Proof.
  intros Hh Hu [E1 E2] Hp Hb Hm. rewrite (agent_routes_procedure auth h r name s) by (done || rewrite Hp; set_solver).
  unfold api_handler, connect_NewLogAPIHandler. cbn [fst snd req_Path WithContext]. rewrite Hp.
  rewrite !bool_decide_eq_false_2, bool_decide_eq_true_2 by done.
  by rewrite (law_server_stream _ _ _ _ b m) by (done || apply agent_opts_unary).
Qed.

Lemma produce_stream_served auth h r name ms s :
  agent_routes auth cl = Ok h -> is_user name r -> stream_request r ->
  req_Path r = LogAPIProduceStreamProcedure -> Forall2 (fun b m => Unmarshal b = Ok m) (req_Body r) ms ->
  h r s = stream_response (ProduceStream config (mkContext (Some name))
            (zip ((inl <$> ms) ++ [inr io_EOF]) (req_Turns r).*2)) s.
Proof.
  intros Hh Hu [E1 E2] Hp Hb. rewrite (agent_routes_procedure auth h r name s) by (done || rewrite Hp; set_solver).
  unfold api_handler, connect_NewLogAPIHandler. cbn [fst snd req_Path WithContext]. rewrite Hp.
  rewrite !bool_decide_eq_false_2, bool_decide_eq_true_2 by done.
  by rewrite (law_bidi_stream _ _ _ _ ms) by (done || apply agent_opts_unary).
Qed.

(** A commit log that keeps its promise keeps it in the state of the service. *)
#[export] Program Instance svc_commit_laws {Hcll : CommitLogLaws S} : @CommitLogLaws (svc S) (svc_commit cl) :=
  {| cl_rep := fun s => cl_rep (sv_log s); cl_ok := cl_ok |}.
Next Obligation.
  intros Hcll r s lo recs off s' Hr Hw Hb Hrun. cbn [cl_Append svc_commit] in Hrun. unfold on_commit, zoom in Hrun.
  destruct (cl_Append (Some r) (sv_log s)) as [o l'] eqn:E. simplify_eq. by apply (cl_Append_ok r (sv_log s) lo recs).
Qed.
Next Obligation.
  intros Hcll off s lo recs Hr. destruct (cl_Read_ok off (sv_log s) lo recs Hr) as (l' & Hrun & Hr').
  cbn [cl_Read svc_commit]. unfold on_commit, zoom. rewrite Hrun. by eexists.
Qed.
Next Obligation. intros Hcll s lo recs Hr. exact (cl_rep_range (sv_log s) lo recs Hr). Qed.

#[export] Instance svc_commit_total {Hcll : CommitLogLaws S} {Htot : CommitLogTotal S} :
  @CommitLogTotal (svc S) (svc_commit cl) svc_commit_laws.
Proof.
  constructor. intros r s lo recs Hr Hw Hb. destruct (cl_Append_total r (sv_log s) lo recs Hr Hw Hb) as (off & l' & Hrun).
  cbn [cl_Append svc_commit]. unfold on_commit, zoom. rewrite Hrun. by eexists _, _.
Qed.

(** The acknowledgements decode. *)
Lemma encode_all_decodes {A : Set} `{ProtoMessage A} {wf : A -> Prop} {HA : ProtoLaws A wf} (ms : list A) :
  Forall wf ms -> Forall2 (fun b m => Unmarshal b = Ok m) (encode_all ms) ms.
Proof.
  induction 1 as [|m ms Hm _ IH]; [constructor|]. cbn [encode_all omap list_omap].
  destruct (Marshal_total m Hm) as (b & Hb & _). rewrite Hb. constructor; [by apply Unmarshal_Marshal|exact IH].
Qed.

Lemma client_sends_zip rs :
  zip ((inl <$> (mkProduceStreamRequest ∘ Some <$> rs)) ++ [inr io_EOF])
    (replicate (Datatypes.S (length rs)) (false, @None error)).*2 = client_sends rs.
Proof.
  unfold client_sends. induction rs as [|r rs IH]; [done|]. rewrite !fmap_cons. cbn [app length].
  cbn [zip zip_with replicate fmap list_fmap]. f_equal. exact IH.
Qed.

(** C36. The policy does not reach the streams: whatever it says, every client with a
    verified certificate is served [ConsumeStream] as the handler answers it, and
    records that it sends on [ProduceStream] are appended in order, each acknowledged
    with its offset, until it closes the stream; for a commit log that takes every
    record it is given ([CommitLogTotal]), within 2^64 offsets. *)
Theorem streams_skip_policy {Lpsr : ProtoLaws ProduceStreamResponse ProduceStreamResponse_wf}
    {Hcll : CommitLogLaws S} {Htot : CommitLogTotal S} auth h name r s :
  agent_routes auth cl = Ok h -> is_user name r -> stream_request r ->
  (forall b m, req_Path r = LogAPIConsumeStreamProcedure -> req_Body r = [b] -> Unmarshal b = Ok m ->
     h r s = stream_response (ConsumeStream config (mkContext (Some name))
               (mkConnectRequest m consume_stream_spec (req_RemoteAddr r)) (req_Turns r)) s) /\
  (forall rs lo recs, req_Path r = LogAPIProduceStreamProcedure ->
     Forall2 (fun b rc => Unmarshal b = Ok (mkProduceStreamRequest (Some rc))) (req_Body r) rs ->
     req_Turns r = replicate (Datatypes.S (length rs)) (false, None) ->
     cl_rep (sv_log s) lo recs -> Forall cl_ok rs -> lo + Z.of_nat (length recs + length rs) < 2 ^ 64 ->
     let next := lo + Z.of_nat (length recs) in
     exists acks s', h r s = (Ok (RpcStream acks (Some None)), s') /\
       Forall2 (fun b i => Unmarshal b = Ok (mkProduceStreamResponse (next + Z.of_nat i))) acks (seq 0 (length rs)) /\
       cl_rep (sv_log s') lo (recs ++ imap (fun i rc => set_Offset (next + Z.of_nat i) rc) rs)).
Proof.
  intros Hh Hu Hr. split.
  - intros b m Hp Hb Hm. by eapply consume_stream_served.
  - intros rs lo recs Hp Hb Ht Hrep Hw Hbound next.
    rewrite (produce_stream_served auth h r name (mkProduceStreamRequest ∘ Some <$> rs)) by (done || by apply Forall2_fmap_r).
    rewrite Ht, client_sends_zip.
    destruct (produce_stream_run (Hcl := svc_commit cl) (Hcll := svc_commit_laws) (mkContext (Some name)) rs [] s lo recs Hrep Hw Hbound) as (s' & Hrun & Hrep').
    unfold stream_response, ProduceStream. rewrite (bind_Ok _ _ _ _ _ Hrun). eexists _, s'. split; [reflexivity|].
    split; [|done]. cbn [app ps_sent]. apply (proj1 (Forall2_fmap_r (fun i => mkProduceStreamResponse (next + Z.of_nat i))
      (fun b m => Unmarshal b = Ok m) _ _)), encode_all_decodes.
    destruct (cl_rep_range _ _ _ Hrep) as [Hlo _]. apply Forall_fmap, Forall_forall. intros i Hi. cbn.
    apply in_seq in Hi. unfold ProduceStreamResponse_wf, is_u64. cbn [psresp_Offset]. unfold next. lia.
Qed.

(** ** Clients *)

(** An HTTP client whose requests reach the service as those of [name]. *)
Record delivers (do : HTTPClient (svc S)) (url : string) (h : http_Handler (svc S)) (name : string) : Prop := {
  deliver_request ct path b s : ct ∈ unary_types ->
    exists r, do ct (url +:+ path) b s = h r s /\ rpc_request r b /\ req_Path r = path /\ is_user name r
}.

Section calls.
Context `{Hcc : ConnectClientLib (svc S)} {Hccl : ConnectClientLaws (svc S)}.
Context {Req Resp : Set} `{MQ : ProtoMessage Req} `{MR : ProtoMessage Resp} {wfQ : Req -> Prop} {wfR : Resp -> Prop}.
Context {LQ : ProtoLaws Req wfQ} {LR : ProtoLaws Resp wfR}.

(** [do] at [url] is the handler of [f] behind the agent's interceptors. *)
Definition unary_at (do : HTTPClient (svc S)) (url name : string) (spec : Spec) (f : UnaryFunc (svc S) Req Resp) auth :=
  forall ct b (m : Req) s, ct ∈ unary_types -> Unmarshal b = Ok m -> exists peer,
    do ct url b s = unary_response (unary_chain (agent_opts auth) f (mkContext (Some name)) (mkConnectRequest m spec peer)) s.

(** A call of a handler that succeeds and that the policy allows returns its
    response. *)
Lemma client_call_ok do url name spec opts f auth ctx (m : Req) s res l :
  unary_at do url name spec f auth -> auth name "*"%string (sp_Procedure spec) = Ok true -> wfQ m -> wfR res ->
  (forall c req s1, cq_Msg req = m -> sv_log s1 = sv_log s -> exists s2, f c req s1 = (Ok res, s2) /\ sv_log s2 = l) ->
  exists s', CallUnary do url opts ctx m s = (Ok res, s') /\ sv_log s' = l.
Proof.
  intros Hdo Ha Hwq Hwr Hf. destruct (Marshal_total m Hwq) as (b & Hb & _).
  pose proof (Unmarshal_Marshal m b Hwq Hb) as Hub. destruct (Marshal_total res Hwr) as (b' & Hb' & _).
  destruct (Hdo (unary_type opts) b m s (unary_type_elem opts) Hub) as (peer & Hrun).
  destruct (Hf (mkContext (Some name)) (mkConnectRequest m spec peer) (ticked s) eq_refl eq_refl) as (s2 & Hf2 & Hl).
  destruct (unary_chain_allowed auth f (mkContext (Some name)) (mkConnectRequest m spec peer) s _ _ Ha Hf2) as (s' & Hs & Hc).
  unfold unary_response in Hrun. rewrite Hc, Hb' in Hrun.
  pose proof (law_call (Req := Req) (Resp := Resp) do url opts ctx m b s _ s' Hb Hrun) as Hcall. cbn in Hcall.
  exists s'. rewrite Hcall, (Unmarshal_Marshal res b' Hwr Hb'). split; [done|]. by rewrite Hs.
Qed.

(** A call that succeeded ran the handler. *)
Lemma client_call_inv do url name spec opts f auth ctx (m : Req) s resp s' :
  unary_at do url name spec f auth -> wfQ m -> CallUnary do url opts ctx m s = (Ok resp, s') ->
  exists req s1 res s2 b, cq_Msg req = m /\ sv_log s1 = sv_log s /\
    f (mkContext (Some name)) req s1 = (Ok res, s2) /\ sv_log s' = sv_log s2 /\
    Marshal res = Ok b /\ Unmarshal b = Ok resp.
Proof.
  intros Hdo Hwq Hcall. destruct (Marshal_total m Hwq) as (b & Hb & _).
  pose proof (Unmarshal_Marshal m b Hwq Hb) as Hub. destruct (Hdo (unary_type opts) b m s (unary_type_elem opts) Hub) as (peer & Hrun).
  rewrite unary_chain_agent in Hrun. set (req := mkConnectRequest m spec peer) in *. set (ctx' := mkContext (Some name)) in *.
  destruct (Interceptor auth _ _ (NewErrorInterceptor _ _ f) ctx' req (ticked s)) as [o s1] eqn:E.
  destruct (LoggingInterceptor_run _ _ _ _ _ _ E) as (s2 & Hl & Hs). unfold unary_response in Hrun. rewrite Hl in Hrun.
  destruct (do (unary_type opts) url b s) as [od sd] eqn:Edo. pose proof (law_call (Req := Req) (Resp := Resp) _ _ opts ctx _ _ _ _ _ Hb Edo) as Hlaw.
  destruct o as [res|e|p]; simplify_eq.
  2:{ destruct Hlaw as (e' & Hlaw & _). congruence. }
  2:{ destruct Hlaw as (e' & Hlaw). congruence. }
  rewrite Interceptor_run in E. destruct (auth _ _ _) as [[]|e|p]; simplify_eq.
  unfold NewErrorInterceptor, with_connect_error in E. destruct (f ctx' req (ticked s)) as [[res'|e|p] s3] eqn:Ef; simplify_eq.
  destruct (Marshal res) as [b'|e|p] eqn:Eb; simplify_eq.
  - rewrite Hlaw in Hcall. simplify_eq. exists req, (ticked s), res, s1, b'. by split_and!.
  - destruct Hlaw as (e' & Hlaw & _). congruence.
  - destruct Hlaw as (e' & Hlaw). congruence.
Qed.
End calls.

(** A unary procedure of the service, as a client reaches it. *)
Lemma delivered_unary {Req Resp : Set} `{ProtoMessage Req} `{ProtoMessage Resp} auth h do url name spec
    (f : UnaryFunc (svc S) Req Resp) :
  agent_routes auth cl = Ok h -> delivers do url h name -> sp_Procedure spec ∈ procedures ->
  (forall r, req_Path r = sp_Procedure spec -> api_handler auth r = NewUnaryHandler spec f (agent_opts auth) r) ->
  unary_at do (url +:+ sp_Procedure spec) name spec f auth.
Proof.
  intros Hh [Hdo] Hp Hapi ct b m s Hct Hm. destruct (Hdo ct (sp_Procedure spec) b s Hct) as (r & -> & (E1 & E2 & E3) & Ep & Hu).
  exists (req_RemoteAddr r). rewrite (agent_routes_procedure auth h r name s) by (done || by rewrite Ep).
  rewrite Hapi by done. by rewrite (law_unary _ _ _ _ b m).
Qed.

Lemma delivered_produce auth h do url name :
  agent_routes auth cl = Ok h -> delivers do url h name ->
  unary_at do (url +:+ LogAPIProduceProcedure) name produce_spec (Produce config) auth.
Proof.
  intros Hh Hd. apply (delivered_unary auth h do url name produce_spec (Produce config)); [done|done|set_solver|].
  intros r Hr. unfold api_handler, connect_NewLogAPIHandler. cbn [fst snd]. by rewrite bool_decide_eq_true_2.
Qed.

Lemma delivered_consume auth h do url name :
  agent_routes auth cl = Ok h -> delivers do url h name ->
  unary_at do (url +:+ LogAPIConsumeProcedure) name consume_spec (Consume config) auth.
Proof.
  intros Hh Hd. apply (delivered_unary auth h do url name consume_spec (Consume config)); [done|done|set_solver|].
  intros r Hr. unfold api_handler, connect_NewLogAPIHandler. cbn [fst snd].
  rewrite bool_decide_eq_false_2 by (by rewrite Hr). by rewrite bool_decide_eq_true_2.
Qed.

(** A client reads back through the service what it wrote, when the commit log gives
    back what it was given. *)
Lemma client_read_back `{Hcc : ConnectClientLib (svc S)} {Hccl : ConnectClientLaws (svc S)}
    auth h do base opts name ctx r s resp s1 :
  agent_routes auth cl = Ok h -> delivers do (TrimRight_slash base) h name ->
  auth name "*"%string LogAPIConsumeProcedure = Ok true -> record_wf r ->
  (forall off l, cl_Append (Some r) (sv_log s) = (Ok off, l) ->
     is_u64 off /\ exists l', cl_Read off l = (Ok (set_Offset off r), l')) ->
  client_Produce (NewLogAPIClient do base opts) ctx (mkProduceRequest (Some r)) s = (Ok resp, s1) ->
  exists s2, client_Consume (NewLogAPIClient do base opts) ctx (mkConsumeRequest (presp_Offset resp)) s1 =
    (Ok (mkConsumeResponse (Some (set_Offset (presp_Offset resp) r))), s2).
Proof.
  intros Hh Hd Ha Hwf Hrw Hp. cbn [client_Produce client_Consume NewLogAPIClient] in *.
  eapply client_call_inv in Hp as (req & s0 & res & s3 & b & Hreq & Hs0 & Hrun & Hs3 & Hb & Hub);
    [|by apply (delivered_produce auth h)|exact Hwf].
  unfold Produce, on_CommitLog in Hrun. inv_ok Hrun. rewrite Hreq in Hrun0. cbn in Hrun0.
  unfold on_commit, zoom in Hrun0. rewrite Hs0 in Hrun0.
  destruct (cl_Append (Some r) (sv_log s)) as [o l] eqn:Eapp. unfold mret, M_ret in Hrun. simplify_eq.
  destruct (Hrw _ _ eq_refl) as (Hoff & l'' & Hread).
  rewrite (Unmarshal_Marshal (mkProduceResponse a) b Hoff Hb) in Hub. simplify_eq. cbn [presp_Offset].
  edestruct (client_call_ok do (TrimRight_slash base +:+ LogAPIConsumeProcedure) name consume_spec
    [WithSchema consume_spec; WithClientOptions opts] (Consume config) auth ctx
    (mkConsumeRequest a) s1 (mkConsumeResponse (Some (set_Offset a r))) l'') as (s2 & Hc & _); [..|by eexists].
  - by apply (delivered_consume auth h).
  - done.
  - done.
  - cbn. by apply record_wf_set_Offset.
  - intros c q s4 Hq Hs4. unfold Consume, on_CommitLog. rewrite Hq. cbn.
    unfold on_commit, zoom, mbind, M_bind. rewrite Hs4, Hs3. cbn. rewrite Hread. by eexists.
Qed.
End service.

(** ** An implementation of the libraries *)
Module ConnectRef.

Definition protocol_error : http_response := HttpError 415 "Unsupported Media Type".
Definition is_rpc (types : list string) (r : Request) : bool :=
  bool_decide (req_Method r = "POST"%string) && bool_decide (req_ContentType r ∈ types).
Lemma is_rpc_true types r : req_Method r = "POST"%string -> req_ContentType r ∈ types -> is_rpc types r = true.
Proof. intros H1 H2. unfold is_rpc. by rewrite !bool_decide_eq_true_2. Qed.
Definition bad_message : http_response := RpcError (connect_Error CodeInvalidArgument ErrProto []).

(** The messages of a body, up to the first that cannot be decoded. *)
Definition decode_all {A : Set} `{ProtoMessage A} (bs : list bytes) : list A :=
  omap (fun b => match Unmarshal b with Ok m => Some m | _ => None end) bs.

#[export] Instance connect_ref S : ConnectLib S := {|
  NewUnaryHandler Req Resp Hq Hp spec f opts r :=
    match req_Body r with
    | [b] =>
        if is_rpc unary_types r then
          match Unmarshal b with
          | Ok m => unary_response (unary_chain opts f (req_Context r) (mkConnectRequest m spec (req_RemoteAddr r)))
          | _ => mret bad_message
          end
        else mret protocol_error
    | _ => mret protocol_error
    end;
  NewServerStreamHandler Req Resp Hq Hp spec f opts r :=
    match req_Body r with
    | [b] =>
        if is_rpc stream_types r then
          match Unmarshal b with
          | Ok m => stream_response (f (req_Context r) (mkConnectRequest m spec (req_RemoteAddr r)) (req_Turns r))
          | _ => mret bad_message
          end
        else mret protocol_error
    | _ => mret protocol_error
    end;
  NewBidiStreamHandler Req Resp Hq Hp spec f opts r :=
    if is_rpc stream_types r then
      stream_response (f (req_Context r) (zip ((inl <$> decode_all (req_Body r)) ++ [inr io_EOF]) (req_Turns r).*2))
    else mret protocol_error
|}.

#[export] Instance connect_ref_laws S : ConnectLaws S.
Proof.
  split.
  - intros Req Resp Hq Hp spec f opts r b m s E1 E2 E3 E4. cbn. by rewrite is_rpc_true, E3, E4.
  - intros Req Resp Hq Hp spec f opts r s. cbn. destruct (req_Body r) as [|b [|]]; [right; by eexists| |right; by eexists].
    destruct (is_rpc _ r); [|right; by eexists]. destruct (Unmarshal b); [left|right|right]; by eexists.
  - intros Req Resp Hq Hp spec f opts r b m s _ E1 E2 E3 E4. cbn. by rewrite is_rpc_true, E3, E4.
  - intros Req Resp Hq Hp spec f opts r ms s _ E1 E2 E3. cbn. rewrite is_rpc_true by done.
    replace (decode_all (req_Body r)) with ms; [done|]. clear -E3. unfold decode_all.
    induction E3 as [|b m bs ms E _ IH]; [done|]. cbn. by rewrite E, <- IH.
Qed.

Definition call_ref {N} {Req Resp : Set} `{ProtoMessage Req} {HR : ProtoMessage Resp} (do : HTTPClient N)
    (url : string) (opts : list ClientOption) (m : Req) : M N Resp := fun s =>
  match Marshal m with
  | Ok b =>
      match do (unary_type opts) url b s with
      | (Ok (RpcMessage b'), s') => (@Unmarshal _ HR b', s')
      | (Ok (RpcError e), s') => (Err (connect_Error (connect_CodeOf e) (errors_New "remote") []), s')
      | (_, s') => (Err (errors_New "unavailable"), s')
      end
  | Err e => (Err e, s)
  | Panic p => (Panic p, s)
  end.

#[export] Instance client_ref N : ConnectClientLib N := {|
  CallUnary Req Resp Hq Hp do url opts ctx m := call_ref do url opts m;
  CallServerStream Req Hq do url opts ctx m := mret 0%nat;
  CallBidiStream do url opts ctx := mret 0%nat
|}.

#[export] Instance client_ref_laws N : ConnectClientLaws N.
Proof.
  split. intros Req Resp Hq Hp do url opts ctx m b s o s' Hm Hdo. cbn. unfold call_ref. rewrite Hm, Hdo.
  destruct o as [[]| |]; by try eexists.
Qed.

#[export] Instance h2c_ref S : H2C S := {| h2c_NewHandler := fun h => h |}.
#[export] Instance h2c_ref_laws S : H2CLaws S.
Proof. by split. Qed.
End ConnectRef.

(** ** Witnesses: the service over the commit log of the scenario. *)
Module ServiceWitness.
Import Wire Scenario ConnectRef ServerWitness.

Definition policy : Enforcer := fun sub _ act =>
  Ok (bool_decide (sub = "root"%string) || bool_decide (act = LogAPIConsumeProcedure)).
Definition served : http_Handler (svc lst) :=
  match agent_routes policy log_commit with Ok h => h | _ => http_NotFound end.
Definition svc0 : svc lst := mkSvc (wit_new plain) [] 0 [].
Definition from (name path ct : string) (body : list bytes) (turns : list (bool * option error)) : Request :=
  mkRequest "POST" path ct "10.0.0.9:1234" (Some [[name]]) context_Background body turns.
Definition message {A : Set} `{ProtoMessage A} (m : A) : bytes := match Marshal m with Ok b => b | _ => [] end.

Definition nobody_produces : Request :=
  from "nobody" LogAPIProduceProcedure "application/proto" [message (mkProduceRequest (Some (wit_record abc)))] [].

Lemma service_guarded_witness :
  (exists e, (served nobody_produces svc0).1 = Ok (RpcError e) /\ connect_CodeOf e = CodePermissionDenied) /\
  (exists msg, served (mkRequest "POST" LogAPIProduceProcedure "application/proto" "" None context_Background [] []) svc0 =
     (Ok (HttpError StatusUnauthorized msg), svc0)).
Proof.
  split.
  - destruct (service_guarded (cl := log_commit) policy served nobody_produces svc0) as [_ H]; [reflexivity|discriminate|].
    destruct (H "nobody"%string ltac:(by exists [], [])) as [_ H2].
    eapply H2; [|reflexivity]. split; [split; [reflexivity|split; [apply (bool_decide_unpack _); by vm_compute|reflexivity]]|]. left. split; [reflexivity|]. eexists. by vm_compute.
  - destruct (service_guarded (cl := log_commit) policy served
      (mkRequest "POST" LogAPIProduceProcedure "application/proto" "" None context_Background [] []) svc0) as [H _];
      [reflexivity|discriminate|]. apply H. intros name (rest & chains & E). discriminate E.
Defined.

Definition nobody_streams : Request :=
  from "nobody" LogAPIProduceStreamProcedure "application/connect+proto"
    [message (mkProduceStreamRequest (Some (wit_record abc)))] [(false, None); (false, None)].

Lemma streams_skip_policy_witness :
  exists b s', served nobody_streams svc0 = (Ok (RpcStream [b] (Some None)), s') /\
    Unmarshal b = Ok (mkProduceStreamResponse 5) /\ log_for 13 (sv_log s') 5 [mkRecord abc 5 7 1].
Proof.
  destruct (streams_skip_policy (cl := log_commit) (Hcll := log_for_laws 13) (Htot := log_for_total 13)
    policy served "nobody" nobody_streams svc0) as [_ H];
    [reflexivity|by exists [], []|split; [reflexivity|apply (bool_decide_unpack _); by vm_compute]|].
  destruct (H [wit_record abc] 5 [] eq_refl) as (acks & s' & H1 & H2 & H3).
  - repeat constructor.
  - reflexivity.
  - exact plain_for.
  - apply list.Forall_cons; split; [exact abc_ok|constructor].
  - cbn. lia.
  - inversion H2 as [|b ? bs ? Hb Hbs]; subst. inversion Hbs; subst. exists b, s'.
    split; [exact H1|]. split; [exact Hb|exact H3].
Defined.

(** The base URL of the service; a client of it cuts the 21 characters of the host. *)
Definition base_url : string := "https://10.0.0.1:8400/".
Definition path_of (url : string) : string := to_string (drop 21 (of_string url)).

Lemma path_of_base path : path_of (TrimRight_slash base_url +:+ path) = path.
Proof.
  unfold path_of. change (TrimRight_slash base_url) with "https://10.0.0.1:8400"%string.
  change (drop 21 (of_string ("https://10.0.0.1:8400" +:+ path))) with (of_string path). apply to_of_string.
Qed.
End ServiceWitness.
