(* ===== verification/AgentProps.v ===== *)
(** The life of an agent: its address, its construction and its shutdown. *)

From stdpp Require Import gmap strings.
From S2P Require Import Prelude Endian OS Proto Wire Config Store Index Names Segment Log LogInv.
From S2P Require Import LogReopen LogSpec.
From S2P Require Import Scenario Raft LogStore Fsm FsmProps Tls StreamLayer NetAddr RaftPebble.
From S2P Require Import Distributed.
From S2P Require Import RaftPebbleProps DistributedProps Http Server Auth Service Discovery.
From S2P Require Import DiscoveryProps Agent.
From S2P Require Import ServiceProps.

(** ** The address *)

(** The address under which an agent can be called is the host of its bind
    address with its RPC port: splitting it gives exactly these, for IPv6 hosts too;
    a bind address that is not a host and a port is an error. *)
Theorem rpc_address_parts c :
  match SplitHostPort (ac_BindAddress c) with
  | Ok (host, _) => exists addr, RPCAddress c = Ok addr /\ SplitHostPort addr = Ok (host, Itoa (ac_RPCPort c))
  | Err e => RPCAddress c = Err e
  | Panic p => RPCAddress c = Panic p
  end.
Proof.
  unfold RPCAddress. destruct (SplitHostPort (ac_BindAddress c)) as [[host port]|e|p] eqn:E; [|done..].
  eexists. split; [done|]. by eapply SplitHostPort_rejoin.
Qed.

(** ** Serf

    What its documentation says: the local member, which the other nodes learn of, has the
    name and the tags of the configuration that [Create] was given, and keeps them when
    it joins others. *)
Class SerfLaws (F : Type) `{SerfLib F} := {
  serf_local : F -> option Member;
  law_Create c f f' : serf_Create c f = (Ok tt, f') -> serf_local f' = Some (mkMember (sc_NodeName c) (sc_Tags c));
  law_serf_Join addrs ignoreOld f o f' : serf_Join addrs ignoreOld f = (o, f') -> serf_local f' = serf_local f
}.

Section agent.
Context {R D N F : Type}.
Context `{Hlib : RaftLib R} `{Hnode : RaftNode R} `{Hdb : PebbleDB D} `{Hnet : Net N} `{Hcmux : CMux N}.
Context `{Hhttp : HttpServer N} `{Hserf : SerfLib F}.
Context `{Hmsg : ProtoMessage record} `{Hconn : ConnectLib (svc (R * lst))} `{Hh2c : H2C (svc (R * lst))}.
Context `{Mpq : ProtoMessage ProduceRequest} `{Mpr : ProtoMessage ProduceResponse}.
Context `{Mcq : ProtoMessage ConsumeRequest} `{Mcr : ProtoMessage ConsumeResponse}.
Context `{Mpsq : ProtoMessage ProduceStreamRequest} `{Mpsr : ProtoMessage ProduceStreamResponse}.
Context `{Mcsq : ProtoMessage ConsumeStreamRequest} `{Mcsr : ProtoMessage ConsumeStreamResponse}.
Variable newEnforcer : string -> string -> outcome Enforcer.
Variable ticks : nat.

Local Abbreviation Agent := (Agent (R := R)).
Local Abbreviation sys := (sys (R := R) (D := D) (N := N) (F := F)).
Implicit Types (a : Agent) (y : sys) (s : Agent * sys).

(** ** Shutdown *)

(** What can happen to a running agent: a call of [Shutdown], or one of its
    goroutines that ends. *)
Inductive agent_act := ActShutdown | ActServe | ActHttp (ln : nat).

Definition agent_exec (act : agent_act) : M (Agent * sys) unit :=
  match act with
  | ActShutdown => agent_Shutdown
  | ActServe => agent_serve
  | ActHttp ln => agent_http ln
  end.

(** All but the sockets. *)
Definition durable s : option (Log * Log) * R * world * D * F :=
  (ag_log s.1, sy_raft s.2, sy_world s.2, sy_db s.2, sy_serf s.2).

Definition down (x : option (Log * Log) * R * world * D * F) s : Prop := ag_shutdown s.1 = true /\ durable s = x.

Lemma keeps_on_net {A} x (m : M N A) : keeps (down x) (fun _ => True) (on_net m).
Proof. intros s [H1 H2]. unfold on_net, zoom. destruct (m _) as [o n]. split; [by split|by destruct o]. Qed.

Lemma Shutdown_down s : ag_shutdown s.1 = true -> agent_Shutdown s = (Ok tt, s).
Proof. intros H. unfold agent_Shutdown. mrun. by rewrite H. Qed.

Lemma keeps_Shutdown x : keeps (down x) (fun _ => True) agent_Shutdown.
Proof. intros s [H1 H2]. by rewrite Shutdown_down. Qed.

Lemma keeps_deref {A} x (p : option A) : keeps (down x) (fun _ => True) (deref p : M (Agent * sys) A).
Proof. destruct p; [by apply keeps_ret|apply keeps_panic]. Qed.

(** A shut-down agent does not touch its log, raft, the disk or serf again. *)
Lemma agent_exec_down x act : keeps (down x) (fun _ => True) (agent_exec act).
Proof.
  destruct act as [| |ln]; cbn [agent_exec]; [apply keeps_Shutdown|..].
  - unfold agent_serve. keeps_step. eapply keeps_bind; [apply keeps_deref|]. intros mux _.
    eapply keeps_bind; [apply keeps_try, keeps_on_net|]. intros [[]|e] _; [auto with keeps|].
    eapply keeps_bind; [apply keeps_try, keeps_Shutdown|]. auto with keeps.
  - unfold agent_http. eapply keeps_bind; [apply keeps_try, keeps_on_net|]. intros [[]|e] _; [auto with keeps|].
    eapply keeps_bind; [apply keeps_try, keeps_Shutdown|]. auto with keeps.
Qed.

(** [fn_leave] and [fn_stop] keep what does not depend on the sockets and serf. *)
Definition socket_free (P : Agent * sys -> Prop) : Prop :=
  forall a y n f, P (a, y) -> P (a, mkSys (sy_raft y) (sy_world y) (sy_db y) n f).

Section front.
Context (P : Agent * sys -> Prop) (HP : socket_free P).

Lemma keeps_free_deref {A} (p : option A) : keeps P (fun _ => True) (deref p : M (Agent * sys) A).
Proof. destruct p; [by apply keeps_ret|apply keeps_panic]. Qed.

Lemma keeps_free_net {A} (m : M N A) : keeps P (fun _ => True) (on_net m).
Proof.
  intros [a y] Hs. unfold on_net, zoom. cbn. destruct (m (sy_net y)) as [o n]. split; [by apply HP|by destruct o].
Qed.

Lemma keeps_fn_leave : keeps P (fun _ => True) fn_leave.
Proof.
  unfold fn_leave. keeps_step. eapply keeps_bind; [apply keeps_free_deref|]. intros m _ [a y] Hs.
  unfold on_member, zoom. cbn. destruct (Membership_Leave m (sy_serf y)) as [o f].
  split; [by apply HP|by destruct o].
Qed.

Lemma keeps_fn_stop : keeps P (fun _ => True) fn_stop.
Proof.
  unfold fn_stop. keeps_step. eapply keeps_bind; [apply keeps_free_deref|]. intros h _.
  eapply keeps_bind; [apply keeps_try, keeps_free_net|]. intros _ _.
  eapply keeps_bind; [apply keeps_free_deref|]. intros mux _. apply keeps_free_net.
Qed.
End front.

(** Every call of [Shutdown] sets the flag, whatever it returns. *)
Lemma shutdown_fns_flag b : keeps (fun s : Agent * sys => ag_shutdown s.1 = b) (fun _ => True) shutdown_fns.
Proof.
  unfold shutdown_fns. eapply keeps_bind; [apply keeps_fn_leave; by intros ????|]. intros _ _.
  eapply keeps_bind; [apply keeps_fn_stop; by intros ????|]. intros _ _ s Hs. unfold on_dist.
  destruct (ag_log s.1) as [[l ldb]|]; [|done]. destruct (dist_Close _) as [o [r [l' w']]]. split; [done|by destruct o].
Qed.

Lemma Shutdown_sets s : ag_shutdown (agent_Shutdown s).2.1 = true.
Proof.
  unfold agent_Shutdown. mrun. destruct (ag_shutdown s.1) eqn:E; [done|].
  by destruct (shutdown_fns_flag true (set_shutdown s.1, s.2) eq_refl) as [H _].
Qed.

(** An agent shuts down at most once: after the first call of [Shutdown], whatever
    it returned, no further call and no goroutine that ends touches the log, raft,
    the disk or serf, and further calls return [nil]. *)
Theorem shutdown_once s acts :
  let s1 := (agent_Shutdown s).2 in
  durable (run_ops agent_exec acts s1).2 = durable s1 /\
  agent_Shutdown (run_ops agent_exec acts s1).2 = (Ok tt, (run_ops agent_exec acts s1).2).
Proof.
  intros s1. assert (Hd : down (durable s1) s1) by (split; [apply Shutdown_sets|done]).
  destruct (keeps_run_ops (down (durable s1)) (fun _ => True) agent_exec acts s1 (agent_exec_down _) Hd) as [[H1 H2] _].
  split; [done|]. by apply Shutdown_down.
Qed.

Lemma run_acts_down s acts :
  ag_shutdown s.1 = true -> durable (run_ops agent_exec acts s).2 = durable s.
Proof.
  intros Hs. assert (Hd : down (durable s) s) by (by split).
  by destruct (keeps_run_ops (down (durable s)) (fun _ => True) agent_exec acts s (agent_exec_down _) Hd) as [[_ H] _].
Qed.

(** A shutdown that fails is final: when serf cannot leave, [Shutdown] returns its
    error with the server running and the log open, and nothing that happens later
    closes them; calls of [Shutdown] after it report success. *)
Theorem shutdown_failure_final a y m e f acts :
  ag_shutdown a = false -> ag_membership a = Some m -> mem_serf m = true -> serf_Leave (sy_serf y) = (Err e, f) ->
  let s1 := (set_shutdown a, mkSys (sy_raft y) (sy_world y) (sy_db y) (sy_net y) f) in
  agent_Shutdown (a, y) = (Err e, s1) /\
  durable (run_ops agent_exec acts s1).2 = (ag_log a, sy_raft y, sy_world y, sy_db y, f) /\
  (agent_Shutdown (run_ops agent_exec acts s1).2).1 = Ok tt.
Proof.
  intros H1 H2 H3 H4 s1. split_and!.
  - unfold agent_Shutdown, shutdown_fns, fn_leave. mrun. rewrite H1. cbn. rewrite H2. cbn.
    unfold Membership_Leave, on_member, zoom. rewrite H3. cbn. by rewrite H4.
  - by rewrite run_acts_down.
  - assert (Hd : down (durable s1) s1) by (by split).
    destruct (keeps_run_ops (down (durable s1)) (fun _ => True) agent_exec acts s1 (agent_exec_down _) Hd) as [[H _] _].
    by rewrite Shutdown_down.
Qed.

(** A server that fails before the membership is set up takes the process down. *)
Lemma early_http_failure_panics a y ln e n :
  ag_shutdown a = false -> ag_membership a = None -> http_Serve ln (sy_net y) = (Err e, n) ->
  exists p, (agent_http ln (a, y)).1 = Panic p.
Proof.
  intros H1 H2 H3. unfold agent_http, on_net, agent_Shutdown, shutdown_fns, fn_leave. mrun. rewrite H3. mrun.
  rewrite H1. cbn. rewrite H2. cbn. by eexists.
Qed.

(** ** The log across a restart *)

Section close.
Context {Hlaws : ProtoLaws record record_wf} {Hreqlaws : ProtoLaws ProduceRequest ProduceRequest_wf}.
Context {Hraft : RaftLaws R}.

(** The run of a successful [Shutdown] up to [log.Close]. *)
Lemma Shutdown_Ok a y l ldb s' :
  ag_shutdown a = false -> ag_log a = Some (l, ldb) -> agent_Shutdown (a, y) = (Ok tt, s') ->
  exists rn' l', dist_Close (sy_raft y, (l, sy_world y)) = (Ok tt, (rn', (l', sy_world s'.2))).
Proof.
  intros H1 H2 Hrun. unfold agent_Shutdown in Hrun. erewrite bind_Ok in Hrun by reflexivity. cbn [fst] in Hrun.
  rewrite H1 in Hrun. erewrite bind_Ok in Hrun by reflexivity. unfold shutdown_fns in Hrun.
  set (P := fun s : Agent * sys => ag_log s.1 = Some (l, ldb) /\ sy_raft s.2 = sy_raft y /\ sy_world s.2 = sy_world y).
  assert (HP : socket_free P) by (by intros ????).
  inv_ok Hrun. inv_ok Hrun. destruct (keeps_fn_leave P HP (set_shutdown a, y)) as [K1 _]; [done|].
  cbn [fst snd] in Hrun0. rewrite Hrun0 in K1. cbn [snd] in K1. destruct (keeps_fn_stop P HP _ K1) as [(K2 & K3 & K4) _]. rewrite Hrun1 in K2, K3, K4. cbn in K2, K3, K4.
  unfold on_dist in Hrun. rewrite K2, K3, K4 in Hrun.
  destruct (dist_Close (sy_raft y, (l, sy_world y))) as [o [rn' [l' w']]]. simplify_eq. by exists rn', l'.
Qed.

(** C15. What the log held when the agent was shut down is there when it starts again:
    after a successful [Shutdown], [NewLog] on the directory gives a log that starts
    with the same records.  The disk works, 2^32 offsets are left, and the records that
    the nodes of the cluster submit are so large ([min_frame] of the log's segment limits,
    13 bytes of a store for those of an agent) that the entries raft still applies do
    not run into a full index. *)
Theorem shutdown_keeps_log a y l ldb lo recs s' :
  ag_shutdown a = false -> ag_log a = Some (l, ldb) ->
  log_fit l (sy_world y) lo recs -> submits (min_frame (l_Config l)) -> lo + Z.of_nat (length recs) + 2 ^ 32 < 2 ^ 64 ->
  agent_Shutdown (a, y) = (Ok tt, s') ->
  exists l2 w2 recs', NewLog (l_Dir l) (l_Config l) (sy_world s'.2) = (Ok l2, w2) /\
    log_fit l2 w2 lo recs' /\ recs `prefix_of` recs'.
Proof.
  intros H1 H2 Hr Hsub Hb Hrun. destruct (Shutdown_Ok _ _ _ _ _ H1 H2 Hrun) as (rn' & l' & Hc).
  destruct (dist_Close_run _ _ _ _ _ _ _ _ Hr Hsub Hb Hc) as (recs' & Hcl & Hp).
  destruct (NewLog_closed _ _ _ _ _ _ (log_ready_limits _ _ _ _ (proj1 Hr)) Hcl) as (l2 & w2 & Hn & Hr2 & _ & _ & Hh2).
  exists l2, w2, recs'. split; [done|]. split; [by split; auto|done].
Qed.
End close.

(** ** Joining the cluster *)

Section member.
Context {Hserfl : SerfLaws F}.

Lemma discovery_New_Ok c f m f' :
  discovery_New c f = (Ok (m, None), f') ->
  m = mkMembership c true /\ serf_local f' = Some (mkMember (dc_NodeName c) (dc_Tags c)).
Proof.
  unfold discovery_New. intros Hrun. destruct (setupSerf _) as [[[]|e|p] [m' f'']] eqn:E; simplify_eq.
  unfold setupSerf in E. erewrite bind_Ok in E by reflexivity. cbn [fst mem_Config] in E.
  inv_ok E. inv_ok E. inv_ok E. unfold on_serf, zoom in Hrun, Hrun0. destruct a0. cbn [fst snd] in Hrun0.
  destruct (serf_Create _ _) as [o f1] eqn:Ec in Hrun0. simplify_eq. apply law_Create in Ec. cbn in Ec.
  unfold modify in Hrun1. simplify_eq. destruct (dc_StartJoinAddresses c).
  - inv_ok E. unfold mret, M_ret in E. simplify_eq. unfold on_serf, zoom in Hrun0. cbn in Hrun0.
    destruct (serf_Join _ _ _) as [oj fj] eqn:Ej in Hrun0. apply law_serf_Join in Ej. simplify_eq. split; [done|]. congruence.
  - unfold mret, M_ret in E. by simplify_eq.
Qed.

Lemma setupMembership_Ok s s' :
  agent_setupMembership s = (Ok tt, s') ->
  exists addr, RPCAddress (ag_Config s.1) = Ok addr /\
    serf_local (sy_serf s'.2) = Some (mkMember (ac_NodeName (ag_Config s.1)) {["rpc_addr"%string := addr]}).
Proof.
  intros Hrun. unfold agent_setupMembership in Hrun. erewrite bind_Ok in Hrun by reflexivity.
  inv_ok Hrun. unfold lift in Hrun0. destruct (RPCAddress (ag_Config s.1)) as [addr|e|p]; simplify_eq.
  inv_ok Hrun. inv_ok Hrun. unfold modify in Hrun1. destruct a0 as [m [e|]]; cbn in Hrun; [done|].
  unfold mret, M_ret in Hrun. simplify_eq. exists a. split; [done|]. cbn.
  unfold on_member, zoom in Hrun0. destruct (discovery_New _ _) as [o f'] eqn:E. simplify_eq.
  by apply discovery_New_Ok in E as [_ E].
Qed.
End member.

(** The steps of [New] keep the configuration. *)
Lemma agent_New_Config c y s' :
  agent_New newEnforcer ticks (agent_zero c, y) = (Ok tt, s') ->
  exists s1, ag_Config s1.1 = c /\ agent_setupMembership s1 = (Ok tt, s').
Proof.
  set (P := fun s : Agent * sys => ag_Config s.1 = c). assert (HP : socket_free P) by (by intros ????).
  assert (Hst : forall A (m : M (R * world * D) A), keeps P (fun _ => True) (Agent.on_store m)).
  { intros A m s Hs. unfold Agent.on_store, zoom. destruct (m _) as [o x]. split; [done|by destruct o]. }
  assert (Hdist : forall A (m : M (R * lst) A), keeps P (fun _ => True) (on_dist m)).
  { intros A m s Hs. unfold on_dist. destruct (ag_log s.1) as [[l ldb]|]; [|done].
    destruct (m _) as [o [r [l' w']]]. split; [done|by destruct o]. }
  assert (Hlift : forall A (o : outcome A), keeps P (fun _ => True) (lift o)) by (intros; by apply keeps_lift).
  assert (H1 : keeps P (fun _ => True) agent_setupMux).
  { unfold agent_setupMux. keeps_step. eapply keeps_bind; [by apply keeps_free_net|]. intros ln _.
    eapply keeps_bind; [by apply keeps_free_net|]. intros m _. by apply keeps_modify. }
  assert (H2 : keeps P (fun _ => True) (agent_setupLog ticks)).
  { unfold agent_setupLog. keeps_step. eapply keeps_bind; [apply keeps_free_deref|]. intros mux _.
    eapply keeps_bind; [by apply keeps_free_net|]. intros ln _. eapply keeps_bind; [apply Hst|]. intros l _.
    eapply keeps_bind; [by apply keeps_modify|]. intros _ _. destruct (ac_Bootstrap _); [|auto with keeps].
    eapply keeps_bind; [apply Hdist|]. auto with keeps. }
  assert (H3 : keeps P (fun _ => True) (agent_setupServer newEnforcer)).
  { unfold agent_setupServer. keeps_step. eapply keeps_bind; [apply Hlift|]. intros auth _.
    eapply keeps_bind; [apply Hlift|]. intros h _. eapply keeps_bind; [by apply keeps_modify|]. intros _ _.
    eapply keeps_bind; [apply keeps_free_deref|]. intros mux _. eapply keeps_bind; [by apply keeps_free_net|].
    intros ln _. destruct (ac_ServerTLSConfig _); [by apply keeps_free_net|auto with keeps]. }
  intros Hrun. unfold agent_New in Hrun. inv_ok Hrun. inv_ok Hrun. inv_ok Hrun.
  destruct (H1 (agent_zero c, y) eq_refl) as [K1 _]. rewrite Hrun0 in K1.
  destruct (H2 _ K1) as [K2 _]. cbn [snd] in K2. rewrite Hrun1 in K2.
  destruct (H3 _ K2) as [K3 _]. cbn [snd] in K3. rewrite Hrun2 in K3. by exists s1.
Qed.

Section join.
Context {Hlaws : ProtoLaws record record_wf} {Hreqlaws : ProtoLaws ProduceRequest ProduceRequest_wf}.
Context {Hraft : RaftLaws R}.

(** C23. An agent reaches the cluster under its own name and address: after [New], the
    local member of serf has the agent's name and its RPC address as a tag; when the
    leader, a node with another name, gets the event that this member has joined and
    handles it without logging an error, raft's configuration has the agent under that
    name and address (if no two servers shared one before). *)
Theorem agent_joins_cluster {Hserfl : SerfLaws F} c y a y' :
  agent_New newEnforcer ticks (agent_zero c, y) = (Ok tt, (a, y')) ->
  exists mb addr, serf_local (sy_serf y') = Some mb /\ RPCAddress c = Ok addr /\ mb_Name mb = ac_NodeName c /\
    mb_Tags mb !! "rpc_addr"%string = Some addr /\
    forall leader (r r' : R) (ls ls' : lst) lines, leader <> ac_NodeName c ->
      NoDup (sv_ID <$> raft_servers r) -> NoDup (sv_Address <$> raft_servers r) ->
      handle_event leader (EventMemberJoin [mb]) ((r, ls), lines) = (Ok tt, ((r', ls'), lines)) ->
      mkServer (ac_NodeName c) addr ∈ raft_servers r'.
Proof.
  intros Hrun. apply agent_New_Config in Hrun as (s1 & Hc & Hrun).
  apply setupMembership_Ok in Hrun as (addr & Ha & Hm). rewrite Hc in *. cbn [snd] in Hm.
  eexists _, addr. split; [exact Hm|]. split; [done|]. split; [done|]. split; [apply lookup_singleton_eq|].
  intros leader r r' ls ls' lines Hl N1 N2 Hj. cbn [handle_event each_remote] in Hj.
  unfold isLocal in Hj. rewrite bool_decide_eq_false_2 in Hj by (cbn; congruence).
  inv_ok Hj. unfold mret, M_ret in Hj. injection Hj as ->. destruct a0. rename Hrun into Hj. unfold handleJoin in Hj.
  cbn [mb_Name mb_Tags] in Hj. rewrite lookup_singleton_eq in Hj. cbn [default from_option id] in Hj.
  unfold on_handler, try, zoom, mbind, M_bind in Hj. cbn [fst snd h_Join dist_handler] in Hj.
  destruct (dist_Join (ac_NodeName c) addr (r, ls)) as [[[]|e|p] [r1 l1]] eqn:Ej; cbn in Hj; [| |done].
  - unfold mret, M_ret in Hj. simplify_eq. by destruct (join_member_run _ _ _ _ _ _ N1 N2 Ej).
  - unfold logError, modify in Hj. injection Hj as _ _ Hlen. apply (f_equal length) in Hlen. rewrite length_app in Hlen. cbn in Hlen. lia.
Qed.
End join.
End agent.

(** ** The replicated log behind the service *)
Section replicated.
Context {R : Type} `{Hnode : RaftNode R} `{Hmsg : ProtoMessage record} {Hlaws : ProtoLaws record record_wf}.
Context `{Mpq : ProtoMessage ProduceRequest} {Lpq : ProtoLaws ProduceRequest ProduceRequest_wf}.
Context `{Mpr : ProtoMessage ProduceResponse} {Lpr : ProtoLaws ProduceResponse ProduceResponse_wf}.
Context `{Mcq : ProtoMessage ConsumeRequest} {Lcq : ProtoLaws ConsumeRequest ConsumeRequest_wf}.
Context `{Mcr : ProtoMessage ConsumeResponse} {Lcr : ProtoLaws ConsumeResponse ConsumeResponse_wf}.
Context `{Mpsq : ProtoMessage ProduceStreamRequest} `{Mpsr : ProtoMessage ProduceStreamResponse}.
Context `{Mcsq : ProtoMessage ConsumeStreamRequest} `{Mcsr : ProtoMessage ConsumeStreamResponse}.
Context `{Hconn : ConnectLib (svc (R * lst))} {Hconnl : ConnectLaws (svc (R * lst))}.
Context `{Hh2c : H2C (svc (R * lst))} {Hh2cl : H2CLaws (svc (R * lst))}.
Context `{Hcc : ConnectClientLib (svc (R * lst))} {Hccl : ConnectClientLaws (svc (R * lst))}.
Context {Hraft : RaftLaws R}.

(** C11. End to end: a record that a client produced through the generated client (with
    any options), the HTTP routes, the interceptors, the handlers and raft is what it
    consumes at the offset it was given, when the policy lets it consume.  The client's
    requests reach the node with its verified certificate, the node's disk works, the record and those that the nodes of the cluster submit are well-typed
    and of at least [min_frame] bytes of a store (13 for the limits of an agent's log), and
    2^33 offsets are left. *)
Theorem client_reads_writes auth h do base opts name ctx r (s : svc (R * lst)) rn l w lo recs resp s1 :
  agent_routes auth dist_commit = Ok h -> delivers do (TrimRight_slash base) h name ->
  auth name "*"%string LogAPIConsumeProcedure = Ok true ->
  sv_log s = (rn, (l, w)) -> log_fit l w lo recs -> submits (min_frame (l_Config l)) ->
  record_wf r -> fits (min_frame (l_Config l)) r -> lo + Z.of_nat (length recs) + 2 ^ 33 < 2 ^ 64 ->
  client_Produce (NewLogAPIClient do base opts) ctx (mkProduceRequest (Some r)) s = (Ok resp, s1) ->
  exists s2, client_Consume (NewLogAPIClient do base opts) ctx (mkConsumeRequest (presp_Offset resp)) s1 =
    (Ok (mkConsumeResponse (Some (set_Offset (presp_Offset resp) r))), s2).
Proof.
  intros Hh Hd Ha Hs Hr Hsub Hwf Hft Hb. apply (client_read_back (cl := dist_commit) auth h do base opts name); [done..|].
  intros off [rn' [l' w']] Hrun. rewrite Hs in Hrun. cbn [cl_Append cl_Read dist_commit] in *.
  destruct (dist_append_read_run r off rn rn' l w l' w' lo recs Hr Hsub Hwf Hft Hb Hrun) as (recs' & [Hr' _] & _ & Hrd & Hread).
  split.
  - unfold spec_read in Hrd. destruct (Z.leb_spec lo off); [|done]. apply lookup_lt_Some in Hrd.
    destruct (log_inv_range _ _ _ _ (proj1 Hr')). in_range.
  - destruct (dist_Read off (rn', (l', w'))) as [o s'']. cbn in Hread. subst o. by exists s''.
Qed.
End replicated.

(** ** Witnesses: an agent that bootstraps a cluster of one. *)
Module AgentWitness.
Import Wire Scenario DistributedWitness PebbleWitness ConnectRef.

#[export] Instance solo_lib : RaftLib (list Server) := {|
  raft_DefaultConfig := mkRaftConfig "" 1 1 1 1 None false;
  raft_NewFileSnapshotStore := fun _ _ => mret tt;
  raft_NewNetworkTransport := fun _ _ _ => mret tt;
  raft_NewRaft := fun _ _ => mret tt;
  raft_HasExistingState := fun _ => mret false;
  transport_LocalAddr := fun _ => "[::]:8400"%string;
  raft_BootstrapCluster := fun servers s => (Ok tt, (servers, s.2))
|}.

(** The sockets: a counter of handles, and what was opened and closed. *)
Definition sockets : Type := nat * list string.
Definition opens (what : string) : sockets -> nat * sockets := fun n => (n.1, (S n.1, n.2 ++ [what])).
#[export] Instance sockets_net : Net sockets := {|
  net_Listen := fun addr n => (Ok n.1, (S n.1, n.2 ++ [addr]));
  ln_Accept := fun _ => mret 0%nat;
  ln_Addr := fun _ => mret ""%string;
  ln_Close := fun _ => mret tt;
  conn_Read := fun _ _ => mret [];
  conn_Write := fun _ _ => mret tt;
  dialer_Dial := fun _ _ => mret 0%nat
|}.
#[export] Instance sockets_cmux : CMux sockets := {|
  cmux_New := fun _ => opens "mux";
  cmux_Match := fun _ _ => opens "match";
  cmux_Serve := fun _ => throw (errors_New "mux: listener closed");
  cmux_Close := fun _ n => (n.1, n.2 ++ ["close"%string])
|}.
#[export] Instance sockets_http : HttpServer sockets := {|
  tls_NewListener := fun _ _ => opens "tls";
  http_Serve := fun _ => throw (errors_New "http: Server closed");
  http_Shutdown := fun n => (Ok tt, (n.1, n.2 ++ ["stop"%string]))
|}.

(** Serf: its configuration, and whether leaving works. *)
Definition serf_state : Type := option serf_Config * bool.
#[export] Instance serf_ref : SerfLib serf_state := {|
  net_ResolveTCPAddr := fun _ => mret ("10.0.0.1"%string, 7946);
  serf_Create := fun c (f : serf_state) => (Ok tt, (Some c, f.2));
  serf_Join := fun _ _ => mret 1;
  serf_Members := mret [];
  serf_Leave := fun f : serf_state => if f.2 then (Ok tt, (None, f.2)) else (Err (errors_New "timeout"), f)
|}.
#[export, refine] Instance serf_ref_laws : SerfLaws serf_state := {|
  serf_local := fun f => (fun c => mkMember (sc_NodeName c) (sc_Tags c)) <$> f.1
|}.
Proof.
  - intros c f f' H. cbn in H. by simplify_eq.
  - intros addrs ig f o f' H. cbn in H. unfold mret, M_ret in H. by simplify_eq.
Defined.

Definition config : agent_Config := mkAgentConfig None None "data" "10.0.0.1:7946" 8400 "n1" None "model" "policy" true.
Definition root_only : string -> string -> outcome Enforcer := fun _ _ =>
  Ok (fun sub _ _ => Ok (bool_decide (sub = "root"%string))).
Definition machine (leave_works : bool) : sys (R := list Server) (D := gmap bytes bytes) (N := sockets) (F := serf_state) :=
  mkSys [] (World ∅ ∅ ∅ [] ∅) ∅ (0%nat, []) (None, leave_works).
Definition started (leave_works : bool) := agent_New root_only 1 (agent_zero config, machine leave_works).

Lemma agent_joins_cluster_witness :
  exists mb, serf_local (sy_serf (started true).2.2) = Some mb /\
    exists r' s', handle_event "n2" (EventMemberJoin [mb]) (([n2], wit_new small), []) = (Ok tt, ((r', s'), [])) /\
      mkServer "n1" "10.0.0.1:8400" ∈ r'.
Proof.
  assert (E : (started true).1 = Ok tt) by (by vm_compute).
  assert (Em : serf_local (sy_serf (started true).2.2) =
    Some (mkMember "n1" {["rpc_addr"%string := "10.0.0.1:8400"%string]})) by (by vm_compute).
  destruct (started true) as [o [a y']] eqn:Es. cbn [fst snd] in *. subst o.
  destruct (agent_joins_cluster root_only 1 config (machine true) a y' Es) as (mb & addr & Hm & Ha & Hn & _ & H).
  rewrite Hm in Em. injection Em as ->. eexists. split; [exact Hm|].
  exists [n2; mkServer "n1" "10.0.0.1:8400"], (wit_new small).
  assert (Ej : handle_event "n2" (EventMemberJoin [mkMember "n1" {["rpc_addr"%string := "10.0.0.1:8400"%string]}])
    (([n2], wit_new small), []) = (Ok tt, (([n2; mkServer "n1" "10.0.0.1:8400"], wit_new small), []))) by reflexivity.
  split; [exact Ej|]. vm_compute in Ha. injection Ha as <-. eapply H; [..|exact Ej].
  - discriminate.
  - apply (bool_decide_unpack _). by vm_compute.
  - apply (bool_decide_unpack _). by vm_compute.
Defined.

Definition n1_membership : Membership := mkMembership (mkDiscoveryConfig "n1" "10.0.0.1:7946"
  {["rpc_addr"%string := "10.0.0.1:8400"%string]} None) true.

Lemma shutdown_failure_final_witness :
  (agent_Shutdown (started false).2).1 = Err (errors_New "timeout") /\
  (agent_Shutdown (agent_Shutdown (started false).2).2).1 = Ok tt.
Proof.
  assert (Hs : ag_shutdown (started false).2.1 = false) by (vm_compute; reflexivity).
  assert (Hm : ag_membership (started false).2.1 = Some n1_membership) by (vm_compute; reflexivity).
  assert (Hl : serf_Leave (sy_serf (started false).2.2) = (Err (errors_New "timeout"), sy_serf (started false).2.2))
    by (vm_compute; reflexivity).
  destruct (started false) as [o [a y]]. cbn [fst snd] in *.
  destruct (shutdown_failure_final a y n1_membership _ _ [] Hs Hm eq_refl Hl) as (H1 & _ & H2).
  rewrite H1. split; [reflexivity|exact H2].
Defined.

(** The commit log of the agent that [New] returns: it is new, its limits are the
    defaults, and raft's log store lies in another directory of the disk. *)
Definition agent_log : Log := match ag_log (started true).2.1 with Some (l, _) => l | None => mkLog "" plain ∅ 0 None [] end.
Definition agent_disk : world := sy_world (started true).2.2.
Definition data_log : string := "data/log".
Definition mkdirs : world := (os_MkdirAll data_log (World ∅ ∅ ∅ [] ∅)).2.

Definition here (dir : string) (w : world) : gmap path bytes := filter (fun x => x.1.1 = dir) (w_fs w).
Lemma here_lookup dir w w' n : here dir w = here dir w' -> w_fs w !! (dir, n) = w_fs w' !! (dir, n).
Proof.
  intros H. apply (f_equal (fun m => m !! (dir, n))) in H. unfold here in H. rewrite !map_lookup_filter in H.
  destruct (w_fs w !! (dir, n)), (w_fs w' !! (dir, n)); cbn in H; rewrite ?option_guard_True in H by done; congruence.
Qed.

Lemma agent_log_fit : log_fit agent_log agent_disk 0 [] /\ min_frame (l_Config agent_log) = 13.
Proof.
  assert (Hlim : limits_ok (default_config (agent_log_config config 2))) by (by vm_compute).
  assert (Hu : is_u64 (InitialOffset (Segment (agent_log_config config 2)))) by (by vm_compute).
  assert (Hw : healthy mkdirs) by (by vm_compute).
  assert (Hdd : data_log ∈ w_dirs mkdirs) by (apply (bool_decide_unpack _); by vm_compute).
  assert (Hdir : l_Dir agent_log = data_log) by (by vm_compute).
  assert (Hd : l_Dir agent_log ∈ w_dirs agent_disk) by (apply (bool_decide_unpack _); by vm_compute).
  assert (Hh : healthy agent_disk) by (by vm_compute).
  assert (Hm : min_frame (l_Config agent_log) = 13) by (by vm_compute).
  assert (El : match NewLog data_log (agent_log_config config 2) mkdirs with
    | (Ok l, w) => l = agent_log /\ here data_log agent_disk = here data_log w | _ => False end)
    by (vm_compute; split; reflexivity).
  pose proof (NewLog_empty mkdirs data_log (agent_log_config config 2) Hlim Hu Hw Hdd (fun n => lookup_empty _)) as Hnew.
  change (InitialOffset (Segment (agent_log_config config 2))) with 0 in Hnew.
  revert El Hd Hh Hm Hdir Hnew. generalize agent_log, agent_disk, (agent_log_config config 2), mkdirs. clear.
  intros la wa c w0 El Hd Hh Hm Hdir (l & w & E & Hfit & _). rewrite E in El. destruct El as [-> Hfs].
  split; [|exact Hm]. eapply log_fit_elsewhere; [exact Hfit| |exact Hd|exact Hh].
  intros n. rewrite Hdir. by apply here_lookup.
Qed.

(** The agent after a record was appended through raft. *)
Definition served_one := on_dist (dist_Append (Some (wit_record abc))) (started true).2.

Lemma agent_submits : submits 13.
Proof. intros c Hc. exact Hc. Qed.

Lemma served_fit :
  exists l ldb, ag_log served_one.2.1 = Some (l, ldb) /\ ag_shutdown served_one.2.1 = false /\ l_Dir l = data_log /\
    log_fit l (sy_world served_one.2.2) 0 [mkRecord abc 0 7 1] /\ min_frame (l_Config l) = 13.
Proof.
  destruct agent_log_fit as [Hfit Hm].
  assert (Hl : match ag_log (started true).2.1 with Some (l, _) => l = agent_log | None => False end) by (by vm_compute).
  assert (Hs : ag_shutdown (started true).2.1 = false) by (by vm_compute).
  assert (Hdir : l_Dir agent_log = data_log) by (by vm_compute).
  unfold served_one, agent_disk in *. revert Hfit Hm Hl Hs Hdir. generalize agent_log. destruct (started true) as [o [a y]].
  cbn [fst snd]. clear o. intros la Hfit Hm Hl Hs Hdir. unfold on_dist. cbn [fst snd].
  destruct (ag_log a) as [[l ldb]|]; [|done]. subst l.
  assert (Hwf : record_wf (wit_record abc)) by (by vm_compute).
  destruct (Marshal_total (mkProduceRequest (Some (wit_record abc))) Hwf) as (b & Hb & _).
  destruct (fsm_Apply_spec (CmdAppend (wit_record abc)) (byte_of AppendRequestType :: b) la (sy_world y) 0 []) as
    (l1 & w1 & Hrun & Hr1 & Hc1); [done|done|rewrite Hm; by apply abc_fits|by exists b|cbn; lia|].
  assert (Ha : dist_Append (Some (wit_record abc)) (sy_raft y, (la, sy_world y)) = (Ok 0, (sy_raft y, (l1, w1)))).
  { unfold dist_Append, dist_apply. erewrite (bind_Ok (_ ≫= _)); [|erewrite bind_Ok by (unfold lift; by rewrite Hb);
      erewrite bind_Ok by (cbn [raft_Apply solo fst snd]; by rewrite Hrun); reflexivity]. reflexivity. }
  rewrite Ha. exists l1, ldb. cbn. rewrite Hc1. split_and!; [done|done| |done|done].
  rewrite <- Hdir. change (l_Dir (l1, w1).1 = l_Dir la). destruct (fsm_Apply_dir (l_Dir la) (byte_of AppendRequestType :: b) (la, sy_world y) eq_refl) as [Hd _].
  by rewrite Hrun in Hd.
Qed.

Lemma shutdown_keeps_log_witness :
  (agent_Shutdown served_one.2).1 = Ok tt /\
  exists c l2 w2 recs', NewLog data_log c (sy_world (agent_Shutdown served_one.2).2.2) = (Ok l2, w2) /\
    log_fit l2 w2 0 recs' /\ [mkRecord abc 0 7 1] `prefix_of` recs'.
Proof.
  assert (E : (agent_Shutdown served_one.2).1 = Ok tt) by (vm_compute; reflexivity). split; [exact E|].
  destruct served_fit as (l & ldb & Hl & Hs & Hdir & Hfit & Hm). revert E Hl Hs Hfit.
  destruct served_one as [o [a y]]. cbn [fst snd]. intros E Hl Hs Hfit.
  destruct (agent_Shutdown (a, y)) as [o' s'] eqn:Es. cbn [fst snd] in *. subst o'.
  exists (l_Config l). rewrite <- Hdir.
  apply (shutdown_keeps_log a y l ldb 0 [mkRecord abc 0 7 1] s' Hs Hl Hfit).
  - rewrite Hm. exact agent_submits.
  - cbn. lia.
  - exact Es.
Defined.

(** A client of the service over the log of this agent. *)
Definition policy : Enforcer := fun sub _ _ => Ok (bool_decide (sub = "root"%string)).
Definition handler : http_Handler (svc (list Server * lst)) :=
  match agent_routes policy dist_commit with Ok h => h | _ => http_NotFound end.
Definition as_root : HTTPClient (svc (list Server * lst)) := fun ct url b =>
  handler (ServiceWitness.from "root" (ServiceWitness.path_of url) ct [b] []).

Lemma root_delivers : delivers as_root (TrimRight_slash ServiceWitness.base_url) handler "root".
Proof.
  split. intros ct path b s Hct. exists (ServiceWitness.from "root" path ct [b] []).
  split; [unfold as_root; by rewrite ServiceWitness.path_of_base|]. split; [by split|]. split; [done|by exists [], []].
Qed.

Definition rpc_client : LogAPIClient := NewLogAPIClient as_root ServiceWitness.base_url [WithGRPC].
Definition svc1 : svc (list Server * lst) := mkSvc ([n1], (agent_log, agent_disk)) [] 0 [].
Definition produced : outcome ProduceResponse * svc (list Server * lst) :=
  client_Produce rpc_client context_Background (mkProduceRequest (Some (wit_record abc))) svc1.

Lemma client_reads_writes_witness :
  produced.1 = Ok (mkProduceResponse 0) /\
  exists s2, client_Consume rpc_client context_Background (mkConsumeRequest 0) produced.2 =
    (Ok (mkConsumeResponse (Some (mkRecord abc 0 7 1))), s2).
Proof.
  assert (Hwf : record_wf (wit_record abc)) by (by vm_compute). destruct agent_log_fit as [Hfit Hm].
  assert (Hft : fits (min_frame (l_Config agent_log)) (wit_record abc)) by (rewrite Hm; by apply abc_fits).
  assert (E : produced.1 = Ok (mkProduceResponse 0)) by (vm_compute; reflexivity). split; [exact E|].
  destruct produced as [o s1] eqn:Ep. cbn [fst snd] in E |- *. subst o.
  refine (client_reads_writes policy handler as_root ServiceWitness.base_url [WithGRPC] "root" context_Background
            (wit_record abc) svc1 [n1] agent_log agent_disk 0 [] (mkProduceResponse 0) s1 eq_refl root_delivers eq_refl
            eq_refl Hfit _ Hwf Hft eq_refl Ep).
  rewrite Hm. exact agent_submits.
Defined.
End AgentWitness.
