(* ===== verification/Restart.v ===== *)
(** An agent that was shut down and starts again: its commit log is closed by
    [Shutdown] and opens with all records, but raft's log store, which lies beside
    it on the disk, is not closed by anyone. *)

From S2P Require Import Prelude Endian OS Proto Wire Config Store Index Names Segment Log LogInv.
From S2P Require Import LogReopen LogSpec.
From S2P Require Import LogTyped LogFrame LogCrash Scenario Raft LogStore Fsm FsmProps RaftPebble.
From S2P Require Import RaftPebbleProps Tls StreamLayer NetAddr.
From S2P Require Import Distributed DistributedProps Http Server Auth Service Discovery Agent.
From S2P Require Import ServiceProps AgentProps.

Section restart.
Context {R D N F : Type}.
Context `{Hlib : RaftLib R} `{Hnode : RaftNode R} `{Hdb : PebbleDB D} `{Hnet : Net N} `{Hcmux : CMux N}.
Context `{Hhttp : HttpServer N} `{Hserf : SerfLib F}.
Context `{Hmsg : ProtoMessage record} {Hlaws : ProtoLaws record record_wf}.
Context `{Hreq : ProtoMessage ProduceRequest} {Hreqlaws : ProtoLaws ProduceRequest ProduceRequest_wf}.
Context {Hraft : RaftLaws R}.

(** ** The replicated log is confined to its directory *)

Lemma here_fsm_Apply d w0 data : keeps (log_here d w0) (fun _ => True) (fsm_Apply data).
Proof.
  unfold fsm_Apply, fsm_applyAppend. destruct data as [|t b]; [auto with keeps|]. destruct (_ =? _); [|auto with keeps].
  eapply keeps_bind; [by apply keeps_try, (keeps_lift _ (fun _ => True))|]. intros [q|e] _; [|auto with keeps].
  eapply keeps_bind; [apply keeps_try, here_Log_Append|]. intros [off|e] _; auto with keeps.
Qed.

Lemma here_apply_all d w0 datas s : log_here d w0 s -> log_here d w0 (apply_all datas s).2.
Proof.
  revert s. induction datas as [|data datas IH]; intros s Hs; [done|]. cbn [apply_all].
  destruct (here_fsm_Apply d w0 data s Hs) as [H _]. destruct (fsm_Apply data s) as [o s1]. specialize (IH s1 H).
  by destruct (apply_all datas s1).
Qed.

Lemma dist_Close_beside rn l w rn' l' w' :
  log_in (l_Dir l) l -> dist_Close (rn, (l, w)) = (Ok tt, (rn', (l', w'))) -> beside (l_Dir l) w w'.
Proof.
  intros Hl Hrun. unfold dist_Close in Hrun. inv_ok Hrun. destruct a, s as [rn1 s1].
  apply law_Shutdown in Hrun0 as (cs & datas & os & _ & _ & Hap & _).
  assert (H1 : log_here (l_Dir l) w s1).
  { change s1 with (os, s1).2. rewrite <- Hap. apply here_apply_all. split; [done|apply beside_refl]. }
  destruct (here_Log_Close (l_Dir l) w s1 H1) as [[_ H] _].
  unfold on_log, zoom in Hrun. cbn in Hrun. destruct (Log_Close s1) as [o s2]. by simplify_eq.
Qed.

(** ** Raft's log store after a restart *)

(** The directory of an open log store is not changed by what happens elsewhere. *)
Lemma left_open_beside d w0 w dir c bs base :
  beside d w0 w -> dir <> d -> left_open w0 dir c bs base -> left_open w dir c bs base.
Proof.
  intros [Hf _ Hd] Hne (H1 & H2 & H3 & H4 & H5 & H6).
  assert (Hc : forall b, fcontent w (dir, index_name b) = fcontent w0 (dir, index_name b))
    by (intros b; unfold fcontent; by rewrite Hf).
  split_and!; [by apply Hd| |done|done| |].
  - intros n. rewrite Hf by done. apply H2.
  - eapply list.Forall_impl; [exact H5|]. intros b Hb. cbn. by rewrite Hc.
  - unfold unclosed. by rewrite Hc.
Qed.

Lemma stuck_StoreLogs (s : lst) logs :
  log_stuck s -> logs <> [] -> Forall (fun lg => record_wf (record_of_log lg)) logs ->
  exists s', StoreLogs logs s = (Err io_EOF, s').
Proof.
  intros Hs Hne Hl. destruct Hl as [|lg logs Hlg _]; [done|]. cbn.
  destruct (log_stuck_append _ _ Hs Hlg) as (s' & Ha & _). exists s'. by apply bind_Err.
Qed.

(** C30. A clean shutdown does not survive a restart: the commit log comes back with its
    records, but raft's log store was left open, so that [newLogStore] returns a
    store that claims to end with the first entry of its last segment, however many
    there were, and refuses every entry.  The store has any number of segments, the last
    with an unused end of its index (as every index of 1024 bytes has that is not
    full); the disk works, 2^32 offsets of the commit log are left, and the records that
    the nodes submit are of at least [min_frame] bytes of a store (13 for an agent's log). *)
Theorem restart_refuses_entries (a : Agent) (y : sys (R := R) (D := D) (N := N) (F := F)) l ldb lo recs s' dir c bs base :
  ag_shutdown a = false -> ag_log a = Some (l, ldb) ->
  log_fit l (sy_world y) lo recs -> log_in (l_Dir l) l -> submits (min_frame (l_Config l)) ->
  lo + Z.of_nat (length recs) + 2 ^ 32 < 2 ^ 64 ->
  dir <> l_Dir l -> limits_ok c -> base + 1 < 2 ^ 64 -> left_open (sy_world y) dir c bs base ->
  agent_Shutdown (a, y) = (Ok tt, s') ->
  (exists l2 w2 recs', NewLog (l_Dir l) (l_Config l) (sy_world s'.2) = (Ok l2, w2) /\
     log_fit l2 w2 lo recs' /\ recs `prefix_of` recs') /\
  exists ldb2 w2, newLogStore dir c (sy_world s'.2) = (Ok ldb2, w2) /\ (LastIndex (ldb2, w2)).1 = Ok base /\
    forall logs, logs <> [] -> Forall (fun lg => record_wf (record_of_log lg)) logs ->
      exists s2, StoreLogs logs (ldb2, w2) = (Err io_EOF, s2).
Proof.
  intros H1 H2 Hr Hin Hsub Hb Hne Hlim Hu1 Ho Hrun.
  destruct (Shutdown_Ok _ _ _ _ _ H1 H2 Hrun) as (rn' & l' & Hc).
  destruct (dist_Close_run _ _ _ _ _ _ _ _ Hr Hsub Hb Hc) as (recs' & Hcl & Hp).
  apply (dist_Close_beside _ _ _ _ _ _ Hin) in Hc. split.
  - destruct (NewLog_closed _ _ _ _ _ _ (log_ready_limits _ _ _ _ (proj1 Hr)) Hcl) as (l2 & w2 & Hn & Hr2 & _ & _ & Hh2).
    exists l2, w2, recs'. split; [done|]. split; [by split; auto|done].
  - destruct (NewLog_unclosed (sy_world s'.2) dir c bs base) as (ldb2 & w2 & Hn & Hh & Hs); [done|done| | |].
    + by destruct Hcl as (rss & rs & _ & _ & _ & Hw & _).
    + by eapply left_open_beside.
    + exists ldb2, w2. split_and!; [done|done|]. intros logs. by apply stuck_StoreLogs.
Qed.
End restart.

(** ** Witness: the agent that [New] made, after an append. *)
Module RestartWitness.
Import Wire Scenario DistributedWitness RaftPebbleProps.PebbleWitness ConnectRef AgentWitness.

Definition raft_dir : string := "data/raft/log".
Definition store_config : Config := default_config (set_InitialOffset 1 (agent_log_config config 2)).
Definition store_disk : world := sy_world served_one.2.2.

Lemma raft_left_open : left_open store_disk raft_dir store_config [] 1.
Proof.
  assert (Hd : dir_files raft_dir store_disk ≡ₚ [store_name 1; index_name 1])
    by (apply (bool_decide_unpack _); by vm_compute).
  split; [apply (bool_decide_unpack _); by vm_compute|].
  split; [intros n; rewrite <- elem_of_dir_files, Hd; set_solver|]. clear Hd.
  split; [repeat constructor; by vm_compute|]. split; [by repeat constructor|]. split; [constructor|].
  split; [by vm_compute|]. vm_compute. split; [done|lia].
Qed.

Lemma restart_refuses_entries_witness :
  exists s' ldb2 w2 s2, agent_Shutdown served_one.2 = (Ok tt, s') /\
    newLogStore raft_dir store_config (sy_world s'.2) = (Ok ldb2, w2) /\ (LastIndex (ldb2, w2)).1 = Ok 1 /\
    StoreLogs [mkRaftLog 1 1 0 abc [] 0] (ldb2, w2) = (Err io_EOF, s2).
Proof.
  assert (Hlim : limits_ok store_config) by (by vm_compute).
  assert (Hwf : Forall (fun lg => record_wf (record_of_log lg)) [mkRaftLog 1 1 0 abc [] 0])
    by (repeat constructor; by vm_compute).
  pose proof raft_left_open as Hopen. unfold store_disk in Hopen.
  destruct served_fit as (l & ldb & Hl & Hs & Hdir & Hfit & Hm).
  assert (Hin : match ag_log served_one.2.1 with Some (l, _) => bool_decide (map_Forall (fun _ => segment_in data_log) (l_heap l)) = true
    | None => False end) by (vm_compute; reflexivity).
  assert (E : (agent_Shutdown served_one.2).1 = Ok tt) by (vm_compute; reflexivity).
  revert E Hl Hs Hfit Hin Hopen. destruct served_one as [o [a y]]. cbn [fst snd]. clear o. intros E Hl Hs Hfit Hin Hopen.
  rewrite Hl in Hin. apply bool_decide_eq_true in Hin.
  destruct (agent_Shutdown (a, y)) as [o' s'] eqn:Es. cbn [fst snd] in E. subst o'.
  destruct (restart_refuses_entries a y l ldb 0 [mkRecord abc 0 7 1] s' raft_dir store_config [] 1 Hs Hl Hfit) as [_ H].
  - split; [reflexivity|]. rewrite Hdir. exact Hin.
  - rewrite Hm. exact agent_submits.
  - clear. cbn. lia.
  - rewrite Hdir. discriminate.
  - exact Hlim.
  - clear. lia.
  - exact Hopen.
  - exact Es.
  - destruct H as (ldb2 & w2 & K1 & K2 & K3). destruct (K3 [mkRaftLog 1 1 0 abc [] 0]) as [s2 K4].
    + discriminate.
    + exact Hwf.
    + exists s', ldb2, w2, s2. split; [exact eq_refl|]. split; [exact K1|]. split; [exact K2|exact K4].
Defined.
End RestartWitness.
