(* ===== verification/Main.v ===== *)
(** [cmd/server/main.go]: the command line, the server it starts and how it
    stops.

    The command-line library, [godotenv], [otelconnect], the signals and the
    sockets are dependencies.  The server that [main.go] starts has no commit log:
    its handlers run on a state without one. *)

From S2P Require Import Prelude Proto Http Server Tls Auth Service Otel Agent.

(** [defer d()]: [d] runs when the rest of the function is over, however it ended;
    what it returns is dropped. *)
Definition defer {S A} (d : M S unit) (m : M S A) : M S A := fun s =>
  let (o, s1) := m s in
  match d s1 with
  | (Panic p, s2) => (Panic p, s2)
  | (_, s2) => (o, s2)
  end.

(** ** The command line *)

(** The variables of the package that the flags set. *)
Record vars := mkVars {
  v_crt : string;
  v_key : string;
  v_ca : string;
  v_serverName : string;
  v_listenAddress : string;
  v_aclModelFile : string;
  v_aclPolicyFile : string
}.
Definition vars_zero : vars := mkVars "" "" "" "" "" "" "".

(** [cli.StringFlag]; its destination is the assignment. *)
Record StringFlag := mkStringFlag {
  fl_Name : string;
  fl_EnvVars : list string;
  fl_Value : string;
  fl_Destination : string -> vars -> vars
}.

(** [app.Flags] *)
Definition app_Flags : list StringFlag := [
  mkStringFlag "listen-address" ["LISTEN_ADDRESS"] ":8080" (fun x v =>
    mkVars (v_crt v) (v_key v) (v_ca v) (v_serverName v) x (v_aclModelFile v) (v_aclPolicyFile v));
  mkStringFlag "crt" ["CERT"] "" (fun x v =>
    mkVars x (v_key v) (v_ca v) (v_serverName v) (v_listenAddress v) (v_aclModelFile v) (v_aclPolicyFile v));
  mkStringFlag "key" ["KEY"] "" (fun x v =>
    mkVars (v_crt v) x (v_ca v) (v_serverName v) (v_listenAddress v) (v_aclModelFile v) (v_aclPolicyFile v));
  mkStringFlag "ca" ["CA"] "" (fun x v =>
    mkVars (v_crt v) (v_key v) x (v_serverName v) (v_listenAddress v) (v_aclModelFile v) (v_aclPolicyFile v));
  mkStringFlag "server-name" ["SERVER_NAME"] "" (fun x v =>
    mkVars (v_crt v) (v_key v) (v_ca v) x (v_listenAddress v) (v_aclModelFile v) (v_aclPolicyFile v));
  mkStringFlag "acl-model-file" ["ACL_MODEL_FILE"] "" (fun x v =>
    mkVars (v_crt v) (v_key v) (v_ca v) (v_serverName v) (v_listenAddress v) x (v_aclPolicyFile v));
  mkStringFlag "acl-policy-file" ["ACL_POLICY_FILE"] "" (fun x v =>
    mkVars (v_crt v) (v_key v) (v_ca v) (v_serverName v) (v_listenAddress v) (v_aclModelFile v) x)
]%string.

(** [godotenv.Load], and the part of [app.Run] before the action: the value of each
    flag, or [None] when the library answers itself ([--help], [--version]). *)
Class Cli (P : Type) := {
  godotenv_Load : string -> M P unit;
  cli_values : list StringFlag -> M P (option (list string))
}.

Definition assign (v : vars) (fx : StringFlag * string) : vars := fl_Destination fx.1 fx.2 v.

(** ** The server *)

(** [tls.Listen], [Close] of a listener, [Shutdown] of the server of the process with
    whether its context is done, and the signals. *)
Class HostNet (N : Type) := {
  tls_Listen : string -> option tls_Config -> M N nat;
  listener_Close : nat -> M N unit;
  srv_Shutdown : bool -> M N unit;
  signal_Notify : N -> N;
  signal_Stop : N -> N
}.

(** What the [select] of the action receives: what [Serve] returned, or the
    interruption of the context. *)
Inductive select_event := SrvErr (e : error) | CtxDone.

Section main.
Context {P O N S : Type} `{Cli P} `{OtelLib O} `{HostNet N}.
Context `{ConnectLib (svc S)} `{H2C (svc S)}.
Context `{ProtoMessage ProduceRequest} `{ProtoMessage ProduceResponse}.
Context `{ProtoMessage ConsumeRequest} `{ProtoMessage ConsumeResponse}.
Context `{ProtoMessage ProduceStreamRequest} `{ProtoMessage ProduceStreamResponse}.
Context `{ProtoMessage ConsumeStreamRequest} `{ProtoMessage ConsumeStreamResponse}.
(** [casbin.NewEnforcer], [otelconnect.NewInterceptor], and how certificates are read. *)
Variable newEnforcer : string -> string -> outcome Enforcer.
Variable otelconnect_NewInterceptor : nat -> nat -> list string -> outcome unit.
Variable LoadX509KeyPair : string -> string -> outcome string.
Variable read_certs : string -> outcome (list string).

(** The process: its environment, telemetry, the sockets, whether the context of
    the action is done, and the handler of the server it started. *)
Record proc := mkProc {
  pr_cli : P;
  pr_otel : list shutdown_func * O;
  pr_net : N;
  pr_done : bool;
  pr_srv : option (http_Handler (svc S))
}.

Definition on_cli {A} (m : M P A) : M proc A :=
  zoom pr_cli (fun x s => mkProc x (pr_otel s) (pr_net s) (pr_done s) (pr_srv s)) m.
Definition on_otel {A} (m : M (list shutdown_func * O) A) : M proc A :=
  zoom pr_otel (fun x s => mkProc (pr_cli s) x (pr_net s) (pr_done s) (pr_srv s)) m.
Definition on_host {A} (m : M N A) : M proc A :=
  zoom pr_net (fun x s => mkProc (pr_cli s) (pr_otel s) x (pr_done s) (pr_srv s)) m.
Definition cancel : M proc unit :=
  modify (fun s => mkProc (pr_cli s) (pr_otel s) (pr_net s) true (pr_srv s)).
Definition start (h : http_Handler (svc S)) : M proc unit :=
  modify (fun s => mkProc (pr_cli s) (pr_otel s) (pr_net s) (pr_done s) (Some h)).

(** The function [stop] of [signal.NotifyContext]: it also cancels the context. *)
Definition stop : M proc unit := on_host (modify signal_Stop);; cancel.

(** The routes, from the interceptors. *)
Definition main_routes (interceptors : list (connect_Interceptor (svc S))) : outcome (http_Handler (svc S)) :=
  let opts := [] ++ [WithInterceptors interceptors] in
  match server_NewLogAPIHandler (Some (mkServerConfig None)) opts with
  | Ok (path, handler) => Ok (mux_ServeHTTP (Handle path handler NewServeMux))
  | Err e => Err e
  | Panic p => Panic p
  end.

(** The interceptors before that of telemetry: with the policy when both of its
    files are named. *)
Definition main_interceptors (v : vars) : outcome (list (connect_Interceptor (svc S))) :=
  let interceptors := [UnaryInterceptor LoggingInterceptor] in
  if bool_decide (v_aclModelFile v <> ""%string) && bool_decide (v_aclPolicyFile v <> ""%string) then
    match auth_New newEnforcer (v_aclModelFile v) (v_aclPolicyFile v) with
    | Ok auth => Ok (interceptors ++ [UnaryInterceptor (Interceptor auth)])
    | Err e => Err e
    | Panic p => Panic p
    end
  else Ok interceptors.

(** The TLS configuration of the listener: [nil] when its set-up failed. *)
Definition main_tls (v : vars) : outcome (option tls_Config) :=
  match SetupServerTLSConfig LoadX509KeyPair read_certs (v_crt v) (v_key v) (v_ca v) (v_serverName v) (Some tls_zero) with
  | Err _ => Ok None
  | o => o
  end.

(** The deferred function that stops the server. *)
Definition stop_server (l : nat) : M proc unit :=
  s ← get;
  try (on_host (srv_Shutdown (pr_done s)));;
  try (on_host (listener_Close l));;
  mret tt.

(** The [select], at which the action waits. *)
Definition main_select (ev : select_event) : M proc unit :=
  match ev with
  | SrvErr e => throw e
  | CtxDone => cancel;; stop
  end.

(** From the TLS configuration on. *)
Definition main_serve (v : vars) (r : http_Handler (svc S)) (ev : select_event) : M proc unit :=
  tlsConfig ← lift (main_tls v);
  l ← on_host (tls_Listen ":0" tlsConfig);
  start (AuthMiddleware (h2c_NewHandler r));;
  defer (stop_server l) (main_select ev).

(** From the ACL on, after the signals. *)
Definition main_body (v : vars) (ev : select_event) : M proc unit :=
  interceptors ← lift (main_interceptors v);
  p ← on_otel (SetupOTelSDK None None);
  let '(traceProvider, meterProvider, prop) := p in
  defer (try (on_otel otel_shutdown);; mret tt) (
    lift (otelconnect_NewInterceptor traceProvider meterProvider prop);;
    r ← lift (main_routes (interceptors ++ [OtelInterceptor traceProvider meterProvider prop]));
    main_serve v r ev).

(** [app.Action] *)
Definition Action (v : vars) (ev : select_event) : M proc unit :=
  on_host (modify signal_Notify);;
  defer stop (main_body v ev).

(** [app.Run] *)
Definition app_Run (ev : select_event) : M proc unit :=
  values ← on_cli (cli_values app_Flags);
  match values with
  | None => mret tt
  | Some values => Action (foldl assign vars_zero (zip app_Flags values)) ev
  end.

(** [main], with the exit status of the process ([log.Fatal] exits with 1). *)
Definition main (ev : select_event) : M proc Z :=
  try (on_cli (godotenv_Load ".env.local"));;
  try (on_cli (godotenv_Load ".env"));;
  r ← try (app_Run ev);
  match r with inl _ => mret 0 | inr _ => mret 1 end.
End main.
