(* ===== verification/MainProps.v ===== *)
(** The server of the command line: what its calls do without a commit log, when it
    starts and how it stops. *)

From S2P Require Import Prelude Proto Wire Http Server Tls Auth Service Otel Agent ServiceProps Main.

(** [tls.Listen]: "The configuration config must be non-nil and must include at
    least one certificate or else set GetCertificate." *)
Definition has_certificate (cfg : option tls_Config) : Prop :=
  exists c, cfg = Some c /\ tls_Certificates c <> [].
Class HostLaws (N : Type) `{HostNet N} := {
  law_tls_Listen addr cfg n : ~ has_certificate cfg -> exists e n', tls_Listen addr cfg n = (Err e, n')
}.

Lemma keeps_defer {S A} (P : S -> Prop) (Q : A -> Prop) (d : M S unit) (m : M S A) :
  keeps P (fun _ => True) d -> keeps P Q m -> keeps P Q (defer d m).
Proof.
  intros Hd Hm s Hs. unfold defer. destruct (Hm s Hs) as [H1 H2]. destruct (m s) as [o s1].
  destruct (Hd s1 H1) as [H3 _]. by destruct (d s1) as [[]?].
Qed.
#[local] Hint Extern 1 (keeps _ _ (defer _ _)) => eapply keeps_defer : keeps.

Section main.
Context {P O N S : Type} `{Hcli : Cli P} `{Hotel : OtelLib O} `{Hnet : HostNet N}.
Context `{Hconn : ConnectLib (svc S)} {Hlaws : ConnectLaws (svc S)} `{Hh2c : H2C (svc S)} {Hh2cl : H2CLaws (svc S)}.
Context `{Mpq : ProtoMessage ProduceRequest} `{Mpr : ProtoMessage ProduceResponse}.
Context `{Mcq : ProtoMessage ConsumeRequest} `{Mcr : ProtoMessage ConsumeResponse}.
Context `{Mpsq : ProtoMessage ProduceStreamRequest} `{Mpsr : ProtoMessage ProduceStreamResponse}.
Context `{Mcsq : ProtoMessage ConsumeStreamRequest} `{Mcsr : ProtoMessage ConsumeStreamResponse}.
Variable newEnforcer : string -> string -> outcome Enforcer.
Variable otelconnect : nat -> nat -> list string -> outcome unit.
Variable load : string -> string -> outcome string.
Variable read : string -> outcome (list string).
Implicit Types (v : vars) (h : http_Handler (svc S)) (s : svc S).
Local Abbreviation proc := (proc (P := P) (O := O) (N := N) (S := S)).
Local Abbreviation Action := (Action (P := P) (O := O) (N := N) (S := S) newEnforcer otelconnect load read).

(** ** Calls *)

Definition panics {A B} (o : outcome A * B) : Prop := exists p, o.1 = Panic p.

(** The policy of the command line, if there is one, allows the procedure. *)
Definition allowed v (name path : string) : Prop :=
  v_aclModelFile v <> ""%string -> v_aclPolicyFile v <> ""%string ->
  forall auth, auth_New newEnforcer (v_aclModelFile v) (v_aclPolicyFile v) = Ok auth -> auth name "*"%string path = Ok true.

(** An interceptor that passes the panic of a call on. *)
Definition transparent (i : connect_Interceptor (svc S)) (name path : string) : Prop :=
  forall (Req Resp : Set) (f : UnaryFunc (svc S) Req Resp) ctx req,
    GetAuthInfo ctx = name -> sp_Procedure (cq_Spec req) = path ->
    (forall s, panics (f ctx req s)) -> forall s, panics (wrap_unary i _ _ f ctx req s).

Lemma Logging_transparent name path : transparent (UnaryInterceptor LoggingInterceptor) name path.
Proof.
  intros Req Resp f ctx req _ _ Hf s. cbn. destruct (f ctx req (ticked s)) as [o s1] eqn:E.
  destruct (LoggingInterceptor_run _ _ _ _ _ _ E) as (s' & -> & _).
  destruct (Hf (ticked s)) as [p Hp]. rewrite E in Hp. cbn in Hp. subst o. by exists p.
Qed.

Lemma Interceptor_transparent auth name path :
  auth name "*"%string path = Ok true -> transparent (UnaryInterceptor (Interceptor auth)) name path.
Proof. intros Ha Req Resp f ctx req <- <- Hf s. cbn [wrap_unary]. rewrite Interceptor_run, Ha. apply Hf. Qed.

Lemma Error_transparent name path : transparent (UnaryInterceptor NewErrorInterceptor) name path.
Proof.
  intros Req Resp f ctx req _ _ Hf s. cbn. destruct (Hf s) as [p Hp]. unfold NewErrorInterceptor, with_connect_error.
  destruct (f ctx req s) as [o s1]. cbn in Hp. subst o. by exists p.
Qed.

Lemma Otel_transparent t m prop name path : transparent (OtelInterceptor t m prop) name path.
Proof. intros Req Resp f ctx req _ _ Hf s. apply Hf. Qed.

Lemma chain_panics {Req Resp : Set} opts (f : UnaryFunc (svc S) Req Resp) ctx req :
  Forall (fun i => transparent i (GetAuthInfo ctx) (sp_Procedure (cq_Spec req))) (option_interceptors opts) ->
  (forall s, panics (f ctx req s)) -> forall s, panics (unary_chain opts f ctx req s).
Proof.
  intros Ho Hf. unfold unary_chain. induction Ho as [|i ics Hi _ IH]; cbn [foldr]; [done|]. by apply Hi.
Qed.

Definition main_opts (ics : list (connect_Interceptor (svc S))) : list (HandlerOption (svc S)) :=
  [WithInterceptors ics; WithInterceptors [UnaryInterceptor NewErrorInterceptor]].

Lemma unary_panics {Req Resp : Set} `{ProtoMessage Req} `{ProtoMessage Resp} opts spec
    (f : UnaryFunc (svc S) Req Resp) r b (m : Req) s :
  rpc_request r b -> Unmarshal b = Ok m ->
  Forall (fun i => transparent i (GetAuthInfo (req_Context r)) (sp_Procedure spec)) (option_interceptors opts) ->
  (forall ctx req s, panics (f ctx req s)) -> panics (NewUnaryHandler spec f opts r s).
Proof.
  intros (E1 & E2 & E3) Hb Ho Hf. rewrite (law_unary _ _ _ _ b m) by done. unfold unary_response.
  destruct (chain_panics opts f (req_Context r) (mkConnectRequest m spec (req_RemoteAddr r)) Ho (Hf _ _) s) as [p Hp].
  destruct (unary_chain _ _ _ _ _) as [o s1]. cbn in Hp. subst o. by exists p.
Qed.

Lemma nil_Produce_panics ctx req s : panics (Produce (mkServerConfig None) ctx req s).
Proof. by eexists. Qed.
Lemma nil_Consume_panics ctx req s : panics (Consume (mkServerConfig None) ctx req s).
Proof. by eexists. Qed.

Definition main_api ics : http_Handler (svc S) :=
  (connect_NewLogAPIHandler (log_handler (mkServerConfig None)) (main_opts ics)).2.

Lemma main_routes_Ok ics :
  main_routes ics = Ok (mux_ServeHTTP [("/log.v1.LogAPI/"%string, main_api ics)]).
Proof. reflexivity. Qed.

(** Every handler that [main] makes panics on the unary calls it lets through. *)
Lemma main_routes_panic ics h r name b s :
  main_routes ics = Ok h -> is_user name r -> well_formed r b ->
  Forall (fun i => transparent i name (req_Path r)) ics -> panics (AuthMiddleware (h2c_NewHandler h) r s).
Proof.
  rewrite main_routes_Ok. intros [= <-] (rest & chains & Hu) [Hr Hp] Hi. pose proof (proj1 Hr) as Hm.
  rewrite (authenticated_served _ _ _ _ _ Hu), law_h2c by (cbn; by rewrite Hm).
  set (r' := WithContext _ r). assert (Hr' : rpc_request r' b) by exact Hr.
  assert (Ho : Forall (fun i => transparent i (GetAuthInfo (req_Context r')) (req_Path r))
                 (option_interceptors (main_opts ics))).
  { unfold option_interceptors, main_opts. cbn. rewrite list.Forall_app. split; [exact Hi|].
    repeat constructor. apply Error_transparent. }
  rewrite mux_procedure by (try exact Hm; destruct Hp as [[E _]|[E _]]; cbn; rewrite E; set_solver).
  unfold main_api, connect_NewLogAPIHandler. cbn [snd]. change (req_Path r') with (req_Path r).
  destruct Hp as [[E [m Hb]]|[E [m Hb]]]; rewrite E in *;
    [rewrite bool_decide_eq_true_2 by done|rewrite bool_decide_eq_false_2, bool_decide_eq_true_2 by done];
    (eapply unary_panics; [exact Hr'|exact Hb|exact Ho|]).
  - apply nil_Produce_panics.
  - apply nil_Consume_panics.
Qed.

Lemma main_interceptors_transparent v ics name path :
  main_interceptors newEnforcer v = Ok ics -> allowed v name path -> Forall (fun i => transparent i name path) ics.
Proof.
  unfold main_interceptors, allowed. intros Hi Ha.
  repeat case_bool_decide; cbn in Hi; simplify_eq/=; try by repeat constructor; apply Logging_transparent.
  destruct (auth_New _ _ _) as [auth| |]; simplify_eq.
  repeat constructor; [apply Logging_transparent|]. by apply Interceptor_transparent, Ha.
Qed.

(** ** The action *)

(** A state whose server, if there is one, has a handler with [G]. *)
Definition serves (G : http_Handler (svc S) -> Prop) (x : proc) : Prop := forall h, pr_srv x = Some h -> G h.

Section serves.
Context (G : http_Handler (svc S) -> Prop).

Lemma keeps_on_host {A} (m : M N A) : keeps (serves G) (fun _ => True) (on_host (P := P) (O := O) m).
Proof. intros x Hx. unfold on_host, zoom. destruct (m _) as [o n]. split; [exact Hx|by destruct o]. Qed.
Lemma keeps_on_otel {A} (m : M _ A) : keeps (serves G) (fun _ => True) (on_otel (P := P) (N := N) m).
Proof. intros x Hx. unfold on_otel, zoom. destruct (m _) as [o n]. split; [exact Hx|by destruct o]. Qed.
Lemma keeps_cancel : keeps (serves G) (fun _ => True) (cancel (P := P) (O := O) (N := N)).
Proof. by apply keeps_modify. Qed.
Lemma keeps_stop : keeps (serves G) (fun _ => True) (stop (P := P) (O := O)).
Proof. eapply keeps_bind; [apply keeps_on_host|]. intros _ _. apply keeps_cancel. Qed.

Lemma keeps_stop_server l : keeps (serves G) (fun _ => True) (stop_server (P := P) (O := O) l).
Proof.
  unfold stop_server. keeps_step. eapply keeps_bind; [apply keeps_try, keeps_on_host|]. intros _ _.
  eapply keeps_bind; [apply keeps_try, keeps_on_host|]. intros _ _. by apply keeps_ret.
Qed.

Lemma keeps_main_serve v h ev :
  G (AuthMiddleware (h2c_NewHandler h)) -> keeps (serves G) (fun _ => True) (main_serve (P := P) (O := O) load read v h ev).
Proof.
  intros Hh. unfold main_serve. eapply (keeps_bind _ (fun _ => True)); [by apply keeps_lift|]. intros cfg _.
  eapply keeps_bind; [apply keeps_on_host|]. intros l _.
  eapply keeps_bind; [apply keeps_modify; by intros x Hx h' [= <-]|]. intros _ _.
  apply keeps_defer; [apply keeps_stop_server|]. destruct ev as [e|]; [apply keeps_throw|].
  eapply keeps_bind; [apply keeps_cancel|]. intros _ _. apply keeps_stop.
Qed.
End serves.

(** The handler of the server is made of the interceptors of the command line. *)
Definition from_flags v h : Prop := exists ics t m prop,
  main_interceptors newEnforcer v = Ok ics /\
  exists r, main_routes (ics ++ [OtelInterceptor t m prop]) = Ok r /\ h = AuthMiddleware (h2c_NewHandler r).

Lemma Action_serves v ev : keeps (serves (from_flags v)) (fun _ => True) (Action v ev).
Proof.
  eapply keeps_bind; [apply keeps_on_host|]. intros _ _. apply keeps_defer; [apply keeps_stop|].
  eapply (keeps_bind _ (fun ics => main_interceptors newEnforcer v = Ok ics)); [by apply keeps_lift|]. intros ics Hi.
  eapply keeps_bind; [apply keeps_on_otel|]. intros [[t m] prop] _. apply keeps_defer.
  { eapply keeps_bind; [apply keeps_try, keeps_on_otel|]. intros _ _. by apply keeps_ret. }
  eapply (keeps_bind _ (fun _ => True)); [by apply keeps_lift|]. intros _ _.
  eapply keeps_bind; [apply keeps_lift; intros h Hh; exact Hh|]. intros h Hh. cbn beta in Hh.
  apply keeps_main_serve. exists ics, t, m, prop. split; [done|]. by exists h.
Qed.

(** C40. The server of the command line serves no unary call: it is configured
    without a commit log, so that every well-formed [Produce] or [Consume] of a
    client with a verified certificate, unless the policy named on the command
    line refuses it, panics on the [nil] log. *)
Theorem main_calls_panic v ev x h r name b s :
  pr_srv x = None -> pr_srv (Action v ev x).2 = Some h ->
  is_user name r -> well_formed r b -> allowed v name (req_Path r) -> panics (h r s).
Proof.
  intros Hx Hh Hu Hw Ha.
  assert (Hs : serves (from_flags v) x) by (intros h'; by rewrite Hx).
  destruct (Action_serves v ev x Hs) as [Hf _]. destruct (Hf h Hh) as (ics & t & m & prop & Hi & mux & Hr & ->).
  eapply main_routes_panic; [done..|]. rewrite list.Forall_app. split; [by eapply main_interceptors_transparent|].
  repeat constructor. apply Otel_transparent.
Qed.

(** ** Starting without a certificate *)

Section start.
Context {Hlisten : HostLaws N}.
(** The libraries return their errors. *)
Hypothesis newEnforcer_returns : forall a b p, newEnforcer a b <> Panic p.
Hypothesis otelconnect_returns : forall t m l p, otelconnect t m l <> Panic p.
Hypothesis read_returns : forall a p, read a <> Panic p.
Hypothesis shutdown_returns : forall fn (o : O) p, (call_shutdown fn o).1 <> Panic p.

(** No certificate and key are named, or they cannot be loaded. *)
Definition no_certificate v : Prop :=
  v_crt v = ""%string \/ v_key v = ""%string \/ exists e, load (v_crt v) (v_key v) = Err e.

Lemma main_tls_no_certificate v :
  no_certificate v -> exists cfg, main_tls load read v = Ok cfg /\ ~ has_certificate cfg.
Proof.
  intros Hn. assert (Hnone : ~ has_certificate None) by (intros (c & [=] & _)).
  unfold main_tls, SetupServerTLSConfig.
  assert (Hadd : add_certificate load (v_crt v) (v_key v) tls_zero = Ok tls_zero \/
                 exists e, add_certificate load (v_crt v) (v_key v) tls_zero = Err e).
  { unfold add_certificate. repeat case_bool_decide; cbn; try by left.
    destruct Hn as [Hn|[Hn|[e Hn]]]; [done..|]. rewrite Hn. right. by exists e. }
  destruct Hadd as [->|[e ->]]; cbn [outcome_bind]; [|by exists None].
  assert (Hz : forall c, tls_Certificates c = [] -> ~ has_certificate (Some c)) by (by intros c Hc (c' & [= <-] & ?)).
  case_bool_decide; [|eexists; split; [done|by apply Hz]].
  destruct (read (v_ca v)) as [certs|e|p] eqn:E; cbn [outcome_bind].
  - eexists. split; [done|by apply Hz].
  - by exists None.
  - by destruct (read_returns (v_ca v) p).
Qed.

(** What a failed start leaves: telemetry is shut down, there is no server. *)
Definition released (x x' : proc) : Prop := (pr_otel x').1 = [] /\ pr_srv x' = pr_srv x.

Lemma main_serve_fails v h ev (x : proc) :
  no_certificate v -> exists e x', main_serve load read v h ev x = (Err e, x') /\ pr_srv x' = pr_srv x.
Proof.
  intros Hn. destruct (main_tls_no_certificate v Hn) as (cfg & Hc & Hcfg).
  destruct (law_tls_Listen ":0" cfg (pr_net x) Hcfg) as (e & n & Hl).
  unfold main_serve, on_host. mrun. rewrite Hc, Hl. by eexists _, _.
Qed.

(** The function that is deferred after the set-up of telemetry. *)
Lemma defer_shutdown {A} (m : M proc A) (x : proc) e x1 :
  m x = (Err e, x1) -> pr_srv x1 = pr_srv x ->
  exists x2, defer (try (on_otel otel_shutdown);; mret tt) m x = (Err e, x2) /\ released x x2.
Proof.
  intros Hm Hs. unfold defer. rewrite Hm. destruct x1 as [c [fns o] n d h].
  destruct (otel_shutdown_run fns o shutdown_returns) as (err & Hrun & _).
  unfold on_otel. mrun. rewrite Hrun. eexists. split; [done|]. by split.
Qed.

Lemma defer_stop {A} (m : M proc A) (x : proc) e x1 :
  m x = (Err e, x1) -> released x x1 -> exists x2, defer stop m x = (Err e, x2) /\ released x x2.
Proof. intros Hm [H1 H2]. unfold defer. rewrite Hm. eexists. split; [reflexivity|by split]. Qed.

Lemma main_interceptors_returns v p : main_interceptors (S := S) newEnforcer v <> Panic p.
Proof.
  unfold main_interceptors, auth_New. destruct (_ && _); [|done].
  destruct (newEnforcer _ _) as [auth|e|q] eqn:E; [done..|]. by destruct (newEnforcer_returns _ _ _ E).
Qed.

Lemma main_body_fails v ev (x : proc) :
  no_certificate v -> (pr_otel x).1 = [] ->
  exists e x', main_body newEnforcer otelconnect load read v ev x = (Err e, x') /\ released x x'.
Proof.
  intros Hn Hx. destruct x as [c [fns o] n d srv]. cbn in Hx. subst fns. unfold main_body.
  destruct (main_interceptors (S := S) newEnforcer v) as [ics|e|p] eqn:Ei.
  - erewrite bind_Ok by (unfold lift; reflexivity).
    destruct (SetupOTelSDK_Ok None None o) as (t & m & o1 & Ho).
    erewrite bind_Ok by (unfold on_otel, zoom; cbn [pr_otel]; rewrite Ho; reflexivity). cbn [fst snd].
    set (x1 := mkProc _ _ _ _ _).
    match goal with |- context [defer _ ?m x1] => assert (Hb : exists e x2, m x1 = (Err e, x2) /\ pr_srv x2 = srv) end.
    { destruct (otelconnect t m newPropagator) as [[]|e|p] eqn:Eo.
      + erewrite bind_Ok by (unfold lift; reflexivity). rewrite main_routes_Ok.
        erewrite bind_Ok by (unfold lift; reflexivity). by apply (main_serve_fails v _ ev x1).
      + eexists _, _. split; [by apply bind_Err|done].
      + by destruct (otelconnect_returns _ _ _ _ Eo). }
    destruct Hb as (e & x2 & Hb & Hs). destruct (defer_shutdown _ x1 e x2 Hb Hs) as (x3 & -> & Hr). by eexists _, _.
  - eexists _, _. split; [by apply bind_Err|done].
  - by destruct (main_interceptors_returns v p).
Qed.

(** Without a certificate and key that can be loaded the server does not start:
    the action returns an error, whatever else is configured, with telemetry shut
    down and no server running. *)
Theorem start_needs_certificate v ev (x : proc) :
  no_certificate v -> (pr_otel x).1 = [] -> exists e x', Action v ev x = (Err e, x') /\ released x x'.
Proof.
  intros Hn Hx. unfold Main.Action. erewrite bind_Ok by reflexivity.
  set (x0 := mkProc _ _ _ _ _). destruct (main_body_fails v ev x0 Hn Hx) as (e & x1 & Hb & Hr).
  destruct (defer_stop _ _ _ _ Hb Hr) as (x2 & -> & Hx2). by eexists _, _.
Qed.
End start.

(** The address of the command line is not used. *)
Lemma listen_address_ignored v addr ev :
  Action v ev = Action (mkVars (v_crt v) (v_key v) (v_ca v) (v_serverName v) addr (v_aclModelFile v) (v_aclPolicyFile v)) ev.
Proof. reflexivity. Qed.

(** On an interruption the server is shut down with a context that is already done,
    so that [Shutdown] does not wait for the calls in progress. *)
Lemma interrupted_shutdown l (x : proc) :
  (forall n p, (srv_Shutdown true n).1 <> Panic p) -> (forall n p, (listener_Close l n).1 <> Panic p) ->
  exists x', defer (stop_server l) (main_select CtxDone) x = (Ok tt, x') /\
    pr_net x' = (listener_Close l (srv_Shutdown true (signal_Stop (pr_net x))).2).2.
Proof.
  intros H1 H2. unfold defer, stop_server, main_select, stop, cancel, on_host. mrun.
  specialize (H1 (signal_Stop (pr_net x))). destruct (srv_Shutdown _ _) as [o1 n1]. cbn in *.
  specialize (H2 n1). destruct o1 as [[]|e|p]; [..|by destruct (H1 p)];
    cbn; destruct (listener_Close l n1) as [[[]|e2|p2] n2]; cbn in *; try (by eexists); by destruct (H2 p2).
Qed.
End main.

(** ** Witnesses: a host that records the calls. *)
Module MainWitness.
Import Wire ConnectRef OtelWitness ServiceWitness.

#[export] Instance cli : Cli unit := {|
  godotenv_Load := fun file => throw (errors_New file);
  cli_values := fun flags => mret (Some (fl_Value <$> flags))
|}.

#[export] Instance host : HostNet (list string) := {|
  tls_Listen := fun addr cfg n =>
    match cfg with
    | Some (mkTLS (_ :: _) _ _ _ _) => (Ok 0%nat, n ++ ["listen " +:+ addr]%string)
    | _ => (Err (errors_New "tls: neither Certificates, GetCertificate, nor GetConfigForClient set in Config"), n)
    end;
  listener_Close := fun _ n => (Ok tt, n ++ ["close"%string]);
  srv_Shutdown := fun done n => (Ok tt, n ++ [if (done : bool) then "shutdown at once"%string else "shutdown"%string]);
  signal_Notify := fun n => n ++ ["notify"%string];
  signal_Stop := fun n => n ++ ["stop"%string]
|}.

#[export] Instance host_laws : HostLaws (list string).
Proof.
  split. intros addr cfg n Hc. cbn. destruct cfg as [[[|c cs] roots cas auth name]|]; [by eexists _, _| |by eexists _, _].
  destruct Hc. by eexists.
Qed.

Definition enforcers : string -> string -> outcome Enforcer := fun _ _ => Ok policy.
Definition providers : nat -> nat -> list string -> outcome unit := fun _ _ _ => Ok tt.
Definition key_pair : string -> string -> outcome string := fun crt _ => Ok crt.
Definition no_file : string -> outcome (list string) := fun f => Err (errors_New f).

Definition p0 : proc (P := unit) (O := list string) (N := list string) (S := unit) := mkProc tt ([], []) [] false None.
Definition with_cert : vars := mkVars "crt.pem" "key.pem" "" "" ":8080" "model" "policy".
Definition ran := Action enforcers providers key_pair no_file with_cert CtxDone p0.
Definition handler : http_Handler (svc unit) := default http_NotFound (pr_srv ran.2).
Definition root_produces : Request :=
  from "root" LogAPIProduceProcedure "application/proto" [message (mkProduceRequest None)] [].

Example ran_trace :
  ran.1 = Ok tt /\
  pr_net ran.2 = ["notify"; "listen :0"; "stop"; "shutdown at once"; "close"; "stop"]%string /\
  pr_otel ran.2 = ([], ["tracer"; "meter"]%string).
Proof. by vm_compute. Qed.

Example default_flags_exit_1 :
  (main enforcers providers key_pair no_file CtxDone p0).1 = Ok 1.
Proof. by vm_compute. Qed.

Lemma main_calls_panic_witness : panics (handler root_produces (mkSvc tt [] 0 [])).
Proof.
  apply (main_calls_panic enforcers providers key_pair no_file with_cert CtxDone p0 handler root_produces "root"
           (message (mkProduceRequest None))).
  - reflexivity.
  - reflexivity.
  - by exists [], [].
  - split; [split; [reflexivity|split; [apply (bool_decide_unpack _); by vm_compute|reflexivity]]|]. left. split; [reflexivity|]. eexists. by vm_compute.
  - intros _ _ auth [= <-]. reflexivity.
Defined.

Definition without_cert : vars := mkVars "" "" "" "" ":8080" "" "".

Lemma start_needs_certificate_witness :
  exists e x', Action enforcers providers key_pair no_file without_cert CtxDone p0 = (Err e, x') /\ released p0 x'.
Proof.
  apply (start_needs_certificate enforcers providers key_pair no_file).
  - done.
  - done.
  - done.
  - by intros [] o p.
  - by left.
  - reflexivity.
Defined.
End MainWitness.
